(* ===== verification/_CoqProject ===== *)
-Q . S2P
Prelude.v
BTree.v
ByteCodec.v
Ids.v
Schema.v
MetaTypes.v
Paths.v
MetaState.v
MetaLeases.v
MetaLog.v
MetaCatalog.v
MetaCollections.v
MetaApply.v
CatalogInv.v
MetaFrames.v
MetaCatalogInv.v
MetaAliasInv.v
PartitionInv.v
MetaObjects.v
MetaLogInv.v
MetaInvariants.v
MetaSound.v
MetaEnv.v
MetaCommit.v
MetaLeaseInv.v
MetaPointerInv.v
MetaSteps.v
LogRefinement.v
MetaLedger.v
MetaRetired.v
MetaReads.v
MetaProperties.v
MetaSnapshot.v
SkTypes.v
SkStore.v
SkWal.v
SkStoreInv.v
SkHistory.v
SkTail.v
SkProto.v
SkProtoInv.v
SkAcceptor.v
SkPush.v
SkDurable.v
SkConn.v
SkProperties.v
LogBatch.v
LogBatchInv.v
LogWal.v
LogWalInv.v
LogSegment.v
LogSegmentInv.v
LogReader.v
LogReaderInv.v
LogWriter.v
LogWriterInv.v
LogWriterSteps.v
LogSegmenter.v
LogSegmenterInv.v
LogOrigin.v
LogSystem.v
LogFetch.v
LogDurable.v
LogRetention.v
LogGc.v
LogGcInv.v
LogDemo.v
LogProperties.v
TikvTuple.v
LiveKeys.v
LiveReadSet.v
TikvTxn.v
LiveValue.v
LiveDocs.v
LiveDocsInv.v
LiveScan.v
LiveMatch.v
LiveDemo.v
LiveProperties.v
