(* ===== verification/Prelude.v ===== *)
(** * Loams: a verification development

    Loams is a stream and document platform on object storage.  Its durable core has four parts,
    and this library models them from the source and proves what they promise.

    - The _metastore_ (crates loams-common and loams-meta) is a replicated state machine.  Raft
      orders commands; [MetaState::apply] runs them one by one.  It assigns offsets to the records
      of WAL objects, keeps the index of every stream partition, and holds leases, versioned
      pointers, the catalog of namespaces, streams, links and collections, and the ledger of
      idempotency keys.
    - The _log plane_ (crate loams-log) moves records.  A writer buffers appends, writes them as one
      WAL object and commits the object to the metastore.  A segmenter rewrites runs of WAL entries
      into segments and swaps them in.  A reader plans a fetch with the index and reads objects
      through a cache.  Retention trims and garbage collection deletes objects.
    - The _WAL service_ (crate loams-safekeeper) is a safekeeper of Postgres WAL: an acceptor that
      votes, takes WAL from an elected proposer, writes it to a store and acknowledges it.
    - The _document database_ (crates loams-tikv and loams-live) keeps documents and their index
      entries as keys of a TiKV cluster, inside its transactions.  A scan of an index range also
      answers the keys it depends on; the index of these read sets finds the queries a write can
      change.

    ** How the code is modelled

    Definitions follow the source function by function and keep its names.  Integers are [N] or [Z]
    with the wrap-around of their width written out ([u64_add], [u32_add], saturating and checked
    variants below).  A [BTreeMap] is a [gmap] with its ordered iteration (BTree.v).  A handler on
    [&mut self] takes the state and returns the state it leaves and a [Result], so that a handler
    that fails half way is seen to do so.  Early returns are the notations [LET], [TRY], [BAIL] and
    [REFUSE].  Asynchronous code is cut at its waits: what the object store, the metastore, the
    clock and the scheduler answer are arguments, and where tasks interleave there is a step
    relation ([conn_step] in SkPush.v, [wstep] in LogWriterSteps.v) or a history of states a run
    looks at in order (LogGc.v).

    Code that is not in the repository is a class with the laws its clients rely on: [Codec] for
    postcard, [Crc32c] for the crc32c crate, [Ulids] and [UlidParse] for the ulid crate, [Hex] for the
    hex crate, [Client] with [ClientOk] for the TiKV client, [LiveCodec] for protobuf, [IdText] for
    base32 and crc16.  Where components meet inside the repository there is a class as well: [WalStore] is
    the trait of WAL stores, with [WalStoreOk] its contract and the in-memory store an instance;
    [ObjectCache] is the range cache of the log; [Reads] with [ReadsOk] is what the documents read,
    a transaction or a snapshot.  The witnesses instantiate each of them.

    ** Files

    Shared:
    - Prelude.v: machine integers, results and early returns, generic lemmas, tactics and hints.
    - BTree.v: ordered maps.  ByteCodec.v: bytes, UTF-8, byte readers, the classes for codecs and
      checksums.

    The metastore:
    - Ids.v (loams-common/src/id.rs), Schema.v (schema.rs), MetaTypes.v (meta/types.rs,
      meta/error.rs, loams-meta/src/command.rs, types.rs), Paths.v (loams-log/src/paths.rs).
    - MetaState.v and MetaApply.v (loams-meta/src/state/mod.rs); the handlers in MetaLeases.v
      (leases.rs, idempotency.rs, pointers.rs), MetaLog.v (sequencer.rs, segments.rs, retention.rs), MetaCatalog.v (catalog.rs,
      links.rs, and the reads of store.rs) and MetaCollections.v (collections.rs, hot.rs); the
      consistency check in MetaInvariants.v (invariants.rs); snapshots in MetaSnapshot.v (codec.rs).
    - Invariants, each kept by every command: CatalogInv.v, MetaFrames.v,
      MetaCatalogInv.v (catalog), MetaAliasInv.v (aliases, hot configuration, pointers of
      collections), PartitionInv.v, MetaObjects.v, MetaLogInv.v (offset index and
      object lifecycle), MetaSound.v (the consistency check finds nothing).
    - Over runs: MetaEnv.v (what command logs the log plane writes), MetaCommit.v (commits),
      MetaLeaseInv.v (epochs and fences), MetaPointerInv.v (versions of pointers and schemas), MetaSteps.v and
      LogRefinement.v (what a command does to a partition, and the refinement of an append-only
      log), MetaRetired.v (retired objects and objects that cannot come into use),
      MetaLedger.v (idempotency keys), MetaReads.v (reads of committed chunks).
    - The theorems: MetaProperties.v, and at the end of MetaSnapshot.v.

    The WAL service:
    - SkTypes.v (types.rs, lib.rs), SkStore.v (store.rs), SkProto.v
      (proto.rs), SkAcceptor.v (acceptor.rs), SkTail.v and SkPush.v (service.rs).
    - SkWal.v, SkStoreInv.v, SkHistory.v, SkProtoInv.v, SkDurable.v and
      SkConn.v have their invariants; SkProperties.v the theorems.

    The log plane:
    - LogBatch.v (record.rs, error.rs, batch.rs), LogWal.v (wal.rs), LogSegment.v
      (segment.rs), LogReader.v (reader.rs), LogWriter.v (writer.rs), LogSegmenter.v (segmenter.rs),
      LogRetention.v (retention.rs), LogGc.v (gc.rs); most with an Inv file of its lemmas, and
      LogWriterSteps.v for the runs of the writer.
    - LogOrigin.v, LogSystem.v, LogFetch.v and LogDurable.v put the components together: a run of
      the metastore whose commands come from writers and segmenters, the objects they wrote, and
      readers that fetch from its states.
    - LogDemo.v is a small run of all of it, on which the hypotheses hold; LogProperties.v has the
      theorems.

    The document database:
    - TikvTuple.v (loams-tikv/src/codec.rs), TikvTxn.v (loams-tikv/src/txn.rs, with the errors of
      runner.rs and classify.rs): the tuple codec, and the reads and writes of a transaction.
    - LiveKeys.v (loams-live/src/keys.rs, ids.rs), LiveReadSet.v (readset.rs), LiveValue.v
      (value.rs, limits.rs, error.rs and the text of ids.rs), LiveDocs.v (catalog.rs, docs.rs).
    - LiveDocsInv.v: documents and entries in order, and what each operation writes; LiveScan.v: a
      scan as a function of the keys it reports; LiveMatch.v: which documents a scan finds.
    - LiveDemo.v is a store and an app on which the hypotheses hold; LiveProperties.v has the
      theorems.

    ** What is proved

    - Metastore: every reachable state passes the consistency check and its counters fit their
      types; partitions refine append-only logs; a commit takes effect once and what it answers can
      be read; a retired object is never used again; a lease epoch has one owner and a broken fence
      stays broken; versions name values; completed keys stay completed; refused commands change
      nothing; schemas only grow; a snapshot reads back and a damaged one is refused.
    - WAL service: committed WAL is kept, an acknowledgement is backed by the store, one vote per
      term, appends, reads, group commit and retries, the common point of histories, the wire
      format, the tail.
    - Log plane: batches, WAL objects and segments read back and damage is refused; a fetch returns
      the records of the log and fails only for the documented reasons; the records of an
      acknowledged append are returned by every later fetch until they are trimmed, whatever was
      segmented, trimmed and cached in between; a segment holds what it replaces; the writer's
      buffer is bounded and every append is answered once; a definite failure is definite;
      retention follows its policy; garbage collection deletes nothing that is or comes into use.
    - Document database: encoded tuples sort as their values and read back; a paged scan ends with
      the pairs of its range; documents behave as a map and each has exactly its index entries; a
      scan returns the documents that match, in index order; the index of read sets finds exactly
      the subscriptions a write touches; digests and ids.

    ** Bounds and fuel

    Theorems over runs bound the log's [log_weight] (records, bytes and commands) by [u64_MAX], so
    that 64-bit counters do not wrap; a run that reached it would have stored that many records.
    Loops of the source that are not structural have fuel that is shown or seen to suffice: the trim
    loop gets the number of index entries ([trim_loop_terminates]), a batch iterator the length of
    its buffer, since each batch has at least a header, the groups of a variable-length number are
    ten, since each takes seven of 64 bits, and those of a table id five.  The page loops of a
    transaction have no fuel: each turn lowers a measure of the keys still wanted and the size of a
    page ([iterate] in TikvTxn.v).  Retry loops and polls take the list of answers they
    meet; the theorems about their results hold for every such list.

    ** Not modelled

    - Raft, gRPC, HTTP, sockets, disks and the TiKV cluster: openraft, tonic, redb, io_uring and TiKV
      are outside the repository, and the code around them moves bytes.  What they rely on is
      modelled as a function (a run of commands, a WAL store).
    - The text of errors and logs: an error is its variant and the arguments that matter; the
      messages of the log plane are their format strings.
    - Collections, query, text and vector search (loams-collection, loams-query, loams-hot,
      loams-hnsw, loams-text, loams-quickwit): built on Lance, Tantivy, DataFusion and floating point
      search.
    - The journal, the subscriptions and the function runner of the document database and the retry
      loop of TiKV transactions (loams-live, loams-tikv), and the metastore on TiKV
      (loams-meta-tikv).
    - Protocol facades, generated code, test suites, mocks and binaries.
    - Termination of async tasks under a real scheduler; time passes only as the arguments say. *)

From Stdlib Require Import NArith Lia.
From stdpp Require Import prelude gmap strings numbers list.

(** ** Machine integers

    Unsigned machine integers are [N] values with their width written out.  Rust's
    [+], [-] on [u64] wrap around in a release build (the workspace sets no
    [overflow-checks]); [saturating_*] and [checked_*] are the library's. *)

Definition u32_MAX : N := 4294967295.
Definition u64_MAX : N := 18446744073709551615.
Definition u64_modulus : N := 18446744073709551616.
Definition i64_MIN : Z := (-9223372036854775808)%Z.
Definition i64_MAX : Z := 9223372036854775807%Z.

(** [a + b] on [u64]. *)
Definition u64_add (a b : N) : N := ((a + b) mod u64_modulus)%N.

(** [a - b] on [u64]. *)
Definition u64_sub (a b : N) : N := ((a + u64_modulus - b) mod u64_modulus)%N.

(** [a.saturating_add(b)] on [u64]. *)
Definition u64_saturating_add (a b : N) : N := N.min (a + b) u64_MAX.

(** [a.saturating_sub(b)]: truncated subtraction. *)
Definition u64_saturating_sub (a b : N) : N := (a - b)%N.

(** [a.checked_add(b)] on [u64]. *)
Definition u64_checked_add (a b : N) : option N :=
  if (a + b <=? u64_MAX)%N then Some (a + b)%N else None.

(** [a.checked_add(b)] on [u32]. *)
Definition u32_checked_add (a b : N) : option N :=
  if (a + b <=? u32_MAX)%N then Some (a + b)%N else None.

(** [a + b] on [u32]. *)
Definition u32_add (a b : N) : N := ((a + b) mod 4294967296)%N.

(** [a.saturating_add(b)] on [u32]. *)
Definition u32_saturating_add (a b : N) : N := N.min (a + b) u32_MAX.

(** [u32::try_from(n)] of a [usize]. *)
Definition u32_try_from (n : N) : option N :=
  if (n <=? u32_MAX)%N then Some n else None.

(** [vec.len()] as a machine integer. *)
Definition len {A} (l : list A) : N := N.of_nat (length l).

(** [s.len()]: the bytes of a [String]. *)
Definition str_len (s : string) : N := N.of_nat (String.length s).

(** ** Results *)

Inductive Result (A E : Type) : Type :=
  | Ok (a : A)
  | Err (e : E).
Arguments Ok {A E} a.
Arguments Err {A E} e.

#[export] Instance Result_eq_dec {A E} `{EqDecision A, EqDecision E} : EqDecision (Result A E).
Proof. solve_decision. Defined.

Lemma Ok_inj {A E} (a b : A) : @Ok A E a = Ok b → a = b.
Proof. congruence. Qed.

Definition is_ok {A E} (r : Result A E) : bool :=
  match r with Ok _ => true | Err _ => false end.

(** [opt.ok_or(e)] *)
Definition ok_or {A E} (o : option A) (e : E) : Result A E :=
  match o with Some a => Ok a | None => Err e end.

(** [r.map_err(f)] *)
Definition map_err {A E F} (f : E → F) (r : Result A E) : Result A F :=
  match r with Ok a => Ok a | Err e => Err (f e) end.

(** [r.ok()] *)
Definition result_ok {A E} (r : Result A E) : option A :=
  match r with Ok a => Some a | Err _ => None end.

Declare Scope loams_scope.
Delimit Scope loams_scope with loams.

(** The [?] operator in a function that only reads: [LET x <- r ;; k]. *)
Notation "'LET' x '<-' r ';;' k" :=
  (match r with Ok x => k | Err e => Err e end)
  (at level 10, x name, r at level 99, k at level 200) : loams_scope.

(** The [?] operator in a [&mut self] method, which returns the state it has reached so
    far with the error: [TRY x <- r IN s ;; k]. *)
Notation "'TRY' x '<-' r 'IN' s ';;' k" :=
  (match r with Ok x => k | Err e => (s, Err e) end)
  (at level 10, x name, r at level 99, s at level 99, k at level 200) : loams_scope.

(** An early [return Err(e)] when [c] holds: [BAIL c WITH e IN s ;; k]. *)
Notation "'BAIL' c 'WITH' e 'IN' s ';;' k" :=
  (if (c : bool) then (s, Err e) else k)
  (at level 10, c at level 99, e at level 99, s at level 99, k at level 200) : loams_scope.

(** The same in a function that only reads: [REFUSE c WITH e ;; k]. *)
Notation "'REFUSE' c 'WITH' e ';;' k" :=
  (if (c : bool) then Err e else k)
  (at level 10, c at level 99, e at level 99, k at level 200) : loams_scope.

Open Scope loams_scope.

(** Membership of a key as a boolean, [map.contains_key(k)]. *)
Definition contains_key {K V} `{Countable K} (k : K) (m : gmap K V) : bool :=
  match m !! k with Some _ => true | None => false end.

(** ** Maps *)

Section contains.
Context {K V : Type} `{Countable K}.
Implicit Types (m : gmap K V) (k : K).

Lemma contains_key_true m k : contains_key k m = true ↔ is_Some (m !! k).
Proof.
  unfold contains_key. destruct (m !! k); split; intros; [eauto|done|done|].
  by destruct H0.
Qed.

Lemma contains_key_false m k : contains_key k m = false ↔ m !! k = None.
Proof. unfold contains_key. by destruct (m !! k). Qed.
End contains.

(** ** Tactics *)

(** Splits every [match] and [if] of the context and the goal whose scrutinee is
    closed under the goal's variables, keeping the equations. *)
Ltac case_step :=
  match goal with
  | H : context [match ?x with _ => _ end] |- _ =>
      lazymatch x with context [match _ with _ => _ end] => fail | _ => idtac end;
      destruct x eqn:?
  | |- context [match ?x with _ => _ end] =>
      lazymatch x with context [match _ with _ => _ end] => fail | _ => idtac end;
      destruct x eqn:?
  end.

Ltac case_hyp H :=
  repeat
    (lazymatch type of H with
     | context [match ?x with _ => _ end] =>
         lazymatch x with
         | context [match ?y with _ => _ end] => destruct y eqn:?
         | _ => destruct x eqn:?
         end
     end; try discriminate H).

(** Case analysis on a hypothesis about a handler's outcome, with the impossible
    branches closed. *)
Ltac inv_outcome H := case_hyp H; simplify_eq/=.

(** Boolean hypotheses to propositions. *)
Ltac bools :=
  repeat match goal with
  | H : (_ && _) = true |- _ => apply andb_true_iff in H as [??]
  | H : (_ || _) = false |- _ => apply orb_false_iff in H as [??]
  | H : negb _ = true |- _ => apply negb_true_iff in H
  | H : negb _ = false |- _ => apply negb_false_iff in H
  | H : bool_decide _ = true |- _ => apply bool_decide_eq_true in H
  | H : bool_decide _ = false |- _ => apply bool_decide_eq_false in H
  | H : (_ =? _)%N = true |- _ => apply N.eqb_eq in H
  | H : (_ =? _)%N = false |- _ => apply N.eqb_neq in H
  | H : (_ <? _)%N = true |- _ => apply N.ltb_lt in H
  | H : (_ <? _)%N = false |- _ => apply N.ltb_ge in H
  | H : (_ <=? _)%N = true |- _ => apply N.leb_le in H
  | H : (_ <=? _)%N = false |- _ => apply N.leb_gt in H
  | H : contains_key _ _ = true |- _ => apply contains_key_true in H
  | H : contains_key _ _ = false |- _ => apply contains_key_false in H
  end.

(** ** Machine arithmetic lemmas *)

Create HintDb loams discriminated.

Lemma u64_add_small a b : (a + b <= u64_MAX)%N → u64_add a b = (a + b)%N.
Proof. intros. apply N.mod_small. unfold u64_MAX, u64_modulus in *. lia. Qed.

Lemma u32_add_small a b : (a + b <= u32_MAX)%N → u32_add a b = (a + b)%N.
Proof. intros. apply N.mod_small. unfold u32_MAX in *. lia. Qed.

Lemma u64_sub_small a b : (b <= a)%N → (a <= u64_MAX)%N → u64_sub a b = (a - b)%N.
Proof.
  intros. unfold u64_sub, u64_MAX, u64_modulus in *.
  replace (a + 18446744073709551616 - b)%N with ((a - b) + 1 * 18446744073709551616)%N by lia.
  rewrite N.Div0.mod_add. apply N.mod_small. lia.
Qed.

Lemma u64_add_bound a b : (u64_add a b <= u64_MAX)%N.
Proof.
  unfold u64_add. pose proof (N.mod_lt (a + b) u64_modulus).
  unfold u64_MAX, u64_modulus in *. lia.
Qed.

Lemma u64_saturating_add_ge a b : (a <= u64_MAX)%N → (a <= u64_saturating_add a b)%N.
Proof. unfold u64_saturating_add. lia. Qed.

Lemma u64_saturating_add_bound a b : (u64_saturating_add a b <= u64_MAX)%N.
Proof. unfold u64_saturating_add. lia. Qed.

#[export] Hint Resolve u64_add_bound u64_saturating_add_bound : loams.


(** ** Strings *)

(** [s.starts_with(c)] for a character. *)
Definition starts_with_char (c : Ascii.ascii) (s : string) : bool :=
  match s with
  | EmptyString => false
  | String d _ => Ascii.eqb c d
  end.

(** [s.ends_with(c)] for a character. *)
Definition ends_with_char (c : Ascii.ascii) (s : string) : bool :=
  match rev (String.list_ascii_of_string s) with
  | d :: _ => Ascii.eqb c d
  | [] => false
  end.

(** [s.strip_prefix(p)] *)
Fixpoint strip_prefix (p s : string) : option string :=
  match p, s with
  | EmptyString, _ => Some s
  | String c p, String d s => if Ascii.eqb c d then strip_prefix p s else None
  | String _ _, EmptyString => None
  end.

(** [s.starts_with(p)] for a string. *)
Definition starts_with (p s : string) : bool :=
  match strip_prefix p s with Some _ => true | None => false end.

(** [s.contains("..")]-style search for a substring. *)
Fixpoint str_contains (p s : string) : bool :=
  starts_with p s ||
  match s with
  | EmptyString => false
  | String _ s => str_contains p s
  end.

(** [s.split(c)] as lists of bytes: the pieces between the occurrences of [c]. *)
Fixpoint split_char (c : Ascii.ascii) (s : list Ascii.ascii) : list (list Ascii.ascii) :=
  match s with
  | [] => [[]]
  | d :: s =>
      if Ascii.eqb c d then [] :: split_char c s
      else match split_char c s with
           | [] => [[d]]
           | piece :: pieces => (d :: piece) :: pieces
           end
  end.

Lemma strip_prefix_Some p s r : strip_prefix p s = Some r ↔ s = (p +:+ r)%string.
Proof.
  revert s r. induction p as [|c p IH]; intros s r; cbn.
  - split; [by intros [= ->]|by intros ->].
  - destruct s as [|d s]; [split; discriminate|].
    destruct (Ascii.eqb_spec c d) as [->|N].
    + rewrite IH. split; [by intros ->|by intros [= ->]].
    + split; [done|]. intros [= -> ->]. done.
Qed.

Lemma strip_prefix_app p r : strip_prefix p (p +:+ r)%string = Some r.
Proof. by apply strip_prefix_Some. Qed.

Lemma string_app_cons c s t : (String c s +:+ t)%string = String c (s +:+ t).
Proof. done. Qed.

Lemma string_app_nil_l t : ("" +:+ t)%string = t.
Proof. done. Qed.

Lemma list_ascii_app s t :
  String.list_ascii_of_string (s +:+ t) =
    String.list_ascii_of_string s ++ String.list_ascii_of_string t.
Proof.
  induction s as [|c s IH]; [done|]. rewrite string_app_cons. cbn. by rewrite IH.
Qed.

Lemma list_ascii_inj s t :
  String.list_ascii_of_string s = String.list_ascii_of_string t → s = t.
Proof.
  intros E. rewrite <- (String.string_of_list_ascii_of_string s),
    <- (String.string_of_list_ascii_of_string t). by rewrite E.
Qed.

(** ** Lists *)

Lemma len_nil {A} : len (A := A) [] = 0%N.
Proof. done. Qed.

Lemma len_cons {A} (x : A) l : len (x :: l) = (len l + 1)%N.
Proof. unfold len. cbn [length]. lia. Qed.

Lemma len_app {A} (l l' : list A) : len (l ++ l') = (len l + len l')%N.
Proof. unfold len. rewrite length_app. lia. Qed.

Section filter.
Context {A : Type} (P : A → Prop) `{∀ x, Decision (P x)}.

Lemma filter_all (l : list A) : (∀ x, x ∈ l → P x) → filter P l = l.
Proof.
  induction l as [|x l IH]; intros F; [done|].
  rewrite filter_cons_True by (apply F; left). f_equal. apply IH. intros. apply F. by right.
Qed.

Lemma filter_none (l : list A) : (∀ x, x ∈ l → ¬ P x) → filter P l = [].
Proof.
  induction l as [|x l IH]; intros F; [done|].
  rewrite filter_cons_False by (apply F; left). apply IH. intros. apply F. by right.
Qed.
End filter.

Lemma Forall_filter {A} (P Q : A → Prop) `{∀ x, Decision (Q x)} (l : list A) :
  Forall P l → Forall P (filter Q l).
Proof. rewrite !Forall_forall. intros F x [_ I]%list_elem_of_filter. by apply F. Qed.

(** ** Slices *)

Section slice.
Open Scope N_scope.
Context {A : Type}.
Implicit Types l : list A.

(** [n] elements from position [k]. *)
Definition slice l (k n : N) : list A := take (N.to_nat n) (drop (N.to_nat k) l).

Lemma slice_app_l l r k n : k + n <= len l → slice (l ++ r) k n = slice l k n.
Proof.
  unfold slice, len. intros L. rewrite drop_app_le by lia. apply take_app_le.
  rewrite length_drop. lia.
Qed.

Lemma slice_app_r l r n : n = len r → slice (l ++ r) (len l) n = r.
Proof.
  unfold slice, len. intros ->. rewrite !Nat2N.id, drop_app_length. by apply take_ge.
Qed.

Lemma slice_add l k a b : slice l k (a + b) = slice l k a ++ slice l (k + a) b.
Proof.
  unfold slice. rewrite !N2Nat.inj_add, <- drop_drop, take_take_drop. done.
Qed.

Lemma slice_lookup l k n i : i < n → slice l k n !! N.to_nat i = l !! N.to_nat (k + i).
Proof.
  intros L. unfold slice. rewrite lookup_take_lt by lia. rewrite lookup_drop. f_equal. lia.
Qed.
End slice.

