(* ===== verification/BTree.v ===== *)
(** * Ordered maps

    Rust's [BTreeMap] is stdpp's [gmap] (equality of the maps is equality of their
    lookups) with its ordered views: [btree_iter] is [map.iter()], in key order, and the
    other views are read off it.  [KeyOrd] is Rust's [Ord] on the key type. *)

From Stdlib Require Import NArith Lia.
From stdpp Require Import prelude gmap strings numbers sorting list.
From S2P Require Import Prelude.

Class KeyOrd (K : Type) : Type := {
  key_leb : K → K → bool;
  key_leb_total : ∀ a b, key_leb a b = true ∨ key_leb b a = true;
  key_leb_trans : ∀ a b c, key_leb a b = true → key_leb b c = true → key_leb a c = true;
  key_leb_antisym : ∀ a b, key_leb a b = true → key_leb b a = true → a = b;
}.

(** Strict order of keys. *)
Definition key_lt {K} `{KeyOrd K} (a b : K) : Prop := key_leb a b = true ∧ a ≠ b.

(** ** Instances: integers, strings and pairs *)

#[export] Program Instance N_KeyOrd : KeyOrd N := {| key_leb := N.leb |}.
Next Obligation. intros. cbn. rewrite !N.leb_le. lia. Qed.
Next Obligation. intros ???. cbn. rewrite !N.leb_le. lia. Qed.
Next Obligation. intros ??. cbn. rewrite !N.leb_le. lia. Qed.

(** Byte-lexicographic order of strings, Rust's [Ord for str]. *)
Fixpoint string_leb (a b : string) : bool :=
  match a, b with
  | EmptyString, _ => true
  | String _ _, EmptyString => false
  | String x a, String y b =>
      let i := Ascii.N_of_ascii x in
      let j := Ascii.N_of_ascii y in
      if (i <? j)%N then true else if (i =? j)%N then string_leb a b else false
  end.

Lemma N_of_ascii_inj a b : Ascii.N_of_ascii a = Ascii.N_of_ascii b → a = b.
Proof.
  intros E. rewrite <- (Ascii.ascii_N_embedding a), <- (Ascii.ascii_N_embedding b). by f_equal.
Qed.

Lemma string_leb_total a b : string_leb a b = true ∨ string_leb b a = true.
Proof.
  revert b. induction a as [|x a IH]; intros [|y b]; cbn; auto.
  destruct (N.ltb_spec (Ascii.N_of_ascii x) (Ascii.N_of_ascii y)); auto.
  destruct (N.ltb_spec (Ascii.N_of_ascii y) (Ascii.N_of_ascii x)); auto.
  replace (Ascii.N_of_ascii x) with (Ascii.N_of_ascii y) by lia.
  rewrite N.eqb_refl. apply IH.
Qed.

Lemma string_leb_trans a b c :
  string_leb a b = true → string_leb b c = true → string_leb a c = true.
Proof.
  revert b c. induction a as [|x a IH]; intros [|y b] [|z c]; cbn; try done.
  generalize (Ascii.N_of_ascii x) (Ascii.N_of_ascii y) (Ascii.N_of_ascii z).
  intros i j k.
  destruct (N.ltb_spec i j), (N.ltb_spec j k), (N.ltb_spec i k),
    (N.eqb_spec i j), (N.eqb_spec j k), (N.eqb_spec i k); try lia; try done.
  intros. by eapply IH.
Qed.

Lemma string_leb_antisym a b : string_leb a b = true → string_leb b a = true → a = b.
Proof.
  revert b. induction a as [|x a IH]; intros [|y b]; cbn; try done.
  destruct (N.ltb_spec (Ascii.N_of_ascii x) (Ascii.N_of_ascii y)),
    (N.ltb_spec (Ascii.N_of_ascii y) (Ascii.N_of_ascii x)),
    (N.eqb_spec (Ascii.N_of_ascii x) (Ascii.N_of_ascii y)),
    (N.eqb_spec (Ascii.N_of_ascii y) (Ascii.N_of_ascii x)); try lia; try done.
  intros. f_equal; [by apply N_of_ascii_inj | by apply IH].
Qed.

#[export] Instance string_KeyOrd : KeyOrd string := {|
  key_leb := string_leb;
  key_leb_total := string_leb_total;
  key_leb_trans := string_leb_trans;
  key_leb_antisym := string_leb_antisym;
|}.

(** Tuples compare lexicographically. *)
#[export] Program Instance prod_KeyOrd {A B} `{EqDecision A, KeyOrd A, KeyOrd B} :
  KeyOrd (A * B) := {|
  key_leb p q := if decide (p.1 = q.1) then key_leb p.2 q.2 else key_leb p.1 q.1
|}.
Next Obligation.
  intros A B ? ? ? [a b] [c d]; cbn.
  destruct (decide (a = c)), (decide (c = a)); try congruence; apply key_leb_total.
Qed.
Next Obligation.
  intros A B ? ? ? [a b] [c d] [e f]; cbn. intros H1 H2.
  destruct (decide (a = c)), (decide (c = e)), (decide (a = e)); subst; try congruence;
    eauto using key_leb_trans.
  exfalso. eauto using key_leb_antisym.
Qed.
Next Obligation.
  intros A B ? ? ? [a b] [c d]; cbn. intros H1 H2.
  destruct (decide (a = c)), (decide (c = a)); subst; try congruence.
  - f_equal. by apply key_leb_antisym.
  - exfalso. eauto using key_leb_antisym.
Qed.

(** [vec.sort_by(..)] with the order given as a boolean. *)
Definition sort_by {A} (leb : A → A → bool) (l : list A) : list A :=
  @merge_sort A (λ a b, leb a b = true) (λ a b, decide (leb a b = true)) l.

(** ** Iteration in key order *)

Section iter.
Context {K V : Type} `{Countable K} `{!KeyOrd K}.
Implicit Types (m : gmap K V) (k : K) (v : V) (l : list (K * V)).

Definition entry_le (a b : K * V) : Prop := key_leb a.1 b.1 = true.

#[export] Instance entry_le_dec : RelDecision entry_le.
Proof. intros a b. unfold entry_le. apply _. Defined.

(** [map.iter()] *)
Definition btree_iter m : list (K * V) := merge_sort entry_le (map_to_list m).

(** [map.keys()] *)
Definition btree_keys m : list K := (btree_iter m).*1.

(** [map.values()] *)
Definition btree_values m : list V := (btree_iter m).*2.

(** [map.first_key_value()] *)
Definition btree_first m : option (K * V) := head (btree_iter m).

(** [map.range(lo..)] *)
Definition btree_range_from m (lo : K) : list (K * V) :=
  filter (λ e, key_leb lo e.1 = true) (btree_iter m).

(** [map.range(..=hi).next_back()] *)
Definition btree_last_le m (hi : K) : option (K * V) :=
  last (filter (λ e, key_leb e.1 hi = true) (btree_iter m)).
End iter.
Arguments btree_iter {K V EqDecision0 H KeyOrd0} m.

Section iter_lemmas.
Context {K V : Type} `{Countable K} `{!KeyOrd K}.
Implicit Types (m : gmap K V) (k : K) (v : V) (l : list (K * V)).

#[local] Instance entry_le_total : Total (entry_le (K:=K) (V:=V)).
Proof. intros a b. apply key_leb_total. Qed.
#[local] Instance entry_le_trans : Transitive (entry_le (K:=K) (V:=V)).
Proof. intros a b c. unfold entry_le. apply key_leb_trans. Qed.

Lemma btree_iter_perm m : btree_iter m ≡ₚ map_to_list m.
Proof. apply merge_sort_Permutation. Qed.

Lemma elem_of_btree_iter m k v : (k, v) ∈ btree_iter m ↔ m !! k = Some v.
Proof. rewrite btree_iter_perm. apply elem_of_map_to_list. Qed.

Lemma btree_iter_NoDup m : NoDup (btree_iter m).*1.
Proof. rewrite btree_iter_perm. apply NoDup_fst_map_to_list. Qed.

Lemma btree_iter_Sorted m : StronglySorted entry_le (btree_iter m).
Proof. apply StronglySorted_merge_sort; apply _. Qed.

(** Lists whose keys strictly increase. *)
Definition ordered l : Prop := StronglySorted (λ a b, key_lt a.1 b.1) l.

Lemma btree_iter_ordered m : ordered (btree_iter m).
Proof.
  pose proof (btree_iter_Sorted m) as S. pose proof (btree_iter_NoDup m) as D.
  unfold ordered. induction S as [|a l S IH F]; constructor.
  - apply IH. by inversion D.
  - rewrite fmap_cons, NoDup_cons in D. destruct D as [D _].
    rewrite Forall_forall in *. intros b Hb. split; [by apply F|].
    intros E. apply D. rewrite E. by apply list_elem_of_fmap_2.
Qed.

Lemma ordered_NoDup l : ordered l → NoDup l.*1.
Proof.
  induction 1 as [|a l S IH F]; cbn; constructor; auto.
  rewrite list_elem_of_fmap. intros (b & E & Hb).
  rewrite Forall_forall in F. destruct (F b Hb) as [_ N]. by apply N.
Qed.

(** A map has one key-ordered list of entries. *)
Lemma btree_iter_unique m l : ordered l → (list_to_map l : gmap K V) = m → btree_iter m = l.
Proof.
  intros O <-.
  assert (map_to_list (list_to_map l : gmap K V) ≡ₚ l) as P
    by (apply map_to_list_to_map, ordered_NoDup, O).
  apply (StronglySorted_unique_strong (λ a b, key_lt a.1 b.1)).
  - intros x y _ _ [A N] [B _]. exfalso. apply N. by apply key_leb_antisym.
  - apply btree_iter_ordered.
  - exact O.
  - by rewrite btree_iter_perm.
Qed.

Lemma btree_iter_list_to_map l : ordered l → btree_iter (list_to_map l : gmap K V) = l.
Proof. intros. by apply btree_iter_unique. Qed.

Lemma list_to_map_btree_iter m : (list_to_map (btree_iter m) : gmap K V) = m.
Proof.
  rewrite (list_to_map_proper _ (map_to_list m)).
  - apply list_to_map_to_list.
  - apply btree_iter_NoDup.
  - apply btree_iter_perm.
Qed.

Lemma btree_iter_empty : btree_iter (∅ : gmap K V) = [].
Proof. by apply (btree_iter_unique ∅ []); [constructor|]. Qed.

Lemma btree_iter_nil_inv m : btree_iter m = [] → m = ∅.
Proof. intros E. rewrite <- (list_to_map_btree_iter m). by rewrite E. Qed.

Lemma btree_iter_length m : length (btree_iter m) = size m.
Proof. rewrite btree_iter_perm. apply length_map_to_list. Qed.

(** Inserting above every key appends. *)
Lemma btree_iter_insert_last m k v :
  (∀ k' v', m !! k' = Some v' → key_lt k' k) →
  btree_iter (<[k:=v]> m) = btree_iter m ++ [(k, v)].
Proof.
  intros G. apply btree_iter_unique.
  - apply StronglySorted_app. split; [|split].
    + intros [a av] b Ha Hb. apply list_elem_of_singleton in Hb as ->. cbn.
      apply elem_of_btree_iter in Ha. eauto.
    + apply btree_iter_ordered.
    + repeat constructor.
  - assert (m !! k = None) as N.
    { destruct (m !! k) eqn:E; [|done]. destruct (G _ _ E). done. }
    rewrite list_to_map_snoc.
    + by rewrite list_to_map_btree_iter.
    + rewrite list_elem_of_fmap. intros ([k' v'] & -> & E).
      apply elem_of_btree_iter in E. cbn in *. congruence.
Qed.

(** The ordered list with the map's entries is the map's iteration. *)
Lemma btree_iter_eq m l :
  ordered l → (∀ k v, (k, v) ∈ l ↔ m !! k = Some v) → btree_iter m = l.
Proof.
  intros O E. apply btree_iter_unique; [done|]. apply map_eq. intros k.
  apply option_eq. intros v. rewrite <- E. symmetry.
  apply elem_of_list_to_map, ordered_NoDup, O.
Qed.

Lemma ordered_app l1 l2 :
  ordered (l1 ++ l2) ↔
    (∀ a b, a ∈ l1 → b ∈ l2 → key_lt a.1 b.1) ∧ ordered l1 ∧ ordered l2.
Proof. apply StronglySorted_app. Qed.

Lemma ordered_cons a l : ordered (a :: l) ↔ (∀ b, b ∈ l → key_lt a.1 b.1) ∧ ordered l.
Proof. unfold ordered. by rewrite StronglySorted_cons, Forall_forall. Qed.

Lemma btree_first_Some m k v : btree_first m = Some (k, v) → m !! k = Some v.
Proof.
  unfold btree_first. intros E. apply elem_of_btree_iter.
  destruct (btree_iter m); simplify_eq/=. left.
Qed.

(** Deleting a key drops its entry from the iteration. *)
Lemma btree_iter_delete m k v pre post :
  btree_iter m = pre ++ (k, v) :: post → btree_iter (delete k m) = pre ++ post.
Proof.
  intros E. pose proof (btree_iter_ordered m) as O. rewrite E in O.
  apply ordered_app in O as (G1 & O1 & O2). apply ordered_cons in O2 as [G2 O2].
  apply btree_iter_eq.
  - apply ordered_app. split; [|done]. intros a b Ha Hb. apply G1; [done|by right].
  - intros k' v'.
    rewrite lookup_delete_Some, <- elem_of_btree_iter, E, !elem_of_app, elem_of_cons.
    split.
    + intros [I|I]; (split; [|naive_solver]); intros <-.
      * by destruct (G1 _ (k, v) I ltac:(left)).
      * by destruct (G2 _ I).
    + intros [N [?|[?|?]]]; simplify_eq; naive_solver.
Qed.

Lemma btree_iter_delete_first m k v l :
  btree_iter m = (k, v) :: l → btree_iter (delete k m) = l.
Proof. apply (btree_iter_delete m k v []). Qed.

(** Inserting a fresh key puts its entry at its place in the order. *)
Lemma btree_iter_insert m k v pre post :
  btree_iter m = pre ++ post →
  (∀ e, e ∈ pre → key_lt e.1 k) → (∀ e, e ∈ post → key_lt k e.1) →
  btree_iter (<[k:=v]> m) = pre ++ (k, v) :: post.
Proof.
  intros E G1 G2. pose proof (btree_iter_ordered m) as O. rewrite E in O.
  apply ordered_app in O as (G & O1 & O2).
  assert (m !! k = None) as N.
  { destruct (m !! k) as [w|] eqn:Q; [|done].
    apply elem_of_btree_iter in Q. rewrite E, elem_of_app in Q.
    destruct Q as [Q|Q]; [apply G1 in Q as [_ Q]|apply G2 in Q as [_ Q]]; done. }
  apply btree_iter_eq.
  - apply ordered_app. split; [|split; [done|by apply ordered_cons]].
    intros a b Ha [->|Hb]%elem_of_cons; [by apply G1|by apply G].
  - intros k' v'. rewrite elem_of_app, elem_of_cons.
    assert ((k', v') ∈ pre ∨ (k', v') ∈ post ↔ m !! k' = Some v') as M
      by (by rewrite <- elem_of_app, <- E, elem_of_btree_iter).
    destruct (decide (k = k')) as [<-|D].
    + rewrite lookup_insert_eq. naive_solver.
    + rewrite lookup_insert_ne by done. naive_solver.
Qed.

Lemma btree_iter_singleton k v : btree_iter ({[k := v]} : gmap K V) = [(k, v)].
Proof.
  apply btree_iter_eq.
  - apply ordered_cons. split; [by intros ? ?%elem_of_nil|constructor].
  - intros k' v'. rewrite list_elem_of_singleton, lookup_singleton_Some. naive_solver.
Qed.

(** A map whose iteration is known. *)
Lemma btree_iter_inj m m' : btree_iter m = btree_iter m' → m = m'.
Proof. intros E. rewrite <- (list_to_map_btree_iter m), E. apply list_to_map_btree_iter. Qed.

End iter_lemmas.

(** Keys of type [N] compare as numbers. *)
Lemma key_lt_N (a b : N) : key_lt a b ↔ (a < b)%N.
Proof. unfold key_lt. cbn. rewrite N.leb_le. lia. Qed.
