(* ===== verification/ByteCodec.v ===== *)
(** * Bytes and readers

    What the binary formats share: numbers as bytes of a fixed width in both byte orders,
    strings as bytes, UTF-8, the two views of a 64-bit word, a reader monad over a buffer with
    an error type, and [reads], the relation between a reader and what it reads back.  The
    [postcard] and [crc32c] crates are classes with the laws their clients rely on. *)

From Stdlib Require Import NArith ZArith Lia Ascii.
From stdpp Require Import prelude strings numbers list.
From S2P Require Import Prelude.

Open Scope N_scope.

Abbreviation Bytes := (list N) (only parsing).

(** ** Bytes *)

Fixpoint be_bytes (k : nat) (n : N) : Bytes :=
  match k with O => [] | S k => be_bytes k (n / 256) ++ [n mod 256] end.

Definition be_value (bs : Bytes) : N := foldl (λ a b, a * 256 + b) 0 bs.

Definition string_bytes (s : string) : Bytes := N_of_ascii <$> String.list_ascii_of_string s.
Definition bytes_string (bs : Bytes) : string := String.string_of_list_ascii (ascii_of_N <$> bs).

(** [i64 as u64] and back. *)
Definition i64_bits (z : Z) : N := Z.to_N (z mod 18446744073709551616).
Definition bits_i64 (n : N) : Z :=
  if n <=? 9223372036854775807 then Z.of_N n else (Z.of_N n - 18446744073709551616)%Z.
Definition bits_i32 (n : N) : Z :=
  if n <=? 2147483647 then Z.of_N n else (Z.of_N n - 4294967296)%Z.
Definition i32_bits (z : Z) : N := Z.to_N (z mod 4294967296).
Definition bits_i16 (n : N) : Z :=
  if n <=? 32767 then Z.of_N n else (Z.of_N n - 65536)%Z.
Definition i16_bits (z : Z) : N := Z.to_N (z mod 65536).

Fixpoint le_bytes (k : nat) (n : N) : list N :=
  match k with O => [] | S k => n mod 256 :: le_bytes k (n / 256) end.

Definition le_value (bs : list N) : N := foldr (λ b a, b + 256 * a) 0 bs.

(** The number of [n] bytes at a position, and one byte. *)
Definition be_at (n : nat) (bytes : Bytes) (at_ : nat) : N := be_value (take n (drop at_ bytes)).
Definition le_at (n : nat) (bytes : Bytes) (at_ : nat) : N := le_value (take n (drop at_ bytes)).
Definition byte_at (bytes : Bytes) (at_ : nat) : N := default 0 (bytes !! at_).

(** [object.get(start..start + len)] *)
Definition get_range (object : Bytes) (start n : N) : option Bytes :=
  match u64_checked_add start n with
  | Some e => if e <=? len object then Some (take (N.to_nat n) (drop (N.to_nat start) object)) else None
  | None => None
  end.

(** ** Readers *)

Section readers.
Context {E : Type}.

Definition Reader (A : Type) : Type := Bytes → Result (A * Bytes) E.

Definition rbind {A B} (r : Reader A) (k : A → Reader B) : Reader B :=
  λ buf, match r buf with Ok (x, buf) => k x buf | Err e => Err e end.
Definition rret {A} (x : A) : Reader A := λ buf, Ok (x, buf).
Definition rfail {A} (e : E) : Reader A := λ _, Err e.

(** The next [n] bytes, where the buffer has them. *)
Definition get_bytes (n : nat) (e : E) : Reader Bytes :=
  λ buf, if (length buf <? n)%nat then Err e else Ok (take n buf, drop n buf).
End readers.
Arguments Reader E A : clear implicits.

Notation "'READ' x '<-' r ';;' k" := (rbind r (λ x, k))
    (at level 10, x name, r at level 99, k at level 200) : loams_scope.

(** A loop [for _ in 0..n] that pushes what it reads. *)
Fixpoint get_many {E A} (n : nat) (r : Reader E A) : Reader E (list A) :=
  match n with
  | O => rret []
  | S n => READ x <- r ;; READ xs <- get_many n r ;; rret (x :: xs)
  end.

(** ** UTF-8 *)

Definition between (lo hi b : N) : bool := (lo <=? b) && (b <=? hi).
Definition cont : N → bool := between 128 191.

(** [str::from_utf8] accepts the bytes. *)
Fixpoint utf8_valid (bs : Bytes) : bool :=
  match bs with
  | [] => true
  | b0 :: r0 =>
      if b0 <? 128 then utf8_valid r0
      else
        match r0 with
        | [] => false
        | b1 :: r1 =>
            if between 194 223 b0 then cont b1 && utf8_valid r1
            else
              match r1 with
              | [] => false
              | b2 :: r2 =>
                  if between 224 239 b0 then
                    (if b0 =? 224 then between 160 191 b1
                     else if b0 =? 237 then between 128 159 b1 else cont b1)
                    && cont b2 && utf8_valid r2
                  else
                    match r2 with
                    | [] => false
                    | b3 :: r3 =>
                        between 240 244 b0
                        && (if b0 =? 240 then between 144 191 b1
                            else if b0 =? 244 then between 128 143 b1 else cont b1)
                        && cont b2 && cont b3 && utf8_valid r3
                    end
              end
        end
  end.

Arguments be_bytes : simpl never.

(** ** What a reader reads back

    [reads r x bs]: the reader [r] takes exactly the bytes [bs], gives [x], and refuses every
    strict prefix of them. *)

Definition strictly (p bs : Bytes) : Prop := ∃ q, bs = p ++ q ∧ q ≠ [].

Record reads {Er A} (r : Reader Er A) (x : A) (bs : Bytes) : Prop := {
  rd_ok rest : r (bs ++ rest) = Ok (x, rest);
  rd_short p : strictly p bs → ∃ e, r p = Err e;
}.

(** ** Composition *)

Lemma reads_ret {Er A} (x : A) : reads (rret (E := Er) x) x [].
Proof.
  split; [done|]. intros p (q & E & Nq). symmetry in E. by apply app_nil in E as [_ ->].
Qed.

Lemma reads_bind {Er A B} (r : Reader Er A) (k : A → Reader Er B) x y b1 b2 :
  reads r x b1 → reads (k x) y b2 → reads (rbind r k) y (b1 ++ b2).
Proof.
  intros [O1 S1] [O2 S2]. split.
  - intros rest. unfold rbind. by rewrite <- app_assoc, O1, O2.
  - intros p (q & E & Nq). unfold rbind.
    apply app_eq_inv in E as [(k' & E1 & E2)|(k' & E1 & E2)].
    + destruct k' as [|x0 k'].
      * rewrite app_nil_r in E1. cbn in E2. subst b1 q.
        pose proof (O1 []) as O. rewrite app_nil_r in O. rewrite O. apply S2. by exists b2.
      * destruct (S1 p) as [e ->]; [by exists (x0 :: k')|]. by exists e.
    + subst p. rewrite O1. apply S2. by exists q.
Qed.

Lemma reads_map {Er A B} (r : Reader Er A) (f : A → B) x bs :
  reads r x bs → reads (rbind r (λ x, rret (f x))) (f x) bs.
Proof.
  intros R. rewrite <- (app_nil_r bs). eapply reads_bind; [done|]. apply reads_ret.
Qed.

Lemma reads_many {Er A} (r : Reader Er A) (put : A → Bytes) xs :
  Forall (λ x, reads r x (put x)) xs →
  reads (get_many (length xs) r) xs (concat (put <$> xs)).
Proof.
  induction 1 as [|x xs Hx Hxs IH]; cbn; [apply reads_ret|].
  eapply reads_bind; [done|]. by apply (reads_map _ (λ xs, x :: xs)).
Qed.

(** ** Numbers *)

Lemma be_bytes_S k n : be_bytes (S k) n = be_bytes k (n / 256) ++ [n mod 256].
Proof. done. Qed.

Lemma length_be_bytes k n : length (be_bytes k n) = k.
Proof.
  revert n. induction k as [|k IH]; intros n; [done|].
  rewrite be_bytes_S, length_app, IH. cbn. lia.
Qed.

Lemma be_value_app l b : be_value (l ++ [b]) = be_value l * 256 + b.
Proof. unfold be_value. by rewrite foldl_app. Qed.

Lemma be_value_bytes k n : n < 256 ^ N.of_nat k → be_value (be_bytes k n) = n.
Proof.
  revert n. induction k as [|k IH]; intros n L.
  - change (be_bytes 0 n) with (@nil N). cbn in *. lia.
  - rewrite be_bytes_S, be_value_app, IH.
    + pose proof (N.div_mod n 256 ltac:(done)). lia.
    + apply N.Div0.div_lt_upper_bound. by rewrite Nat2N.inj_succ, N.pow_succ_r' in L.
Qed.

Lemma reads_bytes {Er} (e : Er) bs n : length bs = n → reads (get_bytes n e) bs bs.
Proof.
  intros <-. unfold get_bytes. split.
  - intros rest. rewrite length_app.
    replace ((length bs + length rest <? length bs)%nat) with false
      by (symmetry; apply Nat.ltb_ge; lia).
    by rewrite take_app_length, drop_app_length.
  - intros p (q & -> & Nq). rewrite length_app.
    replace ((length p <? length p + length q)%nat) with true; [by eexists|].
    symmetry. apply Nat.ltb_lt. destruct q; [done|]. cbn. lia.
Qed.

Lemma length_le_bytes k n : length (le_bytes k n) = k.
Proof. revert n. induction k as [|k IH]; intros n; cbn; [done|]. by rewrite IH. Qed.

Lemma le_value_bytes k n : n < 256 ^ N.of_nat k → le_value (le_bytes k n) = n.
Proof.
  revert n. induction k as [|k IH]; intros n L; cbn.
  - cbn in L. lia.
  - fold (le_value (le_bytes k (n / 256))). rewrite IH.
    + pose proof (N.div_mod n 256 ltac:(done)). lia.
    + apply N.Div0.div_lt_upper_bound. by rewrite Nat2N.inj_succ, N.pow_succ_r' in L.
Qed.

Lemma le_bytes_bytes k n : Forall (λ b, b < 256) (le_bytes k n).
Proof.
  revert n. induction k as [|k IH]; intros n; cbn; [constructor|].
  constructor; [by apply N.mod_lt|done].
Qed.

(** One byte changed is another number. *)
Lemma le_value_change l i b b' :
  Forall (λ b, b < 256) l → l !! i = Some b → b' < 256 → b' ≠ b → le_value (<[i := b']> l) ≠ le_value l.
Proof.
  intros F. revert i. induction F as [|x l Lx F IH]; intros i Hi Lb Ne; [done|].
  destruct i as [|i].
  - injection Hi as ->. cbn. lia.
  - specialize (IH i Hi Lb Ne). change (<[S i := b']> (x :: l)) with (x :: <[i := b']> l).
    change (x + 256 * le_value (<[i := b']> l) ≠ x + 256 * le_value l). lia.
Qed.

Arguments le_bytes : simpl never.

(** ** Fields at fixed places *)

Definition lengths (fields : list Bytes) : nat := sum_list (length <$> fields).

Lemma length_concat (fields : list Bytes) : length (concat fields) = lengths fields.
Proof. induction fields as [|f fs IH]; [done|]. cbn. rewrite length_app, IH. done. Qed.

Lemma drop_fields n fields i : lengths (take i fields) = n → drop n (concat fields) = concat (drop i fields).
Proof.
  intros <-. rewrite <- (take_drop i fields) at 2. rewrite concat_app.
  apply drop_app_length'. by rewrite length_concat.
Qed.

Lemma take_field n at_ fields i f :
  fields !! i = Some f → length f = n → lengths (take i fields) = at_ →
  take n (drop at_ (concat fields)) = f.
Proof.
  intros I <- L. rewrite (drop_fields _ _ _ L), (drop_S _ _ _ I). cbn. by rewrite take_app_length.
Qed.

Lemma be_at_field n at_ fields i f :
  fields !! i = Some f → length f = n → lengths (take i fields) = at_ →
  be_at n (concat fields) at_ = be_value f.
Proof. intros I F L. unfold be_at. by rewrite (take_field n at_ fields i f). Qed.

Lemma le_at_field n at_ fields i x :
  fields !! i = Some (le_bytes n x) → lengths (take i fields) = at_ → x < 256 ^ N.of_nat n →
  le_at n (concat fields) at_ = x.
Proof.
  intros I L B. unfold le_at. rewrite (take_field n at_ fields i _ I); [|apply length_le_bytes|done].
  by apply le_value_bytes.
Qed.

Lemma byte_at_field at_ fields i x :
  fields !! i = Some [x] → lengths (take i fields) = at_ → byte_at (concat fields) at_ = x.
Proof.
  intros I L. unfold byte_at. rewrite <- (Nat.add_0_r at_), <- lookup_drop.
  by rewrite (drop_fields _ _ _ L), (drop_S _ _ _ I).
Qed.

(** A slice of a buffer. *)
Lemma get_range_app pre mid post :
  len (pre ++ mid ++ post) <= u64_MAX →
  get_range (pre ++ mid ++ post) (len pre) (len mid) = Some mid.
Proof.
  intros B. unfold get_range, u64_checked_add. rewrite !len_app in *.
  rewrite !(proj2 (N.leb_le _ _)) by lia. unfold len. rewrite !Nat2N.id.
  by rewrite drop_app_length, take_app_length.
Qed.

(** Lengths of literal fields. *)
Ltac literal_lengths :=
  unfold lengths; cbn [take fmap list_fmap sum_list]; unfold id;
  rewrite ?length_be_bytes, ?length_le_bytes;
  repeat match goal with E : length _ = _ |- _ => rewrite E; clear E end; try done.

Definition u16_ok (n : N) : Prop := n <= 65535.
Definition u32_ok (n : N) : Prop := n <= u32_MAX.
Definition u64_ok (n : N) : Prop := n <= u64_MAX.
Definition i64_ok (z : Z) : Prop := (i64_MIN <= z <= i64_MAX)%Z.

Lemma i64_bits_bound z : i64_bits z < 18446744073709551616.
Proof. unfold i64_bits. pose proof (Z.mod_pos_bound z 18446744073709551616). lia. Qed.

Lemma bits_i64_bits z : i64_ok z → bits_i64 (i64_bits z) = z.
Proof.
  unfold i64_ok, i64_MIN, i64_MAX, bits_i64, i64_bits. intros L.
  destruct (decide (0 <= z)%Z) as [P|P].
  - rewrite Z.mod_small by lia. rewrite (proj2 (N.leb_le _ _)) by lia. lia.
  - rewrite <- (Z_mod_plus_full z 1), Z.mod_small by lia.
    rewrite (proj2 (N.leb_gt _ _)) by lia. lia.
Qed.

Definition i32_ok (z : Z) : Prop := (-2147483648 <= z <= 2147483647)%Z.

Lemma i32_bits_bound z : i32_bits z < 4294967296.
Proof. unfold i32_bits. pose proof (Z.mod_pos_bound z 4294967296). lia. Qed.

Lemma i16_bits_bound z : i16_bits z < 65536.
Proof. unfold i16_bits. pose proof (Z.mod_pos_bound z 65536). lia. Qed.

Lemma bits_i32_bits z : i32_ok z → bits_i32 (i32_bits z) = z.
Proof.
  unfold i32_ok, bits_i32, i32_bits. intros L. destruct (decide (0 <= z)%Z) as [P|P].
  - rewrite Z.mod_small by lia. rewrite (proj2 (N.leb_le _ _)) by lia. lia.
  - rewrite <- (Z_mod_plus_full z 1), Z.mod_small by lia.
    rewrite (proj2 (N.leb_gt _ _)) by lia. lia.
Qed.

(** ** Strings *)

Lemma bytes_string_bytes s : bytes_string (string_bytes s) = s.
Proof.
  unfold bytes_string, string_bytes. rewrite <- list_fmap_compose.
  rewrite (list_fmap_ext _ id); [|intros; apply ascii_N_embedding].
  rewrite list_fmap_id. apply String.string_of_list_ascii_of_string.
Qed.

Create HintDb reads discriminated.
#[export] Hint Resolve reads_bytes : reads.

(** One field after the other, then the value. *)
Ltac field := eapply reads_bind; [by eauto with reads|].

(** ** postcard *)

(** [postcard::to_io] and [postcard::take_from_bytes] at a type. *)
Class Codec (T : Type) := {
  to_io : T → option (list N);
  take_from_bytes : list N → option (T * list N);
}.

(** A value reads back from the front of a buffer as what serde sees of it. *)
Class CodecOk (T : Type) `{Codec T} (seen : T → T) :=
  take_to_io x bs rest : to_io x = Some bs → take_from_bytes (bs ++ rest) = Some (seen x, rest).

(** Every value has an encoding. *)
Class CodecTotal (T : Type) `{Codec T} := to_io_total x : is_Some (to_io x).

(** ** crc32c *)

(** [crc32c::crc32c] and [crc32c::crc32c_append]. *)
Class Crc32c := { crc32c : Bytes → N; crc32c_append : N → Bytes → N }.

(** The checksum is a [u32], is continued by [crc32c_append], and a changed byte changes it: a
    burst of at most 32 bits is what a 32-bit CRC always detects. *)
Class Crc32cOk `{Crc32c} := {
  crc_u32 bs : crc32c bs <= u32_MAX;
  crc_appended bs bs' : crc32c_append (crc32c bs) bs' = crc32c (bs ++ bs');
  crc_burst bs i b b' :
    bs !! i = Some b → b < 256 → b' < 256 → b' ≠ b → crc32c (<[i := b']> bs) ≠ crc32c bs;
}.
