(* ===== verification/Ids.v ===== *)
(** * Identifiers (loams-common/src/id.rs)

    Namespace, stream and collection ids are [u64] newtypes printed and parsed as
    canonical decimal numbers, so that every id has exactly one spelling in object paths
    and pointer keys.  The main results: parsing a printed id gives it back, and only the
    printed form parses. *)

From Stdlib Require Import NArith Lia Ascii.
From stdpp Require Import prelude strings numbers list.
From S2P Require Import Prelude.

(** The id newtypes, and [LinkId] (loams-common/src/meta/types.rs). *)
Abbreviation NamespaceId := N.
Abbreviation StreamId := N.
Abbreviation CollectionId := N.
Abbreviation LinkId := N.

Inductive ParseIdError := InvalidId (s : string).

#[export] Instance ParseIdError_eq_dec : EqDecision ParseIdError.
Proof. solve_decision. Defined.

(** ** Printing: [Display for u64] *)

Definition digit_char (d : N) : Ascii.ascii := Ascii.ascii_of_N (48 + d).

(** The decimal digits of [n], most significant first; [fuel] bounds their number. *)
Fixpoint digits (fuel : nat) (n : N) : list N :=
  match fuel with
  | O => []
  | S fuel => if (n <? 10)%N then [n] else digits fuel (n / 10) ++ [(n mod 10)%N]
  end.

(** A [u64] has at most 20 digits. *)
Definition show_u64 (n : N) : string :=
  String.string_of_list_ascii (digit_char <$> digits 20 n).

(** ** Parsing *)

(** [b.is_ascii_digit()] *)
Definition is_ascii_digit (c : Ascii.ascii) : bool :=
  let b := Ascii.N_of_ascii c in (48 <=? b)%N && (b <=? 57)%N.

Definition digit_val (c : Ascii.ascii) : N := (Ascii.N_of_ascii c - 48)%N.

(** [str::parse::<u64>] on a string of digits: accumulate, failing on overflow. *)
Fixpoint parse_digits (acc : N) (cs : list Ascii.ascii) : option N :=
  match cs with
  | [] => Some acc
  | c :: cs =>
      if is_ascii_digit c then
        let acc' := (acc * 10 + digit_val c)%N in
        if (acc' <=? u64_MAX)%N then parse_digits acc' cs else None
      else None
  end.

(** [fn parse_canonical] *)
Definition parse_canonical (s : string) : Result N ParseIdError :=
  let cs := String.list_ascii_of_string s in
  let canonical :=
    negb (bool_decide (cs = [])) && forallb is_ascii_digit cs
    && (bool_decide (s = "0"%string)
        || negb (bool_decide (head cs = Some (digit_char 0)))) in
  if negb canonical then Err (InvalidId s) else ok_or (parse_digits 0 cs) (InvalidId s).

(** ** Digits and their value *)

Definition value (ds : list N) : N := foldl (λ acc d, acc * 10 + d)%N 0%N ds.

Lemma value_snoc ds d : value (ds ++ [d]) = (value ds * 10 + d)%N.
Proof. unfold value. by rewrite foldl_app. Qed.

Lemma digits_value fuel n : (n < 10 ^ N.of_nat fuel)%N → value (digits fuel n) = n.
Proof.
  revert n. induction fuel as [|fuel IH]; intros n L.
  - cbn in *. lia.
  - cbn [digits]. destruct (N.ltb_spec n 10); [done|].
    rewrite value_snoc, IH.
    + pose proof (N.div_mod' n 10). lia.
    + rewrite Nat2N.inj_succ, N.pow_succ_r' in L. apply N.Div0.div_lt_upper_bound. lia.
Qed.

Lemma digits_small fuel n : Forall (λ d, d < 10)%N (digits fuel n).
Proof.
  revert n. induction fuel as [|fuel IH]; intros n; cbn [digits]; [constructor|].
  destruct (N.ltb_spec n 10); [by repeat constructor|].
  apply Forall_app; split; [done|]. repeat constructor. by apply N.mod_lt.
Qed.

(** Canonical digit lists: not empty, and no leading zero except for zero itself. *)
Definition canonical_digits (ds : list N) : Prop :=
  Forall (λ d, d < 10)%N ds ∧ ds ≠ [] ∧ (ds = [0%N] ∨ head ds ≠ Some 0%N).

Lemma digits_head fuel n :
  (0 < n < 10 ^ N.of_nat fuel)%N → ∃ d ds, digits fuel n = d :: ds ∧ d ≠ 0%N.
Proof.
  revert n. induction fuel as [|fuel IH]; intros n [P L]; [cbn in *; lia|].
  cbn [digits]. destruct (N.ltb_spec n 10) as [S|S]; [exists n, []; split; [done|lia]|].
  destruct (IH (n / 10)%N) as (d & ds & -> & NZ); [split|].
  - apply N.div_str_pos. lia.
  - apply N.Div0.div_lt_upper_bound. rewrite Nat2N.inj_succ, N.pow_succ_r' in L. lia.
  - by exists d, (ds ++ [(n mod 10)%N]).
Qed.

Lemma digits_canonical fuel n :
  (n < 10 ^ N.of_nat fuel)%N → (0 < fuel)%nat → canonical_digits (digits fuel n).
Proof.
  intros L P. split; [apply digits_small|].
  destruct (decide (n = 0%N)) as [->|NZ].
  - destruct fuel; [lia|]. cbn. split; [done|by left].
  - destruct (digits_head fuel n) as (d & ds & -> & D); [lia|].
    split; [done|right]. cbn. congruence.
Qed.

Lemma value_ge ds d : (value ds < value (ds ++ [d]) \/ value ds = 0)%N.
Proof. rewrite value_snoc. lia. Qed.

(** A canonical digit list with [k + 1] digits is at least [10 ^ k] (or zero). *)
Lemma canonical_value_pos ds : ds ≠ [] → head ds ≠ Some 0%N → (0 < value ds)%N.
Proof.
  induction ds as [|d ds IH] using rev_ind; [done|]. intros _ Hd. rewrite value_snoc.
  destruct ds as [|e ds]; cbn in *.
  { destruct (decide (d = 0%N)) as [->|]; [done|lia]. }
  specialize (IH ltac:(done) Hd). lia.
Qed.

(** The canonical digit list of a number is the one [digits] computes. *)
Lemma digits_unique fuel ds :
  canonical_digits ds → (value ds < 10 ^ N.of_nat fuel)%N → (0 < fuel)%nat →
  digits fuel (value ds) = ds.
Proof.
  revert fuel. induction ds as [|d ds IH] using rev_ind; intros fuel (S & NE & C) L F; [done|].
  rewrite value_snoc in *. apply Forall_app in S as [S D]. apply Forall_cons in D as [D _].
  destruct (decide (ds = [])) as [->|NE'].
  - change (value [] * 10 + d)%N with d in *. destruct fuel as [|fuel]; [lia|].
    cbn [digits app]. destruct (N.ltb_spec d 10); [done|lia].
  - assert (head ds ≠ Some 0%N) as Hh.
    { destruct C as [C|C]; [destruct ds as [|? []]; done|]. by destruct ds. }
    pose proof (canonical_value_pos ds NE' Hh) as V.
    destruct fuel as [|fuel]; [cbn in L; lia|]. cbn [digits].
    destruct (N.ltb_spec (value ds * 10 + d) 10); [lia|].
    rewrite N.add_comm, N.div_add, N.Div0.mod_add, N.div_small, N.mod_small by lia.
    cbn [N.add]. rewrite Nat2N.inj_succ, N.pow_succ_r' in L.
    rewrite IH; [done| |lia|].
    + split; [done|split; [done|by right]].
    + destruct fuel; [cbn in L; lia|lia].
Qed.

(** ** Characters *)

Lemma digit_char_val d : (d < 10)%N → digit_val (digit_char d) = d.
Proof.
  intros. unfold digit_val, digit_char. rewrite Ascii.N_ascii_embedding by lia. lia.
Qed.

Lemma digit_char_digit d : (d < 10)%N → is_ascii_digit (digit_char d) = true.
Proof.
  intros. unfold is_ascii_digit, digit_char. rewrite Ascii.N_ascii_embedding by lia.
  apply andb_true_intro; split; apply N.leb_le; lia.
Qed.

Lemma digit_val_char c : is_ascii_digit c = true → digit_char (digit_val c) = c.
Proof.
  unfold is_ascii_digit, digit_char, digit_val. intros. bools.
  replace (48 + (Ascii.N_of_ascii c - 48))%N with (Ascii.N_of_ascii c) by lia.
  apply Ascii.ascii_N_embedding.
Qed.

Lemma digit_val_lt c : is_ascii_digit c = true → (digit_val c < 10)%N.
Proof. unfold is_ascii_digit, digit_val. intros. bools. lia. Qed.

Lemma digit_chars_inj c d :
  is_ascii_digit c = true → digit_val c = d → c = digit_char d.
Proof. intros E <-. by rewrite digit_val_char. Qed.

(** [parse_digits] computes the value when it fits and fails otherwise. *)
Lemma parse_digits_spec cs acc :
  (acc <= u64_MAX)%N → forallb is_ascii_digit cs = true →
  parse_digits acc cs =
    let v := foldl (λ acc d, acc * 10 + d)%N acc (digit_val <$> cs) in
    if (v <=? u64_MAX)%N then Some v else None.
Proof.
  revert acc. induction cs as [|c cs IH]; intros acc B D; cbn in *.
  - destruct (N.leb_spec acc u64_MAX); [done|lia].
  - bools. rewrite H. destruct (N.leb_spec (acc * 10 + digit_val c) u64_MAX) as [L|L].
    + by apply IH.
    + assert (∀ ds a, a <= foldl (λ acc d, acc * 10 + d) a ds)%N as M.
      { intros ds. induction ds as [|d ds IHds]; intros a; cbn; [lia|].
        etransitivity; [|apply IHds]. lia. }
      specialize (M (digit_val <$> cs) (acc * 10 + digit_val c)%N).
      by rewrite (proj2 (N.leb_gt _ _)) by lia.
Qed.

Lemma u64_digits n : (n <= u64_MAX)%N → (n < 10 ^ N.of_nat 20)%N.
Proof. unfold u64_MAX. cbn. lia. Qed.

Lemma list_ascii_show n :
  String.list_ascii_of_string (show_u64 n) = digit_char <$> digits 20 n.
Proof. apply String.list_ascii_of_string_of_list_ascii. Qed.

Lemma digit_vals_chars ds : Forall (λ d, d < 10)%N ds → digit_val <$> (digit_char <$> ds) = ds.
Proof.
  induction 1 as [|d ds D _ IH]; cbn; [done|]. by rewrite digit_char_val, IH.
Qed.

Lemma forallb_digit_chars ds :
  Forall (λ d, d < 10)%N ds → forallb is_ascii_digit (digit_char <$> ds) = true.
Proof. induction 1; cbn; [done|]. by rewrite digit_char_digit. Qed.

(** ** Round trips *)

(** Parsing the printed form of an id gives the id back. *)
Lemma parse_show n : (n <= u64_MAX)%N → parse_canonical (show_u64 n) = Ok n.
Proof.
  intros B. unfold parse_canonical. rewrite list_ascii_show.
  destruct (digits_canonical 20 n (u64_digits n B) ltac:(lia)) as (S & NE & C).
  rewrite forallb_digit_chars by done.
  rewrite bool_decide_eq_false_2 by (by destruct (digits 20 n)). cbn [negb andb].
  assert (bool_decide (show_u64 n = "0"%string)
    || negb (bool_decide (head (digit_char <$> digits 20 n) = Some (digit_char 0))) = true) as ->.
  { apply orb_true_iff. destruct C as [C|C].
    - left. apply bool_decide_eq_true. unfold show_u64. by rewrite C.
    - right. apply negb_true_iff, bool_decide_eq_false. intros E. apply C.
      destruct (digits 20 n) as [|d ds]; [done|]. cbn in *. f_equal.
      apply Forall_cons in S as [D _]. injection E as E.
      apply (f_equal digit_val) in E. rewrite !digit_char_val in E by lia. done. }
  cbn [negb]. rewrite parse_digits_spec; [|unfold u64_MAX; lia|by apply forallb_digit_chars].
  cbv zeta. rewrite digit_vals_chars by done. fold (value (digits 20 n)).
  rewrite digits_value by (by apply u64_digits). by rewrite (proj2 (N.leb_le _ _) B).
Qed.

(** Only the printed form of an id parses. *)
Lemma parse_canonical_inv s n : parse_canonical s = Ok n → s = show_u64 n ∧ (n <= u64_MAX)%N.
Proof.
  unfold parse_canonical. destruct (negb _) eqn:C; [done|].
  bools. intros E.
  rewrite parse_digits_spec in E; [|unfold u64_MAX; lia|done]. cbv zeta in E.
  set (cs := String.list_ascii_of_string s) in *.
  change (foldl _ _ _) with (value (digit_val <$> cs)) in E.
  destruct (N.leb_spec (value (digit_val <$> cs)) u64_MAX) as [B|B]; [|done].
  injection E as <-. split; [|done].
  assert (digit_char <$> (digit_val <$> cs) = cs) as R.
  { clear -H1. induction cs as [|c cs IH]; cbn in *; [done|]. bools.
    by rewrite digit_val_char, IH. }
  unfold show_u64. rewrite digits_unique.
  - rewrite R. unfold cs. by rewrite String.string_of_list_ascii_of_string.
  - split; [|split].
    + clear -H1. induction cs as [|c cs IH]; cbn in *; [constructor|]. bools.
      constructor; [by apply digit_val_lt|by apply IH].
    + by destruct cs.
    + apply orb_true_iff in H0 as [Z|Z]; bools.
      * left. unfold cs. by rewrite Z.
      * right. destruct cs as [|c cs']; [done|]. cbn in *. bools. intros [= Z0].
        apply Z. f_equal. by apply digit_chars_inj.
  - by apply u64_digits.
  - lia.
Qed.

Lemma show_u64_inj a b : (a <= u64_MAX)%N → (b <= u64_MAX)%N → show_u64 a = show_u64 b → a = b.
Proof.
  intros A B E. apply parse_show in A. apply parse_show in B. rewrite E in A. congruence.
Qed.

(** ** Ids at the end of a name *)

(** A decimal number holds no ['.']. *)
Lemma dot_not_in_show n : "."%char ∉ String.list_ascii_of_string (show_u64 n).
Proof.
  rewrite list_ascii_show. intros (d & E & I)%list_elem_of_fmap.
  pose proof (digits_small 20 n) as F. rewrite Forall_forall in F. apply F in I.
  apply digit_char_digit in I. by rewrite <- E in I.
Qed.

(** What follows the last separator is determined. *)
Lemma app_sep_inj {A} (x : A) l1 l2 d1 d2 :
  x ∉ d1 → x ∉ d2 → l1 ++ x :: d1 = l2 ++ x :: d2 → l1 = l2 ∧ d1 = d2.
Proof.
  intros N1 N2. revert l2. induction l1 as [|a l1 IH]; intros [|b l2] E; cbn in E.
  - by simplify_eq.
  - simplify_eq. exfalso. apply N1. set_solver.
  - simplify_eq. exfalso. apply N2. set_solver.
  - injection E as -> E. apply IH in E as [-> ->]. done.
Qed.
