(* ===== verification/Schema.v ===== *)
(** * Collection schemas (loams-common/src/schema.rs)

    The typed fields, dense vectors and sparse vectors of a collection, the checks a
    schema passes on its own ([validate]) and against its predecessor
    ([check_additive]).  Error messages are values of [SchemaMessage], one constructor per
    [format!] of the source with its arguments. *)

From Stdlib Require Import NArith Lia Ascii.
From stdpp Require Import prelude gmap strings numbers list.
From S2P Require Import Prelude BTree.

Open Scope N_scope.

Definition KNOWN_ANALYZERS : list string :=
  ["standard"; "english"; "simple"; "whitespace"; "keyword"]%string.
Definition MAX_VECTOR_DIM : N := 65536.
Definition DEFAULT_MAX_FIELDS : N := 1000.
Definition MAX_MAX_FIELDS : N := 100000.
Definition MAX_SCHEMA_NAME_LEN : N := 255.
Definition EXTRA_ANNOTATIONS : N := 256.
Definition MAX_ANNOTATION_VALUE_LEN : N := 65536.
Definition ANNOTATION_PREFIXES : list string := ["es."; "qdrant."; "loams."]%string.
Definition MAX_NUM_PARTITIONS : N := 65536.
Definition QUANTILE_PPM_MIN : N := 500000.
Definition QUANTILE_PPM_MAX : N := 1000000.
Definition COMPRESSION_RATIOS : list N := [4; 8; 16; 32; 64].

(** ** Data *)

Inductive FieldKind :=
  | Text (analyzer : string) (positions : bool)
  | Keyword | I64 | F64 | Bool | Date | Uuid | Json.

Record FieldSpec := {
  field_name : string;
  field_source_path : string;
  field_kind : FieldKind;
  field_indexed : bool;
  field_fast : bool;
  field_ignore_malformed : bool;
}.

Inductive Distance := Cosine | Dot | Euclid | Manhattan.
Inductive VectorElement := F32.

Inductive VectorIndexSpec :=
  | IndexAuto
  | IndexNone
  | IvfPq (num_partitions : option N) (num_sub_vectors : option N) (num_bits : N)
  | IvfRq (num_partitions : option N) (num_bits : N)
  | IvfHnswSq (num_partitions : option N).

Record HnswParams := {
  hnsw_m : N;
  hnsw_ef_construct : N;
  hnsw_full_scan_threshold_kb : N;
  hnsw_payload_m : option N;
  hnsw_on_disk : bool;
}.

Definition HnswParams_default : HnswParams := {|
  hnsw_m := 16;
  hnsw_ef_construct := 100;
  hnsw_full_scan_threshold_kb := 10000;
  hnsw_payload_m := None;
  hnsw_on_disk := false;
|}.

Inductive Quantization :=
  | QScalar (quantile_ppm : option N) (always_ram : bool)
  | QProduct (compression_ratio : N) (always_ram : bool)
  | QBinary (always_ram : bool).

Record VectorSpec := {
  vector_name : string;
  vector_dim : N;
  vector_distance : Distance;
  vector_element : VectorElement;
  vector_index : VectorIndexSpec;
  vector_hnsw : HnswParams;
  vector_quantization : option Quantization;
}.

Inductive DynamicMapping := Strict | Ignore | DynMap.
Inductive SparseModifier := ModNone | ModIdf.

Record SparseVectorSpec := {
  sparse_name : string;
  sparse_modifier : SparseModifier;
}.

Record CollectionSchema := {
  schema_version : N;
  schema_fields : list FieldSpec;
  schema_vectors : list VectorSpec;
  schema_sparse_vectors : list SparseVectorSpec;
  schema_dynamic : DynamicMapping;
  schema_max_fields : N;
  schema_annotations : gmap string string;
}.

#[export] Instance FieldKind_eq_dec : EqDecision FieldKind.
Proof. solve_decision. Defined.
#[export] Instance FieldSpec_eq_dec : EqDecision FieldSpec.
Proof. solve_decision. Defined.
#[export] Instance Distance_eq_dec : EqDecision Distance.
Proof. solve_decision. Defined.
#[export] Instance VectorElement_eq_dec : EqDecision VectorElement.
Proof. solve_decision. Defined.
#[export] Instance VectorIndexSpec_eq_dec : EqDecision VectorIndexSpec.
Proof. solve_decision. Defined.
#[export] Instance HnswParams_eq_dec : EqDecision HnswParams.
Proof. solve_decision. Defined.
#[export] Instance Quantization_eq_dec : EqDecision Quantization.
Proof. solve_decision. Defined.
#[export] Instance VectorSpec_eq_dec : EqDecision VectorSpec.
Proof. solve_decision. Defined.
#[export] Instance DynamicMapping_eq_dec : EqDecision DynamicMapping.
Proof. solve_decision. Defined.
#[export] Instance SparseModifier_eq_dec : EqDecision SparseModifier.
Proof. solve_decision. Defined.
#[export] Instance SparseVectorSpec_eq_dec : EqDecision SparseVectorSpec.
Proof. solve_decision. Defined.
#[export] Instance CollectionSchema_eq_dec : EqDecision CollectionSchema.
Proof. solve_decision. Defined.

(** ** Errors *)

Inductive SchemaMessage :=
  | NameTooLong (kind name : string)
  | NameControl (kind name : string)
  | NameDuplicate (kind name : string)
  | FieldNameEmpty
  | FieldNameLead (name : string)
  | FieldNameDots (name : string)
  | FieldPathEmpty (name : string)
  | FieldPathSegment (name path : string)
  | FieldAnalyzer (name analyzer : string)
  | FieldTextFast (name : string)
  | FieldUnused (name : string)
  | VectorDim (name : string) (dim : N)
  | VectorManhattan (name : string)
  | VectorPqBits (name : string) (num_bits : N)
  | VectorPqSub (name : string) (sub dim : N)
  | VectorRqBits (name : string) (num_bits : N)
  | VectorPartitions (name : string) (partitions : N)
  | VectorRatio (name : string) (ratio : N)
  | VectorQuantile (name : string) (ppm : N)
  | VersionZero
  | MaxFieldsRange (max_fields : N)
  | TooManyMembers (count max_fields : N)
  | SparseNameEmpty
  | SparseDense (name : string)
  | TooManyAnnotations (count : N)
  | AnnotationPrefix (key : string)
  | AnnotationKeyLen (key : string)
  | AnnotationValueLen (key : string)
  | FieldsChanged
  | VectorsChanged
  | SparseChanged
  | MaxFieldsBelow (max_fields count : N).

Inductive SchemaError :=
  | Invalid (m : SchemaMessage)
  | Incompatible (m : SchemaMessage).

#[export] Instance SchemaMessage_eq_dec : EqDecision SchemaMessage.
Proof. solve_decision. Defined.
#[export] Instance SchemaError_eq_dec : EqDecision SchemaError.
Proof. solve_decision. Defined.

(** ** Validation *)

(** [VectorIndexSpec::num_partitions] *)
Definition num_partitions (i : VectorIndexSpec) : option N :=
  match i with
  | IndexAuto | IndexNone => None
  | IvfPq n _ _ | IvfRq n _ | IvfHnswSq n => n
  end.

(** [s.chars().any(char::is_control)] on a UTF-8 string: the control characters are
    U+0000..U+001F, U+007F and U+0080..U+009F; the last encode as [C2 80] .. [C2 9F]. *)
Fixpoint has_control (s : list Ascii.ascii) : bool :=
  match s with
  | [] => false
  | c :: rest =>
      let b := Ascii.N_of_ascii c in
      (b <? 32) || (b =? 127)
      || ((b =? 194) && match rest with
                        | d :: _ => (128 <=? Ascii.N_of_ascii d) && (Ascii.N_of_ascii d <=? 159)
                        | [] => false
                        end)
      || has_control rest
  end.

(** [fn check_name]: the set of names seen so far is threaded. *)
Definition check_name (kind name : string) (seen : gset string)
  : Result (gset string) SchemaError :=
  REFUSE MAX_SCHEMA_NAME_LEN <? str_len name WITH Invalid (NameTooLong kind name) ;;
  REFUSE has_control (String.list_ascii_of_string name) WITH Invalid (NameControl kind name) ;;
  REFUSE bool_decide (name ∈ seen) WITH Invalid (NameDuplicate kind name) ;;
  Ok ({[name]} ∪ seen).

(** [FieldSpec::validate] *)
Definition validate_field (f : FieldSpec) (seen : gset string)
  : Result (gset string) SchemaError :=
  let name := f.(field_name) in
  REFUSE bool_decide (name = ""%string) WITH Invalid FieldNameEmpty ;;
  LET seen' <- check_name "field" name seen ;;
  REFUSE starts_with_char "_"%char name || starts_with_char "-"%char name
    WITH Invalid (FieldNameLead name) ;;
  REFUSE starts_with_char "."%char name || ends_with_char "."%char name || str_contains ".." name
    WITH Invalid (FieldNameDots name) ;;
  LET _path <-
    (if bool_decide (f.(field_source_path) = ""%string) then
       if bool_decide (f.(field_kind) = Json) then Ok () else Err (Invalid (FieldPathEmpty name))
     else if existsb (λ piece, bool_decide (piece = []))
               (split_char "."%char (String.list_ascii_of_string f.(field_source_path)))
     then Err (Invalid (FieldPathSegment name f.(field_source_path)))
     else Ok ()) ;;
  LET _kind <-
    (match f.(field_kind) with
     | Text analyzer _ =>
         if negb (bool_decide (analyzer ∈ KNOWN_ANALYZERS))
         then Err (Invalid (FieldAnalyzer name analyzer))
         else if f.(field_fast) then Err (Invalid (FieldTextFast name)) else Ok ()
     | _ => Ok ()
     end) ;;
  REFUSE negb f.(field_indexed) && negb f.(field_fast) WITH Invalid (FieldUnused name) ;;
  Ok seen'.

(** [VectorSpec::validate] *)
Definition validate_vector (v : VectorSpec) (seen : gset string)
  : Result (gset string) SchemaError :=
  let name := v.(vector_name) in
  LET seen' <- check_name "vector" name seen ;;
  REFUSE negb ((1 <=? v.(vector_dim)) && (v.(vector_dim) <=? MAX_VECTOR_DIM))
    WITH Invalid (VectorDim name v.(vector_dim)) ;;
  REFUSE bool_decide (v.(vector_distance) = Manhattan)
    && negb (match v.(vector_index) with IndexAuto | IndexNone => true | _ => false end)
    WITH Invalid (VectorManhattan name) ;;
  LET _index <-
    (match v.(vector_index) with
     | IvfPq _ num_sub_vectors num_bits =>
         if negb ((num_bits =? 4) || (num_bits =? 8))
         then Err (Invalid (VectorPqBits name num_bits))
         else match num_sub_vectors with
              | Some sub =>
                  if (sub =? 0) || negb (v.(vector_dim) mod sub =? 0)
                  then Err (Invalid (VectorPqSub name sub v.(vector_dim)))
                  else Ok ()
              | None => Ok ()
              end
     | IvfRq _ num_bits =>
         if negb ((1 <=? num_bits) && (num_bits <=? 8))
         then Err (Invalid (VectorRqBits name num_bits)) else Ok ()
     | _ => Ok ()
     end) ;;
  LET _partitions <-
    (match num_partitions v.(vector_index) with
     | Some partitions =>
         if negb ((1 <=? partitions) && (partitions <=? MAX_NUM_PARTITIONS))
         then Err (Invalid (VectorPartitions name partitions)) else Ok ()
     | None => Ok ()
     end) ;;
  match v.(vector_quantization) with
  | Some (QProduct ratio _) =>
      REFUSE negb (bool_decide (ratio ∈ COMPRESSION_RATIOS))
        WITH Invalid (VectorRatio name ratio) ;;
      Ok seen'
  | Some (QScalar (Some ppm) _) =>
      REFUSE negb ((QUANTILE_PPM_MIN <=? ppm) && (ppm <=? QUANTILE_PPM_MAX))
        WITH Invalid (VectorQuantile name ppm) ;;
      Ok seen'
  | _ => Ok seen'
  end.

(** A [for] loop whose body may return an error. *)
Fixpoint try_fold {A B E} (f : A → B → Result B E) (l : list A) (acc : B) : Result B E :=
  match l with
  | [] => Ok acc
  | x :: l => LET acc' <- f x acc ;; try_fold f l acc'
  end.

(** The sparse vectors' loop of [validate]. *)
Definition validate_sparse (dense : gset string) (spec : SparseVectorSpec) (sparse : gset string)
  : Result (gset string) SchemaError :=
  let name := spec.(sparse_name) in
  REFUSE bool_decide (name = ""%string) WITH Invalid SparseNameEmpty ;;
  LET sparse' <- check_name "sparse vector" name sparse ;;
  REFUSE bool_decide (name ∈ dense) WITH Invalid (SparseDense name) ;;
  Ok sparse'.

(** The annotations' loop of [validate]. *)
Definition validate_annotation (kv : string * string) (_ : ()) : Result () SchemaError :=
  let '(key, value) := kv in
  REFUSE negb (existsb (λ p, starts_with p key) ANNOTATION_PREFIXES)
    WITH Invalid (AnnotationPrefix key) ;;
  REFUSE MAX_SCHEMA_NAME_LEN <? str_len key WITH Invalid (AnnotationKeyLen key) ;;
  REFUSE MAX_ANNOTATION_VALUE_LEN <? str_len value WITH Invalid (AnnotationValueLen key) ;;
  Ok ().

(** [CollectionSchema::new] *)
Definition CollectionSchema_new (fields : list FieldSpec) (vectors : list VectorSpec)
    (dynamic : DynamicMapping) : CollectionSchema := {|
  schema_version := 1;
  schema_fields := fields;
  schema_vectors := vectors;
  schema_sparse_vectors := [];
  schema_dynamic := dynamic;
  schema_max_fields := DEFAULT_MAX_FIELDS;
  schema_annotations := ∅;
|}.

(** [CollectionSchema::with_sparse_vectors] *)
Definition with_sparse_vectors (s : CollectionSchema) (sparse : list SparseVectorSpec)
  : CollectionSchema := {|
  schema_version := s.(schema_version);
  schema_fields := s.(schema_fields);
  schema_vectors := s.(schema_vectors);
  schema_sparse_vectors := sparse;
  schema_dynamic := s.(schema_dynamic);
  schema_max_fields := s.(schema_max_fields);
  schema_annotations := s.(schema_annotations);
|}.

(** [CollectionSchema { version, ..schema }] *)
Definition with_version (s : CollectionSchema) (version : N) : CollectionSchema := {|
  schema_version := version;
  schema_fields := s.(schema_fields);
  schema_vectors := s.(schema_vectors);
  schema_sparse_vectors := s.(schema_sparse_vectors);
  schema_dynamic := s.(schema_dynamic);
  schema_max_fields := s.(schema_max_fields);
  schema_annotations := s.(schema_annotations);
|}.

(** [CollectionSchema::member_count] *)
Definition member_count (s : CollectionSchema) : N :=
  len s.(schema_fields) + len s.(schema_vectors) + len s.(schema_sparse_vectors).

(** [CollectionSchema::validate].  The annotations are visited in key order. *)
Definition validate (s : CollectionSchema) : Result () SchemaError :=
  let annotations := btree_iter s.(schema_annotations) in
  REFUSE s.(schema_version) =? 0 WITH Invalid VersionZero ;;
  REFUSE negb ((1 <=? s.(schema_max_fields)) && (s.(schema_max_fields) <=? MAX_MAX_FIELDS))
    WITH Invalid (MaxFieldsRange s.(schema_max_fields)) ;;
  REFUSE s.(schema_max_fields) <? member_count s
    WITH Invalid (TooManyMembers (member_count s) s.(schema_max_fields)) ;;
  LET _fields <- try_fold validate_field s.(schema_fields) ∅ ;;
  LET dense <- try_fold validate_vector s.(schema_vectors) ∅ ;;
  LET _sparse <- try_fold (validate_sparse dense) s.(schema_sparse_vectors) ∅ ;;
  REFUSE s.(schema_max_fields) + EXTRA_ANNOTATIONS <? len annotations
    WITH Invalid (TooManyAnnotations (len annotations)) ;;
  try_fold validate_annotation annotations ().

(** [next.starts_with(prefix)] on slices. *)
Definition slice_starts_with {A} `{EqDecision A} (l prefix : list A) : bool :=
  bool_decide (take (length prefix) l = prefix).

(** [CollectionSchema::check_additive] *)
Definition check_additive (s next : CollectionSchema) : Result () SchemaError :=
  REFUSE negb (slice_starts_with next.(schema_fields) s.(schema_fields))
    WITH Incompatible FieldsChanged ;;
  REFUSE negb (slice_starts_with next.(schema_vectors) s.(schema_vectors))
    WITH Incompatible VectorsChanged ;;
  REFUSE negb (bool_decide (next.(schema_sparse_vectors) = s.(schema_sparse_vectors)))
    WITH Incompatible SparseChanged ;;
  REFUSE next.(schema_max_fields) <? member_count next
    WITH Incompatible (MaxFieldsBelow next.(schema_max_fields) (member_count next)) ;;
  Ok ().

(** [CollectionSchema::same_ignoring_version] *)
Definition same_ignoring_version (a b : CollectionSchema) : bool :=
  bool_decide (a.(schema_fields) = b.(schema_fields))
  && bool_decide (a.(schema_vectors) = b.(schema_vectors))
  && bool_decide (a.(schema_sparse_vectors) = b.(schema_sparse_vectors))
  && bool_decide (a.(schema_dynamic) = b.(schema_dynamic))
  && bool_decide (a.(schema_max_fields) = b.(schema_max_fields))
  && bool_decide (a.(schema_annotations) = b.(schema_annotations)).

(** [iter().enumerate().find(p)] *)
Fixpoint find_index {A} (p : A → bool) (l : list A) (i : N) : option (N * A) :=
  match l with
  | [] => None
  | x :: l => if p x then Some (i, x) else find_index p l (i + 1)
  end.

(** [CollectionSchema::field] *)
Definition schema_field (s : CollectionSchema) (name : string) : option FieldSpec :=
  List.find (λ f, bool_decide (f.(field_name) = name)) s.(schema_fields).

(** [CollectionSchema::vector] *)
Definition schema_vector (s : CollectionSchema) (name : string) : option (N * VectorSpec) :=
  find_index (λ v, bool_decide (v.(vector_name) = name)) s.(schema_vectors) 0.

(** [CollectionSchema::sparse_vector] *)
Definition schema_sparse_vector (s : CollectionSchema) (name : string)
  : option (N * SparseVectorSpec) :=
  find_index (λ v, bool_decide (v.(sparse_name) = name)) s.(schema_sparse_vectors) 0.

(** ** What a validated schema guarantees *)

Section unique_names.
Context {A E : Type} (name : A → string) (f : A → gset string → Result (gset string) E).
Hypothesis f_adds : ∀ x acc acc', f x acc = Ok acc' → acc' = {[name x]} ∪ acc ∧ name x ∉ acc.

(** A loop that adds each element's name to the seen set and refuses duplicates leaves
    unique names. *)
Lemma try_fold_unique l acc acc' :
  try_fold f l acc = Ok acc' →
  NoDup (name <$> l) ∧ acc' = list_to_set (name <$> l) ∪ acc
  ∧ ∀ x, x ∈ l → name x ∉ acc.
Proof.
  revert acc. induction l as [|x l IH]; intros acc E0; cbn in *.
  - simplify_eq. split; [constructor|]. split; [set_solver|]. intros ? [] %elem_of_nil.
  - destruct (f x acc) as [acc1|] eqn:F; [|done].
    apply f_adds in F as [-> N]. apply IH in E0 as (D & -> & Q).
    split; [|split; [set_solver|]].
    + constructor; [|done]. intros (y & E1 & Hy)%list_elem_of_fmap.
      specialize (Q y Hy). set_solver.
    + intros y [->|Hy]%elem_of_cons; [done|]. specialize (Q y Hy). set_solver.
Qed.
End unique_names.

Lemma check_name_adds kind name seen seen' :
  check_name kind name seen = Ok seen' → seen' = {[name]} ∪ seen ∧ name ∉ seen.
Proof. unfold check_name. intros H. inv_outcome H. by bools. Qed.

Lemma validate_field_adds f seen seen' :
  validate_field f seen = Ok seen' → seen' = {[f.(field_name)]} ∪ seen ∧ f.(field_name) ∉ seen.
Proof.
  unfold validate_field. intros H.
  destruct (bool_decide (field_name f = ""%string)); [done|].
  destruct (check_name _ _ _) eqn:C; [|done].
  apply check_name_adds in C. inv_outcome H; done.
Qed.

Lemma validate_vector_adds v seen seen' :
  validate_vector v seen = Ok seen' →
  seen' = {[v.(vector_name)]} ∪ seen ∧ v.(vector_name) ∉ seen.
Proof.
  unfold validate_vector. intros H. destruct (check_name _ _ _) eqn:C; [|done].
  apply check_name_adds in C. inv_outcome H; done.
Qed.

Lemma validate_sparse_adds dense v seen seen' :
  validate_sparse dense v seen = Ok seen' →
  seen' = {[v.(sparse_name)]} ∪ seen ∧ v.(sparse_name) ∉ seen.
Proof.
  unfold validate_sparse. intros H. destruct (bool_decide _); [done|].
  destruct (check_name _ _ _) eqn:C; [|done].
  apply check_name_adds in C. inv_outcome H; done.
Qed.

Lemma validate_sparse_fresh dense l seen seen' v :
  try_fold (validate_sparse dense) l seen = Ok seen' → v ∈ l → v.(sparse_name) ∉ dense.
Proof.
  revert seen. induction l as [|x l IH]; intros seen H; cbn in *; [by intros ?%elem_of_nil|].
  destruct (validate_sparse dense x seen) eqn:F; [|done].
  intros [->|Hv]%elem_of_cons; [|by eapply IH].
  unfold validate_sparse in F. inv_outcome F. by bools.
Qed.

(** What [validate] establishes of a schema as a whole. *)
Record schema_wf (s : CollectionSchema) : Prop := {
  wf_version : s.(schema_version) ≠ 0;
  wf_max_fields : 1 <= s.(schema_max_fields) <= MAX_MAX_FIELDS;
  wf_members : member_count s <= s.(schema_max_fields);
  wf_fields : NoDup (field_name <$> s.(schema_fields));
  wf_vectors : NoDup (vector_name <$> s.(schema_vectors));
  wf_sparse : NoDup (sparse_name <$> s.(schema_sparse_vectors));
  wf_disjoint : ∀ v w, v ∈ s.(schema_vectors) → w ∈ s.(schema_sparse_vectors) →
    v.(vector_name) ≠ w.(sparse_name);
}.

Lemma validate_wf s : validate s = Ok () → schema_wf s.
Proof.
  unfold validate. intros H.
  destruct (N.eqb_spec (schema_version s) 0) as [|V]; [done|].
  destruct (negb _) eqn:M in H; [done|].
  destruct (N.ltb_spec (schema_max_fields s) (member_count s)) as [|C]; [done|].
  destruct (try_fold validate_field _ _) as [fs|] eqn:F; [|done].
  destruct (try_fold validate_vector _ _) as [vs|] eqn:D; [|done].
  destruct (try_fold (validate_sparse _) _ _) as [ss|] eqn:S; [|done].
  apply (try_fold_unique field_name) in F as (F1 & F2 & _); [|by apply validate_field_adds].
  apply (try_fold_unique vector_name) in D as (D1 & D2 & _); [|by apply validate_vector_adds].
  pose proof (try_fold_unique sparse_name _ (validate_sparse_adds vs) _ _ _ S) as (S1 & _ & _).
  bools. split; try done.
  intros v w Hv Hw E. eapply (validate_sparse_fresh vs); [done|done|].
  rewrite <- E, D2. apply elem_of_union_l, elem_of_list_to_set.
  by apply list_elem_of_fmap_2.
Qed.

(** ** Additive evolution *)

Lemma slice_starts_with_spec {A} `{EqDecision A} (l prefix : list A) :
  slice_starts_with l prefix = true ↔ ∃ rest, l = prefix ++ rest.
Proof.
  unfold slice_starts_with. rewrite bool_decide_eq_true. split.
  - intros E. exists (drop (length prefix) l). rewrite <- E at 1. by rewrite take_drop.
  - intros [rest ->]. by rewrite take_app_length.
Qed.

(** [next] extends [s]: the relation [check_additive] decides. *)
Record extends (s next : CollectionSchema) : Prop := {
  ext_fields : ∃ rest, next.(schema_fields) = s.(schema_fields) ++ rest;
  ext_vectors : ∃ rest, next.(schema_vectors) = s.(schema_vectors) ++ rest;
  ext_sparse : next.(schema_sparse_vectors) = s.(schema_sparse_vectors);
  ext_members : member_count next <= next.(schema_max_fields);
}.

Lemma check_additive_extends s next : check_additive s next = Ok () ↔ extends s next.
Proof.
  unfold check_additive. split.
  - intros H. inv_outcome H. bools. split; try by apply slice_starts_with_spec. all: done.
  - intros [F V S M]. apply slice_starts_with_spec in F, V. rewrite F, V. cbn [negb].
    rewrite bool_decide_eq_true_2 by done. cbn [negb].
    by rewrite (proj2 (N.ltb_ge _ _)) by lia.
Qed.

Lemma extends_trans a b c : extends a b → extends b c → extends a c.
Proof.
  intros [[f F] [v V] S _] [[f' F'] [v' V'] S' M]. split.
  - exists (f ++ f'). by rewrite F', F, app_assoc.
  - exists (v ++ v'). by rewrite V', V, app_assoc.
  - congruence.
  - done.
Qed.

Lemma find_index_app {A} (p : A → bool) l r i res :
  find_index p l i = Some res → find_index p (l ++ r) i = Some res.
Proof.
  revert i. induction l as [|x l IH]; intros i; cbn; [done|]. destruct (p x); [done|]. apply IH.
Qed.

Lemma find_app {A} (p : A → bool) l r x : List.find p l = Some x → List.find p (l ++ r) = Some x.
Proof. induction l as [|y l IH]; cbn; [done|]. by destruct (p y). Qed.

(** A field, dense vector or sparse vector keeps its definition, and vectors their
    position, in every extension. *)
Lemma extends_lookup s next name :
  extends s next →
  (∀ f, schema_field s name = Some f → schema_field next name = Some f)
  ∧ (∀ r, schema_vector s name = Some r → schema_vector next name = Some r)
  ∧ (∀ r, schema_sparse_vector s name = Some r → schema_sparse_vector next name = Some r).
Proof.
  intros [[f F] [v V] S _]. unfold schema_field, schema_vector, schema_sparse_vector.
  rewrite F, V, S. split; [|split]; intros ?.
  - apply find_app.
  - apply find_index_app.
  - done.
Qed.

Lemma same_ignoring_version_spec a b :
  same_ignoring_version a b = true ↔ with_version a b.(schema_version) = b.
Proof.
  unfold same_ignoring_version. destruct a, b; cbn. split.
  - intros. bools. by simplify_eq/=.
  - unfold with_version; cbn. intros [= -> -> -> -> -> ->].
    by rewrite !bool_decide_eq_true_2.
Qed.

Lemma with_version_idem s v w : with_version (with_version s v) w = with_version s w.
Proof. done. Qed.

Lemma with_version_same s : with_version s s.(schema_version) = s.
Proof. by destruct s. Qed.

Lemma extends_with_version s next v : extends s next → extends s (with_version next v).
Proof. by intros []. Qed.
