(* ===== verification/MetaTypes.v ===== *)
(** * Metastore data (loams-common/src/meta/types.rs and error.rs, loams-meta/src/command.rs
      and types.rs)

    The records, commands, replies and errors of the metastore state machine, and the
    sequencer state of one stream partition with its offset index. *)

From Stdlib Require Import NArith Lia.
From stdpp Require Import prelude gmap strings numbers sorting list.
From S2P Require Import Prelude.
From S2P Require Import BTree.
From S2P Require Import Ids.
From S2P Require Import Schema.

Open Scope N_scope.

(** ** Limits *)

Definition WAL_COMMIT_WINDOW_MS : N := 900000.
Definition MAX_IDEMPOTENCY_TTL_MS : N := 86400000.
Definition MAX_IDEMPOTENCY_KEYS : N := 1000.
Definition MAX_COLLECTION_NAME_LEN : N := 222.
Definition MAX_NAME_LEN : N := 255.
Definition MAX_PARTITIONS : N := 10000.
Definition MAX_KEY_LEN : N := 1024.
Definition MAX_LEASE_TTL_MS : N := 3600000.
Definition MAX_ALIAS_TARGETS : N := 100.
Definition MAX_ALIAS_ACTIONS : N := 100.
Definition MAX_LINK_OPTIONS : N := 64.
Definition COLLECTION_KIND : string := "collection".
Definition COLLECTION_POINTER_PREFIX : string := "collection/".

(** ** Records *)

(** [std::ops::Range<u64>] *)
Record Range := { range_start : N; range_end : N }.

Record Namespace := { namespace_id : NamespaceId; namespace_name : string }.

Inductive WalClass := Standard | Express | Quorum.

Record Retention := { max_age_ms : option N; max_bytes : option N }.
Definition Retention_default : Retention := {| max_age_ms := None; max_bytes := None |}.

Record TargetRef := { target_kind : string; target_name : string }.

Record Link := {
  link_id : LinkId;
  link_namespace : NamespaceId;
  link_name : string;
  link_source : StreamId;
  link_target : TargetRef;
  link_options : gmap string string;
}.

Record Stream := {
  stream_id : StreamId;
  stream_namespace : NamespaceId;
  stream_name : string;
  stream_partitions : N;
  stream_class : WalClass;
  stream_retention : Retention;
}.

Record WalChunk := {
  chunk_stream : StreamId;
  chunk_partition : N;
  chunk_records : N;
  chunk_byte_range : Range;
  chunk_max_timestamp_ms : Z;
}.

Inductive EntryKind := Wal | Segment.

Record IndexEntry := {
  entry_kind : EntryKind;
  base_offset : N;
  records : N;
  object : string;
  byte_range : Range;
  max_timestamp_ms : Z;
}.

(** [IndexEntry::end_offset] *)
Definition end_offset (e : IndexEntry) : N := u64_add e.(base_offset) e.(records).

(** [[u8; 32]] *)
Definition IdempotencyKey := string.

Inductive IdempotencyEntry :=
  | Pending (owner : string) (until_ms : N)
  | Done (partition : N) (offset : N) (until_ms : N).

(** [IdempotencyEntry::until_ms] *)
Definition entry_until_ms (e : IdempotencyEntry) : N :=
  match e with Pending _ u | Done _ _ u => u end.

(** [IdempotencyEntry::is_live_at] *)
Definition is_live_at (e : IdempotencyEntry) (now_ms : N) : bool := now_ms <? entry_until_ms e.

Inductive IdempotencyState :=
  | Claimed
  | InFlight (until_ms : N)
  | StateDone (partition : N) (offset : N).

Record Lease := { epoch : N; owner : option string; deadline_ms : N }.

(** [Lease::is_held_at] *)
Definition is_held_at (l : Lease) (now_ms : N) : bool :=
  match l.(owner) with Some _ => now_ms <? l.(deadline_ms) | None => false end.

Record LeaseGrant := { grant_epoch : N; grant_deadline_ms : N }.

Record Fence := { fence_lease : string; fence_epoch : N }.

Record Freshness := { created_at_ms : N; fresh_max_age_ms : N }.

(** [Freshness::expired_at] *)
Definition expired_at (f : Freshness) (clock_ms : N) : bool :=
  u64_saturating_add f.(created_at_ms) f.(fresh_max_age_ms) <? clock_ms.

Record Pointer := { pointer_version : N; pointer_value : string }.

Record Collection := {
  collection_id : CollectionId;
  collection_namespace : NamespaceId;
  collection_name : string;
  collection_schema : CollectionSchema;
  collection_partitions : N;
  collection_stream : StreamId;
  collection_link : LinkId;
}.

Record HotConfig := { hot_vectors : bool; hot_text : bool; hot_fragments : bool }.
Definition HotConfig_default : HotConfig :=
  {| hot_vectors := false; hot_text := false; hot_fragments := false |}.

(** [HotConfig::any] *)
Definition hot_any (h : HotConfig) : bool :=
  h.(hot_vectors) || h.(hot_text) || h.(hot_fragments).

(** [HotConfig::or] *)
Definition hot_or (a b : HotConfig) : HotConfig := {|
  hot_vectors := a.(hot_vectors) || b.(hot_vectors);
  hot_text := a.(hot_text) || b.(hot_text);
  hot_fragments := a.(hot_fragments) || b.(hot_fragments);
|}.

Inductive AliasAction :=
  | AliasCreate (alias collection : string)
  | AliasDelete (alias : string).

Inductive AliasTargetAction :=
  | TargetAdd (alias collection : string) (is_write_index : option bool)
  | TargetRemove (alias collection : string)
  | TargetRemoveAlias (alias : string).

Record AliasTargets := { members : gmap CollectionId (option bool) }.

(** [AliasTargets::write_target] *)
Definition write_target (t : AliasTargets) : option CollectionId :=
  match List.find (λ e, bool_decide (e.2 = Some true)) (btree_iter t.(members)) with
  | Some (id, _) => Some id
  | None =>
      match btree_iter t.(members) with
      | [(id, None)] => Some id
      | _ => None
      end
  end.

(** ** Names and keys of implicit objects *)

Definition implicit_name (collection : string) (id : CollectionId) : string :=
  "_collection." +:+ collection +:+ "." +:+ show_u64 id.

Definition collection_pointer_key (id : CollectionId) : string :=
  COLLECTION_POINTER_PREFIX +:+ show_u64 id.

Definition collection_prefix (ns : NamespaceId) (id : CollectionId) : string :=
  "ns/" +:+ show_u64 ns +:+ "/collections/" +:+ show_u64 id +:+ "/".

Definition collection_pk_prefix (ns : NamespaceId) (id : CollectionId) : string :=
  "ns/" +:+ show_u64 ns +:+ "/pk/collection-" +:+ show_u64 id +:+ "/".

Definition link_pointer_key (id : LinkId) : string := "link/" +:+ show_u64 id.

(** ** Errors

    The text of an [InvalidArgument] is a [Message]: one constructor per [format!] of the
    state machine, with its arguments. *)

Inductive Message :=
  | MName (kind name : string)
  | MReserved
  | MKeyLen (kind : string) (len : N)
  | MNoChunks
  | MTooManyChunks (n : N)
  | MChunkRecords
  | MChunkRange (r : Range)
  | MSwapNothing
  | MSegmentRange (r : Range)
  | MSegmentRecords
  | MIdempotencyKeys (n : N)
  | MIdempotencyTtl (ttl_ms : N)
  | MIdempotencyRepeat
  | MLeaseTtl (ttl_ms : N)
  | MPartitions (n : N)
  | MLinkNamespace (source : StreamId) (ns : NamespaceId)
  | MLinkImplicit (source : StreamId)
  | MLinkCollection
  | MLinkOptions
  | MCollectionName (len : N)
  | MSchema (e : SchemaError)
  | MSchemaVersion (version : N)
  | MSchemaVersionMax
  | MAliasActions (n : N)
  | MAliasTargets (alias : string) (n : N)
  | MAliasWriters (alias : string) (writers : list string)
  | MPointerKey (key : string)
  | MRetentionImplicit (stream : StreamId).

Inductive ApplyError :=
  | InvalidArgument (m : Message)
  | NamespaceExists (id : NamespaceId)
  | NamespaceNotFound (id : NamespaceId)
  | StreamExists (id : StreamId)
  | StreamNotFound (id : StreamId)
  | LinkExists (id : LinkId)
  | PartitionNotFound (stream : StreamId) (partition : N)
  | LeaseHeld (owner : string) (deadline_ms : N)
  | LeaseLost (key : string)
  | VersionMismatch (current : option Pointer)
  | Fenced (lease : string)
  | IndexMismatch (stream : StreamId) (partition : N)
  | StaleCommit (object : string)
  | StaleObject (object : string) (created_at_ms max_age_ms clock_ms : N)
  | CollectionExists (id : CollectionId)
  | CollectionNotFound (id : CollectionId)
  | NameTaken (name : string)
  | IncompatibleSchema (m : SchemaMessage)
  | SchemaVersionMismatch (collection : CollectionId) (current : N)
  | UnknownCollection (name : string).

Record StaleLag := {
  lag_deadline_ms : N;
  lag_clock_ms : N;
  lag_proposer_now_ms : N;
  lag_late_by_ms : N;
  lag_proposer_lag_ms : Z;
}.

(** [ApplyError::stale_lag]: the [i128] difference is clamped to [i64]. *)
Definition stale_lag (e : ApplyError) (proposer_now_ms : N) : option StaleLag :=
  match e with
  | StaleObject _ created_at_ms max_age_ms clock_ms =>
      let deadline_ms := u64_saturating_add created_at_ms max_age_ms in
      let lag := (Z.of_N clock_ms - Z.of_N proposer_now_ms)%Z in
      Some {|
        lag_deadline_ms := deadline_ms;
        lag_clock_ms := clock_ms;
        lag_proposer_now_ms := proposer_now_ms;
        lag_late_by_ms := u64_saturating_sub clock_ms deadline_ms;
        lag_proposer_lag_ms :=
          if ((i64_MIN <=? lag) && (lag <=? i64_MAX))%Z then lag
          else if (lag <? 0)%Z then i64_MIN else i64_MAX;
      |}
  | _ => None
  end.

(** ** Commands and replies *)

Inductive Command :=
  | CreateNamespace (name : string)
  | CreateStream (namespace : NamespaceId) (name : string) (partitions : N)
      (class : WalClass) (retention : Retention)
  | CreateLink (namespace : NamespaceId) (name : string) (source : StreamId)
      (target : TargetRef) (options : gmap string string)
  | CommitWal (object : string) (created_at_ms : N) (chunks : list WalChunk)
  | SetRetention (stream : StreamId) (retention : Retention)
  | SwapSegment (stream : StreamId) (partition : N) (replaces : list (N * string))
      (segment : string) (byte_range : Range) (max_timestamp_ms : Z)
      (fence : option Fence) (now_ms : N) (fresh : Freshness)
  | TrimPartition (stream : StreamId) (partition before_offset : N)
      (fence : option Fence) (now_ms : N)
  | PruneWalCommits (fence : option Fence) (now_ms : N)
  | ForgetObjects (objects : list string) (fence : option Fence)
  | AcquireLease (key owner : string) (ttl_ms now_ms : N)
  | RenewLease (key owner : string) (epoch ttl_ms now_ms : N)
  | ReacquireLease (key owner : string) (epoch ttl_ms now_ms : N)
  | ReleaseLease (key owner : string) (epoch : N)
  | CasPointer (namespace : NamespaceId) (key : string) (expected : option N) (value : string)
      (fence : option Fence) (fresh : option Freshness)
  | CreateCollection (namespace : NamespaceId) (name : string) (schema : CollectionSchema)
      (partitions : N)
  | DropCollection (namespace : NamespaceId) (name : string) (now_ms : N)
  | UpdateCollectionSchema (collection : CollectionId) (expected_version : N)
      (schema : CollectionSchema)
  | UpdateAliases (namespace : NamespaceId) (actions : list AliasAction)
  | SetCollectionHot (collection : CollectionId) (hot : HotConfig)
  | UpdateAliasTargets (namespace : NamespaceId) (actions : list AliasTargetAction)
  | ClaimIdempotencyKeys (stream : StreamId) (owner : string) (keys : list IdempotencyKey)
      (ttl_ms now_ms : N)
  | CompleteIdempotencyKeys (stream : StreamId) (owner : string)
      (done : list (IdempotencyKey * N * N)) (window_ms now_ms : N)
  | ReleaseIdempotencyKeys (stream : StreamId) (owner : string) (keys : list IdempotencyKey)
  | PruneIdempotencyKeys (fence : option Fence) (now_ms : N).

Inductive Reply :=
  | NamespaceCreated (id : NamespaceId)
  | StreamCreated (id : StreamId)
  | LinkCreated (id : LinkId)
  | WalCommitted (base_offsets : list N)
  | LeaseReply (grant : LeaseGrant)
  | LeaseReleased
  | PointerSet (version : N)
  | RetentionSet
  | SegmentSwapped
  | Trimmed (log_start_offset : N)
  | Pruned (removed : N)
  | Forgotten (removed : N)
  | CollectionCreated (id : CollectionId) (stream : StreamId) (link : LinkId)
  | CollectionDropped (id : option CollectionId)
  | SchemaUpdated (version : N)
  | AliasesUpdated
  | CollectionHotSet
  | IdempotencyClaimed (states : list IdempotencyState)
  | IdempotencyKeysUpdated.

(** ** Decidable equality *)

#[export] Instance Range_eq_dec : EqDecision Range.
Proof. solve_decision. Defined.
#[export] Instance Namespace_eq_dec : EqDecision Namespace.
Proof. solve_decision. Defined.
#[export] Instance WalClass_eq_dec : EqDecision WalClass.
Proof. solve_decision. Defined.
#[export] Instance Retention_eq_dec : EqDecision Retention.
Proof. solve_decision. Defined.
#[export] Instance EntryKind_eq_dec : EqDecision EntryKind.
Proof. solve_decision. Defined.
#[export] Instance IndexEntry_eq_dec : EqDecision IndexEntry.
Proof. solve_decision. Defined.
#[export] Instance Pointer_eq_dec : EqDecision Pointer.
Proof. solve_decision. Defined.
#[export] Instance Lease_eq_dec : EqDecision Lease.
Proof. solve_decision. Defined.
#[export] Instance HotConfig_eq_dec : EqDecision HotConfig.
Proof. solve_decision. Defined.
#[export] Instance IdempotencyEntry_eq_dec : EqDecision IdempotencyEntry.
Proof. solve_decision. Defined.
#[export] Instance IdempotencyState_eq_dec : EqDecision IdempotencyState.
Proof. solve_decision. Defined.

(** ** The sequencer state of one partition (loams-meta/src/types.rs) *)

Record WalCommitRecord := { wal_base_offsets : list N; wal_created_at_ms : N }.

Record PartitionState := {
  next_offset : N;
  log_start_offset : N;
  index : gmap N IndexEntry;
  bytes : N;
}.

Definition PartitionState_default : PartitionState :=
  {| next_offset := 0; log_start_offset := 0; index := ∅; bytes := 0 |}.

(** [fn entry_bytes] *)
Definition entry_bytes (e : IndexEntry) : N :=
  u64_saturating_sub e.(byte_range).(range_end) e.(byte_range).(range_start).

(** [PartitionState::insert_entry]: the byte count is kept as the entry is added and a
    replaced one leaves. *)
Definition insert_entry (ps : PartitionState) (e : IndexEntry) : PartitionState :=
  let added := u64_add ps.(bytes) (entry_bytes e) in
  {| next_offset := ps.(next_offset);
     log_start_offset := ps.(log_start_offset);
     index := <[e.(base_offset) := e]> ps.(index);
     bytes := match ps.(index) !! e.(base_offset) with
              | Some replaced => u64_sub added (entry_bytes replaced)
              | None => added
              end |}.

(** [PartitionState::remove_entry] *)
Definition remove_entry (ps : PartitionState) (base : N) : PartitionState * option IndexEntry :=
  match ps.(index) !! base with
  | None => (ps, None)
  | Some e =>
      ({| next_offset := ps.(next_offset);
          log_start_offset := ps.(log_start_offset);
          index := delete base ps.(index);
          bytes := u64_sub ps.(bytes) (entry_bytes e) |}, Some e)
  end.

(** [PartitionState::pop_first_before] *)
Definition pop_first_before (ps : PartitionState) (offset : N)
  : PartitionState * option IndexEntry :=
  match btree_first ps.(index) with
  | Some (base, e) => if end_offset e <=? offset then remove_entry ps base else (ps, None)
  | None => (ps, None)
  end.

(** [PartitionState::lookup] *)
Definition lookup_offset (ps : PartitionState) (offset : N) : option IndexEntry :=
  if offset <? ps.(log_start_offset) then None
  else match btree_last_le ps.(index) offset with
       | Some (_, e) => if offset <? end_offset e then Some e else None
       | None => None
       end.

(** [PartitionState::entries_from] *)
Definition entries_from (ps : PartitionState) (offset : N) : list IndexEntry :=
  let offset := N.max offset ps.(log_start_offset) in
  let start := match lookup_offset ps offset with
               | Some e => e.(base_offset)
               | None => offset
               end in
  (btree_range_from ps.(index) start).*2.

(** [PartitionState::entries] *)
Definition entries (ps : PartitionState) : list IndexEntry := btree_values ps.(index).

(** [PartitionState::high_watermark] *)
Definition high_watermark (ps : PartitionState) : N := ps.(next_offset).
