(* ===== verification/Paths.v ===== *)
(** * Object paths of the log (loams-log/src/paths.rs)

    A ULID is the text its [Display] writes.  The paths of WAL objects, of segments and of a
    dropped collection's prefixes are pairwise different, and a segment's path determines its
    stream, partition and base offset. *)

From Stdlib Require Import NArith Lia Ascii.
From stdpp Require Import prelude numbers gmap strings list.
From S2P Require Import Prelude.
From S2P Require Import Ids.
From S2P Require Import Schema.
From S2P Require Import MetaTypes.

Open Scope N_scope.

(** [fn class_name] *)
Definition class_name (class : WalClass) : string :=
  match class with
  | Standard => "standard"
  | Express => "express"
  | Quorum => "quorum"
  end.

(** [fn wal_object] *)
Definition wal_object (class : WalClass) (node_id : N) (ulid : string) : string :=
  "wal/" +:+ class_name class +:+ "/" +:+ show_u64 node_id +:+ "/" +:+ ulid +:+ ".wal".

(** [{n:020}] *)
Definition show_padded (n : N) : string :=
  let ds := digits 20 n in
  String.string_of_list_ascii (digit_char <$> (replicate (20 - length ds) 0 ++ ds)).

(** [fn segment] *)
Definition segment (namespace : NamespaceId) (stream : StreamId) (partition base_offset : N)
    (ulid : string) : string :=
  "ns/" +:+ show_u64 namespace +:+ "/streams/" +:+ show_u64 stream +:+ "/"
    +:+ show_u64 partition +:+ "/" +:+ show_padded base_offset +:+ "-" +:+ ulid +:+ ".seg".

(** ** Endings *)

(** [s.ends_with(suffix)] *)
Definition ends_with (suffix s : string) : bool :=
  bool_decide (take (String.length suffix) (rev (String.list_ascii_of_string s))
               = rev (String.list_ascii_of_string suffix)).

Lemma length_list_ascii s : length (String.list_ascii_of_string s) = String.length s.
Proof. induction s; cbn; congruence. Qed.

Lemma ends_with_app s suffix t :
  String.length suffix = String.length t →
  ends_with suffix (s +:+ t) = bool_decide (t = suffix).
Proof.
  intros L. unfold ends_with. apply bool_decide_ext.
  rewrite list_ascii_app, rev_app_distr, take_app_length';
    [|by rewrite length_rev, length_list_ascii].
  split; [|by intros ->]. intros E. apply (f_equal (@rev ascii)) in E.
  rewrite !rev_involutive in E. by apply list_ascii_inj.
Qed.

(** ** Reading a path from the left *)

(** What precedes the first separator is determined. *)
Lemma sep_app_inj {A} (x : A) d1 d2 l1 l2 :
  x ∉ d1 → x ∉ d2 → d1 ++ x :: l1 = d2 ++ x :: l2 → d1 = d2 ∧ l1 = l2.
Proof.
  revert d2. induction d1 as [|a d1 IH]; intros [|b d2] N1 N2 E; cbn in E.
  - by simplify_eq.
  - simplify_eq. exfalso. apply N2. left.
  - simplify_eq. exfalso. apply N1. left.
  - injection E as -> E. apply IH in E as [-> ->]; [done| |]; intros I; [apply N1|apply N2];
      by right.
Qed.

Lemma digit_chars_not x ds :
  is_ascii_digit x = false → Forall (λ d, d < 10) ds → x ∉ (digit_char <$> ds).
Proof.
  intros X F (d & -> & I)%list_elem_of_fmap. rewrite Forall_forall in F. apply F in I.
  by rewrite digit_char_digit in X.
Qed.

Lemma show_not x n :
  is_ascii_digit x = false → x ∉ String.list_ascii_of_string (show_u64 n).
Proof. intros X. rewrite list_ascii_show. apply digit_chars_not; [done|apply digits_small]. Qed.

Lemma list_ascii_padded n :
  String.list_ascii_of_string (show_padded n)
    = digit_char <$> (replicate (20 - length (digits 20 n)) 0 ++ digits 20 n).
Proof. apply String.list_ascii_of_string_of_list_ascii. Qed.

Lemma padded_small n :
  Forall (λ d, d < 10) (replicate (20 - length (digits 20 n)) 0 ++ digits 20 n).
Proof. apply Forall_app. split; [by apply Forall_replicate|apply digits_small]. Qed.

Lemma padded_not x n :
  is_ascii_digit x = false → x ∉ String.list_ascii_of_string (show_padded n).
Proof. intros X. rewrite list_ascii_padded. apply digit_chars_not; [done|apply padded_small]. Qed.

Lemma value_zeros k ds : value (replicate k 0 ++ ds) = value ds.
Proof. unfold value. rewrite foldl_app. f_equal. induction k; cbn; [done|]. exact IHk. Qed.

Lemma show_padded_inj a b :
  a <= u64_MAX → b <= u64_MAX → show_padded a = show_padded b → a = b.
Proof.
  intros A B E. apply (f_equal String.list_ascii_of_string) in E.
  rewrite !list_ascii_padded in E. apply (f_equal (fmap digit_val)) in E.
  rewrite !digit_vals_chars in E by apply padded_small.
  apply (f_equal value) in E. rewrite !value_zeros in E.
  by rewrite !digits_value in E by (by apply u64_digits).
Qed.

(** A segment's path determines its place. *)
Lemma segment_inj ns st p b u ns' st' p' b' u' :
  st <= u64_MAX → p <= u64_MAX → b <= u64_MAX →
  st' <= u64_MAX → p' <= u64_MAX → b' <= u64_MAX →
  segment ns st p b u = segment ns' st' p' b' u' → st = st' ∧ p = p' ∧ b = b'.
Proof.
  intros B1 B2 B3 B4 B5 B6 E. apply (f_equal String.list_ascii_of_string) in E.
  unfold segment in E. rewrite !list_ascii_app in E. apply app_inv_head in E. cbn in E.
  apply sep_app_inj in E as [_ E]; [|by apply show_not..].
  apply (app_inv_head (String.list_ascii_of_string "streams/")) in E.
  apply sep_app_inj in E as [E1 E]; [|by apply show_not..].
  apply sep_app_inj in E as [E2 E]; [|by apply show_not..].
  apply sep_app_inj in E as [E3 _]; [|by apply padded_not..].
  apply list_ascii_inj in E1, E2, E3.
  split_and!; [by apply show_u64_inj|by apply show_u64_inj|by apply show_padded_inj].
Qed.

(** ** The kinds of paths differ *)

Lemma string_app_assoc s t u : (s +:+ t) +:+ u = s +:+ (t +:+ u).
Proof. induction s as [|c s IH]; [done|]. rewrite !string_app_cons. by rewrite IH. Qed.

Lemma wal_object_ends class node ulid : ends_with ".wal" (wal_object class node ulid) = true.
Proof. unfold wal_object. rewrite <- !string_app_assoc. by rewrite ends_with_app. Qed.

Lemma wal_ends_seg class node ulid : ends_with ".seg" (wal_object class node ulid) = false.
Proof. unfold wal_object. rewrite <- !string_app_assoc. by rewrite ends_with_app. Qed.

Lemma segment_ends ns st p b ulid : ends_with ".wal" (segment ns st p b ulid) = false.
Proof. unfold segment. rewrite <- !string_app_assoc. by rewrite ends_with_app. Qed.

Lemma segment_ends_seg ns st p b ulid : ends_with ".seg" (segment ns st p b ulid) = true.
Proof. unfold segment. rewrite <- !string_app_assoc. by rewrite ends_with_app. Qed.

Lemma slash_ends s : ends_with ".wal" (s +:+ "/") = false ∧ ends_with ".seg" (s +:+ "/") = false.
Proof.
  unfold ends_with. rewrite list_ascii_app, rev_app_distr. cbn.
  split; apply bool_decide_eq_false; by intros [=].
Qed.

(** A retired prefix ends with a slash. *)
Lemma collection_prefix_ends ns id :
  ends_with ".wal" (collection_prefix ns id) = false
  ∧ ends_with ".seg" (collection_prefix ns id) = false.
Proof. unfold collection_prefix. rewrite <- !string_app_assoc. apply slash_ends. Qed.

Lemma collection_pk_prefix_ends ns id :
  ends_with ".wal" (collection_pk_prefix ns id) = false
  ∧ ends_with ".seg" (collection_pk_prefix ns id) = false.
Proof. unfold collection_pk_prefix. rewrite <- !string_app_assoc. apply slash_ends. Qed.
