(* ===== verification/MetaState.v ===== *)
(** * The metastore state (loams-meta/src/state/mod.rs)

    [MetaState] has the fields of the Rust struct.  A [BTreeMap] is a [gmap] (see
    BTree.v).  [set_f s v] is the assignment [self.f = v]. The checks on names and keys
    that the handlers share are here; a [&mut self] handler is a function from the state
    to the state it leaves and its [Result], so a handler that fails half way is seen to
    do so. *)

From Stdlib Require Import NArith Lia Ascii.
From stdpp Require Import prelude gmap strings numbers list.
From S2P Require Import Prelude.
From S2P Require Import BTree.
From S2P Require Import Ids.
From S2P Require Import Schema.
From S2P Require Import MetaTypes.

Open Scope N_scope.

Record MetaState := mkMetaState {
  clock_ms : N;
  last_namespace_id : N;
  last_stream_id : N;
  namespaces : gmap NamespaceId Namespace;
  namespace_names : gmap string NamespaceId;
  streams : gmap StreamId Stream;
  stream_names : gmap (NamespaceId * string) StreamId;
  partitions : gmap (StreamId * N) PartitionState;
  wal_commits : gmap string WalCommitRecord;
  wal_live_chunks : gmap string N;
  retired : gmap string N;
  leases : gmap string Lease;
  pointers : gmap (NamespaceId * string) Pointer;
  last_link_id : N;
  links : gmap LinkId Link;
  link_names : gmap (NamespaceId * string) LinkId;
  last_collection_id : N;
  collections : gmap CollectionId Collection;
  collection_names : gmap (NamespaceId * string) CollectionId;
  aliases : gmap (NamespaceId * string) CollectionId;
  collection_hot : gmap CollectionId HotConfig;
  alias_targets : gmap (NamespaceId * string) AliasTargets;
  idempotency : gmap (StreamId * IdempotencyKey) IdempotencyEntry;
}.

(** [MetaState::default()] *)
Definition MetaState_default : MetaState :=
  mkMetaState 0 0 0 ∅ ∅ ∅ ∅ ∅ ∅ ∅ ∅ ∅ ∅ 0 ∅ ∅ 0 ∅ ∅ ∅ ∅ ∅ ∅.

(** ** Assignments *)

Definition set_clock_ms (s : MetaState) (v : N) : MetaState :=
  mkMetaState v (last_namespace_id s) (last_stream_id s) (namespaces s)
    (namespace_names s) (streams s) (stream_names s) (partitions s) (wal_commits s)
    (wal_live_chunks s) (retired s) (leases s) (pointers s) (last_link_id s) (links s)
    (link_names s) (last_collection_id s) (collections s) (collection_names s)
    (aliases s) (collection_hot s) (alias_targets s) (idempotency s).
Definition set_last_namespace_id (s : MetaState) (v : N) : MetaState :=
  mkMetaState (clock_ms s) v (last_stream_id s) (namespaces s) (namespace_names s)
    (streams s) (stream_names s) (partitions s) (wal_commits s) (wal_live_chunks s)
    (retired s) (leases s) (pointers s) (last_link_id s) (links s) (link_names s)
    (last_collection_id s) (collections s) (collection_names s) (aliases s)
    (collection_hot s) (alias_targets s) (idempotency s).
Definition set_last_stream_id (s : MetaState) (v : N) : MetaState :=
  mkMetaState (clock_ms s) (last_namespace_id s) v (namespaces s) (namespace_names s)
    (streams s) (stream_names s) (partitions s) (wal_commits s) (wal_live_chunks s)
    (retired s) (leases s) (pointers s) (last_link_id s) (links s) (link_names s)
    (last_collection_id s) (collections s) (collection_names s) (aliases s)
    (collection_hot s) (alias_targets s) (idempotency s).
Definition set_namespaces (s : MetaState) (v : gmap NamespaceId Namespace) : MetaState :=
  mkMetaState (clock_ms s) (last_namespace_id s) (last_stream_id s) v (namespace_names
    s) (streams s) (stream_names s) (partitions s) (wal_commits s) (wal_live_chunks s)
    (retired s) (leases s) (pointers s) (last_link_id s) (links s) (link_names s)
    (last_collection_id s) (collections s) (collection_names s) (aliases s)
    (collection_hot s) (alias_targets s) (idempotency s).
Definition set_namespace_names (s : MetaState) (v : gmap string NamespaceId) : MetaState :=
  mkMetaState (clock_ms s) (last_namespace_id s) (last_stream_id s) (namespaces s) v
    (streams s) (stream_names s) (partitions s) (wal_commits s) (wal_live_chunks s)
    (retired s) (leases s) (pointers s) (last_link_id s) (links s) (link_names s)
    (last_collection_id s) (collections s) (collection_names s) (aliases s)
    (collection_hot s) (alias_targets s) (idempotency s).
Definition set_streams (s : MetaState) (v : gmap StreamId Stream) : MetaState :=
  mkMetaState (clock_ms s) (last_namespace_id s) (last_stream_id s) (namespaces s)
    (namespace_names s) v (stream_names s) (partitions s) (wal_commits s)
    (wal_live_chunks s) (retired s) (leases s) (pointers s) (last_link_id s) (links s)
    (link_names s) (last_collection_id s) (collections s) (collection_names s)
    (aliases s) (collection_hot s) (alias_targets s) (idempotency s).
Definition set_stream_names (s : MetaState) (v : gmap (NamespaceId * string) StreamId) : MetaState :=
  mkMetaState (clock_ms s) (last_namespace_id s) (last_stream_id s) (namespaces s)
    (namespace_names s) (streams s) v (partitions s) (wal_commits s) (wal_live_chunks
    s) (retired s) (leases s) (pointers s) (last_link_id s) (links s) (link_names s)
    (last_collection_id s) (collections s) (collection_names s) (aliases s)
    (collection_hot s) (alias_targets s) (idempotency s).
Definition set_partitions (s : MetaState) (v : gmap (StreamId * N) PartitionState) : MetaState :=
  mkMetaState (clock_ms s) (last_namespace_id s) (last_stream_id s) (namespaces s)
    (namespace_names s) (streams s) (stream_names s) v (wal_commits s)
    (wal_live_chunks s) (retired s) (leases s) (pointers s) (last_link_id s) (links s)
    (link_names s) (last_collection_id s) (collections s) (collection_names s)
    (aliases s) (collection_hot s) (alias_targets s) (idempotency s).
Definition set_wal_commits (s : MetaState) (v : gmap string WalCommitRecord) : MetaState :=
  mkMetaState (clock_ms s) (last_namespace_id s) (last_stream_id s) (namespaces s)
    (namespace_names s) (streams s) (stream_names s) (partitions s) v (wal_live_chunks
    s) (retired s) (leases s) (pointers s) (last_link_id s) (links s) (link_names s)
    (last_collection_id s) (collections s) (collection_names s) (aliases s)
    (collection_hot s) (alias_targets s) (idempotency s).
Definition set_wal_live_chunks (s : MetaState) (v : gmap string N) : MetaState :=
  mkMetaState (clock_ms s) (last_namespace_id s) (last_stream_id s) (namespaces s)
    (namespace_names s) (streams s) (stream_names s) (partitions s) (wal_commits s) v
    (retired s) (leases s) (pointers s) (last_link_id s) (links s) (link_names s)
    (last_collection_id s) (collections s) (collection_names s) (aliases s)
    (collection_hot s) (alias_targets s) (idempotency s).
Definition set_retired (s : MetaState) (v : gmap string N) : MetaState :=
  mkMetaState (clock_ms s) (last_namespace_id s) (last_stream_id s) (namespaces s)
    (namespace_names s) (streams s) (stream_names s) (partitions s) (wal_commits s)
    (wal_live_chunks s) v (leases s) (pointers s) (last_link_id s) (links s)
    (link_names s) (last_collection_id s) (collections s) (collection_names s)
    (aliases s) (collection_hot s) (alias_targets s) (idempotency s).
Definition set_leases (s : MetaState) (v : gmap string Lease) : MetaState :=
  mkMetaState (clock_ms s) (last_namespace_id s) (last_stream_id s) (namespaces s)
    (namespace_names s) (streams s) (stream_names s) (partitions s) (wal_commits s)
    (wal_live_chunks s) (retired s) v (pointers s) (last_link_id s) (links s)
    (link_names s) (last_collection_id s) (collections s) (collection_names s)
    (aliases s) (collection_hot s) (alias_targets s) (idempotency s).
Definition set_pointers (s : MetaState) (v : gmap (NamespaceId * string) Pointer) : MetaState :=
  mkMetaState (clock_ms s) (last_namespace_id s) (last_stream_id s) (namespaces s)
    (namespace_names s) (streams s) (stream_names s) (partitions s) (wal_commits s)
    (wal_live_chunks s) (retired s) (leases s) v (last_link_id s) (links s)
    (link_names s) (last_collection_id s) (collections s) (collection_names s)
    (aliases s) (collection_hot s) (alias_targets s) (idempotency s).
Definition set_last_link_id (s : MetaState) (v : N) : MetaState :=
  mkMetaState (clock_ms s) (last_namespace_id s) (last_stream_id s) (namespaces s)
    (namespace_names s) (streams s) (stream_names s) (partitions s) (wal_commits s)
    (wal_live_chunks s) (retired s) (leases s) (pointers s) v (links s) (link_names s)
    (last_collection_id s) (collections s) (collection_names s) (aliases s)
    (collection_hot s) (alias_targets s) (idempotency s).
Definition set_links (s : MetaState) (v : gmap LinkId Link) : MetaState :=
  mkMetaState (clock_ms s) (last_namespace_id s) (last_stream_id s) (namespaces s)
    (namespace_names s) (streams s) (stream_names s) (partitions s) (wal_commits s)
    (wal_live_chunks s) (retired s) (leases s) (pointers s) (last_link_id s) v
    (link_names s) (last_collection_id s) (collections s) (collection_names s)
    (aliases s) (collection_hot s) (alias_targets s) (idempotency s).
Definition set_link_names (s : MetaState) (v : gmap (NamespaceId * string) LinkId) : MetaState :=
  mkMetaState (clock_ms s) (last_namespace_id s) (last_stream_id s) (namespaces s)
    (namespace_names s) (streams s) (stream_names s) (partitions s) (wal_commits s)
    (wal_live_chunks s) (retired s) (leases s) (pointers s) (last_link_id s) (links s)
    v (last_collection_id s) (collections s) (collection_names s) (aliases s)
    (collection_hot s) (alias_targets s) (idempotency s).
Definition set_last_collection_id (s : MetaState) (v : N) : MetaState :=
  mkMetaState (clock_ms s) (last_namespace_id s) (last_stream_id s) (namespaces s)
    (namespace_names s) (streams s) (stream_names s) (partitions s) (wal_commits s)
    (wal_live_chunks s) (retired s) (leases s) (pointers s) (last_link_id s) (links s)
    (link_names s) v (collections s) (collection_names s) (aliases s) (collection_hot
    s) (alias_targets s) (idempotency s).
Definition set_collections (s : MetaState) (v : gmap CollectionId Collection) : MetaState :=
  mkMetaState (clock_ms s) (last_namespace_id s) (last_stream_id s) (namespaces s)
    (namespace_names s) (streams s) (stream_names s) (partitions s) (wal_commits s)
    (wal_live_chunks s) (retired s) (leases s) (pointers s) (last_link_id s) (links s)
    (link_names s) (last_collection_id s) v (collection_names s) (aliases s)
    (collection_hot s) (alias_targets s) (idempotency s).
Definition set_collection_names (s : MetaState) (v : gmap (NamespaceId * string) CollectionId) : MetaState :=
  mkMetaState (clock_ms s) (last_namespace_id s) (last_stream_id s) (namespaces s)
    (namespace_names s) (streams s) (stream_names s) (partitions s) (wal_commits s)
    (wal_live_chunks s) (retired s) (leases s) (pointers s) (last_link_id s) (links s)
    (link_names s) (last_collection_id s) (collections s) v (aliases s)
    (collection_hot s) (alias_targets s) (idempotency s).
Definition set_aliases (s : MetaState) (v : gmap (NamespaceId * string) CollectionId) : MetaState :=
  mkMetaState (clock_ms s) (last_namespace_id s) (last_stream_id s) (namespaces s)
    (namespace_names s) (streams s) (stream_names s) (partitions s) (wal_commits s)
    (wal_live_chunks s) (retired s) (leases s) (pointers s) (last_link_id s) (links s)
    (link_names s) (last_collection_id s) (collections s) (collection_names s) v
    (collection_hot s) (alias_targets s) (idempotency s).
Definition set_collection_hot (s : MetaState) (v : gmap CollectionId HotConfig) : MetaState :=
  mkMetaState (clock_ms s) (last_namespace_id s) (last_stream_id s) (namespaces s)
    (namespace_names s) (streams s) (stream_names s) (partitions s) (wal_commits s)
    (wal_live_chunks s) (retired s) (leases s) (pointers s) (last_link_id s) (links s)
    (link_names s) (last_collection_id s) (collections s) (collection_names s)
    (aliases s) v (alias_targets s) (idempotency s).
Definition set_alias_targets (s : MetaState) (v : gmap (NamespaceId * string) AliasTargets) : MetaState :=
  mkMetaState (clock_ms s) (last_namespace_id s) (last_stream_id s) (namespaces s)
    (namespace_names s) (streams s) (stream_names s) (partitions s) (wal_commits s)
    (wal_live_chunks s) (retired s) (leases s) (pointers s) (last_link_id s) (links s)
    (link_names s) (last_collection_id s) (collections s) (collection_names s)
    (aliases s) (collection_hot s) v (idempotency s).
Definition set_idempotency (s : MetaState) (v : gmap (StreamId * IdempotencyKey) IdempotencyEntry) : MetaState :=
  mkMetaState (clock_ms s) (last_namespace_id s) (last_stream_id s) (namespaces s)
    (namespace_names s) (streams s) (stream_names s) (partitions s) (wal_commits s)
    (wal_live_chunks s) (retired s) (leases s) (pointers s) (last_link_id s) (links s)
    (link_names s) (last_collection_id s) (collections s) (collection_names s)
    (aliases s) (collection_hot s) (alias_targets s) v.

(** What a [&mut self] handler leaves: the state and its result. *)
Definition Outcome : Type := MetaState * Result Reply ApplyError.

(** ** Checks on names and keys *)

(** [b.is_ascii_alphanumeric() || matches!(b, b'-' | b'_' | b'.')] *)
Definition name_byte (c : ascii) : bool :=
  let b := N_of_ascii c in
  ((48 <=? b) && (b <=? 57)) || ((65 <=? b) && (b <=? 90)) || ((97 <=? b) && (b <=? 122))
  || (b =? 45) || (b =? 95) || (b =? 46).

(** [fn validate_name] *)
Definition validate_name (kind name : string) : Result () ApplyError :=
  let ok := negb (bool_decide (name = ""%string))
            && (str_len name <=? MAX_NAME_LEN)
            && negb (bool_decide (name = "."%string))
            && negb (bool_decide (name = ".."%string))
            && forallb name_byte (String.list_ascii_of_string name) in
  if ok then Ok () else Err (InvalidArgument (MName kind name)).

(** [fn refuse_reserved] *)
Definition refuse_reserved (name : string) : Result () ApplyError :=
  REFUSE starts_with_char "_"%char name WITH InvalidArgument MReserved ;;
  Ok ().

(** [fn validate_key] *)
Definition validate_key (kind key : string) : Result () ApplyError :=
  REFUSE bool_decide (key = ""%string) || (MAX_KEY_LEN <? str_len key)
    WITH InvalidArgument (MKeyLen kind (str_len key)) ;;
  Ok ().

(** [fn check_partitions] (state/catalog.rs) *)
Definition check_partitions (partitions : N) : Result () ApplyError :=
  REFUSE negb ((1 <=? partitions) && (partitions <=? MAX_PARTITIONS))
    WITH InvalidArgument (MPartitions partitions) ;;
  Ok ().

(** ** Fences (state/leases.rs) *)

(** [MetaState::check_fence] *)
Definition check_fence (s : MetaState) (f : Fence) : Result () ApplyError :=
  match s.(leases) !! f.(fence_lease) with
  | Some lease =>
      if (lease.(epoch) =? f.(fence_epoch)) && bool_decide (is_Some lease.(owner))
      then Ok () else Err (Fenced f.(fence_lease))
  | None => Err (Fenced f.(fence_lease))
  end.

(** [if let Some(fence) = &fence { self.check_fence(fence)?; }] *)
Definition check_fence_opt (s : MetaState) (f : option Fence) : Result () ApplyError :=
  match f with Some f => check_fence s f | None => Ok () end.
