(* ===== verification/MetaLeases.v ===== *)
(** * Leases, the stream ingest ledger and pointers
    (loams-meta/src/state/leases.rs, idempotency.rs, pointers.rs)

    Leases with epochs: acquire, renew, re-acquire and release.  A lease's epoch is what
    fences other commands ([check_fence], MetaState.v).  Then the idempotency keys of a stream
    (claim, complete, release and prune) and versioned pointers. *)

From Stdlib Require Import NArith Lia Ascii.
From stdpp Require Import prelude gmap strings numbers list sorting.
From S2P Require Import Prelude.
From S2P Require Import BTree.
From S2P Require Import Ids.
From S2P Require Import Schema.
From S2P Require Import MetaTypes.
From S2P Require Import MetaState.

Open Scope N_scope.

(** [fn validate_lease_args] *)
Definition validate_lease_args (key owner : string) (ttl_ms : N) : Result () ApplyError :=
  LET _k <- validate_key "lease key" key ;;
  LET _o <- validate_key "lease owner" owner ;;
  REFUSE negb ((1 <=? ttl_ms) && (ttl_ms <=? MAX_LEASE_TTL_MS))
    WITH InvalidArgument (MLeaseTtl ttl_ms) ;;
  Ok ().

(** [MetaState::acquire_lease] *)
Definition acquire_lease (s : MetaState) (key who : string) (ttl_ms now_ms : N) : Outcome :=
  TRY _args <- validate_lease_args key who ttl_ms IN s ;;
  let now := N.max s.(clock_ms) now_ms in
  let deadline := u64_saturating_add now ttl_ms in
  let take e :=
    let lease := {| epoch := e; owner := Some who; deadline_ms := deadline |} in
    let s := set_clock_ms s now in
    let s := set_leases s (<[key := lease]> s.(leases)) in
    (s, Ok (LeaseReply {| grant_epoch := e; grant_deadline_ms := deadline |})) in
  match s.(leases) !! key with
  | None => take 1
  | Some current =>
      if is_held_at current now then
        if negb (bool_decide (current.(owner) = Some who)) then
          (s, Err (LeaseHeld (default ""%string current.(owner)) current.(deadline_ms)))
        else take current.(epoch)
      else take (u64_add current.(epoch) 1)
  end.

(** The extension [renew_lease] and [reacquire_lease] share: the deadline moves, the epoch
    and the owner stay. *)
Definition extend_lease (s : MetaState) (key : string) (lease : Lease) (now ttl_ms : N)
  : Outcome :=
  let deadline := u64_saturating_add now ttl_ms in
  let lease' := {| epoch := lease.(epoch); owner := lease.(owner); deadline_ms := deadline |} in
  let s := set_leases s (<[key := lease']> s.(leases)) in
  let s := set_clock_ms s now in
  (s, Ok (LeaseReply {| grant_epoch := lease.(epoch); grant_deadline_ms := deadline |})).

(** [MetaState::renew_lease] *)
Definition renew_lease (s : MetaState) (key who : string) (at_epoch ttl_ms now_ms : N) : Outcome :=
  TRY _args <- validate_lease_args key who ttl_ms IN s ;;
  let now := N.max s.(clock_ms) now_ms in
  match s.(leases) !! key with
  | None => (s, Err (LeaseLost key))
  | Some lease =>
      BAIL negb (lease.(epoch) =? at_epoch)
           || negb (bool_decide (lease.(owner) = Some who))
           || negb (is_held_at lease now)
        WITH LeaseLost key IN s ;;
      extend_lease s key lease now ttl_ms
  end.

(** [MetaState::reacquire_lease] *)
Definition reacquire_lease (s : MetaState) (key who : string) (at_epoch ttl_ms now_ms : N)
  : Outcome :=
  TRY _args <- validate_lease_args key who ttl_ms IN s ;;
  let now := N.max s.(clock_ms) now_ms in
  match s.(leases) !! key with
  | None => (s, Err (LeaseLost key))
  | Some lease =>
      BAIL negb (lease.(epoch) =? at_epoch) || negb (bool_decide (lease.(owner) = Some who))
        WITH LeaseLost key IN s ;;
      extend_lease s key lease now ttl_ms
  end.

(** [MetaState::release_lease] *)
Definition release_lease (s : MetaState) (key who : string) (at_epoch : N) : Outcome :=
  match s.(leases) !! key with
  | None => (s, Err (LeaseLost key))
  | Some lease =>
      BAIL negb (lease.(epoch) =? at_epoch) WITH LeaseLost key IN s ;;
      match lease.(owner) with
      | None => (s, Ok LeaseReleased)
      | Some current =>
          if bool_decide (current = who) then
            let lease' := {| epoch := lease.(epoch); owner := None;
                             deadline_ms := lease.(deadline_ms) |} in
            (set_leases s (<[key := lease']> s.(leases)), Ok LeaseReleased)
          else (s, Err (LeaseLost key))
      end
  end.

(** [MetaState::lease] *)
Definition lease (s : MetaState) (key : string) : option Lease := s.(leases) !! key.

Fixpoint take_while {A} (p : A → bool) (l : list A) : list A :=
  match l with
  | [] => []
  | x :: l => if p x then x :: take_while p l else []
  end.

(** [MetaState::leases_with_prefix] (state/hot.rs): the range from the prefix, while keys
    start with it. *)
Definition leases_with_prefix (s : MetaState) (prefix : string) : list (string * Lease) :=
  take_while (λ e, starts_with prefix e.1) (btree_range_from s.(leases) prefix).

(** [fn validate_idempotency_args] *)
Definition validate_idempotency_args (owner : string) (keys : N) (ttl_ms : option N)
  : Result () ApplyError :=
  LET _o <- validate_key "idempotency owner" owner ;;
  REFUSE (keys =? 0) || (MAX_IDEMPOTENCY_KEYS <? keys)
    WITH InvalidArgument (MIdempotencyKeys keys) ;;
  match ttl_ms with
  | Some ttl_ms =>
      REFUSE (ttl_ms =? 0) || (MAX_IDEMPOTENCY_TTL_MS <? ttl_ms)
        WITH InvalidArgument (MIdempotencyTtl ttl_ms) ;;
      Ok ()
  | None => Ok ()
  end.

Fixpoint refuse_repeats_loop (keys : list IdempotencyKey) (seen : gset string)
  : Result () ApplyError :=
  match keys with
  | [] => Ok ()
  | key :: keys =>
      REFUSE bool_decide (key ∈ seen) WITH InvalidArgument MIdempotencyRepeat ;;
      refuse_repeats_loop keys ({[key]} ∪ seen)
  end.

(** [fn refuse_repeats] *)
Definition refuse_repeats (keys : list IdempotencyKey) : Result () ApplyError :=
  refuse_repeats_loop keys ∅.

(** What a claim by [who] at [now] finds for a ledger entry. *)
Definition claim_state (e : option IdempotencyEntry) (who : string) (now : N)
  : IdempotencyState :=
  match e with
  | Some (Done partition offset until_ms) =>
      if now <? until_ms then StateDone partition offset else Claimed
  | Some (Pending holder until_ms) =>
      if (now <? until_ms) && negb (bool_decide (holder = who)) then InFlight until_ms else Claimed
  | None => Claimed
  end.

(** The claim's [map] over the keys. *)
Fixpoint claim_loop (s : MetaState) (stream : StreamId) (who : string) (now until_ms : N)
    (keys : list IdempotencyKey) : MetaState * list IdempotencyState :=
  match keys with
  | [] => (s, [])
  | key :: keys =>
      let slot := (stream, key) in
      let state := claim_state (s.(idempotency) !! slot) who now in
      let s := if bool_decide (state = Claimed)
               then set_idempotency s (<[slot := Pending who until_ms]> s.(idempotency))
               else s in
      let '(s, states) := claim_loop s stream who now until_ms keys in
      (s, state :: states)
  end.

(** [MetaState::claim_idempotency_keys] *)
Definition claim_idempotency_keys (s : MetaState) (stream : StreamId) (who : string)
    (keys : list IdempotencyKey) (ttl_ms now_ms : N) : Outcome :=
  TRY _args <- validate_idempotency_args who (len keys) (Some ttl_ms) IN s ;;
  TRY _distinct <- refuse_repeats keys IN s ;;
  BAIL negb (contains_key stream s.(streams)) WITH StreamNotFound stream IN s ;;
  let now := N.max s.(clock_ms) now_ms in
  let s := set_clock_ms s now in
  let until_ms := u64_saturating_add now ttl_ms in
  let '(s, states) := claim_loop s stream who now until_ms keys in
  (s, Ok (IdempotencyClaimed states)).

(** [matches!(entry, Pending { owner: holder, .. } if holder == owner)] *)
Definition pending_under (e : option IdempotencyEntry) (who : string) : bool :=
  match e with
  | Some (Pending holder _) => bool_decide (holder = who)
  | _ => false
  end.

Fixpoint complete_loop (s : MetaState) (stream : StreamId) (who : string) (until_ms : N)
    (done : list (IdempotencyKey * N * N)) : MetaState :=
  match done with
  | [] => s
  | (key, partition, offset) :: done =>
      let slot := (stream, key) in
      let s := if pending_under (s.(idempotency) !! slot) who
               then set_idempotency s (<[slot := Done partition offset until_ms]> s.(idempotency))
               else s in
      complete_loop s stream who until_ms done
  end.

(** [MetaState::complete_idempotency_keys] *)
Definition complete_idempotency_keys (s : MetaState) (stream : StreamId) (who : string)
    (done : list (IdempotencyKey * N * N)) (window_ms now_ms : N) : Outcome :=
  TRY _args <- validate_idempotency_args who (len done) (Some window_ms) IN s ;;
  TRY _distinct <- refuse_repeats done.*1.*1 IN s ;;
  let now := N.max s.(clock_ms) now_ms in
  let s := set_clock_ms s now in
  let s := complete_loop s stream who (u64_saturating_add now window_ms) done in
  (s, Ok IdempotencyKeysUpdated).

Fixpoint release_loop (s : MetaState) (stream : StreamId) (who : string)
    (keys : list IdempotencyKey) : MetaState :=
  match keys with
  | [] => s
  | key :: keys =>
      let slot := (stream, key) in
      let s := if pending_under (s.(idempotency) !! slot) who
               then set_idempotency s (delete slot s.(idempotency)) else s in
      release_loop s stream who keys
  end.

(** [MetaState::release_idempotency_keys] *)
Definition release_idempotency_keys (s : MetaState) (stream : StreamId) (who : string)
    (keys : list IdempotencyKey) : Outcome :=
  TRY _args <- validate_idempotency_args who (len keys) None IN s ;;
  (release_loop s stream who keys, Ok IdempotencyKeysUpdated).

(** [MetaState::prune_idempotency_keys] *)
Definition prune_idempotency_keys (s : MetaState) (fence : option Fence) (now_ms : N) : Outcome :=
  TRY _fence <- check_fence_opt s fence IN s ;;
  let s := set_clock_ms s (N.max s.(clock_ms) now_ms) in
  let clock := s.(clock_ms) in
  let before := size s.(idempotency) in
  let kept := filter (λ e, is_live_at e.2 clock = true) s.(idempotency) in
  (set_idempotency s kept,
   Ok (Pruned (default u32_MAX (u32_try_from (N.of_nat (before - size kept)))))).

(** [MetaState::idempotency_entry] *)
Definition idempotency_entry (s : MetaState) (stream : StreamId) (key : IdempotencyKey)
  : option IdempotencyEntry := s.(idempotency) !! (stream, key).

(** [MetaState::drop_stream_idempotency] *)
Definition drop_stream_idempotency (s : MetaState) (stream : StreamId) : MetaState :=
  set_idempotency s (filter (λ e, e.1.1 ≠ stream) s.(idempotency)).

(** [MetaState::check_collection_pointer] *)
Definition check_collection_pointer (s : MetaState) (ns : NamespaceId) (key : string)
  : Result () ApplyError :=
  match strip_prefix COLLECTION_POINTER_PREFIX key with
  | None => Ok ()
  | Some id =>
      match parse_canonical id with
      | Err _ => Err (InvalidArgument (MPointerKey key))
      | Ok id =>
          match s.(collections) !! id with
          | Some c => if c.(collection_namespace) =? ns then Ok () else Err (CollectionNotFound id)
          | None => Err (CollectionNotFound id)
          end
      end
  end.

(** [MetaState::cas_pointer] *)
Definition cas_pointer (s : MetaState) (ns : NamespaceId) (key : string) (expected : option N)
    (value : string) (fence : option Fence) (fresh : option Freshness) : Outcome :=
  TRY _key <- validate_key "pointer key" key IN s ;;
  TRY _value <- validate_key "pointer value" value IN s ;;
  TRY _live <- check_collection_pointer s ns key IN s ;;
  BAIL negb (contains_key ns s.(namespaces)) WITH NamespaceNotFound ns IN s ;;
  TRY _fence <- check_fence_opt s fence IN s ;;
  let current := s.(pointers) !! (ns, key) in
  let version := match expected, current with
                 | None, None => Some 1
                 | Some expected, Some pointer =>
                     if pointer.(pointer_version) =? expected
                     then Some (u64_add expected 1) else None
                 | _, _ => None
                 end in
  TRY version <- ok_or version (VersionMismatch current) IN s ;;
  TRY _fresh <- (match fresh with
                 | Some fresh =>
                     if expired_at fresh s.(clock_ms)
                     then Err (StaleObject value fresh.(created_at_ms) fresh.(fresh_max_age_ms)
                                 s.(clock_ms))
                     else Ok ()
                 | None => Ok ()
                 end) IN s ;;
  (set_pointers s (<[(ns, key) := {| pointer_version := version; pointer_value := value |}]>
                     s.(pointers)),
   Ok (PointerSet version)).

(** [MetaState::pointer] *)
Definition pointer (s : MetaState) (ns : NamespaceId) (key : string) : option Pointer :=
  s.(pointers) !! (ns, key).
