(* ===== verification/MetaLog.v ===== *)
(** * The stream log's metadata (loams-meta/src/state/sequencer.rs, segments.rs, retention.rs)

    Committing WAL objects (offset assignment), swapping WAL entries for segments,
    trimming, and the lifecycle of the objects the index entries point into. *)

From Stdlib Require Import NArith Lia Ascii.
From stdpp Require Import prelude gmap strings numbers list.
From S2P Require Import Prelude.
From S2P Require Import BTree.
From S2P Require Import Ids.
From S2P Require Import Schema.
From S2P Require Import MetaTypes.
From S2P Require Import MetaState.

Open Scope N_scope.

(** ** Objects *)

(** [MetaState::release_entry] *)
Definition release_entry (s : MetaState) (e : IndexEntry) : MetaState :=
  match e.(entry_kind) with
  | Wal =>
      match s.(wal_live_chunks) !! e.(object) with
      | Some live =>
          let live' := u64_saturating_sub live 1 in
          let s := set_wal_live_chunks s (<[e.(object) := live']> s.(wal_live_chunks)) in
          if live' =? 0 then
            let s := set_wal_live_chunks s (delete e.(object) s.(wal_live_chunks)) in
            set_retired s (<[e.(object) := s.(clock_ms)]> s.(retired))
          else s
      | None =>
          let s := set_wal_live_chunks s (delete e.(object) s.(wal_live_chunks)) in
          set_retired s (<[e.(object) := s.(clock_ms)]> s.(retired))
      end
  | Segment => set_retired s (<[e.(object) := s.(clock_ms)]> s.(retired))
  end.

(** [for entry in removed { self.release_entry(entry); }] *)
Definition release_entries (s : MetaState) (removed : list IndexEntry) : MetaState :=
  foldl release_entry s removed.

(** ** Partitions *)

(** [MetaState::partition_state] *)
Definition partition_state (s : MetaState) (stream : StreamId) (partition : N)
  : Result PartitionState ApplyError :=
  if negb (contains_key stream s.(streams)) then Err (StreamNotFound stream)
  else ok_or (s.(partitions) !! (stream, partition)) (PartitionNotFound stream partition).

(** [MetaState::partition_state_mut]: the partition, without the stream check. *)
Definition partition_state_mut (s : MetaState) (stream : StreamId) (partition : N)
  : Result PartitionState ApplyError :=
  ok_or (s.(partitions) !! (stream, partition)) (PartitionNotFound stream partition).

(** Writing back a partition borrowed by [partition_state_mut] or [get_mut]. *)
Definition set_partition (s : MetaState) (stream : StreamId) (partition : N)
    (ps : PartitionState) : MetaState :=
  set_partitions s (<[(stream, partition) := ps]> s.(partitions)).

(** ** The sequencer *)

(** [MetaState::validate_chunk] *)
Definition validate_chunk (s : MetaState) (c : WalChunk) : Result () ApplyError :=
  REFUSE negb (contains_key c.(chunk_stream) s.(streams)) WITH StreamNotFound c.(chunk_stream) ;;
  REFUSE negb (contains_key (c.(chunk_stream), c.(chunk_partition)) s.(partitions))
    WITH PartitionNotFound c.(chunk_stream) c.(chunk_partition) ;;
  REFUSE c.(chunk_records) =? 0 WITH InvalidArgument MChunkRecords ;;
  REFUSE c.(chunk_byte_range).(range_end) <=? c.(chunk_byte_range).(range_start)
    WITH InvalidArgument (MChunkRange c.(chunk_byte_range)) ;;
  Ok ().

(** [for chunk in &chunks { self.validate_chunk(chunk)?; }] *)
Fixpoint validate_chunks (s : MetaState) (chunks : list WalChunk) : Result () ApplyError :=
  match chunks with
  | [] => Ok ()
  | c :: chunks => LET _c <- validate_chunk s c ;; validate_chunks s chunks
  end.

(** The partition after one chunk was appended: the sequencer hands out [next_offset] and
    the index gets a WAL entry. *)
Definition append_chunk (ps : PartitionState) (obj : string) (c : WalChunk) : PartitionState :=
  let base := ps.(next_offset) in
  let ps := {| next_offset := u64_add base c.(chunk_records);
               log_start_offset := ps.(log_start_offset);
               index := ps.(index);
               bytes := ps.(bytes) |} in
  insert_entry ps {| entry_kind := Wal;
                     base_offset := base;
                     records := c.(chunk_records);
                     object := obj;
                     byte_range := c.(chunk_byte_range);
                     max_timestamp_ms := c.(chunk_max_timestamp_ms) |}.

(** The second loop of [commit_wal]: each chunk is appended to its partition. *)
Fixpoint append_chunks (s : MetaState) (obj : string) (chunks : list WalChunk)
    (base_offsets : list N) : MetaState * Result (list N) ApplyError :=
  match chunks with
  | [] => (s, Ok base_offsets)
  | c :: chunks =>
      match s.(partitions) !! (c.(chunk_stream), c.(chunk_partition)) with
      | None => (s, Err (PartitionNotFound c.(chunk_stream) c.(chunk_partition)))
      | Some ps =>
          let base := ps.(next_offset) in
          let s := set_partition s c.(chunk_stream) c.(chunk_partition) (append_chunk ps obj c) in
          append_chunks s obj chunks (base_offsets ++ [base])
      end
  end.

(** [MetaState::commit_wal] *)
Definition commit_wal (s : MetaState) (obj : string) (created : N) (chunks : list WalChunk)
  : Outcome :=
  TRY _key <- validate_key "WAL object path" obj IN s ;;
  match s.(wal_commits) !! obj with
  | Some record => (s, Ok (WalCommitted record.(wal_base_offsets)))
  | None =>
      BAIL u64_saturating_add created WAL_COMMIT_WINDOW_MS <? s.(clock_ms)
        WITH StaleCommit obj IN s ;;
      BAIL bool_decide (chunks = []) WITH InvalidArgument MNoChunks IN s ;;
      TRY live_chunks <- ok_or (u32_try_from (len chunks))
                               (InvalidArgument (MTooManyChunks (len chunks))) IN s ;;
      TRY _valid <- validate_chunks s chunks IN s ;;
      match append_chunks s obj chunks [] with
      | (s, Err e) => (s, Err e)
      | (s, Ok base_offsets) =>
          let s := set_wal_live_chunks s (<[obj := live_chunks]> s.(wal_live_chunks)) in
          let s := set_wal_commits s
            (<[obj := {| wal_base_offsets := base_offsets; wal_created_at_ms := created |}]>
               s.(wal_commits)) in
          (s, Ok (WalCommitted base_offsets))
      end
  end.

(** ** Segments *)

(** The check loop of [swap_segment]: every replaced entry is the named WAL entry, and they
    are contiguous; the result is their record count. *)
Fixpoint check_replaces (ps : PartitionState) (mismatch : ApplyError)
    (replaces : list (N * string)) (expected_base recs : N) : Result N ApplyError :=
  match replaces with
  | [] => Ok recs
  | (base, obj) :: replaces =>
      match ps.(index) !! base with
      | None => Err mismatch
      | Some entry =>
          REFUSE negb (base =? expected_base)
                 || negb (bool_decide (entry.(entry_kind) = Wal))
                 || negb (bool_decide (entry.(object) = obj))
            WITH mismatch ;;
          match u32_checked_add recs entry.(records) with
          | None => Err (InvalidArgument MSegmentRecords)
          | Some recs => check_replaces ps mismatch replaces (end_offset entry) recs
          end
      end
  end.

(** [for (base, _) in &replaces { if let Some(entry) = state.remove_entry(base) { .. } }] *)
Fixpoint remove_entries (ps : PartitionState) (bases : list N) (removed : list IndexEntry)
  : PartitionState * list IndexEntry :=
  match bases with
  | [] => (ps, removed)
  | base :: bases =>
      match remove_entry ps base with
      | (ps, Some e) => remove_entries ps bases (removed ++ [e])
      | (ps, None) => remove_entries ps bases removed
      end
  end.

(** [MetaState::swap_segment] *)
Definition swap_segment (s : MetaState) (stream : StreamId) (partition : N)
    (replaces : list (N * string)) (segment : string) (range : Range) (max_ts : Z)
    (fence : option Fence) (now_ms : N) (fresh : Freshness) : Outcome :=
  TRY _key <- validate_key "segment path" segment IN s ;;
  TRY state <- partition_state s stream partition IN s ;;
  match replaces with
  | [] => (s, Err (InvalidArgument MSwapNothing))
  | (first_base, _) :: _ =>
      let retry := match state.(index) !! first_base with
                   | Some entry => bool_decide (entry.(entry_kind) = Segment)
                                   && bool_decide (entry.(object) = segment)
                   | None => false
                   end in
      if retry then (s, Ok SegmentSwapped)
      else
        TRY _fence <- check_fence_opt s fence IN s ;;
        BAIL range.(range_end) <=? range.(range_start)
          WITH InvalidArgument (MSegmentRange range) IN s ;;
        let clock := N.max s.(clock_ms) now_ms in
        BAIL expired_at fresh clock
          WITH StaleObject segment fresh.(created_at_ms) fresh.(fresh_max_age_ms) clock IN s ;;
        TRY recs <- check_replaces state (IndexMismatch stream partition) replaces first_base 0
          IN s ;;
        let s := set_clock_ms s (N.max s.(clock_ms) now_ms) in
        TRY state <- partition_state_mut s stream partition IN s ;;
        let '(state, removed) := remove_entries state replaces.*1 [] in
        let state := insert_entry state {| entry_kind := Segment;
                                           base_offset := first_base;
                                           records := recs;
                                           object := segment;
                                           byte_range := range;
                                           max_timestamp_ms := max_ts |} in
        let s := set_partition s stream partition state in
        (release_entries s removed, Ok SegmentSwapped)
  end.

(** [while let Some(entry) = state.pop_first_before(before) { removed.push(entry); }]; the
    index has [fuel] entries at most, and each turn removes one. *)
Fixpoint pop_entries (fuel : nat) (ps : PartitionState) (before : N) (removed : list IndexEntry)
  : PartitionState * list IndexEntry :=
  match fuel with
  | O => (ps, removed)
  | S fuel =>
      match pop_first_before ps before with
      | (ps, Some e) => pop_entries fuel ps before (removed ++ [e])
      | (ps, None) => (ps, removed)
      end
  end.

(** [MetaState::trim_partition] *)
Definition trim_partition (s : MetaState) (stream : StreamId) (partition before_offset : N)
    (fence : option Fence) (now_ms : N) : Outcome :=
  TRY _state <- partition_state s stream partition IN s ;;
  TRY _fence <- check_fence_opt s fence IN s ;;
  let s := set_clock_ms s (N.max s.(clock_ms) now_ms) in
  TRY state <- partition_state_mut s stream partition IN s ;;
  let before := N.min before_offset state.(next_offset) in
  let '(state, removed) := pop_entries (S (size state.(index))) state before [] in
  let state := {| next_offset := state.(next_offset);
                  log_start_offset := N.max state.(log_start_offset) before;
                  index := state.(index);
                  bytes := state.(bytes) |} in
  let s := set_partition s stream partition state in
  (release_entries s removed, Ok (Trimmed state.(log_start_offset))).

(** ** Retention and bookkeeping *)

(** [MetaState::set_retention] *)
Definition set_retention (s : MetaState) (stream : StreamId) (retention : Retention) : Outcome :=
  match s.(streams) !! stream with
  | None => (s, Err (StreamNotFound stream))
  | Some st =>
      BAIL starts_with_char "_"%char st.(stream_name)
        WITH InvalidArgument (MRetentionImplicit st.(stream_id)) IN s ;;
      let st' := {| stream_id := st.(stream_id);
                    stream_namespace := st.(stream_namespace);
                    stream_name := st.(stream_name);
                    stream_partitions := st.(stream_partitions);
                    stream_class := st.(stream_class);
                    stream_retention := retention |} in
      (set_streams s (<[stream := st']> s.(streams)), Ok RetentionSet)
  end.

(** [u32::try_from(removed).unwrap_or(u32::MAX)] *)
Definition count_u32 (n : nat) : N := default u32_MAX (u32_try_from (N.of_nat n)).

(** [MetaState::prune_wal_commits] *)
Definition prune_wal_commits (s : MetaState) (fence : option Fence) (now_ms : N) : Outcome :=
  TRY _fence <- check_fence_opt s fence IN s ;;
  let s := set_clock_ms s (N.max s.(clock_ms) now_ms) in
  let clock := s.(clock_ms) in
  let before := size s.(wal_commits) in
  let kept := filter
    (λ e, (clock <=? u64_saturating_add e.2.(wal_created_at_ms) (2 * WAL_COMMIT_WINDOW_MS))
            = true)
    s.(wal_commits) in
  (set_wal_commits s kept, Ok (Pruned (count_u32 (before - size kept)))).

(** The loop of [forget_objects]. *)
Fixpoint forget_loop (retired : gmap string N) (objects : list string) (removed : N)
  : gmap string N * N :=
  match objects with
  | [] => (retired, removed)
  | o :: objects =>
      match retired !! o with
      | Some _ => forget_loop (delete o retired) objects (u32_saturating_add removed 1)
      | None => forget_loop retired objects removed
      end
  end.

(** [MetaState::forget_objects] *)
Definition forget_objects (s : MetaState) (objects : list string) (fence : option Fence)
  : Outcome :=
  TRY _fence <- check_fence_opt s fence IN s ;;
  let '(kept, removed) := forget_loop s.(retired) objects 0 in
  (set_retired s kept, Ok (Forgotten removed)).

(** ** Reads *)

(** [MetaState::wal_commit] *)
Definition wal_commit (s : MetaState) (obj : string) : option WalCommitRecord :=
  s.(wal_commits) !! obj.

(** [MetaState::wal_live_chunks] *)
Definition wal_live_chunks_of (s : MetaState) (obj : string) : option N :=
  s.(wal_live_chunks) !! obj.

(** [MetaState::retired]: in path order. *)
Definition retired_list (s : MetaState) : list (string * N) := btree_iter s.(retired).

(** [MetaState::is_retired] *)
Definition is_retired (s : MetaState) (path : string) : bool := contains_key path s.(retired).

(** [MetaState::partition] (state/catalog.rs) *)
Definition partition_of (s : MetaState) (stream : StreamId) (partition : N)
  : option PartitionState := s.(partitions) !! (stream, partition).
