(* ===== verification/MetaCatalog.v ===== *)
(** * Namespaces, streams and links; reads of the metastore
    (loams-meta/src/state/catalog.rs, links.rs; loams-meta/src/store.rs, loams-common/src/meta/views.rs)

    The catalog commands, and the read half of [impl MetaStore for MetaClient] that the log plane
    uses: each read is a function of the state it sees.  [entries_page] is the run of index entries
    a fetch plans with, [orphan_segments] and the others are the questions garbage collection asks. *)

From Stdlib Require Import NArith Lia Ascii.
From stdpp Require Import prelude gmap strings numbers list.
From S2P Require Import Prelude.
From S2P Require Import BTree.
From S2P Require Import Ids.
From S2P Require Import Schema.
From S2P Require Import MetaTypes.
From S2P Require Import MetaState.
From S2P Require Import MetaLeases.
From S2P Require Import MetaLog.

Open Scope N_scope.

(** ** Namespaces *)

(** [MetaState::create_namespace] *)
Definition create_namespace (s : MetaState) (name : string) : Outcome :=
  TRY _name <- validate_name "namespace" name IN s ;;
  match s.(namespace_names) !! name with
  | Some id => (s, Err (NamespaceExists id))
  | None =>
      let s := set_last_namespace_id s (u64_add s.(last_namespace_id) 1) in
      let id := s.(last_namespace_id) in
      let s := set_namespace_names s (<[name := id]> s.(namespace_names)) in
      let s := set_namespaces s
        (<[id := {| namespace_id := id; namespace_name := name |}]> s.(namespaces)) in
      (s, Ok (NamespaceCreated id))
  end.

(** ** Streams *)

(** [for partition in 0..partitions { self.partitions.insert((id, partition), default) }] *)
Fixpoint insert_partitions (m : gmap (StreamId * N) PartitionState) (id : StreamId) (n : nat)
  : gmap (StreamId * N) PartitionState :=
  match n with
  | O => m
  | S n => <[(id, N.of_nat n) := PartitionState_default]> (insert_partitions m id n)
  end.

(** [MetaState::insert_stream] *)
Definition insert_stream (s : MetaState) (namespace : NamespaceId) (name : string) (partitions : N)
    (class : WalClass) (retention : Retention) : MetaState * StreamId :=
  let s := set_last_stream_id s (u64_add s.(last_stream_id) 1) in
  let id := s.(last_stream_id) in
  let s := set_partitions s (insert_partitions s.(MetaState.partitions) id (N.to_nat partitions)) in
  let s := set_stream_names s (<[(namespace, name) := id]> s.(stream_names)) in
  let s := set_streams s
    (<[id := {| stream_id := id;
                stream_namespace := namespace;
                stream_name := name;
                stream_partitions := partitions;
                stream_class := class;
                stream_retention := retention |}]> s.(streams)) in
  (s, id).

(** [MetaState::create_stream] *)
Definition create_stream (s : MetaState) (namespace : NamespaceId) (name : string) (partitions : N)
    (class : WalClass) (retention : Retention) : Outcome :=
  TRY _name <- validate_name "stream" name IN s ;;
  TRY _reserved <- refuse_reserved name IN s ;;
  TRY _partitions <- check_partitions partitions IN s ;;
  BAIL negb (contains_key namespace s.(namespaces)) WITH NamespaceNotFound namespace IN s ;;
  match s.(stream_names) !! (namespace, name) with
  | Some id => (s, Err (StreamExists id))
  | None =>
      let '(s, id) := insert_stream s namespace name partitions class retention in
      (s, Ok (StreamCreated id))
  end.

(** The partition loop of [remove_stream], for partitions [p .. p + n). *)
Fixpoint remove_partitions (s : MetaState) (id : StreamId) (p : N) (n : nat) : MetaState :=
  match n with
  | O => s
  | S n =>
      match s.(partitions) !! (id, p) with
      | None => remove_partitions s id (p + 1) n
      | Some state =>
          let s := set_partitions s (delete (id, p) s.(partitions)) in
          remove_partitions (release_entries s (btree_values state.(index))) id (p + 1) n
      end
  end.

(** [MetaState::remove_stream] *)
Definition remove_stream (s : MetaState) (id : StreamId) : MetaState :=
  match s.(streams) !! id with
  | None => s
  | Some stream =>
      let s := set_streams s (delete id s.(streams)) in
      let s := set_stream_names s
        (delete (stream.(stream_namespace), stream.(stream_name)) s.(stream_names)) in
      let s := drop_stream_idempotency s id in
      remove_partitions s id 0 (N.to_nat stream.(stream_partitions))
  end.

(** ** Links *)

(** [MetaState::insert_link] *)
Definition insert_link (s : MetaState) (namespace : NamespaceId) (name : string)
    (source : StreamId) (target : TargetRef) (options : gmap string string)
  : MetaState * LinkId :=
  let s := set_last_link_id s (u64_add s.(last_link_id) 1) in
  let id := s.(last_link_id) in
  let s := set_link_names s (<[(namespace, name) := id]> s.(link_names)) in
  let s := set_links s
    (<[id := {| link_id := id;
                link_namespace := namespace;
                link_name := name;
                link_source := source;
                link_target := target;
                link_options := options |}]> s.(links)) in
  (s, id).

(** The options check of [create_link]. *)
Definition link_options_bad (options : gmap string string) : bool :=
  (MAX_LINK_OPTIONS <? N.of_nat (size options))
  || existsb (λ e, bool_decide (e.1 = ""%string) || (MAX_KEY_LEN <? str_len e.1)
                   || (MAX_KEY_LEN <? str_len e.2)) (btree_iter options).

(** The source check of [create_link]. *)
Definition check_link_source (s : MetaState) (namespace : NamespaceId) (source : StreamId)
  : Result () ApplyError :=
  match s.(streams) !! source with
  | None => Err (StreamNotFound source)
  | Some stream =>
      REFUSE negb (stream.(stream_namespace) =? namespace)
        WITH InvalidArgument (MLinkNamespace source namespace) ;;
      REFUSE starts_with_char "_"%char stream.(stream_name)
        WITH InvalidArgument (MLinkImplicit source) ;;
      Ok ()
  end.

(** [MetaState::create_link] *)
Definition create_link (s : MetaState) (namespace : NamespaceId) (name : string)
    (source : StreamId) (target : TargetRef) (options : gmap string string) : Outcome :=
  TRY _name <- validate_name "link" name IN s ;;
  TRY _reserved <- refuse_reserved name IN s ;;
  BAIL negb (contains_key namespace s.(namespaces)) WITH NamespaceNotFound namespace IN s ;;
  match s.(link_names) !! (namespace, name) with
  | Some id => (s, Err (LinkExists id))
  | None =>
      TRY _source <- check_link_source s namespace source IN s ;;
      TRY _kind <- validate_name "link target kind" target.(target_kind) IN s ;;
      TRY _tname <- validate_name "link target name" target.(target_name) IN s ;;
      BAIL bool_decide (target.(target_kind) = COLLECTION_KIND)
        WITH InvalidArgument MLinkCollection IN s ;;
      BAIL link_options_bad options WITH InvalidArgument MLinkOptions IN s ;;
      let '(s, id) := insert_link s namespace name source target options in
      (s, Ok (LinkCreated id))
  end.

(** [MetaState::remove_link] *)
Definition remove_link (s : MetaState) (id : LinkId) : MetaState :=
  match s.(links) !! id with
  | Some link =>
      let s := set_links s (delete id s.(links)) in
      set_link_names s (delete (link.(link_namespace), link.(link_name)) s.(link_names))
  | None => s
  end.

(** ** Reads *)

(** [MetaState::namespace] and [namespace_by_name] *)
Definition namespace (s : MetaState) (id : NamespaceId) : option Namespace := s.(namespaces) !! id.
Definition namespace_by_name (s : MetaState) (name : string) : option Namespace :=
  match s.(namespace_names) !! name with
  | Some id => s.(namespaces) !! id
  | None => None
  end.

(** [MetaState::stream] and [stream_by_name] *)
Definition stream (s : MetaState) (id : StreamId) : option Stream := s.(streams) !! id.
Definition stream_by_name (s : MetaState) (ns : NamespaceId) (name : string) : option Stream :=
  match s.(stream_names) !! (ns, name) with
  | Some id => s.(streams) !! id
  | None => None
  end.

(** [MetaState::streams]: the streams of one namespace, in id order. *)
Definition streams_of (s : MetaState) (ns : NamespaceId) : list Stream :=
  filter (λ st, st.(stream_namespace) = ns) (btree_values s.(streams)).

(** [MetaState::link] and [link_by_name] *)
Definition link (s : MetaState) (id : LinkId) : option Link := s.(links) !! id.
Definition link_by_name (s : MetaState) (ns : NamespaceId) (name : string) : option Link :=
  match s.(link_names) !! (ns, name) with
  | Some id => s.(links) !! id
  | None => None
  end.

(** [MetaState::links]: the links of one namespace, in id order. *)
Definition links_of (s : MetaState) (ns : NamespaceId) : list Link :=
  filter (λ l, l.(link_namespace) = ns) (btree_values s.(links)).

(** [PartitionIndex]; its accessors are the fields, and [high_watermark] is [next_offset]. *)
Record PartitionIndex := {
  px_log_start_offset : N;
  px_next_offset : N;
  px_bytes : N;
  px_entries : list IndexEntry;
}.

Definition px_high_watermark (p : PartitionIndex) : N := p.(px_next_offset).

(** The loop of [partition_index]: [first] while no entry was taken. *)
Fixpoint entries_page (max_bytes : option N) (first : bool) (bytes : N) (es : list IndexEntry)
  : list IndexEntry :=
  match es with
  | [] => []
  | e :: es =>
      if match max_bytes with Some m => negb first && (m <=? bytes) | None => false end then []
      else e :: entries_page max_bytes false
                  (u64_add bytes (u64_sub e.(byte_range).(range_end) e.(byte_range).(range_start))) es
  end.

(** Without a bound the page is the whole run. *)
Lemma entries_page_all first bytes es : entries_page None first bytes es = es.
Proof. revert first bytes. induction es as [|e es IH]; intros; cbn; [done|]. by rewrite IH. Qed.

(** [partition_index] *)
Definition partition_index (s : MetaState) (st : StreamId) (partition from_offset : N)
    (max_bytes : option N) : option PartitionIndex :=
  _ ← stream s st;
  state ← partition_of s st partition;
  Some {| px_log_start_offset := state.(log_start_offset);
          px_next_offset := state.(next_offset);
          px_bytes := state.(bytes);
          px_entries := entries_page max_bytes true 0 (entries_from state from_offset) |}.

(** ** What garbage collection asks *)

(** [retired_expired] *)
Definition retired_expired (s : MetaState) (grace_ms : N) : list string :=
  (filter (λ e, u64_saturating_add e.2 grace_ms <= s.(clock_ms)) (retired_list s)).*1.

(** [orphan_wal_objects] *)
Definition orphan_wal_objects (s : MetaState) (candidates : list (string * N)) (min_age_ms : N)
    (limit : nat) : list string :=
  take limit
    (filter (λ p, wal_live_chunks_of s p = None ∧ is_retired s p = false)
       (filter (λ c, u64_saturating_add c.2 min_age_ms <= s.(clock_ms)) candidates).*1).

(** The objects the index entries of a namespace name. *)
Definition kept_objects (s : MetaState) (ns : NamespaceId) : list string :=
  st ← streams_of s ns;
  p ← seq 0 (N.to_nat st.(stream_partitions));
  (match partition_of s st.(stream_id) (N.of_nat p) with
   | Some state => object <$> entries state
   | None => []
   end).

(** [orphan_segments] *)
Definition orphan_segments (s : MetaState) (ns : NamespaceId) (candidates : list (string * N))
    (min_age_ms : N) (limit : nat) : list string :=
  let kept := kept_objects s ns in
  take limit
    (filter (λ p, (p ∉ kept) ∧ is_retired s p = false)
       (filter (λ c, u64_saturating_add c.2 min_age_ms <= s.(clock_ms)) candidates).*1).

(** [segment_referenced] *)
Definition segment_referenced (s : MetaState) (st : StreamId) (partition : N) (obj : string) : bool :=
  is_retired s obj
  || match partition_of s st partition with
     | Some state => bool_decide (obj ∈ object <$> entries state)
     | None => false
     end.
