(* ===== verification/MetaCollections.v ===== *)
(** * The collection catalog (loams-meta/src/state/collections.rs and hot.rs)

    Collections with their implicit streams and links, aliases with one or several
    members, schema evolution, and hot configuration. *)

From Stdlib Require Import NArith Lia Ascii.
From stdpp Require Import prelude gmap strings numbers sorting list.
From S2P Require Import Prelude.
From S2P Require Import BTree.
From S2P Require Import Ids.
From S2P Require Import Schema.
From S2P Require Import MetaTypes.
From S2P Require Import MetaState.
From S2P Require Import MetaLog.
From S2P Require Import MetaLeases.
From S2P Require Import MetaCatalog.

Open Scope N_scope.

(** [fn schema_message] *)
Definition schema_message (e : SchemaError) : SchemaMessage :=
  match e with Invalid m | Incompatible m => m end.

(** ** Creating a collection *)

(** The checks of [create_collection], in order; they read the state only. *)
Definition check_create_collection (s : MetaState) (ns : NamespaceId) (name : string)
    (schema : CollectionSchema) (partitions : N) : Result () ApplyError :=
  REFUSE negb (contains_key ns s.(namespaces)) WITH NamespaceNotFound ns ;;
  LET _name <- validate_name "collection" name ;;
  REFUSE MAX_COLLECTION_NAME_LEN <? str_len name
    WITH InvalidArgument (MCollectionName (str_len name)) ;;
  LET _reserved <- refuse_reserved name ;;
  LET _partitions <- check_partitions partitions ;;
  LET _schema <- map_err (λ e, InvalidArgument (MSchema e)) (validate schema) ;;
  REFUSE negb (schema.(schema_version) =? 1)
    WITH InvalidArgument (MSchemaVersion schema.(schema_version)) ;;
  let existing := match s.(collection_names) !! (ns, name) with
                  | Some id => s.(collections) !! id
                  | None => None
                  end in
  match existing with
  | Some c =>
      if bool_decide (c.(collection_schema) = schema) && (c.(collection_partitions) =? partitions)
      then Err (CollectionExists c.(collection_id)) else Err (NameTaken name)
  | None =>
      REFUSE contains_key (ns, name) s.(aliases) || contains_key (ns, name) s.(alias_targets)
        WITH NameTaken name ;;
      Ok ()
  end.

(** [MetaState::create_collection] *)
Definition create_collection (s : MetaState) (ns : NamespaceId) (name : string)
    (schema : CollectionSchema) (partitions : N) : Outcome :=
  TRY _checked <- check_create_collection s ns name schema partitions IN s ;;
  let id := u64_add s.(last_collection_id) 1 in
  let s := set_last_collection_id s id in
  let implicit := implicit_name name id in
  let '(s, stream) := insert_stream s ns implicit partitions Standard Retention_default in
  let '(s, link) := insert_link s ns implicit stream
    {| target_kind := COLLECTION_KIND; target_name := name |} ∅ in
  let s := set_collection_names s (<[(ns, name) := id]> s.(collection_names)) in
  let s := set_collections s
    (<[id := {| collection_id := id;
                collection_namespace := ns;
                collection_name := name;
                collection_schema := schema;
                collection_partitions := partitions;
                collection_stream := stream;
                collection_link := link |}]> s.(collections)) in
  (s, Ok (CollectionCreated id stream link)).

(** ** Aliases *)

(** [MetaState::alias_members] *)
Definition alias_members (s : MetaState) (ns : NamespaceId) (alias : string)
  : gmap CollectionId (option bool) :=
  match s.(aliases) !! (ns, alias) with
  | Some id => {[id := None]}
  | None =>
      match s.(alias_targets) !! (ns, alias) with
      | Some targets => targets.(members)
      | None => ∅
      end
  end.

(** [MetaState::put_alias] *)
Definition put_alias (s : MetaState) (ns : NamespaceId) (alias : string)
    (ms : gmap CollectionId (option bool)) : MetaState :=
  let key := (ns, alias) in
  let s := set_aliases s (delete key s.(aliases)) in
  let s := set_alias_targets s (delete key s.(alias_targets)) in
  match btree_iter ms with
  | [] => s
  | [(id, None)] => set_aliases s (<[key := id]> s.(aliases))
  | _ => set_alias_targets s (<[key := {| members := ms |}]> s.(alias_targets))
  end.

(** ** Dropping a collection *)

(** The multi-target aliases a dropped collection leaves, in key order. *)
Definition leave_aliases (s : MetaState) (id : CollectionId) : MetaState :=
  let changed := (filter (λ e, is_Some (e.2.(members) !! id)) (btree_iter s.(alias_targets))).*1 in
  foldl (λ s '(ns, alias), put_alias s ns alias (delete id (alias_members s ns alias))) s changed.

(** [MetaState::drop_collection] *)
Definition drop_collection (s : MetaState) (ns : NamespaceId) (name : string) (now_ms : N)
  : Outcome :=
  let s := set_clock_ms s (N.max s.(clock_ms) now_ms) in
  match s.(collection_names) !! (ns, name) with
  | None => (s, Ok (CollectionDropped None))
  | Some id =>
      let s := set_collection_names s (delete (ns, name) s.(collection_names)) in
      match s.(collections) !! id with
      | None => (s, Ok (CollectionDropped None))
      | Some c =>
          let s := set_collections s (delete id s.(collections)) in
          let s := set_aliases s (filter (λ e, e.2 ≠ id) s.(aliases)) in
          let s := leave_aliases s id in
          let s := set_collection_hot s (delete id s.(collection_hot)) in
          let s := remove_stream s c.(collection_stream) in
          let s := remove_link s c.(collection_link) in
          let s := set_pointers s (delete (ns, collection_pointer_key id) s.(pointers)) in
          let s := set_retired s
            (<[collection_pk_prefix ns id := s.(clock_ms)]>
               (<[collection_prefix ns id := s.(clock_ms)]> s.(retired))) in
          (s, Ok (CollectionDropped (Some id)))
      end
  end.

(** ** Schema updates *)

(** [MetaState::update_collection_schema] *)
Definition update_collection_schema (s : MetaState) (collection : CollectionId)
    (expected_version : N) (schema : CollectionSchema) : Outcome :=
  match s.(collections) !! collection with
  | None => (s, Err (CollectionNotFound collection))
  | Some c =>
      let current := c.(collection_schema) in
      TRY _valid <- map_err (λ e, InvalidArgument (MSchema e)) (validate schema) IN s ;;
      if bool_decide (u64_checked_add expected_version 1 = Some current.(schema_version))
         && same_ignoring_version current schema
      then (s, Ok (SchemaUpdated current.(schema_version)))
      else
        BAIL negb (current.(schema_version) =? expected_version)
          WITH SchemaVersionMismatch collection current.(schema_version) IN s ;;
        TRY _additive <- map_err (λ e, IncompatibleSchema (schema_message e))
                           (check_additive current schema) IN s ;;
        TRY version <- ok_or (u64_checked_add expected_version 1)
                         (InvalidArgument MSchemaVersionMax) IN s ;;
        let c' := {| collection_id := c.(collection_id);
                     collection_namespace := c.(collection_namespace);
                     collection_name := c.(collection_name);
                     collection_schema := with_version schema version;
                     collection_partitions := c.(collection_partitions);
                     collection_stream := c.(collection_stream);
                     collection_link := c.(collection_link) |} in
        (set_collections s (<[collection := c']> s.(collections)), Ok (SchemaUpdated version))
  end.

(** ** Alias updates *)

(** One action of [update_aliases], checked and recorded in the pending changes. *)
Definition alias_action (s : MetaState) (ns : NamespaceId) (a : AliasAction)
    (changes : gmap string (option CollectionId))
  : Result (gmap string (option CollectionId)) ApplyError :=
  match a with
  | AliasCreate alias collection =>
      LET _name <- validate_name "alias" alias ;;
      LET _reserved <- refuse_reserved alias ;;
      REFUSE contains_key (ns, alias) s.(collection_names) WITH NameTaken alias ;;
      match s.(collection_names) !! (ns, collection) with
      | Some id => Ok (<[alias := Some id]> changes)
      | None => Err (UnknownCollection collection)
      end
  | AliasDelete alias => Ok (<[alias := None]> changes)
  end.

(** One entry of the change map, applied. *)
Definition apply_alias_change (ns : NamespaceId) (s : MetaState)
    (change : string * option CollectionId) : MetaState :=
  let '(alias, target) := change in
  let key := (ns, alias) in
  let s := set_alias_targets s (delete key s.(alias_targets)) in
  match target with
  | Some id => set_aliases s (<[key := id]> s.(aliases))
  | None => set_aliases s (delete key s.(aliases))
  end.

(** [MetaState::update_aliases] *)
Definition update_aliases (s : MetaState) (ns : NamespaceId) (actions : list AliasAction)
  : Outcome :=
  BAIL negb (contains_key ns s.(namespaces)) WITH NamespaceNotFound ns IN s ;;
  BAIL negb ((1 <=? len actions) && (len actions <=? MAX_ALIAS_ACTIONS))
    WITH InvalidArgument (MAliasActions (len actions)) IN s ;;
  TRY changes <- try_fold (alias_action s ns) actions ∅ IN s ;;
  (foldl (apply_alias_change ns) s (btree_iter changes), Ok AliasesUpdated).

(** The working copies of [update_alias_targets], by alias. *)
Abbreviation Working := (gmap string (gmap CollectionId (option bool))).

(** [MetaState::working_members]: the working copy of an alias, seeded from the state the
    first time the command touches it. *)
Definition working_members (s : MetaState) (w : Working) (ns : NamespaceId) (alias : string)
  : gmap CollectionId (option bool) :=
  match w !! alias with
  | Some ms => ms
  | None => alias_members s ns alias
  end.

(** One action of [update_alias_targets] on the working copies. *)
Definition alias_target_action (s : MetaState) (ns : NamespaceId) (a : AliasTargetAction)
    (w : Working) : Result Working ApplyError :=
  match a with
  | TargetAdd alias collection is_write_index =>
      LET _name <- validate_name "alias" alias ;;
      LET _reserved <- refuse_reserved alias ;;
      REFUSE contains_key (ns, alias) s.(collection_names) WITH NameTaken alias ;;
      match s.(collection_names) !! (ns, collection) with
      | Some id => Ok (<[alias := <[id := is_write_index]> (working_members s w ns alias)]> w)
      | None => Err (UnknownCollection collection)
      end
  | TargetRemove alias collection =>
      let ms := working_members s w ns alias in
      match s.(collection_names) !! (ns, collection) with
      | Some id => Ok (<[alias := delete id ms]> w)
      | None => Ok (<[alias := ms]> w)
      end
  | TargetRemoveAlias alias => Ok (<[alias := ∅]> w)
  end.

(** The names of an alias's write members, in id order. *)
Definition writer_names (s : MetaState) (ms : gmap CollectionId (option bool)) : list string :=
  omap (λ e, if bool_decide (e.2 = Some true)
             then collection_name <$> s.(collections) !! e.1 else None) (btree_iter ms).

(** The limits each touched alias is checked against. *)
Definition check_members (s : MetaState) (e : string * gmap CollectionId (option bool)) (_ : ())
  : Result () ApplyError :=
  let '(alias, ms) := e in
  REFUSE MAX_ALIAS_TARGETS <? N.of_nat (size ms)
    WITH InvalidArgument (MAliasTargets alias (N.of_nat (size ms))) ;;
  let writers := writer_names s ms in
  REFUSE 1 <? len writers
    WITH InvalidArgument (MAliasWriters alias
           (sort_by string_leb writers)) ;;
  Ok ().

(** [MetaState::update_alias_targets] *)
Definition update_alias_targets (s : MetaState) (ns : NamespaceId)
    (actions : list AliasTargetAction) : Outcome :=
  BAIL negb (contains_key ns s.(namespaces)) WITH NamespaceNotFound ns IN s ;;
  BAIL negb ((1 <=? len actions) && (len actions <=? MAX_ALIAS_ACTIONS))
    WITH InvalidArgument (MAliasActions (len actions)) IN s ;;
  TRY w <- try_fold (alias_target_action s ns) actions ∅ IN s ;;
  TRY _limits <- try_fold (check_members s) (btree_iter w) () IN s ;;
  (foldl (λ s '(alias, ms), put_alias s ns alias ms) s (btree_iter w), Ok AliasesUpdated).

(** ** Hot configuration (state/hot.rs) *)

(** [MetaState::set_collection_hot] *)
Definition set_hot (s : MetaState) (collection : CollectionId) (hot : HotConfig) : Outcome :=
  BAIL negb (contains_key collection s.(collections)) WITH CollectionNotFound collection IN s ;;
  let s := if hot_any hot
           then set_collection_hot s (<[collection := hot]> s.(collection_hot))
           else set_collection_hot s (delete collection s.(collection_hot)) in
  (s, Ok CollectionHotSet).

(** [MetaState::collection_hot] *)
Definition collection_hot_of (s : MetaState) (id : CollectionId) : HotConfig :=
  default HotConfig_default (s.(collection_hot) !! id).

(** [MetaState::hot_collections] *)
Definition hot_collections (s : MetaState) : list (CollectionId * HotConfig) :=
  btree_iter s.(collection_hot).

(** ** Reads *)

(** [MetaState::collection] and [collection_by_name] *)
Definition collection (s : MetaState) (id : CollectionId) : option Collection :=
  s.(collections) !! id.
Definition collection_by_name (s : MetaState) (ns : NamespaceId) (name : string)
  : option Collection :=
  match s.(collection_names) !! (ns, name) with
  | Some id => s.(collections) !! id
  | None => None
  end.

(** [MetaState::collections]: the collections of one namespace, in id order. *)
Definition collections_of (s : MetaState) (ns : NamespaceId) : list Collection :=
  filter (λ c, c.(collection_namespace) = ns) (btree_values s.(collections)).

(** [MetaState::resolve_collection] *)
Definition resolve_collection (s : MetaState) (ns : NamespaceId) (name_or_alias : string)
  : option Collection :=
  let key := (ns, name_or_alias) in
  let id := match s.(collection_names) !! key with
            | Some id => Some id
            | None =>
                match s.(aliases) !! key with
                | Some id => Some id
                | None =>
                    match s.(alias_targets) !! key with
                    | Some targets =>
                        match btree_keys targets.(members) with
                        | [id] => Some id
                        | _ => None
                        end
                    | None => None
                    end
                end
            end in
  match id with
  | Some id => s.(collections) !! id
  | None => None
  end.

(** [enum NameTarget] (loams-common/src/meta/views.rs) *)
Inductive NameTarget :=
  | NameCollection (c : Collection)
  | NameAlias (members : list (Collection * option bool)) (write_target : option CollectionId).

(** [MetaState::resolve_name] *)
Definition resolve_name (s : MetaState) (ns : NamespaceId) (name : string) : option NameTarget :=
  match collection_by_name s ns name with
  | Some c => Some (NameCollection c)
  | None =>
      let ms := alias_members s ns name in
      if bool_decide (ms = ∅) then None
      else
        let targets := {| members := ms |} in
        Some (NameAlias
          (omap (λ e, (λ c, (c, e.2)) <$> s.(collections) !! e.1) (btree_iter ms))
          (write_target targets))
  end.

(** [map.range((ns, "")..).take_while(|((n, _), _)| n == ns)] *)
Definition namespace_range {V} (m : gmap (NamespaceId * string) V) (ns : NamespaceId)
  : list ((NamespaceId * string) * V) :=
  (fix take_ns l := match l with
                    | [] => []
                    | e :: l => if (e.1.1 =? ns) then e :: take_ns l else []
                    end) (btree_range_from m (ns, ""%string)).

(** [MetaState::aliases]: one pair per member, from both maps, sorted. *)
Definition aliases_of (s : MetaState) (ns : NamespaceId) : list (string * CollectionId) :=
  let pairs := (λ e, (e.1.2, e.2)) <$> namespace_range s.(aliases) ns in
  let more := namespace_range s.(alias_targets) ns ≫=
                (λ e, (λ id, (e.1.2, id)) <$> btree_keys e.2.(members)) in
  sort_by key_leb (pairs ++ more).

(** [MetaState::alias_targets]: every alias with its members, sorted by name. *)
Definition alias_targets_of (s : MetaState) (ns : NamespaceId) : list (string * AliasTargets) :=
  let single := (λ e, (e.1.2, {| members := {[e.2 := None]} |})) <$>
                  namespace_range s.(aliases) ns in
  let multi := (λ e, (e.1.2, e.2)) <$> namespace_range s.(alias_targets) ns in
  sort_by (λ a b, string_leb a.1 b.1) (single ++ multi).

(** [MetaState::collection_for_link] *)
Definition collection_for_link (s : MetaState) (id : LinkId) : option Collection :=
  match s.(links) !! id with
  | None => None
  | Some l =>
      if negb (bool_decide (l.(link_target).(target_kind) = COLLECTION_KIND)) then None
      else match collection_by_name s l.(link_namespace) l.(link_target).(target_name) with
           | Some c => if c.(collection_link) =? l.(link_id) then Some c else None
           | None => None
           end
  end.
