(* ===== verification/MetaApply.v ===== *)
(** * The metastore state machine (loams-meta/src/state/mod.rs)

    [apply] dispatches a command to its handler; [run] applies a command log in order. *)

From Stdlib Require Import NArith Lia.
From stdpp Require Import prelude gmap strings numbers list.
From S2P Require Import Prelude.
From S2P Require Import BTree.
From S2P Require Import Ids.
From S2P Require Import Schema.
From S2P Require Import MetaTypes.
From S2P Require Import MetaState.
From S2P Require Import MetaLeases.
From S2P Require Import MetaLog.
From S2P Require Import MetaCatalog.
From S2P Require Import MetaCollections.

Open Scope N_scope.

(** [MetaState::apply] *)
Definition apply (s : MetaState) (command : Command) : Outcome :=
  match command with
  | CreateNamespace name => create_namespace s name
  | CreateStream namespace name partitions class retention =>
      create_stream s namespace name partitions class retention
  | CreateLink namespace name source target options =>
      create_link s namespace name source target options
  | CommitWal object created_at_ms chunks => commit_wal s object created_at_ms chunks
  | SetRetention stream retention => set_retention s stream retention
  | SwapSegment stream partition replaces segment byte_range max_timestamp_ms fence now_ms fresh =>
      swap_segment s stream partition replaces segment byte_range max_timestamp_ms fence now_ms
        fresh
  | TrimPartition stream partition before_offset fence now_ms =>
      trim_partition s stream partition before_offset fence now_ms
  | PruneWalCommits fence now_ms => prune_wal_commits s fence now_ms
  | ForgetObjects objects fence => forget_objects s objects fence
  | AcquireLease key owner ttl_ms now_ms => acquire_lease s key owner ttl_ms now_ms
  | RenewLease key owner epoch ttl_ms now_ms => renew_lease s key owner epoch ttl_ms now_ms
  | ReacquireLease key owner epoch ttl_ms now_ms =>
      reacquire_lease s key owner epoch ttl_ms now_ms
  | ReleaseLease key owner epoch => release_lease s key owner epoch
  | CasPointer namespace key expected value fence fresh =>
      cas_pointer s namespace key expected value fence fresh
  | CreateCollection namespace name schema partitions =>
      create_collection s namespace name schema partitions
  | DropCollection namespace name now_ms => drop_collection s namespace name now_ms
  | UpdateCollectionSchema collection expected_version schema =>
      update_collection_schema s collection expected_version schema
  | UpdateAliases namespace actions => update_aliases s namespace actions
  | SetCollectionHot collection hot => set_hot s collection hot
  | UpdateAliasTargets namespace actions => update_alias_targets s namespace actions
  | ClaimIdempotencyKeys stream owner keys ttl_ms now_ms =>
      claim_idempotency_keys s stream owner keys ttl_ms now_ms
  | CompleteIdempotencyKeys stream owner done window_ms now_ms =>
      complete_idempotency_keys s stream owner done window_ms now_ms
  | ReleaseIdempotencyKeys stream owner keys => release_idempotency_keys s stream owner keys
  | PruneIdempotencyKeys fence now_ms => prune_idempotency_keys s fence now_ms
  end.

(** The state after a command log. *)
Definition run (s : MetaState) (log : list Command) : MetaState :=
  foldl (λ s c, (apply s c).1) s log.

Lemma run_cons s c log : run s (c :: log) = run (apply s c).1 log.
Proof. done. Qed.

Lemma run_app s l1 l2 : run s (l1 ++ l2) = run (run s l1) l2.
Proof. apply foldl_app. Qed.

Lemma run_snoc s l c : run s (l ++ [c]) = (apply (run s l) c).1.
Proof. by rewrite run_app. Qed.

(** ** A rejected command changes nothing *)

(** An outcome that is an error only with the state it started from. *)
Definition atomic (s : MetaState) (o : Outcome) : Prop :=
  ∀ e, o.2 = Err e → o.1 = s.

Lemma atomic_same s r : atomic s (s, r).
Proof. by intros e. Qed.

Lemma atomic_ok s s' r : atomic s (s', Ok r).
Proof. intros e. cbn. discriminate. Qed.

(** Splits the guards of a handler from the outside; the leaves that fail return the state
    they were given, the others succeed. *)
Ltac atomic_cases :=
  cbv zeta;
  lazymatch goal with
  | |- atomic ?s (match ?x with _ => _ end) => destruct x eqn:?; atomic_cases
  | |- atomic ?s (?s, _) => apply atomic_same
  | |- atomic ?s (_, Ok _) => apply atomic_ok
  | |- _ => idtac
  end.

Lemma partition_state_Ok s st p ps :
  partition_state s st p = Ok ps → s.(partitions) !! (st, p) = Some ps.
Proof.
  unfold partition_state. case_match; [done|].
  destruct (partitions s !! (st, p)); cbn; congruence.
Qed.

Lemma partition_state_mut_Ok s st p ps :
  s.(partitions) !! (st, p) = Some ps → partition_state_mut s st p = Ok ps.
Proof. unfold partition_state_mut. by intros ->. Qed.

Lemma validate_chunks_Ok s chunks :
  validate_chunks s chunks = Ok () ↔ Forall (λ c, validate_chunk s c = Ok ()) chunks.
Proof.
  induction chunks as [|c chunks IH]; cbn; [done|]. rewrite Forall_cons, <- IH.
  destruct (validate_chunk s c) as [[]|]; naive_solver.
Qed.

Lemma validate_chunk_Ok s c :
  validate_chunk s c = Ok () →
  is_Some (s.(streams) !! c.(chunk_stream))
  ∧ is_Some (s.(partitions) !! (c.(chunk_stream), c.(chunk_partition)))
  ∧ 0 < c.(chunk_records)
  ∧ c.(chunk_byte_range).(range_start) < c.(chunk_byte_range).(range_end).
Proof.
  unfold validate_chunk. intros H. inv_outcome H. bools. repeat split; try done. lia.
Qed.

(** Appending keeps the set of partitions, so validated chunks are all appended. *)
Lemma append_chunks_total s obj chunks acc :
  Forall (λ c, is_Some (s.(partitions) !! (c.(chunk_stream), c.(chunk_partition)))) chunks →
  ∃ bases, (append_chunks s obj chunks acc).2 = Ok (acc ++ bases)
           ∧ length bases = length chunks.
Proof.
  revert s acc. induction chunks as [|c chunks IH]; intros s acc F.
  - exists []. by rewrite app_nil_r.
  - apply Forall_cons in F as [[ps Hps] F]. cbn. rewrite Hps.
    destruct (IH (set_partition s (chunk_stream c) (chunk_partition c) (append_chunk ps obj c))
                 (acc ++ [next_offset ps])) as (bases & E & L).
    + eapply Forall_impl; [exact F|]. intros d Hd. cbn.
      rewrite lookup_insert_is_Some'. by right.
    + exists (next_offset ps :: bases). rewrite E, <- app_assoc. split; [done|]. cbn. lia.
Qed.

Lemma validated_partitions s chunks :
  validate_chunks s chunks = Ok () →
  Forall (λ c, is_Some (s.(partitions) !! (c.(chunk_stream), c.(chunk_partition)))) chunks.
Proof.
  rewrite validate_chunks_Ok. intros F. eapply Forall_impl; [exact F|].
  intros c Hc. by apply validate_chunk_Ok in Hc as (_ & ? & _).
Qed.

Lemma commit_wal_atomic s obj created chunks : atomic s (commit_wal s obj created chunks).
Proof.
  unfold commit_wal. destruct (validate_chunks s chunks) as [[]|] eqn:V; [|atomic_cases].
  destruct (append_chunks_total s obj chunks [] (validated_partitions _ _ V)) as (b & E & _).
  destruct (append_chunks s obj chunks []) as [s' r]. cbn in E. subst r. atomic_cases.
Qed.

Lemma swap_segment_atomic s st p replaces segment range ts fence now fresh :
  atomic s (swap_segment s st p replaces segment range ts fence now fresh).
Proof.
  unfold swap_segment.
  destruct (partition_state s st p) as [state|] eqn:P; [|atomic_cases].
  apply partition_state_Ok in P.
  erewrite partition_state_mut_Ok by exact P. atomic_cases.
Qed.

Lemma trim_partition_atomic s st p before fence now :
  atomic s (trim_partition s st p before fence now).
Proof.
  unfold trim_partition.
  destruct (partition_state s st p) as [state|] eqn:P; [|atomic_cases].
  apply partition_state_Ok in P.
  erewrite partition_state_mut_Ok by exact P. atomic_cases.
Qed.

Lemma apply_atomic s c : atomic s (apply s c).
Proof.
  destruct c; cbn [apply];
    first [ apply commit_wal_atomic | apply swap_segment_atomic | apply trim_partition_atomic
          | idtac ].
  all: unfold create_namespace, create_stream, create_link, set_retention, prune_wal_commits,
    forget_objects, acquire_lease, renew_lease, reacquire_lease, release_lease, extend_lease,
    cas_pointer, create_collection, drop_collection, update_collection_schema, update_aliases,
    set_hot, update_alias_targets, claim_idempotency_keys, complete_idempotency_keys,
    release_idempotency_keys, prune_idempotency_keys.
  all: atomic_cases.
Qed.
