(* ===== verification/CatalogInv.v ===== *)
(** * The catalog's structure: named tables, streams, links, collections and partitions

    Namespaces, streams, links and collections are each kept in a table by id with an index by name
    and a counter of ids handed out.  First the invariant the four share and the three changes that
    keep it: inserting under a fresh id and name, removing an item with its name, and replacing an
    item by one of the same id and name.  Then facts on the catalog's maps, used by
    MetaCatalogInv.v for the handlers: every collection is backed by an implicit stream and an
    implicit link, an implicit stream or link belongs to a collection, a link's source exists, and
    the partitions are those of the streams. *)

From Stdlib Require Import NArith Lia Ascii.
From stdpp Require Import prelude gmap strings numbers list.
From S2P Require Import Prelude.
From S2P Require Import BTree.
From S2P Require Import Ids.
From S2P Require Import Schema.
From S2P Require Import MetaTypes.

Open Scope N_scope.

(** Items with an id and a name. *)
Class Named (A K : Type) := {
  item_id : A → N;
  item_name : A → K;
}.

Section table.
Context {A K : Type} `{Countable K} `{Named A K}.

Record table_inv (last : N) (table : gmap N A) (names : gmap K N) : Prop := {
  ti_item : ∀ id x, table !! id = Some x →
    item_id x = id ∧ id <= last ∧ names !! item_name x = Some id;
  ti_name : ∀ n id, names !! n = Some id → ∃ x, table !! id = Some x ∧ item_name x = n;
}.

Lemma table_empty : table_inv 0 ∅ ∅.
Proof. split; intros ??; by rewrite lookup_empty. Qed.

Lemma table_fresh last table names id :
  table_inv last table names → last < id → table !! id = None.
Proof.
  intros T L. destruct (table !! id) eqn:E; [|done].
  apply (ti_item _ _ _ T) in E as (_ & ? & _). lia.
Qed.

(** Two items with one name are one item. *)
Lemma table_unique last table names id id' x y :
  table_inv last table names → table !! id = Some x → table !! id' = Some y →
  item_name x = item_name y → id = id'.
Proof.
  intros T X Y E. apply (ti_item _ _ _ T) in X as (_ & _ & X).
  apply (ti_item _ _ _ T) in Y as (_ & _ & Y). congruence.
Qed.

Lemma table_insert last table names x :
  table_inv last table names → last < item_id x → names !! item_name x = None →
  table_inv (item_id x) (<[item_id x := x]> table) (<[item_name x := item_id x]> names).
Proof.
  intros T L F. pose proof (table_fresh _ _ _ _ T L) as N. split.
  - intros id y. rewrite lookup_insert_Some. intros [[<- <-]|[D Y]].
    + split_and!; [done|lia|]. by rewrite lookup_insert_eq.
    + apply (ti_item _ _ _ T) in Y as (? & ? & Y). split_and!; [done|lia|].
      rewrite lookup_insert_ne; [done|]. intros E. congruence.
  - intros n id. rewrite lookup_insert_Some. intros [[<- <-]|[D Y]].
    + exists x. by rewrite lookup_insert_eq.
    + apply (ti_name _ _ _ T) in Y as (y & Y & E). exists y. split; [|done].
      rewrite lookup_insert_ne; [done|]. intros <-. congruence.
Qed.

Lemma table_remove last table names id x :
  table_inv last table names → table !! id = Some x →
  table_inv last (delete id table) (delete (item_name x) names).
Proof.
  intros T X. split.
  - intros id' y [D Y]%lookup_delete_Some. pose proof Y as Y'.
    apply (ti_item _ _ _ T) in Y' as (? & ? & N). split_and!; [done|done|].
    rewrite lookup_delete_ne; [done|]. intros E. apply D. by eapply table_unique.
  - intros n id' [D N]%lookup_delete_Some.
    apply (ti_name _ _ _ T) in N as (y & Y & <-). exists y. split; [|done].
    rewrite lookup_delete_ne; [done|]. intros <-. congruence.
Qed.

Lemma table_update last table names id x y :
  table_inv last table names → table !! id = Some x →
  item_id y = item_id x → item_name y = item_name x →
  table_inv last (<[id := y]> table) names.
Proof.
  intros T X I N. pose proof (ti_item _ _ _ T _ _ X) as (? & ? & ?). split.
  - intros id' z. rewrite lookup_insert_Some. intros [[<- <-]|[_ Z]].
    + rewrite I, N. done.
    + by apply (ti_item _ _ _ T).
  - intros n id' M. apply (ti_name _ _ _ T) in M as (z & Z & E).
    destruct (decide (id = id')) as [<-|D].
    + exists y. rewrite lookup_insert_eq. split; [done|]. congruence.
    + exists z. by rewrite lookup_insert_ne.
Qed.

(** An item is found by its name and only by it. *)
Lemma table_by_name last table names n x :
  table_inv last table names →
  (match names !! n with Some id => table !! id | None => None end) = Some x ↔
    item_name x = n ∧ table !! item_id x = Some x.
Proof.
  intros T. split.
  - destruct (names !! n) as [id|] eqn:N; [|done]. intros X.
    apply (ti_name _ _ _ T) in N as (y & Y & <-). rewrite X in Y. injection Y as ->.
    pose proof (ti_item _ _ _ T _ _ X) as (-> & _). done.
  - intros [<- X]. pose proof (ti_item _ _ _ T _ _ X) as (_ & _ & ->). done.
Qed.
End table.

#[export] Instance Namespace_Named : Named Namespace string :=
  {| item_id := namespace_id; item_name := namespace_name |}.
#[export] Instance Stream_Named : Named Stream (NamespaceId * string) :=
  {| item_id := stream_id; item_name st := (st.(stream_namespace), st.(stream_name)) |}.
#[export] Instance Link_Named : Named Link (NamespaceId * string) :=
  {| item_id := link_id; item_name l := (l.(link_namespace), l.(link_name)) |}.
#[export] Instance Collection_Named : Named Collection (NamespaceId * string) :=
  {| item_id := collection_id;
     item_name c := (c.(collection_namespace), c.(collection_name)) |}.

(** ** Implicit names *)

Definition reserved (name : string) : bool := starts_with_char "_"%char name.

Lemma implicit_reserved name id : reserved (implicit_name name id) = true.
Proof. done. Qed.

(** The id is readable from the implicit name. *)
Lemma implicit_name_inj a i b j :
  i <= u64_MAX → j <= u64_MAX → implicit_name a i = implicit_name b j → a = b ∧ i = j.
Proof.
  intros Bi Bj E. apply (f_equal String.list_ascii_of_string) in E.
  unfold implicit_name in E. rewrite !list_ascii_app in E.
  apply app_inv_head in E. cbn in E.
  apply app_sep_inj in E as [E1 E2]; [|apply dot_not_in_show..].
  split; apply list_ascii_inj in E1, E2; [done|by apply show_u64_inj].
Qed.

(** ** Backing streams and links *)

(** [st] is the implicit stream of [c]. *)
Record stream_backs (c : Collection) (st : Stream) : Prop := {
  sb_namespace : st.(stream_namespace) = c.(collection_namespace);
  sb_name : st.(stream_name) = implicit_name c.(collection_name) c.(collection_id);
  sb_partitions : st.(stream_partitions) = c.(collection_partitions);
  sb_class : st.(stream_class) = Standard;
  sb_retention : st.(stream_retention) = Retention_default;
}.

(** [l] is the implicit link of [c]. *)
Record link_backs (c : Collection) (l : Link) : Prop := {
  lb_namespace : l.(link_namespace) = c.(collection_namespace);
  lb_name : l.(link_name) = implicit_name c.(collection_name) c.(collection_id);
  lb_source : l.(link_source) = c.(collection_stream);
  lb_kind : l.(link_target).(target_kind) = COLLECTION_KIND;
  lb_target : l.(link_target).(target_name) = c.(collection_name);
}.

Record backed_inv (streams : gmap StreamId Stream) (links : gmap LinkId Link)
    (collections : gmap CollectionId Collection) : Prop := {
  bi_stream : ∀ id c, collections !! id = Some c →
    ∃ st, streams !! c.(collection_stream) = Some st ∧ stream_backs c st;
  bi_link : ∀ id c, collections !! id = Some c →
    ∃ l, links !! c.(collection_link) = Some l ∧ link_backs c l;
  bi_stream_owner : ∀ id st, streams !! id = Some st → reserved st.(stream_name) = true →
    ∃ cid c, collections !! cid = Some c ∧ c.(collection_stream) = id;
  bi_link_owner : ∀ id l, links !! id = Some l → reserved l.(link_name) = true →
    ∃ cid c, collections !! cid = Some c ∧ c.(collection_link) = id;
  bi_source : ∀ id l, links !! id = Some l →
    ∃ st, streams !! l.(link_source) = Some st ∧ st.(stream_namespace) = l.(link_namespace)
      ∧ (reserved st.(stream_name) = true → reserved l.(link_name) = true);
}.

Lemma backed_empty : backed_inv ∅ ∅ ∅.
Proof. split; intros ??; by rewrite lookup_empty. Qed.

Section backed.
Context (streams : gmap StreamId Stream) (links : gmap LinkId Link)
  (collections : gmap CollectionId Collection).
Hypothesis B : backed_inv streams links collections.

Lemma backed_add_stream id st :
  streams !! id = None → reserved st.(stream_name) = false →
  backed_inv (<[id := st]> streams) links collections.
Proof.
  intros F R. destruct B as [S L So Lo Sr]. split; try done.
  - intros cid c C. destruct (S _ _ C) as (x & X & M). exists x. split; [|done].
    rewrite lookup_insert_ne; [done|]. congruence.
  - intros i x. rewrite lookup_insert_Some. intros [[<- <-]|[_ X]]; [congruence|by apply So].
  - intros i l I. destruct (Sr _ _ I) as (x & X & M). exists x. split; [|done].
    rewrite lookup_insert_ne; [done|]. congruence.
Qed.

(** A user stream is replaced by one of the same name (its retention changed). *)
Lemma backed_update_stream id st st' :
  streams !! id = Some st → reserved st.(stream_name) = false →
  st'.(stream_name) = st.(stream_name) → st'.(stream_namespace) = st.(stream_namespace) →
  backed_inv (<[id := st']> streams) links collections.
Proof.
  intros F R N Ns. destruct B as [S L So Lo Sr]. split; try done.
  - intros cid c C. destruct (S _ _ C) as (x & X & M). exists x. split; [|done].
    rewrite lookup_insert_ne; [done|]. intros E. rewrite <- E, F in X. injection X as <-.
    rewrite (sb_name _ _ M) in R. done.
  - intros i x. rewrite lookup_insert_Some. intros [[<- <-]|[_ X]]; [congruence|by apply So].
  - intros i l I. destruct (Sr _ _ I) as (x & X & M1 & M2).
    destruct (decide (id = link_source l)) as [E|D].
    + rewrite <- E in X |- *. rewrite lookup_insert_eq. exists st'. rewrite F in X. injection X as <-.
      split_and!; [done|congruence|]. rewrite N. congruence.
    + exists x. by rewrite lookup_insert_ne.
Qed.

Lemma backed_add_link id l st :
  links !! id = None → reserved l.(link_name) = false →
  streams !! l.(link_source) = Some st → st.(stream_namespace) = l.(link_namespace) →
  reserved st.(stream_name) = false →
  backed_inv streams (<[id := l]> links) collections.
Proof.
  intros F R X Ns Rs. destruct B as [S L So Lo Sr]. split; try done.
  - intros cid c C. destruct (L _ _ C) as (y & Y & M). exists y. split; [|done].
    rewrite lookup_insert_ne; [done|]. congruence.
  - intros i y. rewrite lookup_insert_Some. intros [[<- <-]|[_ Y]]; [congruence|by apply Lo].
  - intros i y. rewrite lookup_insert_Some. intros [[<- <-]|[_ Y]]; [|by eapply Sr].
    exists st. split_and!; try done. congruence.
Qed.

(** A collection with its stream and link. *)
Lemma backed_create cid c sid st lid l :
  collections !! cid = None → streams !! sid = None → links !! lid = None →
  c.(collection_stream) = sid → c.(collection_link) = lid →
  stream_backs c st → link_backs c l →
  backed_inv (<[sid := st]> streams) (<[lid := l]> links) (<[cid := c]> collections).
Proof.
  intros Fc Fs Fl <- <- Sb Lb. destruct B as [S L So Lo Sr]. split.
  - intros i x. rewrite lookup_insert_Some. intros [[<- <-]|[_ X]].
    + exists st. by rewrite lookup_insert_eq.
    + destruct (S _ _ X) as (y & Y & M). exists y. split; [|done].
      rewrite lookup_insert_ne; [done|]. congruence.
  - intros i x. rewrite lookup_insert_Some. intros [[<- <-]|[_ X]].
    + exists l. by rewrite lookup_insert_eq.
    + destruct (L _ _ X) as (y & Y & M). exists y. split; [|done].
      rewrite lookup_insert_ne; [done|]. congruence.
  - intros i x. rewrite lookup_insert_Some. intros [[<- <-]|[_ X]] R.
    + exists cid, c. by rewrite lookup_insert_eq.
    + destruct (So _ _ X R) as (d & y & Y & M). exists d, y. split; [|done].
      rewrite lookup_insert_ne; [done|]. congruence.
  - intros i x. rewrite lookup_insert_Some. intros [[<- <-]|[_ X]] R.
    + exists cid, c. by rewrite lookup_insert_eq.
    + destruct (Lo _ _ X R) as (d & y & Y & M). exists d, y. split; [|done].
      rewrite lookup_insert_ne; [done|]. congruence.
  - intros i x. rewrite lookup_insert_Some. intros [[<- <-]|[_ X]].
    + exists st. rewrite (lb_source _ _ Lb), lookup_insert_eq. split_and!; [done| |].
      * by rewrite (sb_namespace _ _ Sb), (lb_namespace _ _ Lb).
      * intros _. by rewrite (lb_name _ _ Lb).
    + destruct (Sr _ _ X) as (y & Y & M). exists y. split; [|done].
      rewrite lookup_insert_ne; [done|]. congruence.
Qed.

(** A collection is replaced by one with the same identity (its schema changed). *)
Lemma backed_update_collection cid c c' :
  collections !! cid = Some c →
  c'.(collection_stream) = c.(collection_stream) → c'.(collection_link) = c.(collection_link) →
  (∀ st, stream_backs c st → stream_backs c' st) → (∀ l, link_backs c l → link_backs c' l) →
  backed_inv streams links (<[cid := c']> collections).
Proof.
  intros C Es El Hs Hl. destruct B as [S L So Lo Sr]. split; try done.
  - intros i x. rewrite lookup_insert_Some. intros [[<- <-]|[_ X]]; [|by eapply S].
    destruct (S _ _ C) as (y & Y & M). exists y. rewrite Es. auto.
  - intros i x. rewrite lookup_insert_Some. intros [[<- <-]|[_ X]]; [|by eapply L].
    destruct (L _ _ C) as (y & Y & M). exists y. rewrite El. auto.
  - intros i x X R. destruct (So _ _ X R) as (d & y & Y & M).
    destruct (decide (cid = d)) as [<-|D].
    + exists cid, c'. rewrite lookup_insert_eq. split; [done|]. congruence.
    + exists d, y. by rewrite lookup_insert_ne.
  - intros i x X R. destruct (Lo _ _ X R) as (d & y & Y & M).
    destruct (decide (cid = d)) as [<-|D].
    + exists cid, c'. rewrite lookup_insert_eq. split; [done|]. congruence.
    + exists d, y. by rewrite lookup_insert_ne.
Qed.

(** ** Dropping a collection *)

Hypothesis ids : ∀ id c, collections !! id = Some c → c.(collection_id) = id ∧ id <= u64_MAX.

Lemma same_implicit_name i j c d :
  collections !! i = Some c → collections !! j = Some d →
  implicit_name c.(collection_name) c.(collection_id)
    = implicit_name d.(collection_name) d.(collection_id) → i = j.
Proof.
  intros C D E. destruct (ids _ _ C) as [<- ?]. destruct (ids _ _ D) as [<- ?].
  by apply implicit_name_inj in E as [_ E].
Qed.

Lemma stream_owner_unique i j c d :
  collections !! i = Some c → collections !! j = Some d →
  c.(collection_stream) = d.(collection_stream) → i = j.
Proof.
  intros C D E. eapply same_implicit_name; [done..|].
  destruct (bi_stream _ _ _ B _ _ C) as (x & X & <-%sb_name).
  destruct (bi_stream _ _ _ B _ _ D) as (y & Y & <-%sb_name). congruence.
Qed.

Lemma link_owner_unique i j c d :
  collections !! i = Some c → collections !! j = Some d →
  c.(collection_link) = d.(collection_link) → i = j.
Proof.
  intros C D E. eapply same_implicit_name; [done..|].
  destruct (bi_link _ _ _ B _ _ C) as (x & X & <-%lb_name).
  destruct (bi_link _ _ _ B _ _ D) as (y & Y & <-%lb_name). congruence.
Qed.

(** The implicit link is the only link whose source is the implicit stream. *)
Lemma implicit_source cid c lid l :
  collections !! cid = Some c → links !! lid = Some l →
  l.(link_source) = c.(collection_stream) → lid = c.(collection_link).
Proof.
  intros C L E. destruct (bi_stream _ _ _ B _ _ C) as (st & St & Sb).
  destruct (bi_source _ _ _ B _ _ L) as (st' & St' & _ & R).
  rewrite E, St in St'. injection St' as <-. rewrite (sb_name _ _ Sb) in R.
  destruct (bi_link_owner _ _ _ B _ _ L (R eq_refl)) as (d & x & X & <-).
  destruct (bi_link _ _ _ B _ _ X) as (l' & L' & Lb). rewrite L in L'. injection L' as <-.
  assert (cid = d) as <-; [|congruence].
  eapply stream_owner_unique; [done..|]. rewrite <- E. apply Lb.
Qed.

Lemma backed_drop cid c :
  collections !! cid = Some c →
  backed_inv (delete c.(collection_stream) streams) (delete c.(collection_link) links)
    (delete cid collections).
Proof.
  intros C. split.
  - intros i x [D X]%lookup_delete_Some. destruct (bi_stream _ _ _ B _ _ X) as (y & Y & M).
    exists y. split; [|done]. rewrite lookup_delete_ne; [done|].
    intros E. apply D. by eapply stream_owner_unique.
  - intros i x [D X]%lookup_delete_Some. destruct (bi_link _ _ _ B _ _ X) as (y & Y & M).
    exists y. split; [|done]. rewrite lookup_delete_ne; [done|].
    intros E. apply D. by eapply link_owner_unique.
  - intros i x [D X]%lookup_delete_Some R.
    destruct (bi_stream_owner _ _ _ B _ _ X R) as (d & y & Y & M). exists d, y.
    split; [|done]. rewrite lookup_delete_ne; [done|]. congruence.
  - intros i x [D X]%lookup_delete_Some R.
    destruct (bi_link_owner _ _ _ B _ _ X R) as (d & y & Y & M). exists d, y.
    split; [|done]. rewrite lookup_delete_ne; [done|]. congruence.
  - intros i x [D X]%lookup_delete_Some. destruct (bi_source _ _ _ B _ _ X) as (y & Y & M).
    exists y. split; [|done]. rewrite lookup_delete_ne; [done|].
    intros E. apply D. symmetry. by eapply implicit_source.
Qed.
End backed.

(** ** Partitions and the ledger *)

(** The partitions are those of the streams. *)
Definition parts_match (streams : gmap StreamId Stream)
    (parts : gmap (StreamId * N) PartitionState) : Prop :=
  ∀ id p, is_Some (parts !! (id, p)) ↔
    ∃ st, streams !! id = Some st ∧ p < st.(stream_partitions).

(** A ledger entry belongs to a stream. *)
Definition ledger_ok (streams : gmap StreamId Stream)
    (ledger : gmap (StreamId * IdempotencyKey) IdempotencyEntry) : Prop :=
  ∀ id key e, ledger !! (id, key) = Some e → is_Some (streams !! id).

Lemma parts_match_dom streams parts parts' :
  parts_match streams parts → (∀ k, is_Some (parts' !! k) ↔ is_Some (parts !! k)) →
  parts_match streams parts'.
Proof. intros P D id p. unfold parts_match in P. rewrite D. apply P. Qed.

Lemma parts_match_update streams parts id st st' :
  parts_match streams parts → streams !! id = Some st →
  st'.(stream_partitions) = st.(stream_partitions) →
  parts_match (<[id := st']> streams) parts.
Proof.
  intros P S E i p. unfold parts_match in P. rewrite P. split.
  - intros (x & X & L). destruct (decide (id = i)) as [<-|D].
    + exists st'. rewrite lookup_insert_eq. split; [done|]. rewrite E. congruence.
    + exists x. by rewrite lookup_insert_ne.
  - intros (x & X & L). apply lookup_insert_Some in X as [[<- <-]|[_ X]].
    + exists st. split; [done|]. congruence.
    + by exists x.
Qed.
