(* ===== verification/MetaFrames.v ===== *)
(** * What the helpers of the handlers leave alone

    Each helper changes a few fields of the state; its frame lemma writes its result as
    assignments to those fields, so that an invariant that does not read them is kept by
    computation.  [ensures] and [outcome_cases] go through the branches of a handler. *)

From Stdlib Require Import NArith Lia.
From stdpp Require Import prelude gmap strings numbers list.
From S2P Require Import Prelude.
From S2P Require Import BTree.
From S2P Require Import Ids.
From S2P Require Import Schema.
From S2P Require Import MetaTypes.
From S2P Require Import MetaState.
From S2P Require Import MetaLeases.
From S2P Require Import MetaLog.
From S2P Require Import MetaCatalog.
From S2P Require Import MetaCollections.
From S2P Require Import MetaApply.

Open Scope N_scope.

(** ** Going through a handler *)

(** [Q] holds of the state and the result a handler leaves. *)
Definition ensures (Q : MetaState → Result Reply ApplyError → Prop) (o : Outcome) : Prop :=
  Q o.1 o.2.

(** Splits the handler's guards from the outside, down to the [(state, result)] leaves. *)
Ltac outcome_cases :=
  cbv beta zeta;
  lazymatch goal with
  | |- ensures ?Q (match ?x with _ => _ end) => destruct x eqn:?; outcome_cases
  | |- ensures ?Q (?s, ?r) => change (Q s r); cbv beta
  | |- _ => idtac
  end.

(** A property of the state a handler leaves. *)
Ltac state_cases :=
  lazymatch goal with
  | |- ?P (fst ?o) => change (ensures (λ s _, P s) o); outcome_cases
  end.

(** Reads a field through assignments. *)
Ltac read_fields :=
  cbn [clock_ms last_namespace_id last_stream_id namespaces namespace_names streams stream_names
       partitions wal_commits wal_live_chunks retired leases pointers last_link_id links
       link_names last_collection_id collections collection_names aliases collection_hot
       alias_targets idempotency set_clock_ms set_last_namespace_id set_last_stream_id
       set_namespaces set_namespace_names set_streams set_stream_names set_partitions
       set_wal_commits set_wal_live_chunks set_retired set_leases set_pointers set_last_link_id
       set_links set_link_names set_last_collection_id set_collections set_collection_names
       set_aliases set_collection_hot set_alias_targets set_idempotency].

(** ** Aliases *)

Lemma put_alias_frame s ns alias ms :
  ∃ a t, put_alias s ns alias ms = set_alias_targets (set_aliases s a) t.
Proof.
  unfold put_alias. cbv zeta.
  destruct (btree_iter ms) as [|[id [w|]] [|]]; do 2 eexists; reflexivity.
Qed.

(** Assignments to the alias maps absorb each other. *)
Lemma aliases_foldl {A} (f : MetaState → A → MetaState) (l : list A) s :
  (∀ s x, ∃ a t, f s x = set_alias_targets (set_aliases s a) t) →
  ∃ a t, foldl f s l = set_alias_targets (set_aliases s a) t.
Proof.
  intros F. revert s. induction l as [|x l IH]; intros s; cbn.
  - exists (aliases s), (alias_targets s). by destruct s.
  - destruct (F s x) as (a & t & ->). destruct (IH (set_alias_targets (set_aliases s a) t))
      as (a' & t' & ->). by exists a', t'.
Qed.

Lemma leave_aliases_frame s id :
  ∃ a t, leave_aliases s id = set_alias_targets (set_aliases s a) t.
Proof.
  unfold leave_aliases. apply aliases_foldl. intros s' [ns alias]. apply put_alias_frame.
Qed.

Lemma alias_changes_frame s ns (changes : list (string * option CollectionId)) :
  ∃ a t, foldl (apply_alias_change ns) s changes = set_alias_targets (set_aliases s a) t.
Proof.
  apply aliases_foldl. intros s' [alias [id|]]; cbn; do 2 eexists; reflexivity.
Qed.

Lemma put_aliases_frame s ns (w : list (string * gmap CollectionId (option bool))) :
  ∃ a t, foldl (λ s '(alias, ms), put_alias s ns alias ms) s w
         = set_alias_targets (set_aliases s a) t.
Proof. apply aliases_foldl. intros s' [alias ms]. apply put_alias_frame. Qed.

(** ** The ledger *)

Lemma claim_loop_frame s st who now until_ms keys :
  ∃ i, (claim_loop s st who now until_ms keys).1 = set_idempotency s i.
Proof.
  revert s. induction keys as [|key keys IH]; intros s.
  - exists (idempotency s). by destruct s.
  - cbn [claim_loop]. cbv zeta. case_bool_decide; [|].
    + destruct (IH (set_idempotency s (<[(st, key):=Pending who until_ms]> (idempotency s))))
        as [i E]. exists i. destruct (claim_loop _ _ _ _ _ _) as [s' l]. exact E.
    + destruct (IH s) as [i E]. exists i. destruct (claim_loop _ _ _ _ _ _) as [s' l]. exact E.
Qed.

Lemma complete_loop_frame s st who until_ms done :
  ∃ i, complete_loop s st who until_ms done = set_idempotency s i.
Proof.
  revert s. induction done as [|[[key p] o] done IH]; intros s.
  - exists (idempotency s). by destruct s.
  - cbn [complete_loop]. cbv zeta. destruct (pending_under _ _); [|apply IH].
    destruct (IH (set_idempotency s (<[(st, key):=Done p o until_ms]> (idempotency s))))
      as [i E]. exists i. exact E.
Qed.

Lemma release_loop_frame s st who keys :
  ∃ i, release_loop s st who keys = set_idempotency s i.
Proof.
  revert s. induction keys as [|key keys IH]; intros s.
  - exists (idempotency s). by destruct s.
  - cbn [release_loop]. cbv zeta. destruct (pending_under _ _); [|apply IH].
    destruct (IH (set_idempotency s (delete (st, key) (idempotency s)))) as [i E].
    exists i. exact E.
Qed.

(** ** The log *)

Lemma append_chunks_frame s obj chunks acc :
  ∃ p, (append_chunks s obj chunks acc).1 = set_partitions s p.
Proof.
  revert s acc. induction chunks as [|c chunks IH]; intros s acc; cbn.
  - exists (partitions s). by destruct s.
  - destruct (partitions s !! _) as [ps|]; [|exists (partitions s); by destruct s].
    edestruct IH as [p ->]. by exists p.
Qed.

Lemma release_entries_frame s removed :
  ∃ l r, release_entries s removed = set_retired (set_wal_live_chunks s l) r.
Proof.
  revert s. induction removed as [|e removed IH]; intros s.
  - exists (wal_live_chunks s), (retired s). by destruct s.
  - change (release_entries s (e :: removed)) with (release_entries (release_entry s e) removed).
    assert (∃ l r, release_entry s e = set_retired (set_wal_live_chunks s l) r) as (l & r & ->).
    { unfold release_entry. destruct (entry_kind e).
      - destruct (wal_live_chunks s !! object e); cbv zeta; [|by do 2 eexists].
        destruct (_ =? 0); [by do 2 eexists|].
        exists (<[object e:=u64_saturating_sub n 1]> (wal_live_chunks s)), (retired s). done.
      - exists (wal_live_chunks s), (<[object e:=clock_ms s]> (retired s)). by destruct s. }
    destruct (IH (set_retired (set_wal_live_chunks s l) r)) as (l' & r' & ->). by exists l', r'.
Qed.

Lemma remove_partitions_frame s id p n :
  ∃ m l r, remove_partitions s id p n
           = set_retired (set_wal_live_chunks (set_partitions s m) l) r.
Proof.
  revert s p. induction n as [|n IH]; intros s p; cbn [remove_partitions].
  - exists (partitions s), (wal_live_chunks s), (retired s). by destruct s.
  - destruct (partitions s !! (id, p)) as [ps|]; [|apply IH]. cbv zeta.
    destruct (release_entries_frame (set_partitions s (delete (id, p) (partitions s)))
                (btree_values (index ps))) as (l & r & ->).
    edestruct IH as (m' & l' & r' & ->). by exists m', l', r'.
Qed.

Lemma remove_stream_frame s id :
  ∃ st nm i m l r, remove_stream s id =
    set_retired (set_wal_live_chunks (set_partitions
      (set_idempotency (set_stream_names (set_streams s st) nm) i) m) l) r.
Proof.
  unfold remove_stream. destruct (streams s !! id) as [st|].
  - cbv zeta. edestruct remove_partitions_frame as (m & l & r & ->).
    unfold drop_stream_idempotency. by do 6 eexists.
  - exists (streams s), (stream_names s), (idempotency s), (partitions s), (wal_live_chunks s),
      (retired s). by destruct s.
Qed.

Lemma remove_link_frame s id :
  ∃ l n, remove_link s id = set_link_names (set_links s l) n.
Proof.
  unfold remove_link. destruct (links s !! id) as [l|].
  - by do 2 eexists.
  - exists (links s), (link_names s). by destruct s.
Qed.

(** ** Creating and removing the partitions of a stream *)

Lemma insert_partitions_lookup m id n k :
  insert_partitions m id n !! k =
    if decide (k.1 = id ∧ k.2 < N.of_nat n) then Some PartitionState_default else m !! k.
Proof.
  induction n as [|n IH]; cbn [insert_partitions].
  - rewrite decide_False; [done|]. lia.
  - destruct (decide (k = (id, N.of_nat n))) as [->|D].
    + rewrite lookup_insert_eq, decide_True; [done|]. cbn. lia.
    + rewrite lookup_insert_ne, IH by done. destruct k as [i q]. cbn.
      apply decide_ext. split; [intros [-> ?]; split; [done|lia]|].
      intros [-> ?]. split; [done|]. assert (q ≠ N.of_nat n) by congruence. lia.
Qed.

Lemma remove_partitions_lookup s id p n k :
  (remove_partitions s id p n).(partitions) !! k =
    if decide (k.1 = id ∧ p <= k.2 < p + N.of_nat n) then None else s.(partitions) !! k.
Proof.
  revert s p. induction n as [|n IH]; intros s p; cbn [remove_partitions].
  - rewrite decide_False; [done|]. lia.
  - destruct (decide (k = (id, p))) as [->|D].
    + rewrite (decide_True (P := _ ∧ _)) by (cbn; lia).
      destruct (partitions s !! (id, p)) as [ps|] eqn:E; cbv zeta; rewrite IH.
      * rewrite decide_False by (cbn; lia).
        destruct (release_entries_frame (set_partitions s (delete (id, p) (partitions s)))
                    (btree_values (index ps))) as (l & r & ->). cbn. apply lookup_delete_eq.
      * by rewrite decide_False by (cbn; lia).
    + assert ((k.1 = id ∧ p + 1 <= k.2 < p + 1 + N.of_nat n)
              ↔ (k.1 = id ∧ p <= k.2 < p + N.of_nat (S n))) as Q.
      { destruct k as [i q]. cbn. split; [intros [-> ?]; split; [done|lia]|].
        intros [-> ?]. split; [done|]. assert (q ≠ p) by congruence. lia. }
      rewrite <- (decide_ext _ _ _ _ Q).
      destruct (partitions s !! (id, p)) as [ps|] eqn:E; cbv zeta; rewrite IH; [|done].
      destruct (release_entries_frame (set_partitions s (delete (id, p) (partitions s)))
                  (btree_values (index ps))) as (l & r & ->). cbn.
      by rewrite lookup_delete_ne.
Qed.

(** What removing a stream leaves. *)
Lemma remove_stream_spec s id st :
  s.(streams) !! id = Some st →
  ∃ m l r, remove_stream s id =
    set_retired (set_wal_live_chunks (set_partitions
      (set_idempotency (set_stream_names (set_streams s (delete id s.(streams)))
         (delete (st.(stream_namespace), st.(stream_name)) s.(stream_names)))
         (filter (λ e, e.1.1 ≠ id) s.(idempotency))) m) l) r
    ∧ ∀ k, m !! k = if decide (k.1 = id ∧ k.2 < st.(stream_partitions)) then None
                    else s.(partitions) !! k.
Proof.
  intros S. unfold remove_stream. rewrite S. cbv zeta.
  match goal with |- context [remove_partitions ?s1 id 0 ?n] =>
    destruct (remove_partitions_frame s1 id 0 n) as (m & l & r & E);
    pose proof (remove_partitions_lookup s1 id 0 n) as K; rewrite E in K |- * end.
  exists m, l, r. split; [done|]. intros k. cbn in K. rewrite K.
  apply decide_ext. rewrite N2Nat.id. split; intros [? ?]; split; [done|lia|done|lia].
Qed.

Lemma insert_stream_frame s ns name n class r :
  ∃ i ps names sts, (insert_stream s ns name n class r).1
  = set_streams (set_stream_names (set_partitions (set_last_stream_id s i) ps) names) sts.
Proof. do 4 eexists. reflexivity. Qed.

Lemma insert_link_frame s ns name source target options :
  ∃ i names ls, (insert_link s ns name source target options).1
  = set_links (set_link_names (set_last_link_id s i) names) ls.
Proof. do 3 eexists. reflexivity. Qed.

(** Rewrites the helpers in the goal by their frames. *)
Ltac frames :=
  repeat match goal with
  | |- context [foldl (apply_alias_change ?ns) ?s ?l] =>
      destruct (alias_changes_frame s ns l) as (? & ? & ->)
  | |- context [foldl (λ s '(alias, ms), put_alias s ?ns alias ms) ?s ?l] =>
      destruct (put_aliases_frame s ns l) as (? & ? & ->)
  | |- context [leave_aliases ?s ?i] => destruct (leave_aliases_frame s i) as (? & ? & ->)
  | |- context [complete_loop ?s ?a ?b ?c ?d] =>
      destruct (complete_loop_frame s a b c d) as (? & ->)
  | |- context [release_loop ?s ?a ?b ?c] => destruct (release_loop_frame s a b c) as (? & ->)
  | E : claim_loop ?s ?a ?b ?c ?d ?e = (?m, _) |- _ =>
      let F := fresh in
      destruct (claim_loop_frame s a b c d e) as (? & F); rewrite E in F; cbn in F; subst m;
      clear E
  | |- context [remove_link ?s ?i] => destruct (remove_link_frame s i) as (? & ? & ->)
  | |- context [release_entries ?s ?r] => destruct (release_entries_frame s r) as (? & ? & ->)
  | |- context [if hot_any ?h then _ else _] => destruct (hot_any h)
  | E : append_chunks ?s ?a ?b ?c = (?m, _) |- _ =>
      let F := fresh in
      destruct (append_chunks_frame s a b c) as (? & F); rewrite E in F; cbn in F; subst m;
      clear E
  | E : insert_stream ?s ?a ?b ?c ?d ?e = (?m, _) |- _ =>
      let F := fresh in
      destruct (insert_stream_frame s a b c d e) as (? & ? & ? & ? & F); rewrite E in F;
      cbn [fst] in F; subst m; clear E
  | E : insert_link ?s ?a ?b ?c ?d ?e = (?m, _) |- _ =>
      let F := fresh in
      destruct (insert_link_frame s a b c d e) as (? & ? & ? & F); rewrite E in F;
      cbn [fst] in F; subst m; clear E
  end.

(** The fields no drop touches. *)
Record drop_kept (now : N) (s s' : MetaState) : Prop := {
  dk_clock : s'.(clock_ms) = N.max s.(clock_ms) now;
  dk_lns : s'.(last_namespace_id) = s.(last_namespace_id);
  dk_lst : s'.(last_stream_id) = s.(last_stream_id);
  dk_lli : s'.(last_link_id) = s.(last_link_id);
  dk_lco : s'.(last_collection_id) = s.(last_collection_id);
  dk_namespaces : s'.(namespaces) = s.(namespaces);
  dk_names : s'.(namespace_names) = s.(namespace_names);
  dk_commits : s'.(wal_commits) = s.(wal_commits);
  dk_leases : s'.(leases) = s.(leases);
}.

Lemma drop_kept_retired now s s1 v : drop_kept now s s1 → drop_kept now s (set_retired s1 v).
Proof. intros [? ? ? ? ? ? ? ? ?]. by split. Qed.

Lemma drop_kept_pointers now s s1 v : drop_kept now s s1 → drop_kept now s (set_pointers s1 v).
Proof. intros [? ? ? ? ? ? ? ? ?]. by split. Qed.

Lemma drop_kept_hot now s s1 v : drop_kept now s s1 → drop_kept now s (set_collection_hot s1 v).
Proof. intros [? ? ? ? ? ? ? ? ?]. by split. Qed.

Lemma drop_kept_link now s s1 i : drop_kept now s s1 → drop_kept now s (remove_link s1 i).
Proof. intros [? ? ? ? ? ? ? ? ?]. destruct (remove_link_frame s1 i) as (? & ? & ->). by split. Qed.

Lemma drop_kept_stream now s s1 i : drop_kept now s s1 → drop_kept now s (remove_stream s1 i).
Proof.
  intros [? ? ? ? ? ? ? ? ?].
  destruct (remove_stream_frame s1 i) as (? & ? & ? & ? & ? & ? & ->). by split.
Qed.

Lemma drop_kept_aliases now s s1 i : drop_kept now s s1 → drop_kept now s (leave_aliases s1 i).
Proof.
  intros [? ? ? ? ? ? ? ? ?]. destruct (leave_aliases_frame s1 i) as (? & ? & ->). by split.
Qed.

(** Dropping a collection touches neither leases, nor commit records, nor namespaces, nor the
    id counters. *)
Lemma drop_collection_frame s ns name now : drop_kept now s (drop_collection s ns name now).1.
Proof.
  unfold drop_collection. state_cases; [|by split|by split].
  apply drop_kept_retired, drop_kept_pointers, drop_kept_link, drop_kept_stream, drop_kept_hot,
    drop_kept_aliases.
  by split.
Qed.

(** Opens the handlers that do not touch the log, the catalog of streams or the links. *)
Ltac unfold_plain :=
  unfold create_namespace, set_retention, acquire_lease, renew_lease, reacquire_lease,
    release_lease, extend_lease, cas_pointer, update_collection_schema, update_aliases, set_hot,
    update_alias_targets, claim_idempotency_keys, complete_idempotency_keys,
    release_idempotency_keys, prune_idempotency_keys.

(** Opens every handler except [drop_collection]. *)
Ltac unfold_handlers :=
  unfold_plain;
  unfold create_stream, create_link, commit_wal, swap_segment, trim_partition,
    prune_wal_commits, forget_objects, create_collection.

(** Goes through a handler that leaves alone what [R] is about. *)
Ltac kept R :=
  cbn [apply];
  lazymatch goal with
  | |- context [drop_collection] => fail
  | |- _ => solve [unfold_handlers; state_cases; frames; exact R]
  end.
