(* ===== verification/MetaCatalogInv.v ===== *)
(** * The catalog invariant is kept by every command

    The tables of namespaces, streams, links and collections agree with their name indexes
    and id counters, collections are backed by their implicit stream and link, the
    partitions are those of the streams, and ledger entries belong to streams. *)

From Stdlib Require Import NArith Lia Ascii.
From stdpp Require Import prelude gmap strings numbers list.
From S2P Require Import Prelude.
From S2P Require Import BTree.
From S2P Require Import Ids.
From S2P Require Import Schema.
From S2P Require Import MetaTypes.
From S2P Require Import MetaState.
From S2P Require Import MetaLeases.
From S2P Require Import MetaLog.
From S2P Require Import MetaCatalog.
From S2P Require Import MetaCollections.
From S2P Require Import MetaApply.
From S2P Require Import CatalogInv.
From S2P Require Import MetaFrames.

Open Scope N_scope.

Record catalog_inv (W lns lst lli lco : N)
    (namespaces : gmap NamespaceId Namespace) (ns_names : gmap string NamespaceId)
    (streams : gmap StreamId Stream) (st_names : gmap (NamespaceId * string) StreamId)
    (links : gmap LinkId Link) (li_names : gmap (NamespaceId * string) LinkId)
    (collections : gmap CollectionId Collection)
    (co_names : gmap (NamespaceId * string) CollectionId)
    (parts : gmap (StreamId * N) PartitionState)
    (ledger : gmap (StreamId * IdempotencyKey) IdempotencyEntry) : Prop := {
  ca_namespaces : table_inv lns namespaces ns_names;
  ca_streams : table_inv lst streams st_names;
  ca_links : table_inv lli links li_names;
  ca_collections : table_inv lco collections co_names;
  ca_lns : lns <= W;
  ca_lst : lst <= W;
  ca_lli : lli <= W;
  ca_lco : lco <= W;
  ca_backed : backed_inv streams links collections;
  ca_parts : parts_match streams parts;
  ca_ledger : ledger_ok streams ledger;
}.

Definition catalog_ok (W : N) (s : MetaState) : Prop :=
  catalog_inv W s.(last_namespace_id) s.(last_stream_id) s.(last_link_id) s.(last_collection_id)
    s.(namespaces) s.(namespace_names) s.(streams) s.(stream_names) s.(links) s.(link_names)
    s.(collections) s.(collection_names) s.(partitions) s.(idempotency).

Lemma catalog_mono W W' a b c d n nn s sn l ln co cn p i :
  W <= W' → catalog_inv W a b c d n nn s sn l ln co cn p i →
  catalog_inv W' a b c d n nn s sn l ln co cn p i.
Proof. intros L [? ? ? ? ? ? ? ? ? ? ?]. split; try done; lia. Qed.

Lemma catalog_default : catalog_ok 0 MetaState_default.
Proof.
  split; try done; cbn; try apply table_empty; try apply backed_empty.
  intros id p. rewrite lookup_empty. split; [by intros [? ?]|].
  intros (st & S & _). by rewrite lookup_empty in S.
Qed.

(** ** Only the domain of the partitions matters *)

Lemma catalog_parts W a b c d n nn s sn l ln co cn p p' i :
  (∀ k, is_Some (p' !! k) ↔ is_Some (p !! k)) →
  catalog_inv W a b c d n nn s sn l ln co cn p i →
  catalog_inv W a b c d n nn s sn l ln co cn p' i.
Proof. intros D [? ? ? ? ? ? ? ? ? P ?]. split; try done. by eapply parts_match_dom. Qed.

Lemma append_chunks_dom s obj chunks acc k :
  is_Some ((append_chunks s obj chunks acc).1.(partitions) !! k) ↔ is_Some (s.(partitions) !! k).
Proof.
  revert s acc. induction chunks as [|c chunks IH]; intros s acc; cbn; [done|].
  destruct (partitions s !! (chunk_stream c, chunk_partition c)) as [ps|] eqn:E; [|done].
  rewrite IH. cbn. rewrite lookup_insert_is_Some'. split; [|by right].
  intros [<-|?]; [by eexists|done].
Qed.

Lemma set_partition_dom s st p ps ps' k :
  s.(partitions) !! (st, p) = Some ps →
  is_Some ((set_partition s st p ps').(partitions) !! k) ↔ is_Some (s.(partitions) !! k).
Proof.
  intros E. cbn. rewrite lookup_insert_is_Some'. split; [|by right].
  intros [<-|?]; [by eexists|done].
Qed.

Lemma commit_wal_catalog W s obj created chunks :
  catalog_ok W s → catalog_ok W (commit_wal s obj created chunks).1.
Proof.
  intros C. unfold commit_wal.
  destruct (append_chunks s obj chunks []) as [m r] eqn:E.
  destruct (append_chunks_frame s obj chunks []) as [parts F]. rewrite E in F. cbn in F. subst m.
  assert (catalog_ok W (set_partitions s parts)) as C'.
  { eapply catalog_parts, C. intros k. cbn. pose proof (append_chunks_dom s obj chunks [] k) as D.
    by rewrite E in D. }
  state_cases; first [exact C|exact C'].
Qed.

Lemma release_entries_catalog W s removed :
  catalog_ok W s → catalog_ok W (release_entries s removed).
Proof.
  intros C. destruct (release_entries_frame s removed) as (l & r & ->). exact C.
Qed.

Lemma set_partition_catalog W s st p ps ps' :
  s.(partitions) !! (st, p) = Some ps → catalog_ok W s →
  catalog_ok W (set_partition s st p ps').
Proof. intros E C. eapply catalog_parts, C. intros k. by eapply set_partition_dom. Qed.

Lemma swap_segment_catalog W s st p replaces segment range ts fence now fresh :
  catalog_ok W s →
  catalog_ok W (swap_segment s st p replaces segment range ts fence now fresh).1.
Proof.
  intros C. unfold swap_segment.
  destruct (partition_state s st p) as [ps|] eqn:Ps; [|state_cases; exact C].
  apply partition_state_Ok in Ps. erewrite partition_state_mut_Ok by exact Ps.
  state_cases; try exact C.
  apply release_entries_catalog. by eapply set_partition_catalog.
Qed.

Lemma trim_partition_catalog W s st p before fence now :
  catalog_ok W s → catalog_ok W (trim_partition s st p before fence now).1.
Proof.
  intros C. unfold trim_partition.
  destruct (partition_state s st p) as [ps|] eqn:Ps; [|state_cases; exact C].
  apply partition_state_Ok in Ps. erewrite partition_state_mut_Ok by exact Ps.
  state_cases; try exact C.
  apply release_entries_catalog. by eapply set_partition_catalog.
Qed.

(** ** New ids *)

Lemma next_id last W : last <= W → W < u64_MAX → u64_add last 1 = last + 1.
Proof. intros. apply u64_add_small. lia. Qed.

Lemma refuse_reserved_Ok name u : refuse_reserved name = Ok u → reserved name = false.
Proof. unfold refuse_reserved, reserved. by destruct (starts_with_char _ name). Qed.

Lemma check_link_source_Ok s ns source u :
  check_link_source s ns source = Ok u →
  ∃ st, s.(streams) !! source = Some st ∧ st.(stream_namespace) = ns
    ∧ reserved st.(stream_name) = false.
Proof.
  unfold check_link_source, reserved. intros E.
  destruct (streams s !! source) as [st|]; [|done].
  destruct (stream_namespace st =? ns) eqn:N; [|done].
  destruct (starts_with_char _ (stream_name st)) eqn:R; [done|]. bools. by exists st.
Qed.

Lemma create_namespace_catalog W s name :
  catalog_ok W s → W < u64_MAX → catalog_ok (W + 1) (create_namespace s name).1.
Proof.
  intros C B. assert (catalog_ok (W + 1) s) as C' by (eapply catalog_mono, C; lia).
  unfold create_namespace. state_cases; try exact C'.
  destruct C' as [N S L Co Ln Ls Ll Lc Bk P Lg]. destruct C as [_ _ _ _ Ln' _ _ _ _ _ _].
  pose proof (next_id _ _ Ln' B) as I. split; try done; cbn; [|lia].
  apply (table_insert _ _ _ {| namespace_id := u64_add (last_namespace_id s) 1;
                               namespace_name := name |} N); cbn; [lia|done].
Qed.

Lemma parts_match_add streams parts id st :
  parts_match streams parts → streams !! id = None →
  parts_match (<[id := st]> streams) (insert_partitions parts id (N.to_nat st.(stream_partitions))).
Proof.
  intros P F i p. rewrite insert_partitions_lookup, N2Nat.id. cbn. case_decide as D.
  - destruct D as [-> D]. split; [intros _|by eexists].
    exists st. by rewrite lookup_insert_eq.
  - unfold parts_match in P. rewrite P. split.
    + intros (x & X & L). exists x. split; [|done]. rewrite lookup_insert_ne; [done|]. congruence.
    + intros (x & X & L). apply lookup_insert_Some in X as [[<- <-]|[_ X]]; [|by exists x].
      by destruct D.
Qed.

Lemma ledger_add streams ledger id st :
  ledger_ok streams ledger → ledger_ok (<[id := st]> streams) ledger.
Proof.
  intros L i key e I. rewrite lookup_insert_is_Some'. right. by eapply L.
Qed.

Lemma create_stream_catalog W s ns name n class retention :
  catalog_ok W s → W < u64_MAX →
  catalog_ok (W + 1) (create_stream s ns name n class retention).1.
Proof.
  intros C B. assert (catalog_ok (W + 1) s) as C' by (eapply catalog_mono, C; lia).
  unfold create_stream. state_cases; try exact C'.
  destruct C' as [N S L Co Ln Ls Ll Lc Bk P Lg]. destruct C as [_ _ _ _ _ Ls' _ _ _ _ _].
  pose proof (next_id _ _ Ls' B) as I. unfold insert_stream in *. simplify_eq.
  assert (streams s !! u64_add (last_stream_id s) 1 = None) as F
    by (eapply table_fresh; [done|lia]).
  set (st := {| stream_id := u64_add (last_stream_id s) 1; stream_namespace := ns;
                stream_name := name; stream_partitions := n; stream_class := class;
                stream_retention := retention |}) in *.
  split; try done; cbn; [|lia| | |].
  - apply (table_insert _ _ _ st S); cbn; [lia|done].
  - apply backed_add_stream; [done|done|]. by eapply refuse_reserved_Ok.
  - by apply (parts_match_add _ _ _ st).
  - by apply ledger_add.
Qed.

Lemma create_link_catalog W s ns name source target options :
  catalog_ok W s → W < u64_MAX →
  catalog_ok (W + 1) (create_link s ns name source target options).1.
Proof.
  intros C B. assert (catalog_ok (W + 1) s) as C' by (eapply catalog_mono, C; lia).
  unfold create_link. state_cases; try exact C'.
  destruct C' as [N S L Co Ln Ls Ll Lc Bk P Lg]. destruct C as [_ _ _ _ _ _ Ll' _ _ _ _].
  pose proof (next_id _ _ Ll' B) as I. unfold insert_link in *. simplify_eq.
  assert (links s !! u64_add (last_link_id s) 1 = None) as F by (eapply table_fresh; [done|lia]).
  set (l := {| link_id := u64_add (last_link_id s) 1; link_namespace := ns; link_name := name;
               link_source := source; link_target := target; link_options := options |}) in *.
  match goal with E : check_link_source _ _ _ = _ |- _ =>
    apply check_link_source_Ok in E as (st & Src & Ns & Rs) end.
  split; try done; cbn; [|lia|].
  - apply (table_insert _ _ _ l L); cbn; [lia|done].
  - eapply backed_add_link; try done. by eapply refuse_reserved_Ok.
Qed.

Lemma set_retention_catalog W s st retention :
  catalog_ok W s → catalog_ok W (set_retention s st retention).1.
Proof.
  intros C. unfold set_retention. state_cases; try exact C.
  destruct C as [N S L Co Ln Ls Ll Lc Bk P Lg]. split; try done; cbn.
  - by eapply table_update.
  - by eapply backed_update_stream.
  - by eapply parts_match_update.
  - by apply ledger_add.
Qed.

Lemma update_collection_schema_catalog W s id v schema :
  catalog_ok W s → catalog_ok W (update_collection_schema s id v schema).1.
Proof.
  intros C. unfold update_collection_schema. state_cases; try exact C.
  destruct C as [N S L Co Ln Ls Ll Lc Bk P Lg]. split; try done; cbn.
  - by eapply table_update.
  - eapply backed_update_collection; try done; intros x [? ? ? ? ?]; by split.
Qed.

(** ** Collections *)

(** No stream or link has the implicit name of an id not yet handed out. *)
Section fresh_names.
Context (W : N) (s : MetaState).
Hypothesis C : catalog_ok W s.
Hypothesis B : W < u64_MAX.

Lemma collection_ids id c :
  s.(collections) !! id = Some c → c.(collection_id) = id ∧ id <= u64_MAX.
Proof.
  intros X. destruct (ti_item _ _ _ (ca_collections _ _ _ _ _ _ _ _ _ _ _ _ _ _ _ C) _ _ X)
    as (? & ? & _). split; [done|]. pose proof (ca_lco _ _ _ _ _ _ _ _ _ _ _ _ _ _ _ C). lia.
Qed.

Lemma implicit_not_next cid c name :
  s.(collections) !! cid = Some c →
  implicit_name name (u64_add s.(last_collection_id) 1)
    ≠ implicit_name c.(collection_name) c.(collection_id).
Proof.
  intros X E. pose proof C as [_ _ _ Co _ _ _ Lc _ _ _].
  destruct (collection_ids _ _ X) as [Ei Bi]. pose proof (ti_item _ _ _ Co _ _ X) as (_ & Le & _).
  rewrite (next_id _ _ Lc B) in E. apply implicit_name_inj in E as [_ E]; lia.
Qed.

Lemma implicit_stream_fresh ns name :
  s.(stream_names) !! (ns, implicit_name name (u64_add s.(last_collection_id) 1)) = None.
Proof.
  pose proof C as [_ S _ Co _ _ _ _ Bk _ _].
  destruct (stream_names s !! _) as [id|] eqn:E; [exfalso|done].
  apply (ti_name _ _ _ S) in E as (st & St & N). cbn in N. injection N as _ N.
  destruct (bi_stream_owner _ _ _ Bk _ _ St) as (cid & c & X & Q).
  { rewrite N. apply implicit_reserved. }
  destruct (bi_stream _ _ _ Bk _ _ X) as (st' & St' & Sb).
  rewrite Q, St in St'. injection St' as <-.
  eapply implicit_not_next; [exact X|]. rewrite <- N. apply Sb.
Qed.

Lemma implicit_link_fresh ns name :
  s.(link_names) !! (ns, implicit_name name (u64_add s.(last_collection_id) 1)) = None.
Proof.
  pose proof C as [_ _ L Co _ _ _ _ Bk _ _].
  destruct (link_names s !! _) as [id|] eqn:E; [exfalso|done].
  apply (ti_name _ _ _ L) in E as (l & Li & N). cbn in N. injection N as _ N.
  destruct (bi_link_owner _ _ _ Bk _ _ Li) as (cid & c & X & Q).
  { rewrite N. apply implicit_reserved. }
  destruct (bi_link _ _ _ Bk _ _ X) as (l' & Li' & Lb).
  rewrite Q, Li in Li'. injection Li' as <-.
  eapply implicit_not_next; [exact X|]. rewrite <- N. apply Lb.
Qed.

(** The name of a collection that passed the checks is free. *)
Lemma check_create_fresh ns name schema n u :
  check_create_collection s ns name schema n = Ok u →
  s.(collection_names) !! (ns, name) = None
  ∧ s.(aliases) !! (ns, name) = None ∧ s.(alias_targets) !! (ns, name) = None.
Proof.
  unfold check_create_collection. intros E.
  pose proof C as [_ _ _ Co _ _ _ _ _ _ _]. inv_outcome E; bools; split_and!; try done.
  match goal with N : collection_names s !! _ = Some _ |- _ =>
    apply (ti_name _ _ _ Co) in N as (c & X & _) end. congruence.
Qed.
End fresh_names.

Lemma create_collection_catalog W s ns name schema n :
  catalog_ok W s → W < u64_MAX →
  catalog_ok (W + 1) (create_collection s ns name schema n).1.
Proof.
  intros C B. assert (catalog_ok (W + 1) s) as C' by (eapply catalog_mono, C; lia).
  unfold create_collection. state_cases; try exact C'.
  match goal with E : check_create_collection _ _ _ _ _ = _ |- _ =>
    destruct (check_create_fresh W s C _ _ _ _ _ E) as (Fn & _ & _) end.
  pose proof (implicit_stream_fresh W s C B ns name) as Fs.
  pose proof (implicit_link_fresh W s C B ns name) as Fl.
  destruct C' as [N S L Co Ln Ls Ll Lc Bk P Lg].
  destruct C as [_ _ _ _ _ Ls' Ll' Lc' _ _ _].
  pose proof (next_id _ _ Ls' B) as Is. pose proof (next_id _ _ Ll' B) as Il.
  pose proof (next_id _ _ Lc' B) as Ic.
  unfold insert_stream, insert_link in *. simplify_eq.
  set (id := u64_add (last_collection_id s) 1) in *.
  set (sid := u64_add (last_stream_id s) 1) in *. set (lid := u64_add (last_link_id s) 1) in *.
  set (st := {| stream_id := sid; stream_namespace := ns; stream_name := implicit_name name id;
                stream_partitions := n; stream_class := Standard;
                stream_retention := Retention_default |}).
  set (l := {| link_id := lid; link_namespace := ns; link_name := implicit_name name id;
               link_source := sid;
               link_target := {| target_kind := COLLECTION_KIND; target_name := name |};
               link_options := ∅ |}).
  set (c := {| collection_id := id; collection_namespace := ns; collection_name := name;
               collection_schema := schema; collection_partitions := n;
               collection_stream := sid; collection_link := lid |}).
  assert (streams s !! sid = None) as Es by (eapply table_fresh; [done|lia]).
  assert (links s !! lid = None) as El by (eapply table_fresh; [done|lia]).
  assert (collections s !! id = None) as Ec by (eapply table_fresh; [done|lia]).
  split; try done; cbn; [| | |lia|lia|lia| | |].
  - apply (table_insert _ _ _ st S); cbn; [lia|done].
  - apply (table_insert _ _ _ l L); cbn; [lia|done].
  - apply (table_insert _ _ _ c Co); cbn; [lia|done].
  - by apply (backed_create _ _ _ Bk id c sid st lid l).
  - by apply (parts_match_add _ _ _ st).
  - by apply ledger_add.
Qed.

(** What dropping a collection leaves. *)
Lemma drop_collection_spec s ns name now id c st l :
  s.(collection_names) !! (ns, name) = Some id → s.(collections) !! id = Some c →
  s.(streams) !! c.(collection_stream) = Some st → s.(links) !! c.(collection_link) = Some l →
  ∃ s', drop_collection s ns name now = (s', Ok (CollectionDropped (Some id)))
    ∧ s'.(collections) = delete id s.(collections)
    ∧ s'.(collection_names) = delete (ns, name) s.(collection_names)
    ∧ s'.(streams) = delete c.(collection_stream) s.(streams)
    ∧ s'.(stream_names) = delete (st.(stream_namespace), st.(stream_name)) s.(stream_names)
    ∧ s'.(links) = delete c.(collection_link) s.(links)
    ∧ s'.(link_names) = delete (l.(link_namespace), l.(link_name)) s.(link_names)
    ∧ s'.(idempotency) = filter (λ e, e.1.1 ≠ c.(collection_stream)) s.(idempotency)
    ∧ (∀ k, s'.(partitions) !! k =
         if decide (k.1 = c.(collection_stream) ∧ k.2 < st.(stream_partitions)) then None
         else s.(partitions) !! k)
    ∧ s'.(pointers) = delete (ns, collection_pointer_key id) s.(pointers)
    ∧ s'.(collection_hot) = delete id s.(collection_hot)
    ∧ (∃ s1, s1.(aliases) = filter (λ e, e.2 ≠ id) s.(aliases)
         ∧ s1.(alias_targets) = s.(alias_targets)
         ∧ s'.(aliases) = (leave_aliases s1 id).(aliases)
         ∧ s'.(alias_targets) = (leave_aliases s1 id).(alias_targets))
    ∧ s'.(namespaces) = s.(namespaces) ∧ s'.(namespace_names) = s.(namespace_names)
    ∧ s'.(last_namespace_id) = s.(last_namespace_id) ∧ s'.(last_stream_id) = s.(last_stream_id)
    ∧ s'.(last_link_id) = s.(last_link_id) ∧ s'.(last_collection_id) = s.(last_collection_id).
Proof.
  intros N C S L. unfold drop_collection. cbv zeta.
  rewrite (N : collection_names (set_clock_ms s _) !! _ = _).
  rewrite (C : collections (set_collection_names (set_clock_ms s _) _) !! _ = _).
  match goal with |- context [leave_aliases ?q id] => remember q as s1 eqn:Q1 end.
  destruct (leave_aliases_frame s1 id) as (a & t & E1).
  remember (leave_aliases s1 id) as s2 eqn:Q2.
  match goal with |- context [remove_stream ?q _] => remember q as s3 eqn:Q3 end.
  assert (streams s3 !! collection_stream c = Some st) as S3 by (by rewrite Q3, E1, Q1).
  destruct (remove_stream_spec s3 _ st S3) as (m & lv & r & E2 & K).
  remember (remove_stream s3 (collection_stream c)) as s4 eqn:Q4.
  assert (links s4 !! collection_link c = Some l) as L4 by (by rewrite E2, Q3, E1, Q1).
  unfold remove_link. rewrite L4. cbv zeta.
  eexists. split; [reflexivity|]. cbn. rewrite E2. cbn.
  rewrite Q3. cbn. rewrite E1. cbn. rewrite Q1. cbn. split_and!; try done.
  - intros k. by rewrite K, Q3, E1, Q1.
  - exists s1. rewrite <- Q2, E1, Q1. done.
Qed.

Lemma catalog_drop W s ns name now :
  catalog_ok W s → W <= u64_MAX → catalog_ok W (drop_collection s ns name now).1.
Proof.
  intros Ck B. pose proof Ck as [N S L Co Ln Ls Ll Lc Bk P Lg].
  destruct (collection_names s !! (ns, name)) as [id|] eqn:Cn.
  2: { unfold drop_collection. cbv zeta.
       rewrite (Cn : collection_names (set_clock_ms s _) !! _ = _). exact Ck. }
  pose proof (ti_name _ _ _ Co _ _ Cn) as (c & X & Nm). cbn in Nm. injection Nm as <- <-.
  destruct (bi_stream _ _ _ Bk _ _ X) as (st & St & Sb).
  destruct (bi_link _ _ _ Bk _ _ X) as (l & Li & Lb).
  destruct (drop_collection_spec s _ _ now id c st l Cn X St Li) as
    (s' & -> & E1 & E2 & E3 & E4 & E5 & E6 & E7 & K & _ & _ & _ & E8 & E9 & E10 & E11 & E12 & E13).
  unfold catalog_ok. cbn. rewrite E1, E2, E3, E4, E5, E6, E7, E8, E9, E10, E11, E12, E13.
  split; try done.
  - exact (table_remove _ _ _ _ _ S St).
  - exact (table_remove _ _ _ _ _ L Li).
  - exact (table_remove _ _ _ _ _ Co X).
  - apply backed_drop; [done| |done]. intros i x Y.
    destruct (ti_item _ _ _ Co _ _ Y) as (? & ? & _). split; [done|lia].
  - intros i p. rewrite K. cbn. unfold parts_match in P. case_decide as D.
    + destruct D as [-> D]. split; [by intros [? ?]|].
      intros (x & Y & _). by rewrite lookup_delete_eq in Y.
    + rewrite P. split; intros (x & Y & Lt); exists x; (split; [|done]).
      * rewrite lookup_delete_ne; [done|]. intros Q. apply D.
        rewrite Q, Y in St. injection St as <-. by split.
      * by apply lookup_delete_Some in Y as [_ Y].
  - intros i key e [Y D]%map_lookup_filter_Some. cbn in D.
    rewrite lookup_delete_ne by done. by eapply Lg.
Qed.

(** ** The ledger *)

Lemma catalog_ledger W s i :
  catalog_ok W s → ledger_ok s.(streams) i → catalog_ok W (set_idempotency s i).
Proof. intros [? ? ? ? ? ? ? ? ? ? _] L. by split. Qed.

Lemma ledger_insert streams ledger id key e :
  ledger_ok streams ledger → is_Some (streams !! id) →
  ledger_ok streams (<[(id, key) := e]> ledger).
Proof.
  intros L S i k x. rewrite lookup_insert_Some. intros [[[= <- <-] _]|[_ I]]; [done|by eapply L].
Qed.

Lemma ledger_sub streams ledger ledger' :
  ledger' ⊆ ledger → ledger_ok streams ledger → ledger_ok streams ledger'.
Proof. intros Su L i k x I. eapply L. by eapply lookup_weaken. Qed.

Lemma claim_loop_catalog W s st who now until_ms keys :
  catalog_ok W s → is_Some (s.(streams) !! st) →
  catalog_ok W (claim_loop s st who now until_ms keys).1.
Proof.
  revert s. induction keys as [|key keys IH]; intros s C S; [done|].
  cbn [claim_loop]. cbv zeta. case_bool_decide.
  - match goal with |- context [claim_loop ?s1 st who now until_ms keys] =>
      specialize (IH s1); destruct (claim_loop s1 st who now until_ms keys) end.
    apply IH; [|done]. apply catalog_ledger; [done|].
    apply ledger_insert; [|done]. by destruct C.
  - specialize (IH s C S). by destruct (claim_loop s st who now until_ms keys).
Qed.

Lemma pending_under_Some e who : pending_under e who = true → is_Some e.
Proof. destruct e; [by eexists|done]. Qed.

Lemma complete_loop_catalog W s st who until_ms done :
  catalog_ok W s → catalog_ok W (complete_loop s st who until_ms done).
Proof.
  revert s. induction done as [|[[key p] o] done IH]; intros s C; [exact C|].
  cbn [complete_loop]. cbv zeta. destruct (pending_under _ _) eqn:E; [|by apply IH].
  apply IH, catalog_ledger; [exact C|]. destruct C as [_ _ _ _ _ _ _ _ _ _ L].
  apply ledger_insert; [exact L|]. apply pending_under_Some in E as [e E]. by eapply L.
Qed.

Lemma release_loop_catalog W s st who keys :
  catalog_ok W s → catalog_ok W (release_loop s st who keys).
Proof.
  revert s. induction keys as [|key keys IH]; intros s C; [exact C|].
  cbn [release_loop]. cbv zeta. destruct (pending_under _ _) eqn:E; [|by apply IH].
  apply IH, catalog_ledger; [exact C|]. destruct C as [_ _ _ _ _ _ _ _ _ _ L].
  eapply ledger_sub, L. apply delete_subseteq.
Qed.

Lemma idempotency_catalog W s c :
  match c with
  | ClaimIdempotencyKeys _ _ _ _ _ | CompleteIdempotencyKeys _ _ _ _ _
  | ReleaseIdempotencyKeys _ _ _ | PruneIdempotencyKeys _ _ => True
  | _ => False
  end → catalog_ok W s → catalog_ok W (apply s c).1.
Proof.
  intros K C. destruct c; try done; cbn [apply].
  - unfold claim_idempotency_keys. state_cases; try exact C. bools.
    match goal with E : claim_loop ?s ?a ?b ?c ?d ?e = _ |- _ =>
      pose proof (claim_loop_catalog W s a b c d e) as Q; rewrite E in Q; apply Q end; [exact C|done].
  - unfold complete_idempotency_keys. state_cases; try exact C.
    apply complete_loop_catalog. exact C.
  - unfold release_idempotency_keys. state_cases; try exact C. by apply release_loop_catalog.
  - unfold prune_idempotency_keys. state_cases; try exact C. apply catalog_ledger; [exact C|].
    destruct C as [_ _ _ _ _ _ _ _ _ _ L]. eapply ledger_sub, L. apply map_filter_subseteq.
Qed.

(** ** Every command *)

Lemma apply_catalog W s c :
  catalog_ok W s → W < u64_MAX → catalog_ok (W + 1) (apply s c).1.
Proof.
  intros C B. assert (catalog_ok (W + 1) s) as C' by (eapply catalog_mono, C; lia).
  destruct c; try (by apply idempotency_catalog); cbn [apply].
  all: try solve [unfold_plain; unfold prune_wal_commits, forget_objects; state_cases; frames;
                  exact C'].
  - by apply create_namespace_catalog.
  - by apply create_stream_catalog.
  - by apply create_link_catalog.
  - by apply commit_wal_catalog.
  - by apply set_retention_catalog.
  - by apply swap_segment_catalog.
  - by apply trim_partition_catalog.
  - by apply create_collection_catalog.
  - apply catalog_drop; [done|lia].
  - by apply update_collection_schema_catalog.
Qed.
