(* ===== verification/MetaAliasInv.v ===== *)
(** * Aliases, hot configuration and collection pointers

    Every alias names collections of its namespace and is no collection's name; the alias
    maps are canonical (one unset member in [aliases], everything else in [alias_targets],
    never both), with at most one write index and a bounded number of members.  Hot
    configuration and [collection/<id>] pointers belong to live collections.  Every command
    keeps this. *)

From Stdlib Require Import NArith Lia Ascii.
From stdpp Require Import prelude gmap strings numbers sorting list.
From S2P Require Import Prelude.
From S2P Require Import BTree.
From S2P Require Import Ids.
From S2P Require Import Schema.
From S2P Require Import MetaTypes.
From S2P Require Import MetaState.
From S2P Require Import MetaLeases.
From S2P Require Import MetaLog.
From S2P Require Import MetaCatalog.
From S2P Require Import MetaCollections.
From S2P Require Import MetaApply.
From S2P Require Import CatalogInv.
From S2P Require Import MetaFrames.
From S2P Require Import MetaCatalogInv.

Open Scope N_scope.

Abbreviation Members := (gmap CollectionId (option bool)).
Abbreviation AliasMap := (gmap (NamespaceId * string) CollectionId).
Abbreviation TargetMap := (gmap (NamespaceId * string) AliasTargets).

(** The write members of an alias. *)
Definition writers (ms : Members) : N :=
  len (filter (λ e, e.2 = Some true) (btree_iter ms)).

(** What an alias may hold: collections of one namespace, few enough, at most one writer. *)
Record members_ok (member : CollectionId → Prop) (ms : Members) : Prop := {
  mo_member : ∀ id w, ms !! id = Some w → member id;
  mo_writers : writers ms <= 1;
  mo_size : N.of_nat (size ms) <= MAX_ALIAS_TARGETS;
}.

(** What belongs in [alias_targets]. *)
Definition several (ms : Members) : Prop := ms ≠ ∅ ∧ ∀ id, ms ≠ {[id := None]}.

Record alias_maps (member : NamespaceId → CollectionId → Prop)
    (free : NamespaceId * string → Prop) (al : AliasMap) (tg : TargetMap) : Prop := {
  am_alias : ∀ ns a id, al !! (ns, a) = Some id →
    member ns id ∧ free (ns, a) ∧ tg !! (ns, a) = None;
  am_target : ∀ ns a t, tg !! (ns, a) = Some t →
    free (ns, a) ∧ members_ok (member ns) t.(members) ∧ several t.(members);
}.

(** ** Members *)

Lemma writers_singleton id : writers ({[id := None]} : Members) = 0.
Proof. unfold writers. by rewrite btree_iter_singleton. Qed.

Lemma members_singleton (member : CollectionId → Prop) id :
  member id → members_ok member {[id := None]}.
Proof.
  intros M. split.
  - intros i w [-> _]%lookup_singleton_Some. done.
  - rewrite writers_singleton. lia.
  - rewrite map_size_singleton. done.
Qed.

Lemma members_empty member : members_ok member ∅.
Proof.
  split; [|done|done]. intros i w. by rewrite lookup_empty.
Qed.

Lemma writers_perm ms : writers ms = len (filter (λ e, e.2 = Some true) (map_to_list ms)).
Proof. unfold writers, len. by rewrite btree_iter_perm. Qed.

Lemma members_delete member ms id :
  members_ok member ms → members_ok (λ i, member i ∧ i ≠ id) (delete id ms).
Proof.
  intros [M Wr Sz]. split.
  - intros i w [D I]%lookup_delete_Some. split; [by eapply M|done].
  - destruct (ms !! id) as [w|] eqn:E; [|by rewrite delete_id].
    rewrite writers_perm in *. unfold len in *.
    rewrite <- (map_to_list_delete ms id w E) in Wr.
    rewrite filter_cons in Wr. case_decide; rewrite ?length_cons in Wr; lia.
  - pose proof (map_subseteq_size _ _ (delete_subseteq ms id)). lia.
Qed.

Lemma members_weaken (member member' : CollectionId → Prop) ms :
  (∀ i, member i → member' i) → members_ok member ms → members_ok member' ms.
Proof. intros S [M Wr Sz]. split; try done. intros i w I. by eapply S, M. Qed.

(** ** [put_alias] writes one alias *)

Lemma put_alias_cases s ns a ms :
  (ms = ∅ ∧ put_alias s ns a ms =
      set_alias_targets (set_aliases s (delete (ns, a) s.(aliases)))
        (delete (ns, a) s.(alias_targets)))
  ∨ (∃ id, ms = {[id := None]} ∧ put_alias s ns a ms =
      set_alias_targets (set_aliases s (<[(ns, a) := id]> s.(aliases)))
        (delete (ns, a) s.(alias_targets)))
  ∨ (several ms ∧ put_alias s ns a ms =
      set_alias_targets (set_aliases s (delete (ns, a) s.(aliases)))
        (<[(ns, a) := {| members := ms |}]> s.(alias_targets))).
Proof.
  unfold put_alias. cbv zeta.
  assert (several ms ∨ ms = ∅ ∨ ∃ id, ms = {[id := None]}) as Cs.
  { destruct (btree_iter ms) as [|[id [w|]] [|e es]] eqn:E.
    1: right; left; by apply btree_iter_nil_inv.
    3: right; right; exists id; apply btree_iter_inj; by rewrite E, btree_iter_singleton.
    all: left; split;
      [intros ->; by rewrite btree_iter_empty in E
      |intros i ->; by rewrite btree_iter_singleton in E]. }
  destruct Cs as [Sv|[->|[id ->]]].
  - right; right. split; [done|].
    destruct (btree_iter ms) as [|[id [w|]] [|e es]] eqn:E.
    + apply btree_iter_nil_inv in E. by destruct Sv.
    + cbn. by rewrite insert_delete_eq.
    + cbn. by rewrite insert_delete_eq.
    + destruct Sv as [_ Sv]. exfalso. apply (Sv id), btree_iter_inj.
      by rewrite E, btree_iter_singleton.
    + cbn. by rewrite insert_delete_eq.
  - left. split; [done|]. by rewrite btree_iter_empty.
  - right; left. exists id. split; [done|]. rewrite btree_iter_singleton. cbn.
    by rewrite insert_delete_eq.
Qed.

(** An alias reads back the members it was given, and other aliases are left alone. *)
Lemma alias_members_put s ns a ms ns' a' :
  alias_members (put_alias s ns a ms) ns' a' =
    if decide ((ns', a') = (ns, a)) then ms else alias_members s ns' a'.
Proof.
  unfold alias_members.
  destruct (put_alias_cases s ns a ms) as [[-> ->]|[(id & -> & ->)|[Sv ->]]]; cbn.
  - case_decide as D.
    + rewrite D, !lookup_delete_eq. done.
    + by rewrite !lookup_delete_ne by done.
  - case_decide as D.
    + rewrite D, lookup_insert_eq. done.
    + by rewrite lookup_insert_ne, lookup_delete_ne by done.
  - case_decide as D.
    + rewrite D, lookup_delete_eq, lookup_insert_eq. done.
    + by rewrite lookup_insert_ne, lookup_delete_ne by done.
Qed.

(** ** The alias maps stay canonical *)

Section maps.
Context (member : NamespaceId → CollectionId → Prop) (free : NamespaceId * string → Prop).

Lemma alias_clear al tg k :
  alias_maps member free al tg → alias_maps member free (delete k al) (delete k tg).
Proof.
  intros [A T]. split.
  - intros ns a id [D I]%lookup_delete_Some. rewrite lookup_delete_ne by done. by apply A.
  - intros ns a t [D I]%lookup_delete_Some. by apply T.
Qed.

Lemma alias_set_one al tg ns a id :
  alias_maps member free al tg → member ns id → free (ns, a) →
  alias_maps member free (<[(ns, a) := id]> al) (delete (ns, a) tg).
Proof.
  intros [A T] M F. split.
  - intros ns' a' i. rewrite lookup_insert_Some. intros [[[= <- <-] <-]|[D I]].
    + by rewrite lookup_delete_eq.
    + rewrite lookup_delete_ne by done. by apply A.
  - intros ns' a' t [D I]%lookup_delete_Some. by apply T.
Qed.

Lemma alias_set_many al tg ns a ms :
  alias_maps member free al tg → members_ok (member ns) ms → several ms → free (ns, a) →
  alias_maps member free (delete (ns, a) al) (<[(ns, a) := {| members := ms |}]> tg).
Proof.
  intros [A T] M Sv F. split.
  - intros ns' a' i [D I]%lookup_delete_Some. rewrite lookup_insert_ne by done. by apply A.
  - intros ns' a' t. rewrite lookup_insert_Some. intros [[[= <- <-] <-]|[D I]]; [done|].
    by apply T.
Qed.

Lemma alias_put s ns a ms :
  alias_maps member free s.(aliases) s.(alias_targets) →
  members_ok (member ns) ms → (ms ≠ ∅ → free (ns, a)) →
  alias_maps member free (put_alias s ns a ms).(aliases) (put_alias s ns a ms).(alias_targets).
Proof.
  intros A M F.
  destruct (put_alias_cases s ns a ms) as [[-> ->]|[(id & -> & ->)|[Sv ->]]]; cbn.
  - by apply alias_clear.
  - apply alias_set_one; [done| |].
    + eapply (mo_member _ _ M). apply lookup_singleton_eq.
    + apply F. apply map_non_empty_singleton.
  - apply alias_set_many; [done..|]. by apply F, Sv.
Qed.

Lemma alias_change ns s alias target :
  alias_maps member free s.(aliases) s.(alias_targets) →
  (∀ id, target = Some id → member ns id ∧ free (ns, alias)) →
  alias_maps member free (apply_alias_change ns s (alias, target)).(aliases)
    (apply_alias_change ns s (alias, target)).(alias_targets).
Proof.
  intros A F. destruct target as [id|]; cbn.
  - destruct (F id eq_refl). by apply alias_set_one.
  - by apply alias_clear.
Qed.

Lemma alias_members_ok s ns a :
  alias_maps member free s.(aliases) s.(alias_targets) →
  members_ok (member ns) (alias_members s ns a) ∧ (alias_members s ns a ≠ ∅ → free (ns, a)).
Proof.
  intros [A T]. unfold alias_members. destruct (aliases s !! (ns, a)) as [id|] eqn:E.
  - destruct (A _ _ _ E) as (? & ? & _). split; [by apply members_singleton|done].
  - destruct (alias_targets s !! (ns, a)) as [t|] eqn:E'.
    + destruct (T _ _ _ E') as (? & ? & _). done.
    + split; [apply members_empty|done].
Qed.
End maps.

(** ** The commands that write aliases *)

(** A collection of namespace [ns]. *)
Definition member_of (cs : gmap CollectionId Collection) (ns : NamespaceId) (id : CollectionId)
  : Prop := ∃ c, cs !! id = Some c ∧ c.(collection_namespace) = ns.

Definition free_name (names : gmap (NamespaceId * string) CollectionId)
    (k : NamespaceId * string) : Prop := names !! k = None.

Definition alias_ok (s : MetaState) : Prop :=
  alias_maps (member_of s.(collections)) (free_name s.(collection_names)) s.(aliases)
    s.(alias_targets).

(** A name resolves to a collection of its namespace. *)
Lemma name_member W s ns name id :
  catalog_ok W s → s.(collection_names) !! (ns, name) = Some id →
  member_of s.(collections) ns id.
Proof.
  intros [_ _ _ Co _ _ _ _ _ _ _] N. apply (ti_name _ _ _ Co) in N as (c & X & E).
  cbn in E. exists c. split; [done|]. congruence.
Qed.

Lemma try_fold_inv {A B E} (P : B → Prop) (f : A → B → Result B E) l b b' :
  (∀ x b b', f x b = Ok b' → P b → P b') → try_fold f l b = Ok b' → P b → P b'.
Proof.
  intros F. revert b. induction l as [|x l IH]; intros b; cbn.
  - congruence.
  - destruct (f x b) as [b1|] eqn:Q; [|done]. intros R Pb. eapply IH; [done|]. by eapply F.
Qed.

Lemma foldl_inv {A B} (P : B → Prop) (f : B → A → B) l b :
  (∀ x b, x ∈ l → P b → P (f b x)) → P b → P (foldl f b l).
Proof.
  revert b. induction l as [|x l IH]; intros b F Pb; cbn; [done|].
  apply IH; [|apply F; [left|done]]. intros y c I. apply F. by right.
Qed.

Lemma update_aliases_ok W s ns actions :
  catalog_ok W s → alias_ok s → alias_ok (update_aliases s ns actions).1.
Proof.
  intros C A. unfold update_aliases. state_cases; try exact A.
  match goal with E : try_fold _ _ _ = Ok ?ch |- _ => rename ch into changes, E into T end.
  assert (∀ a id, changes !! a = Some (Some id) →
            member_of s.(collections) ns id ∧ free_name s.(collection_names) (ns, a)) as Ch.
  { refine (try_fold_inv (λ ch, ∀ a id, ch !! a = Some (Some id) →
      member_of s.(collections) ns id ∧ free_name s.(collection_names) (ns, a)) _ _ _ _ _ T _).
    - intros [al co|al] ch ch' Q P a id; cbn in Q; inv_outcome Q; bools.
      + rewrite lookup_insert_Some. intros [[<- [= <-]]|[_ I]]; [|by apply P].
        split; [by eapply name_member|done].
      + rewrite lookup_insert_Some. intros [[_ [=]]|[_ I]]. by apply P.
    - intros a id. by rewrite lookup_empty. }
  destruct (alias_changes_frame s ns (btree_iter changes)) as (al & tg & E).
  cut (alias_maps (member_of s.(collections)) (free_name s.(collection_names))
    (foldl (apply_alias_change ns) s (btree_iter changes)).(aliases)
    (foldl (apply_alias_change ns) s (btree_iter changes)).(alias_targets)).
  { rewrite E. done. }
  apply (foldl_inv (λ s', alias_maps (member_of s.(collections)) (free_name s.(collection_names))
    s'.(aliases) s'.(alias_targets))); [|exact A].
  intros [a target] s' I P. apply alias_change; [done|]. intros id ->.
  apply elem_of_btree_iter in I. by apply Ch.
Qed.

(** The write members named by the check are all of them when every member exists. *)
Lemma writer_names_length s ns ms :
  (∀ id w, ms !! id = Some w → member_of s.(collections) ns id) →
  len (writer_names s ms) = writers ms.
Proof.
  intros M. unfold writer_names, writers, len. f_equal.
  assert (∀ e, e ∈ btree_iter ms → is_Some (s.(collections) !! e.1)) as X.
  { intros [id w] I%elem_of_btree_iter. destruct (M _ _ I) as (c & C & _). by eexists. }
  induction (btree_iter ms) as [|[id w] l IH]; [done|].
  rewrite filter_cons. cbn. destruct (X (id, w) ltac:(left)) as [c Ec]. cbn in Ec.
  rewrite Ec. assert (∀ e, e ∈ l → is_Some (collections s !! e.1)) as X'
    by (intros e I; apply X; by right).
  case_bool_decide; case_decide; try done; cbn; by rewrite IH.
Qed.

Lemma check_members_Ok s ns alias ms u u' :
  check_members s (alias, ms) u = Ok u' →
  (∀ id w, ms !! id = Some w → member_of s.(collections) ns id) →
  members_ok (member_of s.(collections) ns) ms.
Proof.
  unfold check_members. intros E M. inv_outcome E. bools. split; [done| |done].
  by rewrite <- (writer_names_length s ns ms M).
Qed.

Lemma try_fold_all {A B E} (f : A → B → Result B E) l b b' x :
  try_fold f l b = Ok b' → x ∈ l → ∃ c c', f x c = Ok c'.
Proof.
  revert b. induction l as [|y l IH]; intros b; cbn; [by intros _ ?%elem_of_nil|].
  destruct (f y b) as [b1|] eqn:Q; [|done]. intros T [->|I]%elem_of_cons; [by exists b, b1|].
  by eapply IH.
Qed.

(** Each working copy holds collections of the namespace and is no collection's name. *)
Definition working_ok (s : MetaState) (ns : NamespaceId) (w : Working) : Prop :=
  ∀ a ms, w !! a = Some ms →
    (∀ id x, ms !! id = Some x → member_of s.(collections) ns id)
    ∧ (ms ≠ ∅ → free_name s.(collection_names) (ns, a)).

Lemma working_members_ok s ns w a :
  alias_ok s → working_ok s ns w →
  (∀ id x, working_members s w ns a !! id = Some x → member_of s.(collections) ns id)
  ∧ (working_members s w ns a ≠ ∅ → free_name s.(collection_names) (ns, a)).
Proof.
  intros A Wk. unfold working_members. destruct (w !! a) as [ms|] eqn:E; [by apply Wk|].
  destruct (alias_members_ok _ _ s ns a A) as [M F]. split; [apply M|done].
Qed.

Lemma alias_target_action_ok W s ns a w w' :
  catalog_ok W s → alias_ok s → alias_target_action s ns a w = Ok w' →
  working_ok s ns w → working_ok s ns w'.
Proof.
  intros C A Q Wk b ms.
  assert (∀ al, _) as M by (intros al; exact (working_members_ok s ns w al A Wk)).
  destruct a as [al co wi|al co|al]; cbn in Q; inv_outcome Q; bools;
    rewrite lookup_insert_Some; intros [[<- <-]|[_ I]]; try by apply Wk.
  - split; [|done]. intros id x. rewrite lookup_insert_Some.
    intros [[<- _]|[_ I]]; [by eapply name_member|by eapply M].
  - split.
    + intros id x [_ I]%lookup_delete_Some. by eapply M.
    + intros N. apply M. intros Z. rewrite Z, delete_empty in N. done.
  - apply M.
  - split; [|done]. intros id x. by rewrite lookup_empty.
Qed.

Lemma update_alias_targets_ok W s ns actions :
  catalog_ok W s → alias_ok s → alias_ok (update_alias_targets s ns actions).1.
Proof.
  intros C A. unfold update_alias_targets. state_cases; try exact A.
  match goal with E : try_fold (alias_target_action _ _) _ _ = Ok ?x |- _ =>
    rename x into w, E into T end.
  match goal with E : try_fold (check_members _) _ _ = Ok _ |- _ => rename E into L end.
  assert (working_ok s ns w) as Wk.
  { refine (try_fold_inv (working_ok s ns) _ _ _ _ _ T _).
    - intros x b b' Q. by eapply alias_target_action_ok.
    - intros a ms. by rewrite lookup_empty. }
  destruct (put_aliases_frame s ns (btree_iter w)) as (al & tg & E).
  cut (alias_maps (member_of s.(collections)) (free_name s.(collection_names))
    (foldl (λ s '(alias, ms), put_alias s ns alias ms) s (btree_iter w)).(aliases)
    (foldl (λ s '(alias, ms), put_alias s ns alias ms) s (btree_iter w)).(alias_targets)).
  { rewrite E. done. }
  apply (foldl_inv (λ s', alias_maps (member_of s.(collections)) (free_name s.(collection_names))
    s'.(aliases) s'.(alias_targets))); [|exact A].
  intros [a ms] s' I P. destruct (try_fold_all _ _ _ _ _ L I) as (c & c' & Q).
  apply elem_of_btree_iter in I. destruct (Wk _ _ I) as [M F].
  apply alias_put; [done| |done]. by eapply check_members_Ok.
Qed.

(** ** Dropping a collection leaves no alias to it *)

Section leave.
Context (member : NamespaceId → CollectionId → Prop) (free : NamespaceId * string → Prop).
Context (id : CollectionId).

Lemma leave_one s ns a :
  alias_maps member free s.(aliases) s.(alias_targets) →
  (∀ k i, s.(aliases) !! k = Some i → i ≠ id) →
  let s' := put_alias s ns a (delete id (alias_members s ns a)) in
  alias_maps member free s'.(aliases) s'.(alias_targets)
  ∧ (∀ k i, s'.(aliases) !! k = Some i → i ≠ id)
  ∧ (∀ k t, s'.(alias_targets) !! k = Some t → is_Some (t.(members) !! id) →
       k ≠ (ns, a) ∧ s.(alias_targets) !! k = Some t).
Proof.
  intros A N s'. destruct (alias_members_ok _ _ s ns a A) as [M F].
  split_and!.
  - apply alias_put; [done| |].
    + eapply members_weaken, members_delete, M. by intros i [? _].
    + intros Ne. apply F. intros Z. by rewrite Z, delete_empty in Ne.
  - intros k i. unfold s'.
    destruct (put_alias_cases s ns a (delete id (alias_members s ns a)))
      as [[_ ->]|[(j & Ej & ->)|[_ ->]]]; cbn.
    + intros [_ I]%lookup_delete_Some. by eapply N.
    + rewrite lookup_insert_Some. intros [[_ <-]|[_ I]]; [|by eapply N]. intros ->.
      pose proof (lookup_delete_eq (alias_members s ns a) id) as D.
      rewrite Ej, lookup_singleton_eq in D. done.
    + intros [_ I]%lookup_delete_Some. by eapply N.
  - intros k t. unfold s'.
    destruct (put_alias_cases s ns a (delete id (alias_members s ns a)))
      as [[_ ->]|[(j & Ej & ->)|[_ ->]]]; cbn.
    + by intros [? I]%lookup_delete_Some.
    + by intros [? I]%lookup_delete_Some.
    + rewrite lookup_insert_Some. intros [[_ <-]|[D I]]; [|done].
      cbn. rewrite lookup_delete_eq. by intros [? ?].
Qed.

Lemma leave_all s ks :
  alias_maps member free s.(aliases) s.(alias_targets) →
  (∀ k i, s.(aliases) !! k = Some i → i ≠ id) →
  (∀ k t, s.(alias_targets) !! k = Some t → is_Some (t.(members) !! id) → k ∈ ks) →
  let s' := foldl (λ s '(ns, alias), put_alias s ns alias (delete id (alias_members s ns alias)))
              s ks in
  alias_maps (λ ns i, member ns i ∧ i ≠ id) free s'.(aliases) s'.(alias_targets).
Proof.
  revert s. induction ks as [|[ns a] ks IH]; intros s A N T; cbn.
  - split.
    + intros ns a i I. destruct (am_alias _ _ _ _ A _ _ _ I) as (? & ? & ?).
      split_and!; [done|by eapply N|done|done].
    + intros ns a t I. destruct (am_target _ _ _ _ A _ _ _ I) as (? & [M Wr Sz] & ?).
      split_and!; [done| |done]. split; [|done|done]. intros i w Ii.
      split; [by eapply M|]. intros ->. eapply elem_of_nil, (T _ _ I). by eexists.
  - destruct (leave_one s ns a A N) as (A' & N' & T'). apply IH; [done|done|].
    intros k t I J. destruct (T' k t I J) as [D I'].
    by pose proof (T k t I' J) as [?|?]%elem_of_cons.
Qed.

Lemma leave_aliases_gone s :
  alias_maps member free s.(aliases) s.(alias_targets) →
  (∀ k i, s.(aliases) !! k = Some i → i ≠ id) →
  alias_maps (λ ns i, member ns i ∧ i ≠ id) free (leave_aliases s id).(aliases)
    (leave_aliases s id).(alias_targets).
Proof.
  intros A N. unfold leave_aliases. cbv zeta. apply leave_all; [done|done|].
  intros k t I J. apply list_elem_of_fmap. exists (k, t). split; [done|].
  apply list_elem_of_filter. split; [done|]. by apply elem_of_btree_iter.
Qed.
End leave.

(** ** Hot configuration and pointers *)

Definition hot_ok (cs : gmap CollectionId Collection) (hot : gmap CollectionId HotConfig)
  : Prop := ∀ id h, hot !! id = Some h → is_Some (cs !! id) ∧ hot_any h = true.

Definition pointers_ok (cs : gmap CollectionId Collection)
    (pointers : gmap (NamespaceId * string) Pointer) : Prop :=
  ∀ ns key p rest, pointers !! (ns, key) = Some p →
    strip_prefix COLLECTION_POINTER_PREFIX key = Some rest →
    ∃ id, parse_canonical rest = Ok id ∧ member_of cs ns id.

Record naming_inv (cs : gmap CollectionId Collection)
    (names : gmap (NamespaceId * string) CollectionId) (al : AliasMap) (tg : TargetMap)
    (hot : gmap CollectionId HotConfig) (pointers : gmap (NamespaceId * string) Pointer)
  : Prop := {
  ni_alias : alias_maps (member_of cs) (free_name names) al tg;
  ni_hot : hot_ok cs hot;
  ni_pointers : pointers_ok cs pointers;
}.

Definition naming_ok (s : MetaState) : Prop :=
  naming_inv s.(collections) s.(collection_names) s.(aliases) s.(alias_targets)
    s.(collection_hot) s.(pointers).

Lemma naming_default : naming_ok MetaState_default.
Proof.
  split; [split|..]; cbn.
  - intros ns a i. by rewrite lookup_empty.
  - intros ns a t. by rewrite lookup_empty.
  - intros i h. by rewrite lookup_empty.
  - intros ns k p r. by rewrite lookup_empty.
Qed.

Lemma alias_maps_weaken (member member' : NamespaceId → CollectionId → Prop)
    (free free' : NamespaceId * string → Prop) al tg :
  (∀ ns i, member ns i → member' ns i) →
  (∀ k, free k → is_Some (al !! k) ∨ is_Some (tg !! k) → free' k) →
  alias_maps member free al tg → alias_maps member' free' al tg.
Proof.
  intros M F [A T]. split.
  - intros ns a i I. destruct (A _ _ _ I) as (? & ? & ?). split_and!; [auto| |done].
    apply F; [done|]. left. by eexists.
  - intros ns a t I. destruct (T _ _ _ I) as (? & ? & ?). 
    split_and!; [|eapply (members_weaken (member ns)); [apply M|done]|done].
    apply F; [done|]. right. by eexists.
Qed.

(** ** The commands that write collections *)

Lemma create_collection_naming W s ns name schema n :
  catalog_ok W s → W < u64_MAX → naming_ok s →
  naming_ok (create_collection s ns name schema n).1.
Proof.
  intros C B K. unfold create_collection. state_cases; try exact K.
  match goal with E : check_create_collection _ _ _ _ _ = _ |- _ =>
    destruct (check_create_fresh W s C _ _ _ _ _ E) as (Fn & Fa & Ft) end.
  unfold insert_stream, insert_link in *. simplify_eq.
  assert (collections s !! u64_add (last_collection_id s) 1 = None) as Fc.
  { destruct C as [_ _ _ Co _ _ _ Lc _ _ _]. eapply table_fresh; [done|].
    rewrite (next_id _ _ Lc B). lia. }
  destruct K as [A H P]. unfold naming_ok. cbn.
  assert (∀ c ns' i, member_of (collections s) ns' i →
            member_of (<[u64_add (last_collection_id s) 1 := c]> (collections s)) ns' i) as Mm.
  { intros c ns' i (x & X & E). exists x. split; [|done]. rewrite lookup_insert_ne; [done|].
    congruence. }
  split.
  - eapply alias_maps_weaken, A; [apply Mm|]. unfold free_name. intros k F Q.
    rewrite lookup_insert_ne; [done|]. intros <-. rewrite Fa, Ft in Q. by destruct Q as [[]|[]].
  - intros i h I. destruct (H _ _ I). split; [|done]. rewrite lookup_insert_is_Some'. by right.
  - intros ns' key p rest I S. destruct (P _ _ _ _ I S) as (i & E & M). exists i.
    split; [done|]. by apply Mm.
Qed.

Lemma member_of_update cs id c c' ns i :
  cs !! id = Some c → c'.(collection_namespace) = c.(collection_namespace) →
  member_of cs ns i → member_of (<[id := c']> cs) ns i.
Proof.
  intros C E (x & X & N). destruct (decide (id = i)) as [<-|D].
  - exists c'. rewrite lookup_insert_eq. split; [done|]. congruence.
  - exists x. by rewrite lookup_insert_ne.
Qed.

Lemma update_collection_schema_naming s id v schema :
  naming_ok s → naming_ok (update_collection_schema s id v schema).1.
Proof.
  intros K. unfold update_collection_schema. state_cases; try exact K.
  destruct K as [A H P]. unfold naming_ok. cbn. split.
  - eapply alias_maps_weaken, A; [|done]. intros ns i. by eapply member_of_update.
  - intros i h I. destruct (H _ _ I). split; [|done]. rewrite lookup_insert_is_Some'. by right.
  - intros ns' key p rest I S. destruct (P _ _ _ _ I S) as (i & E & M). exists i.
    split; [done|]. by eapply member_of_update.
Qed.

Lemma cas_pointer_naming s ns key expected value fence fresh :
  naming_ok s → naming_ok (cas_pointer s ns key expected value fence fresh).1.
Proof.
  intros K. unfold cas_pointer. state_cases; try exact K.
  destruct K as [A H P]. unfold naming_ok. cbn. split; [done|done|].
  intros ns' key' p rest. rewrite lookup_insert_Some. intros [[[= <- <-] _]|[_ I]] S; [|by eapply P].
  match goal with E : check_collection_pointer _ _ _ = Ok _ |- _ => rename E into L end.
  unfold check_collection_pointer in L. rewrite S in L.
  destruct (parse_canonical rest) as [id|]; [|done].
  destruct (collections s !! id) as [c|] eqn:Ec; [|done].
  destruct (collection_namespace c =? ns) eqn:N; [|done]. bools.
  exists id. split; [done|]. by exists c.
Qed.

Lemma set_hot_naming s id h : naming_ok s → naming_ok (set_hot s id h).1.
Proof.
  intros K. unfold set_hot. destruct (hot_any h) eqn:E; state_cases; try exact K; bools;
    destruct K as [A H P]; unfold naming_ok; cbn; (split; [done| |done]).
  - intros i x. rewrite lookup_insert_Some. intros [[<- <-]|[_ I]]; [done|by apply H].
  - intros i x [_ I]%lookup_delete_Some. by apply H.
Qed.

Lemma drop_collection_naming W s ns name now :
  catalog_ok W s → naming_ok s → naming_ok (drop_collection s ns name now).1.
Proof.
  intros Ck K. pose proof Ck as [_ _ _ Co _ _ _ _ Bk _ _].
  destruct (collection_names s !! (ns, name)) as [id|] eqn:Cn.
  2: { unfold drop_collection. cbv zeta.
       rewrite (Cn : collection_names (set_clock_ms s _) !! _ = _). exact K. }
  pose proof (ti_name _ _ _ Co _ _ Cn) as (c & X & Nm). cbn in Nm. injection Nm as <- <-.
  destruct (bi_stream _ _ _ Bk _ _ X) as (st & St & _).
  destruct (bi_link _ _ _ Bk _ _ X) as (l & Li & _).
  destruct (drop_collection_spec s _ _ now id c st l Cn X St Li) as
    (s' & -> & E1 & E2 & _ & _ & _ & _ & _ & _ & E3 & E4 & (s1 & Q1 & Q2 & E5 & E6) & _).
  unfold naming_ok. cbn. rewrite E1, E2, E3, E4, E5, E6. destruct K as [A H P].
  assert (∀ ns i, member_of (collections s) ns i ∧ i ≠ id →
            member_of (delete id (collections s)) ns i) as Mm.
  { intros ns' i [(x & Y & E) D]. exists x. by rewrite lookup_delete_ne. }
  split.
  - eapply (alias_maps_weaken _ _ (free_name (collection_names s)));
      [exact Mm| |apply leave_aliases_gone].
    + intros k F _. apply lookup_delete_None. by right.
    + rewrite Q1, Q2. destruct A as [Aa At]. split; [|done].
      intros ns' a i [I _]%map_lookup_filter_Some. by apply Aa.
    + intros k i. rewrite Q1. by intros [_ D]%map_lookup_filter_Some.
  - intros i h [D I]%lookup_delete_Some. destruct (H _ _ I). split; [|done].
    by rewrite lookup_delete_ne.
  - intros ns' key p rest [D I]%lookup_delete_Some S.
    destruct (P _ _ _ _ I S) as (i & E & M). exists i. split; [done|]. apply Mm. split; [done|].
    intros ->. apply D. destruct M as (y & Y & <-). rewrite X in Y. injection Y as <-. f_equal.
    apply strip_prefix_Some in S as ->. apply parse_canonical_inv in E as [-> _]. done.
Qed.

(** ** Every command *)

Lemma naming_of_aliases s s' :
  naming_ok s → alias_ok s' →
  (∃ a t, s' = set_alias_targets (set_aliases s a) t) → naming_ok s'.
Proof. intros [_ H P] A (a & t & ->). by split. Qed.

Lemma update_aliases_naming W s ns actions :
  catalog_ok W s → naming_ok s → naming_ok (update_aliases s ns actions).1.
Proof.
  intros C K. eapply naming_of_aliases; [exact K|by eapply update_aliases_ok, K|].
  unfold update_aliases.
  assert (∃ a t, s = set_alias_targets (set_aliases s a) t) as R
    by (exists (aliases s), (alias_targets s); by destruct s).
  match goal with |- ∃ a t, fst ?o = _ =>
    change (ensures (λ s' _, ∃ a t, s' = set_alias_targets (set_aliases s a) t) o) end.
  outcome_cases; try exact R. apply alias_changes_frame.
Qed.

Lemma update_alias_targets_naming W s ns actions :
  catalog_ok W s → naming_ok s → naming_ok (update_alias_targets s ns actions).1.
Proof.
  intros C K. eapply naming_of_aliases; [exact K|by eapply update_alias_targets_ok, K|].
  unfold update_alias_targets.
  assert (∃ a t, s = set_alias_targets (set_aliases s a) t) as R
    by (exists (aliases s), (alias_targets s); by destruct s).
  match goal with |- ∃ a t, fst ?o = _ =>
    change (ensures (λ s' _, ∃ a t, s' = set_alias_targets (set_aliases s a) t) o) end.
  outcome_cases; try exact R. apply put_aliases_frame.
Qed.

Lemma apply_naming W s c :
  catalog_ok W s → W < u64_MAX → naming_ok s → naming_ok (apply s c).1.
Proof.
  intros C B K. destruct c; cbn [apply];
    lazymatch goal with
    | |- context [cas_pointer] => by apply cas_pointer_naming
    | |- context [create_collection] => by eapply create_collection_naming
    | |- context [drop_collection] => by eapply drop_collection_naming
    | |- context [update_collection_schema] => by apply update_collection_schema_naming
    | |- context [update_aliases] => by eapply update_aliases_naming
    | |- context [set_hot] => by apply set_hot_naming
    | |- context [update_alias_targets] => by eapply update_alias_targets_naming
    | |- _ => kept K
    end.
Qed.
