(* ===== verification/PartitionInv.v ===== *)
(** * The offset index of one partition

    The index entries of a partition tile the offsets from the first entry's base to
    [next_offset].  This file shows that appending a chunk, swapping a run of WAL entries
    for a segment, and trimming keep the tiling, and that [lookup_offset] and
    [entries_from] read the tiling correctly. *)

From Stdlib Require Import NArith Lia.
From stdpp Require Import prelude numbers gmap strings sorting list.
From S2P Require Import Prelude.
From S2P Require Import BTree.
From S2P Require Import MetaTypes.
From S2P Require Import MetaLog.

Open Scope N_scope.

(** The key-ordered entries [es] tile [[start, stop)). *)
Fixpoint tiles (start : N) (es : list (N * IndexEntry)) (stop : N) : Prop :=
  match es with
  | [] => start = stop
  | (k, e) :: es =>
      k = start ∧ e.(base_offset) = start ∧ 0 < e.(records) ∧ tiles (start + e.(records)) es stop
  end.

(** The bytes the entries cover. *)
Fixpoint sum_bytes (es : list (N * IndexEntry)) : N :=
  match es with [] => 0 | e :: es => entry_bytes e.2 + sum_bytes es end.

(** The records the entries hold. *)
Fixpoint sum_records (es : list (N * IndexEntry)) : N :=
  match es with [] => 0 | e :: es => e.2.(records) + sum_records es end.

(** The log start lies in the first entry, or equals the next offset when there is none. *)
Definition start_ok (ps : PartitionState) (es : list (N * IndexEntry)) : Prop :=
  match es with
  | [] => ps.(log_start_offset) = ps.(next_offset)
  | (k, e) :: _ => k <= ps.(log_start_offset) < k + e.(records)
  end.

(** The invariant of a partition whose counters are at most [W]. *)
Record partition_ok (W : N) (ps : PartitionState) : Prop := {
  part_tiles : ∃ start, tiles start (btree_iter ps.(index)) ps.(next_offset);
  part_start : start_ok ps (btree_iter ps.(index));
  part_bytes : ps.(bytes) = sum_bytes (btree_iter ps.(index));
  part_next_le : ps.(next_offset) <= W;
  part_bytes_le : ps.(bytes) <= W;
}.

(** ** Tilings *)

Lemma tiles_app a es1 es2 b :
  tiles a (es1 ++ es2) b ↔ tiles a es1 (a + sum_records es1) ∧ tiles (a + sum_records es1) es2 b.
Proof.
  revert a. induction es1 as [|[k e] es1 IH]; intros a; cbn.
  - rewrite N.add_0_r. naive_solver.
  - rewrite IH. replace (a + records e + sum_records es1) with (a + (records e + sum_records es1)) by lia.
    naive_solver.
Qed.

Lemma tiles_sum a es b : tiles a es b → b = a + sum_records es.
Proof.
  revert a. induction es as [|[k e] es IH]; intros a; cbn; [lia|].
  intros (_ & _ & _ & T). apply IH in T. lia.
Qed.

(** Every entry of a tiling is keyed by its base and lies inside it. *)
Lemma tiles_elem a es b k e :
  tiles a es b → (k, e) ∈ es → e.(base_offset) = k ∧ a <= k ∧ 0 < e.(records) ∧ k + e.(records) <= b.
Proof.
  revert a. induction es as [|[k' e'] es IH]; intros a T; cbn; [by intros ?%elem_of_nil|].
  destruct T as (-> & B & R & T). pose proof (tiles_sum _ _ _ T).
  intros [?|I]%elem_of_cons; simplify_eq.
  - repeat split; try done; lia.
  - destruct (IH _ T I) as (? & ? & ? & ?). repeat split; try done; lia.
Qed.

Lemma tiles_ordered a es b : tiles a es b → ordered es.
Proof.
  revert a. induction es as [|[k e] es IH]; intros a; [constructor|].
  intros (-> & B & R & T). apply ordered_cons. split; [|by eapply IH].
  intros [k' e'] I. apply key_lt_N. cbn. destruct (tiles_elem _ _ _ _ _ T I). lia.
Qed.

Lemma sum_bytes_app es1 es2 : sum_bytes (es1 ++ es2) = sum_bytes es1 + sum_bytes es2.
Proof. induction es1 as [|e es1 IH]; cbn; [done|]. rewrite IH. lia. Qed.

Lemma sum_records_app es1 es2 : sum_records (es1 ++ es2) = sum_records es1 + sum_records es2.
Proof. induction es1 as [|e es1 IH]; cbn; [done|]. rewrite IH. lia. Qed.

(** The entry holding an offset splits the tiling. *)
Lemma tiles_split a es b offset :
  tiles a es b → a <= offset < b →
  ∃ pre k e post, es = pre ++ (k, e) :: post ∧ k <= offset < k + e.(records).
Proof.
  revert a. induction es as [|[k e] es IH]; intros a; cbn; [lia|].
  intros (-> & B & R & T) L. destruct (decide (offset < a + e.(records))).
  - exists [], a, e, es. split; [done|]. lia.
  - destruct (IH _ T) as (pre & k' & e' & post & -> & ?); [lia|].
    by exists ((a, e) :: pre), k', e', post.
Qed.

Lemma tiles_middle a pre k e post b :
  tiles a (pre ++ (k, e) :: post) b →
  e.(base_offset) = k ∧ 0 < e.(records) ∧ tiles a pre k ∧ tiles (k + e.(records)) post b.
Proof.
  rewrite tiles_app. cbn. intros (P & -> & B & R & Q). by split_and!.
Qed.

(** ** Offsets do not wrap inside the bound *)

Lemma end_offset_eq e b W : e.(base_offset) + e.(records) <= b → b <= W → W <= u64_MAX →
  end_offset e = e.(base_offset) + e.(records).
Proof. intros. unfold end_offset. apply u64_add_small. lia. Qed.

(** ** Reading *)

Section read.
Context (W : N) (ps : PartitionState).
Hypothesis W_ok : W <= u64_MAX.
Hypothesis ok : partition_ok W ps.

Lemma entry_end k e : (k, e) ∈ btree_iter ps.(index) →
  e.(base_offset) = k ∧ 0 < e.(records) ∧ end_offset e = k + e.(records)
  ∧ k + e.(records) <= ps.(next_offset).
Proof.
  intros I. destruct ok as [[a T] _ _ L _].
  destruct (tiles_elem _ _ _ _ _ T I) as (<- & _ & R & E).
  split_and!; try done. by apply (end_offset_eq e (next_offset ps) W).
Qed.

Lemma filter_le_split pre k e post a b offset :
  tiles a (pre ++ (k, e) :: post) b → k <= offset < k + e.(records) →
  filter (λ x : N * IndexEntry, key_leb x.1 offset = true) (pre ++ (k, e) :: post)
    = pre ++ [(k, e)].
Proof.
  intros T L. apply tiles_middle in T as (_ & _ & P & Q).
  rewrite filter_app, filter_cons_True by (cbn; apply N.leb_le; lia).
  f_equal; [|f_equal].
  - apply filter_all. intros [k' e'] I. cbn. apply N.leb_le.
    destruct (tiles_elem _ _ _ _ _ P I). lia.
  - apply filter_none. intros [k' e'] I. cbn.
    destruct (tiles_elem _ _ _ _ _ Q I). rewrite N.leb_le. lia.
Qed.

(** [lookup] finds the one entry that holds a readable offset, and nothing for an offset that
    is trimmed or not yet assigned. *)
Lemma lookup_offset_spec offset e :
  lookup_offset ps offset = Some e ↔
    ps.(log_start_offset) <= offset < ps.(next_offset)
    ∧ ps.(index) !! e.(base_offset) = Some e
    ∧ e.(base_offset) <= offset < e.(base_offset) + e.(records).
Proof.
  destruct ok as [[a T] S _ L _]. unfold lookup_offset.
  destruct (N.ltb_spec offset ps.(log_start_offset)) as [B|B]; [split; [done|lia]|].
  destruct (decide (offset < ps.(next_offset))) as [H|H].
  - assert (a <= offset) as Ha.
    { unfold start_ok in S. destruct (btree_iter ps.(index)) as [|[k f] es]; cbn in T; [lia|].
      destruct T as (-> & _). lia. }
    destruct (tiles_split a _ _ offset T) as (pre & k & f & post & E & I); [lia|].
    unfold btree_last_le. rewrite E in T |- *.
    rewrite (filter_le_split pre k f post a (next_offset ps)) by done.
    rewrite last_snoc. pose proof (tiles_middle _ _ _ _ _ _ T) as (Bf & _ & _ & _).
    assert ((k, f) ∈ btree_iter ps.(index)) as M by (rewrite E; set_solver).
    destruct (entry_end k f M) as (_ & _ & -> & _).
    rewrite (proj2 (N.ltb_lt _ _)) by lia.
    apply elem_of_btree_iter in M. split.
    + intros [= <-]. rewrite Bf. split_and!; try done; lia.
    + intros (_ & Le & Ie). f_equal.
      apply elem_of_btree_iter in Le as M'. rewrite E in M'.
      apply elem_of_app in M' as [M'|M']; [|apply elem_of_cons in M' as [M'|M']].
      * apply tiles_middle in T as (_ & _ & P & _).
        destruct (tiles_elem _ _ _ _ _ P M'). lia.
      * congruence.
      * apply tiles_middle in T as (_ & _ & _ & Q).
        destruct (tiles_elem _ _ _ _ _ Q M'). lia.
  - split; [|lia]. destruct (btree_last_le ps.(index) offset) as [[k f]|] eqn:E; [|done].
    unfold btree_last_le in E. apply last_Some_elem_of in E.
    apply list_elem_of_filter in E as [_ E].
    destruct (entry_end k f E) as (_ & _ & -> & ?).
    destruct (N.ltb_spec offset (k + records f)); [lia|done].
Qed.

(** Every readable offset is found. *)
Lemma lookup_offset_total offset :
  ps.(log_start_offset) <= offset < ps.(next_offset) → is_Some (lookup_offset ps offset).
Proof.
  intros R. destruct ok as [[a T] S _ L _].
  assert (a <= offset) as Ha.
  { unfold start_ok in S. destruct (btree_iter ps.(index)) as [|[k f] es]; cbn in T; [lia|].
    destruct T as (-> & _). lia. }
  destruct (tiles_split a _ _ offset T) as (pre & k & f & post & E & I); [lia|].
  exists f. apply lookup_offset_spec. rewrite E in T.
  pose proof (tiles_middle _ _ _ _ _ _ T) as (-> & _).
  split_and!; try lia. apply elem_of_btree_iter. rewrite E. set_solver.
Qed.

(** [entries_from] returns the entry holding the offset and every later one, in order. *)
Lemma entries_from_spec offset :
  ∃ pre post, btree_iter ps.(index) = pre ++ post
    ∧ entries_from ps offset = post.*2
    ∧ (∀ k e, (k, e) ∈ pre → k + e.(records) <= N.max offset ps.(log_start_offset))
    ∧ (∀ k e, (k, e) ∈ post → N.max offset ps.(log_start_offset) < k + e.(records)).
Proof.
  unfold entries_from. set (o := N.max offset (log_start_offset ps)).
  pose proof ok as [[a T] S _ L _].
  destruct (decide (o < ps.(next_offset))) as [H|H].
  - destruct (lookup_offset_total o) as [e E]; [lia|]. rewrite E.
    apply lookup_offset_spec in E as (_ & Le & Ie).
    apply elem_of_btree_iter, list_elem_of_split in Le as (pre & post & Es).
    exists pre, ((base_offset e, e) :: post). split; [done|].
    rewrite Es in T. pose proof T as (_ & _ & P & Q)%tiles_middle. split_and!.
    + unfold btree_range_from. rewrite Es, filter_app. f_equal.
      rewrite (filter_none _ pre), filter_all; [done| |].
      * intros [k' e'] [?|I]%elem_of_cons; simplify_eq/=; apply N.leb_le; [lia|].
        destruct (tiles_elem _ _ _ _ _ Q I). lia.
      * intros [k' e'] I. cbn. rewrite N.leb_le.
        destruct (tiles_elem _ _ _ _ _ P I). lia.
    + intros k' e' I. destruct (tiles_elem _ _ _ _ _ P I). lia.
    + intros k' e' [?|I]%elem_of_cons; simplify_eq/=; [lia|].
      destruct (tiles_elem _ _ _ _ _ Q I). lia.
  - exists (btree_iter ps.(index)), []. rewrite app_nil_r.
    destruct (lookup_offset ps o) as [e|] eqn:E; [apply lookup_offset_spec in E; lia|].
    split_and!; try done.
    + unfold btree_range_from. rewrite filter_none; [done|]. intros [k' e'] I. cbn. rewrite N.leb_le.
      destruct (entry_end k' e' I) as (_ & ? & _ & ?). lia.
    + intros k' e' I. destruct (entry_end k' e' I). lia.
    + by intros ?? ?%elem_of_nil.
Qed.
End read.

(** ** Appending a chunk *)

Lemma index_below W ps k e :
  partition_ok W ps → ps.(index) !! k = Some e → k < ps.(next_offset).
Proof.
  intros [[a T] _ _ _ _] I%elem_of_btree_iter.
  destruct (tiles_elem _ _ _ _ _ T I) as (_ & _ & ? & ?). lia.
Qed.

(** The WAL entry a chunk becomes. *)
Definition wal_entry (base : N) (obj : string) (c : WalChunk) : IndexEntry := {|
  entry_kind := Wal;
  base_offset := base;
  records := c.(chunk_records);
  object := obj;
  byte_range := c.(chunk_byte_range);
  max_timestamp_ms := c.(chunk_max_timestamp_ms);
|}.

Lemma append_chunk_iter W ps obj c :
  partition_ok W ps →
  btree_iter (append_chunk ps obj c).(index)
    = btree_iter ps.(index) ++ [(ps.(next_offset), wal_entry ps.(next_offset) obj c)].
Proof.
  intros ok. apply btree_iter_insert_last. intros k e I.
  apply key_lt_N. by eapply index_below.
Qed.

(** What a chunk adds to the counters. *)
Definition chunk_weight (c : WalChunk) : N :=
  c.(chunk_records) + (c.(chunk_byte_range).(range_end) - c.(chunk_byte_range).(range_start)).

Lemma append_chunk_ok W ps obj c :
  partition_ok W ps → 0 < c.(chunk_records) → W + chunk_weight c <= u64_MAX →
  partition_ok (W + chunk_weight c) (append_chunk ps obj c)
  ∧ (append_chunk ps obj c).(next_offset) = ps.(next_offset) + c.(chunk_records)
  ∧ (append_chunk ps obj c).(log_start_offset) = ps.(log_start_offset).
Proof.
  intros ok R B. pose proof (append_chunk_iter W ps obj c ok) as It.
  pose proof ok as [[a T] S Y L M]. unfold chunk_weight in *.
  assert (next_offset (append_chunk ps obj c) = next_offset ps + chunk_records c) as Nx.
  { cbn. apply u64_add_small. lia. }
  assert (ps.(index) !! ps.(next_offset) = None) as F.
  { destruct (index ps !! next_offset ps) eqn:E; [|done].
    apply (index_below W ps) in E; [lia|done]. }
  assert (bytes (append_chunk ps obj c)
          = bytes ps + entry_bytes (wal_entry (next_offset ps) obj c)) as By.
  { cbn. rewrite F. apply u64_add_small. unfold entry_bytes, u64_saturating_sub. cbn. lia. }
  split_and!; [|done|done]. constructor.
  - rewrite It, Nx. exists a. apply tiles_app. rewrite <- (tiles_sum _ _ _ T). split; [done|].
    cbn. split_and!; done.
  - rewrite It. unfold start_ok in *. rewrite Nx. cbn [log_start_offset append_chunk insert_entry].
    destruct (btree_iter (index ps)) as [|[k e] es]; cbn; lia.
  - rewrite It, By, sum_bytes_app, Y. cbn. lia.
  - lia.
  - rewrite By. unfold entry_bytes, u64_saturating_sub. cbn. lia.
Qed.

(** ** Trimming *)

Lemma remove_first_ok ps k e es :
  btree_iter ps.(index) = (k, e) :: es →
  remove_entry ps k =
    ({| next_offset := ps.(next_offset); log_start_offset := ps.(log_start_offset);
        index := delete k ps.(index); bytes := u64_sub ps.(bytes) (entry_bytes e) |}, Some e).
Proof.
  intros E. unfold remove_entry.
  assert (ps.(index) !! k = Some e) as ->; [|done].
  apply elem_of_btree_iter. rewrite E. left.
Qed.

(** The trim loop removes exactly the leading entries that end at or before the new log start;
    [fuel] above the number of entries is enough for it to run to its end. *)
Lemma pop_entries_spec W ps before acc fuel a es :
  W <= u64_MAX →
  btree_iter ps.(index) = es → tiles a es ps.(next_offset) →
  ps.(bytes) = sum_bytes es → ps.(next_offset) <= W → ps.(bytes) <= W →
  (length es < fuel)%nat →
  ∃ popped rest ps',
    pop_entries fuel ps before acc = (ps', acc ++ popped.*2)
    ∧ es = popped ++ rest
    ∧ btree_iter ps'.(index) = rest
    ∧ ps'.(next_offset) = ps.(next_offset)
    ∧ ps'.(log_start_offset) = ps.(log_start_offset)
    ∧ ps'.(bytes) = sum_bytes rest
    ∧ (∀ k e, (k, e) ∈ popped → k + e.(records) <= before)
    ∧ match rest with [] => True | (k, e) :: _ => before < k + e.(records) end.
Proof.
  intros HW. revert ps a es acc.
  induction fuel as [|fuel IH]; intros ps a es acc E T Y L M F; [lia|].
  destruct es as [|[k e] es].
  - exists [], [], ps. unfold pop_entries, pop_first_before, btree_first. rewrite E. cbn.
    rewrite app_nil_r. split_and!; try done. by intros ?? ?%elem_of_nil.
  - destruct T as (-> & B & R & T). pose proof (tiles_sum _ _ _ T) as Sm.
    assert (end_offset e = a + records e) as En.
    { rewrite <- B. apply (end_offset_eq e (next_offset ps) W); [rewrite B; lia|done|done]. }
    cbn [pop_entries]. unfold pop_first_before, btree_first. rewrite E. cbn [head].
    rewrite En. destruct (N.leb_spec (a + records e) before) as [Q|Q].
    + rewrite (remove_first_ok _ _ _ _ E).
      edestruct (IH {| next_offset := next_offset ps; log_start_offset := log_start_offset ps;
                      index := delete a (index ps); bytes := u64_sub (bytes ps) (entry_bytes e) |}
                   (a + records e) es (acc ++ [e]))
        as (popped & rest & ps' & P1 & P2 & P3 & P4 & P5 & P6 & P7 & P8).
      * by eapply btree_iter_delete_first.
      * done.
      * cbn. rewrite u64_sub_small, Y; cbn in *; lia.
      * done.
      * cbn. rewrite u64_sub_small; cbn in *; lia.
      * cbn in F. lia.
      * exists ((a, e) :: popped), rest, ps'. rewrite P1, <- app_assoc.
        split_and!; try done; [by rewrite P2|].
        intros k' e' [?|I]%elem_of_cons; simplify_eq/=; [done|by apply P7].
    + exists [], ((a, e) :: es), ps. rewrite app_nil_r. split_and!; try done.
      by intros ?? ?%elem_of_nil.
Qed.

(** The partition after [trim_partition]'s loop and its new log start. *)
Definition trimmed (ps ps' : PartitionState) (before : N) : PartitionState := {|
  next_offset := ps'.(next_offset);
  log_start_offset := N.max ps'.(log_start_offset) before;
  index := ps'.(index);
  bytes := ps'.(bytes);
|}.

Lemma popped_end a popped before :
  tiles a popped (a + sum_records popped) →
  (∀ k e, (k, e) ∈ popped → k + e.(records) <= before) →
  popped = [] ∨ a + sum_records popped <= before.
Proof.
  destruct popped as [|[k e] popped _] using rev_ind; [by left|]. intros T P. right.
  specialize (P k e ltac:(set_solver)).
  apply tiles_app in T as [_ (-> & _)]. rewrite sum_records_app. cbn. lia.
Qed.

Lemma start_le_next a ps es :
  tiles a es ps.(next_offset) → start_ok ps es → ps.(log_start_offset) <= ps.(next_offset).
Proof.
  destruct es as [|[k e] es]; cbn; [lia|]. intros (-> & _ & _ & T) S.
  apply tiles_sum in T. lia.
Qed.

Lemma trim_ok W ps before ps' removed :
  W <= u64_MAX → partition_ok W ps → before <= ps.(next_offset) →
  pop_entries (S (size ps.(index))) ps before [] = (ps', removed) →
  partition_ok W (trimmed ps ps' before)
  ∧ (trimmed ps ps' before).(next_offset) = ps.(next_offset)
  ∧ ∃ popped rest, btree_iter ps.(index) = popped ++ rest
      ∧ btree_iter ps'.(index) = rest ∧ removed = popped.*2.
Proof.
  intros HW [[a T] S Y L M] Le P.
  destruct (pop_entries_spec W ps before [] (Datatypes.S (size (index ps))) a _ HW eq_refl T Y L M)
    as (popped & rest & q & P1 & P2 & P3 & P4 & P5 & P6 & P7 & P8).
  { rewrite btree_iter_length. lia. }
  rewrite P in P1. cbn in P1. injection P1 as -> ->.
  pose proof (start_le_next _ _ _ T S) as Ls.
  rewrite P2 in T. apply tiles_app in T as [T1 T2].
  assert (sum_bytes rest <= bytes ps) as Yb by (rewrite Y, P2, sum_bytes_app; lia).
  split_and!; [|done|by exists popped, rest].
  constructor; cbn [trimmed next_offset log_start_offset index bytes]; rewrite ?P3, ?P4, ?P5, ?P6.
  - by exists (a + sum_records popped).
  - unfold start_ok in *. cbn [trimmed log_start_offset next_offset]. rewrite P4, P5.
    destruct (popped_end a popped before T1 P7) as [->|Q].
    + cbn [sum_records app] in *. rewrite N.add_0_r in T2. rewrite P2 in S.
      destruct rest as [|[k e] rest]; cbn in S; lia.
    + destruct rest as [|[k e] rest]; [cbn in T2; lia|]. destruct T2 as (-> & _).
      rewrite P2 in S. destruct popped as [|[k0 e0] popped]; cbn in S; [lia|].
      specialize (P7 k0 e0 ltac:(left)). lia.
  - done.
  - done.
  - lia.
Qed.

(** ** Swapping a run of WAL entries for a segment *)

(** The check loop accepts exactly a contiguous run of WAL entries of the named objects. *)
Lemma check_replaces_spec W ps mm replaces pre es a start recs0 recs :
  W <= u64_MAX → ps.(next_offset) <= W →
  btree_iter ps.(index) = pre ++ es →
  tiles a (pre ++ es) ps.(next_offset) → start = a + sum_records pre →
  check_replaces ps mm replaces start recs0 = Ok recs →
  ∃ mid post, es = mid ++ post ∧ mid.*1 = replaces.*1
    ∧ (object <$> mid.*2) = replaces.*2
    ∧ (∀ k e, (k, e) ∈ mid → e.(entry_kind) = Wal)
    ∧ recs = recs0 + sum_records mid.
Proof.
  intros HW L. revert pre es start recs0.
  induction replaces as [|[base obj] replaces IH]; intros pre es start recs0 E T -> C.
  - cbn in C. simplify_eq. exists [], es. split_and!; try done; [|cbn; lia].
    by intros ?? ?%elem_of_nil.
  - cbn in C. destruct (index ps !! base) as [entry|] eqn:I; [|done].
    destruct (_ || _) eqn:G; [done|]. bools. subst base.
    apply elem_of_btree_iter in I. rewrite E in I.
    pose proof T as T'. apply tiles_app in T' as [T1 T2].
    apply elem_of_app in I as [I|I].
    { destruct (tiles_elem _ _ _ _ _ T1 I) as (_ & _ & ? & ?). lia. }
    destruct es as [|[k e] es]; [by apply elem_of_nil in I|].
    pose proof T2 as (Ek & B & R & T3).
    apply elem_of_cons in I as [I|I].
    2: { destruct (tiles_elem _ _ _ _ _ T3 I). lia. }
    simplify_eq.
    assert (end_offset e = a + sum_records pre + records e) as En.
    { rewrite <- B. apply (end_offset_eq e (next_offset ps) W); [|done|done].
      rewrite B. apply tiles_sum in T3. lia. }
    unfold u32_checked_add in C. destruct (N.leb_spec (recs0 + records e) u32_MAX); [|done].
    rewrite En in C.
    destruct (IH (pre ++ [(a + sum_records pre, e)]) es (a + sum_records pre + records e)
                (recs0 + records e)) as (mid & post & -> & M1 & M2 & M3 & ->).
    + by rewrite <- app_assoc.
    + by rewrite <- app_assoc.
    + rewrite sum_records_app. cbn. lia.
    + done.
    + exists ((a + sum_records pre, e) :: mid), post. split_and!; try done.
      * cbn. by rewrite M1.
      * cbn. by rewrite M2.
      * intros k' e' [?|I]%elem_of_cons; simplify_eq/=; [done|by eapply M3].
      * cbn. lia.
Qed.

Lemma remove_entries_spec ps pre mid post acc :
  btree_iter ps.(index) = pre ++ mid ++ post →
  ps.(bytes) <= u64_MAX → sum_bytes mid <= ps.(bytes) →
  ∃ ps', remove_entries ps mid.*1 acc = (ps', acc ++ mid.*2)
    ∧ btree_iter ps'.(index) = pre ++ post
    ∧ ps'.(next_offset) = ps.(next_offset)
    ∧ ps'.(log_start_offset) = ps.(log_start_offset)
    ∧ ps'.(bytes) = ps.(bytes) - sum_bytes mid.
Proof.
  revert ps acc. induction mid as [|[k e] mid IH]; intros ps acc E B S; cbn in *.
  - exists ps. rewrite app_nil_r. split_and!; try done. lia.
  - assert (ps.(index) !! k = Some e) as I.
    { apply elem_of_btree_iter. rewrite E. set_solver. }
    unfold remove_entry. rewrite I.
    pose proof (btree_iter_delete _ _ _ _ _ E) as D.
    assert (u64_sub (bytes ps) (entry_bytes e) = bytes ps - entry_bytes e) as Sb
      by (apply u64_sub_small; lia).
    edestruct (IH {| next_offset := next_offset ps; log_start_offset := log_start_offset ps;
                     index := delete k (index ps);
                     bytes := u64_sub (bytes ps) (entry_bytes e) |} (acc ++ [e]))
      as (ps' & -> & P2 & P3 & P4 & P5); cbn in *.
    + done.
    + rewrite Sb. lia.
    + rewrite Sb. lia.
    + exists ps'. rewrite <- app_assoc. split_and!; try done. rewrite P5, Sb. lia.
Qed.

Lemma tiles_nonempty a es b : tiles a es b → es ≠ [] → a < b.
Proof.
  destruct es as [|[k e] es]; [done|]. cbn. intros (_ & _ & R & T) _. apply tiles_sum in T. lia.
Qed.

(** Putting one entry in the gap between two tilings closes it. *)
Lemma insert_gap ps a b c pre post seg :
  btree_iter ps.(index) = pre ++ post → tiles a pre b → tiles (b + seg.(records)) post c →
  0 < seg.(records) → seg.(base_offset) = b → ps.(bytes) + entry_bytes seg <= u64_MAX →
  btree_iter (insert_entry ps seg).(index) = pre ++ (b, seg) :: post
  ∧ tiles a (pre ++ (b, seg) :: post) c
  ∧ (insert_entry ps seg).(bytes) = ps.(bytes) + entry_bytes seg.
Proof.
  intros E T1 T2 R B Y.
  assert (∀ k e, (k, e) ∈ pre → k < b) as G1
    by (intros k e I; destruct (tiles_elem _ _ _ _ _ T1 I); lia).
  assert (∀ k e, (k, e) ∈ post → b < k) as G2
    by (intros k e I; destruct (tiles_elem _ _ _ _ _ T2 I); lia).
  split_and!.
  - cbn [insert_entry index]. rewrite B.
    apply btree_iter_insert; [done| |]; intros [k e] I; apply key_lt_N; eauto.
  - apply tiles_app. rewrite <- (tiles_sum _ _ _ T1). cbn. by split_and!.
  - cbn [insert_entry bytes]. destruct (index ps !! base_offset seg) as [e|] eqn:I.
    + apply elem_of_btree_iter in I. rewrite E, B in I.
      apply elem_of_app in I as [I%G1|I%G2]; lia.
    + rewrite u64_add_small; lia.
Qed.

(** The partition after a swap: the run [mid] became one segment entry with the same records. *)
Lemma swap_ok W ps mm first obj rest recs seg len ps' removed :
  W + len <= u64_MAX → partition_ok W ps →
  check_replaces ps mm ((first, obj) :: rest) first 0 = Ok recs →
  remove_entries ps ((first, obj) :: rest).*1 [] = (ps', removed) →
  seg.(base_offset) = first → seg.(records) = recs → entry_bytes seg = len →
  ∃ pre mid post,
    btree_iter ps.(index) = pre ++ mid ++ post
    ∧ mid ≠ [] ∧ mid.*1 = first :: rest.*1
    ∧ (object <$> mid.*2) = obj :: rest.*2
    ∧ (∀ k e, (k, e) ∈ mid → e.(entry_kind) = Wal)
    ∧ removed = mid.*2 ∧ recs = sum_records mid
    ∧ btree_iter (insert_entry ps' seg).(index) = pre ++ (first, seg) :: post
    ∧ (insert_entry ps' seg).(next_offset) = ps.(next_offset)
    ∧ (insert_entry ps' seg).(log_start_offset) = ps.(log_start_offset)
    ∧ partition_ok (W + len) (insert_entry ps' seg).
Proof.
  intros HW ok C Rm Sb Sr Sl. pose proof ok as [[a T] S Y L M].
  assert (∃ e0, index ps !! first = Some e0) as [e0 I0].
  { cbn in C. destruct (index ps !! first); [by eexists|done]. }
  apply elem_of_btree_iter, list_elem_of_split in I0 as (pre & es & E).
  rewrite E in T. pose proof (tiles_middle _ _ _ _ _ _ T) as (_ & _ & T1 & _).
  destruct (check_replaces_spec W ps mm ((first, obj) :: rest) pre ((first, e0) :: es) a first 0 recs)
    as (mid & post & Em & M1 & M2 & M3 & ->); try done; [lia|by apply tiles_sum|].
  assert (mid ≠ []) as Nm by (by destruct mid). rewrite N.add_0_l in Sr |- *.
  rewrite Em in E, T. rewrite E, !sum_bytes_app in Y.
  destruct (remove_entries_spec ps pre mid post [] E) as (q & R1 & R2 & R3 & R4 & R5); [lia|lia|].
  rewrite M1, Rm in R1. injection R1 as -> ->.
  apply tiles_app in T as [_ T]. apply tiles_app in T as [T2 T3].
  rewrite <- (tiles_sum _ _ _ T1) in *. pose proof (tiles_nonempty _ _ _ T2 Nm).
  destruct (insert_gap q a first (next_offset ps) pre post seg) as (It & Ti & By);
    rewrite ?Sr, ?Sl; try done; [lia|lia|].
  exists pre, mid, post. split_and!; try done.
  constructor; cbn [insert_entry next_offset log_start_offset].
  - rewrite It, R3. by exists a.
  - rewrite It. unfold start_ok in *. rewrite E in S.
    cbn [insert_entry next_offset log_start_offset]. rewrite R4.
    destruct pre as [|[k e] pre]; [|done]. cbn. rewrite Sr.
    destruct mid as [|[k1 e1] mid]; [done|]. cbn in S, T2 |- *. destruct T2 as (-> & _). lia.
  - rewrite It, By, sum_bytes_app, R5. cbn. lia.
  - lia.
  - lia.
Qed.
