(* ===== verification/MetaObjects.v ===== *)
(** * The lifecycle of WAL objects and segments

    The invariant that ties the offset index to the live chunk counts, the commit records
    and the retired list, and the changes of the index that keep it: appending WAL entries,
    replacing WAL entries by a segment, and dropping entries.

    It rests on the naming discipline of the log plane (loams-log/src/paths.rs): a WAL
    object's path and a segment's path are never equal, a WAL object has one creation time
    and a segment's path names one place in one partition.  Those facts are the section's
    context; MetaEnv.v states them of a command log.

    The first part has the index entries of all partitions at once, up to order, which the live
    chunk counts and the retired list speak about, and what [release_entry] does to both. *)

From Stdlib Require Import NArith Lia.
From stdpp Require Import prelude numbers gmap strings sorting list.
From S2P Require Import Prelude.
From S2P Require Import BTree.
From S2P Require Import Ids.
From S2P Require Import MetaTypes.
From S2P Require Import MetaState.
From S2P Require Import MetaLog.
From S2P Require Import PartitionInv.

Open Scope N_scope.

(** A partition's key, and an entry with the partition that holds it. *)
Abbreviation PartKey := (StreamId * N)%type.
Abbreviation Placed := (StreamId * N * IndexEntry)%type.
Abbreviation PartMap := (gmap (StreamId * N) PartitionState).

Definition placed (k : PartKey) (es : list IndexEntry) : list Placed := pair k <$> es.

(** Every index entry of every partition. *)
Definition all_entries (parts : PartMap) : list Placed :=
  map_to_list parts ≫= λ kv, placed kv.1 (entries kv.2).

Lemma elem_of_placed k k' e es : (k', e) ∈ placed k es ↔ k' = k ∧ e ∈ es.
Proof. unfold placed. rewrite list_elem_of_fmap. naive_solver. Qed.

Lemma elem_of_entries ps e :
  e ∈ entries ps ↔ ∃ b, ps.(index) !! b = Some e.
Proof.
  unfold entries, btree_values. rewrite list_elem_of_fmap. split.
  - intros ([b e'] & -> & I). apply elem_of_btree_iter in I. by exists b.
  - intros [b I]. exists (b, e). split; [done|]. by apply elem_of_btree_iter.
Qed.

Lemma elem_of_all_entries parts k e :
  (k, e) ∈ all_entries parts ↔ ∃ ps, parts !! k = Some ps ∧ e ∈ entries ps.
Proof.
  unfold all_entries. rewrite list_elem_of_bind. split.
  - intros ([k' ps] & I & M). apply elem_of_placed in I as [-> I].
    apply elem_of_map_to_list in M. by exists ps.
  - intros (ps & M & I). exists (k, ps). split; [by apply elem_of_placed|].
    by apply elem_of_map_to_list.
Qed.

Lemma all_entries_empty : all_entries ∅ = [].
Proof. done. Qed.

Lemma all_entries_fresh parts k ps :
  parts !! k = None →
  all_entries (<[k:=ps]> parts) ≡ₚ placed k (entries ps) ++ all_entries parts.
Proof. intros N. unfold all_entries. by rewrite map_to_list_insert. Qed.

Lemma all_entries_delete parts k ps :
  parts !! k = Some ps →
  all_entries parts ≡ₚ placed k (entries ps) ++ all_entries (delete k parts).
Proof. intros N. unfold all_entries. by rewrite <- (map_to_list_delete parts k ps N). Qed.

Lemma all_entries_insert parts k ps :
  all_entries (<[k:=ps]> parts) ≡ₚ placed k (entries ps) ++ all_entries (delete k parts).
Proof. rewrite <- insert_delete_eq. apply all_entries_fresh. apply lookup_delete_eq. Qed.

(** ** Counting WAL entries *)

Definition wal_of (o : string) (x : Placed) : Prop :=
  x.2.(entry_kind) = Wal ∧ x.2.(object) = o.

#[export] Instance wal_of_dec o x : Decision (wal_of o x).
Proof. unfold wal_of. apply _. Defined.

(** The number of WAL entries of object [o]. *)
Definition wal_count (o : string) (E : list Placed) : N := len (filter (wal_of o) E).

#[export] Instance wal_count_perm o : Proper ((≡ₚ) ==> (=)) (wal_count o).
Proof. intros E E' P. unfold wal_count, len. by rewrite P. Qed.

Lemma wal_count_app o E E' : wal_count o (E ++ E') = wal_count o E + wal_count o E'.
Proof. unfold wal_count, len. rewrite filter_app, length_app. lia. Qed.

Lemma wal_count_cons o x E :
  wal_count o (x :: E) = (if decide (wal_of o x) then 1 else 0) + wal_count o E.
Proof. unfold wal_count, len. rewrite filter_cons. case_decide; cbn; lia. Qed.

Lemma wal_count_zero o E : wal_count o E = 0 ↔ ∀ x, x ∈ E → ¬ wal_of o x.
Proof.
  induction E as [|y E IH].
  - unfold wal_count. cbn. split; [|done]. by intros _ x ?%elem_of_nil.
  - rewrite wal_count_cons. split.
    + intros Z. case_decide; [lia|]. intros x [->|I]%elem_of_cons; [done|].
      apply IH; [lia|done].
    + intros Z. rewrite decide_False by (apply Z; left).
      apply IH. intros x I. apply Z. by right.
Qed.

Lemma wal_count_all o E : (∀ x, x ∈ E → wal_of o x) → wal_count o E = len E.
Proof.
  intros A. unfold wal_count. by rewrite filter_all.
Qed.

(** The live chunk counts are the numbers of WAL entries, absent for none. *)
Definition live_ok (live : gmap string N) (E : list Placed) : Prop :=
  ∀ o, live !! o = (if wal_count o E =? 0 then None else Some (wal_count o E)).

#[export] Instance live_ok_perm live : Proper ((≡ₚ) ==> iff) (live_ok live).
Proof.
  intros E E' P. unfold live_ok. split; intros L o;
    by rewrite L, (wal_count_perm o _ _ P).
Qed.

(** ** Releasing entries *)

(** Whether releasing [e] retires its object when [kept] are the entries that stay. *)
Definition retires (kept : list Placed) (e : IndexEntry) : Prop :=
  e.(entry_kind) = Segment ∨ wal_count e.(object) kept = 0.

#[export] Instance retires_dec kept e : Decision (retires kept e).
Proof. unfold retires. apply _. Defined.

Lemma release_entry_spec s k e kept :
  live_ok s.(wal_live_chunks) ((k, e) :: kept) →
  ∃ live, release_entry s e =
      set_retired (set_wal_live_chunks s live)
        (if decide (retires kept e) then <[e.(object) := s.(clock_ms)]> s.(retired)
         else s.(retired))
    ∧ live_ok live kept.
Proof.
  intros L. unfold release_entry.
  assert (∀ o, wal_count o ((k, e) :: kept)
               = (if decide (wal_of o (k, e)) then 1 else 0) + wal_count o kept) as C
    by (intros; apply wal_count_cons).
  destruct (entry_kind e) eqn:K.
  - specialize (C (object e)) as Ce.
    rewrite decide_True in Ce by done.
    rewrite (L (object e)), Ce, (proj2 (N.eqb_neq _ _)) by lia.
    replace (u64_saturating_sub (1 + wal_count (object e) kept) 1)
      with (wal_count (object e) kept) by (unfold u64_saturating_sub; lia).
    assert (∀ o, o ≠ object e → wal_live_chunks s !! o
              = (if wal_count o kept =? 0 then None else Some (wal_count o kept))) as Lo.
    { intros o D. rewrite L, C, decide_False; [done|]. intros [_ E]. by apply D. }
    destruct (N.eqb_spec (wal_count (object e) kept) 0) as [Z|Z].
    + rewrite decide_True by (by right).
      eexists. split; [reflexivity|]. cbn. rewrite delete_insert_eq.
      intros o. destruct (decide (o = object e)) as [->|D].
      * by rewrite lookup_delete_eq, Z.
      * rewrite lookup_delete_ne by done. by apply Lo.
    + rewrite decide_False by (unfold retires; rewrite K; by intros [|]).
      exists (<[object e := wal_count (object e) kept]> (wal_live_chunks s)).
      split; [reflexivity|].
      intros o. destruct (decide (o = object e)) as [->|D].
      * rewrite lookup_insert_eq. by rewrite (proj2 (N.eqb_neq _ _)).
      * rewrite lookup_insert_ne by done. by apply Lo.
  - rewrite decide_True by (by left). exists (wal_live_chunks s).
    split; [by destruct s|]. intros o. rewrite L, C, decide_False; [done|].
    intros [? _]. cbn in *. congruence.
Qed.

(** The objects of [removed] that releasing them retires. *)
Definition retired_by (removed : list IndexEntry) (kept : list Placed) (o : string) : Prop :=
  ∃ e, e ∈ removed ∧ e.(object) = o ∧ retires kept e.

#[export] Instance retired_by_dec removed kept o : Decision (retired_by removed kept o).
Proof.
  refine (cast_if (decide (Exists (λ e, e.(object) = o ∧ retires kept e) removed)));
    by rewrite Exists_exists in *.
Defined.

(** Releasing a batch: the counts are those of the entries that stay, an object is retired
    exactly when a segment entry of it, or its last WAL entry, was released, and nothing else
    changes. *)
Lemma release_entries_spec s k removed kept :
  live_ok s.(wal_live_chunks) (placed k removed ++ kept) →
  ∃ live ret, release_entries s removed = set_retired (set_wal_live_chunks s live) ret
    ∧ live_ok live kept
    ∧ (∀ o, retired_by removed kept o → ret !! o = Some s.(clock_ms))
    ∧ (∀ o, ¬ retired_by removed kept o → ret !! o = s.(retired) !! o).
Proof.
  revert s. induction removed as [|e removed IH]; intros s L.
  - exists (wal_live_chunks s), (retired s). split_and!; [by destruct s|done| |done].
    by intros o (e & ?%elem_of_nil & _).
  - change (release_entries s (e :: removed)) with (release_entries (release_entry s e) removed).
    destruct (release_entry_spec s k e (placed k removed ++ kept) L) as (live1 & -> & L1).
    match goal with |- context [release_entries ?s1 removed] =>
      destruct (IH s1 L1) as (live & ret & E & L2 & R1 & R2) end.
    exists live, ret. cbn in R1, R2.
    split_and!; [exact E|done| |]; intros o.
    + intros (e' & I & <- & Re). apply elem_of_cons in I as [->|I]; [|by apply R1; exists e'].
      destruct (decide (retired_by removed kept (object e))) as [F|F]; [by apply R1|].
      rewrite R2, decide_True; [by rewrite lookup_insert_eq| |done].
      destruct Re as [?|Z]; [by left|right]. rewrite wal_count_app, Z, N.add_0_r.
      apply wal_count_zero. intros [k' f] [-> I]%elem_of_placed [Kf Of]. cbn in *.
      apply F. exists f. split_and!; [done|done|]. right. by rewrite Of.
    + intros F. rewrite R2 by (intros (f & I & ? & ?); apply F; exists f; set_solver).
      case_decide as D; [|done]. apply lookup_insert_ne. intros <-. apply F.
      exists e. split_and!; [left|done|]. destruct D as [?|Z]; [by left|right].
      rewrite wal_count_app in Z. lia.
Qed.

(** What the log plane's paths tell: which paths are WAL objects, when a WAL object was
    created, and which place of which partition a segment holds. *)
Class PathSpace := {
  wal_path : string → bool;
  wal_ctime : string → N;
  seg_place : string → option (StreamId * N * N);
}.

Class PathLaws `{PathSpace} : Prop := {
  seg_not_wal : ∀ g x, seg_place g = Some x → wal_path g = false;
  prefix_not_wal : ∀ ns c, wal_path (collection_prefix ns c) = false;
  prefix_not_seg : ∀ ns c, seg_place (collection_prefix ns c) = None;
  pk_prefix_not_wal : ∀ ns c, wal_path (collection_pk_prefix ns c) = false;
  pk_prefix_not_seg : ∀ ns c, seg_place (collection_pk_prefix ns c) = None;
}.

Section objects.
Context `{PathLaws}.

(** A committed WAL object is in the commit records, or so old that a commit of it is stale. *)
Definition recorded (clock : N) (commits : gmap string WalCommitRecord) (o : string) : Prop :=
  is_Some (commits !! o)
  ∨ u64_saturating_add (wal_ctime o) (2 * WAL_COMMIT_WINDOW_MS) < clock.

(** The offset [b] of partition [k] will not be held by a WAL entry again. *)
Definition passed (last_stream : N) (parts : PartMap) (k : PartKey) (b : N) : Prop :=
  k.1 <= last_stream
  ∧ ∀ ps, parts !! k = Some ps →
      b < ps.(next_offset) ∧ ∀ e, ps.(index) !! b = Some e → e.(entry_kind) = Segment.

Record objects_inv (clock last_stream : N) (parts : PartMap) (live : gmap string N)
    (commits : gmap string WalCommitRecord) (ret : gmap string N) : Prop := {
  oi_live : live_ok live (all_entries parts);
  oi_count : ∀ o, wal_count o (all_entries parts) <= u32_MAX;
  oi_wal : ∀ k e, (k, e) ∈ all_entries parts → e.(entry_kind) = Wal →
    wal_path e.(object) = true;
  oi_seg : ∀ k e, (k, e) ∈ all_entries parts → e.(entry_kind) = Segment →
    seg_place e.(object) = Some (k, e.(base_offset));
  oi_retired : ∀ o k e, is_Some (ret !! o) → (k, e) ∈ all_entries parts → e.(object) ≠ o;
  oi_recorded : ∀ o, wal_path o = true →
    is_Some (ret !! o) ∨ wal_count o (all_entries parts) ≠ 0 → recorded clock commits o;
  oi_commits : ∀ o r, commits !! o = Some r → r.(wal_created_at_ms) = wal_ctime o;
  oi_gone : ∀ g k b, is_Some (ret !! g) → seg_place g = Some (k, b) →
    passed last_stream parts k b;
}.

(** All partitions are well formed. *)
Definition parts_ok (W : N) (parts : PartMap) : Prop :=
  map_Forall (λ _, partition_ok W) parts.

(** ** Where an entry is *)

Definition place (x : Placed) : StreamId * N * N := (x.1, x.2.(base_offset)).

Lemma entry_key W ps e :
  partition_ok W ps → e ∈ entries ps → ps.(index) !! e.(base_offset) = Some e.
Proof.
  intros [[a T] _ _ _ _] [b I]%elem_of_entries. apply elem_of_btree_iter in I as M.
  by destruct (tiles_elem _ _ _ _ _ T M) as (-> & _).
Qed.

Lemma entries_NoDup W ps : partition_ok W ps → NoDup (base_offset <$> entries ps).
Proof.
  intros [[a T] _ _ _ _]. unfold entries, btree_values.
  assert (base_offset <$> (btree_iter (index ps)).*2 = (btree_iter (index ps)).*1) as ->.
  { revert a T. induction (btree_iter (index ps)) as [|[k e] es IH]; intros a T; cbn; [done|].
    destruct T as (-> & B & _ & T). rewrite B. f_equal. by eapply IH. }
  apply ordered_NoDup. by eapply tiles_ordered.
Qed.

Lemma place_NoDup W parts : parts_ok W parts → NoDup (place <$> all_entries parts).
Proof.
  induction parts as [|k ps parts N IH] using map_ind; intros P.
  - cbn. constructor.
  - apply map_Forall_insert in P as [Pk P]; [|done].
    rewrite (all_entries_fresh _ _ _ N), fmap_app. apply NoDup_app. split_and!.
    + unfold placed. rewrite <- list_fmap_compose.
      change (place ∘ pair k) with (pair k ∘ base_offset). rewrite list_fmap_compose.
      apply NoDup_fmap_2; [|by eapply entries_NoDup]. by intros ?? [=].
    + intros x ([k1 e1] & -> & I1)%list_elem_of_fmap ([k2 e2] & E & I2)%list_elem_of_fmap.
      apply elem_of_placed in I1 as [-> _].
      apply elem_of_all_entries in I2 as (ps2 & M & _). unfold place in E. cbn in E.
      injection E as <- _. congruence.
    + by apply IH.
Qed.

Lemma place_disjoint W parts A B x y :
  parts_ok W parts → all_entries parts ≡ₚ A ++ B → x ∈ A → y ∈ B → place x ≠ place y.
Proof.
  intros P%place_NoDup E I J. rewrite E, fmap_app in P. apply NoDup_app in P as (_ & D & _).
  intros Q. apply (D (place x)); [by apply list_elem_of_fmap_2|].
  rewrite Q. by apply list_elem_of_fmap_2.
Qed.

(** ** Time passing *)

Lemma recorded_mono clock clock' commits o :
  clock <= clock' → recorded clock commits o → recorded clock' commits o.
Proof. intros L [?|?]; [by left|right; lia]. Qed.

Lemma objects_clock clock clock' last parts live commits ret :
  clock <= clock' →
  objects_inv clock last parts live commits ret → objects_inv clock' last parts live commits ret.
Proof. intros L [? ? ? ? ? R ? ?]. constructor; try done. eauto using recorded_mono. Qed.

(** ** Entries leave the index *)

Definition objects_ok (s : MetaState) : Prop :=
  objects_inv s.(clock_ms) s.(last_stream_id) s.(partitions) s.(wal_live_chunks)
    s.(wal_commits) s.(retired).

(** Segment entries do not count as WAL entries. *)
Lemma wal_count_segments o (E : list Placed) :
  (∀ k e, (k, e) ∈ E → e.(entry_kind) = Segment) → wal_count o E = 0.
Proof.
  intros A. apply wal_count_zero. intros [k e] I [K _]. cbn in K.
  rewrite (A k e I) in K. done.
Qed.

Lemma live_ok_segments live A E :
  (∀ k e, (k, e) ∈ A → e.(entry_kind) = Segment) → live_ok live E → live_ok live (A ++ E).
Proof. intros S L o. rewrite wal_count_app, (wal_count_segments o A S). apply L. Qed.

Section release.
Context (W : N) (s : MetaState) (parts' : PartMap) (k : PartKey)
  (removed : list IndexEntry) (kept added : list Placed).
Hypothesis P : parts_ok W s.(partitions).
Hypothesis O : objects_ok s.
Hypothesis before : all_entries s.(partitions) ≡ₚ placed k removed ++ kept.
Hypothesis after : all_entries parts' ≡ₚ added ++ kept.
Hypothesis added_ok : ∀ k' e, (k', e) ∈ added →
  e.(entry_kind) = Segment ∧ seg_place e.(object) = Some (k', e.(base_offset))
  ∧ s.(retired) !! e.(object) = None.
Hypothesis swap_or_drop : added = [] ∨ ∀ e, e ∈ removed → e.(entry_kind) = Wal.
Hypothesis passed_mono : ∀ k' b,
  passed s.(last_stream_id) s.(partitions) k' b → passed s.(last_stream_id) parts' k' b.
Hypothesis removed_passed : ∀ e, e ∈ removed → e.(entry_kind) = Segment →
  passed s.(last_stream_id) parts' k e.(base_offset).

Lemma removed_in e : e ∈ removed → (k, e) ∈ all_entries s.(partitions).
Proof. intros I. rewrite before. apply elem_of_app. left. by apply elem_of_placed. Qed.

Lemma kept_in x : x ∈ kept → x ∈ all_entries s.(partitions).
Proof. intros I. rewrite before. apply elem_of_app. by right. Qed.

Lemma added_seg k' e : (k', e) ∈ added → e.(entry_kind) = Segment.
Proof. by intros (? & _)%added_ok. Qed.

Lemma removed_wal e : e ∈ removed → e.(entry_kind) = Wal → wal_path e.(object) = true.
Proof. intros I%removed_in. by eapply (oi_wal _ _ _ _ _ _ O). Qed.

(** No entry that stays or comes in points into an object the release retires. *)
Lemma retired_by_gone o k' e :
  retired_by removed kept o → (k', e) ∈ added ++ kept → e.(object) ≠ o.
Proof.
  intros (f & If & <- & Rf) I Q. destruct (entry_kind f) eqn:Kf.
  - destruct Rf as [?|Z]; [congruence|]. apply removed_wal in Kf; [|done].
    assert (entry_kind e = Segment → False) as NS.
    { intros Ks. assert (seg_place (object e) = Some (k', base_offset e)) as S.
      { apply elem_of_app in I as [I|I]; [by apply added_ok|].
        by eapply (oi_seg _ _ _ _ _ _ O), Ks; apply kept_in. }
      apply seg_not_wal in S. congruence. }
    destruct (entry_kind e) eqn:Ke; [|by apply NS].
    apply elem_of_app in I as [I|I]; [apply added_seg in I; congruence|].
    eapply wal_count_zero in Z; [|exact I]. by apply Z.
  - destruct swap_or_drop as [E|A]; [|by rewrite A in Kf]. rewrite E in I.
    pose proof (oi_seg _ _ _ _ _ _ O _ _ (removed_in _ If) Kf) as Sf.
    assert (seg_place (object e) = Some (k', base_offset e)) as Se.
    { eapply (oi_seg _ _ _ _ _ _ O); [by apply kept_in|].
      destruct (entry_kind e) eqn:Ke; [|done].
      eapply (oi_wal _ _ _ _ _ _ O) in Ke; [|by apply kept_in].
      apply seg_not_wal in Sf. congruence. }
    eapply (place_disjoint W _ _ _ (k, f) (k', e) P before); [by apply elem_of_placed|done|].
    unfold place. cbn. congruence.
Qed.

Lemma release_objects : objects_ok (release_entries (set_partitions s parts') removed).
Proof.
  pose proof O as [Lv Ct Wa Se Re Rc Cm Go]. rewrite before in Lv.
  destruct (release_entries_spec (set_partitions s parts') k removed kept Lv)
    as (live & ret & -> & L' & R1 & R2). cbn in R1, R2.
  assert (∀ o, is_Some (ret !! o) → retired_by removed kept o ∨ is_Some (retired s !! o)) as Rd.
  { intros o R. destruct (decide (retired_by removed kept o)); [by left|right].
    by rewrite <- R2. }
  assert (∀ o, wal_count o (added ++ kept) = wal_count o kept) as Ca.
  { intros o. rewrite wal_count_app, wal_count_segments; [lia|]. exact added_seg. }
  unfold objects_ok. cbn. constructor.
  - rewrite after. apply live_ok_segments; [exact added_seg|done].
  - intros o. rewrite after, Ca. specialize (Ct o). rewrite before, wal_count_app in Ct. lia.
  - intros k' e. rewrite after. intros [I|I]%elem_of_app Ke.
    + apply added_seg in I. congruence.
    + eapply Wa; [by apply kept_in|done].
  - intros k' e. rewrite after. intros [I|I]%elem_of_app Ke; [by apply added_ok|].
    by eapply Se; [apply kept_in|].
  - intros o k' e R. rewrite after. intros I. destruct (Rd o R) as [B|B].
    + by eapply retired_by_gone.
    + apply elem_of_app in I as [I|I]; [|by eapply Re; [|apply kept_in]].
      apply added_ok in I as (_ & _ & N). intros <-. rewrite N in B. by destruct B.
  - intros o Wo X. apply Rc; [done|]. rewrite after, Ca in X.
    rewrite before, wal_count_app. destruct X as [X|X]; [|right; lia].
    destruct (Rd o X) as [(f & If & <- & Rf)|B]; [right|by left].
    intros Z. destruct (entry_kind f) eqn:Kf.
    + assert (wal_count (object f) (placed k removed) = 0) as Z' by lia.
      apply (proj1 (wal_count_zero _ _) Z' (k, f)); [by apply elem_of_placed|done].
    + pose proof (seg_not_wal _ _ (Se _ _ (removed_in _ If) Kf)). congruence.
  - done.
  - intros g k' b R S. destruct (Rd g R) as [(f & If & <- & Rf)|B].
    + destruct (entry_kind f) eqn:Kf.
      * apply removed_wal in Kf; [|done]. apply seg_not_wal in S. congruence.
      * pose proof (Se _ _ (removed_in _ If) Kf) as S'. rewrite S in S'.
        injection S' as -> ->. by apply removed_passed.
    + apply passed_mono. by eapply Go.
Qed.
End release.
End objects.
