(* ===== verification/MetaLogInv.v ===== *)
(** * The log invariant is kept by every command

    [log_inv] joins the partitions' invariant with the objects' one; each handler that
    touches the log keeps it ([commit_wal], [swap_segment], [trim_partition],
    [prune_wal_commits], [forget_objects], creating and removing streams), and so does every
    command.  [W] bounds the offsets and counters; [weight] is what a command adds. *)

From Stdlib Require Import NArith Lia.
From stdpp Require Import prelude numbers gmap strings sorting list.
From S2P Require Import Prelude.
From S2P Require Import BTree.
From S2P Require Import Ids.
From S2P Require Import Schema.
From S2P Require Import MetaTypes.
From S2P Require Import MetaState.
From S2P Require Import MetaLeases.
From S2P Require Import MetaLog.
From S2P Require Import MetaCatalog.
From S2P Require Import MetaCollections.
From S2P Require Import MetaApply.
From S2P Require Import MetaFrames.
From S2P Require Import PartitionInv.
From S2P Require Import MetaObjects.

Open Scope N_scope.

(** What a command can add to an offset, a byte count or an id. *)
Fixpoint chunks_weight (chunks : list WalChunk) : N :=
  match chunks with [] => 0 | c :: chunks => chunk_weight c + chunks_weight chunks end.

Definition weight (c : Command) : N :=
  1 + match c with
      | CommitWal _ _ chunks => chunks_weight chunks
      | SwapSegment _ _ _ _ range _ _ _ _ => range.(range_end) - range.(range_start)
      | _ => 0
      end.

Fixpoint log_weight (log : list Command) : N :=
  match log with [] => 0 | c :: log => weight c + log_weight log end.

Lemma log_weight_app l1 l2 : log_weight (l1 ++ l2) = log_weight l1 + log_weight l2.
Proof. induction l1 as [|c l1 IH]; cbn; [done|]. rewrite IH. lia. Qed.

(** ** Appending chunks *)

Definition chunk_key (c : WalChunk) : PartKey := (c.(chunk_stream), c.(chunk_partition)).

(** A partition after the chunks that name it were appended in order. *)
Definition append_all (ps : PartitionState) (obj : string) (chunks : list WalChunk)
  : PartitionState := foldl (λ ps c, append_chunk ps obj c) ps chunks.

Lemma partition_ok_mono W W' ps : W <= W' → partition_ok W ps → partition_ok W' ps.
Proof. intros L [? ? ? ? ?]. constructor; try done; lia. Qed.

Lemma parts_ok_mono W W' parts : W <= W' → parts_ok W parts → parts_ok W' parts.
Proof. intros L P k ps M. eapply partition_ok_mono; [done|by eapply P]. Qed.

Lemma append_chunk_entries W parts k ps obj c :
  parts_ok W parts → parts !! k = Some ps →
  all_entries (<[k := append_chunk ps obj c]> parts)
    ≡ₚ (k, wal_entry ps.(next_offset) obj c) :: all_entries parts.
Proof.
  intros P M. rewrite all_entries_insert, (all_entries_delete _ _ _ M).
  unfold entries, btree_values. rewrite (append_chunk_iter W) by (by eapply P).
  unfold placed. rewrite !fmap_app, <- app_assoc. cbn. by rewrite Permutation_middle.
Qed.

(** A partition may change as long as no WAL entry comes to hold an old offset. *)
Lemma passed_insert last parts k ps ps' k' b :
  parts !! k = Some ps → ps.(next_offset) <= ps'.(next_offset) →
  (∀ b e, b < ps.(next_offset) → ps'.(index) !! b = Some e →
     ps.(index) !! b = Some e ∨ e.(entry_kind) = Segment) →
  passed last parts k' b → passed last (<[k := ps']> parts) k' b.
Proof.
  intros M N C [L Q]. split; [done|]. intros qs. rewrite lookup_insert_Some.
  intros [[<- <-]|[_ ?]]; [|by apply Q]. destruct (Q _ M) as [Lt Sg]. split; [lia|].
  intros e I. destruct (C b e Lt I) as [?|?]; [by apply Sg|done].
Qed.

Lemma append_chunk_passed W last parts k ps obj c k' b :
  parts_ok W parts → parts !! k = Some ps → 0 < c.(chunk_records) →
  W + chunk_weight c <= u64_MAX →
  passed last parts k' b → passed last (<[k := append_chunk ps obj c]> parts) k' b.
Proof.
  intros P M R B. eapply passed_insert; [done| |].
  - destruct (append_chunk_ok W ps obj c (P _ _ M) R B) as (_ & -> & _). lia.
  - intros b' e Lt. cbn. rewrite lookup_insert_ne by lia. by left.
Qed.

(** The append loop on partitions that exist. *)
Lemma append_chunks_spec W s obj chunks acc :
  parts_ok W s.(partitions) →
  Forall (λ c, is_Some (s.(partitions) !! chunk_key c) ∧ 0 < c.(chunk_records)) chunks →
  W + chunks_weight chunks <= u64_MAX →
  ∃ parts' bases new,
    append_chunks s obj chunks acc = (set_partitions s parts', Ok (acc ++ bases))
    ∧ length bases = length chunks
    ∧ parts_ok (W + chunks_weight chunks) parts'
    ∧ all_entries parts' ≡ₚ new ++ all_entries s.(partitions)
    ∧ length new = length chunks
    ∧ (∀ x, x ∈ new → wal_of obj x)
    ∧ (∀ k, parts' !! k = (λ ps, append_all ps obj (filter (λ c, chunk_key c = k) chunks))
                            <$> s.(partitions) !! k)
    ∧ (∀ last k b, passed last s.(partitions) k b → passed last parts' k b).
Proof.
  revert W s acc. induction chunks as [|c chunks IH]; intros W s acc P F B.
  - exists (partitions s), [], []. rewrite app_nil_r. split_and!; try done.
    + by destruct s.
    + cbn. by rewrite N.add_0_r.
    + by intros x ?%elem_of_nil.
    + intros k. cbn. by destruct (partitions s !! k).
  - apply Forall_cons in F as [[[ps M] R] F]. cbn [chunks_weight] in B.
    set (k := chunk_key c). set (ps' := append_chunk ps obj c).
    set (s' := set_partitions s (<[k := ps']> (partitions s))).
    assert (parts_ok (W + chunk_weight c) (partitions s')) as P'.
    { apply map_Forall_insert_2; [by apply append_chunk_ok; [eapply P| |lia]|].
      eapply parts_ok_mono; [|done]. lia. }
    destruct (IH (W + chunk_weight c) s' (acc ++ [next_offset ps]) P')
      as (parts' & bases & new & E & L & P2 & A & Ln & Wn & K & Pd).
    { eapply Forall_impl; [exact F|]. cbn. intros d [S D]. split; [|done].
      rewrite lookup_insert_is_Some'. by right. }
    { lia. }
    exists parts', (next_offset ps :: bases), ((k, wal_entry (next_offset ps) obj c) :: new).
    split_and!.
    + cbn [append_chunks]. unfold chunk_key in M. rewrite M. cbv zeta.
      change (set_partition s (chunk_stream c) (chunk_partition c) (append_chunk ps obj c)) with s'.
      rewrite E, <- app_assoc. done.
    + cbn. lia.
    + eapply parts_ok_mono; [|exact P2]. cbn. lia.
    + rewrite A. cbn. unfold ps'. rewrite (append_chunk_entries W) by done. by rewrite Permutation_middle.
    + cbn. lia.
    + intros x [->|I]%elem_of_cons; [done|by apply Wn].
    + intros k'. rewrite K, filter_cons.
      change (partitions s') with (<[k := ps']> (partitions s)). destruct (decide (k = k')) as [<-|D].
      * rewrite lookup_insert_eq, decide_True by done. unfold k. by rewrite M.
      * rewrite lookup_insert_ne, decide_False by done. done.
    + intros last k' b Q. apply Pd. eapply append_chunk_passed; try done. lia.
Qed.

(** ** Creating partitions *)

Lemma insert_partitions_entries m id n :
  (∀ p, m !! (id, p) = None) → all_entries (insert_partitions m id n) ≡ₚ all_entries m.
Proof.
  intros F. induction n as [|n IH]; cbn [insert_partitions]; [done|].
  rewrite all_entries_fresh; [exact IH|].
  rewrite insert_partitions_lookup, decide_False; [apply F|]. cbn. lia.
Qed.

Lemma partition_default_ok W : partition_ok W PartitionState_default.
Proof. constructor; cbn; try done; [by exists 0|lia|lia]. Qed.

(** ** The invariant *)

Section log.
Context `{PathLaws}.

Record log_inv (W clock last : N) (parts : PartMap) (live : gmap string N)
    (commits : gmap string WalCommitRecord) (ret : gmap string N) : Prop := {
  li_parts : parts_ok W parts;
  li_known : ∀ k ps, parts !! k = Some ps → k.1 <= last;
  li_last : last <= W;
  li_objects : objects_inv clock last parts live commits ret;
}.

Definition log_ok (W : N) (s : MetaState) : Prop :=
  log_inv W s.(clock_ms) s.(last_stream_id) s.(partitions) s.(wal_live_chunks)
    s.(wal_commits) s.(retired).

Lemma log_mono W W' clock clock' last parts live commits ret :
  W <= W' → clock <= clock' →
  log_inv W clock last parts live commits ret → log_inv W' clock' last parts live commits ret.
Proof.
  intros L C [P K La O]. constructor; try done.
  - by eapply parts_ok_mono.
  - lia.
  - by eapply objects_clock.
Qed.

(** One partition's entries change. *)
Lemma all_entries_change parts k ps ps' removed added keep :
  parts !! k = Some ps →
  entries ps ≡ₚ removed ++ keep → entries ps' ≡ₚ added ++ keep →
  ∃ kept, all_entries parts ≡ₚ placed k removed ++ kept
    ∧ all_entries (<[k := ps']> parts) ≡ₚ placed k added ++ kept.
Proof.
  intros M E E'. exists (placed k keep ++ all_entries (delete k parts)). unfold placed. split.
  - rewrite (all_entries_delete _ _ _ M). unfold placed. by rewrite E, fmap_app, <- app_assoc.
  - rewrite all_entries_insert. unfold placed. by rewrite E', fmap_app, <- app_assoc.
Qed.

(** The index changed by [removed] and [added]; both live in partition [k]. *)
Lemma release_log W W' s k ps ps' removed added keep :
  log_ok W s → W <= W' →
  s.(partitions) !! k = Some ps →
  entries ps ≡ₚ removed ++ keep → entries ps' ≡ₚ added ++ keep →
  partition_ok W' ps' → ps.(next_offset) <= ps'.(next_offset) →
  (∀ b e, ps'.(index) !! b = Some e → ps.(index) !! b = Some e ∨ e.(entry_kind) = Segment) →
  (∀ e, e ∈ added → e.(entry_kind) = Segment
     ∧ seg_place e.(object) = Some (k, e.(base_offset)) ∧ s.(retired) !! e.(object) = None) →
  (added = [] ∨ ∀ e, e ∈ removed → e.(entry_kind) = Wal) →
  log_ok W' (release_entries (set_partition s k.1 k.2 ps') removed).
Proof.
  intros [P K La O] LW M E E' P' Nx Ix Ad Sw.
  destruct (all_entries_change _ _ _ _ _ _ _ M E E') as (kept & B & A).
  assert (log_ok W' (release_entries (set_partition s k.1 k.2 ps') removed)
    ↔ objects_ok (release_entries (set_partition s k.1 k.2 ps') removed)) as ->.
  { destruct (release_entries_frame (set_partition s k.1 k.2 ps') removed) as (l & r & ->).
    split; [by intros [? ? ? ?]|]. intros O'. constructor; try done.
    - cbn. apply map_Forall_insert_2; [done|]. by eapply parts_ok_mono.
    - cbn. intros k' qs. rewrite lookup_insert_Some. rewrite <- surjective_pairing.
      intros [[<- _]|[_ ?]]; by eapply K.
    - cbn. lia. }
  unfold set_partition. rewrite <- surjective_pairing.
  eapply (release_objects W s _ k removed kept (placed k added)); try done.
  - intros k' e [-> I]%elem_of_placed. by apply Ad.
  - destruct Sw as [->|?]; [by left|by right].
  - intros k' b. eapply passed_insert; [done|done|]. intros ?? _. apply Ix.
  - intros e I Ks. assert (e ∈ entries ps) as I' by (rewrite E; set_solver).
    pose proof (entry_key _ _ _ (P _ _ M) I') as Ie. split; [by eapply K|].
    intros qs. rewrite lookup_insert_eq. intros [= <-].
    apply (index_below W) in Ie as Lt; [|by eapply P]. split; [lia|].
    intros f If. destruct (Ix _ _ If) as [?|?]; [congruence|done].
Qed.

(** ** Committing *)

Lemma saturating_mono a b c : b <= c → u64_saturating_add a b <= u64_saturating_add a c.
Proof. unfold u64_saturating_add. lia. Qed.

(** An object that may be committed is neither retired nor referenced. *)
Lemma committable W s obj created :
  log_ok W s → wal_path obj = true → wal_ctime obj = created →
  s.(wal_commits) !! obj = None →
  (u64_saturating_add created WAL_COMMIT_WINDOW_MS <? s.(clock_ms)) = false →
  s.(retired) !! obj = None ∧ wal_count obj (all_entries s.(partitions)) = 0.
Proof.
  intros L Wp <- C St. bools. pose proof (oi_recorded _ _ _ _ _ _ (li_objects _ _ _ _ _ _ _ L) obj Wp) as R.
  assert (¬ recorded (clock_ms s) (wal_commits s) obj) as NR.
  { intros [[r Hr]|Q]; [congruence|].
    pose proof (saturating_mono (wal_ctime obj) WAL_COMMIT_WINDOW_MS (2 * WAL_COMMIT_WINDOW_MS)).
    unfold WAL_COMMIT_WINDOW_MS in *. lia. }
  split.
  - destruct (retired s !! obj) eqn:E; [|done]. exfalso. apply NR, R. left. by eexists.
  - destruct (decide (wal_count obj (all_entries (partitions s)) = 0)); [done|].
    exfalso. apply NR, R. by right.
Qed.

(** The objects' invariant after the entries [new] of one WAL object came in. *)
Lemma commit_objects clock last parts live commits ret parts' new obj record :
  objects_inv clock last parts live commits ret →
  wal_path obj = true → record.(wal_created_at_ms) = wal_ctime obj →
  ret !! obj = None → wal_count obj (all_entries parts) = 0 →
  all_entries parts' ≡ₚ new ++ all_entries parts → (∀ x, x ∈ new → wal_of obj x) →
  new ≠ [] → len new <= u32_MAX →
  (∀ k b, passed last parts k b → passed last parts' k b) →
  objects_inv clock last parts' (<[obj := len new]> live) (<[obj := record]> commits) ret.
Proof.
  intros [Lv Ct Wa Se Re Rc Cm Go] Wp Cr Rn Z A Nw Ne Lu Pd.
  assert (∀ o, wal_count o (new ++ all_entries parts)
               = if decide (o = obj) then len new else wal_count o (all_entries parts)) as C.
  { intros o. rewrite wal_count_app. case_decide as D.
    - subst. rewrite Z, wal_count_all by done. lia.
    - replace (wal_count o new) with 0; [lia|]. symmetry. apply wal_count_zero.
      intros x I [_ Q]. apply Nw in I as [_ Q']. congruence. }
  assert (∀ k e, (k, e) ∈ new ++ all_entries parts →
            (e.(entry_kind) = Wal ∧ e.(object) = obj) ∨ (k, e) ∈ all_entries parts) as In.
  { intros k e [I|I]%elem_of_app; [left; by apply (Nw _ I)|by right]. }
  constructor.
  - rewrite A. intros o. rewrite C. case_decide as D.
    + subst. rewrite lookup_insert_eq, (proj2 (N.eqb_neq _ _)); [done|].
      unfold len. destruct new; [done|]. cbn. lia.
    + rewrite lookup_insert_ne by done. apply Lv.
  - intros o. rewrite A, C. case_decide; [done|apply Ct].
  - intros k e. rewrite A. intros [[_ ->]|I]%In K; [done|by eapply Wa].
  - intros k e. rewrite A. intros [[? _]|I]%In K; [congruence|by eapply Se].
  - intros o k e R. rewrite A. intros [[_ ->]|I]%In; [|by eapply Re].
    intros <-. rewrite Rn in R. by destruct R.
  - intros o Wo. rewrite A, C. intros X. unfold recorded.
    rewrite lookup_insert_is_Some'. case_decide as D; [by left; left|].
    destruct (Rc o Wo X); [by left; right|by right].
  - intros o r. rewrite lookup_insert_Some. intros [[<- <-]|[_ ?]]; [done|by apply Cm].
  - intros g k b R S. apply Pd. by eapply Go.
Qed.

Lemma commit_wal_log W s obj created chunks :
  log_ok W s → wal_path obj = true → wal_ctime obj = created →
  W + chunks_weight chunks <= u64_MAX →
  log_ok (W + chunks_weight chunks) (commit_wal s obj created chunks).1.
Proof.
  intros L Wp Ct B.
  assert (log_ok (W + chunks_weight chunks) s) as L' by (eapply log_mono, L; lia).
  unfold commit_wal.
  destruct (validate_chunks s chunks) as [[]|] eqn:V; [|state_cases; exact L'].
  pose proof L as [P K La O].
  destruct (append_chunks_spec W s obj chunks [] P) as
    (parts' & bases & new & -> & Ln & P2 & A & Lnw & Wn & Kp & Pd).
  { apply Forall_forall. intros c I. rewrite validate_chunks_Ok, Forall_forall in V.
    apply V in I. by apply validate_chunk_Ok in I as (_ & ? & ? & _). }
  { done. }
  state_cases; try exact L'.
  destruct (committable W s obj created L Wp Ct) as [R Z]; [done|done|].
  match goal with E' : ok_or _ _ = Ok ?n |- _ =>
    assert (n = len new ∧ len new <= u32_MAX) as [-> Lu] end.
  { unfold u32_try_from, len in *. rewrite Lnw. destruct (N.leb_spec (N.of_nat (length chunks)) u32_MAX);
      simplify_eq/=. split; [done|lia]. }
  bools. unfold log_ok. cbn. constructor; [done| |lia|].
  - intros k ps. rewrite Kp, fmap_Some. intros (qs & Q & _). by eapply K.
  - eapply commit_objects; try done.
    + by destruct new; [destruct chunks|].
    + apply Pd.
Qed.

(** ** Swapping and trimming *)

Lemma entries_app ps pre mid post :
  btree_iter ps.(index) = pre ++ mid ++ post → entries ps ≡ₚ mid.*2 ++ (pre ++ post).*2.
Proof.
  intros E. unfold entries, btree_values. rewrite E, !fmap_app.
  apply Permutation_app_swap_app.
Qed.

Lemma swap_log W s st p ps mm first obj rest recs seg ps' removed :
  log_ok W s → s.(partitions) !! (st, p) = Some ps →
  check_replaces ps mm ((first, obj) :: rest) first 0 = Ok recs →
  remove_entries ps ((first, obj) :: rest).*1 [] = (ps', removed) →
  seg.(entry_kind) = Segment → seg.(base_offset) = first → seg.(records) = recs →
  seg_place seg.(object) = Some ((st, p), first) →
  W + entry_bytes seg <= u64_MAX →
  log_ok (W + entry_bytes seg)
    (release_entries (set_partition s st p (insert_entry ps' seg)) removed).
Proof.
  intros L M C Rm Sk Sb Sr Sp B. pose proof L as [P K La O].
  destruct (swap_ok W ps mm first obj rest recs seg _ ps' removed B (P _ _ M) C Rm Sb Sr eq_refl)
    as (pre & mid & post & E & Nm & M1 & M2 & M3 & -> & -> & E' & Nx & Ls & P').
  assert (∀ x, x ∈ mid → (x ∈ btree_iter ps.(index))) as Im by (intros; rewrite E; set_solver).
  eapply (release_log W _ s (st, p) ps _ _ [seg] ((pre ++ post).*2)); try done.
  - lia.
  - by apply entries_app.
  - apply (entries_app _ pre [(first, seg)] post). done.
  - by rewrite Nx.
  - intros b e I%elem_of_btree_iter. rewrite E' in I.
    apply elem_of_app in I as [I|I]; [|apply elem_of_cons in I as [I|I]]; simplify_eq; auto;
      left; apply elem_of_btree_iter; rewrite E; set_solver.
  - intros e ->%list_elem_of_singleton. split_and!; [done|by rewrite Sb|].
    destruct (retired s !! object seg) eqn:R; [|done]. exfalso.
    destruct mid as [|[f e] mid]; [done|]. injection M1 as -> _.
    destruct (oi_gone _ _ _ _ _ _ O (object seg) (st, p) first) as [_ Pp]; [by eexists|done|].
    destruct (Pp _ M) as [_ Sg].
    assert (entry_kind e = Segment) by (apply Sg, elem_of_btree_iter, Im; left).
    assert (entry_kind e = Wal) by (eapply M3; left). congruence.
  - right. intros e ([k' e'] & -> & I)%list_elem_of_fmap. by eapply M3.
Qed.

Lemma swap_segment_log W s st p replaces segment range ts fence now fresh :
  log_ok W s →
  (∀ b o rest, replaces = (b, o) :: rest → seg_place segment = Some ((st, p), b)) →
  W + (range.(range_end) - range.(range_start)) <= u64_MAX →
  log_ok (W + (range.(range_end) - range.(range_start)))
    (swap_segment s st p replaces segment range ts fence now fresh).1.
Proof.
  intros L Sp B. set (len := range_end range - range_start range) in *.
  assert (log_ok (W + len) s) as L' by (eapply log_mono, L; lia).
  unfold swap_segment.
  destruct (partition_state s st p) as [ps|] eqn:Ps; [|state_cases; exact L'].
  apply partition_state_Ok in Ps. erewrite partition_state_mut_Ok by exact Ps.
  state_cases; try exact L'.
  match goal with |- log_ok _ (release_entries (set_partition ?s' _ _ (insert_entry ?q ?seg)) ?r) =>
    eapply (swap_log W s' st p ps _ _ _ _ _ seg q r); try done end.
  - eapply log_mono, L; cbn; lia.
  - by eapply Sp.
Qed.

Lemma trim_partition_log W s st p before fence now :
  log_ok W s → W <= u64_MAX → log_ok W (trim_partition s st p before fence now).1.
Proof.
  intros L B. unfold trim_partition.
  destruct (partition_state s st p) as [ps|] eqn:Ps; [|state_cases; exact L].
  apply partition_state_Ok in Ps. erewrite partition_state_mut_Ok by exact Ps.
  state_cases; try exact L.
  match goal with E : pop_entries _ _ _ _ = (?q, ?r) |- _ =>
    rename q into ps', r into removed, E into Pp end.
  pose proof L as [P K La O].
  destruct (trim_ok W ps (N.min before (next_offset ps)) ps' removed B (P _ _ Ps)) as
    (P' & Nx & popped & rest & E & E' & ->); [lia|done|].
  eapply (release_log W W (set_clock_ms s (N.max (clock_ms s) now)) (st, p) ps
            (trimmed ps ps' (N.min before (next_offset ps))) _ [] rest.*2); try done.
  - eapply log_mono, L; cbn; lia.
  - apply (entries_app ps [] popped rest E).
  - unfold entries, btree_values. cbn. by rewrite E'.
  - by rewrite Nx.
  - intros b e I. left. cbn in I. apply elem_of_btree_iter in I. apply elem_of_btree_iter.
    rewrite E, <- E'. set_solver.
  - by intros e ?%elem_of_nil.
  - by left.
Qed.

(** ** Pruning and forgetting *)

Lemma prune_wal_commits_log W s fence now :
  log_ok W s → log_ok W (prune_wal_commits s fence now).1.
Proof.
  intros L. unfold prune_wal_commits. state_cases; try exact L. unfold log_ok. cbn.
  destruct L as [P K La [Lv Ct Wa Se Re Rc Cm Go]]. constructor; try done.
  constructor; try done.
  - intros o Wo X. destruct (Rc o Wo X) as [[r Hr]|Q]; [|right; lia].
    destruct (u64_saturating_add (wal_ctime o) (2 * WAL_COMMIT_WINDOW_MS)
              <? N.max (clock_ms s) now) eqn:T; bools; [by right|left].
    exists r. apply map_lookup_filter_Some. split; [done|]. cbn.
    rewrite (Cm _ _ Hr). by apply N.leb_le.
  - intros o r [Q _]%map_lookup_filter_Some. by apply Cm.
Qed.

Lemma objects_fewer_retired clock last parts live commits ret ret' :
  (∀ o, is_Some (ret' !! o) → is_Some (ret !! o)) →
  objects_inv clock last parts live commits ret → objects_inv clock last parts live commits ret'.
Proof.
  intros S [Lv Ct Wa Se Re Rc Cm Go]. constructor; try done.
  - intros o k e R. apply Re, S, R.
  - intros o Wo [X|X]; apply Rc; auto.
  - intros g k b R. by apply Go, S.
Qed.

Lemma forget_loop_sub ret objects n o :
  is_Some ((forget_loop ret objects n).1 !! o) → is_Some (ret !! o).
Proof.
  revert ret n. induction objects as [|x objects IH]; intros ret n; cbn; [done|].
  destruct (ret !! x); [|by apply IH]. intros I%IH. by apply lookup_delete_is_Some in I as [_ I].
Qed.

Lemma forget_objects_log W s objects fence :
  log_ok W s → log_ok W (forget_objects s objects fence).1.
Proof.
  intros L. unfold forget_objects. state_cases; try exact L.
  destruct L as [P K La O]. constructor; try done. cbn.
  eapply objects_fewer_retired, O. intros o I. eapply forget_loop_sub.
  match goal with E : forget_loop _ _ _ = _ |- _ => by rewrite E end.
Qed.

(** ** Streams *)

Lemma insert_stream_log W s ns name n class retention :
  log_ok W s → W < u64_MAX → log_ok (W + 1) (insert_stream s ns name n class retention).1.
Proof.
  intros [P K La [Lv Ct Wa Se Re Rc Cm Go]] B.
  assert (u64_add (last_stream_id s) 1 = last_stream_id s + 1) as Id by (apply u64_add_small; lia).
  unfold insert_stream, log_ok. cbn. rewrite Id.
  assert (∀ p, partitions s !! (last_stream_id s + 1, p) = None) as F.
  { intros p. destruct (partitions s !! _) eqn:Q; [|done]. apply K in Q. cbn in Q. lia. }
  pose proof (insert_partitions_entries (partitions s) _ (N.to_nat n) F) as A.
  constructor.
  - intros k ps. rewrite insert_partitions_lookup. case_decide; intros; simplify_eq.
    + apply partition_default_ok.
    + eapply partition_ok_mono, P; [lia|done].
  - intros [i q] ps. rewrite insert_partitions_lookup. cbn. case_decide as D.
    + destruct D as [-> _]. done.
    + intros Q%K. cbn in Q. lia.
  - lia.
  - constructor.
    + by rewrite A.
    + intros o. by rewrite A.
    + intros k e. rewrite A. apply Wa.
    + intros k e. rewrite A. apply Se.
    + intros o k e. rewrite A. apply Re.
    + intros o. rewrite A. apply Rc.
    + done.
    + intros g [i q] b I S. destruct (Go _ _ _ I S) as [Lk Q]. cbn in Lk.
      split; cbn; [lia|]. intros ps. rewrite insert_partitions_lookup, decide_False; [apply Q|].
      cbn. intros [-> _]. lia.
Qed.

Lemma drop_partition_log W s k ps :
  log_ok W s → s.(partitions) !! k = Some ps →
  log_ok W (release_entries (set_partitions s (delete k s.(partitions))) (entries ps)).
Proof.
  intros [P K La O] M.
  assert (objects_ok (release_entries (set_partitions s (delete k (partitions s))) (entries ps))) as O'.
  { eapply (release_objects W s _ k (entries ps) (all_entries (delete k (partitions s))) []); try done.
    - by apply all_entries_delete.
    - by intros ?? ?%elem_of_nil.
    - by left.
    - intros k' b [Lk Q]. split; [done|]. intros qs [_ I]%lookup_delete_Some. by apply Q.
    - intros e _ _. split; [by eapply K|]. intros qs. by rewrite lookup_delete_eq. }
  destruct (release_entries_frame (set_partitions s (delete k (partitions s))) (entries ps))
    as (l & r & E). rewrite E in O' |- *. constructor; try done; cbn.
  - by apply map_Forall_delete.
  - intros k' qs [_ I]%lookup_delete_Some. by eapply K.
Qed.

Lemma remove_partitions_log W s id p n :
  log_ok W s → log_ok W (remove_partitions s id p n).
Proof.
  revert s p. induction n as [|n IH]; intros s p L; cbn [remove_partitions]; [done|].
  destruct (partitions s !! (id, p)) as [ps|] eqn:M; [|by apply IH].
  cbv zeta. apply IH. by eapply drop_partition_log in M.
Qed.

Lemma remove_stream_log W s id : log_ok W s → log_ok W (remove_stream s id).
Proof.
  intros L. unfold remove_stream. destruct (streams s !! id); [|done].
  apply remove_partitions_log. exact L.
Qed.

(** Retiring a path that is no WAL object's and no segment's. *)
Lemma retire_prefix_log W clock last parts live commits ret o t :
  wal_path o = false → seg_place o = None →
  log_inv W clock last parts live commits ret →
  log_inv W clock last parts live commits (<[o := t]> ret).
Proof.
  intros Wo So [P K La [Lv Ct Wa Se Re Rc Cm Go]]. constructor; try done. constructor; try done.
  - intros x k e. rewrite lookup_insert_is_Some'. intros [<-|R] I; [|by eapply Re].
    intros <-. destruct (entry_kind e) eqn:Ke.
    + apply Wa in I; [congruence|done].
    + apply Se in I; [congruence|done].
  - intros x Wx. rewrite lookup_insert_is_Some'. intros [[<-|R]|R]; [congruence|auto|auto].
  - intros g k b. rewrite lookup_insert_is_Some'. intros [<-|R] S; [congruence|by eapply Go].
Qed.

(** The prefixes of a dropped collection. *)
Lemma retire_collection_log W s ns id t t' :
  log_ok W s →
  log_ok W (set_retired s
    (<[collection_pk_prefix ns id := t]> (<[collection_prefix ns id := t']> s.(retired)))).
Proof.
  intros L. apply retire_prefix_log; [apply pk_prefix_not_wal|apply pk_prefix_not_seg|].
  apply retire_prefix_log; [apply prefix_not_wal|apply prefix_not_seg|exact L].
Qed.

(** Assignments to the other fields. *)
Lemma set_pointers_log W s v : log_ok W s → log_ok W (set_pointers s v).
Proof. exact id. Qed.

Lemma set_collection_hot_log W s v : log_ok W s → log_ok W (set_collection_hot s v).
Proof. exact id. Qed.

Lemma remove_link_log W s id : log_ok W s → log_ok W (remove_link s id).
Proof. intros L. frames. exact L. Qed.

Lemma leave_aliases_log W s id : log_ok W s → log_ok W (leave_aliases s id).
Proof. intros L. frames. exact L. Qed.

Lemma drop_collection_log W s ns name now :
  log_ok W s → log_ok W (drop_collection s ns name now).1.
Proof.
  intros L. unfold drop_collection.
  assert (log_ok W (set_clock_ms s (N.max (clock_ms s) now))) as L'
    by (eapply log_mono, L; cbn; lia).
  state_cases; try exact L'.
  apply retire_collection_log, set_pointers_log, remove_link_log, remove_stream_log,
    set_collection_hot_log, leave_aliases_log.
  exact L'.
Qed.

Lemma create_collection_log W s ns name schema n :
  log_ok W s → W < u64_MAX → log_ok (W + 1) (create_collection s ns name schema n).1.
Proof.
  intros L B. unfold create_collection. state_cases; [|eapply log_mono, L; lia].
  match goal with E : insert_stream ?s ?a ?b ?c ?d ?e = (?m, ?i) |- _ =>
    pose proof (insert_stream_log W s a b c d e L B) as L'; rewrite E in L' end.
  unfold insert_link in *. simplify_eq. exact L'.
Qed.

(** ** Every command *)

(** The naming discipline of one command. *)
Definition paths_ok (c : Command) : Prop :=
  match c with
  | CommitWal obj created _ => wal_path obj = true ∧ wal_ctime obj = created
  | SwapSegment st p ((b, _) :: _) segment _ _ _ _ _ => seg_place segment = Some ((st, p), b)
  | _ => True
  end.

Lemma create_stream_log W s ns name n class retention :
  log_ok W s → W < u64_MAX → log_ok (W + 1) (create_stream s ns name n class retention).1.
Proof.
  intros L B. unfold create_stream. state_cases; try (eapply log_mono, L; lia).
  match goal with E : insert_stream ?s ?a ?b ?c ?d ?e = (?m, ?i) |- _ =>
    pose proof (insert_stream_log W s a b c d e L B) as L'; rewrite E in L' end.
  exact L'.
Qed.

Lemma apply_log W s c :
  log_ok W s → paths_ok c → W + weight c <= u64_MAX → log_ok (W + weight c) (apply s c).1.
Proof.
  intros L Pc B. unfold weight in *.
  destruct c; cbn [apply]; rewrite ?N.add_0_r in *.
  all: try solve [unfold_plain; state_cases; frames; eapply log_mono, L; cbn; lia].
  - apply create_stream_log; [done|lia].
  - unfold create_link. state_cases; unfold insert_link in *; simplify_eq;
      (eapply log_mono, L; cbn; lia).
  - destruct Pc. eapply log_mono, commit_wal_log; [|reflexivity|done|done|done|]; lia.
  - eapply log_mono, swap_segment_log; [|reflexivity|done| |lia]; [lia|].
    intros b o rest ->. exact Pc.
  - eapply log_mono, trim_partition_log; [|reflexivity|done|]; lia.
  - eapply log_mono, prune_wal_commits_log; [|reflexivity|done]; lia.
  - eapply log_mono, forget_objects_log; [|reflexivity|done]; lia.
  - apply create_collection_log; [done|lia].
  - eapply log_mono, drop_collection_log; [|reflexivity|done]; lia.
Qed.

Lemma log_ok_default : log_ok 0 MetaState_default.
Proof.
  constructor; cbn; try done. constructor; try done.
  - by intros k e ?%elem_of_nil.
  - by intros k e ?%elem_of_nil.
  - intros o k e [x E]. discriminate E.
  - intros o _ [[x E]|C]; [discriminate E|done].
  - intros g k b [x E]. discriminate E.
Qed.

Lemma run_log W s log :
  log_ok W s → Forall paths_ok log → W + log_weight log <= u64_MAX →
  log_ok (W + log_weight log) (run s log).
Proof.
  revert W s. induction log as [|c log IH]; intros W s L F B; cbn in *.
  - by rewrite N.add_0_r.
  - apply Forall_cons in F as [Pc F].
    rewrite N.add_assoc. apply IH; [|done|lia]. apply apply_log; [done|done|lia].
Qed.
End log.
