(* ===== verification/MetaInvariants.v ===== *)
(** * The structural check (loams-meta/src/state/invariants.rs)

    [check_invariants] is the check the crash gate and the simulation run on a state; it
    returns every violation it finds, a [Violation] per [format!] of the source. *)

From Stdlib Require Import NArith Lia Ascii.
From stdpp Require Import prelude gmap strings numbers list.
From S2P Require Import Prelude.
From S2P Require Import BTree.
From S2P Require Import Ids.
From S2P Require Import Schema.
From S2P Require Import MetaTypes.
From S2P Require Import MetaState.

Open Scope N_scope.

(** The place a violation of a partition is reported at. *)
Abbreviation At := (StreamId * N)%type.

Inductive Violation :=
  (* partitions *)
  | VKeyedBase (at_ : At) (base entry_base : N)
  | VGap (at_ : At) (expected base : N)
  | VEmptyEntry (at_ : At) (base : N)
  | VEntriesEnd (at_ : At) (stop next_offset : N)
  | VLogStart (at_ : At) (log_start base stop : N)
  | VEmptyIndex (at_ : At) (log_start next_offset : N)
  | VBytes (at_ : At) (bytes computed : N)
  (* objects *)
  | VLiveCount (object : string) (live entries : N)
  | VNoLiveCount (object : string)
  | VRetiredReferenced (object : string)
  (* collections *)
  | VHotMissing (id : CollectionId)
  | VHotAllFalse (id : CollectionId)
  | VCollectionKey (id keyed : CollectionId)
  | VCollectionName (id : CollectionId)
  | VStreamMissing (id : CollectionId) (stream : StreamId)
  | VStreamMismatch (id : CollectionId) (stream : StreamId)
  | VLinkMissing (id : CollectionId) (link : LinkId)
  | VLinkMismatch (id : CollectionId) (link : LinkId)
  | VCollectionIdAbove (id : CollectionId) (last : N)
  | VNameMaps (ns : NamespaceId) (name : string) (id : CollectionId)
  | VAliasTarget (ns : NamespaceId) (alias : string) (id : CollectionId)
  | VAliasName (ns : NamespaceId) (alias : string)
  | VMember (ns : NamespaceId) (alias : string) (id : CollectionId)
  | VBothMaps (ns : NamespaceId) (alias : string)
  | VTargetsName (ns : NamespaceId) (alias : string)
  | VNoMember (ns : NamespaceId) (alias : string)
  | VOneUnset (ns : NamespaceId) (alias : string)
  | VWriters (ns : NamespaceId) (alias : string) (n : N)
  | VManyMembers (ns : NamespaceId) (alias : string) (n : N)
  | VOrphanStream (id : StreamId) (name : string)
  | VOrphanLink (id : LinkId) (name : string)
  | VPointer (ns : NamespaceId) (key : string).

(** [if c { violations.push(v) }] *)
Definition report (c : bool) (v : Violation) : list Violation := if c then [v] else [].

(** ** Partitions *)

(** The variables of the partition loop: the violations, the WAL entry counts and the
    referenced objects live across partitions, [expected] and [bytes] within one. *)
Record Check := mkCheck {
  violations : list Violation;
  wal_entries : gmap string N;
  referenced : gset string;
  expected : option N;
  ck_bytes : N;
}.

(** One turn of the entry loop. *)
Definition check_entry (at_ : At) (ck : Check) (be : N * IndexEntry) : Check :=
  let '(base, entry) := be in
  mkCheck
    (ck.(violations)
       ++ report (negb (base =? entry.(base_offset))) (VKeyedBase at_ base entry.(base_offset))
       ++ match ck.(expected) with
          | Some expected =>
              report (negb (entry.(base_offset) =? expected))
                (VGap at_ expected entry.(base_offset))
          | None => []
          end
       ++ report (entry.(records) =? 0) (VEmptyEntry at_ base))
    (if bool_decide (entry.(entry_kind) = Wal)
     then <[entry.(object) := u32_add (default 0 (ck.(wal_entries) !! entry.(object))) 1]>
            ck.(wal_entries)
     else ck.(wal_entries))
    ({[entry.(object)]} ∪ ck.(referenced))
    (Some (end_offset entry))
    (u64_add ck.(ck_bytes)
       (u64_saturating_sub entry.(byte_range).(range_end) entry.(byte_range).(range_start))).

(** One turn of the partition loop. *)
Definition check_partition (ck : Check) (kp : At * PartitionState) : Check :=
  let '(at_, state) := kp in
  let ck := mkCheck ck.(violations) ck.(wal_entries) ck.(referenced) None 0 in
  let ck := foldl (check_entry at_) ck (btree_iter state.(index)) in
  let found :=
    match btree_first state.(index), ck.(expected) with
    | Some (_, first), Some stop =>
        report (negb (stop =? state.(next_offset))) (VEntriesEnd at_ stop state.(next_offset))
        ++ report (negb ((first.(base_offset) <=? state.(log_start_offset))
                         && (state.(log_start_offset) <? end_offset first)))
             (VLogStart at_ state.(log_start_offset) first.(base_offset) (end_offset first))
    | _, _ =>
        report (negb (state.(log_start_offset) =? state.(next_offset)))
          (VEmptyIndex at_ state.(log_start_offset) state.(next_offset))
    end in
  mkCheck
    (ck.(violations) ++ found
       ++ report (negb (ck.(ck_bytes) =? state.(bytes))) (VBytes at_ state.(bytes) ck.(ck_bytes)))
    ck.(wal_entries) ck.(referenced) ck.(expected) ck.(ck_bytes).

(** ** Collections *)

Definition check_hot (s : MetaState) (e : CollectionId * HotConfig) : list Violation :=
  let '(id, hot) := e in
  report (negb (contains_key id s.(collections))) (VHotMissing id)
  ++ report (negb (hot_any hot)) (VHotAllFalse id).

Definition stream_mismatch (c : Collection) (st : Stream) : bool :=
  negb (st.(stream_namespace) =? c.(collection_namespace))
  || negb (bool_decide (st.(stream_name) = implicit_name c.(collection_name) c.(collection_id)))
  || negb (st.(stream_partitions) =? c.(collection_partitions))
  || negb (bool_decide (st.(stream_class) = Standard))
  || negb (bool_decide (st.(stream_retention) = Retention_default)).

Definition link_mismatch (c : Collection) (l : Link) : bool :=
  negb (l.(link_namespace) =? c.(collection_namespace))
  || negb (bool_decide (l.(link_name) = implicit_name c.(collection_name) c.(collection_id)))
  || negb (l.(link_source) =? c.(collection_stream))
  || negb (bool_decide (l.(link_target).(target_kind) = COLLECTION_KIND))
  || negb (bool_decide (l.(link_target).(target_name) = c.(collection_name))).

Definition check_collection (s : MetaState) (e : CollectionId * Collection) : list Violation :=
  let '(id, c) := e in
  report (negb (c.(collection_id) =? id)) (VCollectionKey c.(collection_id) id)
  ++ report (negb (bool_decide
       (s.(collection_names) !! (c.(collection_namespace), c.(collection_name)) = Some id)))
       (VCollectionName id)
  ++ match s.(streams) !! c.(collection_stream) with
     | None => [VStreamMissing id c.(collection_stream)]
     | Some st => report (stream_mismatch c st) (VStreamMismatch id st.(stream_id))
     end
  ++ match s.(links) !! c.(collection_link) with
     | None => [VLinkMissing id c.(collection_link)]
     | Some l => report (link_mismatch c l) (VLinkMismatch id l.(link_id))
     end
  ++ report (s.(last_collection_id) <? c.(collection_id))
       (VCollectionIdAbove id s.(last_collection_id)).

(** [self.collections.get(id).is_some_and(|c| c.namespace == ns)] *)
Definition in_namespace (s : MetaState) (ns : NamespaceId) (id : CollectionId) : bool :=
  match s.(collections) !! id with
  | Some c => c.(collection_namespace) =? ns
  | None => false
  end.

Definition check_collection_name (s : MetaState) (e : NamespaceId * string * CollectionId)
  : list Violation :=
  let '((ns, name), id) := e in
  match s.(collections) !! id with
  | Some c => report (negb ((c.(collection_namespace) =? ns)
                            && bool_decide (c.(collection_name) = name))) (VNameMaps ns name id)
  | None => [VNameMaps ns name id]
  end.

Definition check_alias (s : MetaState) (e : NamespaceId * string * CollectionId)
  : list Violation :=
  let '((ns, alias), id) := e in
  report (negb (in_namespace s ns id)) (VAliasTarget ns alias id)
  ++ report (contains_key (ns, alias) s.(collection_names)) (VAliasName ns alias).

Definition check_alias_targets (s : MetaState) (e : NamespaceId * string * AliasTargets)
  : list Violation :=
  let '((ns, alias), targets) := e in
  let ms := btree_iter targets.(members) in
  let writers := len (filter (λ m, m.2 = Some true) ms) in
  (ms.*1 ≫= λ id, report (negb (in_namespace s ns id)) (VMember ns alias id))
  ++ report (contains_key (ns, alias) s.(aliases)) (VBothMaps ns alias)
  ++ report (contains_key (ns, alias) s.(collection_names)) (VTargetsName ns alias)
  ++ match ms.*2 with
     | [] => [VNoMember ns alias]
     | [None] => [VOneUnset ns alias]
     | _ => []
     end
  ++ report (1 <? writers) (VWriters ns alias writers)
  ++ report (MAX_ALIAS_TARGETS <? len ms) (VManyMembers ns alias (len ms)).

Definition check_pointer (s : MetaState) (k : NamespaceId * string) : list Violation :=
  let '(ns, key) := k in
  match strip_prefix COLLECTION_POINTER_PREFIX key with
  | None => []
  | Some id =>
      let live := match parse_canonical id with
                  | Ok id => in_namespace s ns id
                  | Err _ => false
                  end in
      report (negb live) (VPointer ns key)
  end.

(** [MetaState::check_collections] *)
Definition check_collections (s : MetaState) : list Violation :=
  let implicit_streams : gset StreamId :=
    list_to_set (collection_stream <$> btree_values s.(collections)) in
  let implicit_links : gset LinkId :=
    list_to_set (collection_link <$> btree_values s.(collections)) in
  (btree_iter s.(collection_hot) ≫= check_hot s)
  ++ (btree_iter s.(collections) ≫= check_collection s)
  ++ (btree_iter s.(collection_names) ≫= check_collection_name s)
  ++ (btree_iter s.(aliases) ≫= check_alias s)
  ++ (btree_iter s.(alias_targets) ≫= check_alias_targets s)
  ++ (btree_values s.(streams) ≫= λ st,
        report (starts_with_char "_"%char st.(stream_name)
                && negb (bool_decide (st.(stream_id) ∈ implicit_streams)))
          (VOrphanStream st.(stream_id) st.(stream_name)))
  ++ (btree_values s.(links) ≫= λ l,
        report (starts_with_char "_"%char l.(link_name)
                && negb (bool_decide (l.(link_id) ∈ implicit_links)))
          (VOrphanLink l.(link_id) l.(link_name)))
  ++ (btree_keys s.(pointers) ≫= check_pointer s).

(** [MetaState::check_invariants] *)
Definition check_invariants (s : MetaState) : list Violation :=
  let ck := foldl check_partition (mkCheck [] ∅ ∅ None 0) (btree_iter s.(partitions)) in
  ck.(violations)
  ++ (btree_iter s.(wal_live_chunks) ≫= λ '(object, live),
        let entries := default 0 (ck.(wal_entries) !! object) in
        report (negb (live =? entries)) (VLiveCount object live entries))
  ++ (btree_keys ck.(wal_entries) ≫= λ object,
        report (negb (contains_key object s.(wal_live_chunks))) (VNoLiveCount object))
  ++ (btree_keys s.(retired) ≫= λ object,
        report (bool_decide (object ∈ ck.(referenced))) (VRetiredReferenced object))
  ++ check_collections s.
