(* ===== verification/MetaSound.v ===== *)
(** * The structural check finds nothing

    The invariants of MetaLogInv.v, MetaCatalogInv.v and MetaAliasInv.v together imply that
    [check_invariants] returns no violation. *)

From Stdlib Require Import NArith Lia Ascii.
From stdpp Require Import prelude gmap strings numbers list.
From S2P Require Import Prelude.
From S2P Require Import BTree.
From S2P Require Import Ids.
From S2P Require Import Schema.
From S2P Require Import MetaTypes.
From S2P Require Import MetaState.
From S2P Require Import MetaLog.
From S2P Require Import MetaApply.
From S2P Require Import CatalogInv.
From S2P Require Import MetaCatalogInv.
From S2P Require Import MetaAliasInv.
From S2P Require Import PartitionInv.
From S2P Require Import MetaObjects.
From S2P Require Import MetaLogInv.
From S2P Require Import MetaInvariants.

Open Scope N_scope.

Lemma report_false v : report false v = [].
Proof. done. Qed.

Lemma bind_nil {A B} (f : A → list B) (l : list A) :
  (∀ x, x ∈ l → f x = []) → l ≫= f = [].
Proof.
  induction l as [|x l IH]; intros F; [done|]. cbn. rewrite (F x) by left.
  apply IH. intros y I. apply F. by right.
Qed.

Lemma nil_app {A} (a b : list A) : a = [] → b = [] → a ++ b = [].
Proof. by intros -> ->. Qed.

(** ** The partition loop *)

(** The counts and references of the entries seen so far. *)
Definition seen_ok (E : list Placed) (ck : Check) : Prop :=
  ck.(violations) = []
  ∧ live_ok ck.(wal_entries) E
  ∧ ∀ o, o ∈ ck.(referenced) → ∃ x, x ∈ E ∧ x.2.(object) = o.

Lemma live_ok_count live E k e :
  live_ok live E → e.(entry_kind) = Wal → wal_count e.(object) E + 1 <= u32_MAX →
  live_ok (<[e.(object) := u32_add (default 0 (live !! e.(object))) 1]> live) (E ++ [(k, e)]).
Proof.
  intros L K B o. rewrite wal_count_app, wal_count_cons.
  change (wal_count o []) with 0.
  assert (default 0 (live !! object e) = wal_count (object e) E) as D.
  { rewrite L. destruct (N.eqb_spec (wal_count (object e) E) 0) as [->|]; done. }
  destruct (decide (o = object e)) as [->|N].
  - rewrite lookup_insert_eq, decide_True, D, u32_add_small by done.
    rewrite (proj2 (N.eqb_neq _ _)); [f_equal; lia|lia].
  - rewrite lookup_insert_ne, decide_False by (first [done|intros [_ ?]; by apply N]).
    rewrite !N.add_0_r. apply L.
Qed.

Lemma live_ok_segment live E k e :
  live_ok live E → e.(entry_kind) ≠ Wal → live_ok live (E ++ [(k, e)]).
Proof.
  intros L K o. rewrite wal_count_app, wal_count_cons.
  rewrite decide_False by (by intros [? _]). change (wal_count o []) with 0.
  rewrite !N.add_0_r. apply L.
Qed.

(** One entry of a tiling. *)
Lemma check_entry_ok E k ck start e b W :
  seen_ok E ck → e.(base_offset) = start → 0 < e.(records) →
  start + e.(records) <= W → W <= u64_MAX →
  ck.(expected) = None ∨ ck.(expected) = Some start →
  ck.(ck_bytes) = b → b + entry_bytes e <= u64_MAX →
  (e.(entry_kind) = Wal → wal_count e.(object) E + 1 <= u32_MAX) →
  seen_ok (E ++ [(k, e)]) (check_entry k ck (start, e))
  ∧ (check_entry k ck (start, e)).(expected) = Some (start + e.(records))
  ∧ (check_entry k ck (start, e)).(ck_bytes) = b + entry_bytes e.
Proof.
  intros (V & L & R) B Rp Sw Wu Ex Bt Bb Cu. unfold check_entry. cbn.
  rewrite B, N.eqb_refl, V. rewrite (proj2 (N.eqb_neq (records e) 0)) by lia.
  split_and!.
  - split_and!; cbn.
    + destruct Ex as [->| ->]; [done|]. by rewrite N.eqb_refl.
    + case_bool_decide as Kd; [by apply live_ok_count, Cu|by apply live_ok_segment].
    + intros o [->%elem_of_singleton|I]%elem_of_union.
      * exists (k, e). split; [set_solver|done].
      * destruct (R o I) as (x & X & Q). exists x. split; [set_solver|done].
  - f_equal. rewrite (end_offset_eq e (start + records e) W); lia.
  - rewrite Bt. change (u64_saturating_sub _ _) with (entry_bytes e). rewrite u64_add_small; lia.
Qed.

(** The entry loop over a tiling. *)
Lemma check_entries_ok E k ck start es stop b W :
  seen_ok E ck → tiles start es stop → stop <= W → W <= u64_MAX →
  ck.(expected) = None ∨ ck.(expected) = Some start →
  ck.(ck_bytes) = b → b + sum_bytes es <= u64_MAX →
  (∀ o, wal_count o (E ++ placed k es.*2) <= u32_MAX) →
  seen_ok (E ++ placed k es.*2) (foldl (check_entry k) ck es)
  ∧ (foldl (check_entry k) ck es).(expected)
      = (match es with [] => ck.(expected) | _ => Some stop end)
  ∧ (foldl (check_entry k) ck es).(ck_bytes) = b + sum_bytes es.
Proof.
  revert E ck start b. induction es as [|[x e] es IH]; intros E ck start b Sn T Sw Wu Ex Bt Bb Cu.
  - cbn. rewrite app_nil_r. split_and!; [done|done|lia].
  - destruct T as (-> & B & R & T). pose proof (tiles_sum _ _ _ T) as St.
    cbn [sum_bytes snd] in Bb.
    assert (E ++ placed k ((start, e) :: es).*2 = (E ++ [(k, e)]) ++ placed k es.*2) as Q
      by (rewrite <- app_assoc; done).
    destruct (check_entry_ok E k ck start e b W) as (S1 & X1 & B1); try done; [lia|lia| |].
    { intros Ke. specialize (Cu (object e)). rewrite Q, !wal_count_app, wal_count_cons in Cu.
      rewrite decide_True in Cu by done. lia. }
    rewrite Q in Cu |- *. cbn [foldl].
    destruct (IH (E ++ [(k, e)]) (check_entry k ck (start, e)) (start + records e)
                (b + entry_bytes e)) as (S2 & X2 & B2); try done.
    { by right. }
    { cbn [sum_bytes snd] in Bb. lia. }
    split_and!; [done| |cbn [sum_bytes snd]; lia].
    rewrite X2. destruct es; [|done]. cbn in T. congruence.
Qed.

Lemma check_partition_ok E k ck ps W :
  seen_ok E ck → partition_ok W ps → W <= u64_MAX →
  (∀ o, wal_count o (E ++ placed k (entries ps)) <= u32_MAX) →
  seen_ok (E ++ placed k (entries ps)) (check_partition ck (k, ps)).
Proof.
  intros Sn [[a T] S Y L M] Wu Cu. unfold check_partition.
  destruct (check_entries_ok E k (mkCheck (violations ck) (wal_entries ck) (referenced ck) None 0)
    a (btree_iter (index ps)) (next_offset ps) 0 W) as ((V & Lv & R) & X & B); try done;
    [by left|lia|].
  unfold seen_ok. cbn [violations wal_entries referenced]. split_and!; [|done|done].
  rewrite V, B, N.add_0_l, Y, N.eqb_refl, X. cbn [negb].
  rewrite report_false, app_nil_r. cbn [app]. unfold btree_first, start_ok in *.
  destruct (btree_iter (index ps)) as [|[b e] es]; cbn.
  - by rewrite S, N.eqb_refl.
  - rewrite N.eqb_refl. cbn. destruct T as (-> & Bs & Rp & T). apply tiles_sum in T.
    rewrite (end_offset_eq e (a + records e) W); [|lia|lia|done].
    rewrite Bs, (proj2 (N.leb_le _ _)), (proj2 (N.ltb_lt _ _)) by lia. done.
Qed.

Definition flatten (l : list (PartKey * PartitionState)) : list Placed :=
  l ≫= λ kv, placed kv.1 (entries kv.2).

Lemma check_partitions_ok W l E ck :
  seen_ok E ck → (∀ k ps, (k, ps) ∈ l → partition_ok W ps) → W <= u64_MAX →
  (∀ o, wal_count o (E ++ flatten l) <= u32_MAX) →
  seen_ok (E ++ flatten l) (foldl check_partition ck l).
Proof.
  revert E ck. induction l as [|[k ps] l IH]; intros E ck Sn P Wu Cu.
  - cbn. by rewrite app_nil_r.
  - change (flatten ((k, ps) :: l)) with (placed k (entries ps) ++ flatten l) in *.
    rewrite app_assoc in *. cbn [foldl]. apply IH; [| |done|done].
    + apply check_partition_ok with W; [done| |done|].
      * apply (P k). left.
      * intros o. specialize (Cu o). rewrite wal_count_app in Cu. lia.
    + intros k' ps' I. apply (P k'). by right.
Qed.

Lemma flatten_iter parts : flatten (btree_iter parts) ≡ₚ all_entries parts.
Proof. unfold flatten, all_entries. by rewrite btree_iter_perm. Qed.

(** ** The collections *)

Lemma in_namespace_true s ns id : member_of s.(collections) ns id → in_namespace s ns id = true.
Proof. intros (c & C & N). unfold in_namespace. rewrite C. by apply N.eqb_eq. Qed.

Section collections.
Context (W : N) (s : MetaState).
Hypothesis C : catalog_ok W s.
Hypothesis K : naming_ok s.

Lemma check_collection_nil id c : s.(collections) !! id = Some c → check_collection s (id, c) = [].
Proof.
  intros X. destruct C as [_ _ _ Co _ _ _ _ Bk _ _].
  destruct (ti_item _ _ _ Co _ _ X) as (Ei & Le & Nm). cbn in Ei, Nm.
  destruct (bi_stream _ _ _ Bk _ _ X) as (st & St & [Q1 Q2 Q3 Q4 Q5]).
  destruct (bi_link _ _ _ Bk _ _ X) as (l & Li & [R1 R2 R3 R4 R5]).
  cbn. rewrite St, Li. unfold stream_mismatch, link_mismatch.
  rewrite Q1, Q2, Q3, Q4, Q5, R1, R2, R3, R4, R5, Ei, Nm, !N.eqb_refl.
  rewrite !bool_decide_true by done. cbn.
  by rewrite (proj2 (N.ltb_ge _ _)).
Qed.

Lemma check_collection_name_nil ns name id :
  s.(collection_names) !! (ns, name) = Some id → check_collection_name s ((ns, name), id) = [].
Proof.
  intros X. destruct C as [_ _ _ Co _ _ _ _ _ _ _].
  destruct (ti_name _ _ _ Co _ _ X) as (c & Y & E). cbn in E. injection E as <- <-.
  cbn. rewrite Y, N.eqb_refl. by rewrite bool_decide_true.
Qed.

Lemma check_alias_nil ns a id :
  s.(aliases) !! (ns, a) = Some id → check_alias s ((ns, a), id) = [].
Proof.
  intros X. destruct K as [[Aa _] _ _]. destruct (Aa _ _ _ X) as (M & F & _).
  cbn. rewrite in_namespace_true by done. cbn.
  by rewrite (proj2 (contains_key_false _ _)).
Qed.

Lemma check_alias_targets_nil ns a t :
  s.(alias_targets) !! (ns, a) = Some t → check_alias_targets s ((ns, a), t) = [].
Proof.
  intros X. destruct K as [[Aa At] _ _]. destruct (At _ _ _ X) as (F & [M Wr Sz] & [Ne N1]).
  unfold check_alias_targets. repeat apply nil_app.
  - apply bind_nil. intros id ([i w] & -> & I)%list_elem_of_fmap. apply elem_of_btree_iter in I.
    rewrite in_namespace_true; [done|]. by eapply M.
  - rewrite (proj2 (contains_key_false _ _)); [done|].
    destruct (aliases s !! (ns, a)) as [i|] eqn:E; [|done].
    apply Aa in E as (_ & _ & E). congruence.
  - by rewrite (proj2 (contains_key_false _ _)).
  - destruct (btree_iter (members t)) as [|[i [w|]] [|]] eqn:E; cbn; try done.
    + apply btree_iter_nil_inv in E. by destruct Ne.
    + exfalso. apply (N1 i), btree_iter_inj. by rewrite E, btree_iter_singleton.
  - unfold writers in Wr. by rewrite (proj2 (N.ltb_ge _ _)).
  - unfold len. rewrite btree_iter_length. by rewrite (proj2 (N.ltb_ge _ _)).
Qed.

Lemma check_pointer_nil ns key p :
  s.(pointers) !! (ns, key) = Some p → check_pointer s (ns, key) = [].
Proof.
  intros X. destruct K as [_ _ Pt]. unfold check_pointer.
  destruct (strip_prefix COLLECTION_POINTER_PREFIX key) as [rest|] eqn:E; [|done].
  destruct (Pt _ _ _ _ X E) as (id & -> & M). by rewrite in_namespace_true.
Qed.

(** The owner of a reserved stream is among the collections. *)
Lemma owners_stream id st :
  s.(streams) !! id = Some st → starts_with_char "_"%char st.(stream_name) = true →
  st.(stream_id) ∈ (list_to_set (collection_stream <$> btree_values s.(collections)) : gset StreamId).
Proof.
  intros X R. destruct C as [_ S _ _ _ _ _ _ Bk _ _].
  destruct (ti_item _ _ _ S _ _ X) as (Ei & _). cbn in Ei. rewrite Ei.
  destruct (bi_stream_owner _ _ _ Bk _ _ X R) as (cid & c & Y & <-).
  apply elem_of_list_to_set, list_elem_of_fmap_2. unfold btree_values.
  apply list_elem_of_fmap. exists (cid, c). split; [done|]. by apply elem_of_btree_iter.
Qed.

Lemma owners_link id l :
  s.(links) !! id = Some l → starts_with_char "_"%char l.(link_name) = true →
  l.(link_id) ∈ (list_to_set (collection_link <$> btree_values s.(collections)) : gset LinkId).
Proof.
  intros X R. destruct C as [_ _ L _ _ _ _ _ Bk _ _].
  destruct (ti_item _ _ _ L _ _ X) as (Ei & _). cbn in Ei. rewrite Ei.
  destruct (bi_link_owner _ _ _ Bk _ _ X R) as (cid & c & Y & <-).
  apply elem_of_list_to_set, list_elem_of_fmap_2. unfold btree_values.
  apply list_elem_of_fmap. exists (cid, c). split; [done|]. by apply elem_of_btree_iter.
Qed.

Lemma check_collections_nil : check_collections s = [].
Proof.
  unfold check_collections. repeat apply nil_app; apply bind_nil.
  - intros [id h] I%elem_of_btree_iter. destruct K as [_ H _]. destruct (H _ _ I) as [X Y].
    unfold check_hot. by rewrite Y, (proj2 (contains_key_true _ _)).
  - intros [id c] I%elem_of_btree_iter. by apply check_collection_nil.
  - intros [[ns name] id] I%elem_of_btree_iter. by apply check_collection_name_nil.
  - intros [[ns a] id] I%elem_of_btree_iter. by apply check_alias_nil.
  - intros [[ns a] t] I%elem_of_btree_iter. by apply check_alias_targets_nil.
  - intros st ([id x] & -> & I%elem_of_btree_iter)%list_elem_of_fmap. cbn.
    destruct (starts_with_char "_" (stream_name x)) eqn:R; [|done].
    by rewrite bool_decide_true by (by eapply owners_stream).
  - intros st ([id x] & -> & I%elem_of_btree_iter)%list_elem_of_fmap. cbn.
    destruct (starts_with_char "_" (link_name x)) eqn:R; [|done].
    by rewrite bool_decide_true by (by eapply owners_link).
  - intros st ([[ns k] x] & -> & I%elem_of_btree_iter)%list_elem_of_fmap. cbn [fst].
    by eapply check_pointer_nil.
Qed.
End collections.

(** ** The whole check *)

Lemma check_invariants_nil `{PathLaws} W s :
  W <= u64_MAX → log_ok W s → catalog_ok W s → naming_ok s → check_invariants s = [].
Proof.
  intros B [P _ _ [Lv Ct _ _ Rt _ _ _]] C K. unfold check_invariants.
  rewrite (check_collections_nil W s C K).
  destruct (check_partitions_ok W (btree_iter (partitions s)) [] (mkCheck [] ∅ ∅ None 0))
    as (V & L & R).
  { split_and!; [done|done|]. intros o. cbn. set_solver. }
  { intros k ps I%elem_of_btree_iter. by eapply P. }
  { done. }
  { intros o. cbn. rewrite flatten_iter. apply Ct. }
  rewrite app_nil_l in *. rewrite flatten_iter in L.
  set (ck := foldl _ _ _) in *. clearbody ck. repeat apply nil_app.
  - done.
  - apply bind_nil. intros [o live] I%elem_of_btree_iter. rewrite Lv in I.
    rewrite L. destruct (_ =? 0); [done|]. injection I as <-. cbn. by rewrite N.eqb_refl.
  - apply bind_nil. intros o ([x n] & -> & I%elem_of_btree_iter)%list_elem_of_fmap. cbn.
    rewrite (proj2 (contains_key_true _ _)); [done|]. rewrite Lv, <- L, I. by eexists.
  - apply bind_nil. intros o ([x n] & -> & I%elem_of_btree_iter)%list_elem_of_fmap. cbn.
    rewrite bool_decide_false; [done|]. intros ([k e] & X & E)%R. rewrite flatten_iter in X.
    cbn in E. eapply Rt; [|exact X|exact E]. by eexists.
  - done.
Qed.
