(* ===== verification/MetaEnv.v ===== *)
(** * Command logs of the log plane

    The log plane names a WAL object with [wal_object], commits it with one creation time
    however often it retries, and names a segment with [segment] after the first offset it
    replaces (loams-log/src/writer.rs, segmenter.rs).  [well_named] says so of a command
    log; it gives the path facts MetaObjects.v works with, so that every state a well named
    log reaches satisfies the invariants and passes the structural check. *)

From Stdlib Require Import NArith Lia Ascii.
From stdpp Require Import prelude gmap strings numbers list.
From S2P Require Import Prelude.
From S2P Require Import BTree.
From S2P Require Import Ids.
From S2P Require Import Schema.
From S2P Require Import MetaTypes.
From S2P Require Import Paths.
From S2P Require Import MetaState.
From S2P Require Import MetaApply.
From S2P Require Import MetaCatalogInv.
From S2P Require Import MetaAliasInv.
From S2P Require Import PartitionInv.
From S2P Require Import MetaObjects.
From S2P Require Import MetaLogInv.
From S2P Require Import MetaInvariants.
From S2P Require Import MetaSound.

Open Scope N_scope.

(** The WAL object a command commits, with its creation time. *)
Definition commit_of (c : Command) : option (string * N) :=
  match c with
  | CommitWal obj created _ => Some (obj, created)
  | _ => None
  end.

(** The segment a command swaps in, with the place it names. *)
Definition swap_of (c : Command) : option (string * (StreamId * N * N)) :=
  match c with
  | SwapSegment st p ((b, _) :: _) seg _ _ _ _ _ => Some (seg, ((st, p), b))
  | _ => None
  end.

Record well_named (log : list Command) : Prop := {
  wn_wal : ∀ c obj created, c ∈ log → commit_of c = Some (obj, created) →
    ∃ class node ulid, obj = wal_object class node ulid;
  wn_created : ∀ c c' obj t t', c ∈ log → c' ∈ log →
    commit_of c = Some (obj, t) → commit_of c' = Some (obj, t') → t = t';
  wn_segment : ∀ c seg st p b, c ∈ log → swap_of c = Some (seg, ((st, p), b)) →
    st <= u64_MAX ∧ p <= u64_MAX ∧ b <= u64_MAX ∧ ∃ ns ulid, seg = segment ns st p b ulid;
}.

(** A prefix of a well named log is one. *)
Lemma well_named_app l l' : well_named (l ++ l') → well_named l.
Proof.
  intros [A B C]. split.
  - intros c obj t I. apply A. set_solver.
  - intros c c' obj t t' I J. apply B; set_solver.
  - intros c seg st p b I. apply C. set_solver.
Qed.

(** The first command that tells about a path. *)
Definition told {A} (f : Command → option (string * A)) (log : list Command) (o : string)
  : option A :=
  head (omap (λ c, x ← f c; if decide (x.1 = o) then Some x.2 else None) log).

Lemma told_Some {A} (f : Command → option (string * A)) log o x :
  told f log o = Some x → ∃ c, c ∈ log ∧ f c = Some (o, x).
Proof.
  unfold told. intros H%head_Some_elem_of. apply list_elem_of_omap in H as (c & I & E).
  exists c. split; [done|]. destruct (f c) as [[o' y]|]; cbn in E; [|done].
  case_decide; simplify_eq. done.
Qed.

Lemma told_is_Some {A} (f : Command → option (string * A)) log c o x :
  c ∈ log → f c = Some (o, x) → is_Some (told f log o).
Proof.
  intros I E. unfold told. apply head_is_Some. intros N.
  assert (x ∈ omap (λ c, x ← f c; if decide (x.1 = o) then Some x.2 else None) log) as M.
  { apply list_elem_of_omap. exists c. split; [done|]. rewrite E. cbn. by rewrite decide_True. }
  rewrite N in M. by apply elem_of_nil in M.
Qed.

Section env.
Context (log : list Command).

#[local] Instance log_paths : PathSpace := {|
  wal_path := ends_with ".wal";
  wal_ctime o := default 0 (told commit_of log o);
  seg_place := told swap_of log;
|}.

Hypothesis wn : well_named log.

Lemma told_segment g x : told swap_of log g = Some x → ends_with ".seg" g = true ∧ ends_with ".wal" g = false.
Proof.
  intros (c & I & E)%told_Some. destruct x as [[st p] b].
  destruct (wn_segment _ wn _ _ _ _ _ I E) as (_ & _ & _ & ns & ulid & ->).
  split; [apply segment_ends_seg|apply segment_ends].
Qed.

Lemma log_path_laws : PathLaws.
Proof.
  split; cbn.
  - intros g x E. by eapply told_segment.
  - apply collection_prefix_ends.
  - intros ns c. destruct (told swap_of log _) eqn:E; [|done].
    apply told_segment in E as [E _]. by rewrite (proj2 (collection_prefix_ends ns c)) in E.
  - apply collection_pk_prefix_ends.
  - intros ns c. destruct (told swap_of log _) eqn:E; [|done].
    apply told_segment in E as [E _]. by rewrite (proj2 (collection_pk_prefix_ends ns c)) in E.
Qed.

Lemma log_paths_ok c : c ∈ log → paths_ok c.
Proof.
  intros I. destruct c; try done; cbn.
  - split.
    + destruct (wn_wal _ wn _ _ _ I eq_refl) as (class & node & ulid & ->).
      apply wal_object_ends.
    + destruct (told_is_Some commit_of log _ _ _ I eq_refl) as [t E]. rewrite E. cbn.
      apply told_Some in E as (c & J & E). exact (wn_created _ wn _ _ _ _ _ J I E eq_refl).
  - destruct replaces as [|[b o] rest]; [done|].
    destruct (told_is_Some swap_of log _ _ _ I eq_refl) as [[[st p] b'] E]. rewrite E.
    apply told_Some in E as (c & J & E).
    destruct (wn_segment _ wn _ _ _ _ _ I eq_refl) as (B1 & B2 & B3 & ns & u & Q).
    destruct (wn_segment _ wn _ _ _ _ _ J E) as (B4 & B5 & B6 & ns' & u' & Q').
    rewrite Q in Q'. by apply segment_inj in Q' as (-> & -> & ->).
Qed.

(** The invariants of the state a well named log reaches. *)
Lemma run_ok :
  log_weight log <= u64_MAX → log_ok (log_weight log) (run MetaState_default log).
Proof.
  intros B. pose proof log_path_laws.
  apply (run_log 0 MetaState_default log log_ok_default); [|lia].
  apply Forall_forall. intros c. apply log_paths_ok.
Qed.
End env.

(** ** Reachable states *)

Lemma run_catalog W s log :
  catalog_ok W s → naming_ok s → W + log_weight log <= u64_MAX →
  catalog_ok (W + log_weight log) (run s log) ∧ naming_ok (run s log).
Proof.
  revert W s. induction log as [|c log IH]; intros W s C K B; cbn in *.
  - by rewrite N.add_0_r.
  - assert (1 <= weight c) by (unfold weight; lia).
    rewrite N.add_assoc. apply IH; [| |lia].
    + eapply catalog_mono, (apply_catalog W); [lia|done|lia].
    + eapply apply_naming; [done|lia|done].
Qed.

(** What every reachable state satisfies. *)
Record meta_ok (s : MetaState) : Prop := {
  ok_parts : parts_ok u64_MAX s.(partitions);
  ok_catalog : catalog_ok u64_MAX s;
  ok_naming : naming_ok s;
}.

Lemma run_meta_ok log :
  well_named log → log_weight log <= u64_MAX → meta_ok (run MetaState_default log).
Proof.
  intros wn B. pose proof (run_ok log wn B) as [P _ _ _].
  destruct (run_catalog 0 MetaState_default log catalog_default naming_default) as [C K]; [lia|].
  split; [by eapply parts_ok_mono|by eapply catalog_mono|done].
Qed.

Lemma run_check log :
  well_named log → log_weight log <= u64_MAX →
  check_invariants (run MetaState_default log) = [].
Proof.
  intros wn B. pose proof (log_path_laws log wn) as PL.
  destruct (run_catalog 0 MetaState_default log catalog_default naming_default) as [C K]; [lia|].
  apply (@check_invariants_nil (log_paths log) PL (log_weight log)); [exact B| |exact C|exact K].
  by apply run_ok.
Qed.
