(* ===== verification/MetaCommit.v ===== *)
(** * WAL commits take effect once

    The metastore clock never runs back, and a WAL object's commit is applied once however
    often it is retried, also after its commit record was pruned: the record is kept as long
    as a commit of the object could still be accepted. *)

From Stdlib Require Import NArith Lia.
From stdpp Require Import prelude gmap strings numbers list.
From S2P Require Import Prelude.
From S2P Require Import BTree.
From S2P Require Import Ids.
From S2P Require Import Schema.
From S2P Require Import MetaTypes.
From S2P Require Import MetaState.
From S2P Require Import MetaLeases.
From S2P Require Import MetaLog.
From S2P Require Import MetaCatalog.
From S2P Require Import MetaCollections.
From S2P Require Import MetaApply.
From S2P Require Import MetaFrames.

Open Scope N_scope.

(** ** The clock *)

(** [s'] is not before [s]. *)
Definition later (s s' : MetaState) : Prop := s.(clock_ms) <= s'.(clock_ms).

#[export] Instance later_preorder : PreOrder later.
Proof. split; unfold later; intros ?; intros; lia. Qed.

(** Time never runs back. *)
Lemma apply_later s c : later s (apply s c).1.
Proof.
  destruct c; cbn [apply];
    lazymatch goal with
    | |- context [drop_collection] => idtac
    | |- _ => unfold_handlers; state_cases; frames; unfold later; read_fields;
        first [apply N.le_refl|apply N.le_max_l]
    end.
  unfold later. rewrite (dk_clock _ _ _ (drop_collection_frame s namespace name now_ms)). lia.
Qed.

Lemma run_later s log : later s (run s log).
Proof.
  revert s. induction log as [|c log IH]; intros s; [done|]. cbn.
  etransitivity; [apply (apply_later s c)|apply IH].
Qed.

(** ** Commit records *)

(** The object was committed at [bases] with creation time [t]: its record is there, or a
    commit of it is stale for good. *)
Definition committed (obj : string) (t : N) (bases : list N) (s : MetaState) : Prop :=
  s.(wal_commits) !! obj = Some {| wal_base_offsets := bases; wal_created_at_ms := t |}
  ∨ (s.(wal_commits) !! obj = None
     ∧ u64_saturating_add t (2 * WAL_COMMIT_WINDOW_MS) < s.(clock_ms)).

Lemma commit_wal_records s obj t chunks bases :
  (commit_wal s obj t chunks).2 = Ok (WalCommitted bases) →
  s.(wal_commits) !! obj = None ∨ committed obj t bases s →
  committed obj t bases (commit_wal s obj t chunks).1.
Proof.
  intros R D. revert R. unfold commit_wal.
  match goal with |- snd ?o = _ → committed _ _ _ (fst _) =>
    change (ensures (λ s' r, r = Ok (WalCommitted bases) → committed obj t bases s') o) end.
  outcome_cases; intros; simplify_eq; try done.
  - destruct D as [?|D]; [congruence|exact D].
  - left. cbn. by rewrite lookup_insert_eq.
Qed.

Lemma committed_frame obj t bases s s' :
  later s s' → s'.(wal_commits) = s.(wal_commits) →
  committed obj t bases s → committed obj t bases s'.
Proof.
  unfold later. intros L E [C|[C T]]; unfold committed; rewrite E; [by left|right].
  split; [done|lia].
Qed.

Definition same_commits (s s' : MetaState) : Prop := s'.(wal_commits) = s.(wal_commits).

(** Only commits and pruning touch the commit records. *)
Lemma apply_commits s c :
  match c with CommitWal _ _ _ | PruneWalCommits _ _ => False | _ => True end →
  same_commits s (apply s c).1.
Proof.
  intros K. assert (same_commits s s) as R by done.
  destruct c; first [done|kept R|idtac].
  exact (dk_commits _ _ _ (drop_collection_frame s namespace name now_ms)).
Qed.

Lemma prune_committed s obj t bases fence now :
  committed obj t bases s → committed obj t bases (prune_wal_commits s fence now).1.
Proof.
  intros C. unfold prune_wal_commits. state_cases; [|exact C]. destruct C as [C|[C T]].
  - destruct (u64_saturating_add t (2 * WAL_COMMIT_WINDOW_MS) <? N.max (clock_ms s) now) eqn:E;
      bools; [right|left]; cbn.
    + split; [|done]. apply map_lookup_filter_None. right. intros r Hr. rewrite C in Hr.
      injection Hr as <-. cbn. rewrite N.leb_le. lia.
    + apply map_lookup_filter_Some. split; [done|]. cbn. by apply N.leb_le.
  - right. cbn. split; [|lia]. apply map_lookup_filter_None. by left.
Qed.

(** A commit of an object that was committed before changes nothing. *)
Lemma recommit s obj t bases chunks :
  committed obj t bases s →
  (commit_wal s obj t chunks).1 = s
  ∧ ∀ bases', (commit_wal s obj t chunks).2 = Ok (WalCommitted bases') → bases' = bases.
Proof.
  intros C. unfold commit_wal.
  match goal with |- fst ?o = s ∧ (∀ b, snd ?o = _ → _) =>
    change (ensures (λ s' r, s' = s ∧ ∀ b, r = Ok (WalCommitted b) → b = bases) o) end.
  destruct (validate_key "WAL object path" obj) as [[]|]; [|by outcome_cases].
  destruct C as [->|[-> T]].
  - outcome_cases. split; [done|]. by intros b [= <-].
  - assert ((u64_saturating_add t WAL_COMMIT_WINDOW_MS <? clock_ms s) = true) as ->.
    { apply N.ltb_lt. unfold u64_saturating_add, WAL_COMMIT_WINDOW_MS in *. lia. }
    outcome_cases. by split.
Qed.

Lemma commit_other s obj obj' t t' bases chunks :
  obj ≠ obj' → committed obj t bases s → committed obj t bases (commit_wal s obj' t' chunks).1.
Proof.
  intros D C. unfold commit_wal. destruct (append_chunks_frame s obj' chunks []) as [m F].
  destruct (append_chunks s obj' chunks []) as [s' r]. cbn in F. subst s'.
  state_cases; try exact C. destruct C as [C|[C T]]; [left|right]; cbn;
    by rewrite lookup_insert_ne.
Qed.

(** Commands keep a commit in force as long as they give the object one creation time. *)
Lemma apply_committed s c obj t bases :
  (∀ t' chunks, c = CommitWal obj t' chunks → t' = t) →
  committed obj t bases s → committed obj t bases (apply s c).1.
Proof.
  intros T C. destruct c.
  4: { cbn [apply]. destruct (decide (obj = object)) as [<-|D].
       - rewrite (T _ _ eq_refl) in *. destruct (recommit s obj t bases chunks C) as [-> _]. done.
       - by apply commit_other. }
  7: by apply prune_committed.
  all: eapply committed_frame; [apply apply_later|by apply apply_commits|done].
Qed.

Lemma run_committed s log obj t bases :
  (∀ t' chunks, CommitWal obj t' chunks ∈ log → t' = t) →
  committed obj t bases s → committed obj t bases (run s log).
Proof.
  revert s. induction log as [|c log IH]; intros s T C; [done|]. cbn. apply IH.
  - intros t' chunks I. eapply T. by right.
  - apply apply_committed; [|done]. intros t' chunks ->. eapply T. left.
Qed.

(** ** Exactly once *)

(** Every record of the object carries its creation time. *)
Definition created_at (obj : string) (t : N) (s : MetaState) : Prop :=
  ∀ r, s.(wal_commits) !! obj = Some r → r.(wal_created_at_ms) = t.

Lemma apply_created s c obj t :
  (∀ t' chunks, c = CommitWal obj t' chunks → t' = t) →
  created_at obj t s → created_at obj t (apply s c).1.
Proof.
  intros T C.
  destruct c; try (intros r; rewrite apply_commits by done; apply C); cbn [apply].
  - unfold commit_wal. destruct (append_chunks_frame s object chunks []) as [m F].
    destruct (append_chunks s object chunks []) as [s' r]. cbn in F. subst s'.
    state_cases; try exact C. intros x. cbn. rewrite lookup_insert_Some.
    intros [[-> <-]|[_ I]]; [by eapply T|by apply C].
  - unfold prune_wal_commits. state_cases; try exact C.
    intros r [I _]%map_lookup_filter_Some. by apply C.
Qed.

Lemma run_created s log obj t :
  (∀ t' chunks, CommitWal obj t' chunks ∈ log → t' = t) →
  created_at obj t s → created_at obj t (run s log).
Proof.
  revert s. induction log as [|c log IH]; intros s T C; [done|]. cbn. apply IH.
  - intros t' chunks I. eapply T. by right.
  - apply apply_created; [|done]. intros t' chunks ->. eapply T. left.
Qed.

(** An accepted commit puts the commit in force. *)
Lemma accepted_committed s obj t chunks bases :
  created_at obj t s → (commit_wal s obj t chunks).2 = Ok (WalCommitted bases) →
  committed obj t bases (commit_wal s obj t chunks).1.
Proof.
  intros C R. apply commit_wal_records; [done|].
  destruct (wal_commits s !! obj) as [[b t']|] eqn:E; [right|by left].
  left. rewrite E. specialize (C _ E). cbn in C. subst t'.
  unfold commit_wal in R. destruct (validate_key "WAL object path" obj); [|done].
  rewrite E in R. by injection R as <-.
Qed.

Lemma commit_once l1 l2 obj t chunks chunks' bases bases' :
  (∀ t' ch, CommitWal obj t' ch ∈ l1 ++ l2 → t' = t) →
  let s1 := run MetaState_default l1 in
  let s2 := run (apply s1 (CommitWal obj t chunks)).1 l2 in
  (apply s1 (CommitWal obj t chunks)).2 = Ok (WalCommitted bases) →
  (apply s2 (CommitWal obj t chunks')).1 = s2
  ∧ ((apply s2 (CommitWal obj t chunks')).2 = Ok (WalCommitted bases') → bases' = bases).
Proof.
  intros T s1 s2 R. cbn [apply] in *.
  assert (committed obj t bases s2) as C.
  { apply run_committed.
    - intros t' ch I. eapply (T t' ch), elem_of_app. by right.
    - apply accepted_committed; [|done]. apply run_created; [|done].
      intros t' ch I. eapply (T t' ch), elem_of_app. by left. }
  destruct (recommit s2 obj t bases chunks' C) as [E B]. split; [done|]. apply B.
Qed.
