(* ===== verification/MetaLeaseInv.v ===== *)
(** * Leases: epochs, owners and fences

    A lease's epoch never decreases, an epoch is granted to one owner only, and a fence that
    was valid and broke stays broken: the holder of an old epoch can never write again. *)

From Stdlib Require Import NArith Lia.
From stdpp Require Import prelude gmap strings numbers list.
From S2P Require Import Prelude.
From S2P Require Import BTree.
From S2P Require Import Ids.
From S2P Require Import Schema.
From S2P Require Import MetaTypes.
From S2P Require Import MetaState.
From S2P Require Import MetaLeases.
From S2P Require Import MetaLog.
From S2P Require Import MetaCatalog.
From S2P Require Import MetaCollections.
From S2P Require Import MetaApply.
From S2P Require Import MetaFrames.
From S2P Require Import MetaCommit.

Open Scope N_scope.

Definition same_leases (s s' : MetaState) : Prop := s'.(leases) = s.(leases).

Definition lease_command (c : Command) : bool :=
  match c with
  | AcquireLease _ _ _ _ | RenewLease _ _ _ _ _ | ReacquireLease _ _ _ _ _
  | ReleaseLease _ _ _ => true
  | _ => false
  end.

(** Only the lease commands touch the leases. *)
Lemma apply_leases s c : lease_command c = false → same_leases s (apply s c).1.
Proof.
  intros K. assert (same_leases s s) as R by done.
  destruct c; first [done|kept R|idtac].
  exact (dk_leases _ _ _ (drop_collection_frame s namespace name now_ms)).
Qed.

(** ** One step of a lease *)

(** How a command may change one lease: leave it, extend it, release it, or hand it out
    under the next epoch when it is not held at the new clock [now]. *)
Inductive lease_step (now : N) (l : option Lease) : option Lease → Prop :=
  | lease_same : lease_step now l l
  | lease_first who deadline :
      l = None →
      lease_step now l (Some {| epoch := 1; owner := Some who; deadline_ms := deadline |})
  | lease_extend e who deadline deadline' :
      l = Some {| epoch := e; owner := Some who; deadline_ms := deadline |} →
      lease_step now l (Some {| epoch := e; owner := Some who; deadline_ms := deadline' |})
  | lease_release e who deadline :
      l = Some {| epoch := e; owner := Some who; deadline_ms := deadline |} →
      lease_step now l (Some {| epoch := e; owner := None; deadline_ms := deadline |})
  | lease_take old who deadline :
      l = Some old → is_held_at old now = false →
      lease_step now l
        (Some {| epoch := u64_add old.(epoch) 1; owner := Some who; deadline_ms := deadline |}).

Definition leases_step (s s' : MetaState) : Prop :=
  ∀ k, lease_step s'.(clock_ms) (s.(leases) !! k) (s'.(leases) !! k).

Lemma lease_step_insert now (m : gmap string Lease) key l' k :
  lease_step now (m !! key) (Some l') → lease_step now (m !! k) (<[key := l']> m !! k).
Proof.
  intros S. destruct (decide (key = k)) as [<-|D].
  - by rewrite lookup_insert_eq.
  - rewrite lookup_insert_ne by done. constructor.
Qed.

Lemma extend_step s key l now ttl who :
  s.(leases) !! key = Some l → l.(owner) = Some who →
  leases_step s (extend_lease s key l now ttl).1.
Proof.
  intros L O k. cbn. apply lease_step_insert. rewrite L. destruct l as [e o d]. cbn in O. subst o.
  by eapply lease_extend.
Qed.

Lemma apply_lease_step s c : leases_step s (apply s c).1.
Proof.
  assert (leases_step s s) as R by (intros k; constructor).
  destruct (lease_command c) eqn:K.
  2: { intros k. rewrite (apply_leases s c K). constructor. }
  destruct c; try done; cbn [apply].
  - unfold acquire_lease. state_cases; try exact R; bools;
      intros k; apply lease_step_insert; cbn.
    + destruct l as [e o d]. cbn in *. subst o. by eapply lease_extend.
    + by eapply lease_take.
    + by apply lease_first.
  - unfold renew_lease. state_cases; try exact R; bools. by eapply extend_step.
  - unfold reacquire_lease. state_cases; try exact R; bools. by eapply extend_step.
  - unfold release_lease. state_cases; try exact R; bools.
    intros k. apply lease_step_insert. destruct l as [e o d]. cbn in *. subst.
    by eapply lease_release.
Qed.

(** ** Runs *)

(** The epochs are at most [W]. *)
Definition epochs_le (W : N) (s : MetaState) : Prop :=
  ∀ k l, s.(leases) !! k = Some l → l.(epoch) <= W.

Lemma apply_epochs_le W s c : epochs_le W s → W < u64_MAX → epochs_le (W + 1) (apply s c).1.
Proof.
  intros L B k l I. pose proof (apply_lease_step s c k) as S. rewrite I in S.
  inversion S as [E|who d E E'|e who d d' E E'|e who d E E'|old who d E H E']; subst; cbn.
  - apply L in E. lia.
  - lia.
  - apply L in E. cbn in E. lia.
  - apply L in E. cbn in E. lia.
  - apply L in E. rewrite u64_add_small; lia.
Qed.

(** [holds e who l]: epoch [e] belongs to [who] and to nobody else, now and later. *)
Definition holds (e : N) (who : string) (l : option Lease) : Prop :=
  ∃ x, l = Some x ∧ (e < x.(epoch) ∨ (e = x.(epoch) ∧ (x.(owner) = Some who ∨ x.(owner) = None))).

(** [broken e l]: epoch [e] is over. *)
Definition broken (e : N) (l : option Lease) : Prop :=
  ∃ x, l = Some x ∧ (e < x.(epoch) ∨ (e = x.(epoch) ∧ x.(owner) = None)).

Section step.
Context (W now : N) (l l' : option Lease).
Hypothesis B : W < u64_MAX.
Hypothesis L : ∀ x, l = Some x → x.(epoch) <= W.
Hypothesis S : lease_step now l l'.

Lemma holds_step e who : holds e who l → holds e who l'.
Proof.
  intros (x & -> & Hx). unfold holds.
  inversion S as [E|w d E E'|e' w d d' E E'|e' w d E E'|old w d E H E']; subst; simplify_eq.
  - by exists x.
  - eexists. split; [done|]. naive_solver.
  - eexists. split; [done|]. naive_solver.
  - eexists. split; [done|]. cbn. left. specialize (L _ eq_refl). rewrite u64_add_small; lia.
Qed.

Lemma broken_step e : broken e l → broken e l'.
Proof.
  intros (x & -> & Hx). unfold broken.
  inversion S as [E|w d E E'|e' w d d' E E'|e' w d E E'|old w d E H E']; subst; simplify_eq.
  - by exists x.
  - eexists. split; [done|]. naive_solver.
  - eexists. split; [done|]. naive_solver.
  - eexists. split; [done|]. cbn. left. specialize (L _ eq_refl). rewrite u64_add_small; lia.
Qed.
End step.

Lemma run_holds W s log k e who :
  epochs_le W s → W + len log <= u64_MAX →
  holds e who (s.(leases) !! k) → holds e who ((run s log).(leases) !! k).
Proof.
  revert W s. induction log as [|c log IH]; intros W s L B H; [done|].
  rewrite len_cons in B. apply (IH (W + 1)).
  - apply apply_epochs_le; [done|lia].
  - lia.
  - eapply holds_step; [|apply L|apply apply_lease_step|done]. lia.
Qed.

Lemma run_broken W s log k e :
  epochs_le W s → W + len log <= u64_MAX →
  broken e (s.(leases) !! k) → broken e ((run s log).(leases) !! k).
Proof.
  revert W s. induction log as [|c log IH]; intros W s L B H; [done|].
  rewrite len_cons in B. apply (IH (W + 1)).
  - apply apply_epochs_le; [done|lia].
  - lia.
  - eapply broken_step; [|apply L|apply apply_lease_step|done]. lia.
Qed.

(** ** Grants *)

(** The lease and the owner a command speaks for. *)
Definition lease_request (c : Command) : option (string * string) :=
  match c with
  | AcquireLease key who _ _ | RenewLease key who _ _ _ | ReacquireLease key who _ _ _
  | ReleaseLease key who _ => Some (key, who)
  | _ => None
  end.

(** What a granted command leaves. *)
Lemma granted_lease s c key who g :
  lease_request c = Some (key, who) → (apply s c).2 = Ok (LeaseReply g) →
  (apply s c).1.(leases) !! key
    = Some {| epoch := g.(grant_epoch); owner := Some who; deadline_ms := g.(grant_deadline_ms) |}.
Proof.
  intros Q. match goal with |- snd ?o = _ → _ = ?x =>
    change (ensures (λ s' r, r = Ok (LeaseReply g) → s'.(leases) !! key = x) o) end.
  destruct c; try done; cbn in Q; injection Q as -> ->; cbn [apply].
  - unfold acquire_lease. outcome_cases; intros; simplify_eq/=; by rewrite lookup_insert_eq.
  - unfold renew_lease, extend_lease. outcome_cases; intros; simplify_eq/=; bools.
    rewrite lookup_insert_eq. congruence.
  - unfold reacquire_lease, extend_lease. outcome_cases; intros; simplify_eq/=; bools.
    rewrite lookup_insert_eq. congruence.
  - unfold release_lease. outcome_cases; intros; simplify_eq/=.
Qed.

Lemma epochs_default : epochs_le 0 MetaState_default.
Proof. intros k l E. discriminate E. Qed.

Lemma run_epochs W s log :
  epochs_le W s → W + len log <= u64_MAX → epochs_le (W + len log) (run s log).
Proof.
  revert W s. induction log as [|c log IH]; intros W s L B.
  - by rewrite N.add_0_r.
  - rewrite len_cons in *. replace (W + (len log + 1)) with (W + 1 + len log) by lia.
    apply IH; [apply apply_epochs_le; [done|lia]|lia].
Qed.

Lemma grant_unique W s c1 c2 log key who1 who2 g1 g2 :
  epochs_le W s → W + len log + 2 <= u64_MAX →
  lease_request c1 = Some (key, who1) → lease_request c2 = Some (key, who2) →
  let s1 := (apply s c1).1 in
  let s2 := run s1 log in
  (apply s c1).2 = Ok (LeaseReply g1) → (apply s2 c2).2 = Ok (LeaseReply g2) →
  g1.(grant_epoch) = g2.(grant_epoch) → who1 = who2.
Proof.
  intros L B Q1 Q2 s1 s2 G1 G2 E.
  assert (holds (grant_epoch g1) who1 (leases s2 !! key)) as H2.
  { eapply (run_holds (W + 1)); [apply apply_epochs_le; [done|lia]|unfold len in *; lia|].
    unfold s1. rewrite (granted_lease _ _ _ _ _ Q1 G1). eexists. split; [done|]. cbn. auto. }
  assert (holds (grant_epoch g1) who1 ((apply s2 c2).1.(leases) !! key)) as H3.
  { eapply (holds_step (W + 1 + len log)); [lia| |apply apply_lease_step|exact H2].
    apply (run_epochs (W + 1)); [apply apply_epochs_le; [done|lia]|lia]. }
  rewrite (granted_lease _ _ _ _ _ Q2 G2) in H3. destruct H3 as (x & [= <-] & Hx). cbn in Hx.
  rewrite E in Hx. destruct Hx as [?|[_ [?|?]]]; [lia|congruence|done].
Qed.

(** ** Fences *)

Lemma check_fence_Ok s f :
  check_fence s f = Ok () ↔
    ∃ x, s.(leases) !! f.(fence_lease) = Some x ∧ x.(epoch) = f.(fence_epoch) ∧ is_Some x.(owner).
Proof.
  unfold check_fence. destruct (leases s !! fence_lease f) as [x|]; [|naive_solver].
  destruct (epoch x =? fence_epoch f) eqn:E; cbn; bools.
  - case_bool_decide; naive_solver.
  - naive_solver.
Qed.

Lemma broken_fence s f : broken f.(fence_epoch) (s.(leases) !! f.(fence_lease)) →
  check_fence s f = Err (Fenced f.(fence_lease)).
Proof.
  intros (x & E & D). unfold check_fence. rewrite E.
  destruct (epoch x =? fence_epoch f) eqn:Q; [|done]. bools. cbn.
  destruct D as [?|[_ ->]]; [lia|]. by rewrite bool_decide_false by (by intros [? ?]).
Qed.

Lemma fence_breaks s f :
  check_fence s f ≠ Ok () →
  (∃ who, holds f.(fence_epoch) who (s.(leases) !! f.(fence_lease))) →
  broken f.(fence_epoch) (s.(leases) !! f.(fence_lease)).
Proof.
  intros N (who & x & E & H). exists x. split; [done|].
  destruct H as [?|[Ee [O|O]]]; [by left| |by right].
  exfalso. apply N, check_fence_Ok. exists x. rewrite O. split_and!; [done|done|by eexists].
Qed.

Lemma fence_final W s l1 l2 f :
  epochs_le W s → W + len l1 + len l2 <= u64_MAX →
  check_fence s f = Ok () → check_fence (run s l1) f ≠ Ok () →
  check_fence (run (run s l1) l2) f = Err (Fenced f.(fence_lease)).
Proof.
  intros L B (x & E & Ee & who & O)%check_fence_Ok N.
  apply broken_fence. eapply (run_broken (W + len l1)); [apply run_epochs; [done|lia]|done|].
  apply fence_breaks; [done|]. exists who. eapply run_holds; [exact L|lia|].
  exists x. split; [done|]. auto.
Qed.

(** ** A held lease is left to its holder *)

Lemma apply_held s c key who l :
  s.(leases) !! key = Some l → l.(owner) = Some who →
  (∀ w, lease_request c = Some (key, w) → w ≠ who) →
  (apply s c).1.(clock_ms) < l.(deadline_ms) →
  (apply s c).1.(leases) !! key = Some l.
Proof.
  intros E O R. destruct (lease_command c) eqn:K.
  2: { intros _. by rewrite (apply_leases s c K). }
  match goal with |- clock_ms (fst ?o) < _ → _ =>
    change (ensures (λ s' _, s'.(clock_ms) < l.(deadline_ms) → s'.(leases) !! key = Some l) o) end.
  destruct c as [| | | | | | | | |k w ttl now|k w e ttl now|k w e ttl now|k w e| | | | | | | | | | |];
    try done; cbn [apply]; cbn in R.
  - unfold acquire_lease. destruct (decide (k = key)) as [->|D].
    + specialize (R w eq_refl). outcome_cases; cbn; intros; simplify_eq; bools; try congruence.
      match goal with H : is_held_at l _ = false |- _ => unfold is_held_at in H; rewrite O in H end.
      bools. lia.
    + outcome_cases; cbn; intros; rewrite ?lookup_insert_ne by done; done.
  - unfold renew_lease, extend_lease. destruct (decide (k = key)) as [->|D].
    + specialize (R w eq_refl). outcome_cases; cbn; intros; simplify_eq; bools; congruence.
    + outcome_cases; cbn; intros; rewrite ?lookup_insert_ne by done; done.
  - unfold reacquire_lease, extend_lease. destruct (decide (k = key)) as [->|D].
    + specialize (R w eq_refl). outcome_cases; cbn; intros; simplify_eq; bools; congruence.
    + outcome_cases; cbn; intros; rewrite ?lookup_insert_ne by done; done.
  - unfold release_lease. destruct (decide (k = key)) as [->|D].
    + specialize (R w eq_refl). outcome_cases; cbn; intros; simplify_eq; bools; congruence.
    + outcome_cases; cbn; intros; rewrite ?lookup_insert_ne by done; done.
Qed.

Lemma run_held s log key who l :
  s.(leases) !! key = Some l → l.(owner) = Some who →
  (∀ c w, c ∈ log → lease_request c = Some (key, w) → w ≠ who) →
  (run s log).(clock_ms) < l.(deadline_ms) →
  (run s log).(leases) !! key = Some l.
Proof.
  revert s. induction log as [|c log IH]; intros s E O R T; [done|].
  rewrite run_cons in T |- *. apply IH; [|done| |done].
  - eapply apply_held; [done|done| |].
    + intros w. apply R. left.
    + pose proof (run_later (apply s c).1 log). unfold later in *. lia.
  - intros c' w I. apply R. by right.
Qed.
