(* ===== verification/MetaPointerInv.v ===== *)
(** * Versions: pointers never repeat one, schemas only grow

    A pointer moves by compare-and-set from version [v] to [v + 1].  Versions of a key never go
    back and never repeat with another value, also across a drop of the collection the pointer
    belongs to: the pointer of a dropped collection is gone for good.  A schema update appends
    fields and vectors and never changes or removes one; the version goes up by one with each
    update. *)

From Stdlib Require Import NArith Lia.
From stdpp Require Import prelude gmap strings numbers list.
From S2P Require Import Prelude.
From S2P Require Import BTree.
From S2P Require Import Ids.
From S2P Require Import Schema.
From S2P Require Import MetaTypes.
From S2P Require Import MetaState.
From S2P Require Import MetaLeases.
From S2P Require Import MetaLog.
From S2P Require Import MetaCatalog.
From S2P Require Import MetaCollections.
From S2P Require Import MetaApply.
From S2P Require Import CatalogInv.
From S2P Require Import MetaFrames.
From S2P Require Import MetaCatalogInv.
From S2P Require Import MetaAliasInv.

Open Scope N_scope.

Definition same_pointers (s s' : MetaState) : Prop := s'.(pointers) = s.(pointers).

(** Only compare-and-set and drops touch pointers. *)
Lemma apply_pointers s c :
  match c with CasPointer _ _ _ _ _ _ | DropCollection _ _ _ => False | _ => True end →
  same_pointers s (apply s c).1.
Proof.
  intros K. assert (same_pointers s s) as R by done.
  destruct c; first [done|kept R].
Qed.

(** ** Compare-and-set *)

(** The version a compare-and-set from [expected] leaves, if [current] is what it expects. *)
Definition next_version (expected : option N) (current : option Pointer) : option N :=
  match expected, current with
  | None, None => Some 1
  | Some v, Some p => if p.(pointer_version) =? v then Some (u64_add v 1) else None
  | _, _ => None
  end.

Lemma cas_pointer_Ok s ns key expected value fence fresh v :
  (cas_pointer s ns key expected value fence fresh).2 = Ok (PointerSet v) →
  next_version expected (s.(pointers) !! (ns, key)) = Some v
  ∧ (cas_pointer s ns key expected value fence fresh).1
    = set_pointers s (<[(ns, key) := {| pointer_version := v; pointer_value := value |}]>
                        s.(pointers)).
Proof.
  unfold cas_pointer.
  match goal with |- snd ?o = _ → ?A ∧ fst _ = ?B =>
    change (ensures (λ s' r, r = Ok (PointerSet v) → A ∧ s' = B) o) end.
  fold (next_version expected (pointers s !! (ns, key))).
  outcome_cases; intros; simplify_eq. split; [|done].
  by destruct (next_version expected (pointers s !! (ns, key))); simplify_eq/=.
Qed.

Lemma cas_pointer_other s ns key expected value fence fresh :
  (∀ v, (cas_pointer s ns key expected value fence fresh).2 ≠ Ok (PointerSet v)) →
  (cas_pointer s ns key expected value fence fresh).1 = s.
Proof.
  unfold cas_pointer.
  match goal with |- (∀ v, snd ?o ≠ _) → fst _ = s =>
    change (ensures (λ s' r, (∀ v, r ≠ Ok (PointerSet v)) → s' = s) o) end.
  outcome_cases; intros N; try done. by destruct (N _ eq_refl).
Qed.

(** ** Collections do not come back *)

(** The id was handed out and its collection is no more. *)
Definition dropped (id : CollectionId) (s : MetaState) : Prop :=
  id <= s.(last_collection_id) ∧ s.(collections) !! id = None.

(** What a drop leaves of collections and pointers. *)
Inductive drop_effect (s : MetaState) (ns : NamespaceId) (s' : MetaState) : Prop :=
  | drop_nothing :
      s'.(collections) = s.(collections) → s'.(pointers) = s.(pointers) →
      drop_effect s ns s'
  | drop_one id :
      id <= s.(last_collection_id) →
      s'.(collections) = delete id s.(collections) →
      s'.(pointers) = delete (ns, collection_pointer_key id) s.(pointers) →
      drop_effect s ns s'.

Lemma drop_collection_effect W s ns name now :
  catalog_ok W s → drop_effect s ns (drop_collection s ns name now).1.
Proof.
  intros [_ _ _ Co _ _ _ _ Bk _ _].
  destruct (collection_names s !! (ns, name)) as [i|] eqn:Cn.
  2: { unfold drop_collection. cbv zeta.
       rewrite (Cn : collection_names (set_clock_ms s _) !! _ = _). by apply drop_nothing. }
  pose proof (ti_name _ _ _ Co _ _ Cn) as (c & X & _).
  destruct (bi_stream _ _ _ Bk _ _ X) as (st & St & _).
  destruct (bi_link _ _ _ Bk _ _ X) as (l & Li & _).
  destruct (drop_collection_spec s _ _ now i c st l Cn X St Li) as
    (s' & -> & E1 & _ & _ & _ & _ & _ & _ & _ & E2 & _).
  apply (drop_one _ _ _ i); [|done|done]. by destruct (ti_item _ _ _ Co _ _ X) as (_ & ? & _).
Qed.

Lemma apply_dropped W s c id :
  catalog_ok W s → W < u64_MAX → dropped id s → dropped id (apply s c).1.
Proof.
  intros C B D.
  destruct c; cbn [apply];
    lazymatch goal with
    | |- context [create_collection] => idtac
    | |- context [drop_collection] => idtac
    | |- context [update_collection_schema] => idtac
    | |- _ => kept D
    end.
  - unfold create_collection, insert_stream, insert_link. state_cases; simplify_eq; try exact D.
    destruct D as [L N]. destruct C as [_ _ _ _ _ _ _ Lc _ _ _].
    pose proof (next_id _ _ Lc B) as I. split; cbn; [lia|].
    rewrite lookup_insert_ne by lia. exact N.
  - destruct D as [L N]. split.
    + by rewrite (dk_lco _ _ _ (drop_collection_frame s namespace name now_ms)).
    + destruct (drop_collection_effect W s namespace name now_ms C) as [-> _|i _ -> _]; [done|].
      apply lookup_delete_None. by right.
  - unfold update_collection_schema. state_cases; try exact D. destruct D as [L N].
    split; [done|]. cbn. rewrite lookup_insert_ne; [done|]. congruence.
Qed.

Lemma run_dropped W s log id :
  catalog_ok W s → W + len log <= u64_MAX → dropped id s → dropped id (run s log).
Proof.
  revert W s. induction log as [|c log IH]; intros W s C B D; [done|].
  rewrite len_cons in B. rewrite run_cons.
  apply (IH (W + 1)); [apply apply_catalog; [done|lia]|lia|].
  eapply apply_dropped; [done|lia|done].
Qed.

Definition collection_ids_kept (s s' : MetaState) : Prop :=
  s.(last_collection_id) <= s'.(last_collection_id).

(** Collection ids are handed out in order and never taken back. *)
Lemma apply_collection_ids W s c :
  catalog_ok W s → W < u64_MAX → collection_ids_kept s (apply s c).1.
Proof.
  intros [_ _ _ _ _ _ _ Lc _ _ _] B. pose proof (next_id _ _ Lc B) as I.
  assert (collection_ids_kept s s) as R by (unfold collection_ids_kept; lia).
  destruct c; cbn [apply];
    lazymatch goal with
    | |- context [create_collection] => idtac
    | |- context [drop_collection] => idtac
    | |- _ => kept R
    end.
  - unfold create_collection, insert_stream, insert_link. state_cases; simplify_eq; try exact R.
    unfold collection_ids_kept. read_fields. lia.
  - unfold collection_ids_kept.
    rewrite (dk_lco _ _ _ (drop_collection_frame s namespace name now_ms)). lia.
Qed.

(** ** Histories *)

(** Versions are at most [W]. *)
Definition versions_le (W : N) (s : MetaState) : Prop :=
  ∀ k p, s.(pointers) !! k = Some p → p.(pointer_version) <= W.

(** [p] was the pointer of [k]: it still is, the pointer moved to a greater version, or it went
    with its collection and stays away. *)
Definition past (k : NamespaceId * string) (p : Pointer) (s : MetaState) : Prop :=
  match s.(pointers) !! k with
  | Some q => p.(pointer_version) < q.(pointer_version) ∨ p = q
  | None => ∃ id, k.2 = collection_pointer_key id ∧ dropped id s
  end.

(** Nobody sets the pointer of a dropped collection. *)
Lemma cas_dropped W s ns id expected value fence fresh :
  catalog_ok W s → W <= u64_MAX → dropped id s →
  (cas_pointer s ns (collection_pointer_key id) expected value fence fresh).1 = s.
Proof.
  intros C B [L N]. apply cas_pointer_other. intros v R. revert R.
  assert (id <= u64_MAX) as I. { destruct C as [_ _ _ _ _ _ _ Lc _ _ _]. lia. }
  assert (check_collection_pointer s ns (collection_pointer_key id) = Err (CollectionNotFound id))
    as Q.
  { unfold check_collection_pointer, collection_pointer_key. rewrite strip_prefix_app.
    rewrite parse_show by done. by rewrite N. }
  unfold cas_pointer. rewrite Q.
  match goal with |- snd ?o = ?r → False => change (ensures (λ _ x, x = r → False) o) end.
  outcome_cases; discriminate.
Qed.

Lemma next_version_le W expected current v :
  (∀ p, current = Some p → p.(pointer_version) <= W) → W < u64_MAX →
  next_version expected current = Some v →
  v <= W + 1 ∧ ∀ p, current = Some p → p.(pointer_version) < v.
Proof.
  intros L B. destruct expected as [e|], current as [p|]; cbn; try done.
  - specialize (L _ eq_refl). destruct (pointer_version p =? e) eqn:E; [|done]. bools. subst e.
    intros [= <-]. rewrite u64_add_small by lia. split; [lia|]. intros ? [= <-]. lia.
  - intros [= <-]. split; [lia|done].
Qed.

(** Either a compare-and-set changes nothing, or it moves its key to the next version. *)
Lemma cas_pointer_cases s ns key expected value fence fresh :
  (cas_pointer s ns key expected value fence fresh).1 = s
  ∨ ∃ v, next_version expected (s.(pointers) !! (ns, key)) = Some v
      ∧ (cas_pointer s ns key expected value fence fresh).1
        = set_pointers s (<[(ns, key) := {| pointer_version := v; pointer_value := value |}]>
                            s.(pointers)).
Proof.
  destruct (cas_pointer s ns key expected value fence fresh).2 as [[]|] eqn:R;
    try (left; apply cas_pointer_other; congruence).
  right. eexists. by apply cas_pointer_Ok with (1 := R).
Qed.

Lemma apply_versions W s c :
  catalog_ok W s → W < u64_MAX → versions_le W s → versions_le (W + 1) (apply s c).1.
Proof.
  intros C B V. assert (versions_le (W + 1) s) as V' by (intros k p I; apply V in I; lia).
  destruct c; try (intros k p; rewrite apply_pointers by done; apply V'); cbn [apply].
  - destruct (cas_pointer_cases s namespace key expected value fence fresh)
      as [->|(v & N & ->)]; [exact V'|].
    intros k p. cbn. rewrite lookup_insert_Some. intros [[<- <-]|[_ I]]; [|by apply V' in I].
    cbn. by eapply next_version_le; [|done|done]; intros q ?; eapply V.
  - intros k p. destruct (drop_collection_effect W s namespace name now_ms C) as [_ ->|i _ _ ->].
    + apply V'.
    + intros [_ I]%lookup_delete_Some. by apply V' in I.
Qed.

Lemma apply_past W s c k p :
  catalog_ok W s → W < u64_MAX → versions_le W s → past k p s → past k p (apply s c).1.
Proof.
  intros C B V P. pose proof (λ id, apply_dropped W s c id C B) as G.
  assert (same_pointers s (apply s c).1 → past k p (apply s c).1) as K.
  { unfold past. intros ->. unfold past in P. destruct (pointers s !! k); naive_solver. }
  destruct c; try (by apply K, apply_pointers); cbn [apply] in *.
  - destruct (cas_pointer_cases s namespace key expected value fence fresh)
      as [E|(v & N & E)]; [by rewrite E|].
    destruct (decide (k = (namespace, key))) as [->|D].
    + destruct (pointers s !! (namespace, key)) as [q|] eqn:Q; unfold past in P |- *; rewrite Q in P.
      * rewrite E. cbn. rewrite lookup_insert_eq. left. cbn.
        destruct (next_version_le W _ _ _ (λ p E, V _ p (eq_trans Q E)) B N) as [_ L].
        specialize (L q eq_refl). destruct P as [?| ->]; lia.
      * destruct P as (id & Kd & D). cbn in Kd. subst key.
        rewrite (cas_dropped W) by (done || lia). rewrite Q. by exists id.
    + unfold past in P |- *. rewrite E in G |- *. cbn in G |- *. rewrite lookup_insert_ne by done.
      destruct (pointers s !! k); [done|]. destruct P as (id & ? & ?). exists id. auto.
  - destruct (drop_collection_effect W s namespace name now_ms C) as [_ E|i L E1 E2]; [by apply K|].
    unfold past in P |- *. rewrite E2. destruct (decide (k = (namespace, collection_pointer_key i)))
      as [->|D].
    + rewrite lookup_delete_eq. exists i. split; [done|]. split.
      * by rewrite (dk_lco _ _ _ (drop_collection_frame s namespace name now_ms)).
      * by rewrite E1, lookup_delete_eq.
    + rewrite lookup_delete_ne by done. destruct (pointers s !! k); [done|].
      destruct P as (id & ? & ?). exists id. auto.
Qed.

Lemma run_past W s log k p :
  catalog_ok W s → versions_le W s → W + len log <= u64_MAX →
  past k p s → past k p (run s log).
Proof.
  revert W s. induction log as [|c log IH]; intros W s C V B P; [done|].
  rewrite len_cons in B. rewrite run_cons. apply (IH (W + 1)).
  - apply apply_catalog; [done|lia].
  - apply apply_versions; [done|lia|done].
  - lia.
  - eapply apply_past; [done|lia|done|done].
Qed.

Lemma run_versions W s log :
  catalog_ok W s → versions_le W s → W + len log <= u64_MAX →
  catalog_ok (W + len log) (run s log) ∧ versions_le (W + len log) (run s log).
Proof.
  revert W s. induction log as [|c log IH]; intros W s C V B.
  - by rewrite N.add_0_r.
  - rewrite len_cons in *. rewrite run_cons.
    replace (W + (len log + 1)) with (W + 1 + len log) by lia. apply IH.
    + apply apply_catalog; [done|lia].
    + apply apply_versions; [done|lia|done].
    + lia.
Qed.

(** Whoever read version [v] of a key and finds version [v] again finds the same pointer. *)
Lemma pointer_history l1 l2 ns key p q :
  len l1 + len l2 <= u64_MAX →
  let s := run MetaState_default l1 in
  pointer s ns key = Some p → pointer (run s l2) ns key = Some q →
  p.(pointer_version) < q.(pointer_version) ∨ p = q.
Proof.
  intros B s P Q.
  assert (versions_le 0 MetaState_default) as V by (intros k x E; discriminate E).
  destruct (run_versions 0 _ l1 catalog_default V) as [C V1]; [lia|].
  assert (past (ns, key) p (run s l2)) as R.
  { eapply run_past; [exact C|exact V1|lia|]. unfold past. unfold pointer in P. rewrite P. by right. }
  unfold past in R. unfold pointer in Q. by rewrite Q in R.
Qed.

Lemma map_err_Ok {A E F} (f : E → F) (r : Result A E) x : map_err f r = Ok x → r = Ok x.
Proof. destruct r; cbn; congruence. Qed.

(** [b] is [a] or comes from it by additive updates. *)
Definition grows (a b : CollectionSchema) : Prop :=
  a = b ∨ (extends a b ∧ a.(schema_version) < b.(schema_version)).

#[export] Instance grows_preorder : PreOrder grows.
Proof.
  split; [by left|]. intros a b c [->|[E L]]; [done|]. intros [<-|[E' L']].
  - by right.
  - right. split; [by eapply extends_trans|lia].
Qed.

Definition schemas_kept (s s' : MetaState) : Prop :=
  ∀ id x y, s.(collections) !! id = Some x → s'.(collections) !! id = Some y →
    grows x.(collection_schema) y.(collection_schema).

Lemma apply_schemas W s c :
  catalog_ok W s → W < u64_MAX → schemas_kept s (apply s c).1.
Proof.
  intros C B. assert (schemas_kept s s) as R by (intros id x y E E'; simplify_eq; by left).
  destruct c; cbn [apply];
    lazymatch goal with
    | |- context [create_collection] => idtac
    | |- context [drop_collection] => idtac
    | |- context [update_collection_schema] => idtac
    | |- _ => kept R
    end.
  - unfold create_collection, insert_stream, insert_link. state_cases; simplify_eq; try exact R.
    pose proof C as [_ _ _ Co _ _ _ Lc _ _ _]. pose proof (next_id _ _ Lc B) as I.
    intros id x y E. read_fields. rewrite lookup_insert_Some. intros [[<- _]|[_ E']].
    + rewrite (table_fresh _ _ _ _ Co) in E by lia. done.
    + by eapply R.
  - intros id x y E.
    destruct (drop_collection_effect W s namespace name now_ms C) as [-> _|i _ -> _].
    + by apply R.
    + intros [_ E']%lookup_delete_Some. by eapply R.
  - unfold update_collection_schema. state_cases; try exact R.
    intros id x y E. read_fields. rewrite lookup_insert_Some. intros [[<- <-]|[_ E']].
    2: by eapply R.
    cbn. simplify_eq. right.
    match goal with H : map_err _ (check_additive _ _) = Ok ?u, V : ok_or _ _ = Ok _ |- _ =>
      apply map_err_Ok in H; destruct u; unfold u64_checked_add in V end.
    bools. split; [by apply extends_with_version, check_additive_extends|].
    cbn. case_match; simplify_eq/=. lia.
Qed.

Lemma run_schemas W s log :
  catalog_ok W s → W + len log <= u64_MAX → schemas_kept s (run s log).
Proof.
  revert W s. induction log as [|c log IH]; intros W s C B.
  - intros id x y E E'. cbn in E'. simplify_eq. by left.
  - rewrite len_cons in B. intros id x y E E'. rewrite run_cons in E'.
    pose proof (apply_catalog W s c C ltac:(lia)) as C'.
    destruct ((apply s c).1.(collections) !! id) as [z|] eqn:Z.
    + transitivity (collection_schema z).
      * by eapply apply_schemas; [| |exact E|exact Z]; [done|lia].
      * eapply (IH (W + 1)); [exact C'|lia|exact Z|exact E'].
    + exfalso. assert (dropped id (run (apply s c).1 log)) as [_ D]; [|congruence].
      eapply (run_dropped (W + 1)); [exact C'|lia|]. split; [|done].
      pose proof C as [_ _ _ Co _ _ _ _ _ _ _]. destruct (ti_item _ _ _ Co _ _ E) as (_ & L & _).
      pose proof (apply_collection_ids W s c C ltac:(lia)) as I.
      unfold collection_ids_kept in I. lia.
Qed.
