(* ===== verification/MetaSteps.v ===== *)
(** * What a command does to one partition

    Every command leaves a partition alone, creates it empty, removes it, appends the chunks of
    a commit to it, swaps a run of its WAL entries for a segment, or trims it.  The theorems
    about readers are proved from this classification. *)

From Stdlib Require Import NArith Lia.
From stdpp Require Import prelude gmap strings numbers list.
From S2P Require Import Prelude.
From S2P Require Import BTree.
From S2P Require Import Ids.
From S2P Require Import Schema.
From S2P Require Import MetaTypes.
From S2P Require Import MetaState.
From S2P Require Import MetaLeases.
From S2P Require Import MetaLog.
From S2P Require Import MetaCatalog.
From S2P Require Import MetaCollections.
From S2P Require Import MetaApply.
From S2P Require Import CatalogInv.
From S2P Require Import MetaFrames.
From S2P Require Import MetaCatalogInv.
From S2P Require Import MetaAliasInv.
From S2P Require Import PartitionInv.
From S2P Require Import MetaObjects.
From S2P Require Import MetaLogInv.

Open Scope N_scope.

Definition same_partitions (s s' : MetaState) : Prop := s'.(partitions) = s.(partitions).

(** The commands that touch partitions. *)
Definition partition_command (c : Command) : bool :=
  match c with
  | CreateStream _ _ _ _ _ | CommitWal _ _ _ | SwapSegment _ _ _ _ _ _ _ _ _
  | TrimPartition _ _ _ _ _ | CreateCollection _ _ _ _ | DropCollection _ _ _ => true
  | _ => false
  end.

Lemma apply_same_partitions s c :
  partition_command c = false → same_partitions s (apply s c).1.
Proof.
  intros K. assert (same_partitions s s) as R by done.
  destruct c; first [discriminate K|kept R].
Qed.

(** The segment entry a swap puts in. *)
Definition segment_entry (first recs : N) (seg : string) (range : Range) (ts : Z) : IndexEntry := {|
  entry_kind := Segment;
  base_offset := first;
  records := recs;
  object := seg;
  byte_range := range;
  max_timestamp_ms := ts;
|}.

Inductive part_step (s : MetaState) (c : Command) (k : PartKey)
  : option PartitionState → option PartitionState → Prop :=
  | part_same x : part_step s c k x x
  | part_create :
      s.(last_stream_id) < k.1 → part_step s c k None (Some PartitionState_default)
  | part_drop ps : part_step s c k (Some ps) None
  | part_append obj created chunks ps :
      c = CommitWal obj created chunks →
      s.(wal_commits) !! obj = None →
      (u64_saturating_add created WAL_COMMIT_WINDOW_MS <? s.(clock_ms)) = false →
      Forall (λ c, 0 < c.(chunk_records)) chunks →
      part_step s c k (Some ps) (Some (append_all ps obj (filter (λ c, chunk_key c = k) chunks)))
  | part_swap first obj rest seg range ts fence now fresh ps recs ps' removed :
      c = SwapSegment k.1 k.2 ((first, obj) :: rest) seg range ts fence now fresh →
      expired_at fresh (N.max s.(clock_ms) now) = false →
      check_replaces ps (IndexMismatch k.1 k.2) ((first, obj) :: rest) first 0 = Ok recs →
      remove_entries ps ((first, obj) :: rest).*1 [] = (ps', removed) →
      part_step s c k (Some ps) (Some (insert_entry ps' (segment_entry first recs seg range ts)))
  | part_trim before fence now ps ps' removed :
      c = TrimPartition k.1 k.2 before fence now →
      pop_entries (S (size ps.(index))) ps (N.min before ps.(next_offset)) [] = (ps', removed) →
      part_step s c k (Some ps) (Some (trimmed ps ps' (N.min before ps.(next_offset)))).

(** ** The commands *)

(** The append loop, seen from one partition. *)
Lemma append_chunks_lookup s obj chunks acc s' bases k :
  append_chunks s obj chunks acc = (s', Ok bases) →
  s'.(partitions) !! k
    = (λ ps, append_all ps obj (filter (λ c, chunk_key c = k) chunks)) <$> s.(partitions) !! k.
Proof.
  revert s acc. induction chunks as [|c chunks IH]; intros s acc; cbn [append_chunks].
  - intros [= <- _]. cbn. by destruct (partitions s !! k).
  - destruct (partitions s !! (chunk_stream c, chunk_partition c)) as [ps|] eqn:M; [|done].
    cbv zeta. intros E%IH. rewrite E. cbn [set_partition set_partitions partitions].
    rewrite filter_cons. destruct (decide (chunk_key c = k)) as [<-|D].
    + unfold chunk_key in *. by rewrite lookup_insert_eq, M.
    + by rewrite lookup_insert_ne by done.
Qed.

Lemma set_partition_step s c st p ps ps' k m :
  s.(partitions) !! (st, p) = Some ps →
  part_step s c (st, p) (Some ps) (Some ps') →
  m = <[(st, p) := ps']> s.(partitions) →
  part_step s c k (s.(partitions) !! k) (m !! k).
Proof.
  intros M S ->. destruct (decide (k = (st, p))) as [->|D].
  - by rewrite M, lookup_insert_eq.
  - rewrite lookup_insert_ne by done. constructor.
Qed.

Lemma release_entries_partitions s removed :
  (release_entries s removed).(partitions) = s.(partitions).
Proof. by destruct (release_entries_frame s removed) as (? & ? & ->). Qed.

Definition steps_parts (s : MetaState) (c : Command) (k : PartKey) (s' : MetaState) : Prop :=
  part_step s c k (s.(partitions) !! k) (s'.(partitions) !! k).

Lemma commit_wal_step s obj created chunks k :
  steps_parts s (CommitWal obj created chunks) k (commit_wal s obj created chunks).1.
Proof.
  assert (steps_parts s (CommitWal obj created chunks) k s) as R by constructor.
  unfold commit_wal. destruct (validate_chunks s chunks) as [[]|] eqn:V; [|by state_cases].
  destruct (append_chunks s obj chunks []) as [s' [bases|]] eqn:A.
  - state_cases; try exact R. unfold steps_parts. read_fields.
    rewrite (append_chunks_lookup _ _ _ _ _ _ k A).
    destruct (partitions s !! k) as [ps|]; [|constructor]. cbn. eapply part_append; [done|done|done|].
    apply validate_chunks_Ok in V. eapply Forall_impl; [exact V|].
    by intros c (_ & _ & ? & _)%validate_chunk_Ok.
  - exfalso. destruct (append_chunks_total s obj chunks [] (validated_partitions _ _ V))
      as (b & E & _). by rewrite A in E.
Qed.

Lemma swap_segment_step s st p replaces seg range ts fence now fresh k :
  let c := SwapSegment st p replaces seg range ts fence now fresh in
  steps_parts s c k (apply s c).1.
Proof.
  cbv zeta. cbn [apply].
  match goal with |- steps_parts _ ?c _ _ =>
    assert (steps_parts s c k s) as R by constructor end.
  unfold swap_segment. destruct (partition_state s st p) as [ps|] eqn:Ps; [|by state_cases].
  apply partition_state_Ok in Ps.
  rewrite (partition_state_mut_Ok (set_clock_ms s _) st p ps Ps).
  state_cases; try exact R. unfold steps_parts.
  rewrite release_entries_partitions. eapply set_partition_step; [exact Ps| |reflexivity].
  by eapply part_swap.
Qed.

Lemma trim_partition_step s st p before fence now k :
  let c := TrimPartition st p before fence now in
  steps_parts s c k (apply s c).1.
Proof.
  cbv zeta. cbn [apply].
  match goal with |- steps_parts _ ?c _ _ =>
    assert (steps_parts s c k s) as R by constructor end.
  unfold trim_partition. destruct (partition_state s st p) as [ps|] eqn:Ps; [|by state_cases].
  apply partition_state_Ok in Ps.
  rewrite (partition_state_mut_Ok (set_clock_ms s _) st p ps Ps).
  state_cases; try exact R. unfold steps_parts.
  rewrite release_entries_partitions. eapply set_partition_step; [exact Ps| |reflexivity].
  by eapply part_trim.
Qed.

(** A stream that is inserted gets empty partitions under a new id. *)
Lemma insert_stream_step W s c k ns name n class r :
  catalog_ok W s → W < u64_MAX →
  part_step s c k (s.(partitions) !! k)
    ((insert_stream s ns name n class r).1.(partitions) !! k).
Proof.
  intros [_ T _ _ _ Ls _ _ _ P _] B. cbn. rewrite insert_partitions_lookup.
  rewrite (next_id _ _ Ls B). case_decide as D; [|constructor]. destruct k as [i q].
  cbn in D. destruct D as [-> _].
  replace (partitions s !! (last_stream_id s + 1, q)) with (@None PartitionState).
  - apply part_create. cbn. lia.
  - symmetry. apply eq_None_not_Some. intros (st & S & _)%P.
    rewrite (table_fresh _ _ _ _ T) in S by lia. done.
Qed.

Lemma drop_collection_step W s ns name now k :
  catalog_ok W s →
  let c := DropCollection ns name now in
  steps_parts s c k (apply s c).1.
Proof.
  intros [_ _ _ Co _ _ _ _ Bk _ _]. cbv zeta. cbn [apply]. unfold steps_parts.
  destruct (collection_names s !! (ns, name)) as [i|] eqn:Cn.
  2: { unfold drop_collection. cbv zeta.
       rewrite (Cn : collection_names (set_clock_ms s _) !! _ = _). constructor. }
  pose proof (ti_name _ _ _ Co _ _ Cn) as (c & X & _).
  destruct (bi_stream _ _ _ Bk _ _ X) as (st & St & _).
  destruct (bi_link _ _ _ Bk _ _ X) as (l & Li & _).
  destruct (drop_collection_spec s _ _ now i c st l Cn X St Li) as
    (s' & -> & _ & _ & _ & _ & _ & _ & _ & K & _).
  cbn [fst]. rewrite K. case_decide; [|constructor].
  destruct (partitions s !! k); constructor.
Qed.

Lemma apply_part_step W s c k :
  catalog_ok W s → W < u64_MAX → steps_parts s c k (apply s c).1.
Proof.
  intros C B. destruct (partition_command c) eqn:K.
  2: { unfold steps_parts. rewrite (apply_same_partitions s c K). constructor. }
  assert (steps_parts s c k s) as R by constructor.
  destruct c; try discriminate K.
  - cbn [apply]. unfold create_stream. state_cases; try exact R.
    match goal with E : insert_stream ?a ?b ?c ?d ?e ?f = (?m, _) |- _ =>
      replace m with (insert_stream a b c d e f).1 by (by rewrite E) end.
    by eapply insert_stream_step.
  - apply commit_wal_step.
  - apply swap_segment_step.
  - apply trim_partition_step.
  - cbn [apply]. unfold create_collection. state_cases; try exact R. unfold steps_parts.
    match goal with E : insert_link _ _ _ _ _ _ = (?m, _),
                    E' : insert_stream ?s1 ?a ?b ?q ?d ?e = _ |- _ =>
      assert (MetaState.partitions m = (insert_stream s1 a b q d e).1.(MetaState.partitions)) as Q
        by (rewrite E'; by injection E as <- _) end.
    read_fields. rewrite Q.
    by apply (insert_stream_step W s _ k namespace EmptyString partitions Standard Retention_default).
  - by eapply drop_collection_step.
Qed.

(** ** Stream ids *)

Definition stream_ids_kept (s s' : MetaState) : Prop := s.(last_stream_id) <= s'.(last_stream_id).

(** Stream ids are handed out in order and never taken back. *)
Lemma apply_stream_ids W s c : catalog_ok W s → W < u64_MAX → stream_ids_kept s (apply s c).1.
Proof.
  intros [_ _ _ _ _ Ls _ _ _ _ _] B. pose proof (next_id _ _ Ls B) as I.
  assert (stream_ids_kept s s) as R by (unfold stream_ids_kept; lia).
  destruct c; cbn [apply];
    lazymatch goal with
    | |- context [create_stream] => idtac
    | |- context [create_collection] => idtac
    | |- context [drop_collection] => idtac
    | |- _ => kept R
    end.
  - unfold create_stream, insert_stream. state_cases; simplify_eq; try exact R.
    unfold stream_ids_kept. read_fields. lia.
  - unfold create_collection, insert_stream, insert_link. state_cases; simplify_eq; try exact R.
    unfold stream_ids_kept. read_fields. lia.
  - unfold stream_ids_kept.
    rewrite (dk_lst _ _ _ (drop_collection_frame s namespace name now_ms)). lia.
Qed.

(** The streams of [s'] are those of [s], in the same namespaces, or have new ids. *)
Definition homes_kept (s s' : MetaState) : Prop :=
  ∀ i st', s'.(streams) !! i = Some st' →
    s.(last_stream_id) < i
    ∨ ∃ st, s.(streams) !! i = Some st ∧ st'.(stream_namespace) = st.(stream_namespace).

Lemma apply_homes W s c : catalog_ok W s → W < u64_MAX → homes_kept s (apply s c).1.
Proof.
  intros Ck B. pose proof Ck as [_ _ _ Co _ Ls _ _ Bk _ _]. pose proof (next_id _ _ Ls B) as I.
  assert (homes_kept s s) as R by (intros i st' E; right; by exists st').
  destruct c; cbn [apply];
    lazymatch goal with
    | |- context [create_stream] => idtac
    | |- context [create_collection] => idtac
    | |- context [drop_collection] => idtac
    | |- context [set_retention] => idtac
    | |- _ => kept R
    end.
  - unfold create_stream, insert_stream. state_cases; simplify_eq; try exact R.
    intros i st' E. cbn in E. rewrite lookup_insert_Some in E. destruct E as [[<- _]|[_ E]]; [left; lia|].
    right. by exists st'.
  - unfold set_retention. destruct (streams s !! stream) as [st|] eqn:S; [|exact R].
    state_cases; try exact R. intros i st' E. cbn in E. rewrite lookup_insert_Some in E.
    destruct E as [[<- <-]|[_ E]]; right; [by exists st|by exists st'].
  - unfold create_collection, insert_stream, insert_link. state_cases; simplify_eq; try exact R.
    intros i st'. read_fields. intros E. rewrite lookup_insert_Some in E.
    destruct E as [[<- _]|[_ E]]; [left; lia|]. right. by exists st'.
  - destruct (collection_names s !! (namespace, name)) as [i|] eqn:Cn.
    2: { unfold drop_collection. cbv zeta.
         rewrite (Cn : collection_names (set_clock_ms s _) !! _ = _). exact R. }
    pose proof (ti_name _ _ _ Co _ _ Cn) as (c & X & _).
    destruct (bi_stream _ _ _ Bk _ _ X) as (st & St & _).
    destruct (bi_link _ _ _ Bk _ _ X) as (l & Li & _).
    destruct (drop_collection_spec s _ _ now_ms i c st l Cn X St Li) as (s' & -> & _ & _ & E' & _).
    intros j st' E. cbn in E. rewrite E', lookup_delete_Some in E. destruct E as [_ E].
    right. by exists st'.
Qed.
