(* ===== verification/LogRefinement.v ===== *)
(** * Partitions refine append-only logs

    The index of a partition is a list of pointers into objects: WAL objects at first, segments
    after the segmenter rewrote them.  Readers see one append-only log of records through it.
    [apply_refines] is the simulation: under the contract of the writers ([faithful]), every
    command is a step of the abstract log, and [refines_read] reads the abstract log at every
    offset between the log start and the next offset. *)

From Stdlib Require Import NArith Lia.
From stdpp Require Import prelude gmap strings numbers list.
From S2P Require Import Prelude.
From S2P Require Import BTree.
From S2P Require Import Ids.
From S2P Require Import Schema.
From S2P Require Import MetaTypes.
From S2P Require Import MetaState.
From S2P Require Import MetaLeases.
From S2P Require Import MetaLog.
From S2P Require Import MetaCatalog.
From S2P Require Import MetaCollections.
From S2P Require Import MetaApply.
From S2P Require Import CatalogInv.
From S2P Require Import MetaFrames.
From S2P Require Import MetaCatalogInv.
From S2P Require Import MetaAliasInv.
From S2P Require Import PartitionInv.
From S2P Require Import MetaObjects.
From S2P Require Import MetaLogInv.
From S2P Require Import MetaInvariants.
From S2P Require Import MetaSound.
From S2P Require Import MetaEnv.
From S2P Require Import MetaSteps.

Open Scope N_scope.

(** ** The abstract log *)

Section refinement.
Context {Rec : Type}.

(** The records in an object's byte range: what a reader decodes from it. *)
Context (content : string → Range → list Rec).

(** All records ever appended, and where reading starts. *)
Record ALog := { al_start : N; al_records : list Rec }.

Inductive LogState :=
  | Absent
  | Live (l : ALog)
  | Dropped.

Inductive log_step : LogState → LogState → Prop :=
  | log_same x : log_step x x
  | log_create : log_step Absent (Live {| al_start := 0; al_records := [] |})
  | log_append l rs :
      log_step (Live l) (Live {| al_start := l.(al_start); al_records := l.(al_records) ++ rs |})
  | log_trim l start :
      l.(al_start) <= start <= len l.(al_records) →
      log_step (Live l) (Live {| al_start := start; al_records := l.(al_records) |})
  | log_drop l : log_step (Live l) Dropped.

(** What was appended stays, and the start only grows. *)
Lemma log_steps_grow x y :
  rtc log_step x y → ∀ l, x = Live l → y = Dropped ∨ ∃ l', y = Live l'
    ∧ l.(al_records) `prefix_of` l'.(al_records) ∧ l.(al_start) <= l'.(al_start).
Proof.
  assert (∀ y, rtc log_step Dropped y → y = Dropped) as D.
  { intros z R. remember Dropped as d eqn:E. induction R as [|x' y' z' S R IH]; [done|].
    subst. inversion S; subst; auto. }
  induction 1 as [x|x y z S R IH]; intros l ->.
  - right. by exists l.
  - inversion S as [|  |l' rs|l' start Le|l']; subst.
    + by apply IH.
    + destruct (IH _ eq_refl) as [->|(l' & -> & P & G)]; [by left|right]. cbn in *.
      exists l'. split_and!; [done| |done]. etransitivity; [|exact P]. by apply prefix_app_r.
    + destruct (IH _ eq_refl) as [->|(l' & -> & P & G)]; [by left|right]. cbn in *.
      exists l'. split_and!; [done|done|lia].
    + left. by apply D.
Qed.

(** ** The abstraction *)

Definition entry_content (e : IndexEntry) : list Rec := content e.(object) e.(byte_range).

(** What a reader finds at an offset: the entry the metastore names, and the record in it. *)
Definition record_at (ps : PartitionState) (o : N) : option Rec :=
  e ← lookup_offset ps o; entry_content e !! N.to_nat (o - e.(base_offset)).

Record refines (ps : PartitionState) (l : ALog) : Prop := {
  rf_next : ps.(next_offset) = len l.(al_records);
  rf_start : ps.(log_start_offset) = l.(al_start);
  rf_entries : ∀ k e, ps.(index) !! k = Some e →
    entry_content e = slice l.(al_records) k e.(records);
}.

Lemma refines_read W ps l o :
  W <= u64_MAX → partition_ok W ps → refines ps l →
  record_at ps o
    = if decide (l.(al_start) <= o < len l.(al_records)) then l.(al_records) !! N.to_nat o else None.
Proof.
  intros B P [Nx St En]. unfold record_at. rewrite <- Nx, <- St.
  destruct (lookup_offset ps o) as [e|] eqn:E.
  - apply (lookup_offset_spec W ps B P) in E as (R & I & Lo). cbn.
    rewrite decide_True by done. rewrite (En _ _ I), slice_lookup by lia. f_equal. lia.
  - rewrite decide_False; [done|]. intros R.
    destruct (lookup_offset_total W ps B P o R) as [e' E']. congruence.
Qed.

(** ** Appending *)

Lemma refines_append_chunk W ps l obj c :
  partition_ok W ps → 0 < c.(chunk_records) → W + chunk_weight c <= u64_MAX →
  len (content obj c.(chunk_byte_range)) = c.(chunk_records) →
  refines ps l →
  refines (append_chunk ps obj c)
    {| al_start := l.(al_start); al_records := l.(al_records) ++ content obj c.(chunk_byte_range) |}.
Proof.
  intros P R B Lc [Nx St En]. destruct (append_chunk_ok W ps obj c P R B) as (_ & N & S).
  split; cbn [al_start al_records].
  - by rewrite N, len_app, Lc, Nx.
  - by rewrite S.
  - intros k e. cbn. rewrite lookup_insert_Some. intros [[<- <-]|[_ I]].
    + unfold entry_content. cbn. rewrite Nx. symmetry. by apply slice_app_r.
    + rewrite (En _ _ I). symmetry. apply slice_app_l. rewrite <- Nx.
      destruct P as [[a T] _ _ _ _]. apply elem_of_btree_iter in I.
      by destruct (tiles_elem _ _ _ _ _ T I) as (_ & _ & _ & ?).
Qed.

Lemma refines_append_all W ps l obj cs :
  partition_ok W ps → Forall (λ c, 0 < c.(chunk_records)) cs →
  W + chunks_weight cs <= u64_MAX →
  Forall (λ c, len (content obj c.(chunk_byte_range)) = c.(chunk_records)) cs →
  refines ps l →
  ∃ rs, refines (append_all ps obj cs)
          {| al_start := l.(al_start); al_records := l.(al_records) ++ rs |}.
Proof.
  revert W ps l. induction cs as [|c cs IH]; intros W ps l P R B F Rf.
  - exists []. rewrite app_nil_r. by destruct l.
  - apply Forall_cons in R as [R1 R2]. apply Forall_cons in F as [F1 F2]. cbn in B.
    destruct (append_chunk_ok W ps obj c P R1) as (P' & _); [lia|].
    destruct (IH _ _ _ P' R2 ltac:(lia) F2
                (refines_append_chunk W ps l obj c P R1 ltac:(lia) F1 Rf)) as [rs Q].
    exists (content obj (chunk_byte_range c) ++ rs). cbn in Q. by rewrite <- app_assoc in Q.
Qed.

(** ** Swapping and trimming *)

(** A run of entries holds the slice it covers. *)
Lemma run_content l a es b :
  tiles a es b → (∀ k e, (k, e) ∈ es → entry_content e = slice l k e.(records)) →
  concat (entry_content <$> es.*2) = slice l a (sum_records es).
Proof.
  revert a. induction es as [|[k e] es IH]; intros a; cbn.
  - done.
  - intros (-> & _ & _ & T) F. rewrite slice_add, (F a e) by left. f_equal.
    apply IH; [done|]. intros k' e' I. apply F. by right.
Qed.

(** The records of the entries a swap replaces. *)
Definition replaced_content (ps : PartitionState) (bases : list N) : list Rec :=
  concat (entry_content <$> omap (λ b, ps.(index) !! b) bases).

Lemma replaced_mid ps es :
  (∀ k e, (k, e) ∈ es → ps.(index) !! k = Some e) →
  omap (λ b, ps.(index) !! b) es.*1 = es.*2.
Proof.
  induction es as [|[k e] es IH]; intros F; [done|]. cbn. rewrite (F k e) by left.
  f_equal. apply IH. intros k' e' I. apply F. by right.
Qed.

Lemma refines_swap W ps l mm first obj rest recs seg ps' removed :
  W + entry_bytes seg <= u64_MAX → partition_ok W ps →
  check_replaces ps mm ((first, obj) :: rest) first 0 = Ok recs →
  remove_entries ps ((first, obj) :: rest).*1 [] = (ps', removed) →
  seg.(base_offset) = first → seg.(records) = recs →
  entry_content seg = replaced_content ps ((first, obj) :: rest).*1 →
  refines ps l → refines (insert_entry ps' seg) l.
Proof.
  intros B P C Rm Sb Sr Ct [Nx St En].
  destruct (swap_ok W ps mm first obj rest recs seg _ ps' removed B P C Rm Sb Sr eq_refl)
    as (pre & mid & post & E & Nm & M1 & _ & _ & _ & Sm & E' & Nx' & Ls & _).
  assert (∀ k e, (k, e) ∈ pre ++ mid ++ post → ps.(index) !! k = Some e) as In.
  { intros k e I. rewrite <- E in I. by apply elem_of_btree_iter. }
  split; [by rewrite Nx'|by rewrite Ls|]. intros k e I%elem_of_btree_iter. rewrite E' in I.
  assert ((k, e) ∈ pre ++ mid ++ post ∨ (k, e) = (first, seg)) as [J|[= -> ->]] by set_solver.
  { by apply En, In. }
  rewrite Ct, Sr, Sm. unfold replaced_content.
  change ((first, obj) :: rest).*1 with (first :: rest.*1).
  rewrite <- M1, replaced_mid by (intros; apply In; set_solver).
  destruct P as [[a T] _ _ _ _]. rewrite E in T.
  apply tiles_app in T as [_ T]. apply tiles_app in T as [T _].
  destruct mid as [|[k0 e0] mid]; [done|]. injection M1 as -> _.
  assert (first = a + sum_records pre) as -> by apply T.
  eapply run_content; [exact T|]. intros k e I'. apply En, In. set_solver.
Qed.

Lemma refines_trim W ps l before ps' removed :
  W <= u64_MAX → partition_ok W ps → before <= ps.(next_offset) →
  pop_entries (S (size ps.(index))) ps before [] = (ps', removed) →
  refines ps l →
  refines (trimmed ps ps' before)
    {| al_start := N.max l.(al_start) before; al_records := l.(al_records) |}.
Proof.
  intros B P Le Pp [Nx St En].
  destruct (trim_ok W ps before ps' removed B P Le Pp) as (_ & N & popped & rest & E & E' & _).
  destruct P as [[a T] S Y L M].
  destruct (pop_entries_spec W ps before [] (Datatypes.S (size (index ps))) a _ B eq_refl T Y L M)
    as (? & ? & q & P1 & _ & _ & _ & P5 & _).
  { rewrite btree_iter_length. lia. }
  rewrite Pp in P1. injection P1 as <- _.
  split; cbn [al_start al_records].
  - by rewrite N.
  - cbn. by rewrite P5, St.
  - intros k e I%elem_of_btree_iter. cbn in I. rewrite E' in I. apply En, elem_of_btree_iter.
    rewrite E. set_solver.
Qed.

(** ** The simulation *)

(** The contract of the writers: a chunk holds as many records as its commit says, and a
    segment holds the records of the entries it replaces, in order. *)
Definition faithful (s : MetaState) (c : Command) : Prop :=
  match c with
  | CommitWal obj _ chunks =>
      Forall (λ c, len (content obj c.(chunk_byte_range)) = c.(chunk_records)) chunks
  | SwapSegment st p ((first, obj) :: rest) seg range _ _ _ _ =>
      ∀ ps recs, s.(partitions) !! (st, p) = Some ps →
        check_replaces ps (IndexMismatch st p) ((first, obj) :: rest) first 0 = Ok recs →
        content seg range = replaced_content ps (first :: rest.*1)
  | _ => True
  end.

(** Partition [k] of [s] is the abstract log [x]. *)
Definition represents (s : MetaState) (k : PartKey) (x : LogState) : Prop :=
  match s.(partitions) !! k, x with
  | Some ps, Live l => refines ps l
  | None, Absent => True
  | None, Dropped => k.1 <= s.(last_stream_id)
  | _, _ => False
  end.

Lemma chunks_weight_filter k cs :
  chunks_weight (filter (λ c, chunk_key c = k) cs) <= chunks_weight cs.
Proof.
  induction cs as [|c cs IH]; [done|]. rewrite filter_cons. case_decide; cbn; lia.
Qed.

Lemma represents_step W s c k x :
  catalog_ok W s → parts_ok W s.(partitions) → W + weight c <= u64_MAX → faithful s c →
  represents s k x →
  ∃ y, log_step x y ∧ represents (apply s c).1 k y.
Proof.
  intros C P B F R. assert (1 <= weight c) as Wc by (unfold weight; lia).
  pose proof (apply_part_step W s c k C ltac:(lia)) as S.
  pose proof (apply_stream_ids W s c C ltac:(lia)) as I.
  unfold steps_parts, represents, stream_ids_kept in *.
  destruct (partitions s !! k) as [ps|] eqn:M.
  - destruct x as [|l|]; try done.
    inversion S as [|?|ps0|obj created chunks ps0 Ec _ _ Ch|
      first obj rest seg range ts fence now fresh ps0 recs ps' removed Ec _ Cr Rm|
      before fence now ps0 ps' removed Ec Pp]; subst.
    + exists (Live l). split; [constructor|done].
    + exists Dropped. split; [constructor|].
      destruct C as [_ T _ _ _ _ _ _ _ Pm _]. destruct k as [i q].
      destruct (proj1 (Pm i q) (ex_intro _ _ M)) as (st & St & _).
      destruct (ti_item _ _ _ T _ _ St) as (_ & ? & _). cbn in *. lia.
    + destruct (refines_append_all W ps l obj (filter (λ c, chunk_key c = k) chunks)
                  (P _ _ M)) as [rs Rf]; [| | |done|].
      * by apply Forall_filter.
      * pose proof (chunks_weight_filter k chunks). unfold weight in B. lia.
      * by apply Forall_filter.
      * eexists. split; [apply (log_append _ rs)|exact Rf].
    + exists (Live l). split; [constructor|].
      eapply (refines_swap W ps l); [|by eapply P|exact Cr|exact Rm|done|done| |done].
      * unfold weight in B. cbn in B. unfold entry_bytes, u64_saturating_sub. cbn. lia.
      * apply (F ps recs); [by rewrite <- surjective_pairing|exact Cr].
    + eexists. split; [apply (log_trim _ (N.max (al_start l) (N.min before (next_offset ps))))|].
      * destruct R as [Nx St _]. rewrite <- Nx, <- St.
        destruct (P _ _ M) as [[a T] So _ _ _]. pose proof (start_le_next _ _ _ T So). lia.
      * eapply (refines_trim W ps l); [lia|by eapply P|lia|exact Pp|done].
  - inversion S as [|Lt| | | |]; subst.
    + exists x. split; [constructor|]. destruct x; try done. lia.
    + destruct x; try done; [|lia]. eexists. split; [apply log_create|]. by split.
Qed.

(** ** Runs *)

Fixpoint faithful_run (s : MetaState) (log : list Command) : Prop :=
  match log with
  | [] => True
  | c :: log => faithful s c ∧ faithful_run (apply s c).1 log
  end.

Lemma faithful_run_app s l1 l2 :
  faithful_run s (l1 ++ l2) ↔ faithful_run s l1 ∧ faithful_run (run s l1) l2.
Proof.
  revert s. induction l1 as [|c l1 IH]; intros s; cbn [app faithful_run].
  - unfold run. cbn. tauto.
  - rewrite run_cons, IH. tauto.
Qed.

Lemma represents_run `{PathLaws} W s log k x :
  catalog_ok W s → log_ok W s → Forall paths_ok log → W + log_weight log <= u64_MAX →
  faithful_run s log → represents s k x →
  ∃ y, rtc log_step x y ∧ represents (run s log) k y.
Proof.
  revert W s x. induction log as [|c log IH]; intros W s x C L P B F R.
  - exists x. split; [constructor|done].
  - apply Forall_cons in P as [P1 P2]. destruct F as [F1 F2]. cbn in B. rewrite run_cons.
    assert (1 <= weight c) by (unfold weight; lia).
    destruct (represents_step W s c k x C (li_parts _ _ _ _ _ _ _ L) ltac:(lia) F1 R)
      as (y & S & Ry).
    destruct (IH (W + weight c) (apply s c).1 y) as (z & Sz & Rz); try done.
    + eapply catalog_mono, (apply_catalog W); [lia|done|lia].
    + apply apply_log; [done|done|lia].
    + lia.
    + exists z. split; [|done]. by eapply rtc_l.
Qed.

(** Between two states of one well named run, each partition takes steps of the log. *)
Lemma run_represents l1 l2 k :
  well_named (l1 ++ l2) → log_weight (l1 ++ l2) <= u64_MAX →
  faithful_run MetaState_default (l1 ++ l2) →
  ∃ x y, represents (run MetaState_default l1) k x
    ∧ represents (run MetaState_default (l1 ++ l2)) k y ∧ rtc log_step x y.
Proof.
  intros wn B F. apply faithful_run_app in F as [F1 F2].
  pose proof (log_path_laws _ wn) as PL.
  pose proof (proj2 (Forall_forall (@paths_ok (log_paths (l1 ++ l2))) _) (log_paths_ok _ wn)) as P. apply Forall_app in P as [P1 P2].
  rewrite log_weight_app in B.
  destruct (@represents_run _ PL 0 MetaState_default l1 k Absent) as (x & _ & Rx); try done.
  { apply catalog_default. }
  { apply log_ok_default. }
  { lia. }
  destruct (run_catalog 0 MetaState_default l1 catalog_default naming_default) as [C _]; [lia|].
  pose proof (@run_log _ PL 0 MetaState_default l1 log_ok_default P1 ltac:(lia)) as L.
  destruct (@represents_run _ PL _ (run MetaState_default l1) l2 k x C L P2) as (y & S & Ry);
    [lia|done|done|].
  exists x, y. rewrite run_app. done.
Qed.
End refinement.
