(* ===== verification/MetaLedger.v ===== *)
(** * The idempotency ledger: a key is done once

    While its window lasts, a key that was completed answers every claim with the partition and
    offset it was completed at; a key in flight is left to its owner until the claim lapses. *)

From Stdlib Require Import NArith Lia.
From stdpp Require Import prelude gmap strings numbers list.
From S2P Require Import Prelude.
From S2P Require Import BTree.
From S2P Require Import Ids.
From S2P Require Import Schema.
From S2P Require Import MetaTypes.
From S2P Require Import MetaState.
From S2P Require Import MetaLeases.
From S2P Require Import MetaLog.
From S2P Require Import MetaCatalog.
From S2P Require Import MetaCollections.
From S2P Require Import MetaApply.
From S2P Require Import CatalogInv.
From S2P Require Import MetaFrames.
From S2P Require Import MetaCatalogInv.
From S2P Require Import MetaAliasInv.
From S2P Require Import MetaCommit.
From S2P Require Import MetaPointerInv.
From S2P Require Import MetaSteps.

Open Scope N_scope.

(** The owner a ledger command acts for. *)
Definition ledger_owner (c : Command) : option string :=
  match c with
  | ClaimIdempotencyKeys _ who _ _ _ | CompleteIdempotencyKeys _ who _ _ _
  | ReleaseIdempotencyKeys _ who _ => Some who
  | _ => None
  end.

(** How one key's entry may change: at clock [now], by a command of [w], where [gone] says that
    the key's stream is no more. *)
Inductive key_step (now : N) (gone : Prop) (w : option string)
  : option IdempotencyEntry → option IdempotencyEntry → Prop :=
  | key_claim e who until_ms :
      w = Some who → claim_state e who now = Claimed →
      key_step now gone w e (Some (Pending who until_ms))
  | key_complete who until_ms p o window :
      w = Some who → key_step now gone w (Some (Pending who until_ms)) (Some (Done p o window))
  | key_release who until_ms :
      w = Some who → key_step now gone w (Some (Pending who until_ms)) None
  | key_lapse e : is_live_at e now = false → key_step now gone w (Some e) None
  | key_drop e : gone → key_step now gone w e None.

Definition ledger_steps (now : N) (sts : gmap StreamId Stream) (w : option string)
    (m m' : gmap (StreamId * IdempotencyKey) IdempotencyEntry) : Prop :=
  ∀ slot, rtc (key_step now (sts !! slot.1 = None) w) (m !! slot) (m' !! slot).

#[export] Instance ledger_steps_preorder now sts w : PreOrder (ledger_steps now sts w).
Proof.
  split.
  - intros m slot. constructor.
  - intros m1 m2 m3 A B slot. etransitivity; [apply A|apply B].
Qed.

Lemma ledger_insert_step now sts w m slot e :
  key_step now (sts !! slot.1 = None) w (m !! slot) (Some e) →
  ledger_steps now sts w m (<[slot := e]> m).
Proof.
  intros S k. destruct (decide (k = slot)) as [->|D].
  - rewrite lookup_insert_eq. by apply rtc_once.
  - rewrite lookup_insert_ne by done. constructor.
Qed.

Lemma ledger_delete_step now sts w m slot :
  key_step now (sts !! slot.1 = None) w (m !! slot) None →
  ledger_steps now sts w m (delete slot m).
Proof.
  intros S k. destruct (decide (k = slot)) as [->|D].
  - rewrite lookup_delete_eq. by apply rtc_once.
  - rewrite lookup_delete_ne by done. constructor.
Qed.

Lemma claim_loop_steps now sts s st who until_ms keys :
  ledger_steps now sts (Some who) s.(idempotency)
    (claim_loop s st who now until_ms keys).1.(idempotency).
Proof.
  revert s. induction keys as [|key keys IH]; intros s; [done|].
  cbn [claim_loop]. cbv zeta. case_bool_decide as E.
  - specialize (IH (set_idempotency s (<[(st, key):=Pending who until_ms]> (idempotency s)))).
    destruct (claim_loop _ _ _ _ _ _) as [s' l]. etransitivity; [|exact IH].
    apply ledger_insert_step. by constructor.
  - specialize (IH s). by destruct (claim_loop _ _ _ _ _ _) as [s' l].
Qed.

Lemma pending_under_inv e who :
  pending_under e who = true → ∃ until_ms, e = Some (Pending who until_ms).
Proof. destruct e as [[h u|]|]; cbn; try done. intros ->%bool_decide_eq_true. by eexists. Qed.

Lemma complete_loop_steps now sts s st who until_ms done :
  ledger_steps now sts (Some who) s.(idempotency)
    (complete_loop s st who until_ms done).(idempotency).
Proof.
  revert s. induction done as [|[[key p] o] done IH]; intros s; [done|].
  cbn [complete_loop]. cbv zeta. destruct (pending_under _ _) eqn:E; [|apply IH].
  etransitivity; [|apply IH]. apply ledger_insert_step.
  apply pending_under_inv in E as [u ->]. by constructor.
Qed.

Lemma release_loop_steps now sts s st who keys :
  ledger_steps now sts (Some who) s.(idempotency) (release_loop s st who keys).(idempotency).
Proof.
  revert s. induction keys as [|key keys IH]; intros s; [done|].
  cbn [release_loop]. cbv zeta. destruct (pending_under _ _) eqn:E; [|apply IH].
  etransitivity; [|apply IH]. apply ledger_delete_step.
  apply pending_under_inv in E as [u ->]. by eapply key_release.
Qed.

Definition same_ledger (s s' : MetaState) : Prop := s'.(idempotency) = s.(idempotency).

Definition ledger_command (c : Command) : bool :=
  match c with
  | ClaimIdempotencyKeys _ _ _ _ _ | CompleteIdempotencyKeys _ _ _ _ _
  | ReleaseIdempotencyKeys _ _ _ | PruneIdempotencyKeys _ _ | DropCollection _ _ _ => true
  | _ => false
  end.

Lemma apply_same_ledger s c : ledger_command c = false → same_ledger s (apply s c).1.
Proof.
  intros K. assert (same_ledger s s) as R by done.
  destruct c; first [discriminate K|kept R].
Qed.

(** [s'] comes from [s] by steps of [w]. *)
Definition ledger_moves (w : option string) (s s' : MetaState) : Prop :=
  ledger_steps s'.(clock_ms) s'.(streams) w s.(idempotency) s'.(idempotency).

Lemma drop_collection_ledger W s ns name now :
  catalog_ok W s → ledger_moves None s (drop_collection s ns name now).1.
Proof.
  intros [_ _ _ Co _ _ _ _ Bk _ _].
  destruct (collection_names s !! (ns, name)) as [i|] eqn:Cn.
  2: { unfold drop_collection. cbv zeta.
       rewrite (Cn : collection_names (set_clock_ms s _) !! _ = _). intros k. constructor. }
  pose proof (ti_name _ _ _ Co _ _ Cn) as (c & X & _).
  destruct (bi_stream _ _ _ Bk _ _ X) as (st & St & _).
  destruct (bi_link _ _ _ Bk _ _ X) as (l & Li & _).
  destruct (drop_collection_spec s _ _ now i c st l Cn X St Li) as
    (s' & -> & _ & _ & E3 & _ & _ & _ & E7 & _).
  intros [id key]. cbn. rewrite E3, E7. destruct (decide (id = collection_stream c)) as [->|D].
  - apply rtc_once. replace (filter _ _ !! _) with (@None IdempotencyEntry).
    + apply key_drop. by rewrite lookup_delete_eq.
    + symmetry. apply map_lookup_filter_None. right. intros x _ Q. by apply Q.
  - rewrite map_lookup_filter. cbn.
    destruct (idempotency s !! (id, key)) as [e|] eqn:M; [|constructor]. cbn.
    rewrite option_guard_True by done. constructor.
Qed.

Lemma apply_ledger_moves W s c : catalog_ok W s → ledger_moves (ledger_owner c) s (apply s c).1.
Proof.
  intros C. destruct (ledger_command c) eqn:K.
  2: { unfold ledger_moves. by rewrite (apply_same_ledger s c K). }
  assert (ledger_moves (ledger_owner c) s s) as R by (intros k; constructor).
  destruct c; try discriminate K; cbn [apply ledger_owner] in *.
  - by eapply drop_collection_ledger.
  - unfold claim_idempotency_keys. state_cases; try exact R. unfold ledger_moves.
    match goal with E : claim_loop ?s1 ?st ?w ?n ?u ?ks = (?m, _) |- _ =>
      pose proof (claim_loop_steps n (streams m) s1 st w u ks) as Q;
      destruct (claim_loop_frame s1 st w n u ks) as [i F]; rewrite E in Q, F end.
    cbn [fst] in Q, F. rewrite F in Q |- *. exact Q.
  - unfold complete_idempotency_keys. state_cases; try exact R. unfold ledger_moves.
    match goal with |- context [complete_loop ?s1 ?st ?w ?u ?ks] =>
      pose proof (complete_loop_steps (clock_ms s1) (streams s1) s1 st w u ks) as Q;
      destruct (complete_loop_frame s1 st w u ks) as [i F]; rewrite F in Q |- * end.
    exact Q.
  - unfold release_idempotency_keys. state_cases; try exact R. unfold ledger_moves.
    match goal with |- context [release_loop ?s1 ?st ?w ?ks] =>
      pose proof (release_loop_steps (clock_ms s1) (streams s1) s1 st w ks) as Q;
      destruct (release_loop_frame s1 st w ks) as [i F]; rewrite F in Q |- * end.
    exact Q.
  - unfold prune_idempotency_keys. state_cases; try exact R. intros slot. cbn.
    rewrite map_lookup_filter. destruct (idempotency s !! slot) as [e|]; [|constructor]. cbn.
    case_guard as L; cbn; [constructor|]. apply rtc_once, key_lapse. by apply not_true_is_false.
Qed.

(** ** Streams do not come back *)

Definition stream_gone (id : StreamId) (s : MetaState) : Prop :=
  id <= s.(last_stream_id) ∧ s.(streams) !! id = None.

Lemma insert_stream_gone W s id ns name n class r :
  s.(last_stream_id) <= W → W < u64_MAX → stream_gone id s →
  stream_gone id (insert_stream s ns name n class r).1.
Proof.
  intros L B [I N]. pose proof (next_id _ _ L B) as E. unfold stream_gone. cbn.
  split; [lia|]. by rewrite lookup_insert_ne by lia.
Qed.

Lemma apply_stream_gone W s c id :
  catalog_ok W s → W < u64_MAX → stream_gone id s → stream_gone id (apply s c).1.
Proof.
  intros C B D. pose proof C as [_ _ _ _ _ Ls _ _ _ _ _].
  destruct c; cbn [apply];
    lazymatch goal with
    | |- context [create_stream] => idtac
    | |- context [set_retention] => idtac
    | |- context [create_collection] => idtac
    | |- context [drop_collection] => idtac
    | |- _ => kept D
    end.
  - unfold create_stream. state_cases; try exact D.
    match goal with E : insert_stream ?a ?b ?c ?d ?e ?f = (?m, _) |- _ =>
      replace m with (insert_stream a b c d e f).1 by (by rewrite E) end.
    eapply insert_stream_gone; [exact Ls|exact B|exact D].
  - unfold set_retention. state_cases; try exact D. destruct D as [I N].
    split; [done|]. cbn. rewrite lookup_insert_ne by congruence. exact N.
  - unfold create_collection. state_cases; try exact D.
    match goal with E : insert_link _ _ _ _ _ _ = (?m, _),
                    E' : insert_stream ?s1 ?a ?b ?q ?d ?e = _ |- _ =>
      assert (stream_gone id (insert_stream s1 a b q d e).1) as G
        by (apply (insert_stream_gone W s1); [exact Ls|exact B|exact D]);
      rewrite E' in G; injection E as <- _; exact G end.
  - destruct D as [I N]. split.
    + by rewrite (dk_lst _ _ _ (drop_collection_frame s namespace name now_ms)).
    + destruct C as [_ _ _ Co _ _ _ _ Bk _ _].
      destruct (collection_names s !! (namespace, name)) as [i|] eqn:Cn.
      2: { unfold drop_collection. cbv zeta.
           rewrite (Cn : collection_names (set_clock_ms s _) !! _ = _). exact N. }
      pose proof (ti_name _ _ _ Co _ _ Cn) as (c & X & _).
      destruct (bi_stream _ _ _ Bk _ _ X) as (st & St & _).
      destruct (bi_link _ _ _ Bk _ _ X) as (l & Li & _).
      destruct (drop_collection_spec s _ _ now_ms i c st l Cn X St Li) as
        (s' & -> & _ & _ & E3 & _). cbn. rewrite E3. apply lookup_delete_None. by right.
Qed.

(** A stream that is there after a run was there all along, if its id was handed out. *)
Lemma run_stream_kept W s log id :
  catalog_ok W s → W + len log <= u64_MAX → id <= s.(last_stream_id) →
  is_Some ((run s log).(streams) !! id) → is_Some (s.(streams) !! id).
Proof.
  intros C B L [x X]. destruct (s.(streams) !! id) as [y|] eqn:N; [by eexists|]. exfalso.
  assert (stream_gone id s) as G by done. clear N L. revert W s C B X G.
  induction log as [|c log IH]; intros W s C B X G; [destruct G; cbn in *; congruence|].
  rewrite len_cons in B. rewrite run_cons in X.
  eapply (IH (W + 1)); [apply apply_catalog; [done|lia]|lia|exact X|].
  eapply apply_stream_gone; [done|lia|done].
Qed.

(** ** What lasts *)

Section last.
Context (now : N) (w : option string) (gone : Prop).
Hypothesis there : ¬ gone.

Lemma done_lasts p o until_ms e :
  now < until_ms → rtc (key_step now gone w) (Some (Done p o until_ms)) e →
  e = Some (Done p o until_ms).
Proof.
  intros T R. remember (Some (Done p o until_ms)) as d eqn:E.
  induction R as [|x y z S R IH]; [done|]. subst x.
  inversion S as [e who u Ew Cl| | |e Li|e G]; subst; try done.
  - cbn in Cl. apply N.ltb_lt in T. by rewrite T in Cl.
  - unfold is_live_at in Li. cbn in Li. bools. lia.
Qed.

Lemma pending_lasts who until_ms e :
  now < until_ms → w ≠ Some who → rtc (key_step now gone w) (Some (Pending who until_ms)) e →
  e = Some (Pending who until_ms).
Proof.
  intros T D R. remember (Some (Pending who until_ms)) as d eqn:E.
  induction R as [|x y z S R IH]; [done|]. subst x.
  inversion S as [e who' u Ew Cl| | |e Li|e G]; subst; try done.
  - cbn in Cl. apply N.ltb_lt in T. rewrite T in Cl. cbn in Cl.
    rewrite bool_decide_eq_false_2 in Cl by congruence. done.
  - unfold is_live_at in Li. cbn in Li. bools. lia.
Qed.
End last.

(** An entry no step can leave while its time lasts, against the commands in [allowed]. *)
Lemma run_entry_lasts W s log slot e (allowed : Command → Prop) :
  (∀ now c gone e', allowed c → now < entry_until_ms e → ¬ gone →
     rtc (key_step now gone (ledger_owner c)) (Some e) e' → e' = Some e) →
  catalog_ok W s → W + len log <= u64_MAX → Forall allowed log →
  is_Some ((run s log).(streams) !! slot.1) → (run s log).(clock_ms) < entry_until_ms e →
  s.(idempotency) !! slot = Some e → (run s log).(idempotency) !! slot = Some e.
Proof.
  intros K. revert W s. induction log as [|c log IH]; intros W s C B A X T E; [done|].
  rewrite len_cons in B. rewrite run_cons in *. apply Forall_cons in A as [A1 A2].
  pose proof (apply_catalog W s c C ltac:(lia)) as C'.
  pose proof (apply_stream_ids W s c C ltac:(lia)) as Ids.
  assert (slot.1 <= (apply s c).1.(last_stream_id)) as L.
  { destruct C as [_ T1 _ _ _ _ _ _ _ _ Lg]. destruct slot as [id key].
    destruct (Lg _ _ _ E) as [st St]. destruct (ti_item _ _ _ T1 _ _ St) as (_ & ? & _).
    cbn. unfold stream_ids_kept in Ids. lia. }
  eapply (IH (W + 1)); try done; [lia|].
  eapply (K _ c _ _ A1); [| |rewrite <- E; apply (apply_ledger_moves W s c C)].
  - pose proof (run_later (apply s c).1 log) as G. unfold later in G. lia.
  - intros N. destruct (run_stream_kept (W + 1) (apply s c).1 log slot.1 C') as [y Y];
      [lia|done|done|congruence].
Qed.

Lemma run_done W s log st key p o until_ms :
  catalog_ok W s → W + len log <= u64_MAX →
  is_Some ((run s log).(streams) !! st) → (run s log).(clock_ms) < until_ms →
  idempotency_entry s st key = Some (Done p o until_ms) →
  idempotency_entry (run s log) st key = Some (Done p o until_ms).
Proof.
  intros C B X T E.
  apply (run_entry_lasts W s log (st, key) (Done p o until_ms) (λ _, True)); try done.
  - intros now c gone e' _ T' G R. by eapply done_lasts.
  - by apply Forall_true.
Qed.

Lemma run_pending W s log st key who until_ms :
  catalog_ok W s → W + len log <= u64_MAX →
  Forall (λ c, ledger_owner c ≠ Some who) log →
  is_Some ((run s log).(streams) !! st) → (run s log).(clock_ms) < until_ms →
  idempotency_entry s st key = Some (Pending who until_ms) →
  idempotency_entry (run s log) st key = Some (Pending who until_ms).
Proof.
  intros C B A X T E.
  apply (run_entry_lasts W s log (st, key) (Pending who until_ms) (λ c, ledger_owner c ≠ Some who));
    try done.
  intros now c gone e' D T' G R. by eapply pending_lasts.
Qed.

(** ** What a claim answers *)

Lemma claim_loop_answers s st who now until_ms keys i key :
  NoDup keys → keys !! i = Some key →
  (claim_loop s st who now until_ms keys).2 !! i
    = Some (claim_state (s.(idempotency) !! (st, key)) who now).
Proof.
  revert s i. induction keys as [|k keys IH]; intros s i ND E; [done|].
  apply NoDup_cons in ND as [Nk ND]. cbn [claim_loop]. cbv zeta.
  match goal with |- context [claim_loop ?s1 st who now until_ms keys] => remember s1 as s' eqn:Es end.
  specialize (IH s'). destruct (claim_loop s' st who now until_ms keys) as [s2 l].
  destruct i as [|i]; [by injection E as ->|]. specialize (IH i ND E).
  etransitivity; [exact IH|]. rewrite Es. f_equal. case_bool_decide; [|done]. cbn.
  rewrite lookup_insert_ne; [done|]. intros [= ->]. apply Nk. exact (list_elem_of_lookup_2 _ i _ E).
Qed.

Lemma refuse_repeats_NoDup keys : refuse_repeats keys = Ok () → NoDup keys.
Proof.
  unfold refuse_repeats.
  assert (∀ seen, refuse_repeats_loop keys seen = Ok () →
            NoDup keys ∧ ∀ k, k ∈ keys → k ∉ seen) as G.
  { induction keys as [|k keys IH]; intros seen; cbn.
    - intros _. split; [constructor|]. by intros k ?%elem_of_nil.
    - case_bool_decide as M; [done|]. intros [ND F]%IH. split.
      + constructor; [|done]. intros I. by apply (F k I), elem_of_union_l, elem_of_singleton.
      + intros k' [->|I]%elem_of_cons; [done|]. specialize (F _ I). set_solver. }
  intros E. by destruct (G _ E).
Qed.

(** A claim answers for each key what the ledger holds at the command's clock. *)
Lemma claim_answers s st who keys ttl now states i key :
  (claim_idempotency_keys s st who keys ttl now).2 = Ok (IdempotencyClaimed states) →
  keys !! i = Some key →
  states !! i
    = Some (claim_state (idempotency_entry s st key) who (N.max s.(clock_ms) now)).
Proof.
  intros R K. revert R. unfold claim_idempotency_keys.
  match goal with |- snd ?o = ?r → ?P => change (ensures (λ _ x, x = r → P) o) end.
  destruct (refuse_repeats keys) as [[]|] eqn:Q; [|by outcome_cases].
  apply refuse_repeats_NoDup in Q. outcome_cases; intros; simplify_eq.
  match goal with E : claim_loop ?s1 ?a ?w ?n ?u ?ks = _ |- _ =>
    pose proof (claim_loop_answers s1 a w n u ks i key Q K) as L; rewrite E in L; exact L end.
Qed.
