(* ===== verification/MetaRetired.v ===== *)
(** * What is retired, and what cannot come into use

    An object is retired when its last index entry goes.  The garbage collector then deletes it
    and forgets it.  [run_gone]: from the moment it is retired no index entry names it again, also
    after it was forgotten, so no reader is sent to a deleted object.  A retired path named an index
    entry before, or is the prefix of a dropped collection.  An object no index entry names stays so
    when every command that would bring it into use comes too late: a commit past its window, a swap
    past its freshness ([run_barred]).  A stream stays in its namespace ([run_homes]). *)

From Stdlib Require Import NArith Lia.
From stdpp Require Import prelude gmap strings numbers list.
From S2P Require Import Prelude.
From S2P Require Import BTree.
From S2P Require Import Ids.
From S2P Require Import Schema.
From S2P Require Import MetaTypes.
From S2P Require Import Paths.
From S2P Require Import MetaState.
From S2P Require Import MetaLeases.
From S2P Require Import MetaLog.
From S2P Require Import MetaCatalog.
From S2P Require Import MetaCollections.
From S2P Require Import MetaApply.
From S2P Require Import CatalogInv.
From S2P Require Import MetaFrames.
From S2P Require Import MetaCatalogInv.
From S2P Require Import MetaAliasInv.
From S2P Require Import PartitionInv.
From S2P Require Import MetaObjects.
From S2P Require Import MetaLogInv.
From S2P Require Import MetaInvariants.
From S2P Require Import MetaSound.
From S2P Require Import MetaEnv.
From S2P Require Import MetaCommit.
From S2P Require Import MetaSteps.
From S2P Require Import LogRefinement.

Open Scope N_scope.

(** An index entry names the object. *)
Definition in_use (o : string) (s : MetaState) : Prop :=
  ∃ k ps b e, s.(partitions) !! k = Some ps ∧ ps.(index) !! b = Some e ∧ e.(object) = o.

Section gc.
Context `{PathLaws}.

Definition gone (o : string) (s : MetaState) : Prop :=
  ¬ in_use o s
  ∧ (wal_path o = true → recorded s.(clock_ms) s.(wal_commits) o)
  ∧ (∀ k b, seg_place o = Some (k, b) → passed s.(last_stream_id) s.(partitions) k b).

Lemma retired_gone W s o : log_ok W s → is_Some (s.(retired) !! o) → gone o s.
Proof.
  intros [P _ _ [_ _ _ _ Re Rc _ Go]] R. split_and!.
  - intros (k & ps & b & e & M & I & E). eapply (Re o k e); [done| |done].
    apply elem_of_all_entries. exists ps. split; [done|]. apply elem_of_entries. by exists b.
  - intros Wo. apply Rc; [done|]. by left.
  - intros k b S. by apply (Go o).
Qed.

(** What a step does to the entries of a partition. *)
Lemma append_all_entries W ps obj cs :
  partition_ok W ps → Forall (λ c, 0 < c.(chunk_records)) cs → W + chunks_weight cs <= u64_MAX →
  ps.(next_offset) <= (append_all ps obj cs).(next_offset)
  ∧ ∀ b e, (append_all ps obj cs).(index) !! b = Some e →
      ps.(index) !! b = Some e ∨ (e.(object) = obj ∧ ps.(next_offset) <= b).
Proof.
  revert W ps. induction cs as [|c cs IH]; intros W ps P R B; [split; [done|by left]|].
  apply Forall_cons in R as [R1 R2]. cbn in B.
  destruct (append_chunk_ok W ps obj c P R1) as (P' & N & _); [lia|].
  destruct (IH _ _ P' R2 ltac:(lia)) as [L I].
  change (append_all ps obj (c :: cs)) with (append_all (append_chunk ps obj c) obj cs).
  split; [lia|]. intros b e [J|[E G]]%I; [|right; split; [done|lia]].
  cbn in J. rewrite lookup_insert_Some in J. destruct J as [[<- <-]|[_ J]]; auto.
Qed.

Lemma swap_entries W ps mm first obj rest recs seg ps' removed :
  W + entry_bytes seg <= u64_MAX → partition_ok W ps →
  check_replaces ps mm ((first, obj) :: rest) first 0 = Ok recs →
  remove_entries ps ((first, obj) :: rest).*1 [] = (ps', removed) →
  seg.(base_offset) = first → seg.(records) = recs →
  (∃ e, ps.(index) !! first = Some e ∧ e.(entry_kind) = Wal)
  ∧ (insert_entry ps' seg).(next_offset) = ps.(next_offset)
  ∧ ∀ b e, (insert_entry ps' seg).(index) !! b = Some e →
      ps.(index) !! b = Some e ∨ (b = first ∧ e = seg).
Proof.
  intros B P C Rm Sb Sr.
  destruct (swap_ok W ps mm first obj rest recs seg _ ps' removed B P C Rm Sb Sr eq_refl)
    as (pre & mid & post & E & Nm & M1 & _ & M3 & _ & _ & E' & Nx' & _).
  split_and!; [|done|].
  - destruct mid as [|[k e] mid]; [done|]. injection M1 as -> _. exists e.
    split; [|eapply M3; left]. apply elem_of_btree_iter. rewrite E. set_solver.
  - intros b e I%elem_of_btree_iter. rewrite E' in I.
    assert ((b, e) ∈ pre ++ mid ++ post ∨ (b, e) = (first, seg)) as [J|[= -> ->]]
      by set_solver; [left|by right].
    apply elem_of_btree_iter. by rewrite E.
Qed.

Lemma trim_entries W ps before ps' removed :
  W <= u64_MAX → partition_ok W ps → before <= ps.(next_offset) →
  pop_entries (S (size ps.(index))) ps before [] = (ps', removed) →
  (trimmed ps ps' before).(next_offset) = ps.(next_offset)
  ∧ ∀ b e, (trimmed ps ps' before).(index) !! b = Some e → ps.(index) !! b = Some e.
Proof.
  intros B P Le Pp.
  destruct (trim_ok W ps before ps' removed B P Le Pp) as (_ & N & popped & rest & E & E' & _).
  split; [done|]. intros b e I%elem_of_btree_iter. cbn in I. rewrite E' in I.
  apply elem_of_btree_iter. rewrite E. set_solver.
Qed.

(** ** One step *)

Lemma filtered_bound W obj created chunks k :
  W + weight (CommitWal obj created chunks) <= u64_MAX →
  W + chunks_weight (filter (λ c, chunk_key c = k) chunks) <= u64_MAX.
Proof. pose proof (chunks_weight_filter k chunks). unfold weight. lia. Qed.

Lemma segment_bound W st p replaces seg range ts fence now fresh first recs :
  W + weight (SwapSegment st p replaces seg range ts fence now fresh) <= u64_MAX →
  W + entry_bytes (segment_entry first recs seg range ts) <= u64_MAX.
Proof. unfold weight, entry_bytes, u64_saturating_sub. cbn. lia. Qed.

(** A recorded object's commit appends nothing. *)
Lemma recorded_refused s o :
  recorded s.(clock_ms) s.(wal_commits) o → s.(wal_commits) !! o = None →
  (u64_saturating_add (wal_ctime o) WAL_COMMIT_WINDOW_MS <? s.(clock_ms)) = true.
Proof.
  intros [[r Hr]|Q] N; [congruence|]. apply N.ltb_lt.
  unfold u64_saturating_add, WAL_COMMIT_WINDOW_MS in *. lia.
Qed.

Section step.
Context (W : N) (s : MetaState) (c : Command).
Hypothesis C : catalog_ok W s.
Hypothesis L : log_ok W s.
Hypothesis B : W + weight c <= u64_MAX.
Hypothesis Pc : paths_ok c.

Lemma step_bound : W < u64_MAX.
Proof. unfold weight in B. lia. Qed.

Lemma step_unused o : gone o s → ¬ in_use o (apply s c).1.
Proof.
  intros (Nu & Rc & Ps) (k & ps' & b & e & M' & I' & E).
  pose proof (apply_part_step W s c k C step_bound) as S. unfold steps_parts in S.
  rewrite M' in S. pose proof (li_parts _ _ _ _ _ _ _ L) as Pk.
  assert (∀ ps, partitions s !! k = Some ps → ps.(index) !! b = Some e → False) as Old.
  { intros ps M I. apply Nu. by exists k, ps, b, e. }
  inversion S as [X|?|ps0|obj created chunks ps0 Ec N Fr Ch X|
    first obj rest seg range ts fence now fresh ps0 recs qs removed Ec _ Cr Rm X|
    before fence now ps0 qs removed Ec Pp X]; subst; try symmetry in X.
  - by eapply Old.
  - discriminate I'.
  - destruct (append_all_entries W ps0 obj (filter (λ c, chunk_key c = k) chunks))
      as [_ Q]; [by eapply Pk|by apply Forall_filter|by eapply filtered_bound|].
    destruct (Q _ _ I') as [I|[<- _]]; [by eapply Old|].
    destruct Pc as [Wo Ct]. rewrite <- Ct in Fr. by rewrite recorded_refused in Fr by auto.
  - destruct (swap_entries W ps0 _ _ _ _ _ _ _ _ (segment_bound _ _ _ _ _ _ _ _ _ _ first recs B)
                (Pk _ _ X) Cr Rm eq_refl eq_refl) as ((f & Hf & Kf) & _ & Q).
    destruct (Q _ _ I') as [I|[-> ->]]; [by eapply Old|]. cbn in Ps.
    cbn in Pc. rewrite <- surjective_pairing in Pc.
    destruct (Ps _ _ Pc) as [_ T]. destruct (T _ X) as [_ T']. specialize (T' _ Hf). congruence.
  - destruct (trim_entries W ps0 (N.min before (next_offset ps0)) _ _ ltac:(lia) (Pk _ _ X)
                ltac:(lia) Pp) as [_ Q].
    by eapply Old; [|apply Q].
Qed.

Lemma step_recorded o :
  wal_path o = true → recorded s.(clock_ms) s.(wal_commits) o →
  recorded (apply s c).1.(clock_ms) (apply s c).1.(wal_commits) o.
Proof.
  intros Wo [[r Hr]|Q].
  - assert (committed o (wal_ctime o) r.(wal_base_offsets) (apply s c).1) as [K|[_ K]].
    { apply apply_committed.
      - intros t chunks ->. by destruct Pc.
      - left. rewrite Hr. destruct r as [bases t]. cbn.
        by rewrite <- (oi_commits _ _ _ _ _ _ (li_objects _ _ _ _ _ _ _ L) _ _ Hr). }
    + left. by eexists.
    + by right.
  - right. pose proof (apply_later s c) as T. unfold later in T. lia.
Qed.

Lemma step_passed k b :
  passed s.(last_stream_id) s.(partitions) k b →
  passed (apply s c).1.(last_stream_id) (apply s c).1.(partitions) k b.
Proof.
  intros [Lk Q]. pose proof (apply_stream_ids W s c C step_bound) as Ids. split.
  { unfold stream_ids_kept in Ids. lia. }
  intros ps' M'. pose proof (apply_part_step W s c k C step_bound) as S. unfold steps_parts in S.
  rewrite M' in S. pose proof (li_parts _ _ _ _ _ _ _ L) as Pk.
  inversion S as [X|?|ps0|obj created chunks ps0 Ec N Fr Ch X|
    first obj rest seg range ts fence now fresh ps0 recs qs removed Ec _ Cr Rm X|
    before fence now ps0 qs removed Ec Pp X]; subst; try symmetry in X.
  - by apply Q.
  - lia.
  - destruct (Q _ X) as [Lt Sg].
    destruct (append_all_entries W ps0 obj (filter (λ c, chunk_key c = k) chunks))
      as [G1 G2]; [by eapply Pk|by apply Forall_filter|by eapply filtered_bound|].
    split; [lia|]. intros e [J|[_ J]]%G2; [by apply Sg|lia].
  - destruct (Q _ X) as [Lt Sg].
    destruct (swap_entries W ps0 _ _ _ _ _ _ _ _ (segment_bound _ _ _ _ _ _ _ _ _ _ first recs B)
                (Pk _ _ X) Cr Rm eq_refl eq_refl) as (_ & Nx & G).
    split; [by rewrite Nx|]. intros e [J|[_ ->]]%G; [by apply Sg|done].
  - destruct (Q _ X) as [Lt Sg].
    destruct (trim_entries W ps0 (N.min before (next_offset ps0)) _ _ ltac:(lia) (Pk _ _ X)
                ltac:(lia) Pp) as [Nx G].
    split; [by rewrite Nx|]. intros e I%G. by apply Sg.
Qed.

Lemma step_gone o : gone o s → gone o (apply s c).1.
Proof.
  intros G. split; [by apply step_unused|]. destruct G as (_ & Rc & Ps). split.
  - intros Wo. apply step_recorded; auto.
  - intros k b S. apply step_passed; auto.
Qed.
End step.

Lemma run_gone W s log o :
  catalog_ok W s → log_ok W s → Forall paths_ok log → W + log_weight log <= u64_MAX →
  gone o s → gone o (run s log).
Proof.
  revert W s. induction log as [|c log IH]; intros W s C L P B G; [done|].
  apply Forall_cons in P as [P1 P2]. cbn in B. rewrite run_cons.
  assert (1 <= weight c) by (unfold weight; lia). apply (IH (W + weight c)).
  - eapply catalog_mono, (apply_catalog W); [lia|done|lia].
  - apply apply_log; [done|done|lia].
  - done.
  - lia.
  - eapply step_gone; [exact C|exact L|lia|done|done].
Qed.
End gc.

(** ** Retired paths *)

(** The prefix of a collection's objects or of its primary key objects. *)
Definition dropped_prefix (o : string) : Prop :=
  ∃ ns id, o = collection_prefix ns id ∨ o = collection_pk_prefix ns id.

(** What is retired in [s'] was retired or in use in [s], or is a collection's prefix. *)
Definition retired_from (s s' : MetaState) : Prop :=
  ∀ o, is_Some (s'.(retired) !! o) →
    is_Some (s.(retired) !! o) ∨ in_use o s ∨ dropped_prefix o.

Lemma insert_is_Some (m : gmap string N) k v o : is_Some (<[k := v]> m !! o) → k = o ∨ is_Some (m !! o).
Proof. intros [x [[? _]|[_ E]]%lookup_insert_Some]; [by left|right; by exists x]. Qed.

Lemma release_retired s removed o :
  is_Some ((release_entries s removed).(retired) !! o) →
  is_Some (s.(retired) !! o) ∨ o ∈ object <$> removed.
Proof.
  revert s. induction removed as [|e removed IH]; intros s R; [by left|].
  change (release_entries s (e :: removed)) with (release_entries (release_entry s e) removed) in R.
  destruct (IH _ R) as [Q|Q]; [|right; by right]. unfold release_entry in Q.
  destruct (entry_kind e); [destruct (wal_live_chunks s !! object e); [destruct (_ =? 0)|]|];
    cbn in Q; try apply insert_is_Some in Q; intuition; right; rewrite fmap_cons; subst; left.
Qed.

Lemma remove_entry_from ps b ps' e :
  remove_entry ps b = (ps', Some e) →
  ps.(index) !! b = Some e ∧ ∀ b' e', ps'.(index) !! b' = Some e' → ps.(index) !! b' = Some e'.
Proof.
  unfold remove_entry. destruct (index ps !! b) as [e0|]; [|done]. intros [= <- <-].
  split; [done|]. cbn. intros b' e'. by rewrite lookup_delete_Some; intros [_ ?].
Qed.

Lemma remove_entries_from ps bases acc ps' removed e :
  remove_entries ps bases acc = (ps', removed) → e ∈ removed →
  e ∈ acc ∨ ∃ b, ps.(index) !! b = Some e.
Proof.
  revert ps acc. induction bases as [|b bases IH]; intros ps acc E I; cbn in E; [injection E as _ <-; by left|].
  destruct (remove_entry ps b) as [ps1 [e1|]] eqn:R.
  - destruct (remove_entry_from _ _ _ _ R) as [I1 Q]. destruct (IH _ _ E I) as [J|[b' J]]; [|right; eauto].
    apply elem_of_app in J as [J|J%list_elem_of_singleton]; [by left|right]. subst. eauto.
  - unfold remove_entry in R. destruct (index ps !! b) eqn:B; [done|]. injection R as <-. by eapply IH.
Qed.

Lemma pop_entries_from fuel ps before acc ps' removed e :
  pop_entries fuel ps before acc = (ps', removed) → e ∈ removed →
  e ∈ acc ∨ ∃ b, ps.(index) !! b = Some e.
Proof.
  revert ps acc. induction fuel as [|fuel IH]; intros ps acc E I; cbn in E; [injection E as _ <-; by left|].
  destruct (pop_first_before ps before) as [ps1 [e1|]] eqn:R; [|injection E as _ <-; by left].
  unfold pop_first_before in R. destruct (btree_first (index ps)) as [[b e0]|]; [|done].
  destruct (_ <=? _); [|done]. destruct (remove_entry_from _ _ _ _ R) as [I1 Q].
  destruct (IH _ _ E I) as [J|[b' J]]; [|right; eauto].
  apply elem_of_app in J as [J|J%list_elem_of_singleton]; [by left|right]. subst. eauto.
Qed.

(** Releasing entries of a partition. *)
Lemma released_from s s1 s2 removed st p ps :
  s.(partitions) !! (st, p) = Some ps → s1.(retired) = s.(retired) →
  (∀ e, e ∈ removed → ∃ b, ps.(index) !! b = Some e) →
  s2.(retired) = (release_entries s1 removed).(retired) → retired_from s s2.
Proof.
  intros M R1 Fr R2 o Q. rewrite R2 in Q. apply release_retired in Q as [Q|Q].
  - left. by rewrite <- R1.
  - right. left. apply list_elem_of_fmap in Q as (e & -> & I). destruct (Fr e I) as [b J].
    by exists (st, p), ps, b, e.
Qed.

Lemma remove_partitions_from s0 s id p n :
  (∀ k ps, s.(partitions) !! k = Some ps → s0.(partitions) !! k = Some ps) →
  retired_from s0 s → retired_from s0 (remove_partitions s id p n).
Proof.
  revert s p. induction n as [|n IH]; intros s p Sub R; [done|]. cbn.
  destruct (partitions s !! (id, p)) as [ps|] eqn:M; [|by apply IH]. apply IH.
  - intros k ps' M'. rewrite release_entries_partitions in M'. cbn in M'.
    apply lookup_delete_Some in M' as [_ M']. by apply Sub.
  - intros o Q. apply release_retired in Q as [Q|Q]; [by apply R|]. right. left.
    apply list_elem_of_fmap in Q as (e & -> & I).
    apply elem_of_entries in I as [b I]. exists (id, p), ps, b, e. eauto.
Qed.

Lemma remove_stream_from s0 s id :
  s.(partitions) = s0.(partitions) → s.(retired) = s0.(retired) → retired_from s0 (remove_stream s id).
Proof.
  intros Ep Er. assert (∀ s1, s1.(retired) = s0.(retired) → retired_from s0 s1) as R.
  { intros s1 E o Q. left. by rewrite <- E. }
  unfold remove_stream. destruct (streams s !! id); [|by apply R].
  apply remove_partitions_from; [|by apply R]. cbn. by rewrite Ep.
Qed.

(** The last steps of a drop. *)
Lemma drop_end_from s0 s link pts ns id t :
  retired_from s0 s →
  retired_from s0 (set_retired (set_pointers (remove_link s link) pts)
    (<[collection_pk_prefix ns id := t]> (<[collection_prefix ns id := t]>
       (set_pointers (remove_link s link) pts).(retired)))).
Proof.
  intros R o Q. cbn in Q. apply insert_is_Some in Q as [<-|Q]; [right; right; eexists _, _; by right|].
  apply insert_is_Some in Q as [<-|Q]; [right; right; eexists _, _; by left|].
  destruct (remove_link_frame s link) as (? & ? & E). rewrite E in Q. by apply R.
Qed.

Lemma drop_retired s ns name now : retired_from s (drop_collection s ns name now).1.
Proof.
  unfold drop_collection. state_cases; try (intros o Q; by left).
  apply drop_end_from, remove_stream_from; cbn;
    match goal with |- context [leave_aliases ?x ?i] =>
      destruct (leave_aliases_frame x i) as (? & ? & E); by rewrite E end.
Qed.

Lemma forget_loop_from ret objects acc : 
  ∀ o, is_Some ((forget_loop ret objects acc).1 !! o) → is_Some (ret !! o).
Proof.
  revert ret acc. induction objects as [|x objects IH]; intros ret acc o Q; cbn in Q; [done|].
  destruct (ret !! x); [|by eapply IH]. apply IH in Q as [v Q]. apply lookup_delete_Some in Q as [_ Q].
  by exists v.
Qed.

Lemma apply_retired s c : retired_from s (apply s c).1.
Proof.
  assert (retired_from s s) as R by (intros o Q; by left).
  destruct c; cbn [apply];
    lazymatch goal with
    | |- context [swap_segment] => idtac
    | |- context [trim_partition] => idtac
    | |- context [drop_collection] => idtac
    | |- context [forget_objects] => idtac
    | |- _ => kept R
    end.
  - unfold swap_segment. destruct (partition_state s stream partition) as [ps|] eqn:Ps; [|by state_cases].
    apply partition_state_Ok in Ps.
    rewrite (partition_state_mut_Ok (set_clock_ms s _) stream partition ps Ps).
    state_cases; try exact R. eapply released_from; [exact Ps| | |reflexivity]; [done|].
    match goal with E : remove_entries _ _ _ = _ |- _ => 
      intros e I; destruct (remove_entries_from _ _ _ _ _ _ E I) as [?%elem_of_nil|?]; done end.
  - unfold trim_partition. destruct (partition_state s stream partition) as [ps|] eqn:Ps; [|by state_cases].
    apply partition_state_Ok in Ps.
    rewrite (partition_state_mut_Ok (set_clock_ms s _) stream partition ps Ps).
    state_cases; try exact R. eapply released_from; [exact Ps| | |reflexivity]; [done|].
    match goal with E : pop_entries _ _ _ _ = _ |- _ => 
      intros e I; destruct (pop_entries_from _ _ _ _ _ _ _ E I) as [?%elem_of_nil|?]; done end.
  - unfold forget_objects. state_cases; try exact R.
    match goal with E : forget_loop ?a ?b ?c = (?k, ?n) |- _ =>
      intros o Q; left; apply (forget_loop_from a b c); by rewrite E end.
  - apply drop_retired.
Qed.

(** ** Objects that come too late *)

(** The command cannot bring [o] into use once the clock is at [clock]. *)
Definition barred (clock : N) (o : string) (c : Command) : Prop :=
  match c with
  | CommitWal obj created _ => obj = o → u64_saturating_add created WAL_COMMIT_WINDOW_MS < clock
  | SwapSegment _ _ _ segment _ _ _ _ fresh => segment = o → expired_at fresh clock = true
  | _ => True
  end.

Lemma barred_later clock clock' o c : clock <= clock' → barred clock o c → barred clock' o c.
Proof.
  intros L. destruct c; cbn; try done.
  - intros Q E. specialize (Q E). lia.
  - intros Q E. specialize (Q E). unfold expired_at in *. apply N.ltb_lt. bools. lia.
Qed.

Section barred.
Context `{PathLaws}.

Lemma step_barred W s c o :
  catalog_ok W s → log_ok W s → W + weight c <= u64_MAX → barred s.(clock_ms) o c →
  ¬ in_use o s → ¬ in_use o (apply s c).1.
Proof.
  intros C L B Bc Nu (k & ps' & b & e & M' & I' & E).
  assert (W < u64_MAX) as B' by (unfold weight in B; lia).
  pose proof (apply_part_step W s c k C B') as S. unfold steps_parts in S.
  rewrite M' in S. pose proof (li_parts _ _ _ _ _ _ _ L) as Pk.
  assert (∀ ps, partitions s !! k = Some ps → ps.(index) !! b = Some e → False) as Old.
  { intros ps M I. apply Nu. by exists k, ps, b, e. }
  inversion S as [X|?|ps0|obj created chunks ps0 Ec N Fr Ch X|
    first obj rest seg range ts fence now fresh ps0 recs qs removed Ec Fr Cr Rm X|
    before fence now ps0 qs removed Ec Pp X]; subst; try symmetry in X.
  - by eapply Old.
  - discriminate I'.
  - destruct (append_all_entries W ps0 obj (filter (λ c, chunk_key c = k) chunks))
      as [_ Q]; [by eapply Pk|by apply Forall_filter|by eapply filtered_bound|].
    destruct (Q _ _ I') as [I|[<- _]]; [by eapply Old|].
    specialize (Bc eq_refl). bools. lia.
  - destruct (swap_entries W ps0 _ _ _ _ _ _ _ _ (segment_bound _ _ _ _ _ _ _ _ _ _ first recs B)
                (Pk _ _ X) Cr Rm eq_refl eq_refl) as (_ & _ & Q).
    destruct (Q _ _ I') as [I|[-> ->]]; [by eapply Old|]. specialize (Bc eq_refl).
    unfold expired_at in *. bools. lia.
  - destruct (trim_entries W ps0 (N.min before (next_offset ps0)) _ _ ltac:(lia) (Pk _ _ X)
                ltac:(lia) Pp) as [_ Q].
    by eapply Old; [|apply Q].
Qed.

(** An object nothing names stays so when every command to come is barred from using it. *)
Lemma run_barred W s log o :
  catalog_ok W s → log_ok W s → Forall paths_ok log → W + log_weight log <= u64_MAX →
  Forall (barred s.(clock_ms) o) log → ¬ in_use o s → ¬ in_use o (run s log).
Proof.
  revert W s. induction log as [|c log IH]; intros W s C L P B F G; [done|].
  apply Forall_cons in P as [P1 P2]. apply Forall_cons in F as [F1 F2]. cbn in B. rewrite run_cons.
  assert (1 <= weight c) by (unfold weight; lia). apply (IH (W + weight c)).
  - eapply catalog_mono, (apply_catalog W); [lia|done|lia].
  - apply apply_log; [done|done|lia].
  - done.
  - lia.
  - eapply Forall_impl; [exact F2|]. intros c'. apply barred_later. apply apply_later.
  - eapply step_barred; [exact C|exact L|lia|done|done].
Qed.
End barred.

(** ** Streams stay in their namespaces *)

Lemma run_homes s log W :
  catalog_ok W s → naming_ok s → W + log_weight log <= u64_MAX →
  stream_ids_kept s (run s log) ∧ homes_kept s (run s log).
Proof.
  revert s W. induction log as [|c log IH]; intros s W C K B.
  - split; [unfold stream_ids_kept; cbn; lia|]. intros i st' E. right. by exists st'.
  - cbn in B. rewrite run_cons. assert (1 <= weight c) by (unfold weight; lia).
    pose proof (apply_stream_ids W s c C ltac:(lia)) as I1.
    pose proof (apply_homes W s c C ltac:(lia)) as H1.
    destruct (IH (apply s c).1 (W + weight c)) as [I2 H2].
    + eapply catalog_mono, (apply_catalog W); [lia|done|lia].
    + eapply apply_naming; [done|lia|done].
    + lia.
    + unfold stream_ids_kept in *. split; [lia|]. intros i st2 E.
      destruct (H2 i st2 E) as [?|(st1 & E1 & N1)]; [left; lia|].
      destruct (H1 i st1 E1) as [?|(st0 & E0 & N0)]; [by left|]. right. exists st0. split; [done|congruence].
Qed.

(** ** Runs of well named commands *)

Section runs.
Context (l1 l2 : list Command).
Hypothesis wn : well_named (l1 ++ l2).
Hypothesis B : log_weight (l1 ++ l2) <= u64_MAX.

(** The invariants after [l1], for the names of the whole run. *)
Lemma prefix_ok :
  @PathLaws (log_paths (l1 ++ l2))
  ∧ catalog_ok (log_weight l1) (run MetaState_default l1)
  ∧ @log_ok (log_paths (l1 ++ l2)) (log_weight l1) (run MetaState_default l1)
  ∧ Forall (@paths_ok (log_paths (l1 ++ l2))) l2.
Proof.
  pose proof (log_path_laws _ wn) as PL. split; [done|].
  pose proof (proj2 (Forall_forall (@paths_ok (log_paths (l1 ++ l2))) _) (log_paths_ok _ wn)) as P.
  apply Forall_app in P as [P1 P2]. pose proof B as B'. rewrite log_weight_app in B'.
  destruct (run_catalog 0 MetaState_default l1 catalog_default naming_default) as [C _]; [lia|].
  split; [done|]. split; [|done].
  exact (@run_log _ PL 0 MetaState_default l1 log_ok_default P1 ltac:(lia)).
Qed.

(** A retired object is out of use for good. *)
Lemma retired_unused o :
  is_retired (run MetaState_default l1) o = true → ¬ in_use o (run MetaState_default (l1 ++ l2)).
Proof.
  intros R. destruct prefix_ok as (PL & C & L & P2). rewrite run_app.
  pose proof B as B'. rewrite log_weight_app in B'.
  apply (@run_gone _ PL _ _ l2 o C L P2); [lia|].
  eapply (@retired_gone _); [exact L|]. by apply contains_key_true.
Qed.

Lemma barred_unused o :
  Forall (barred (run MetaState_default l1).(clock_ms) o) l2 →
  ¬ in_use o (run MetaState_default l1) → ¬ in_use o (run MetaState_default (l1 ++ l2)).
Proof.
  intros F N. destruct prefix_ok as (PL & C & L & P2). rewrite run_app.
  pose proof B as B'. rewrite log_weight_app in B'.
  by apply (@run_barred _ PL _ _ l2 o C L P2 ltac:(lia)).
Qed.

(** A WAL path without live chunks is out of use. *)
Lemma not_live_unused o :
  ends_with ".wal" o = true → wal_live_chunks_of (run MetaState_default l1) o = None →
  ¬ in_use o (run MetaState_default l1).
Proof.
  intros Eo N (k & ps & b & e & M & I & <-). destruct prefix_ok as (PL & _ & L & _).
  pose proof (li_objects _ _ _ _ _ _ _ L) as O.
  assert ((k, e) ∈ all_entries (run MetaState_default l1).(partitions)) as A.
  { apply elem_of_all_entries. exists ps. split; [done|]. apply elem_of_entries. by exists b. }
  destruct (entry_kind e) eqn:Kd.
  - pose proof (oi_live _ _ _ _ _ _ O (object e)) as Lv. unfold wal_live_chunks_of in N. rewrite N in Lv.
    destruct (_ =? 0) eqn:Z; [|done]. bools. unfold wal_count, len in Z.
    assert ((k, e) ∈ filter (wal_of (object e)) (all_entries (partitions (run MetaState_default l1)))) as F
      by (apply list_elem_of_filter; done).
    destruct (filter _ _); [by apply elem_of_nil in F|done].
  - pose proof (oi_seg _ _ _ _ _ _ O k e A Kd) as S. apply (told_segment _ wn) in S as [_ S]. congruence.
Qed.
End runs.
