(* ===== verification/MetaReads.v ===== *)
(** * What a commit acknowledges can be read

    The base offsets a WAL commit answers name, chunk by chunk, offsets no earlier record has,
    and a lookup of any of them finds the chunk. *)

From Stdlib Require Import NArith Lia.
From stdpp Require Import prelude gmap strings numbers list.
From S2P Require Import Prelude.
From S2P Require Import BTree.
From S2P Require Import Ids.
From S2P Require Import Schema.
From S2P Require Import MetaTypes.
From S2P Require Import MetaState.
From S2P Require Import MetaLeases.
From S2P Require Import MetaLog.
From S2P Require Import MetaCatalog.
From S2P Require Import MetaCollections.
From S2P Require Import MetaApply.
From S2P Require Import CatalogInv.
From S2P Require Import MetaFrames.
From S2P Require Import MetaCatalogInv.
From S2P Require Import MetaAliasInv.
From S2P Require Import PartitionInv.
From S2P Require Import MetaObjects.
From S2P Require Import MetaLogInv.
From S2P Require Import MetaInvariants.
From S2P Require Import MetaSound.
From S2P Require Import MetaEnv.
From S2P Require Import MetaSteps.
From S2P Require Import MetaCommit.
From S2P Require Import LogRefinement.
From S2P Require Import MetaRetired.

Open Scope N_scope.

Lemma append_chunks_bases s obj chunks acc s' bases i c :
  append_chunks s obj chunks acc = (s', Ok bases) → chunks !! i = Some c →
  ∃ ps, s.(partitions) !! chunk_key c = Some ps
    ∧ bases !! (length acc + i)%nat
      = Some (append_all ps obj (filter (λ d, chunk_key d = chunk_key c) (take i chunks))).(next_offset).
Proof.
  revert s acc i. induction chunks as [|d chunks IH]; intros s acc i; [done|].
  cbn [append_chunks]. destruct (partitions s !! (chunk_stream d, chunk_partition d)) as [qs|] eqn:M;
    [|done]. cbv zeta. intros E I. destruct i as [|i].
  - injection I as ->. exists qs. split; [done|]. rewrite Nat.add_0_r. cbn.
    assert (∀ s l acc s' b, append_chunks s obj l acc = (s', Ok b) → acc `prefix_of` b) as Pf.
    { clear. intros s l. revert s. induction l as [|c l IH]; intros s acc s' b; cbn.
      - by intros [= _ ->].
      - case_match; [|done]. intros P%IH. etransitivity; [|exact P]. by apply prefix_app_r. }
    apply Pf in E as [rest ->]. rewrite <- app_assoc. by apply list_lookup_middle.
  - destruct (IH _ _ i E I) as (ps & P & B). rewrite length_app in B. cbn in B.
    replace (length acc + S i)%nat with (length acc + 1 + i)%nat by lia.
    change (take (S i) (d :: chunks)) with (d :: take i chunks). rewrite filter_cons.
    cbn [set_partition set_partitions partitions] in P.
    destruct (decide (chunk_key d = chunk_key c)) as [Q|D].
    + rewrite <- Q in P. unfold chunk_key at 1 in P. rewrite lookup_insert_eq in P.
      injection P as <-. exists qs. rewrite <- Q. split; [exact M|]. by rewrite B, Q.
    + rewrite lookup_insert_ne in P by done. by exists ps.
Qed.

(** Appending keeps entries. *)
Lemma append_all_keeps W ps obj cs b e :
  partition_ok W ps → Forall (λ c, 0 < c.(chunk_records)) cs → W + chunks_weight cs <= u64_MAX →
  ps.(index) !! b = Some e → (append_all ps obj cs).(index) !! b = Some e.
Proof.
  revert W ps. induction cs as [|c cs IH]; intros W ps P R B I; [done|].
  apply Forall_cons in R as [R1 R2]. cbn in B.
  destruct (append_chunk_ok W ps obj c P R1) as (P' & _); [lia|].
  apply (IH _ _ P' R2); [lia|]. cbn. rewrite lookup_insert_ne; [done|].
  apply (index_below W) in I; [lia|done].
Qed.

Lemma append_all_ok W ps obj cs :
  partition_ok W ps → Forall (λ c, 0 < c.(chunk_records)) cs → W + chunks_weight cs <= u64_MAX →
  partition_ok (W + chunks_weight cs) (append_all ps obj cs)
  ∧ (append_all ps obj cs).(log_start_offset) = ps.(log_start_offset).
Proof.
  revert W ps. induction cs as [|c cs IH]; intros W ps P R B; cbn [chunks_weight] in *.
  - by rewrite N.add_0_r.
  - apply Forall_cons in R as [R1 R2].
    destruct (append_chunk_ok W ps obj c P R1) as (P' & _ & S); [lia|].
    rewrite N.add_assoc. change (append_all ps obj (c :: cs)) with
      (append_all (append_chunk ps obj c) obj cs). rewrite <- S. apply IH; [done|done|lia].
Qed.

Lemma chunks_weight_app l r : chunks_weight (l ++ r) = chunks_weight l + chunks_weight r.
Proof. induction l as [|c l IH]; cbn; [done|]. rewrite IH. lia. Qed.

(** The entry of the [i]th chunk, in the partition after the whole commit. *)
Lemma append_all_entry W ps obj l c r :
  partition_ok W ps → Forall (λ c, 0 < c.(chunk_records)) (l ++ c :: r) →
  W + chunks_weight (l ++ c :: r) <= u64_MAX →
  let b := (append_all ps obj l).(next_offset) in
  ps.(next_offset) <= b
  ∧ (append_all ps obj (l ++ c :: r)).(index) !! b = Some (wal_entry b obj c)
  ∧ b + c.(chunk_records) <= (append_all ps obj (l ++ c :: r)).(next_offset).
Proof.
  intros P R B b. rewrite chunks_weight_app in B. cbn in B.
  apply Forall_app in R as [R1 R2]. apply Forall_cons in R2 as [R2 R3].
  destruct (append_all_ok W ps obj l P R1) as [P1 _]; [lia|].
  destruct (append_all_entries W ps obj l P R1) as [L _]; [lia|].
  destruct (append_chunk_ok _ (append_all ps obj l) obj c P1 R2) as (P2 & N2 & _); [lia|].
  assert (append_all ps obj (l ++ c :: r)
          = append_all (append_chunk (append_all ps obj l) obj c) obj r) as ->.
  { unfold append_all. by rewrite foldl_app. }
  split_and!; [done| |].
  - eapply append_all_keeps; [exact P2|done|lia|]. cbn. by rewrite lookup_insert_eq.
  - destruct (append_all_entries _ (append_chunk (append_all ps obj l) obj c) obj r P2 R3)
      as [G _]; [lia|]. unfold b. lia.
Qed.

(** The [i]th chunk [c] of [obj], acknowledged at [bases], is readable in [s'] at offsets that
    no record of [s] has. *)
Definition acked (s : MetaState) (obj : string) (bases : list N) (i : nat) (c : WalChunk)
    (s' : MetaState) : Prop :=
  ∃ ps ps' b,
    partition_of s c.(chunk_stream) c.(chunk_partition) = Some ps
    ∧ partition_of s' c.(chunk_stream) c.(chunk_partition) = Some ps'
    ∧ bases !! i = Some b ∧ ps.(next_offset) <= b
    ∧ (∀ o, b <= o < b + c.(chunk_records) → lookup_offset ps' o = Some (wal_entry b obj c)).

(** What a first commit does, chunk by chunk. *)
Lemma commit_readable W s obj created chunks bases i c :
  parts_ok W s.(partitions) → W + chunks_weight chunks <= u64_MAX →
  s.(wal_commits) !! obj = None →
  (commit_wal s obj created chunks).2 = Ok (WalCommitted bases) →
  chunks !! i = Some c →
  acked s obj bases i c (commit_wal s obj created chunks).1.
Proof.
  intros P B N R I. revert R. unfold commit_wal. rewrite N.
  match goal with |- snd ?o = ?r → acked _ _ _ _ _ (fst _) =>
    change (ensures (λ s' x, x = r → acked s obj bases i c s') o) end.
  destruct (validate_chunks s chunks) as [[]|] eqn:V; [|by outcome_cases].
  destruct (append_chunks s obj chunks []) as [s' [bs|]] eqn:A; [|by outcome_cases].
  outcome_cases; intros; simplify_eq.
  destruct (append_chunks_bases _ _ _ _ _ _ i c A I) as (ps & M & Bi). cbn in Bi.
  assert (Forall (λ c, 0 < c.(chunk_records)) chunks) as Rc.
  { apply validate_chunks_Ok in V. eapply Forall_impl; [exact V|].
    by intros d (_ & _ & ? & _)%validate_chunk_Ok. }
  set (k := chunk_key c) in *.
  pose proof (append_chunks_lookup _ _ _ _ _ _ k A) as M'. rewrite M in M'. cbn in M'.
  assert (filter (λ d, chunk_key d = k) chunks
    = filter (λ d, chunk_key d = k) (take i chunks)
      ++ c :: filter (λ d, chunk_key d = k) (drop (S i) chunks)) as Sp.
  { rewrite <- (take_drop_middle _ _ _ I) at 1. by rewrite filter_app, filter_cons_True. }
  assert (Forall (λ c, 0 < c.(chunk_records)) (filter (λ d, chunk_key d = k) chunks)) as Rf
    by (by apply Forall_filter).
  pose proof (chunks_weight_filter k chunks) as Wf.
  assert (W + chunks_weight (filter (λ d, chunk_key d = k) chunks) <= u64_MAX) as Bf by lia.
  destruct (append_all_ok W ps obj _ (P _ _ M) Rf Bf) as [Po Ls].
  pose proof Rf as Rf'. pose proof Bf as Bf'. rewrite Sp in Rf', Bf'.
  destruct (append_all_entry W ps obj _ c _ (P _ _ M) Rf' Bf') as (L & J & U).
  rewrite <- Sp in J, U. eexists ps, _, _. split_and!; [exact M|exact M'|exact Bi|exact L|].
  intros o Ho. apply (lookup_offset_spec _ _ Bf Po). cbn [wal_entry base_offset records].
  split_and!; try lia; [|exact J]. rewrite Ls.
  destruct (P _ _ M) as [[z T] So _ _ _]. pose proof (start_le_next _ _ _ T So). lia.
Qed.

(** ** Partitions only grow *)

Lemma append_only {Rec} (content : string → Range → list Rec) l1 l2 k ps ps' :
  well_named (l1 ++ l2) → log_weight (l1 ++ l2) <= u64_MAX →
  faithful_run content MetaState_default (l1 ++ l2) →
  (run MetaState_default l1).(partitions) !! k = Some ps →
  (run MetaState_default (l1 ++ l2)).(partitions) !! k = Some ps' →
  ps.(log_start_offset) <= ps'.(log_start_offset)
  ∧ ps.(next_offset) <= ps'.(next_offset)
  ∧ ∀ o, ps'.(log_start_offset) <= o < ps.(next_offset) →
      record_at content ps' o = record_at content ps o ∧ is_Some (record_at content ps o).
Proof.
  intros wn B F M M'. pose proof (run_meta_ok _ wn B) as [P' _ _].
  assert (log_weight l1 <= u64_MAX) as B1.
  { eapply N.le_trans, B. clear. induction l1; cbn; lia. }
  pose proof (run_meta_ok _ (well_named_app _ _ wn) B1) as [P _ _].
  destruct (run_represents content l1 l2 k wn B F) as (x & y & X & Y & S).
  unfold represents in X, Y. rewrite M in X. rewrite M' in Y.
  destruct x as [|l|], y as [|l'|]; try done.
  destruct (log_steps_grow _ _ S l eq_refl) as [?|(l'' & E & [rest Rs] & St)]; [done|].
  injection E as <-. pose proof X as [N1 S1 _]. pose proof Y as [N2 S2 _].
  rewrite N1, N2, S1, S2, Rs, len_app. split_and!; [done|lia|]. intros o Ho.
  rewrite (refines_read content _ _ _ o (N.le_refl _) (P' _ _ M') Y).
  rewrite (refines_read content _ _ _ o (N.le_refl _) (P _ _ M) X).
  rewrite Rs, len_app, !decide_True by lia. unfold len in Ho. split.
  - apply lookup_app_l. lia.
  - apply lookup_lt_is_Some. lia.
Qed.
