(* ===== verification/MetaProperties.v ===== *)
(** * The metastore: its theorems

    The guarantees of the state machine of loams-meta, over every state that a log of commands
    reaches.  Each is a short consequence of the lemmas of the component files. *)

From Stdlib Require Import NArith Lia.
From stdpp Require Import prelude gmap strings numbers list.
From S2P Require Import Prelude.
From S2P Require Import BTree.
From S2P Require Import Ids.
From S2P Require Import Schema.
From S2P Require Import MetaTypes.
From S2P Require Import MetaState.
From S2P Require Import MetaLeases.
From S2P Require Import MetaLog.
From S2P Require Import MetaCatalog.
From S2P Require Import MetaCollections.
From S2P Require Import MetaApply.
From S2P Require Import CatalogInv.
From S2P Require Import MetaFrames.
From S2P Require Import MetaCatalogInv.
From S2P Require Import MetaAliasInv.
From S2P Require Import PartitionInv.
From S2P Require Import MetaObjects.
From S2P Require Import MetaLogInv.
From S2P Require Import MetaInvariants.
From S2P Require Import MetaSound.
From S2P Require Import MetaEnv.
From S2P Require Import MetaSteps.
From S2P Require Import MetaCommit.
From S2P Require Import LogRefinement.
From S2P Require Import MetaRetired.
From S2P Require Import Paths.
From S2P Require Import MetaReads.
From S2P Require Import MetaLeaseInv.
From S2P Require Import MetaPointerInv.
From S2P Require Import MetaLedger.

Open Scope N_scope.

(** ** A concrete run

    One namespace, one stream with one partition, a commit of two records and its rewrite into
    a segment. *)

Definition demo_object : string := wal_object Standard 7 "01J".
Definition demo_segment : string := segment 1 1 0 0 "01K".

Definition demo_chunk : WalChunk := {|
  chunk_stream := 1;
  chunk_partition := 0;
  chunk_records := 2;
  chunk_byte_range := {| range_start := 0; range_end := 10 |};
  chunk_max_timestamp_ms := 5;
|}.

Definition demo_commit : Command := CommitWal demo_object 0 [demo_chunk].

Definition demo_swap : Command :=
  SwapSegment 1 0 [(0, demo_object)] demo_segment {| range_start := 0; range_end := 8 |} 5 None 3
    {| created_at_ms := 0; fresh_max_age_ms := 1000 |}.

Definition demo_catalog : list Command :=
  [CreateNamespace "n"; CreateStream 1 "s" 1 Standard Retention_default].

Definition demo : list Command := demo_catalog ++ [demo_commit; demo_swap].

Ltac in_demo H :=
  repeat (apply elem_of_cons in H as [->|H]); [.. |by apply elem_of_nil in H].

Lemma demo_well_named l :
  (∀ c, c ∈ l → commit_of c = None ∧ swap_of c = None) → well_named (demo ++ l).
Proof.
  intros F.
  assert (∀ c obj t, c ∈ demo ++ l → commit_of c = Some (obj, t) → obj = demo_object ∧ t = 0) as G.
  { intros c obj t [I|I]%elem_of_app E; [|by destruct (F _ I); congruence].
    in_demo I; cbn in E; try discriminate E. injection E as <- <-. done. }
  split.
  - intros c obj t I E. destruct (G _ _ _ I E) as [-> _]. by exists Standard, 7, "01J".
  - intros c c' obj t t' I I' E E'. destruct (G _ _ _ I E) as [_ ->]. by destruct (G _ _ _ I' E').
  - intros c seg st p b [I|I]%elem_of_app E; [|by destruct (F _ I); congruence].
    in_demo I; cbn in E; try discriminate E. injection E as <- <- <- <-.
    split_and!; [done|done|done|]. by exists 1, "01K".
Qed.

Lemma demo_named : well_named demo.
Proof. rewrite <- (app_nil_r demo). apply demo_well_named. by intros c ?%elem_of_nil. Qed.

(** ** The state is consistent *)

(** C2 The consistency check of the metastore finds nothing in any state that a log of commands
    reaches: partitions tile their offsets, byte counts and live counts agree with the index,
    names, aliases, links, streams and collections refer to each other, and retired objects are
    in no index.  The log names its objects as the log plane does, and the counters do not
    overflow. *)
Theorem reachable_states_check log :
  well_named log → log_weight log <= u64_MAX →
  check_invariants (run MetaState_default log) = [].
Proof. apply run_check. Qed.

Lemma reachable_states_check_witness :
  well_named demo ∧ check_invariants (run MetaState_default demo) = [].
Proof.
  split; [apply demo_named|].
  apply (reachable_states_check demo); [apply demo_named|by vm_compute].
Defined.




(** C28 A command that is refused changes nothing: every handler checks all it refuses before its
    first write. *)
Theorem refused_command_changes_nothing s c e : (apply s c).2 = Err e → (apply s c).1 = s.
Proof. apply apply_atomic. Qed.

Lemma refused_command_changes_nothing_witness :
  (apply MetaState_default demo_commit).1 = MetaState_default.
Proof.
  apply (refused_command_changes_nothing MetaState_default demo_commit (StreamNotFound 1)).
  by vm_compute.
Defined.

(** The metastore's clock never runs back, whatever times the commands carry. *)
Theorem clock_never_runs_back s log : s.(clock_ms) <= (run s log).(clock_ms).
Proof. apply run_later. Qed.

(** ** The log plane *)

(** C3 A partition is an append-only log: the records readable at a later state extend those
    readable before, offset by offset, and the log start only moves forward.  [content] is what
    a byte range of an object decodes to; the writers commit chunks with the record count they
    hold and segments with the records of the entries they replace. *)
Theorem partition_is_append_only {Rec} (content : string → Range → list Rec) l1 l2 k ps ps' :
  well_named (l1 ++ l2) → log_weight (l1 ++ l2) <= u64_MAX →
  faithful_run content MetaState_default (l1 ++ l2) →
  (run MetaState_default l1).(partitions) !! k = Some ps →
  (run MetaState_default (l1 ++ l2)).(partitions) !! k = Some ps' →
  ps.(log_start_offset) <= ps'.(log_start_offset)
  ∧ ps.(next_offset) <= ps'.(next_offset)
  ∧ ∀ o, ps'.(log_start_offset) <= o < ps.(next_offset) →
      record_at content ps' o = record_at content ps o ∧ is_Some (record_at content ps o).
Proof. apply append_only. Qed.

(** Objects that all hold the same two records. *)
Definition demo_content (obj : string) (r : Range) : list N := [100; 101].

Lemma partition_is_append_only_witness :
  ∃ ps ps', (run MetaState_default (demo_catalog ++ [demo_commit])).(partitions) !! (1, 0) = Some ps
    ∧ (run MetaState_default ((demo_catalog ++ [demo_commit]) ++ [demo_swap])).(partitions) !! (1, 0)
      = Some ps'
    ∧ record_at demo_content ps' 1 = record_at demo_content ps 1.
Proof.
  eexists _, _. split; [by vm_compute|]. split; [by vm_compute|].
  eapply (partition_is_append_only demo_content (demo_catalog ++ [demo_commit]) [demo_swap] (1, 0));
    [apply demo_named|by vm_compute| |by vm_compute|by vm_compute|by vm_compute].
  cbn [faithful_run demo_catalog app]. split_and!; try done.
  - by repeat constructor.
  - intros ps recs E _. vm_compute in E. injection E as <-. by vm_compute.
Defined.



(** C13 A WAL commit is applied once: after a first commit of an object was accepted, every later
    commit of it changes nothing, and if it is answered at all it is answered with the offsets
    of the first, also after the commit record was pruned. *)
Theorem wal_commit_applied_once l1 l2 obj t chunks chunks' bases bases' :
  (∀ t' ch, CommitWal obj t' ch ∈ l1 ++ l2 → t' = t) →
  let s1 := run MetaState_default l1 in
  let s2 := run (apply s1 (CommitWal obj t chunks)).1 l2 in
  (apply s1 (CommitWal obj t chunks)).2 = Ok (WalCommitted bases) →
  (apply s2 (CommitWal obj t chunks')).1 = s2
  ∧ ((apply s2 (CommitWal obj t chunks')).2 = Ok (WalCommitted bases') → bases' = bases).
Proof. apply commit_once. Qed.

Lemma wal_commit_applied_once_witness :
  let s2 := run (apply (run MetaState_default demo_catalog) demo_commit).1 [demo_swap] in
  (apply s2 demo_commit).1 = s2.
Proof.
  apply (wal_commit_applied_once demo_catalog [demo_swap] demo_object 0 [demo_chunk] [demo_chunk]
           [0] [0]).
  - intros t' ch I. repeat (apply elem_of_cons in I as [E|I]; [discriminate E|]).
    by apply elem_of_nil in I.
  - by vm_compute.
Defined.

(** C14 What a commit acknowledges can be read: each chunk of an accepted first commit is answered
    with a base offset at or above every offset the partition had handed out, and a lookup of
    any of the chunk's offsets finds the chunk. *)
Theorem acknowledged_commit_is_readable W s obj created chunks bases i c :
  parts_ok W s.(partitions) → W + chunks_weight chunks <= u64_MAX →
  s.(wal_commits) !! obj = None →
  (commit_wal s obj created chunks).2 = Ok (WalCommitted bases) →
  chunks !! i = Some c →
  acked s obj bases i c (commit_wal s obj created chunks).1.
Proof. apply commit_readable. Qed.

Lemma acknowledged_commit_is_readable_witness :
  acked (run MetaState_default demo_catalog) demo_object [0] 0 demo_chunk
    (commit_wal (run MetaState_default demo_catalog) demo_object 0 [demo_chunk]).1.
Proof.
  apply (acknowledged_commit_is_readable 2); [|by vm_compute|by vm_compute|by vm_compute|done].
  intros k ps E. apply elem_of_map_to_list in E. vm_compute in E.
  apply list_elem_of_singleton in E. injection E as -> ->. apply partition_default_ok.
Defined.

(** In a well-formed partition, an offset lookup finds an entry exactly for the offsets from
    the log start up to the next offset, and it is the entry that holds the offset. *)
Theorem lookup_finds_the_entry W ps offset e :
  W <= u64_MAX → partition_ok W ps →
  (lookup_offset ps offset = Some e ↔
     ps.(log_start_offset) <= offset < ps.(next_offset)
     ∧ ps.(index) !! e.(base_offset) = Some e
     ∧ e.(base_offset) <= offset < e.(base_offset) + e.(records))
  ∧ (ps.(log_start_offset) <= offset < ps.(next_offset) → is_Some (lookup_offset ps offset)).
Proof.
  intros B P. split; [by apply (lookup_offset_spec W)|by apply (lookup_offset_total W)].
Qed.

Lemma lookup_finds_the_entry_witness :
  lookup_offset (append_chunk PartitionState_default demo_object demo_chunk) 1
  = Some (wal_entry 0 demo_object demo_chunk).
Proof.
  apply (lookup_finds_the_entry 12); [done| |by vm_compute].
  by apply (append_chunk_ok 0 PartitionState_default demo_object demo_chunk (partition_default_ok 0)).
Defined.

(** C8 Garbage collection is safe: once an object is retired, no index entry names it again,
    also after the collector deleted it and it was forgotten. *)
Theorem retired_object_stays_unused l1 l2 o :
  well_named (l1 ++ l2) → log_weight (l1 ++ l2) <= u64_MAX →
  is_retired (run MetaState_default l1) o = true →
  ¬ in_use o (run MetaState_default (l1 ++ l2)).
Proof. intros wn B R. by apply retired_unused. Qed.

Lemma retired_object_stays_unused_witness :
  ¬ in_use demo_object (run MetaState_default (demo ++ [ForgetObjects [demo_object] None])).
Proof.
  apply (retired_object_stays_unused demo [ForgetObjects [demo_object] None] demo_object);
    [|by vm_compute|by vm_compute].
  apply demo_well_named. intros c I. by in_demo I.
Defined.




(** ** Leases and pointers *)

(** C22 An epoch of a lease belongs to one owner: two grants of one lease with the same epoch,
    however far apart, were given to the same owner. *)
Theorem lease_epoch_has_one_owner W s c1 c2 log key who1 who2 g1 g2 :
  epochs_le W s → W + len log + 2 <= u64_MAX →
  lease_request c1 = Some (key, who1) → lease_request c2 = Some (key, who2) →
  let s1 := (apply s c1).1 in
  let s2 := run s1 log in
  (apply s c1).2 = Ok (LeaseReply g1) → (apply s2 c2).2 = Ok (LeaseReply g2) →
  g1.(grant_epoch) = g2.(grant_epoch) → who1 = who2.
Proof. apply grant_unique. Qed.

Definition demo_acquire (who : string) (now : N) : Command := AcquireLease "gc" who 10 now.

Lemma lease_epoch_has_one_owner_witness : "a" = "a".
Proof.
  apply (lease_epoch_has_one_owner 0 MetaState_default (demo_acquire "a" 1) (demo_acquire "a" 5) []
           "gc" "a" "a" {| grant_epoch := 1; grant_deadline_ms := 11 |}
           {| grant_epoch := 1; grant_deadline_ms := 15 |});
    [apply epochs_default|by vm_compute|done|done|by vm_compute|by vm_compute|done].
Defined.

(** C23 A fence that held and broke stays broken: every later write under it is refused. *)
Theorem broken_fence_stays_broken W s l1 l2 f :
  epochs_le W s → W + len l1 + len l2 <= u64_MAX →
  check_fence s f = Ok () → check_fence (run s l1) f ≠ Ok () →
  check_fence (run (run s l1) l2) f = Err (Fenced f.(fence_lease)).
Proof. apply fence_final. Qed.

Lemma broken_fence_stays_broken_witness :
  let s := (apply MetaState_default (demo_acquire "a" 1)).1 in
  check_fence (run (run s [demo_acquire "b" 20]) [demo_acquire "a" 40])
    {| fence_lease := "gc"; fence_epoch := 1 |} = Err (Fenced "gc").
Proof.
  apply (broken_fence_stays_broken 1 _ [demo_acquire "b" 20] [demo_acquire "a" 40]
           {| fence_lease := "gc"; fence_epoch := 1 |});
    [|by vm_compute|by vm_compute|by vm_compute].
  apply (apply_epochs_le 0 MetaState_default); [apply epochs_default|done].
Defined.

(** C29 A held lease is left to its holder: until the deadline no command of anybody else changes
    it. *)
Theorem held_lease_is_left_alone s log key who l :
  s.(leases) !! key = Some l → l.(owner) = Some who →
  (∀ c w, c ∈ log → lease_request c = Some (key, w) → w ≠ who) →
  (run s log).(clock_ms) < l.(deadline_ms) →
  (run s log).(leases) !! key = Some l.
Proof. apply run_held. Qed.

Lemma held_lease_is_left_alone_witness :
  (run (apply MetaState_default (demo_acquire "a" 1)).1 [demo_acquire "b" 5]).(leases) !! "gc"
  = Some {| epoch := 1; owner := Some "a"; deadline_ms := 11 |}.
Proof.
  apply (held_lease_is_left_alone _ [demo_acquire "b" 5] "gc" "a");
    [by vm_compute|done| |by vm_compute].
  intros c w I E. in_demo I. by injection E as <-.
Defined.

(** C27 A version names a pointer's value: whoever finds the version they read before finds the
    same pointer, and any other version they find is greater.  This holds across a drop of the
    collection the pointer belongs to. *)
Theorem pointer_version_names_the_value l1 l2 ns key p q :
  len l1 + len l2 <= u64_MAX →
  let s := run MetaState_default l1 in
  pointer s ns key = Some p → pointer (run s l2) ns key = Some q →
  p.(pointer_version) < q.(pointer_version) ∨ p = q.
Proof. apply pointer_history. Qed.

Definition demo_cas (expected : option N) (value : string) : Command :=
  CasPointer 1 "link/9" expected value None None.

Lemma pointer_version_names_the_value_witness :
  1 < 2 ∨ {| pointer_version := 1; pointer_value := "a" |}
          = {| pointer_version := 2; pointer_value := "b" |}.
Proof.
  apply (pointer_version_names_the_value [CreateNamespace "n"; demo_cas None "a"]
           [demo_cas (Some 1) "b"] 1 "link/9"
           {| pointer_version := 1; pointer_value := "a" |}
           {| pointer_version := 2; pointer_value := "b" |}); by vm_compute.
Defined.

(** A compare-and-set succeeds exactly by moving its own key from the version it expects to
    the next, and changes nothing when it is refused. *)
Theorem cas_moves_one_version s ns key expected value fence fresh :
  let o := cas_pointer s ns key expected value fence fresh in
  match o.2 with
  | Ok (PointerSet v) =>
      next_version expected (pointer s ns key) = Some v
      ∧ pointer o.1 ns key = Some {| pointer_version := v; pointer_value := value |}
      ∧ ∀ ns' key', (ns', key') ≠ (ns, key) → pointer o.1 ns' key' = pointer s ns' key'
  | _ => o.1 = s
  end.
Proof.
  cbv zeta. destruct (cas_pointer s ns key expected value fence fresh).2 as [r|e] eqn:R.
  2: by apply cas_pointer_other; congruence.
  destruct r; try (apply cas_pointer_other; congruence).
  destruct (cas_pointer_Ok _ _ _ _ _ _ _ _ R) as [N ->]. unfold pointer. cbn.
  split_and!; [done|apply lookup_insert_eq|]. intros ns' key' D. by apply lookup_insert_ne.
Qed.

(** ** The ledger, the catalog and names *)

Lemma run_catalog_ok log :
  log_weight log <= u64_MAX → catalog_ok (log_weight log) (run MetaState_default log).
Proof.
  intros B. by destruct (run_catalog 0 MetaState_default log catalog_default naming_default).
Qed.

(** C21 Exactly once: while a completed key's window lasts and its stream exists, every claim of
    the key, by anybody, is answered with the partition and offset it was completed at. *)
Theorem completed_key_answers_every_claim W s log st key p o until_ms who keys ttl now states i :
  catalog_ok W s → W + len log <= u64_MAX →
  idempotency_entry s st key = Some (Done p o until_ms) →
  is_Some (stream (run s log) st) → N.max (run s log).(clock_ms) now < until_ms →
  (claim_idempotency_keys (run s log) st who keys ttl now).2 = Ok (IdempotencyClaimed states) →
  keys !! i = Some key →
  states !! i = Some (StateDone p o).
Proof.
  intros C B E X T R K. rewrite (claim_answers _ _ _ _ _ _ _ _ _ R K).
  rewrite (run_done W s log st key p o until_ms C B X) by (lia || done). cbn.
  by rewrite (proj2 (N.ltb_lt _ _) T).
Qed.

Definition demo_ledger : list Command :=
  demo_catalog ++ [ClaimIdempotencyKeys 1 "w" ["k"] 100 1;
                   CompleteIdempotencyKeys 1 "w" [("k", 0, 7)] 1000 2].

Lemma completed_key_answers_every_claim_witness :
  [StateDone 0 7] !! 0%nat = Some (StateDone 0 7).
Proof.
  apply (completed_key_answers_every_claim (log_weight demo_ledger) (run MetaState_default demo_ledger)
           [CreateNamespace "m"] 1 "k" 0 7 1002 "v" ["k"] 100 9 [StateDone 0 7] 0);
    [|by vm_compute|by vm_compute|by vm_compute; eexists|by vm_compute|by vm_compute|done].
  by apply (run_catalog_ok demo_ledger).
Defined.

(** A key in flight is left to its owner: until the claim lapses, no command of another owner
    changes its entry. *)
Theorem pending_key_is_left_alone W s log st key who until_ms :
  catalog_ok W s → W + len log <= u64_MAX →
  Forall (λ c, ledger_owner c ≠ Some who) log →
  is_Some (stream (run s log) st) → (run s log).(clock_ms) < until_ms →
  idempotency_entry s st key = Some (Pending who until_ms) →
  idempotency_entry (run s log) st key = Some (Pending who until_ms).
Proof. apply run_pending. Qed.

Definition demo_claim : list Command :=
  demo_catalog ++ [ClaimIdempotencyKeys 1 "w" ["k"] 100 1].

Lemma pending_key_is_left_alone_witness :
  idempotency_entry
    (run (run MetaState_default demo_claim) [ClaimIdempotencyKeys 1 "v" ["k"] 100 5]) 1 "k" = Some (Pending "w" 101).
Proof.
  apply (pending_key_is_left_alone (log_weight demo_claim) _ [ClaimIdempotencyKeys 1 "v" ["k"] 100 5]);
    [|by vm_compute|by repeat constructor|by vm_compute; eexists|by vm_compute|by vm_compute].
  by apply (run_catalog_ok demo_claim).
Defined.

(** Schemas only grow: a collection that is there before and after a run has the same schema
    or one with a greater version that keeps every field, vector and sparse vector it had. *)
Theorem schemas_only_grow W s log id x y :
  catalog_ok W s → W + len log <= u64_MAX →
  collection s id = Some x → collection (run s log) id = Some y →
  grows x.(collection_schema) y.(collection_schema)
  ∧ ∀ name f, schema_field x.(collection_schema) name = Some f →
      schema_field y.(collection_schema) name = Some f.
Proof.
  intros C B X Y. pose proof (run_schemas W s log C B id x y X Y) as G. split; [done|].
  intros name f. destruct G as [->|[E _]]; [done|]. by apply (extends_lookup _ _ name E).
Qed.

Definition demo_field (name : string) : FieldSpec := {|
  field_name := name;
  field_source_path := name;
  field_kind := Keyword;
  field_indexed := true;
  field_fast := false;
  field_ignore_malformed := false;
|}.

Definition demo_schema (names : list string) : CollectionSchema :=
  CollectionSchema_new (demo_field <$> names) [] Strict.

Definition demo_collections : list Command :=
  [CreateNamespace "n"; CreateCollection 1 "c" (demo_schema ["a"]) 1].

Lemma schemas_only_grow_witness :
  ∃ x y, collection (run MetaState_default demo_collections) 1 = Some x
    ∧ collection (run (run MetaState_default demo_collections)
                    [UpdateCollectionSchema 1 1 (demo_schema ["a"; "b"])]) 1 = Some y
    ∧ grows x.(collection_schema) y.(collection_schema).
Proof.
  eexists _, _. split; [by vm_compute|]. split; [by vm_compute|].
  eapply (schemas_only_grow (log_weight demo_collections) (run MetaState_default demo_collections)
           [UpdateCollectionSchema 1 1 (demo_schema ["a"; "b"])] 1);
    [|by vm_compute|by vm_compute|by vm_compute].
  by apply (run_catalog_ok demo_collections).
Defined.

(** Names are unique: in a reachable state a collection, stream, link or namespace is found by
    a name exactly if it is the one of its namespace that carries the name. *)
Theorem names_are_unique log ns name :
  log_weight log <= u64_MAX →
  let s := run MetaState_default log in
  (∀ c, collection_by_name s ns name = Some c ↔
     collection s c.(collection_id) = Some c
     ∧ c.(collection_namespace) = ns ∧ c.(collection_name) = name)
  ∧ (∀ x, stream_by_name s ns name = Some x ↔
     stream s x.(stream_id) = Some x ∧ x.(stream_namespace) = ns ∧ x.(stream_name) = name)
  ∧ (∀ l, link_by_name s ns name = Some l ↔
     link s l.(link_id) = Some l ∧ l.(link_namespace) = ns ∧ l.(link_name) = name).
Proof.
  intros B s.
  destruct (run_catalog 0 MetaState_default log catalog_default naming_default) as [C _]; [lia|].
  destruct C as [_ St Li Co _ _ _ _ _ _ _].
  split_and!; intros x;
    [pose proof (table_by_name _ _ _ (ns, name) x Co) as Q
    |pose proof (table_by_name _ _ _ (ns, name) x St) as Q
    |pose proof (table_by_name _ _ _ (ns, name) x Li) as Q]; etransitivity; try exact Q;
    cbn; rewrite pair_equal_spec; unfold collection, stream, link; tauto.
Qed.

Lemma names_are_unique_witness :
  stream_by_name (run MetaState_default demo_catalog) 1 "s"
  = stream (run MetaState_default demo_catalog) 1.
Proof.
  apply (names_are_unique demo_catalog 1 "s"); by vm_compute.
Defined.

(** An alias reads back the members it was given, however many and whether or not one is the
    write target, and every other alias is left alone. *)
Theorem alias_reads_back s ns a ms ns' a' :
  alias_members (put_alias s ns a ms) ns' a' =
    if decide ((ns', a') = (ns, a)) then ms else alias_members s ns' a'.
Proof. apply alias_members_put. Qed.

(** Ids print and parse: every id reads back from its decimal form, and a text that parses is
    the decimal form of the id, so each id has one spelling. *)
Theorem id_round_trip :
  (∀ n, n <= u64_MAX → parse_canonical (show_u64 n) = Ok n)
  ∧ (∀ text n, parse_canonical text = Ok n → text = show_u64 n ∧ n <= u64_MAX).
Proof. split; [apply parse_show|apply parse_canonical_inv]. Qed.

(** A segment's path tells its stream, partition and base offset: two segments with the same
    path are of the same place of the same partition. *)
Theorem segment_path_names_its_place ns st p b u ns' st' p' b' u' :
  st <= u64_MAX → p <= u64_MAX → b <= u64_MAX →
  st' <= u64_MAX → p' <= u64_MAX → b' <= u64_MAX →
  segment ns st p b u = segment ns' st' p' b' u' → st = st' ∧ p = p' ∧ b = b'.
Proof. apply segment_inj. Qed.

Lemma segment_path_names_its_place_witness : 3 = 3 ∧ 4 = 4 ∧ 5 = 5.
Proof. by apply (segment_path_names_its_place 1 3 4 5 "u" 1 3 4 5 "u"). Defined.
