(* ===== verification/MetaSnapshot.v ===== *)
(** * Snapshots of the metastore (loams-meta/src/codec.rs)

    The envelope a snapshot is written in: magic, format version, the postcard encoding of the
    body, the maps the version adds, and a crc32c of all that.  The [postcard] and [crc32c] crates
    and Raft's [SnapshotMeta] are parameters: a codec per type with its law, and a checksum.  A
    state survives its snapshot, and a damaged snapshot is refused; [DemoCodec] has concrete codecs
    on which the hypotheses hold. *)

From Stdlib Require Import NArith Lia.
From stdpp Require Import prelude gmap strings numbers list.
From S2P Require Import Prelude.
From S2P Require Import BTree.
From S2P Require Import ByteCodec.
From S2P Require Import Ids.
From S2P Require Import Schema.
From S2P Require Import MetaTypes.
From S2P Require Import MetaState.

Open Scope N_scope.

(** ** postcard *)

(** The errors of kind [InvalidData] and [Unsupported]. *)
Inductive IoErr :=
  | Postcard
  | TrailingBytes (n : N)
  | NotASnapshot
  | ChecksumMismatch
  | EmptyMap (version : N)
  | UnsupportedVersion (version : N).

Section codec.
Context {T : Type} `{Codec T}.

(** [encode] *)
Definition encode (x : T) : Result (list N) IoErr := ok_or (to_io x) Postcard.

(** [decode] *)
Definition decode (bytes : list N) : Result T IoErr :=
  LET r <- ok_or (take_from_bytes bytes) Postcard ;;
  let '(value, rest) := r in
  REFUSE negb (len rest =? 0) WITH TrailingBytes (len rest) ;;
  Ok value.

Lemma decode_encode seen `{!CodecOk T seen} x bs : encode x = Ok bs → decode bs = Ok (seen x).
Proof.
  unfold encode, decode. destruct (to_io x) as [b|] eqn:E; [|done]. intros [= <-].
  rewrite <- (app_nil_r b), (take_to_io x b [] E). done.
Qed.
End codec.

(** ** The envelope *)

Definition SNAPSHOT_MAGIC : list N := [79; 80; 78; 77; 69; 84; 65; 0].
Definition SNAPSHOT_FORMAT_VERSION : N := 8.
Definition ALIAS_FORMAT_VERSION : N := 7.
Definition HOT_FORMAT_VERSION : N := 6.
Definition BASE_FORMAT_VERSION : N := 5.
Definition HEADER_LEN : nat := 12.
Definition TRAILER_LEN : nat := 4.

Definition map_is_empty {K V} `{Countable K} (m : gmap K V) : bool := bool_decide (size m = 0%nat).

Section snapshot.
Context {SnapshotMeta : Type} (crc32c : list N → N).
Context `{Codec (SnapshotMeta * MetaState)} `{Codec (gmap CollectionId HotConfig)}.
Context `{Codec (gmap (NamespaceId * string) AliasTargets)}.
Context `{Codec (gmap (StreamId * IdempotencyKey) IdempotencyEntry)}.

(** The format version a state is written in. *)
Definition snapshot_version (state : MetaState) : N :=
  if negb (map_is_empty state.(idempotency)) then SNAPSHOT_FORMAT_VERSION
  else if negb (map_is_empty state.(alias_targets)) then ALIAS_FORMAT_VERSION
  else if negb (map_is_empty state.(collection_hot)) then HOT_FORMAT_VERSION
  else BASE_FORMAT_VERSION.

(** A map that is written from [since] on. *)
Definition put_map {M} `{Codec M} (version since : N) (m : M) : Result (list N) IoErr :=
  if since <=? version then encode m else Ok [].

(** [encode_snapshot] *)
Definition encode_snapshot (meta : SnapshotMeta) (state : MetaState) : Result (list N) IoErr :=
  let version := snapshot_version state in
  LET body <- encode (meta, state) ;;
  LET hot <- put_map version HOT_FORMAT_VERSION state.(collection_hot) ;;
  LET targets <- put_map version ALIAS_FORMAT_VERSION state.(alias_targets) ;;
  LET ledger <- put_map version SNAPSHOT_FORMAT_VERSION state.(idempotency) ;;
  let out := SNAPSHOT_MAGIC ++ le_bytes 4 version ++ body ++ hot ++ targets ++ ledger in
  Ok (out ++ le_bytes 4 (crc32c out)).

(** [postcard::take_from_bytes(..).map_err(invalid_data)?] *)
Definition take_value {T} `{Codec T} (bytes : list N) : Result (T * list N) IoErr :=
  ok_or (take_from_bytes bytes) Postcard.

(** The match on the version of [decode_snapshot]. *)
Definition decode_body (version : N) (body : list N) : Result (SnapshotMeta * MetaState) IoErr :=
  if version =? BASE_FORMAT_VERSION then decode body
  else if version =? HOT_FORMAT_VERSION then
    LET r <- take_value body ;;
    LET hot <- decode r.2 ;;
    REFUSE map_is_empty hot WITH EmptyMap version ;;
    Ok (r.1.1, set_collection_hot r.1.2 hot)
  else if version =? ALIAS_FORMAT_VERSION then
    LET r <- take_value body ;;
    LET h <- take_value r.2 ;;
    LET targets <- decode h.2 ;;
    REFUSE map_is_empty targets WITH EmptyMap version ;;
    Ok (r.1.1, set_alias_targets (set_collection_hot r.1.2 h.1) targets)
  else if version =? SNAPSHOT_FORMAT_VERSION then
    LET r <- take_value body ;;
    LET h <- take_value r.2 ;;
    LET t <- take_value h.2 ;;
    LET ledger <- decode t.2 ;;
    REFUSE map_is_empty ledger WITH EmptyMap version ;;
    Ok (r.1.1, set_idempotency (set_alias_targets (set_collection_hot r.1.2 h.1) t.1) ledger)
  else Err (UnsupportedVersion version).

(** [decode_snapshot] *)
Definition decode_snapshot (bytes : list N) : Result (SnapshotMeta * MetaState) IoErr :=
  REFUSE (length bytes <? HEADER_LEN + TRAILER_LEN)%nat
         || negb (bool_decide (take 8 bytes = SNAPSHOT_MAGIC))
    WITH NotASnapshot ;;
  let covered := take (length bytes - TRAILER_LEN) bytes in
  let trailer := drop (length bytes - TRAILER_LEN) bytes in
  REFUSE negb (crc32c covered =? le_value trailer) WITH ChecksumMismatch ;;
  let version := le_value (take 4 (drop 8 covered)) in
  decode_body version (drop HEADER_LEN covered).
End snapshot.

(** ** Round trip *)

(** What serde sees of a state: the maps it skips are left at their default. *)
Definition without_skipped (s : MetaState) : MetaState :=
  set_idempotency (set_alias_targets (set_collection_hot s ∅) ∅) ∅.

Lemma with_skipped s :
  set_idempotency (set_alias_targets (set_collection_hot (without_skipped s) s.(collection_hot))
    s.(alias_targets)) s.(idempotency) = s.
Proof. by destruct s. Qed.

Lemma map_is_empty_true {K V} `{Countable K} (m : gmap K V) : map_is_empty m = true ↔ m = ∅.
Proof. unfold map_is_empty. rewrite bool_decide_eq_true. apply map_size_empty_iff. Qed.

Section laws.
Context {SnapshotMeta : Type} (crc32c : list N → N).
Context `{Cb : Codec (SnapshotMeta * MetaState)} `{Ch : Codec (gmap CollectionId HotConfig)}.
Context `{Ca : Codec (gmap (NamespaceId * string) AliasTargets)}.
Context `{Ci : Codec (gmap (StreamId * IdempotencyKey) IdempotencyEntry)}.
Context `{!CodecOk (SnapshotMeta * MetaState) (λ b, (b.1, without_skipped b.2))}.
Context `{!CodecOk (gmap CollectionId HotConfig) id}.
Context `{!CodecOk (gmap (NamespaceId * string) AliasTargets) id}.
Context `{!CodecOk (gmap (StreamId * IdempotencyKey) IdempotencyEntry) id}.

(** The checksum is a [u32], and a changed byte changes it: a burst of at most 32 bits is what a
    32-bit CRC always detects. *)
Hypothesis crc_u32 : ∀ bs, crc32c bs <= u32_MAX.
Hypothesis crc_burst : ∀ bs i b b',
  bs !! i = Some b → b < 256 → b' < 256 → b' ≠ b → crc32c (<[i := b']> bs) ≠ crc32c bs.

Lemma take_value_encode {T} `{Codec T} seen `{!CodecOk T seen} (x : T) bs rest :
  encode x = Ok bs → take_value (bs ++ rest) = Ok (seen x, rest).
Proof.
  unfold encode, take_value. destruct (to_io x) as [b|] eqn:E; [|done]. intros [= <-].
  by rewrite (take_to_io x b rest E).
Qed.

(** The body and the maps a version writes are what it reads. *)
Lemma decode_body_written meta state body hot targets ledger :
  encode (meta, state) = Ok body →
  put_map (snapshot_version state) HOT_FORMAT_VERSION state.(collection_hot) = Ok hot →
  put_map (snapshot_version state) ALIAS_FORMAT_VERSION state.(alias_targets) = Ok targets →
  put_map (snapshot_version state) SNAPSHOT_FORMAT_VERSION state.(idempotency) = Ok ledger →
  decode_body (snapshot_version state) (body ++ hot ++ targets ++ ledger) = Ok (meta, state).
Proof.
  intros Eb Eh Et El. unfold snapshot_version in *.
  pose proof (take_value_encode _ _ _ (hot ++ targets ++ ledger) Eb) as Tb. cbn in Tb.
  destruct (map_is_empty (idempotency state)) eqn:Ei; cbn [negb] in *.
  2: { unfold decode_body. cbn in Eh, Et, El |- *. rewrite Tb. cbn [fst snd].
       rewrite (take_value_encode _ _ _ _ Eh). cbn [fst snd]. rewrite (take_value_encode _ _ _ _ Et).
       cbn [fst snd]. rewrite (decode_encode _ _ _ El). unfold id. by rewrite Ei, with_skipped. }
  apply map_is_empty_true in Ei.
  destruct (map_is_empty (alias_targets state)) eqn:Ea; cbn [negb] in *.
  2: { unfold decode_body. cbn in Eh, Et, El |- *. injection El as <-. rewrite app_nil_r in *.
       rewrite Tb. cbn [fst snd].
       rewrite (take_value_encode _ _ _ _ Eh). cbn [fst snd]. rewrite (decode_encode _ _ _ Et).
       unfold id. rewrite Ea. rewrite <- (with_skipped state) at 4. by rewrite Ei. }
  apply map_is_empty_true in Ea.
  destruct (map_is_empty (collection_hot state)) eqn:Eo; cbn [negb] in *.
  2: { unfold decode_body. cbn in Eh, Et, El |- *. injection El as <-. injection Et as <-.
       rewrite app_nil_r in *. rewrite Tb. cbn [fst snd]. rewrite (decode_encode _ _ _ Eh).
       unfold id. rewrite Eo. rewrite <- (with_skipped state) at 3. by rewrite Ei, Ea. }
  apply map_is_empty_true in Eo. unfold decode_body. cbn in Eh, Et, El |- *.
  injection El as <-. injection Et as <-. injection Eh as <-. rewrite !app_nil_r.
  rewrite (decode_encode _ _ _ Eb). cbn. rewrite <- (with_skipped state) at 2. by rewrite Ei, Ea, Eo.
Qed.

Lemma decode_sealed out :
  (12 <= length out)%nat → take 8 out = SNAPSHOT_MAGIC →
  decode_snapshot crc32c (out ++ le_bytes 4 (crc32c out))
  = decode_body (le_value (take 4 (drop 8 out))) (drop HEADER_LEN out).
Proof.
  intros L M. unfold decode_snapshot. rewrite length_app, length_le_bytes.
  rewrite (proj2 (Nat.ltb_ge _ _)) by (unfold HEADER_LEN, TRAILER_LEN; lia).
  rewrite take_app_le, M, bool_decide_eq_true_2 by (done || lia). cbn [orb negb].
  replace (length out + 4 - TRAILER_LEN)%nat with (length out) by (unfold TRAILER_LEN; lia).
  rewrite take_app_length, drop_app_length, le_value_bytes.
  - by rewrite N.eqb_refl.
  - pose proof (crc_u32 out). unfold u32_MAX in *. change (256 ^ N.of_nat 4) with 4294967296. lia.
Qed.

Lemma decode_damaged cov tr :
  length tr = 4%nat → crc32c cov ≠ le_value tr → ∃ e, decode_snapshot crc32c (cov ++ tr) = Err e.
Proof.
  intros L Ne. unfold decode_snapshot. destruct (_ || _); [by eexists|].
  rewrite length_app, L. replace (length cov + 4 - TRAILER_LEN)%nat with (length cov)
    by (unfold TRAILER_LEN; lia).
  rewrite take_app_length, drop_app_length, (proj2 (N.eqb_neq _ _)) by done. by eexists.
Qed.

(** What [encode_snapshot] writes. *)
Lemma encode_snapshot_shape meta state bs :
  encode_snapshot crc32c meta state = Ok bs →
  ∃ tail, let out := SNAPSHOT_MAGIC ++ le_bytes 4 (snapshot_version state) ++ tail in
    bs = out ++ le_bytes 4 (crc32c out)
    ∧ decode_body (snapshot_version state) tail = Ok (meta, state).
Proof.
  unfold encode_snapshot. destruct (encode (meta, state)) as [body|] eqn:Eb; [|done].
  destruct (put_map _ HOT_FORMAT_VERSION _) as [hot|] eqn:Eh; [|done].
  destruct (put_map _ ALIAS_FORMAT_VERSION _) as [targets|] eqn:Et; [|done].
  destruct (put_map _ SNAPSHOT_FORMAT_VERSION _) as [ledger|] eqn:El; [|done].
  intros [= <-]. exists (body ++ hot ++ targets ++ ledger). split; [done|].
  by apply decode_body_written.
Qed.

Lemma snapshot_version_u32 state : snapshot_version state < 256 ^ N.of_nat 4.
Proof. unfold snapshot_version. repeat destruct (negb _); by vm_compute. Qed.

Lemma decode_encode_snapshot meta state bs :
  encode_snapshot crc32c meta state = Ok bs → decode_snapshot crc32c bs = Ok (meta, state).
Proof.
  intros (tail & -> & D)%encode_snapshot_shape.
  rewrite decode_sealed; [|rewrite !length_app, length_le_bytes; cbn; lia|done].
  rewrite (app_assoc SNAPSHOT_MAGIC). unfold HEADER_LEN.
  rewrite (drop_app_length' (SNAPSHOT_MAGIC ++ le_bytes 4 (snapshot_version state)) tail 12) by (by rewrite length_app, length_le_bytes).
  rewrite <- app_assoc, (drop_app_length' SNAPSHOT_MAGIC) by done.
  rewrite take_app_length' by (by rewrite length_le_bytes).
  rewrite le_value_bytes by apply snapshot_version_u32. done.
Qed.

Lemma decode_changed_byte meta state bs i b b' :
  encode_snapshot crc32c meta state = Ok bs → bs !! i = Some b → b < 256 → b' < 256 → b' ≠ b →
  ∃ e, decode_snapshot crc32c (<[i := b']> bs) = Err e.
Proof.
  intros (tail & -> & _)%encode_snapshot_shape.
  set (out := SNAPSHOT_MAGIC ++ le_bytes 4 (snapshot_version state) ++ tail).
  assert (le_value (le_bytes 4 (crc32c out)) = crc32c out) as V.
  { apply le_value_bytes. pose proof (crc_u32 out). unfold u32_MAX in *.
    change (256 ^ N.of_nat 4) with 4294967296. lia. }
  intros Hi Lb Lb' Ne. destruct (decide (i < length out)%nat) as [L|L].
  - rewrite lookup_app_l in Hi by done. rewrite insert_app_l by done.
    apply decode_damaged; [apply length_le_bytes|]. rewrite V. by eapply crc_burst.
  - rewrite lookup_app_r in Hi by lia. replace i with (length out + (i - length out))%nat by lia.
    rewrite insert_app_r. apply decode_damaged; [by rewrite length_insert, length_le_bytes|].
    intros E. eapply le_value_change; [apply le_bytes_bytes|exact Hi|exact Lb'|exact Ne|].
    by rewrite V.
Qed.
End laws.

(** ** Concrete codecs: states with a clock and a hot configuration, a sum as checksum *)

Module DemoCodec.
Definition hot : gmap CollectionId HotConfig :=
  {[7 := {| hot_vectors := true; hot_text := false; hot_fragments := true |}]}.

Definition state : MetaState := set_collection_hot (set_clock_ms MetaState_default 42) hot.

(** Nothing but a clock of one byte is set. *)
Definition only_clock (s : MetaState) : bool :=
  (s.(clock_ms) <? 256) && (s.(last_namespace_id) =? 0) && (s.(last_stream_id) =? 0)
  && map_is_empty s.(namespaces) && map_is_empty s.(namespace_names) && map_is_empty s.(streams)
  && map_is_empty s.(stream_names) && map_is_empty s.(partitions) && map_is_empty s.(wal_commits)
  && map_is_empty s.(wal_live_chunks) && map_is_empty s.(retired) && map_is_empty s.(leases)
  && map_is_empty s.(pointers) && (s.(last_link_id) =? 0) && map_is_empty s.(links)
  && map_is_empty s.(link_names) && (s.(last_collection_id) =? 0) && map_is_empty s.(collections)
  && map_is_empty s.(collection_names) && map_is_empty s.(aliases).

#[export] Instance body_codec : Codec (() * MetaState) := {
  to_io b := if only_clock b.2 then Some [b.2.(clock_ms)] else None;
  take_from_bytes bs := match bs with
                        | c :: rest => Some (((), set_clock_ms MetaState_default c), rest)
                        | [] => None
                        end;
}.

#[export] Instance body_codec_ok :
  CodecOk (() * MetaState) (λ b, (b.1, without_skipped b.2)).
Proof.
  intros [[] s] bs rest. cbn. destruct (only_clock s) eqn:E; [|done]. intros [= <-].
  unfold only_clock in E. rewrite !andb_true_iff, !map_is_empty_true, !N.eqb_eq in E.
  destruct s. cbn in *. destruct_and!. subst. done.
Qed.

#[export] Instance hot_codec : Codec (gmap CollectionId HotConfig) := {
  to_io m := if map_is_empty m then Some [0] else if bool_decide (m = hot) then Some [1] else None;
  take_from_bytes bs := match bs with
                        | b :: rest => Some (if b =? 0 then ∅ else hot, rest)
                        | [] => None
                        end;
}.

#[export] Instance hot_codec_ok : CodecOk (gmap CollectionId HotConfig) id.
Proof.
  intros m bs rest. cbn. destruct (map_is_empty m) eqn:E.
  - apply map_is_empty_true in E as ->. by intros [= <-].
  - destruct (bool_decide_reflect (m = hot)) as [->|]; [|done]. by intros [= <-].
Qed.

(** Empty maps only. *)
Definition empty_codec {K V} `{Countable K} : Codec (gmap K V) := {|
  to_io m := if map_is_empty m then Some [0] else None;
  take_from_bytes bs := match bs with _ :: rest => Some (∅, rest) | [] => None end;
|}.

Lemma empty_codec_ok {K V} `{Countable K} : @CodecOk (gmap K V) empty_codec id.
Proof.
  intros m bs rest. cbn. destruct (map_is_empty m) eqn:E; [|done].
  apply map_is_empty_true in E as ->. by intros [= <-].
Qed.

#[export] Instance targets_codec : Codec (gmap (NamespaceId * string) AliasTargets) := empty_codec.
#[export] Instance targets_codec_ok : CodecOk (gmap (NamespaceId * string) AliasTargets) id :=
  empty_codec_ok.
#[export] Instance ledger_codec : Codec (gmap (StreamId * IdempotencyKey) IdempotencyEntry) :=
  empty_codec.
#[export] Instance ledger_codec_ok :
  CodecOk (gmap (StreamId * IdempotencyKey) IdempotencyEntry) id := empty_codec_ok.

(** The sum of the bytes. *)
Definition sum (bs : list N) : N := foldr N.add 0 bs mod 4294967296.

Lemma sum_u32 bs : sum bs <= u32_MAX.
Proof. unfold sum, u32_MAX. pose proof (N.mod_lt (foldr N.add 0 bs) 4294967296 ltac:(done)). lia. Qed.

Lemma sum_change bs i b b' :
  bs !! i = Some b → foldr N.add 0 (<[i := b']> bs) + b = foldr N.add 0 bs + b'.
Proof.
  revert i. induction bs as [|x bs IH]; intros i; [done|]. destruct i as [|i].
  - intros [= ->]. cbn. lia.
  - intros E. specialize (IH i E). change (<[S i := b']> (x :: bs)) with (x :: <[i := b']> bs).
    change (x + foldr N.add 0 (<[i := b']> bs) + b = x + foldr N.add 0 bs + b'). lia.
Qed.

Lemma sum_burst bs i b b' :
  bs !! i = Some b → b < 256 → b' < 256 → b' ≠ b → sum (<[i := b']> bs) ≠ sum bs.
Proof.
  intros E Lb Lb' Ne. unfold sum. pose proof (sum_change bs i b b' E) as C.
  set (x := foldr N.add 0 (<[i := b']> bs)) in *. set (y := foldr N.add 0 bs) in *.
  intros M. pose proof (N.div_mod x 4294967296 ltac:(done)).
  pose proof (N.div_mod y 4294967296 ltac:(done)). lia.
Qed.

Definition bytes : list N := SNAPSHOT_MAGIC ++ [6; 0; 0; 0; 42; 1] ++ [69; 2; 0; 0].
End DemoCodec.

Section properties.
Context {SnapshotMeta : Type} (crc32c : list N → N).
Context `{Codec (SnapshotMeta * MetaState)} `{Codec (gmap CollectionId HotConfig)}.
Context `{Codec (gmap (NamespaceId * string) AliasTargets)}.
Context `{Codec (gmap (StreamId * IdempotencyKey) IdempotencyEntry)}.
Context `{!CodecOk (SnapshotMeta * MetaState) (λ b, (b.1, without_skipped b.2))}.
Context `{!CodecOk (gmap CollectionId HotConfig) id}.
Context `{!CodecOk (gmap (NamespaceId * string) AliasTargets) id}.
Context `{!CodecOk (gmap (StreamId * IdempotencyKey) IdempotencyEntry) id}.

(** C32 A metastore state survives its snapshot: whatever [encode_snapshot] writes, in whichever
    format version the state calls for, [decode_snapshot] reads back as the same state with the
    same Raft metadata, the maps serde skips included. *)
Theorem snapshot_roundtrip meta state bs :
  (∀ l, crc32c l <= u32_MAX) →
  encode_snapshot crc32c meta state = Ok bs → decode_snapshot crc32c bs = Ok (meta, state).
Proof. intros C. by apply decode_encode_snapshot. Qed.

(** A damaged snapshot is refused: with one byte of it changed, anywhere in the envelope,
    [decode_snapshot] fails. *)
Theorem snapshot_damage_refused meta state bs i b b' :
  (∀ l, crc32c l <= u32_MAX) →
  (∀ l j x x', l !! j = Some x → x < 256 → x' < 256 → x' ≠ x →
     crc32c (<[j := x']> l) ≠ crc32c l) →
  encode_snapshot crc32c meta state = Ok bs →
  bs !! i = Some b → b < 256 → b' < 256 → b' ≠ b →
  ∃ e, decode_snapshot crc32c (<[i := b']> bs) = Err e.
Proof. intros C D. by apply decode_changed_byte. Qed.
End properties.

Lemma snapshot_roundtrip_witness :
  @decode_snapshot () DemoCodec.sum DemoCodec.body_codec DemoCodec.hot_codec DemoCodec.targets_codec
    DemoCodec.ledger_codec DemoCodec.bytes = Ok ((), DemoCodec.state).
Proof.
  apply (@snapshot_roundtrip () DemoCodec.sum _ _ _ _ DemoCodec.body_codec_ok DemoCodec.hot_codec_ok
    DemoCodec.targets_codec_ok DemoCodec.ledger_codec_ok () DemoCodec.state DemoCodec.bytes
    DemoCodec.sum_u32).
  by vm_compute.
Defined.

Lemma snapshot_damage_refused_witness :
  ∃ e, @decode_snapshot () DemoCodec.sum DemoCodec.body_codec DemoCodec.hot_codec
         DemoCodec.targets_codec DemoCodec.ledger_codec (<[12%nat := 43]> DemoCodec.bytes) = Err e.
Proof.
  apply (@snapshot_damage_refused () DemoCodec.sum _ _ _ _ DemoCodec.body_codec_ok
    DemoCodec.hot_codec_ok DemoCodec.targets_codec_ok DemoCodec.ledger_codec_ok () DemoCodec.state
    DemoCodec.bytes 12 42 43 DemoCodec.sum_u32 DemoCodec.sum_burst); by vm_compute.
Defined.
