(* ===== verification/SkTypes.v ===== *)
(** * The WAL service's data (loams-safekeeper/src/types.rs, lib.rs)

    LSNs and their text form, term histories and the point where two of them part, the
    membership configuration and the acceptor's durable head. *)

From Stdlib Require Import NArith Lia Ascii.
From stdpp Require Import prelude gmap strings numbers list.
From S2P Require Import Prelude.
From S2P Require Import ByteCodec.

Open Scope N_scope.

(** ** Errors *)

Abbreviation Term := N (only parsing).
Abbreviation Lsn := N (only parsing).
Abbreviation NodeId := N (only parsing).

(** [struct Id]: 16 bytes. *)
Abbreviation Id := (list N) (only parsing).

Record TimelineId := { tenant : Id; timeline : Id }.

#[export] Instance TimelineId_eq_dec : EqDecision TimelineId.
Proof. solve_decision. Defined.
#[export] Program Instance TimelineId_countable : Countable TimelineId :=
  inj_countable' (λ t, (t.(tenant), t.(timeline))) (λ p, {| tenant := p.1; timeline := p.2 |}) _.
Next Obligation. by intros []. Qed.

Record TermLsn := { tl_term : Term; tl_lsn : Lsn }.

#[export] Instance TermLsn_eq_dec : EqDecision TermLsn.
Proof. solve_decision. Defined.

(** What the errors of kind [Error::Protocol] say. *)
Inductive SkMsg :=
  | MLsnOverflow (at_ : Lsn) (n : N)
  | MInvalidLsn (text : string)
  | MHistoryAboveEnd (last : TermLsn) (wal_end : Lsn)
  | MTermStarts (term : Term) (prop sk : Lsn)
  | MEmptyHistory
  | MTruncationPoint (start : Lsn) (lcp : TermLsn)
  | MTruncatesCommitted (start commit : Lsn)
  | MAppendBeforeElected (term current : Term)
  | MGap (begin_ wal_end : Lsn)
  | MCommitTerm (term current : Term)
  | MGeneration (what : string) (generation current : N)
  | MPgMajor (have got : N)
  | MSegSize (have got : N)
  | MNotMember (generation : N) (node : NodeId)
  | MWalBytes (begin_ end_ : Lsn) (bytes : N)
  | MTwoTerms
  | MNotContiguous (begin_ at_ : Lsn)
  | MTruncated (what : string)
  | MBadMessage (what : string).

Inductive SkErr :=
  | Protocol (m : SkMsg)
  | NotFound (tl : TimelineId)
  | Trimmed (from trimmed : Lsn)
  | StoreHole (at_ next : Lsn).

(** ** LSNs *)

(** [Lsn::INVALID] *)
Definition INVALID : Lsn := 0.

(** [Lsn::checked_add] *)
Definition lsn_checked_add (at_ : Lsn) (n : N) : Result Lsn SkErr :=
  ok_or (u64_checked_add at_ n) (Protocol (MLsnOverflow at_ n)).

(** The digits of [format!("{:X}", n)], most significant first; 16 are enough for a [u64]. *)
Fixpoint hex_digits (fuel : nat) (n : N) : list N :=
  match fuel with
  | O => []
  | S fuel => if n <? 16 then [n] else hex_digits fuel (n / 16) ++ [n mod 16]
  end.

Definition hex_upper (d : N) : ascii :=
  if d <? 10 then ascii_of_N (48 + d) else ascii_of_N (55 + d).

Definition show_hex (n : N) : string :=
  String.string_of_list_ascii (hex_upper <$> hex_digits 16 n).

(** [impl Display for Lsn]: Postgres' [X/Y] notation. *)
Definition show_lsn (l : Lsn) : string :=
  show_hex (N.shiftr l 32) +:+ "/" +:+ show_hex (N.land l 4294967295).

(** [char::to_digit(16)] *)
Definition hex_value (c : ascii) : option N :=
  let n := N_of_ascii c in
  if (48 <=? n) && (n <=? 57) then Some (n - 48)
  else if (65 <=? n) && (n <=? 70) then Some (n - 55)
  else if (97 <=? n) && (n <=? 102) then Some (n - 87)
  else None.

Fixpoint parse_hex_digits (ds : list ascii) (acc : N) : option N :=
  match ds with
  | [] => Some acc
  | c :: ds =>
      v ← hex_value c;
      if acc * 16 + v <=? u32_MAX then parse_hex_digits ds (acc * 16 + v) else None
  end.

(** [u32::from_str_radix(s, 16)]: an optional [+], then at least one digit. *)
Definition parse_hex_u32 (ds : list ascii) : option N :=
  match ds with
  | [] => None
  | "+"%char :: ds => match ds with [] => None | _ => parse_hex_digits ds 0 end
  | _ => parse_hex_digits ds 0
  end.

(** [s.split_once(c)] on the characters. *)
Fixpoint split_once (c : ascii) (s : list ascii) : option (list ascii * list ascii) :=
  match s with
  | [] => None
  | d :: s =>
      if Ascii.eqb c d then Some ([], s)
      else '(a, b) ← split_once c s; Some (d :: a, b)
  end.

(** [impl FromStr for Lsn] *)
Definition parse_lsn (s : string) : Result Lsn SkErr :=
  let bad := Protocol (MInvalidLsn s) in
  match split_once "/" (String.list_ascii_of_string s) with
  | None => Err bad
  | Some (hi, lo) =>
      LET hi <- ok_or (parse_hex_u32 hi) bad ;;
      LET lo <- ok_or (parse_hex_u32 lo) bad ;;
      Ok (N.lor (N.shiftl hi 32) lo)
  end.

(** ** Term histories *)

Abbreviation TermHistory := (list TermLsn) (only parsing).

(** [TermHistory::up_to]: [take_while]. *)
Fixpoint up_to (h : TermHistory) (bound : Lsn) : TermHistory :=
  match h with
  | [] => []
  | e :: h => if e.(tl_lsn) <=? bound then e :: up_to h bound else []
  end.

(** The loop of [find_highest_common_point]: the last index up to which the histories agree. *)
Fixpoint common_loop (prop sk : TermHistory) (i : nat) (last_common : option nat)
  : Result (option nat) SkErr :=
  match prop, sk with
  | p :: prop, s :: sk =>
      if negb (p.(tl_term) =? s.(tl_term)) then Ok last_common
      else if negb (p.(tl_lsn) =? s.(tl_lsn))
      then Err (Protocol (MTermStarts p.(tl_term) p.(tl_lsn) s.(tl_lsn)))
      else common_loop prop sk (S i) (Some i)
  | _, _ => Ok last_common
  end.

(** [TermHistory::find_highest_common_point] *)
Definition find_highest_common_point (prop sk : TermHistory) (sk_wal_end : Lsn)
  : Result (option TermLsn) SkErr :=
  match last sk with
  | Some l =>
      if sk_wal_end <? l.(tl_lsn) then Err (Protocol (MHistoryAboveEnd l sk_wal_end))
      else
        LET last_common <- common_loop prop sk 0 None ;;
        match last_common with
        | None => Ok None
        | Some i =>
            match prop !! i with
            | None => Ok None
            | Some p =>
                let lsn := match prop !! S i with
                           | None => sk_wal_end
                           | Some next =>
                               N.min next.(tl_lsn)
                                 (match sk !! S i with Some e => e.(tl_lsn) | None => sk_wal_end end)
                           end in
                Ok (Some {| tl_term := p.(tl_term); tl_lsn := lsn |})
            end
        end
  | None => Ok None
  end.

(** ** Configuration and server *)

Record SafekeeperId := { sk_id : NodeId; sk_host : string; sk_pg_port : N }.

Record Configuration := {
  generation : N;
  members : list SafekeeperId;
  new_members : option (list SafekeeperId);
}.

Definition Configuration_default : Configuration :=
  {| generation := 0; members := []; new_members := None |}.

(** [Configuration::contains] *)
Definition conf_contains (c : Configuration) (node : NodeId) : bool :=
  existsb (λ m, m.(sk_id) =? node) c.(members)
  || match c.(new_members) with
     | Some n => existsb (λ m, m.(sk_id) =? node) n
     | None => false
     end.

Record ServerInfo := { pg_version : N; system_id : N; wal_seg_size : N }.

#[export] Instance ServerInfo_eq_dec : EqDecision ServerInfo.
Proof. solve_decision. Defined.

Definition ServerInfo_default : ServerInfo :=
  {| pg_version := 0; system_id := 0; wal_seg_size := 0 |}.

(** [ServerInfo::pg_major] *)
Definition pg_major (s : ServerInfo) : option N :=
  if negb (s.(pg_version) =? 0) then Some (s.(pg_version) / 10000) else None.

(** ** The acceptor's head *)

Record AcceptorState := {
  term : Term;
  term_history : TermHistory;
  mconf : Configuration;
  server : ServerInfo;
  flush_lsn : Lsn;
  commit_lsn : Lsn;
  peer_horizon_lsn : Lsn;
  backup_lsn : Lsn;
  remote_consistent_lsn : Lsn;
  timeline_start_lsn : Lsn;
  local_start_lsn : Lsn;
  trimmed_lsn : Lsn;
}.

(** [AcceptorState::new] *)
Definition AcceptorState_new (server : ServerInfo) (start_lsn : Lsn) : AcceptorState := {|
  term := 0;
  term_history := [];
  mconf := Configuration_default;
  server := server;
  flush_lsn := start_lsn;
  commit_lsn := start_lsn;
  peer_horizon_lsn := start_lsn;
  backup_lsn := start_lsn;
  remote_consistent_lsn := start_lsn;
  timeline_start_lsn := start_lsn;
  local_start_lsn := start_lsn;
  trimmed_lsn := start_lsn;
|}.

(** [AcceptorState::wal_end] *)
Definition wal_end (st : AcceptorState) : Lsn := N.max st.(flush_lsn) st.(timeline_start_lsn).

(** [AcceptorState::stored_term_history] *)
Definition stored_term_history (st : AcceptorState) : TermHistory :=
  up_to st.(term_history) (wal_end st).

(** [AcceptorState::last_log_term] *)
Definition last_log_term (st : AcceptorState) : Term :=
  match last (stored_term_history st) with Some e => e.(tl_term) | None => 0 end.
