(* ===== verification/SkStore.v ===== *)
(** * The WAL store (loams-safekeeper/src/store.rs)

    The rules every store applies inside its own atomic section ([apply_vote],
    [apply_elected], [apply_append], [apply_commit_lsn]), the bound of a trim, the reader's
    slicing of chunks, and the in-memory store that drives the protocol.  A rule that mutates
    the head returns the head it leaves next to its result. *)

From Stdlib Require Import NArith Lia.
From stdpp Require Import prelude gmap strings numbers list.
From S2P Require Import Prelude.
From S2P Require Import BTree.
From S2P Require Import ByteCodec.
From S2P Require Import SkTypes.

Open Scope N_scope.


Record Deposed := { current : Term }.

Record AppendBatch := {
  ab_term : Term;
  ab_begin_lsn : Lsn;
  ab_wal : list Bytes;
  ab_commit_lsn : Lsn;
  ab_truncate_lsn : Lsn;
}.

Record AppendPlan := { write_from : Lsn; skip : N }.

(** [struct ProposerElected] (proto.rs) *)
Record ProposerElected := {
  pe_generation : N;
  pe_term : Term;
  pe_start_streaming_at : Lsn;
  pe_term_history : TermHistory;
}.

(** [AppendBatch::len] *)
Definition batch_len (b : AppendBatch) : N := foldl (λ n c, u64_add n (len c)) 0 b.(ab_wal).

(** [AppendBatch::is_empty] *)
Definition batch_is_empty (b : AppendBatch) : bool :=
  forallb (λ c, bool_decide (c = [])) b.(ab_wal).

(** [AppendBatch::end_lsn] *)
Definition batch_end_lsn (b : AppendBatch) : Result Lsn SkErr :=
  lsn_checked_add b.(ab_begin_lsn) (batch_len b).

(** ** Fields of the head *)

Definition set_term (st : AcceptorState) (t : Term) : AcceptorState := {|
  term := t;
  term_history := st.(term_history);
  mconf := st.(mconf);
  server := st.(server);
  flush_lsn := st.(flush_lsn);
  commit_lsn := st.(commit_lsn);
  peer_horizon_lsn := st.(peer_horizon_lsn);
  backup_lsn := st.(backup_lsn);
  remote_consistent_lsn := st.(remote_consistent_lsn);
  timeline_start_lsn := st.(timeline_start_lsn);
  local_start_lsn := st.(local_start_lsn);
  trimmed_lsn := st.(trimmed_lsn);
|}.

Definition set_meta (st : AcceptorState) (srv : ServerInfo) (conf : Configuration)
  : AcceptorState := {|
  term := st.(term);
  term_history := st.(term_history);
  mconf := conf;
  server := srv;
  flush_lsn := st.(flush_lsn);
  commit_lsn := st.(commit_lsn);
  peer_horizon_lsn := st.(peer_horizon_lsn);
  backup_lsn := st.(backup_lsn);
  remote_consistent_lsn := st.(remote_consistent_lsn);
  timeline_start_lsn := st.(timeline_start_lsn);
  local_start_lsn := st.(local_start_lsn);
  trimmed_lsn := st.(trimmed_lsn);
|}.

(** The positions an append or a record call moves. *)
Definition set_lsns (st : AcceptorState) (flush commit horizon backup remote trimmed : Lsn)
  : AcceptorState := {|
  term := st.(term);
  term_history := st.(term_history);
  mconf := st.(mconf);
  server := st.(server);
  flush_lsn := flush;
  commit_lsn := commit;
  peer_horizon_lsn := horizon;
  backup_lsn := backup;
  remote_consistent_lsn := remote;
  timeline_start_lsn := st.(timeline_start_lsn);
  local_start_lsn := st.(local_start_lsn);
  trimmed_lsn := trimmed;
|}.

Definition set_commit (st : AcceptorState) (c : Lsn) : AcceptorState :=
  set_lsns st st.(flush_lsn) c st.(peer_horizon_lsn) st.(backup_lsn) st.(remote_consistent_lsn)
    st.(trimmed_lsn).

(** ** The rules *)

(** [apply_vote] *)
Definition apply_vote (st : AcceptorState) (t : Term) : AcceptorState * bool :=
  if st.(term) <? t then (set_term st t, true) else (st, false).

(** What [apply_elected] writes once the proposer's history was accepted. *)
Definition elected_state (st : AcceptorState) (msg : ProposerElected) : AcceptorState :=
  let at_ := msg.(pe_start_streaming_at) in
  let start := match head msg.(pe_term_history) with Some e => e.(tl_lsn) | None => INVALID end in
  let tl_start := if st.(timeline_start_lsn) =? INVALID then start else st.(timeline_start_lsn) in
  let horizon := if st.(peer_horizon_lsn) =? INVALID then tl_start else st.(peer_horizon_lsn) in
  let empty := st.(flush_lsn) =? INVALID in
  let local := if empty && (st.(local_start_lsn) =? INVALID) then at_ else st.(local_start_lsn) in
  let trimmed := if empty && (st.(trimmed_lsn) =? INVALID) then local else st.(trimmed_lsn) in
  {| term := msg.(pe_term);
     term_history := msg.(pe_term_history);
     mconf := st.(mconf);
     server := st.(server);
     flush_lsn := at_;
     commit_lsn := N.max st.(commit_lsn) tl_start;
     peer_horizon_lsn := horizon;
     backup_lsn := N.max st.(backup_lsn) tl_start;
     remote_consistent_lsn := N.max st.(remote_consistent_lsn) tl_start;
     timeline_start_lsn := tl_start;
     local_start_lsn := local;
     trimmed_lsn := trimmed |}.

(** [apply_elected]: the head it leaves, the LSN to truncate at. *)
Definition apply_elected (st : AcceptorState) (msg : ProposerElected)
  : Result (AcceptorState * Result Lsn Deposed) SkErr :=
  if msg.(pe_term) <? st.(term) then Ok (st, Err {| current := st.(term) |})
  else
    let st := set_term st msg.(pe_term) in
    LET lcp <- find_highest_common_point msg.(pe_term_history) (stored_term_history st) (wal_end st) ;;
    LET lcp <- (match lcp with
                | Some p => Ok p
                | None => ok_or (head msg.(pe_term_history)) (Protocol MEmptyHistory)
                end) ;;
    REFUSE negb (lcp.(tl_lsn) =? msg.(pe_start_streaming_at))
      WITH Protocol (MTruncationPoint msg.(pe_start_streaming_at) lcp) ;;
    REFUSE msg.(pe_start_streaming_at) <? st.(commit_lsn)
      WITH Protocol (MTruncatesCommitted msg.(pe_start_streaming_at) st.(commit_lsn)) ;;
    Ok (elected_state st msg, Ok msg.(pe_start_streaming_at)).

(** Which bytes of a batch ending at [end_] are still to be written. *)
Definition append_plan (st : AcceptorState) (b : AppendBatch) (end_ : Lsn)
  : Result AppendPlan SkErr :=
  let flush := st.(flush_lsn) in
  if batch_is_empty b || (end_ <=? flush) then Ok {| write_from := end_; skip := batch_len b |}
  else if b.(ab_begin_lsn) <? flush
  then Ok {| write_from := flush; skip := u64_sub flush b.(ab_begin_lsn) |}
  else
    REFUSE (flush <? b.(ab_begin_lsn)) && negb (flush =? INVALID)
      WITH Protocol (MGap b.(ab_begin_lsn) flush) ;;
    Ok {| write_from := b.(ab_begin_lsn); skip := 0 |}.

(** The head after an append up to [end_]. *)
Definition appended_state (st : AcceptorState) (b : AppendBatch) (end_ : Lsn) : AcceptorState :=
  let flush := N.max st.(flush_lsn) end_ in
  let commit := if negb (b.(ab_commit_lsn) =? INVALID)
                then N.max st.(commit_lsn)
                       (N.min b.(ab_commit_lsn) (N.max flush st.(timeline_start_lsn)))
                else st.(commit_lsn) in
  set_lsns st flush commit (N.max st.(peer_horizon_lsn) b.(ab_truncate_lsn)) st.(backup_lsn)
    st.(remote_consistent_lsn) st.(trimmed_lsn).

(** [apply_append] *)
Definition apply_append (st : AcceptorState) (b : AppendBatch)
  : Result (AcceptorState * Result AppendPlan Deposed) SkErr :=
  if b.(ab_term) <? st.(term) then Ok (st, Err {| current := st.(term) |})
  else
    REFUSE st.(term) <? b.(ab_term)
      WITH Protocol (MAppendBeforeElected b.(ab_term) st.(term)) ;;
    LET end_ <- batch_end_lsn b ;;
    LET plan <- append_plan st b end_ ;;
    Ok (appended_state st b end_, Ok plan).

(** [apply_commit_lsn] *)
Definition apply_commit_lsn (st : AcceptorState) (t : Term) (commit : Lsn)
  : Result (AcceptorState * Result () Deposed) SkErr :=
  if t <? st.(term) then Ok (st, Err {| current := st.(term) |})
  else
    REFUSE st.(term) <? t WITH Protocol (MCommitTerm t st.(term)) ;;
    Ok (set_commit st (N.max st.(commit_lsn) (N.min commit (wal_end st))), Ok ()).

(** The loop of [remaining_chunks]. *)
Fixpoint skip_chunks (wal : list Bytes) (n : N) : list Bytes :=
  match wal with
  | [] => []
  | c :: wal =>
      if len c <=? n then skip_chunks wal (n - len c)
      else drop (N.to_nat n) c :: skip_chunks wal 0
  end.

(** [remaining_chunks] *)
Definition remaining_chunks (b : AppendBatch) (plan : AppendPlan) : list Bytes :=
  skip_chunks b.(ab_wal) plan.(skip).

(** [trim_bound] *)
Definition trim_bound (st : AcceptorState) (want : Lsn) : Lsn :=
  N.max (N.min (N.min (N.min (N.min want st.(backup_lsn)) st.(remote_consistent_lsn))
                 st.(commit_lsn)) (wal_end st))
    st.(trimmed_lsn).

(** ** One timeline in memory *)

Record MemTimeline := { tl_head : AcceptorState; tl_wal : gmap N Bytes }.

(** [map.split_off(&k)] leaves the keys below [k]; the keys from [k] on are returned. *)
Definition keep_below (m : gmap N Bytes) (k : N) : gmap N Bytes := filter (λ e, e.1 < k) m.
Definition keep_from (m : gmap N Bytes) (k : N) : gmap N Bytes := filter (λ e, k <= e.1) m.

(** [map.iter().next_back()] *)
Definition btree_last (m : gmap N Bytes) : option (N * Bytes) := last (btree_iter m).

(** [MemTimeline::truncate] *)
Definition truncate (wal : gmap N Bytes) (at_ : Lsn) : gmap N Bytes :=
  let wal := keep_below wal at_ in
  match btree_last wal with
  | Some (begin_, chunk) =>
      if at_ <? u64_add begin_ (len chunk)
      then <[begin_ := take (N.to_nat (u64_sub at_ begin_)) chunk]> wal
      else wal
  | None => wal
  end.

(** The write loop of [append]. *)
Fixpoint insert_chunks (wal : gmap N Bytes) (at_ : N) (chunks : list Bytes) : gmap N Bytes :=
  match chunks with
  | [] => wal
  | c :: chunks =>
      let wal := if 0 <? len c then <[at_ := c]> wal else wal in
      insert_chunks wal (u64_add at_ (len c)) chunks
  end.

(** The calls of [WalStore] on one timeline; each applies to a copy, so that an error leaves
    the timeline untouched. *)

Definition tl_update_meta (t : MemTimeline) (srv : ServerInfo) (conf : option Configuration)
  : MemTimeline * AcceptorState :=
  let head := set_meta t.(tl_head) srv (default t.(tl_head).(mconf) conf) in
  ({| tl_head := head; tl_wal := t.(tl_wal) |}, head).

Definition tl_vote (t : MemTimeline) (v : Term) : MemTimeline * (bool * AcceptorState) :=
  let '(head, given) := apply_vote t.(tl_head) v in
  ({| tl_head := head; tl_wal := t.(tl_wal) |}, (given, head)).

Definition tl_elected (t : MemTimeline) (msg : ProposerElected)
  : Result (MemTimeline * Result AcceptorState Deposed) SkErr :=
  LET r <- apply_elected t.(tl_head) msg ;;
  match r with
  | (head, Err d) => Ok ({| tl_head := head; tl_wal := t.(tl_wal) |}, Err d)
  | (head, Ok at_) => Ok ({| tl_head := head; tl_wal := truncate t.(tl_wal) at_ |}, Ok head)
  end.

Definition tl_append (t : MemTimeline) (b : AppendBatch)
  : Result (MemTimeline * Result AcceptorState Deposed) SkErr :=
  LET r <- apply_append t.(tl_head) b ;;
  match r with
  | (head, Err d) => Ok ({| tl_head := head; tl_wal := t.(tl_wal) |}, Err d)
  | (head, Ok plan) =>
      Ok ({| tl_head := head;
             tl_wal := insert_chunks t.(tl_wal) plan.(write_from) (remaining_chunks b plan) |},
          Ok head)
  end.

Definition tl_record_commit (t : MemTimeline) (v : Term) (commit : Lsn)
  : Result (MemTimeline * Result () Deposed) SkErr :=
  LET r <- apply_commit_lsn t.(tl_head) v commit ;;
  let '(head, r) := r in Ok ({| tl_head := head; tl_wal := t.(tl_wal) |}, r).

Definition tl_record_backup (t : MemTimeline) (l : Lsn) : MemTimeline :=
  let h := t.(tl_head) in
  {| tl_head := set_lsns h h.(flush_lsn) h.(commit_lsn) h.(peer_horizon_lsn)
                  (N.max h.(backup_lsn) (N.min l (wal_end h))) h.(remote_consistent_lsn)
                  h.(trimmed_lsn);
     tl_wal := t.(tl_wal) |}.

Definition tl_record_remote (t : MemTimeline) (l : Lsn) : MemTimeline :=
  let h := t.(tl_head) in
  {| tl_head := set_lsns h h.(flush_lsn) h.(commit_lsn) h.(peer_horizon_lsn) h.(backup_lsn)
                  (N.max h.(remote_consistent_lsn) l) h.(trimmed_lsn);
     tl_wal := t.(tl_wal) |}.

Definition tl_trim (t : MemTimeline) (l : Lsn) : MemTimeline * Lsn :=
  let h := t.(tl_head) in
  let bound := trim_bound h l in
  let from := match btree_last_le t.(tl_wal) bound with
              | Some (b, c) => if bound <? u64_add b (len c) then b else bound
              | None => bound
              end in
  ({| tl_head := set_lsns h h.(flush_lsn) h.(commit_lsn) h.(peer_horizon_lsn) h.(backup_lsn)
                   h.(remote_consistent_lsn) bound;
      tl_wal := keep_from t.(tl_wal) from |}, bound).

(** ** Reading *)

(** The loop of [read_chunks]. *)
Fixpoint read_loop (end_ : Lsn) (chunks : list (N * Bytes)) (at_ budget : N)
    (out : list (Lsn * Bytes)) : Result (list (Lsn * Bytes)) SkErr :=
  match chunks with
  | [] => Ok out
  | (begin_, chunk) :: chunks =>
      if (budget =? 0) || (end_ <=? at_) then Ok out
      else
        let chunk_end := N.min (u64_add begin_ (len chunk)) end_ in
        if chunk_end <=? at_ then read_loop end_ chunks at_ budget out
        else
          REFUSE at_ <? begin_ WITH StoreHole at_ begin_ ;;
          let lo := u64_sub at_ begin_ in
          let hi := N.min (u64_sub chunk_end begin_) (u64_saturating_add lo budget) in
          read_loop end_ chunks (u64_add begin_ hi) (u64_sub budget (u64_sub hi lo))
            (out ++ [(at_, take (N.to_nat (hi - lo)) (drop (N.to_nat lo) chunk))])
  end.

(** [read_chunks] *)
Definition read_chunks (head : AcceptorState) (chunks : list (N * Bytes)) (from : Lsn)
    (max_bytes : N) : Result (list (Lsn * Bytes)) SkErr :=
  REFUSE from <? head.(trimmed_lsn) WITH Trimmed from head.(trimmed_lsn) ;;
  read_loop head.(flush_lsn) chunks from max_bytes [].

Definition tl_read (t : MemTimeline) (from : Lsn) (max_bytes : N)
  : Result (list (Lsn * Bytes)) SkErr :=
  read_chunks t.(tl_head) (btree_iter t.(tl_wal)) from max_bytes.

(** ** The store *)

(** [MemWalStore]: its lock is not poisoned. *)
Abbreviation MemWalStore := (gmap TimelineId MemTimeline) (only parsing).

(** [MemWalStore::with]: an error leaves the store as it was. *)
Definition with_timeline {A} (s : MemWalStore) (tl : TimelineId)
    (f : MemTimeline → Result (MemTimeline * A) SkErr) : MemWalStore * Result A SkErr :=
  match s !! tl with
  | None => (s, Err (NotFound tl))
  | Some t =>
      match f t with
      | Err e => (s, Err e)
      | Ok (t, a) => (<[tl := t]> s, Ok a)
      end
  end.

(** [MemWalStore::create] *)
Definition mem_create (s : MemWalStore) (tl : TimelineId) (srv : ServerInfo) (start : Lsn)
  : MemWalStore * AcceptorState :=
  match s !! tl with
  | Some t => (s, t.(tl_head))
  | None =>
      let t := {| tl_head := AcceptorState_new srv start; tl_wal := ∅ |} in
      (<[tl := t]> s, t.(tl_head))
  end.
