(* ===== verification/SkWal.v ===== *)
(** * Chunks of WAL

    A timeline's WAL is a map from begin LSN to chunk.  In a well-formed timeline the chunks,
    in order, follow one another without hole or overlap ([wal_tiles]); [bytes_at] is the byte
    stored at an LSN.  The lemmas say what truncating, writing and trimming do to both. *)

From Stdlib Require Import NArith Lia.
From stdpp Require Import prelude gmap strings numbers list.
From S2P Require Import Prelude.
From S2P Require Import BTree.
From S2P Require Import SkTypes.
From S2P Require Import SkStore.

Open Scope N_scope.

Abbreviation Chunks := (list (N * list N)) (only parsing).

Fixpoint wal_tiles (lo : N) (cs : Chunks) (hi : N) : Prop :=
  match cs with
  | [] => lo = hi
  | (b, c) :: cs => b = lo ∧ 0 < len c ∧ wal_tiles (lo + len c) cs hi
  end.

(** The byte at an LSN. *)
Fixpoint bytes_at (cs : Chunks) (l : N) : option N :=
  match cs with
  | [] => None
  | (b, c) :: cs =>
      if l <? b + len c then (if b <=? l then c !! N.to_nat (l - b) else None) else bytes_at cs l
  end.

Definition wal_bytes (cs : Chunks) : list N := concat cs.*2.

Lemma wal_tiles_le lo cs hi : wal_tiles lo cs hi → hi = lo + len (wal_bytes cs).
Proof.
  unfold wal_bytes. revert lo. induction cs as [|[b c] cs IH]; intros lo; cbn.
  - intros ->. rewrite len_nil. lia.
  - intros (-> & P & T). apply IH in T. rewrite len_app. lia.
Qed.

Lemma wal_tiles_app lo l r hi :
  wal_tiles lo (l ++ r) hi ↔
    wal_tiles lo l (lo + len (wal_bytes l)) ∧ wal_tiles (lo + len (wal_bytes l)) r hi.
Proof.
  unfold wal_bytes. revert lo. induction l as [|[b c] l IH]; intros lo; cbn.
  - rewrite len_nil, N.add_0_r. tauto.
  - rewrite IH, len_app, N.add_assoc. tauto.
Qed.

Lemma wal_tiles_elem lo cs hi b c :
  wal_tiles lo cs hi → (b, c) ∈ cs → lo <= b ∧ 0 < len c ∧ b + len c <= hi.
Proof.
  revert lo. induction cs as [|[b' c'] cs IH]; intros lo; cbn; [by intros _ ?%elem_of_nil|].
  intros (-> & P & T) [E|I]%elem_of_cons.
  - injection E as -> ->. apply wal_tiles_le in T. lia.
  - destruct (IH _ T I) as (? & ? & ?). split; [lia|done].
Qed.

Lemma wal_tiles_ordered lo cs hi : wal_tiles lo cs hi → ordered cs.
Proof.
  revert lo. induction cs as [|[b c] cs IH]; intros lo T; [constructor|].
  destruct T as (-> & P & T). apply ordered_cons. split; [|by eapply IH].
  intros [b' c'] I. apply key_lt_N. cbn. destruct (wal_tiles_elem _ _ _ _ _ T I). lia.
Qed.

(** Reading through the tiling is reading the concatenation. *)
Lemma bytes_at_tiles lo cs hi l :
  wal_tiles lo cs hi →
  bytes_at cs l = if decide (lo <= l) then wal_bytes cs !! N.to_nat (l - lo) else None.
Proof.
  unfold wal_bytes. revert lo. induction cs as [|[b c] cs IH]; intros lo; cbn.
  - intros _. by case_decide; rewrite ?lookup_nil.
  - intros (-> & P & T). destruct (N.ltb_spec l (lo + len c)) as [L|L].
    + destruct (N.leb_spec lo l) as [G|G]; [rewrite decide_True by done|by rewrite decide_False by lia].
      symmetry. apply lookup_app_l. unfold len in L. lia.
    + rewrite (IH _ T), !decide_True by lia. rewrite lookup_app_r by (unfold len in L; lia).
      f_equal. unfold len. lia.
Qed.

Lemma bytes_at_is_Some lo cs hi l :
  wal_tiles lo cs hi → is_Some (bytes_at cs l) ↔ lo <= l < hi.
Proof.
  intros T. rewrite (bytes_at_tiles _ _ _ _ T). apply wal_tiles_le in T as ->.
  case_decide as D.
  - rewrite lookup_lt_is_Some. unfold len. lia.
  - split; [by intros [? ?]|lia].
Qed.

Lemma bytes_at_app lo l r hi p :
  wal_tiles lo (l ++ r) hi →
  bytes_at (l ++ r) p
    = if decide (p < lo + len (wal_bytes l)) then bytes_at l p else bytes_at r p.
Proof.
  intros T. pose proof T as T'. apply wal_tiles_app in T' as [Tl Tr].
  rewrite (bytes_at_tiles _ _ _ _ T), (bytes_at_tiles _ _ _ _ Tl), (bytes_at_tiles _ _ _ _ Tr).
  unfold wal_bytes. rewrite fmap_app, concat_app. fold (wal_bytes l) (wal_bytes r).
  destruct (decide (lo <= p)) as [G|G].
  - destruct (decide (p < lo + len (wal_bytes l))) as [L|L].
    + apply lookup_app_l. unfold len in L. lia.
    + rewrite decide_True by lia. rewrite lookup_app_r by (unfold len in L; lia).
      f_equal. unfold len. lia.
  - rewrite (decide_True (P := p < _)) by lia. done.
Qed.

(** ** Truncating *)

Lemma ordered_filter (P : N * list N → Prop) `{∀ x, Decision (P x)} cs :
  ordered cs → ordered (filter P cs).
Proof.
  induction cs as [|e cs IH]; [done|]. intros [G O]%ordered_cons. rewrite filter_cons.
  case_decide; [|by apply IH]. apply ordered_cons. split; [|by apply IH].
  intros e' [_ I]%list_elem_of_filter. by apply G.
Qed.

Lemma btree_iter_filter (P : N * list N → Prop) `{∀ x, Decision (P x)} (m : gmap N (list N)) :
  btree_iter (filter P m) = filter P (btree_iter m).
Proof.
  apply btree_iter_eq; [apply ordered_filter, btree_iter_ordered|].
  intros k v. rewrite list_elem_of_filter, elem_of_btree_iter, map_lookup_filter_Some. tauto.
Qed.

(** The chunks around a position inside the WAL: [before] up to the chunk that reaches it. *)
Lemma wal_tiles_split lo cs hi at_ :
  wal_tiles lo cs hi → lo < at_ <= hi →
  ∃ pre b c post, cs = pre ++ (b, c) :: post ∧ b < at_ <= b + len c.
Proof.
  revert lo. induction cs as [|[b c] cs IH]; intros lo; cbn; [lia|].
  intros (-> & P & T) H. destruct (decide (at_ <= lo + len c)) as [L|L].
  - exists [], lo, c, cs. split; [done|lia].
  - destruct (IH _ T ltac:(lia)) as (pre & b & c' & post & -> & E).
    by exists ((lo, c) :: pre), b, c', post.
Qed.

Lemma wal_tiles_middle lo pre b c post hi :
  wal_tiles lo (pre ++ (b, c) :: post) hi →
  wal_tiles lo pre b ∧ 0 < len c ∧ wal_tiles (b + len c) post hi.
Proof.
  intros [T1 T2]%wal_tiles_app. cbn in T2. destruct T2 as (-> & P & T2). done.
Qed.

Lemma filter_below lo pre b c post hi at_ :
  wal_tiles lo (pre ++ (b, c) :: post) hi → b < at_ <= b + len c →
  filter (λ e, e.1 < at_) (pre ++ (b, c) :: post) = pre ++ [(b, c)].
Proof.
  intros (T1 & P & T2)%wal_tiles_middle H. rewrite filter_app. f_equal.
  - apply filter_all. intros [b' c'] I. destruct (wal_tiles_elem _ _ _ _ _ T1 I). cbn. lia.
  - rewrite filter_cons_True by (cbn; lia). f_equal. apply filter_none.
    intros [b' c'] I. destruct (wal_tiles_elem _ _ _ _ _ T2 I). cbn. lia.
Qed.

Lemma iter_replace_last (m : gmap N (list N)) pre b c d :
  btree_iter m = pre ++ [(b, c)] → btree_iter (<[b := d]> m) = pre ++ [(b, d)].
Proof.
  intros E. pose proof (btree_iter_ordered m) as O. rewrite E in O.
  apply ordered_app in O as (G & _ & _). rewrite <- (insert_delete_eq m b d).
  apply (btree_iter_insert _ _ _ pre []).
  - rewrite app_nil_r. rewrite <- (app_nil_r pre). by eapply btree_iter_delete.
  - intros e I. apply (G e (b, c)); [done|left].
  - by intros e ?%elem_of_nil.
Qed.

(** Truncation keeps the bytes below [at_] and nothing else. *)
Lemma truncate_spec wal at_ lo hi :
  wal_tiles lo (btree_iter wal) hi → at_ <= hi → hi <= u64_MAX →
  wal_tiles (N.min lo at_) (btree_iter (truncate wal at_)) at_
  ∧ ∀ l, l < at_ → bytes_at (btree_iter (truncate wal at_)) l = bytes_at (btree_iter wal) l.
Proof.
  intros T L M. unfold truncate, btree_last, keep_below. rewrite btree_iter_filter.
  destruct (decide (at_ <= lo)) as [G|G].
  - assert (filter (λ e, e.1 < at_) (btree_iter wal) = []) as E.
    { apply filter_none. intros [b c] I. destruct (wal_tiles_elem _ _ _ _ _ T I). cbn. lia. }
    rewrite E. cbn [last]. rewrite btree_iter_filter, E. split; [cbn; lia|].
    intros l Hl. rewrite (bytes_at_tiles _ _ _ _ T), decide_False by lia. done.
  - destruct (wal_tiles_split _ _ _ at_ T ltac:(lia)) as (pre & b & c & post & E & H).
    rewrite E in T. pose proof (wal_tiles_middle _ _ _ _ _ _ T) as (T1 & P & T2).
    rewrite E, (filter_below _ _ _ _ _ _ at_ T H), last_snoc.
    pose proof (wal_tiles_le _ _ _ T2) as Lh. pose proof (wal_tiles_le _ _ _ T1) as Lp.
    rewrite u64_add_small by lia. rewrite u64_sub_small by lia. rewrite N.min_l by lia.
    assert (btree_iter (filter (λ e, e.1 < at_) wal) = pre ++ [(b, c)]) as Ek
      by (by rewrite btree_iter_filter, E, (filter_below _ _ _ _ _ _ at_ T H)).
    assert (∃ d, btree_iter (if at_ <? b + len c
                   then <[b := take (N.to_nat (at_ - b)) c]> (filter (λ e, e.1 < at_) wal)
                   else filter (λ e, e.1 < at_) wal) = pre ++ [(b, d)]
                 ∧ d = take (N.to_nat (at_ - b)) c) as (d & -> & ->).
    { destruct (N.ltb_spec at_ (b + len c)) as [Q|Q].
      - eexists. split; [by eapply iter_replace_last|done].
      - exists c. split; [done|]. symmetry. apply take_ge. unfold len in Q. lia. }
    set (d := take (N.to_nat (at_ - b)) c).
    assert (len d = at_ - b) as Ld by (unfold d, len; rewrite length_take; unfold len in H; lia).
    assert (wal_tiles lo (pre ++ [(b, d)]) at_) as T'.
    { apply wal_tiles_app. rewrite <- Lp. split; [done|]. cbn. split_and!; [done|lia|lia]. }
    split; [done|]. intros l Hl.
    rewrite (bytes_at_app _ _ _ _ _ T'), (bytes_at_app _ _ _ _ _ T). rewrite <- Lp.
    destruct (decide (l < b)) as [Q|Q]; [done|]. cbn. rewrite Ld.
    rewrite !(proj2 (N.ltb_lt _ _)) by lia. rewrite (proj2 (N.leb_le _ _)) by lia.
    unfold d. apply lookup_take_lt. lia.
Qed.

(** ** Writing *)

(** The bytes a list of chunks holds. *)
Definition chunk_bytes (chunks : list (list N)) : N := len (concat chunks).

Lemma insert_chunks_spec wal lo at_ chunks :
  wal_tiles lo (btree_iter wal) at_ → at_ + chunk_bytes chunks <= u64_MAX →
  ∃ new, btree_iter (insert_chunks wal at_ chunks) = btree_iter wal ++ new
    ∧ wal_bytes new = concat chunks
    ∧ wal_tiles lo (btree_iter wal ++ new) (at_ + chunk_bytes chunks).
Proof.
  unfold chunk_bytes. revert wal at_. induction chunks as [|c chunks IH]; intros wal at_ T B; cbn in *.
  - exists []. rewrite app_nil_r, len_nil, N.add_0_r. done.
  - rewrite len_app in B. rewrite u64_add_small by lia.
    destruct (N.ltb_spec 0 (len c)) as [P|P].
    + assert (btree_iter (<[at_ := c]> wal) = btree_iter wal ++ [(at_, c)]) as E.
      { apply btree_iter_insert_last. intros b d I%elem_of_btree_iter. apply key_lt_N.
        destruct (wal_tiles_elem _ _ _ _ _ T I). lia. }
      pose proof (wal_tiles_le _ _ _ T) as Le.
      destruct (IH (<[at_ := c]> wal) (at_ + len c)) as (new & En & Bn & Tn); [|lia|].
      { rewrite E. apply wal_tiles_app. rewrite <- Le. split; [done|]. cbn. done. }
      exists ((at_, c) :: new). rewrite En, E, <- app_assoc. split; [done|].
      unfold wal_bytes in *. cbn. rewrite Bn. split; [done|].
      rewrite len_app, N.add_assoc. rewrite E, <- app_assoc in Tn. done.
    + assert (c = []) as -> by (destruct c; [done|rewrite len_cons in P; lia]).
      destruct (IH wal at_ T) as (new & En & Bn & Tn); [rewrite len_nil in B; lia|].
      rewrite len_nil, N.add_0_r. by exists new.
Qed.

(** Skipping a prefix of the chunks. *)
Lemma skip_chunks_spec wal n : concat (skip_chunks wal n) = drop (N.to_nat n) (concat wal).
Proof.
  revert n. induction wal as [|c wal IH]; intros n; cbn [skip_chunks concat].
  - by rewrite drop_nil.
  - destruct (N.leb_spec (len c) n) as [L|L].
    + rewrite IH, drop_app_ge by (unfold len in L; lia). f_equal. unfold len. lia.
    + cbn. rewrite IH, drop_app_le by (unfold len in L; lia). done.
Qed.

(** ** Trimming *)

Lemma keep_from_spec wal lo hi from :
  wal_tiles lo (btree_iter wal) hi →
  (∃ pre post, btree_iter wal = pre ++ post ∧ wal_tiles lo pre from ∧ wal_tiles from post hi) →
  wal_tiles from (btree_iter (keep_from wal from)) hi
  ∧ ∀ l, from <= l → bytes_at (btree_iter (keep_from wal from)) l = bytes_at (btree_iter wal) l.
Proof.
  intros T (pre & post & E & T1 & T2). unfold keep_from. rewrite btree_iter_filter, E, filter_app.
  rewrite filter_none, filter_all; cbn.
  - split; [done|]. intros l Hl. rewrite E in T. rewrite (bytes_at_app _ _ _ _ _ T).
    apply wal_tiles_le in T1. by rewrite decide_False by lia.
  - intros [b c] I. destruct (wal_tiles_elem _ _ _ _ _ T2 I). cbn. lia.
  - intros [b c] I. destruct (wal_tiles_elem _ _ _ _ _ T1 I). cbn. lia.
Qed.

Lemma filter_leb_split lo pre b c post hi bound :
  wal_tiles lo (pre ++ (b, c) :: post) hi → b <= bound < b + len c →
  filter (λ e, key_leb e.1 bound = true) (pre ++ (b, c) :: post) = pre ++ [(b, c)].
Proof.
  intros (T1 & P & T2)%wal_tiles_middle H. rewrite filter_app. f_equal.
  - apply filter_all. intros [b' c'] I. destruct (wal_tiles_elem _ _ _ _ _ T1 I).
    apply N.leb_le. cbn. lia.
  - rewrite filter_cons_True by (apply N.leb_le; cbn; lia). f_equal. apply filter_none.
    intros [b' c'] I Q%N.leb_le. destruct (wal_tiles_elem _ _ _ _ _ T2 I). cbn in Q. lia.
Qed.

(** The chunk a trim keeps from: the one that holds the bound, or the end. *)
Definition trim_from (wal : gmap N (list N)) (bound : N) : N :=
  match btree_last_le wal bound with
  | Some (b, c) => if bound <? u64_add b (len c) then b else bound
  | None => bound
  end.

Lemma trim_from_spec wal lo hi bound :
  wal_tiles lo (btree_iter wal) hi → lo <= bound <= hi → hi <= u64_MAX →
  trim_from wal bound <= bound
  ∧ ∃ pre post, btree_iter wal = pre ++ post ∧ wal_tiles lo pre (trim_from wal bound)
      ∧ wal_tiles (trim_from wal bound) post hi.
Proof.
  intros T H M. unfold trim_from, btree_last_le.
  destruct (decide (bound = hi)) as [->|D].
  - assert (∀ x, last (filter (λ e, key_leb e.1 hi = true) (btree_iter wal)) = Some x →
              u64_add x.1 (len x.2) <= hi) as F.
    { intros [b c] E%last_Some_elem_of. apply list_elem_of_filter in E as [_ I].
      destruct (wal_tiles_elem _ _ _ _ _ T I) as (? & ? & ?). cbn. rewrite u64_add_small; lia. }
    destruct (last _) as [[b c]|].
    + specialize (F _ eq_refl). cbn in F. rewrite (proj2 (N.ltb_ge _ _)) by lia.
      split; [done|]. exists (btree_iter wal), []. rewrite app_nil_r. done.
    + split; [done|]. exists (btree_iter wal), []. rewrite app_nil_r. done.
  - destruct (wal_tiles_split _ _ _ (bound + 1) T ltac:(lia)) as (pre & b & c & post & E & Hb).
    rewrite E in T |- *. rewrite (filter_leb_split _ _ _ _ _ _ bound T) by lia. rewrite last_snoc.
    pose proof (wal_tiles_middle _ _ _ _ _ _ T) as (T1 & P & T2).
    pose proof (wal_tiles_le _ _ _ T2). rewrite u64_add_small by lia.
    rewrite (proj2 (N.ltb_lt _ _)) by lia. split; [lia|].
    exists pre, ((b, c) :: post). split_and!; [done|done|]. cbn. done.
Qed.

(** ** Reading *)

(** Pieces that follow one another from [at_]. *)
Fixpoint pieces (at_ : N) (out : Chunks) : Prop :=
  match out with
  | [] => True
  | (b, c) :: out => b = at_ ∧ pieces (at_ + len c) out
  end.

Lemma pieces_snoc at_ out c :
  pieces at_ out → pieces at_ (out ++ [(at_ + len (wal_bytes out), c)]).
Proof.
  unfold wal_bytes. revert at_. induction out as [|[b d] out IH]; intros at_; cbn.
  - rewrite len_nil. split; [lia|done].
  - intros [-> P]. split; [done|]. rewrite len_app, N.add_assoc. by apply IH.
Qed.

(** What is read from position [at_] of a tiling that starts at or before it. *)
Definition window (lo : N) (cs : Chunks) (at_ budget : N) : list N :=
  take (N.to_nat budget) (drop (N.to_nat (at_ - lo)) (wal_bytes cs)).

Lemma read_loop_spec lo cs hi at_ budget out from :
  wal_tiles lo cs hi → lo <= at_ → hi <= u64_MAX → budget <= u64_MAX →
  pieces from out → at_ = from + len (wal_bytes out) →
  ∃ out', read_loop hi cs at_ budget out = Ok out'
    ∧ pieces from out' ∧ wal_bytes out' = wal_bytes out ++ window lo cs at_ budget.
Proof.
  revert lo at_ budget out. induction cs as [|[b c] cs IH]; intros lo at_ budget out T L M Bm P A.
  - exists out. split_and!; [done|done|]. unfold window, wal_bytes. cbn.
    by rewrite drop_nil, take_nil, app_nil_r.
  - destruct T as (-> & Pc & T). pose proof (wal_tiles_le _ _ _ T) as Le. cbn [read_loop].
    destruct (N.eqb_spec budget 0) as [->|B0].
    { exists out. split_and!; [done|done|]. unfold window. cbn. by rewrite app_nil_r. }
    destruct (N.leb_spec hi at_) as [E|E]; cbn [orb].
    { exists out. split_and!; [done|done|]. unfold window. rewrite drop_ge, take_nil, app_nil_r; [done|].
      assert (hi = lo + len (wal_bytes ((lo, c) :: cs))) as Q.
      { apply wal_tiles_le. cbn. done. } unfold len in Q. lia. }
    cbv zeta. rewrite u64_add_small by lia. rewrite (N.min_l (lo + len c) hi) by lia.
    destruct (N.leb_spec (lo + len c) at_) as [Q|Q].
    { destruct (IH _ at_ budget out T ltac:(lia) M Bm P A) as (out' & -> & P' & W).
      exists out'. split_and!; [done|done|]. rewrite W. f_equal. unfold window, wal_bytes. cbn.
      rewrite (drop_app_ge c) by (unfold len in *; lia). do 2 f_equal. unfold len. lia. }
    rewrite (proj2 (N.ltb_ge _ _)) by lia. rewrite !u64_sub_small by lia.
    replace (lo + len c - lo) with (len c) by lia.
    set (i := at_ - lo). set (j := N.min (len c) (u64_saturating_add i budget)).
    assert (j = N.min (len c) (i + budget)) as J.
    { unfold j, i, u64_saturating_add. lia. }
    assert (i < j) as Ij by (unfold i in *; lia).
    rewrite u64_add_small by lia.
    rewrite (u64_sub_small j i), (u64_sub_small budget (j - i)) by lia.
    set (piece := take (N.to_nat (j - i)) (drop (N.to_nat i) c)).
    assert (len piece = j - i) as Lp.
    { unfold piece, len. rewrite length_take, length_drop. unfold len in J. lia. }
    assert (wal_bytes (out ++ [(at_, piece)]) = wal_bytes out ++ piece) as Wp.
    { unfold wal_bytes. rewrite fmap_app, concat_app. cbn. by rewrite app_nil_r. }
    destruct (decide (j = len c)) as [Jc|Jc].
    + destruct (IH (lo + len c) (lo + j) (budget - (j - i)) (out ++ [(at_, piece)]) T)
        as (out' & -> & P' & W); [lia|done|lia| | |].
      { subst at_. by apply pieces_snoc. }
      { rewrite Wp, len_app, Lp. unfold i in *. lia. }
      exists out'. split_and!; [done|done|]. rewrite W, Wp, <- app_assoc. f_equal.
      unfold window, wal_bytes. cbn. fold (wal_bytes cs).
      replace (lo + j - (lo + len c)) with 0 by lia. cbn [drop N.to_nat].
      assert (N.to_nat i < length c)%nat as Ic by (unfold len in Jc; lia).
      rewrite drop_app_le by (fold i; lia). fold i. unfold piece.
      rewrite (take_ge (drop (N.to_nat i) c)) by (rewrite length_drop; unfold len in Jc; lia).
      rewrite take_app_ge by (rewrite length_drop; unfold len in *; lia). f_equal. f_equal.
      rewrite length_drop. unfold len in *. lia.
    + assert (j = i + budget) as Je by lia.
      replace (budget - (j - i)) with 0 by lia.
      assert (read_loop hi cs (lo + j) 0 (out ++ [(at_, piece)]) = Ok (out ++ [(at_, piece)])) as ->.
      { destruct cs as [|[b' c'] cs]; [done|]. done. }
      eexists. split_and!; [done| |].
      { subst at_. by apply pieces_snoc. }
      rewrite Wp. f_equal. unfold window, wal_bytes. cbn. fold (wal_bytes cs).
      rewrite drop_app_le by (unfold i, len in *; lia).
      rewrite take_app_le by (rewrite length_drop; unfold i, len in *; lia).
      unfold piece. f_equal. lia.
Qed.
