(* ===== verification/SkStoreInv.v ===== *)
(** * The WAL store keeps what was committed

    The invariant of a timeline, that every call of the store preserves it, and what each call
    does to the stored bytes.  The last part has an accepted append in one
    equation, and from it: one write for a run of requests is the same as a write per request, and a
    write that is repeated changes nothing. *)

From Stdlib Require Import NArith Lia.
From stdpp Require Import prelude gmap strings numbers list.
From S2P Require Import Prelude.
From S2P Require Import BTree.
From S2P Require Import ByteCodec.
From S2P Require Import SkTypes.
From S2P Require Import SkStore.
From S2P Require Import SkWal.

Open Scope N_scope.

(** The byte a timeline stores at an LSN. *)
Definition byte_at (t : MemTimeline) (l : Lsn) : option N := bytes_at (btree_iter t.(tl_wal)) l.

Record head_ok (h : AcceptorState) : Prop := {
  ho_start : h.(timeline_start_lsn) <= h.(commit_lsn);
  ho_trimmed : h.(trimmed_lsn) <= h.(commit_lsn);
  ho_commit : h.(commit_lsn) <= h.(flush_lsn);
  ho_max : h.(flush_lsn) <= u64_MAX;
  ho_fresh : h.(flush_lsn) = INVALID →
    h.(term_history) = [] ∧ h.(local_start_lsn) = INVALID;
  ho_begun : h.(timeline_start_lsn) = INVALID → h.(flush_lsn) = INVALID;
}.

Record timeline_ok (t : MemTimeline) : Prop := {
  to_head : head_ok t.(tl_head);
  to_tiles : ∃ lo, lo <= t.(tl_head).(trimmed_lsn)
    ∧ wal_tiles lo (btree_iter t.(tl_wal)) t.(tl_head).(flush_lsn);
}.

Lemma head_ok_end h : head_ok h → wal_end h = h.(flush_lsn).
Proof. intros [? ? ? ? ? ?]. unfold wal_end. lia. Qed.

(** A fresh timeline. *)
Lemma timeline_new_ok srv start :
  start <= u64_MAX → timeline_ok {| tl_head := AcceptorState_new srv start; tl_wal := ∅ |}.
Proof.
  intros L. split; [by split; cbn|]. exists start. split; [done|]. cbn [tl_wal].
  by rewrite btree_iter_empty.
Qed.

(** Between the trim point and the end every byte is there. *)
Lemma stored_bytes t l :
  timeline_ok t → t.(tl_head).(trimmed_lsn) <= l < t.(tl_head).(flush_lsn) →
  is_Some (byte_at t l).
Proof. intros [_ (lo & L & T)] H. apply (bytes_at_is_Some _ _ _ _ T). lia. Qed.

(** ** The calls *)

Inductive StoreOp :=
  | OpMeta (srv : ServerInfo) (conf : option Configuration)
  | OpVote (t : Term)
  | OpElected (msg : ProposerElected)
  | OpAppend (b : AppendBatch)
  | OpCommit (t : Term) (l : Lsn)
  | OpBackup (l : Lsn)
  | OpRemote (l : Lsn)
  | OpTrim (l : Lsn).

(** The timeline a call leaves; a call that fails leaves it as it was. *)
Definition after {A} (t : MemTimeline) (r : Result (MemTimeline * A) SkErr) : MemTimeline :=
  match r with Ok (t', _) => t' | Err _ => t end.

Definition tl_step (t : MemTimeline) (op : StoreOp) : MemTimeline :=
  match op with
  | OpMeta srv conf => (tl_update_meta t srv conf).1
  | OpVote v => (tl_vote t v).1
  | OpElected msg => after t (tl_elected t msg)
  | OpAppend b => after t (tl_append t b)
  | OpCommit v l => after t (tl_record_commit t v l)
  | OpBackup l => tl_record_backup t l
  | OpRemote l => tl_record_remote t l
  | OpTrim l => (tl_trim t l).1
  end.

(** Positions are LSNs and a batch fits in memory. *)
Definition batch_fits (b : AppendBatch) : Prop := chunk_bytes b.(ab_wal) <= u64_MAX.

(** What the acceptor and an honest proposer respect: an elected proposer starts at a valid LSN
    and not above the stored WAL, batches carry WAL, and WAL arrives after an election. *)
Definition valid_op (t : MemTimeline) (op : StoreOp) : Prop :=
  match op with
  | OpElected msg =>
      0 < msg.(pe_start_streaming_at) <= u64_MAX
      ∧ (t.(tl_head).(flush_lsn) = INVALID
         ∨ msg.(pe_start_streaming_at) <= t.(tl_head).(flush_lsn))
  | OpAppend b =>
      batch_fits b ∧ 0 < chunk_bytes b.(ab_wal) ∧ t.(tl_head).(flush_lsn) ≠ INVALID
  | _ => True
  end.

(** ** Electing *)

Lemma apply_elected_cases h msg h' r :
  apply_elected h msg = Ok (h', r) →
  (h' = h ∧ r = Err {| current := h.(term) |} ∧ msg.(pe_term) < h.(term))
  ∨ (h' = elected_state (set_term h msg.(pe_term)) msg ∧ r = Ok msg.(pe_start_streaming_at)
     ∧ h.(term) <= msg.(pe_term) ∧ h.(commit_lsn) <= msg.(pe_start_streaming_at)
     ∧ (h.(term_history) = [] →
        ∃ e, head msg.(pe_term_history) = Some e ∧ e.(tl_lsn) = msg.(pe_start_streaming_at))).
Proof.
  unfold apply_elected. destruct (N.ltb_spec (pe_term msg) (term h)) as [L|L].
  { intros [= <- <-]. by left. }
  cbv zeta. destruct (find_highest_common_point _ _ _) as [lcp|] eqn:F; [|done].
  destruct (match lcp with Some p => _ | None => _ end) as [p|] eqn:P; [|done].
  destruct (N.eqb_spec (tl_lsn p) (pe_start_streaming_at msg)) as [E|]; [|done]. cbn [negb].
  cbn [set_term commit_lsn].
  destruct (N.ltb_spec (pe_start_streaming_at msg) (commit_lsn h)) as [|C]; [done|].
  intros [= <- <-]. right. split_and!; try done. intros Eh.
  assert (lcp = None) as ->.
  { unfold stored_term_history in F. cbn in F. rewrite Eh in F. cbn in F. congruence. }
  destruct (head (pe_term_history msg)) as [e|]; [|done]. injection P as ->. by exists p.
Qed.

Lemma tl_elected_ok t msg t' r :
  timeline_ok t → valid_op t (OpElected msg) → tl_elected t msg = Ok (t', r) →
  timeline_ok t'
  ∧ (∀ l, l < t.(tl_head).(commit_lsn) → byte_at t' l = byte_at t l)
  ∧ t.(tl_head).(commit_lsn) <= t'.(tl_head).(commit_lsn)
  ∧ t.(tl_head).(trimmed_lsn) <= t'.(tl_head).(trimmed_lsn).
Proof.
  intros [H (lo & Lo & T)] V. unfold tl_elected.
  destruct (apply_elected (tl_head t) msg) as [[h' [at_|d]]|] eqn:A; [| |done];
    apply apply_elected_cases in A as [(-> & Q & _)|(-> & Q & Lt & Lc & Fr)]; simplify_eq.
  2: { intros [= <- <-]. split_and!; try done. split; [done|by exists lo]. }
  intros [= <- <-]. destruct V as [V1 V2]. destruct H as [H1 H2 H3 H4 H5 H6].
  destruct (decide (flush_lsn (tl_head t) = INVALID)) as [Z|Z].
  - destruct (H5 Z) as [Eh Eo]. destruct (Fr Eh) as (e & Ee & El). unfold INVALID in *.
    assert (btree_iter (tl_wal t) = []) as Ew.
    { rewrite Z in T. destruct (btree_iter (tl_wal t)) as [|[b c] cs]; [done|]. exfalso.
      destruct T as (-> & P & T). apply wal_tiles_le in T. lia. }
    assert (timeline_start_lsn (tl_head t) = 0 ∧ commit_lsn (tl_head t) = 0
            ∧ trimmed_lsn (tl_head t) = 0) as (E1 & E2 & E3) by lia.
    assert (elected_state (set_term (tl_head t) (pe_term msg)) msg
            = elected_state (set_term (tl_head t) (pe_term msg)) msg) as Q by done.
    unfold elected_state in Q at 1. cbn in Q. rewrite Z, Eo, E1, E2, E3, Ee, El in Q. cbn in Q.
    rewrite <- Q. split_and!; cbn; [|lia|lia|lia]. split; cbn.
    + split; cbn; unfold INVALID in *; lia.
    + exists (pe_start_streaming_at msg). split; [lia|].
      unfold truncate, keep_below, btree_last. rewrite btree_iter_filter, Ew. cbn.
      by rewrite btree_iter_filter, Ew.
  - destruct V2 as [?|V2]; [done|]. unfold INVALID in *.
    assert (timeline_start_lsn (tl_head t) ≠ 0) as Zs by (intros E; by apply Z, H6).
    apply N.eqb_neq in Z as Zb. apply N.eqb_neq in Zs as Zsb.
    destruct (truncate_spec (tl_wal t) (pe_start_streaming_at msg) lo _ T V2 H4) as [T' By].
    unfold elected_state. cbn. unfold INVALID. rewrite Zb, Zsb. cbn. split_and!; try lia.
    + split; cbn; [split; cbn; unfold INVALID; lia|].
      exists (N.min lo (pe_start_streaming_at msg)). split; [lia|done].
    + intros l Hl. apply By. lia.
Qed.

(** ** Appending *)

Lemma batch_len_eq b : batch_fits b → batch_len b = chunk_bytes b.(ab_wal).
Proof.
  unfold batch_fits, batch_len, chunk_bytes. intros F.
  assert (∀ (wal : list (list N)) n, n + len (concat wal) <= u64_MAX →
            foldl (λ n c, u64_add n (len c)) n wal = n + len (concat wal)) as G.
  { induction wal as [|c wal IH]; intros n B; cbn in *.
    - rewrite len_nil. lia.
    - rewrite len_app in *. rewrite u64_add_small by lia. rewrite IH by lia. lia. }
  rewrite G; lia.
Qed.

Lemma batch_is_empty_spec b : batch_is_empty b = true ↔ chunk_bytes b.(ab_wal) = 0.
Proof.
  unfold batch_is_empty, chunk_bytes. induction (ab_wal b) as [|c wal IH]; cbn.
  - by rewrite len_nil.
  - rewrite andb_true_iff, IH, bool_decide_eq_true, len_app. split.
    + intros [-> ?]. rewrite len_nil. lia.
    + intros E. assert (len c = 0 ∧ len (concat wal) = 0) as [? ?] by lia.
      split; [|done]. destruct c; [done|rewrite len_cons in *; lia].
Qed.

(** The end of an accepted batch. *)
Definition batch_end (b : AppendBatch) : Lsn := b.(ab_begin_lsn) + chunk_bytes b.(ab_wal).

Lemma apply_append_cases h b h' r :
  batch_fits b → apply_append h b = Ok (h', r) →
  (h' = h ∧ r = Err {| current := h.(term) |} ∧ b.(ab_term) < h.(term))
  ∨ (∃ plan, h' = appended_state h b (batch_end b) ∧ r = Ok plan
     ∧ b.(ab_term) = h.(term) ∧ batch_end b <= u64_MAX
     ∧ append_plan h b (batch_end b) = Ok plan).
Proof.
  intros F. unfold apply_append. destruct (N.ltb_spec (ab_term b) (term h)) as [L|L].
  { intros [= <- <-]. by left. }
  destruct (N.ltb_spec (term h) (ab_term b)) as [|L']; [done|].
  unfold batch_end_lsn, lsn_checked_add, u64_checked_add. rewrite (batch_len_eq b F).
  fold (batch_end b). destruct (N.leb_spec (batch_end b) u64_MAX) as [M|]; [|done]. cbn [ok_or].
  destruct (append_plan h b (batch_end b)) as [plan|] eqn:P; [|done].
  intros [= <- <-]. right. exists plan. split_and!; try done. lia.
Qed.

(** What an accepted batch writes: nothing, or its bytes from the stored end on. *)
Lemma plan_writes h b plan :
  batch_fits b → 0 < chunk_bytes b.(ab_wal) → h.(flush_lsn) ≠ INVALID → h.(flush_lsn) <= u64_MAX →
  append_plan h b (batch_end b) = Ok plan →
  (batch_end b <= h.(flush_lsn) ∧ concat (remaining_chunks b plan) = [])
  ∨ (b.(ab_begin_lsn) <= h.(flush_lsn) < batch_end b ∧ plan.(write_from) = h.(flush_lsn)
     ∧ concat (remaining_chunks b plan)
       = drop (N.to_nat (h.(flush_lsn) - b.(ab_begin_lsn))) (concat b.(ab_wal))).
Proof.
  intros F Ne Z M. unfold append_plan, remaining_chunks. cbv zeta.
  destruct (batch_is_empty b) eqn:Em; cbn [orb].
  { apply batch_is_empty_spec in Em. lia. }
  destruct (N.leb_spec (batch_end b) (flush_lsn h)) as [L|L].
  { intros [= <-]. cbn. rewrite skip_chunks_spec, batch_len_eq by done. left.
    split; [done|]. apply drop_ge. unfold chunk_bytes, len. lia. }
  intros H. right. destruct (N.ltb_spec (ab_begin_lsn b) (flush_lsn h)) as [L'|L'].
  - injection H as <-. cbn. rewrite skip_chunks_spec, u64_sub_small by lia.
    split_and!; try done. lia.
  - rewrite (proj2 (N.eqb_neq _ _) Z), andb_true_r in H.
    destruct (N.ltb_spec (flush_lsn h) (ab_begin_lsn b)) as [|L'']; [done|].
    injection H as <-. cbn. rewrite skip_chunks_spec.
    assert (ab_begin_lsn b = flush_lsn h) as -> by lia. split_and!; [lia|lia|done|].
    by rewrite N.sub_diag.
Qed.

Lemma appended_head_ok h b :
  head_ok h → h.(flush_lsn) ≠ INVALID → batch_end b <= u64_MAX →
  head_ok (appended_state h b (batch_end b)).
Proof.
  intros [H1 H2 H3 H4 H5 H6] Z M. unfold appended_state. unfold INVALID in *.
  destruct (N.eqb_spec (ab_commit_lsn b) 0); cbn [negb];
    split; cbn; unfold INVALID in *; try lia; intros; exfalso; lia.
Qed.

(** Chunks without bytes write nothing. *)
Lemma insert_chunks_nothing wal at_ chunks :
  concat chunks = [] → at_ <= u64_MAX → insert_chunks wal at_ chunks = wal.
Proof.
  induction chunks as [|c chunks IH]; cbn; [done|]. intros [-> E]%app_nil M. cbn.
  rewrite u64_add_small, N.add_0_r by (rewrite len_nil; lia). by apply IH.
Qed.

(** An append that is accepted leaves the stored bytes and adds the batch's bytes from the
    stored end on. *)
Lemma tl_append_ok t b t' h' :
  timeline_ok t → valid_op t (OpAppend b) → tl_append t b = Ok (t', Ok h') →
  timeline_ok t' ∧ h' = t'.(tl_head) ∧ b.(ab_term) = t.(tl_head).(term)
  ∧ t'.(tl_head) = appended_state t.(tl_head) b (batch_end b)
  ∧ (∀ l, l < t.(tl_head).(flush_lsn) → byte_at t' l = byte_at t l)
  ∧ (∀ l, t.(tl_head).(flush_lsn) <= l < batch_end b →
       b.(ab_begin_lsn) <= l
       ∧ byte_at t' l = concat b.(ab_wal) !! N.to_nat (l - b.(ab_begin_lsn))).
Proof.
  intros [H (lo & Lo & T)] (F & Ne & Z). unfold tl_append.
  destruct (apply_append (tl_head t) b) as [[h'' [plan|d]]|] eqn:A; [|done|done].
  intros [= <- <-].
  apply (apply_append_cases _ _ _ _ F) in A as [(_ & ? & _)|(plan' & -> & [= <-] & Et & M & P)];
    [done|].
  pose proof (appended_head_ok _ b H Z M) as H'. pose proof H as [H1 H2 H3 H4 H5 H6].
  pose proof (plan_writes _ _ _ F Ne Z H4 P) as W. unfold byte_at. cbn [tl_head tl_wal].
  destruct W as [(W1 & W2)|(W1 & W2 & W3)].
  - assert (insert_chunks (tl_wal t) (write_from plan) (remaining_chunks b plan) = tl_wal t) as ->.
    { apply insert_chunks_nothing; [done|]. unfold append_plan in P.
      rewrite (proj2 (N.leb_le _ _) W1), orb_true_r in P. injection P as <-. cbn. done. }
    split_and!; try done; [|lia]. split; [done|]. exists lo. cbn.
    rewrite N.max_l by lia. done.
  - rewrite W2. destruct (insert_chunks_spec (tl_wal t) lo _ (remaining_chunks b plan) T)
      as (new & E & Bn & Tn).
    { unfold chunk_bytes. rewrite W3. unfold len. rewrite length_drop.
      unfold batch_end, chunk_bytes, len in *. lia. }
    assert (flush_lsn (tl_head t) + chunk_bytes (remaining_chunks b plan) = batch_end b) as Ee.
    { unfold chunk_bytes. rewrite W3. unfold len. rewrite length_drop.
      unfold batch_end, chunk_bytes, len in *. lia. }
    rewrite Ee in Tn. pose proof (wal_tiles_le _ _ _ T) as Le. rewrite E.
    split_and!; try done.
    + split; [done|]. exists lo. cbn [tl_head tl_wal]. rewrite E. cbn. rewrite N.max_r by lia.
      split; [cbn; lia|done].
    + intros l Hl. rewrite (bytes_at_app _ _ _ _ _ Tn), <- Le. by rewrite decide_True by done.
    + intros l Hl. split; [lia|]. rewrite (bytes_at_app _ _ _ _ _ Tn), <- Le.
      rewrite decide_False by lia. apply wal_tiles_app in Tn as [_ Tn]. rewrite <- Le in Tn.
      rewrite (bytes_at_tiles _ _ _ _ Tn), decide_True by lia. rewrite Bn, W3, lookup_drop.
      f_equal. lia.
Qed.

(** ** The other calls *)

Lemma set_term_head_ok h v : head_ok h → head_ok (set_term h v).
Proof. intros [? ? ? ? ? ?]. by split. Qed.

Lemma tl_vote_head t v :
  (tl_vote t v).1 = {| tl_head := (apply_vote t.(tl_head) v).1; tl_wal := t.(tl_wal) |}.
Proof. unfold tl_vote. by destruct (apply_vote (tl_head t) v). Qed.

Lemma apply_vote_head_ok h v : head_ok h → head_ok (apply_vote h v).1.
Proof. intros H. unfold apply_vote. case_match; [by apply set_term_head_ok|done]. Qed.

Lemma tl_record_commit_ok t v l t' r :
  timeline_ok t → tl_record_commit t v l = Ok (t', r) →
  timeline_ok t' ∧ t'.(tl_wal) = t.(tl_wal)
  ∧ t'.(tl_head).(trimmed_lsn) = t.(tl_head).(trimmed_lsn)
  ∧ t.(tl_head).(commit_lsn) <= t'.(tl_head).(commit_lsn)
  ∧ t'.(tl_head).(term) = t.(tl_head).(term)
  ∧ t'.(tl_head).(flush_lsn) = t.(tl_head).(flush_lsn).
Proof.
  intros [H (lo & Lo & T)]. unfold tl_record_commit, apply_commit_lsn.
  destruct (N.ltb_spec v (term (tl_head t))).
  { intros [= <- <-]. split_and!; try done. split; [done|by exists lo]. }
  destruct (N.ltb_spec (term (tl_head t)) v); [done|].
  intros [= <- <-]. cbn. split_and!; try done; [|lia].
  rewrite (head_ok_end _ H). split; [|by exists lo]. destruct H as [? ? ? ? ? ?]. split; cbn; try done; lia.
Qed.

Lemma tl_trim_ok t l :
  timeline_ok t →
  timeline_ok (tl_trim t l).1
  ∧ t.(tl_head).(trimmed_lsn) <= (tl_trim t l).1.(tl_head).(trimmed_lsn)
  ∧ (∀ p, (tl_trim t l).1.(tl_head).(trimmed_lsn) <= p →
       byte_at (tl_trim t l).1 p = byte_at t p).
Proof.
  intros [H (lo & Lo & T)]. pose proof H as [H1 H2 H3 H4 H5 H6].
  unfold tl_trim. cbn [fst tl_head trimmed_lsn set_lsns]. unfold byte_at. cbn [tl_wal].
  fold (trim_from (tl_wal t) (trim_bound (tl_head t) l)).
  set (bound := trim_bound (tl_head t) l).
  assert (trimmed_lsn (tl_head t) <= bound <= commit_lsn (tl_head t)) as Bd
    by (unfold bound, trim_bound; lia).
  destruct (trim_from_spec (tl_wal t) lo _ bound T) as [Lf Sp]; [lia|done|].
  destruct (keep_from_spec (tl_wal t) lo _ (trim_from (tl_wal t) bound) T Sp) as [T' By].
  split_and!; [|lia|].
  - split; [split; cbn; try done; lia|]. exists (trim_from (tl_wal t) bound). done.
  - intros p Hp. apply By. lia.
Qed.

(** ** Every call *)

(** What a call keeps: the invariant, the committed bytes above the trim point, the commit
    position and the trim point. *)
Record keeps (t t' : MemTimeline) : Prop := {
  ke_ok : timeline_ok t';
  ke_bytes : ∀ l, t'.(tl_head).(trimmed_lsn) <= l < t.(tl_head).(commit_lsn) →
    byte_at t' l = byte_at t l;
  ke_commit : t.(tl_head).(commit_lsn) <= t'.(tl_head).(commit_lsn);
  ke_trimmed : t.(tl_head).(trimmed_lsn) <= t'.(tl_head).(trimmed_lsn);
  ke_term : t.(tl_head).(term) <= t'.(tl_head).(term);
}.

Lemma keeps_refl t : timeline_ok t → keeps t t.
Proof. intros H. by split. Qed.

Lemma keeps_trans t1 t2 t3 : keeps t1 t2 → keeps t2 t3 → keeps t1 t3.
Proof.
  intros [O1 B1 C1 M1 T1] [O2 B2 C2 M2 T2]. split; [done| |lia|lia|lia].
  intros l Hl. rewrite B2, B1 by lia. done.
Qed.

Lemma tl_step_keeps t op : timeline_ok t → valid_op t op → keeps t (tl_step t op).
Proof.
  intros Ok V. pose proof Ok as [H (lo & Lo & T)].
  destruct op as [srv conf|v|msg|b|v l|l|l|l]; cbn [tl_step].
  - split; try done. split; [|by exists lo]. destruct H as [? ? ? ? ? ?]. by split.
  - rewrite tl_vote_head. unfold apply_vote.
    destruct (N.ltb_spec (term (tl_head t)) v); split; cbn; try done; try lia.
    + split; [by apply set_term_head_ok|by exists lo].
    + split; [done|by exists lo].
  - destruct (tl_elected t msg) as [[t' r]|] eqn:E; [|by apply keeps_refl]. cbn.
    destruct (tl_elected_ok _ _ _ _ Ok V E) as (O & B & C & M). split; try done.
    + intros l Hl. apply B. lia.
    + unfold tl_elected in E. destruct (apply_elected (tl_head t) msg) as [[h' [at_|d]]|] eqn:A;
        [| |done]; injection E as <- _; cbn;
        apply apply_elected_cases in A as [(-> & _)|(-> & _ & L & _)]; cbn; lia.
  - destruct (tl_append t b) as [[t' [h'|d]]|] eqn:E; [| |by apply keeps_refl]; cbn.
    + destruct (tl_append_ok _ _ _ _ Ok V E) as (O & _ & _ & Eh & B & _).
      pose proof H as [? ? ? ? ? ?]. split; try done.
      * intros l Hl. apply B. lia.
      * rewrite Eh. unfold appended_state. destruct (ab_commit_lsn b =? INVALID); cbn; lia.
      * by rewrite Eh.
      * by rewrite Eh.
    + destruct V as [F _]. unfold tl_append in E.
      destruct (apply_append (tl_head t) b) as [[h' [p|d']]|] eqn:A; [done| |done].
      apply (apply_append_cases _ _ _ _ F) in A as [(-> & _)|(p & _ & ? & _)]; [|done].
      injection E as <- _. destruct t. by apply keeps_refl.
  - destruct (tl_record_commit t v l) as [[t' r]|] eqn:E; [|by apply keeps_refl]. cbn.
    destruct (tl_record_commit_ok _ _ _ _ _ Ok E) as (O & Ew & Et & Ec & Em & _).
    split; try done; rewrite ?Et, ?Em; try done. intros l' _. unfold byte_at. by rewrite Ew.
  - split; try done. split; [|by exists lo]. destruct H as [? ? ? ? ? ?]. by split.
  - split; try done. split; [|by exists lo]. destruct H as [? ? ? ? ? ?]. by split.
  - destruct (tl_trim_ok t l Ok) as (O & M & B). split; try done.
    intros p Hp. apply B. lia.
Qed.

(** Sequences of calls, each valid where it is made. *)
Fixpoint tl_run (t : MemTimeline) (ops : list StoreOp) : MemTimeline :=
  match ops with [] => t | op :: ops => tl_run (tl_step t op) ops end.

Fixpoint valid_run (t : MemTimeline) (ops : list StoreOp) : Prop :=
  match ops with [] => True | op :: ops => valid_op t op ∧ valid_run (tl_step t op) ops end.

Lemma tl_run_keeps t ops : timeline_ok t → valid_run t ops → keeps t (tl_run t ops).
Proof.
  revert t. induction ops as [|op ops IH]; intros t Ok V; cbn; [by apply keeps_refl|].
  destruct V as [V1 V2]. pose proof (tl_step_keeps t op Ok V1) as K.
  eapply keeps_trans; [exact K|]. apply IH; [by apply K|done].
Qed.

(** ** Reading *)

(** A read returns the stored bytes from [from] on, at most [max_bytes] of them, as pieces that
    follow one another; it meets no hole. *)
Lemma tl_read_ok t from max_bytes :
  timeline_ok t → t.(tl_head).(trimmed_lsn) <= from → max_bytes <= u64_MAX →
  ∃ out, tl_read t from max_bytes = Ok out ∧ pieces from out
    ∧ len (wal_bytes out) = N.min max_bytes (t.(tl_head).(flush_lsn) - from)
    ∧ ∀ i, i < len (wal_bytes out) →
        wal_bytes out !! N.to_nat i = byte_at t (from + i).
Proof.
  intros [H (lo & Lo & T)] Lf Mb. pose proof H as [_ _ _ M _ _].
  unfold tl_read, read_chunks. rewrite (proj2 (N.ltb_ge _ _)) by lia.
  destruct (read_loop_spec lo _ _ from max_bytes [] from T) as (out & -> & P & W);
    [lia|done|done|done|unfold wal_bytes; cbn; rewrite len_nil; lia|].
  exists out. pose proof (wal_tiles_le _ _ _ T) as Le.
  assert (wal_bytes out = window lo (btree_iter (tl_wal t)) from max_bytes) as W' by exact W.
  split_and!; [done|done| |].
  - rewrite W'. unfold window, len. rewrite length_take, length_drop. unfold len in Le. lia.
  - intros i Hi. rewrite W' in Hi |- *. unfold window in *.
    assert (i < max_bytes) as Im.
    { unfold len in Hi. rewrite length_take in Hi. lia. }
    rewrite lookup_take_lt by lia. rewrite lookup_drop. unfold byte_at.
    rewrite (bytes_at_tiles _ _ _ _ T), decide_True by lia. f_equal. lia.
Qed.

(** ** Terms *)

Lemma valid_run_app t ops1 ops2 :
  valid_run t (ops1 ++ ops2) ↔ valid_run t ops1 ∧ valid_run (tl_run t ops1) ops2.
Proof.
  revert t. induction ops1 as [|op ops1 IH]; intros t; cbn; [tauto|]. rewrite IH. tauto.
Qed.

Lemma tl_run_app t ops1 ops2 : tl_run t (ops1 ++ ops2) = tl_run (tl_run t ops1) ops2.
Proof. revert t. induction ops1 as [|op ops1 IH]; intros t; cbn; [done|]. apply IH. Qed.

(** No call, valid or not, takes a timeline back to an older term. *)
Lemma tl_step_term t op : t.(tl_head).(term) <= (tl_step t op).(tl_head).(term).
Proof.
  destruct op as [srv conf|v|msg|b|v l|l|l|l]; cbn; try done.
  - rewrite tl_vote_head. unfold apply_vote. cbn.
    destruct (N.ltb_spec (term (tl_head t)) v); cbn; lia.
  - unfold tl_elected. destruct (apply_elected (tl_head t) msg) as [[h r]|] eqn:A; [|done].
    apply apply_elected_cases in A as [(-> & -> & L)|(-> & -> & L & _)]; cbn; lia.
  - unfold tl_append, apply_append. repeat case_match; simplify_eq/=; done.
  - unfold tl_record_commit, apply_commit_lsn. repeat case_match; simplify_eq/=; done.
Qed.

Lemma tl_run_term t ops : t.(tl_head).(term) <= (tl_run t ops).(tl_head).(term).
Proof.
  revert t. induction ops as [|op ops IH]; intros t; cbn; [done|].
  etransitivity; [apply (tl_step_term t op)|apply IH].
Qed.

(** ** An accepted append *)

Definition fits_after (t : MemTimeline) (b : AppendBatch) : Prop :=
  chunk_bytes b.(ab_wal) = 0 ∨ b.(ab_begin_lsn) <= t.(tl_head).(flush_lsn)
  ∨ t.(tl_head).(flush_lsn) = INVALID.

(** The WAL with the bytes of the batch that lie above [flush]. *)
Definition written (wal : gmap N Bytes) (flush begin_ : Lsn) (chunks : list Bytes) : gmap N Bytes :=
  insert_chunks wal (N.max begin_ flush) (skip_chunks chunks (flush - begin_)).

Lemma written_nothing wal flush begin_ chunks :
  begin_ + chunk_bytes chunks <= flush ∨ chunk_bytes chunks = 0 →
  N.max begin_ flush <= u64_MAX → written wal flush begin_ chunks = wal.
Proof.
  intros L M. apply insert_chunks_nothing; [|done]. rewrite skip_chunks_spec. apply drop_ge.
  unfold chunk_bytes, len in L. lia.
Qed.

Lemma append_plan_written t b plan :
  batch_fits b → t.(tl_head).(flush_lsn) <= u64_MAX → batch_end b <= u64_MAX →
  append_plan t.(tl_head) b (batch_end b) = Ok plan →
  fits_after t b
  ∧ insert_chunks t.(tl_wal) plan.(write_from) (remaining_chunks b plan)
    = written t.(tl_wal) t.(tl_head).(flush_lsn) b.(ab_begin_lsn) b.(ab_wal).
Proof.
  intros F M Me. unfold append_plan, remaining_chunks, fits_after. cbv zeta.
  destruct (batch_is_empty b || _) eqn:C.
  { intros [= <-]. cbn. rewrite insert_chunks_nothing; [|rewrite skip_chunks_spec|done].
    2: { apply drop_ge. rewrite batch_len_eq by done. unfold chunk_bytes, len. lia. }
    apply orb_true_iff in C. unfold batch_end in *.
    assert (chunk_bytes (ab_wal b) = 0
            ∨ ab_begin_lsn b + chunk_bytes (ab_wal b) <= flush_lsn (tl_head t)) as D.
    { destruct C as [C|C]; [left; by apply batch_is_empty_spec|right; by apply N.leb_le]. }
    split; [lia|]. symmetry. apply written_nothing; lia. }
  apply orb_false_iff in C as [_ C]. apply N.leb_gt in C.
  destruct (N.ltb_spec (ab_begin_lsn b) (flush_lsn (tl_head t))) as [L|L].
  { intros [= <-]. cbn. rewrite u64_sub_small by lia. split; [lia|].
    unfold written. by rewrite N.max_r by lia. }
  destruct (N.ltb_spec (flush_lsn (tl_head t)) (ab_begin_lsn b)) as [G|G]; cbn [andb].
  - destruct (N.eqb_spec (flush_lsn (tl_head t)) INVALID) as [Z|]; cbn [negb]; [|done].
    intros [= <-]. split; [by auto|]. unfold written. cbn [write_from skip].
    rewrite N.max_l by lia. do 2 f_equal. lia.
  - intros [= <-]. split; [lia|]. unfold written. cbn [write_from skip].
    rewrite N.max_l by lia. do 2 f_equal. lia.
Qed.

Lemma append_plan_total t b :
  batch_fits b → fits_after t b → ∃ plan, append_plan t.(tl_head) b (batch_end b) = Ok plan.
Proof.
  intros F A. unfold append_plan. destruct (batch_is_empty b || _) eqn:C; [by eexists|].
  apply orb_false_iff in C as [C _].
  destruct (N.ltb_spec (ab_begin_lsn b) (flush_lsn (tl_head t))) as [L|L]; [by eexists|].
  destruct A as [A|[A|A]].
  - apply batch_is_empty_spec in A. congruence.
  - rewrite (proj2 (N.ltb_ge _ _)) by lia. by eexists.
  - rewrite A, N.eqb_refl, andb_false_r. by eexists.
Qed.

(** When an append is accepted and what it leaves. *)
Lemma tl_append_iff t b t' h' :
  batch_fits b → t.(tl_head).(flush_lsn) <= u64_MAX →
  tl_append t b = Ok (t', Ok h') ↔
    b.(ab_term) = t.(tl_head).(term) ∧ batch_end b <= u64_MAX ∧ fits_after t b
    ∧ t' = {| tl_head := appended_state t.(tl_head) b (batch_end b);
              tl_wal := written t.(tl_wal) t.(tl_head).(flush_lsn) b.(ab_begin_lsn) b.(ab_wal) |}
    ∧ h' = t'.(tl_head).
Proof.
  intros F M. split.
  - unfold tl_append. destruct (apply_append (tl_head t) b) as [[h'' [plan|d]]|] eqn:A; [|done|done].
    apply (apply_append_cases _ _ _ _ F) in A as [(_ & ? & _)|(plan' & -> & [= <-] & Et & Me & P)];
      [done|].
    destruct (append_plan_written _ _ _ F M Me P) as [Fa W]. rewrite W. by intros [= <- <-].
  - intros (Et & Me & Fa & -> & ->). destruct (append_plan_total _ _ F Fa) as [plan P].
    destruct (append_plan_written _ _ _ F M Me P) as [_ W].
    unfold tl_append, apply_append. rewrite Et, N.ltb_irrefl.
    unfold batch_end_lsn, lsn_checked_add, u64_checked_add. rewrite (batch_len_eq b F).
    fold (batch_end b). rewrite (proj2 (N.leb_le _ _) Me). cbn [ok_or]. by rewrite P, W.
Qed.

(** ** One write or many *)

Definition single (b : AppendBatch) (begin_ : Lsn) (chunks : list Bytes) : AppendBatch := {|
  ab_term := b.(ab_term);
  ab_begin_lsn := begin_;
  ab_wal := chunks;
  ab_commit_lsn := b.(ab_commit_lsn);
  ab_truncate_lsn := b.(ab_truncate_lsn);
|}.

Lemma skip_chunks_cons c cs n : skip_chunks (c :: cs) n = skip_chunks [c] n ++ skip_chunks cs (n - len c).
Proof.
  cbn. destruct (N.leb_spec (len c) n); [done|]. cbn. do 2 f_equal. lia.
Qed.

Lemma insert_chunks_app wal at_ l r :
  at_ + chunk_bytes l <= u64_MAX →
  insert_chunks wal at_ (l ++ r) = insert_chunks (insert_chunks wal at_ l) (at_ + chunk_bytes l) r.
Proof.
  unfold chunk_bytes. revert wal at_. induction l as [|c l IH]; intros wal at_ M; cbn in *.
  - by rewrite len_nil, N.add_0_r.
  - rewrite len_app in *. rewrite u64_add_small by lia. rewrite IH by lia. by rewrite N.add_assoc.
Qed.

Lemma written_cons wal flush begin_ c cs :
  begin_ + len c <= u64_MAX → flush <= u64_MAX →
  written wal flush begin_ (c :: cs)
  = written (written wal flush begin_ [c]) (N.max flush (begin_ + len c)) (begin_ + len c) cs.
Proof.
  intros M Mf. unfold written. rewrite skip_chunks_cons.
  assert (chunk_bytes (skip_chunks [c] (flush - begin_)) = len c - (flush - begin_)) as E.
  { unfold chunk_bytes. rewrite skip_chunks_spec. cbn. rewrite app_nil_r. unfold len.
    rewrite length_drop. lia. }
  rewrite insert_chunks_app by (rewrite E; lia). rewrite E. f_equal; [lia|]. f_equal. lia.
Qed.

Lemma appended_state_twice h b begin1 begin2 cs1 cs2 e1 e2 :
  e1 <= e2 →
  appended_state (appended_state h (single b begin1 cs1) e1) (single b begin2 cs2) e2
  = appended_state h b e2.
Proof.
  intros L. unfold appended_state. cbn [single ab_commit_lsn ab_truncate_lsn].
  destruct (negb _); unfold set_lsns; cbn; f_equal; lia.
Qed.

(** The first chunk by itself, then the others. *)
Lemma tl_append_cons t b begin_ c cs t' h' :
  chunk_bytes (c :: cs) <= u64_MAX → t.(tl_head).(flush_lsn) <= u64_MAX →
  tl_append t (single b begin_ (c :: cs)) = Ok (t', Ok h') →
  ∃ t1 h1, tl_append t (single b begin_ [c]) = Ok (t1, Ok h1)
    ∧ t1.(tl_head).(flush_lsn) <= u64_MAX
    ∧ tl_append t1 (single b (begin_ + len c) cs) = Ok (t', Ok h').
Proof.
  intros F M E. unfold chunk_bytes in F. cbn in F. rewrite len_app in F.
  apply tl_append_iff in E as (Et & Me & Fa & -> & ->); [|unfold batch_fits, chunk_bytes; cbn; rewrite len_app; lia|done].
  unfold fits_after, batch_end, chunk_bytes in *. cbn in Et, Me, Fa. rewrite len_app in Me, Fa.
  assert (len (concat [c]) = len c) as Lc by (cbn; by rewrite app_nil_r).
  eexists _, _. split_and!.
  - apply tl_append_iff; [unfold batch_fits, chunk_bytes; cbn [ab_wal single]; rewrite Lc; lia|done|].
    unfold fits_after, batch_end, chunk_bytes. cbn [ab_wal ab_begin_lsn ab_term single].
    rewrite Lc. split_and!; [done|lia|lia|done|done].
  - cbn. lia.
  - apply tl_append_iff; [unfold batch_fits, chunk_bytes; cbn [ab_wal single]; lia|cbn; lia|].
    unfold fits_after, batch_end, chunk_bytes. cbn [ab_wal ab_begin_lsn ab_term single tl_head tl_wal].
    split_and!; [done|lia|cbn; lia| |done]. f_equal.
    + rewrite appended_state_twice by (cbn; lia).
      unfold appended_state. cbn. rewrite len_app. by rewrite N.add_assoc.
    + cbn [flush_lsn appended_state set_lsns]. rewrite written_cons by lia.
      f_equal.
Qed.

(** A write per chunk. *)
Fixpoint append_each (t : MemTimeline) (b : AppendBatch) (begin_ : Lsn) (chunks : list Bytes)
  : Result (MemTimeline * Result AcceptorState Deposed) SkErr :=
  match chunks with
  | [] => Ok (t, Ok t.(tl_head))
  | c :: chunks =>
      match tl_append t (single b begin_ [c]) with
      | Ok (t, Ok _) => append_each t b (begin_ + len c) chunks
      | r => r
      end
  end.

Lemma append_each_ok t b begin_ chunks t' h' :
  chunk_bytes chunks <= u64_MAX → t.(tl_head).(flush_lsn) <= u64_MAX → chunks ≠ [] →
  tl_append t (single b begin_ chunks) = Ok (t', Ok h') →
  append_each t b begin_ chunks = Ok (t', Ok h').
Proof.
  revert t begin_. induction chunks as [|c cs IH]; intros t begin_ F M Ne E; [done|].
  destruct cs as [|c2 cs].
  - cbn. rewrite E. apply tl_append_iff in E as (_ & _ & _ & _ & ->); done.
  - destruct (tl_append_cons _ _ _ _ _ _ _ F M E) as (t1 & h1 & E1 & M1 & E2).
    cbn [append_each]. rewrite E1. apply IH; [|done|done|done].
    unfold chunk_bytes in *. cbn in *. rewrite len_app in F. lia.
Qed.

(** ** Retries *)

Lemma tl_append_again t b t' h' :
  batch_fits b → t.(tl_head).(flush_lsn) <= u64_MAX → tl_append t b = Ok (t', Ok h') →
  tl_append t' b = Ok (t', Ok h').
Proof.
  intros F M E. apply tl_append_iff in E as (Et & Me & Fa & Ht & ->); [|done|done].
  apply tl_append_iff; [done| |].
  { subst t'. cbn. lia. }
  assert (tl_head t' = appended_state (tl_head t) b (batch_end b)) as Hh by by rewrite Ht.
  assert (batch_end b <= flush_lsn (tl_head t')) as L by (rewrite Hh; cbn; lia).
  assert (flush_lsn (tl_head t') <= u64_MAX) as M' by (rewrite Hh; cbn; lia).
  split_and!; [by rewrite Hh|done| | |done].
  - unfold fits_after. unfold batch_end in L. lia.
  - rewrite written_nothing by (unfold batch_end in L; lia). destruct t' as [h w]. cbn in *.
    f_equal. rewrite Hh. unfold appended_state. destruct (negb _) eqn:Z; cbn;
      unfold set_lsns; f_equal; cbn; lia.
Qed.
