(* ===== verification/SkHistory.v ===== *)
(** * LSNs as text, and where two term histories part

    [Lsn]'s [Display] and [FromStr] (loams-safekeeper/src/types.rs) are inverse.
    [find_highest_common_point] is the greatest position up to which the proposer's and the
    acceptor's WAL were written in the same terms. *)

From Stdlib Require Import NArith Lia Ascii.
From stdpp Require Import prelude gmap strings numbers list sorting.
From S2P Require Import Prelude.
From S2P Require Import SkTypes.

Open Scope N_scope.

(** ** Digits *)

Lemma hex_value_upper d : d < 16 → hex_value (hex_upper d) = Some d.
Proof. intros L. destruct d as [|p]; [done|]. do 5 (destruct p; try done; try lia). Qed.

Lemma parse_hex_digits_app l1 l2 acc :
  parse_hex_digits (l1 ++ l2) acc = v ← parse_hex_digits l1 acc; parse_hex_digits l2 v.
Proof.
  revert acc. induction l1 as [|c l1 IH]; intros acc; cbn; [done|].
  destruct (hex_value c); [|done]. cbn. destruct (_ <=? _); [|done]. apply IH.
Qed.

Lemma hex_digits_small fuel n : Forall (λ d, d < 16) (hex_digits fuel n).
Proof.
  revert n. induction fuel as [|fuel IH]; intros n; cbn; [constructor|].
  destruct (N.ltb_spec n 16); [by constructor|]. apply Forall_app. split; [done|].
  constructor; [|done]. by apply N.mod_lt.
Qed.

(** [fuel] digits are enough for a number below [16 ^ fuel]. *)
Lemma parse_hex_digits_show fuel n :
  n < 16 ^ N.of_nat fuel → n <= u32_MAX →
  parse_hex_digits (hex_upper <$> hex_digits fuel n) 0 = Some n.
Proof.
  revert n. induction fuel as [|fuel IH]; intros n L M; cbn [hex_digits].
  { cbn in *. f_equal. lia. }
  destruct (N.ltb_spec n 16) as [S|S].
  { cbn. rewrite hex_value_upper by done. cbn. rewrite (proj2 (N.leb_le _ _)) by done. done. }
  pose proof (N.div_mod n 16 ltac:(done)) as D. pose proof (N.mod_lt n 16 ltac:(done)) as Lm.
  rewrite fmap_app, parse_hex_digits_app, IH; [|apply N.Div0.div_lt_upper_bound|]; [| |].
  - cbn. rewrite hex_value_upper by done. cbn.
    replace (n / 16 * 16 + n mod 16) with n by lia. by rewrite (proj2 (N.leb_le _ _)).
  - rewrite Nat2N.inj_succ, N.pow_succ_r' in L. done.
  - assert (n / 16 <= n) by (apply N.Div0.div_le_upper_bound; lia). lia.
Qed.

Lemma hex_digits_nonempty fuel n : hex_digits (S fuel) n ≠ [].
Proof. cbn. destruct (_ <? _); [done|]. by destruct (hex_digits fuel _). Qed.

(** Characters of a hexadecimal number are neither a sign nor a separator. *)
Lemma hex_text_chars n c :
  c ∈ String.list_ascii_of_string (show_hex n) → is_Some (hex_value c).
Proof.
  unfold show_hex. rewrite String.list_ascii_of_string_of_list_ascii.
  intros (d & -> & I)%list_elem_of_fmap. exists d. apply hex_value_upper.
  by apply (proj1 (Forall_forall _ _) (hex_digits_small 16 n)).
Qed.

Lemma parse_hex_u32_digits c ds :
  is_Some (hex_value c) → parse_hex_u32 (c :: ds) = parse_hex_digits (c :: ds) 0.
Proof. destruct c as [[] [] [] [] [] [] [] []]; intros [? E]; done. Qed.

Lemma parse_hex_u32_show n :
  n <= u32_MAX → parse_hex_u32 (String.list_ascii_of_string (show_hex n)) = Some n.
Proof.
  intros M. pose proof (hex_text_chars n) as C.
  assert (n < 16 ^ N.of_nat 16) as L. { unfold u32_MAX in M. change (N.of_nat 16) with 16. lia. }
  pose proof (parse_hex_digits_show 16 n L M) as P. revert C.
  unfold show_hex. rewrite String.list_ascii_of_string_of_list_ascii. rewrite <- P. clear P.
  pose proof (hex_digits_nonempty 15 n) as Ne. destruct (hex_digits 16 n) as [|d ds]; [done|].
  intros C. cbn [fmap list_fmap]. apply parse_hex_u32_digits, C. left.
Qed.

Lemma split_once_app c l1 l2 : c ∉ l1 → split_once c (l1 ++ c :: l2) = Some (l1, l2).
Proof.
  induction l1 as [|d l1 IH]; cbn; [by rewrite Ascii.eqb_refl|].
  intros [Nd Ni]%not_elem_of_cons. destruct (Ascii.eqb_spec c d); [done|]. by rewrite IH.
Qed.

(** ** Halves *)

Lemma lsn_halves l : N.lor (N.shiftl (N.shiftr l 32) 32) (N.land l 4294967295) = l.
Proof.
  apply N.bits_inj. intros i. change 4294967295 with (N.ones 32).
  rewrite N.lor_spec, N.land_spec. destruct (N.ltb_spec i 32) as [L|L].
  - rewrite N.shiftl_spec_low, N.ones_spec_low by done. by rewrite andb_true_r.
  - rewrite N.shiftl_spec_high', N.shiftr_spec', N.ones_spec_high by done.
    rewrite andb_false_r, orb_false_r. f_equal. lia.
Qed.

Lemma parse_show_lsn l : l <= u64_MAX → parse_lsn (show_lsn l) = Ok l.
Proof.
  intros M. unfold parse_lsn, show_lsn. rewrite !list_ascii_app. cbn [String.list_ascii_of_string app].
  rewrite split_once_app.
  2: { intros [? E]%hex_text_chars. done. }
  rewrite !parse_hex_u32_show; cbn [ok_or].
  - by rewrite lsn_halves.
  - change 4294967295 with (N.ones 32). rewrite N.land_ones.
    pose proof (N.mod_lt l (2 ^ 32) ltac:(done)). unfold u32_MAX. lia.
  - rewrite N.shiftr_div_pow2. unfold u64_MAX, u32_MAX in *.
    apply N.lt_succ_r, N.Div0.div_lt_upper_bound. lia.
Qed.

(** The term that wrote the WAL at a position. *)
Fixpoint term_at (h : TermHistory) (l : Lsn) : option Term :=
  match h with
  | [] => None
  | e :: h =>
      if e.(tl_lsn) <=? l
      then match term_at h l with Some t => Some t | None => Some e.(tl_term) end
      else None
  end.

(** Terms and their starts ascend. *)
Definition tl_lt (a b : TermLsn) : Prop := a.(tl_term) < b.(tl_term) ∧ a.(tl_lsn) < b.(tl_lsn).
Abbreviation ascending h := (StronglySorted tl_lt h) (only parsing).

Lemma ascending_app (l r : TermHistory) :
  ascending (l ++ r) ↔ (∀ a b, a ∈ l → b ∈ r → tl_lt a b) ∧ ascending l ∧ ascending r.
Proof. apply StronglySorted_app. Qed.

(** Below the next entry the rest of the history does not matter. *)
Lemma term_at_below pre rest l :
  (∀ e, head rest = Some e → l < e.(tl_lsn)) → term_at (pre ++ rest) l = term_at pre l.
Proof.
  intros H. induction pre as [|a pre IH]; cbn.
  - destruct rest as [|e rest]; [done|]. cbn. specialize (H e eq_refl).
    by rewrite (proj2 (N.leb_gt _ _)).
  - by rewrite IH.
Qed.

(** At the start of an entry, its term. *)
Lemma term_at_start pre e rest :
  ascending (pre ++ e :: rest) → term_at (pre ++ e :: rest) e.(tl_lsn) = Some e.(tl_term).
Proof.
  intros A. replace (pre ++ e :: rest) with ((pre ++ [e]) ++ rest) by (by rewrite <- app_assoc).
  apply ascending_app in A as (G & _ & A2). apply StronglySorted_cons in A2 as [G2 _].
  rewrite Forall_forall in G2. rewrite term_at_below.
  - clear G2. induction pre as [|a pre IH]; cbn; [by rewrite N.leb_refl|].
    rewrite (proj2 (N.leb_le _ _)).
    + rewrite IH; [done|]. intros x y X Y. apply G; [by right|done].
    + destruct (G a e) as [_ ?]; [left|left|lia].
  - intros x X. destruct rest; simplify_eq/=. destruct (G2 x) as [_ ?]; [left|done].
Qed.

(** Past the start of the last entry, its term. *)
Lemma term_at_last pre e l :
  ascending (pre ++ [e]) → e.(tl_lsn) <= l → term_at (pre ++ [e]) l = Some e.(tl_term).
Proof.
  intros (G & _ & _)%ascending_app L. induction pre as [|a pre IH]; cbn.
  - by rewrite (proj2 (N.leb_le _ _)).
  - rewrite (proj2 (N.leb_le _ _)).
    + rewrite IH; [done|]. intros x y X Y. apply G; [by right|done].
    + destruct (G a e) as [_ ?]; [left|left|lia].
Qed.

(** The loop finds the common prefix, after which the histories end or differ in the term. *)
Lemma common_loop_spec prop sk i lc r :
  common_loop prop sk i lc = Ok r →
  ∃ pre p' s', prop = pre ++ p' ∧ sk = pre ++ s'
    ∧ (∀ a b, head p' = Some a → head s' = Some b → a.(tl_term) ≠ b.(tl_term))
    ∧ r = match pre with [] => lc | _ => Some (i + length pre - 1)%nat end.
Proof.
  revert sk i lc. induction prop as [|p prop IH]; intros sk i lc; cbn [common_loop].
  { intros [= <-]. by exists [], [], sk. }
  destruct sk as [|s sk]. { intros [= <-]. by exists [], (p :: prop), []. }
  destruct (N.eqb_spec (tl_term p) (tl_term s)) as [Et|Nt]; cbn [negb].
  2: { intros [= <-]. exists [], (p :: prop), (s :: sk). split_and!; try done.
       by intros a b [= <-] [= <-]. }
  destruct (N.eqb_spec (tl_lsn p) (tl_lsn s)) as [El|]; cbn [negb]; [|done].
  assert (p = s) as -> by (destruct p, s; cbn in *; by subst).
  intros (pre & p' & s' & -> & -> & D & ->)%IH. exists (s :: pre), p', s'.
  split_and!; try done. destruct pre; cbn; f_equal; lia.
Qed.

(** What is found: the common prefix is not empty, and the point lies where the first of the
    two histories goes on, or at the end of the acceptor's WAL. *)
Lemma common_point_shape prop sk wal_end_ p :
  find_highest_common_point prop sk wal_end_ = Ok (Some p) →
  ∃ pre x p' s', prop = pre ++ x :: p' ∧ sk = pre ++ x :: s'
    ∧ (∀ a b, head p' = Some a → head s' = Some b → a.(tl_term) ≠ b.(tl_term))
    ∧ p.(tl_term) = x.(tl_term)
    ∧ p.(tl_lsn) = match head p' with
                   | None => wal_end_
                   | Some a => N.min a.(tl_lsn)
                       (match head s' with Some b => b.(tl_lsn) | None => wal_end_ end)
                   end
    ∧ (∀ b, last sk = Some b → b.(tl_lsn) <= wal_end_).
Proof.
  unfold find_highest_common_point. destruct (last sk) as [z|] eqn:Lz; [|done].
  destruct (N.ltb_spec wal_end_ (tl_lsn z)) as [|Lw]; [done|].
  destruct (common_loop prop sk 0 None) as [r|] eqn:C; [|done].
  apply common_loop_spec in C as (pre & p' & s' & -> & -> & D & ->).
  destruct pre as [|x pre _] using rev_ind; [done|].
  assert (match pre ++ [x] with [] => None | _ => Some (0 + length (pre ++ [x]) - 1)%nat end
          = Some (length pre)) as ->.
  { rewrite length_app. cbn. destruct pre; cbn; f_equal; lia. }
  rewrite <- !app_assoc. cbn [app]. rewrite list_lookup_middle by done.
  intros [= <-]. exists pre, x, p', s'. cbn. split_and!; try done.
  - rewrite !lookup_app_r by lia. replace (S (length pre) - length pre)%nat with 1%nat by lia.
    cbn. by destruct p', s'.
  - by intros b [= <-].
Qed.

Lemma ascending_last h z b : ascending h → last h = Some z → b ∈ h → b.(tl_lsn) <= z.(tl_lsn).
Proof.
  intros A [l ->]%last_Some. apply ascending_app in A as (G & _ & _).
  intros [I|I]%elem_of_app.
  - destruct (G b z I) as [_ ?]; [left|lia].
  - by apply list_elem_of_singleton in I as ->.
Qed.

(** The proposer was elected over the acceptor: no term of the acceptor's WAL is above the
    proposer's last. *)
Definition newest (prop sk : TermHistory) : Prop :=
  ∀ z e, last prop = Some z → e ∈ sk → e.(tl_term) <= z.(tl_term).

Section common.
Context (pre : TermHistory) (x : TermLsn) (p' s' : TermHistory) (wal_end_ : Lsn).
Hypothesis Ap : ascending ((pre ++ [x]) ++ p').
Hypothesis As : ascending ((pre ++ [x]) ++ s').
Hypothesis D : ∀ a b, head p' = Some a → head s' = Some b → a.(tl_term) ≠ b.(tl_term).

(** The histories after the common prefix, at a position where the first of them goes on. *)
Lemma parted a l :
  head p' = Some a → l = N.min a.(tl_lsn)
    (match head s' with Some b => b.(tl_lsn) | None => wal_end_ end) → l < wal_end_ →
  term_at ((pre ++ [x]) ++ p') l ≠ term_at ((pre ++ [x]) ++ s') l.
Proof.
  intros Ha -> Lt. destruct p' as [|a' q]; simplify_eq/=.
  pose proof Ap as (Gp & Ax & _)%ascending_app. pose proof As as (Gs & _ & _)%ascending_app.
  destruct (Gp x a) as [Tx Lx]; [set_solver|left|].
  destruct s' as [|b r]; cbn in Lt |- *.
  - rewrite N.min_l by lia. rewrite app_nil_r, term_at_start, term_at_last by (done || lia).
    intros [= E]. lia.
  - destruct (Gs x b) as [Tb Lb]; [set_solver|left|]. specialize (D _ _ eq_refl eq_refl).
    destruct (N.lt_total (tl_lsn a) (tl_lsn b)) as [L|[L|L]].
    + rewrite N.min_l by lia. rewrite term_at_start by done.
      rewrite term_at_below, term_at_last by (done || lia || (by intros ? [= <-])).
      intros [= E]. lia.
    + rewrite <- L, N.min_id, term_at_start by done. rewrite L, term_at_start by done. congruence.
    + rewrite N.min_r by lia. rewrite (term_at_start _ b) by done.
      rewrite term_at_below, term_at_last by (done || lia || (by intros ? [= <-])).
      intros [= E]. lia.
Qed.
End common.

Lemma common_point_spec prop sk wal_end_ p :
  ascending prop → ascending sk → newest prop sk →
  find_highest_common_point prop sk wal_end_ = Ok (Some p) →
  p.(tl_lsn) <= wal_end_
  ∧ (∀ l, l < p.(tl_lsn) → term_at prop l = term_at sk l)
  ∧ (p.(tl_lsn) < wal_end_ → term_at prop p.(tl_lsn) ≠ term_at sk p.(tl_lsn)).
Proof.
  intros Ap As Nw (pre & x & p' & s' & -> & -> & D & _ & Lp & Le)%common_point_shape.
  assert (∀ b, head s' = Some b → b.(tl_lsn) <= wal_end_) as Hb.
  { intros b Hb. destruct s' as [|b' s']; simplify_eq/=.
    destruct (last (pre ++ x :: b :: s')) as [z|] eqn:Lz.
    - specialize (Le z eq_refl). pose proof (ascending_last _ _ b As Lz) as Q.
      etransitivity; [apply Q; set_solver|done].
    - apply last_None in Lz. by destruct pre. }
  assert (p' = [] → s' = []) as Ne.
  { intros ->. destruct s' as [|b s']; [done|]. exfalso.
    specialize (Nw x b (last_snoc _ _) ltac:(set_solver)).
    replace (pre ++ x :: b :: s') with ((pre ++ [x]) ++ b :: s') in As by (by rewrite <- app_assoc).
    apply ascending_app in As as (G & _ & _). destruct (G x b) as [? _]; [set_solver|left|lia]. }
  replace (pre ++ x :: p') with ((pre ++ [x]) ++ p') in * by (by rewrite <- app_assoc).
  replace (pre ++ x :: s') with ((pre ++ [x]) ++ s') in * by (by rewrite <- app_assoc).
  destruct p' as [|a p'].
  - rewrite (Ne eq_refl), Lp. cbn [head]. split; [done|]. split; [done|lia].
  - cbn [head] in Lp. rewrite Lp. split; [|split].
    + destruct (head s') eqn:Es; [|lia]. specialize (Hb _ eq_refl). lia.
    + intros l Hl. rewrite (term_at_below (pre ++ [x]) (a :: p')), (term_at_below (pre ++ [x]) s');
        [done| |].
      * intros e Ee. rewrite Ee in Hl. lia.
      * intros e [= <-]. lia.
    + intros Lt. by eapply (parted _ _ _ _ wal_end_ Ap As D a).
Qed.

(** ** The acceptor's own history *)

Lemma up_to_split h bound :
  ∃ rest, h = up_to h bound ++ rest ∧ (∀ e, head rest = Some e → bound < e.(tl_lsn))
    ∧ Forall (λ e, e.(tl_lsn) <= bound) (up_to h bound).
Proof.
  induction h as [|e h (rest & E & H & F)]; cbn.
  - exists []. by split_and!; [|intros e|constructor].
  - destruct (N.leb_spec (tl_lsn e) bound) as [L|L].
    + exists rest. cbn. rewrite <- E. split_and!; [done|done|by constructor].
    + exists (e :: h). split_and!; [done| |constructor]. by intros ? [= <-].
Qed.

Lemma common_loop_prefix pre rest i lc :
  common_loop (pre ++ rest) pre i lc
  = Ok (match pre with [] => lc | _ => Some (i + length pre - 1)%nat end).
Proof.
  revert i lc. induction pre as [|e pre IH]; intros i lc; cbn; [by destruct rest|].
  rewrite !N.eqb_refl. cbn. rewrite IH. destruct pre; cbn; do 2 f_equal; lia.
Qed.

(** A proposer that comes with the history the acceptor holds starts at the end of its WAL. *)
Lemma common_point_same h bound p :
  find_highest_common_point h (up_to h bound) bound = Ok p →
  match p with None => up_to h bound = [] | Some p => p.(tl_lsn) = bound end.
Proof.
  destruct (up_to_split h bound) as (rest & E & H & F). rewrite E at 1.
  unfold find_highest_common_point. destruct (last (up_to h bound)) as [z|] eqn:Lz.
  2: { intros [= <-]. by apply last_None in Lz. }
  destruct (bound <? tl_lsn z); [done|]. rewrite common_loop_prefix.
  destruct (up_to h bound) as [|x pre _] using rev_ind; [done|]. clear Lz.
  assert (match pre ++ [x] with [] => None | _ => Some (0 + length (pre ++ [x]) - 1)%nat end
          = Some (length pre)) as ->.
  { rewrite length_app. cbn. destruct pre; cbn; f_equal; lia. }
  rewrite <- app_assoc. cbn [app]. rewrite list_lookup_middle by done. intros [= <-]. cbn.
  rewrite (lookup_app_r pre) by lia.
  replace (S (length pre) - length pre)%nat with 1%nat by lia. cbn.
  rewrite (lookup_ge_None_2 (pre ++ [x])) by (rewrite length_app; cbn; lia).
  destruct rest as [|e rest]; [done|]. cbn. specialize (H e eq_refl). lia.
Qed.
