(* ===== verification/SkTail.v ===== *)
(** * The tail of recent WAL (loams-safekeeper/src/service.rs)

    The in-memory copy of the WAL just appended, which readers on the same instance use before
    they go to the store, and the progress they wait on. *)

From Stdlib Require Import NArith Lia.
From stdpp Require Import prelude gmap strings numbers list.
From S2P Require Import Prelude.
From S2P Require Import ByteCodec.
From S2P Require Import BTree.
From S2P Require Import SkTypes.
From S2P Require Import SkStore.
From S2P Require Import SkWal.

Open Scope N_scope.

(** ** Progress *)

Record Progress := {
  pr_term : Term;
  pr_flush_lsn : Lsn;
  pr_commit_lsn : Lsn;
  pr_peer_horizon_lsn : Lsn;
  pr_active : bool;
}.

(** [Progress::of] *)
Definition progress_of (st : AcceptorState) : Progress := {|
  pr_term := st.(term);
  pr_flush_lsn := wal_end st;
  pr_commit_lsn := st.(commit_lsn);
  pr_peer_horizon_lsn := st.(peer_horizon_lsn);
  pr_active := true;
|}.

(** [Registry::publish] on the value readers wait on. *)
Definition publish (cur p : Progress) : Progress :=
  if p.(pr_term) <? cur.(pr_term) then cur
  else {| pr_term := p.(pr_term);
          pr_flush_lsn := p.(pr_flush_lsn);
          pr_commit_lsn := if p.(pr_term) =? cur.(pr_term)
                           then N.max cur.(pr_commit_lsn) p.(pr_commit_lsn)
                           else p.(pr_commit_lsn);
          pr_peer_horizon_lsn := p.(pr_peer_horizon_lsn);
          pr_active := cur.(pr_active) |}.

(** ** The tail *)

Record Tail := { ta_chunks : list (Lsn * Bytes); ta_bytes : N }.

Definition Tail_default : Tail := {| ta_chunks := []; ta_bytes := 0 |}.

(** [TAIL_BYTES] *)
Definition TAIL_BYTES : N := 67108864.

(** [Tail::end] *)
Definition tail_end (t : Tail) : option Lsn :=
  match last t.(ta_chunks) with
  | Some (l, b) => Some (u64_add l (len b))
  | None => None
  end.

(** The loop of [push] that drops the oldest chunks above [TAIL_BYTES]. *)
Fixpoint tail_evict (chunks : list (Lsn * Bytes)) (bytes : N) : Tail :=
  if TAIL_BYTES <? bytes then
    match chunks with
    | (_, b) :: chunks => tail_evict chunks (u64_sub bytes (len b))
    | [] => {| ta_chunks := []; ta_bytes := bytes |}
    end
  else {| ta_chunks := chunks; ta_bytes := bytes |}.

(** The end of [push]: [data] becomes the last chunk. *)
Definition tail_add (t : Tail) (begin_ : Lsn) (data : Bytes) : Tail :=
  tail_evict (t.(ta_chunks) ++ [(begin_, data)]) (u64_add t.(ta_bytes) (len data)).

(** [Tail::push]; the call on a retried prefix continues at the tail's end. *)
Definition tail_push (t : Tail) (begin_ : Lsn) (data : Bytes) : Tail :=
  match data with
  | [] => t
  | _ =>
      match tail_end t with
      | Some end_ =>
          if end_ =? begin_ then tail_add t begin_ data
          else if begin_ <? end_ then
            let skip := end_ - begin_ in
            if len data <=? skip then t else tail_add t end_ (drop (N.to_nat skip) data)
          else tail_add Tail_default begin_ data
      | None => tail_add Tail_default begin_ data
      end
  end.

(** The loop of [truncate], from the last chunk back. *)
Fixpoint tail_cut (rev_chunks : list (Lsn * Bytes)) (bytes : N) (at_ : Lsn)
  : list (Lsn * Bytes) * N :=
  match rev_chunks with
  | [] => ([], bytes)
  | (l, b) :: rest =>
      if at_ <=? l then tail_cut rest (u64_sub bytes (len b)) at_
      else
        let keep := at_ - l in
        if keep <? len b
        then ((l, take (N.to_nat keep) b) :: rest, u64_sub bytes (len b - keep))
        else (rev_chunks, bytes)
  end.

(** [Tail::truncate] *)
Definition tail_truncate (t : Tail) (at_ : Lsn) : Tail :=
  let '(cs, bytes) := tail_cut (reverse t.(ta_chunks)) t.(ta_bytes) at_ in
  {| ta_chunks := reverse cs; ta_bytes := bytes |}.

(** The loop of [read]. *)
Fixpoint tail_read_loop (chunks : list (Lsn * Bytes)) (at_ budget : N)
    (out : list (Lsn * Bytes)) : list (Lsn * Bytes) :=
  match chunks with
  | [] => out
  | (l, b) :: chunks =>
      if u64_add l (len b) <=? at_ then tail_read_loop chunks at_ budget out
      else if budget =? 0 then out
      else
        let lo := u64_sub at_ l in
        let hi := N.min (len b) (u64_saturating_add lo budget) in
        tail_read_loop chunks (u64_add l hi) (u64_sub budget (u64_sub hi lo))
          (out ++ [(at_, take (N.to_nat (hi - lo)) (drop (N.to_nat lo) b))])
  end.

(** [Tail::read] *)
Definition tail_read (t : Tail) (from : Lsn) (max : N) : option (list (Lsn * Bytes)) :=
  match t.(ta_chunks) with
  | [] => None
  | (first, _) :: _ =>
      match tail_end t with
      | Some end_ =>
          if (from <? first) || (end_ <? from) then None
          else Some (tail_read_loop t.(ta_chunks) from max [])
      | None => None
      end
  end.

(** ** The tail is a run of contiguous chunks *)

Record tail_ok (t : Tail) : Prop := {
  tk_tiles : ∃ lo hi, wal_tiles lo t.(ta_chunks) hi ∧ hi <= u64_MAX;
  tk_bytes : t.(ta_bytes) = len (wal_bytes t.(ta_chunks));
  tk_bound : t.(ta_bytes) <= TAIL_BYTES;
}.

(** The byte of the tail at an LSN. *)
Definition tail_at (t : Tail) (l : Lsn) : option N := bytes_at t.(ta_chunks) l.

Lemma Tail_default_ok : tail_ok Tail_default.
Proof. split; [by exists 0, 0|done|done]. Qed.

Lemma tail_end_spec t lo hi :
  wal_tiles lo t.(ta_chunks) hi → hi <= u64_MAX →
  tail_end t = match t.(ta_chunks) with [] => None | _ => Some hi end.
Proof.
  intros T M. unfold tail_end. destruct (ta_chunks t) as [|[l b] cs _] using rev_ind; [done|].
  rewrite last_snoc. apply wal_tiles_middle in T as (_ & _ & E). cbn in E. subst hi.
  rewrite u64_add_small by done. by destruct cs.
Qed.

Lemma tail_evict_spec cs bytes lo hi :
  wal_tiles lo cs hi → hi <= u64_MAX → bytes = len (wal_bytes cs) →
  tail_ok (tail_evict cs bytes)
  ∧ ∀ l b, tail_at (tail_evict cs bytes) l = Some b → bytes_at cs l = Some b.
Proof.
  unfold tail_at. revert bytes lo. induction cs as [|[l b] cs IH]; intros bytes lo T M E; cbn.
  - subst bytes. cbn. split; [|done]. split; [by exists lo, hi|done|done].
  - pose proof T as T0. destruct T as (-> & P & T). destruct (N.ltb_spec TAIL_BYTES bytes) as [L|L].
    + pose proof (wal_tiles_le _ _ _ T0) as Le. unfold wal_bytes in E, Le. cbn in E, Le.
      rewrite len_app in E, Le. fold (wal_bytes cs) in E, Le.
      destruct (IH (u64_sub bytes (len b)) _ T M) as [O H].
      { rewrite u64_sub_small by lia. lia. }
      split; [done|]. intros p x Hx. apply H in Hx.
      assert (lo + len b <= p) as Lp.
      { apply (bytes_at_is_Some _ _ _ p T). by exists x. }
      rewrite (proj2 (N.ltb_ge _ _)) by lia. done.
    + split; [|done]. split; [by exists lo, hi|done|done].
Qed.

(** [data] after the chunks that end where it begins. *)
Lemma tail_add_spec t begin_ data :
  (∃ lo, wal_tiles lo t.(ta_chunks) begin_) → t.(ta_bytes) = len (wal_bytes t.(ta_chunks)) →
  data ≠ [] → begin_ + len data <= u64_MAX →
  tail_ok (tail_add t begin_ data)
  ∧ ∀ l b, tail_at (tail_add t begin_ data) l = Some b →
      tail_at t l = Some b ∨ (begin_ <= l ∧ data !! N.to_nat (l - begin_) = Some b).
Proof.
  intros (lo & T) E D M. assert (0 < len data) as Ld by (destruct data; [done|rewrite len_cons; lia]).
  pose proof (wal_tiles_le _ _ _ T) as Le.
  assert (wal_tiles lo (ta_chunks t ++ [(begin_, data)]) (begin_ + len data)) as T'.
  { apply wal_tiles_app. rewrite <- Le. done. }
  unfold tail_add. destruct (tail_evict_spec _ (u64_add (ta_bytes t) (len data)) _ _ T' M) as [O H].
  { rewrite u64_add_small by lia. unfold wal_bytes. rewrite fmap_app, concat_app, len_app.
    cbn. rewrite app_nil_r. by rewrite E. }
  split; [done|]. intros l b Hb. apply H in Hb. rewrite (bytes_at_app _ _ _ _ _ T') in Hb.
  case_decide as C; [by left|right]. rewrite <- Le in C. split; [lia|]. cbn in Hb.
  destruct (l <? begin_ + len data); [|done]. by destruct (begin_ <=? l).
Qed.

(** After a push the tail holds bytes it held before and bytes of the pushed chunk. *)
Lemma tail_push_spec t begin_ data :
  tail_ok t → begin_ + len data <= u64_MAX →
  tail_ok (tail_push t begin_ data)
  ∧ ∀ l b, tail_at (tail_push t begin_ data) l = Some b →
      tail_at t l = Some b ∨ (begin_ <= l ∧ data !! N.to_nat (l - begin_) = Some b).
Proof.
  intros Ok M. pose proof Ok as [(lo & hi & T & Mh) E B]. unfold tail_push.
  destruct data as [|x data']; [by split; [|left]|]. set (data := x :: data') in *.
  assert (tail_ok (tail_add Tail_default begin_ data)
          ∧ ∀ l b, tail_at (tail_add Tail_default begin_ data) l = Some b →
              tail_at t l = Some b ∨ (begin_ <= l ∧ data !! N.to_nat (l - begin_) = Some b)) as Fresh.
  { destruct (tail_add_spec Tail_default begin_ data) as [O H]; [by exists begin_|done|done|done|].
    split; [done|]. intros l b [?|?]%H; [done|by right]. }
  rewrite (tail_end_spec _ _ _ T Mh). destruct (ta_chunks t) as [|c cs] eqn:Ec; [exact Fresh|].
  rewrite <- Ec in T, E. destruct (N.eqb_spec hi begin_) as [->|D].
  { apply tail_add_spec; [by exists lo|done|done|done]. }
  destruct (N.ltb_spec begin_ hi) as [L|L]; [|exact Fresh].
  destruct (N.leb_spec (len data) (hi - begin_)) as [S|S]; [by split; [|left]|].
  destruct (tail_add_spec t hi (drop (N.to_nat (hi - begin_)) data)) as [O H].
  { by exists lo. }
  { done. }
  { intros Q%(f_equal length). rewrite length_drop in Q. unfold len in S.
    change (length (@nil N)) with 0%nat in Q. lia. }
  { unfold len in *. rewrite length_drop. lia. }
  split; [done|]. intros l b [?|[Ll Hl]]%H; [by left|right]. split; [lia|].
  rewrite lookup_drop in Hl. rewrite <- Hl. f_equal. lia.
Qed.

(** [truncate] keeps the bytes below its position. *)
Lemma tail_cut_spec cs bytes at_ lo hi :
  wal_tiles lo cs hi → hi <= u64_MAX → bytes = len (wal_bytes cs) →
  let '(rc, bytes') := tail_cut (reverse cs) bytes at_ in
  ∃ hi', wal_tiles lo (reverse rc) hi' ∧ hi' <= hi ∧ bytes' = len (wal_bytes (reverse rc))
    ∧ ∀ l, bytes_at (reverse rc) l = if l <? at_ then bytes_at cs l else None.
Proof.
  revert bytes hi. induction cs as [|[l b] cs IH] using rev_ind; intros bytes hi T M E.
  { cbn. exists hi. subst bytes. split_and!; [done|lia|done|]. intros l. by destruct (l <? at_). }
  pose proof T as T0. apply wal_tiles_middle in T as (T & P & Eh). cbn in Eh.
  pose proof (wal_tiles_le _ _ _ T) as Le.
  assert (wal_bytes (cs ++ [(l, b)]) = wal_bytes cs ++ b) as W.
  { unfold wal_bytes. rewrite fmap_app, concat_app. cbn. by rewrite app_nil_r. }
  rewrite W, len_app in E. rewrite reverse_snoc. cbn [tail_cut].
  assert (∀ p, bytes_at (cs ++ [(l, b)]) p = if decide (p < l) then bytes_at cs p
               else bytes_at [(l, b)] p) as B.
  { intros p. rewrite (bytes_at_app _ _ _ _ _ T0), <- Le. done. }
  destruct (N.leb_spec at_ l) as [A|A].
  - specialize (IH (u64_sub bytes (len b)) l T ltac:(lia)).
    destruct (tail_cut (reverse cs) (u64_sub bytes (len b)) at_) as [rc bytes'].
    destruct IH as (hi' & T' & Lh & Eb & H). { rewrite u64_sub_small by lia. lia. }
    exists hi'. split_and!; [done|lia|done|]. intros p. rewrite H, B.
    destruct (N.ltb_spec p at_); [|done]. by rewrite decide_True by lia.
  - destruct (N.ltb_spec (at_ - l) (len b)) as [K|K].
    + assert (len (take (N.to_nat (at_ - l)) b) = at_ - l) as Lt.
      { unfold len in *. rewrite length_take. lia. }
      assert (wal_tiles lo (cs ++ [(l, take (N.to_nat (at_ - l)) b)]) at_) as Tt.
      { apply wal_tiles_app. rewrite <- Le. split; [done|]. cbn. rewrite Lt. lia. }
      exists at_. rewrite reverse_cons, reverse_involutive. split_and!; [done|lia| |].
      * rewrite u64_sub_small by lia. unfold wal_bytes. rewrite fmap_app, concat_app, len_app.
        cbn. rewrite app_nil_r, Lt. unfold wal_bytes in E. lia.
      * intros p. rewrite B, (bytes_at_app _ _ _ _ _ Tt), <- Le. cbn. rewrite Lt.
        replace (l + (at_ - l)) with at_ by lia.
        destruct (N.ltb_spec p at_) as [Q|Q]; [|by rewrite decide_False by lia].
        case_decide; [done|]. rewrite (proj2 (N.ltb_lt p (l + len b))) by lia.
        destruct (N.leb_spec l p); [|done]. apply lookup_take_lt. lia.
    + exists hi. rewrite reverse_cons, reverse_involutive. split_and!; [done|lia| |].
      * by rewrite W, len_app.
      * intros p. destruct (N.ltb_spec p at_) as [Q|Q]; [done|].
        destruct (bytes_at (cs ++ [(l, b)]) p) eqn:X; [|done].
        assert (is_Some (bytes_at (cs ++ [(l, b)]) p)) as S by by rewrite X.
        apply (bytes_at_is_Some _ _ _ p T0) in S. lia.
Qed.

Lemma tail_truncate_spec t at_ :
  tail_ok t →
  tail_ok (tail_truncate t at_)
  ∧ ∀ l, tail_at (tail_truncate t at_) l = if l <? at_ then tail_at t l else None.
Proof.
  intros [(lo & hi & T & M) E B]. unfold tail_truncate, tail_at.
  pose proof (tail_cut_spec _ _ at_ _ _ T M E) as C.
  destruct (tail_cut _ _ at_) as [rc bytes']. destruct C as (hi' & T' & Lh & Eb & H).
  split; [|done]. split; [exists lo, hi'; split; [done|lia]|done|]. cbn [ta_bytes].
  apply wal_tiles_le in T, T'. lia.
Qed.

(** ** Reading *)

Lemma tail_read_loop_none cs at_ out : tail_read_loop cs at_ 0 out = out.
Proof. revert at_. induction cs as [|[l b] cs IH]; intros at_; cbn; [done|]. by case_match. Qed.

Lemma tail_read_loop_end lo cs hi at_ budget out :
  wal_tiles lo cs hi → hi <= at_ → hi <= u64_MAX → tail_read_loop cs at_ budget out = out.
Proof.
  revert lo. induction cs as [|[l b] cs IH]; intros lo; cbn; [done|].
  intros (-> & P & T) L M. pose proof (wal_tiles_le _ _ _ T). rewrite u64_add_small by lia.
  rewrite (proj2 (N.leb_le _ _)) by lia. by eapply IH.
Qed.

(** The tail slices its chunks as the store slices its own. *)
Lemma tail_read_loop_eq lo cs hi at_ budget out :
  wal_tiles lo cs hi → lo <= at_ → hi <= u64_MAX → budget <= u64_MAX →
  read_loop hi cs at_ budget out = Ok (tail_read_loop cs at_ budget out).
Proof.
  revert lo at_ budget out. induction cs as [|[l b] cs IH]; intros lo at_ budget out T L M Bm; [done|].
  destruct (N.leb_spec hi at_) as [E|E].
  { rewrite (tail_read_loop_end _ _ _ _ _ _ T E M). cbn. by rewrite (proj2 (N.leb_le _ _) E), orb_true_r. }
  destruct (N.eqb_spec budget 0) as [->|B0]; [by rewrite tail_read_loop_none|].
  destruct T as (-> & P & T). pose proof (wal_tiles_le _ _ _ T) as Le. cbn.
  rewrite (proj2 (N.eqb_neq _ _) B0), (proj2 (N.leb_gt _ _) E). cbn [orb].
  rewrite u64_add_small by lia. rewrite (N.min_l (lo + len b) hi) by lia.
  destruct (N.leb_spec (lo + len b) at_) as [Q|Q]; [by apply (IH (lo + len b))|].
  rewrite (proj2 (N.ltb_ge _ _)) by lia. rewrite !u64_sub_small by lia.
  replace (lo + len b - lo) with (len b) by lia.
  set (i := at_ - lo) in *. set (j := N.min (len b) (u64_saturating_add i budget)).
  assert (j = N.min (len b) (i + budget)) as J by (unfold j, i, u64_saturating_add; lia).
  rewrite u64_add_small by lia. rewrite (u64_sub_small j i), (u64_sub_small budget (j - i)) by lia.
  destruct (decide (j = len b)) as [Jc|Jc]; [apply (IH (lo + len b)); [done|lia|done|lia]|].
  replace (budget - (j - i)) with 0 by lia. rewrite tail_read_loop_none. by destruct cs as [|[? ?] ?].
Qed.

(** A read the tail covers returns its bytes from [from] on, as pieces that follow one another;
    a read it does not cover is left to the store. *)
Lemma tail_read_spec t from max :
  tail_ok t → max <= u64_MAX →
  match tail_read t from max with
  | None => tail_at t from = None
  | Some out =>
      pieces from out
      ∧ (∀ i, i < len (wal_bytes out) → wal_bytes out !! N.to_nat i = tail_at t (from + i))
      ∧ (0 < max → is_Some (tail_at t from) → wal_bytes out ≠ [])
  end.
Proof.
  intros [(lo & hi & T & M) E B] Bm. unfold tail_read, tail_at.
  rewrite (tail_end_spec _ _ _ T M). destruct (ta_chunks t) as [|[l b] cs] eqn:Ec; [done|].
  pose proof T as (-> & P & Tc).
  destruct (N.ltb_spec from lo) as [L|L]; cbn [orb].
  { rewrite (bytes_at_tiles _ _ _ _ T). by rewrite decide_False by lia. }
  destruct (N.ltb_spec hi from) as [G|G].
  { destruct (bytes_at _ from) eqn:X; [|done].
    assert (is_Some (bytes_at ((lo, b) :: cs) from)) as S by by rewrite X.
    apply (bytes_at_is_Some _ _ _ from T) in S. lia. }
  pose proof (tail_read_loop_eq lo _ hi from max [] T L M Bm) as R.
  destruct (read_loop_spec lo _ hi from max [] from T L M Bm) as (out & R' & Po & W);
    [done|unfold wal_bytes; cbn; rewrite len_nil; lia|].
  assert (tail_read_loop ((lo, b) :: cs) from max [] = out) as -> by congruence.
  split_and!; [done| |].
  - intros i Hi. rewrite W in *. unfold window in *. cbn [app wal_bytes] in *.
    unfold wal_bytes in *. cbn [fmap list_fmap concat app] in *.
    assert (i < max) as Im. { unfold len in Hi. rewrite length_take in Hi. lia. }
    rewrite lookup_take_lt by lia. rewrite lookup_drop.
    rewrite (bytes_at_tiles _ _ _ _ T), decide_True by lia. unfold wal_bytes. cbn. f_equal. lia.
  - intros Mx S%(bytes_at_is_Some _ _ _ from T) Q. rewrite W in Q.
    apply (f_equal length) in Q. unfold window in Q. cbn [app wal_bytes] in Q.
    unfold wal_bytes at 1 in Q. cbn [fmap list_fmap concat app] in Q.
    rewrite length_take, length_drop in Q. apply wal_tiles_le in T. unfold len in T.
    change (length (@nil N)) with 0%nat in Q. lia.
Qed.
