(* ===== verification/SkProto.v ===== *)
(** * The safekeeper protocol (loams-safekeeper/src/proto.rs)

    What a walproposer sends and what an acceptor answers, and the bytes of both.  Readers take a
    payload and return a value with what is left of it; writers give the bytes they append.  A Rust
    [String] is the string of its bytes.  The [hex] crate, which writes and reads the ids, is a
    parameter. *)

From Stdlib Require Import NArith ZArith Lia Ascii.
From stdpp Require Import prelude strings numbers list.
From S2P Require Import Prelude.
From S2P Require Import ByteCodec.
From S2P Require Import SkTypes.
From S2P Require Import SkStore.

Open Scope N_scope.

(** ** Feedback (types.rs) *)

Record HotStandbyFeedback := { hs_ts : Z; hs_xmin : N; hs_catalog_xmin : N }.

Definition HotStandbyFeedback_default : HotStandbyFeedback :=
  {| hs_ts := 0; hs_xmin := 0; hs_catalog_xmin := 0 |}.

Record PageserverFeedback := {
  pf_current_timeline_size : N;
  pf_last_received_lsn : Lsn;
  pf_disk_consistent_lsn : Lsn;
  pf_remote_consistent_lsn : Lsn;
  pf_replytime_us : Z;
  pf_shard_number : N;
  pf_corruption_detected : bool;
}.

Definition PageserverFeedback_default : PageserverFeedback := {|
  pf_current_timeline_size := 0;
  pf_last_received_lsn := INVALID;
  pf_disk_consistent_lsn := INVALID;
  pf_remote_consistent_lsn := INVALID;
  pf_replytime_us := 0;
  pf_shard_number := 0;
  pf_corruption_detected := false;
|}.

(** ** Proposer to acceptor *)

Record ProposerGreeting := {
  pg_tenant_id : Id;
  pg_timeline_id : Id;
  pg_mconf : Configuration;
  pg_pg_version : N;
  pg_system_id : N;
  pg_wal_seg_size : N;
}.

(** [ProposerGreeting::timeline] *)
Definition greeting_timeline (g : ProposerGreeting) : TimelineId :=
  {| tenant := g.(pg_tenant_id); timeline := g.(pg_timeline_id) |}.

Record VoteRequest := { vr_generation : N; vr_term : Term }.

Record AppendRequestHeader := {
  ah_generation : N;
  ah_term : Term;
  ah_begin_lsn : Lsn;
  ah_end_lsn : Lsn;
  ah_commit_lsn : Lsn;
  ah_truncate_lsn : Lsn;
}.

Record AppendRequest := { ar_h : AppendRequestHeader; ar_wal : Bytes }.

Inductive ProposerMessage :=
  | PGreeting (m : ProposerGreeting)
  | PVoteRequest (m : VoteRequest)
  | PElected (m : ProposerElected)
  | PAppend (m : AppendRequest).

(** ** Acceptor to proposer *)

Record AcceptorGreeting := { ag_node_id : NodeId; ag_mconf : Configuration; ag_term : Term }.

Record VoteResponse := {
  vs_generation : N;
  vs_term : Term;
  vs_vote_given : bool;
  vs_flush_lsn : Lsn;
  vs_truncate_lsn : Lsn;
  vs_term_history : TermHistory;
}.

Record AppendResponse := {
  as_generation : N;
  as_term : Term;
  as_flush_lsn : Lsn;
  as_commit_lsn : Lsn;
  as_hs_feedback : HotStandbyFeedback;
  as_pageserver_feedback : option PageserverFeedback;
}.

(** [AppendResponse::term_only] *)
Definition term_only (generation : N) (t : Term) : AppendResponse := {|
  as_generation := generation;
  as_term := t;
  as_flush_lsn := INVALID;
  as_commit_lsn := INVALID;
  as_hs_feedback := HotStandbyFeedback_default;
  as_pageserver_feedback := None;
|}.

Inductive AcceptorMessage :=
  | AGreeting (m : AcceptorGreeting)
  | AVoteResponse (m : VoteResponse)
  | AAppendResponse (m : AppendResponse).

(** ** Reading *)

Abbreviation Reader := (ByteCodec.Reader SkErr) (only parsing).

(** [short] *)
Definition short (what : string) : SkErr := Protocol (MTruncated what).

Definition get_be (n : nat) (what : string) : Reader N :=
  READ bs <- get_bytes n (short what) ;; rret (be_value bs).

Definition get_u8 : string → Reader N := get_be 1.
Definition get_u16 : string → Reader N := get_be 2.
Definition get_u32 : string → Reader N := get_be 4.
Definition get_u64 : string → Reader N := get_be 8.
Definition get_i32 (what : string) : Reader Z := READ n <- get_be 4 what ;; rret (bits_i32 n).
Definition get_i64 (what : string) : Reader Z := READ n <- get_be 8 what ;; rret (bits_i64 n).
Definition get_lsn : string → Reader Lsn := get_u64.

(** The bytes before the first NUL, and what follows it. *)
Fixpoint split_nul (buf : Bytes) : option (Bytes * Bytes) :=
  match buf with
  | [] => None
  | b :: buf => if b =? 0 then Some ([], buf) else '(s, r) ← split_nul buf; Some (b :: s, r)
  end.

(** [get_cstr] *)
Definition get_cstr (what : string) : Reader string :=
  λ buf,
    match split_nul buf with
    | None => Err (Protocol (MBadMessage ("missing NUL after " +:+ what)))
    | Some (s, rest) =>
        if utf8_valid s then Ok (bytes_string s, rest)
        else Err (Protocol (MBadMessage (what +:+ " is not UTF-8")))
    end.

Definition get_member : Reader SafekeeperId :=
  READ id <- get_u64 "member node_id" ;;
  READ host <- get_cstr "member host" ;;
  READ port <- get_u16 "member port" ;;
  rret {| sk_id := id; sk_host := host; sk_pg_port := port |}.

(** [get_members] *)
Definition get_members (what : string) : Reader (list SafekeeperId) :=
  READ n <- get_u32 what ;; get_many (N.to_nat n) get_member.

(** [get_mconf] *)
Definition get_mconf : Reader Configuration :=
  READ gen <- get_u32 "generation" ;;
  READ ms <- get_members "members" ;;
  if negb (gen =? 0) && bool_decide (ms = [])
  then rfail (Protocol (MBadMessage "a generation with an empty member set"))
  else
    READ new <- get_members "new_members" ;;
    rret {| generation := gen;
            members := ms;
            new_members := if bool_decide (new = []) then None else Some new |}.

Definition get_term_lsn : Reader TermLsn :=
  READ t <- get_u64 "term history term" ;;
  READ l <- get_lsn "term history lsn" ;;
  rret {| tl_term := t; tl_lsn := l |}.

(** [get_term_history] *)
Definition get_term_history : Reader TermHistory :=
  READ n <- get_u32 "term history length" ;; get_many (N.to_nat n) get_term_lsn.

(** ** Writing *)

Definition put_u8 : N → Bytes := be_bytes 1.
Definition put_u16 : N → Bytes := be_bytes 2.
Definition put_u32 : N → Bytes := be_bytes 4.
Definition put_u64 : N → Bytes := be_bytes 8.
Definition put_i64 (z : Z) : Bytes := be_bytes 8 (i64_bits z).

(** [put_cstr] *)
Definition put_cstr (s : string) : Bytes := string_bytes s ++ [0].

Definition put_member (m : SafekeeperId) : Bytes :=
  put_u64 m.(sk_id) ++ put_cstr m.(sk_host) ++ put_u16 m.(sk_pg_port).

(** [put_members]; the length is cast to [u32]. *)
Definition put_members (ms : list SafekeeperId) : Bytes :=
  put_u32 (len ms) ++ concat (put_member <$> ms).

(** [put_mconf] *)
Definition put_mconf (c : Configuration) : Bytes :=
  put_u32 c.(generation) ++ put_members c.(members) ++ put_members (default [] c.(new_members)).

Definition put_term_lsn (e : TermLsn) : Bytes := put_u64 e.(tl_term) ++ put_u64 e.(tl_lsn).

(** [put_term_history] *)
Definition put_term_history (h : TermHistory) : Bytes :=
  put_u32 (len h) ++ concat (put_term_lsn <$> h).

Arguments put_u8 : simpl never.
Arguments put_u16 : simpl never.
Arguments put_u32 : simpl never.
Arguments put_u64 : simpl never.
Arguments put_i64 : simpl never.
Arguments put_cstr : simpl never.
Arguments put_mconf : simpl never.
Arguments put_term_history : simpl never.

(** [MAX_SEND_SIZE] *)
Definition MAX_SEND_SIZE : N := 131072.

(** The [hex] crate: [hex::encode] of an id and [hex::decode_to_slice] into one. *)
Class Hex := { hex_encode : Id → string; hex_decode_to_slice : string → option Id }.

Section messages.
Context `{Hex}.

(** [get_id] with [Id::from_str] *)
Definition get_id (what : string) : Reader Id :=
  READ s <- get_cstr what ;;
  match hex_decode_to_slice s with
  | Some i => rret i
  | None => rfail (Protocol (MBadMessage "invalid id: want 32 hex digits"))
  end.

(** The WAL of an [AppendRequest], after its header. *)
Definition get_wal (h : AppendRequestHeader) : Reader Bytes :=
  if h.(ah_end_lsn) <? h.(ah_begin_lsn)
  then rfail (Protocol (MBadMessage "AppendRequest begin_lsn > end_lsn"))
  else
    let n := h.(ah_end_lsn) - h.(ah_begin_lsn) in
    if MAX_SEND_SIZE <? n
    then rfail (Protocol (MBadMessage "AppendRequest > MAX_SEND_SIZE"))
    else get_bytes (N.to_nat n) (Protocol (MWalBytes h.(ah_begin_lsn) h.(ah_end_lsn) n)).

(** The body of a proposer message by its tag. *)
Definition get_proposer_body (tag : N) : Reader ProposerMessage :=
  if tag =? 103 (* g *) then
    READ tenant_id <- get_id "tenant_id" ;;
    READ timeline_id <- get_id "timeline_id" ;;
    READ conf <- get_mconf ;;
    READ version <- get_u32 "pg_version" ;;
    READ system <- get_u64 "system_id" ;;
    READ seg <- get_u32 "wal_seg_size" ;;
    rret (PGreeting {| pg_tenant_id := tenant_id; pg_timeline_id := timeline_id; pg_mconf := conf;
                       pg_pg_version := version; pg_system_id := system;
                       pg_wal_seg_size := seg |})
  else if tag =? 118 (* v *) then
    READ gen <- get_u32 "generation" ;;
    READ t <- get_u64 "term" ;;
    rret (PVoteRequest {| vr_generation := gen; vr_term := t |})
  else if tag =? 101 (* e *) then
    READ gen <- get_u32 "generation" ;;
    READ t <- get_u64 "term" ;;
    READ start <- get_lsn "start_streaming_at" ;;
    READ history <- get_term_history ;;
    rret (PElected {| pe_generation := gen; pe_term := t; pe_start_streaming_at := start;
                      pe_term_history := history |})
  else if tag =? 97 (* a *) then
    READ gen <- get_u32 "generation" ;;
    READ t <- get_u64 "term" ;;
    READ b <- get_lsn "begin_lsn" ;;
    READ e <- get_lsn "end_lsn" ;;
    READ c <- get_lsn "commit_lsn" ;;
    READ tr <- get_lsn "truncate_lsn" ;;
    let h := {| ah_generation := gen; ah_term := t; ah_begin_lsn := b; ah_end_lsn := e;
                ah_commit_lsn := c; ah_truncate_lsn := tr |} in
    READ wal <- get_wal h ;;
    rret (PAppend {| ar_h := h; ar_wal := wal |})
  else rfail (Protocol (MBadMessage "unknown proposer message tag")).

(** [ProposerMessage::parse]: bytes after the message are ignored. *)
Definition parse_proposer (buf : Bytes) : Result ProposerMessage SkErr :=
  match (READ tag <- get_u8 "tag" ;; get_proposer_body tag) buf with
  | Ok (m, _) => Ok m
  | Err e => Err e
  end.

(** [ProposerMessage::serialize] *)
Definition serialize_proposer (m : ProposerMessage) : Bytes :=
  match m with
  | PGreeting m =>
      put_u8 103 ++ put_cstr (hex_encode m.(pg_tenant_id)) ++ put_cstr (hex_encode m.(pg_timeline_id))
      ++ put_mconf m.(pg_mconf) ++ put_u32 m.(pg_pg_version) ++ put_u64 m.(pg_system_id)
      ++ put_u32 m.(pg_wal_seg_size)
  | PVoteRequest m => put_u8 118 ++ put_u32 m.(vr_generation) ++ put_u64 m.(vr_term)
  | PElected m =>
      put_u8 101 ++ put_u32 m.(pe_generation) ++ put_u64 m.(pe_term)
      ++ put_u64 m.(pe_start_streaming_at) ++ put_term_history m.(pe_term_history)
  | PAppend m =>
      let h := m.(ar_h) in
      put_u8 97 ++ put_u32 h.(ah_generation) ++ put_u64 h.(ah_term) ++ put_u64 h.(ah_begin_lsn)
      ++ put_u64 h.(ah_end_lsn) ++ put_u64 h.(ah_commit_lsn) ++ put_u64 h.(ah_truncate_lsn)
      ++ m.(ar_wal)
  end.
End messages.

(** ** Feedback *)

Definition put_kv (key : string) (value : Bytes) : Bytes :=
  put_cstr key ++ put_u32 (len value) ++ value.

(** The entries of [PageserverFeedback::serialize]. *)
Definition feedback_entries (fb : PageserverFeedback) : list Bytes :=
  [put_kv "current_timeline_size" (put_u64 fb.(pf_current_timeline_size));
   put_kv "ps_writelsn" (put_u64 fb.(pf_last_received_lsn));
   put_kv "ps_flushlsn" (put_u64 fb.(pf_disk_consistent_lsn));
   put_kv "ps_applylsn" (put_u64 fb.(pf_remote_consistent_lsn));
   put_kv "ps_replytime" (put_i64 fb.(pf_replytime_us))]
  ++ (if 0 <? fb.(pf_shard_number) then [put_kv "shard_number" (put_u32 fb.(pf_shard_number))] else [])
  ++ (if fb.(pf_corruption_detected) then [put_kv "corruption_detected" (put_u8 1)] else []).

(** [PageserverFeedback::serialize]: the number of entries, then the entries. *)
Definition serialize_feedback (fb : PageserverFeedback) : Bytes :=
  put_u8 (len (feedback_entries fb)) ++ concat (feedback_entries fb).

(** The match on a key and its length; an unknown key is skipped. *)
Definition set_feedback (fb : PageserverFeedback) (key : string) (v : Bytes) : PageserverFeedback :=
  let n := be_value v in
  let key_is (k : string) (l : N) := bool_decide (key = k) && (len v =? l) in
  {| pf_current_timeline_size :=
       if key_is "current_timeline_size" 8 then n else fb.(pf_current_timeline_size);
     pf_last_received_lsn := if key_is "ps_writelsn" 8 then n else fb.(pf_last_received_lsn);
     pf_disk_consistent_lsn := if key_is "ps_flushlsn" 8 then n else fb.(pf_disk_consistent_lsn);
     pf_remote_consistent_lsn := if key_is "ps_applylsn" 8 then n else fb.(pf_remote_consistent_lsn);
     pf_replytime_us := if key_is "ps_replytime" 8 then bits_i64 n else fb.(pf_replytime_us);
     pf_shard_number := if key_is "shard_number" 4 then n else fb.(pf_shard_number);
     pf_corruption_detected :=
       if key_is "corruption_detected" 1 then negb (n =? 0) else fb.(pf_corruption_detected) |}.

Definition get_kv : Reader (string * Bytes) :=
  READ key <- get_cstr "feedback key" ;;
  READ n <- get_i32 "feedback value length" ;;
  if (n <? 0)%Z then rfail (Protocol (MBadMessage ("negative length for " +:+ key)))
  else READ v <- get_bytes (Z.to_nat n) (short key) ;; rret (key, v).

(** The loop of [PageserverFeedback::parse]. *)
Fixpoint get_feedback (n : nat) (fb : PageserverFeedback) : Reader PageserverFeedback :=
  match n with
  | O => rret fb
  | S n => READ kv <- get_kv ;; get_feedback n (set_feedback fb kv.1 kv.2)
  end.

(** [PageserverFeedback::parse]: bytes after the entries are ignored. *)
Definition parse_feedback (buf : Bytes) : Result PageserverFeedback SkErr :=
  match (READ n <- get_u8 "feedback key count" ;;
         get_feedback (N.to_nat n) PageserverFeedback_default) buf with
  | Ok (fb, _) => Ok fb
  | Err e => Err e
  end.

(** ** Acceptor messages *)

(** [AcceptorMessage::serialize] *)
Definition serialize_acceptor (m : AcceptorMessage) : Bytes :=
  match m with
  | AGreeting m => put_u8 103 ++ put_u64 m.(ag_node_id) ++ put_mconf m.(ag_mconf) ++ put_u64 m.(ag_term)
  | AVoteResponse m =>
      put_u8 118 ++ put_u32 m.(vs_generation) ++ put_u64 m.(vs_term)
      ++ put_u8 (if m.(vs_vote_given) then 1 else 0) ++ put_u64 m.(vs_flush_lsn)
      ++ put_u64 m.(vs_truncate_lsn) ++ put_term_history m.(vs_term_history)
  | AAppendResponse m =>
      put_u8 97 ++ put_u32 m.(as_generation) ++ put_u64 m.(as_term) ++ put_u64 m.(as_flush_lsn)
      ++ put_u64 m.(as_commit_lsn) ++ put_i64 m.(as_hs_feedback).(hs_ts)
      ++ put_u64 m.(as_hs_feedback).(hs_xmin) ++ put_u64 m.(as_hs_feedback).(hs_catalog_xmin)
      ++ match m.(as_pageserver_feedback) with Some fb => serialize_feedback fb | None => [] end
  end.

(** What is left of the payload, as feedback. *)
Definition get_rest_feedback : Reader (option PageserverFeedback) :=
  λ buf, match buf with
         | [] => Ok (None, [])
         | _ => match parse_feedback buf with Ok fb => Ok (Some fb, []) | Err e => Err e end
         end.

Definition get_acceptor_body (tag : N) : Reader AcceptorMessage :=
  if tag =? 103 then
    READ node <- get_u64 "node_id" ;;
    READ conf <- get_mconf ;;
    READ t <- get_u64 "term" ;;
    rret (AGreeting {| ag_node_id := node; ag_mconf := conf; ag_term := t |})
  else if tag =? 118 then
    READ gen <- get_u32 "generation" ;;
    READ t <- get_u64 "term" ;;
    READ given <- get_u8 "vote_given" ;;
    READ flush <- get_lsn "flush_lsn" ;;
    READ trunc <- get_lsn "truncate_lsn" ;;
    READ history <- get_term_history ;;
    rret (AVoteResponse {| vs_generation := gen; vs_term := t; vs_vote_given := negb (given =? 0);
                           vs_flush_lsn := flush; vs_truncate_lsn := trunc;
                           vs_term_history := history |})
  else if tag =? 97 then
    READ gen <- get_u32 "generation" ;;
    READ t <- get_u64 "term" ;;
    READ flush <- get_lsn "flush_lsn" ;;
    READ commit <- get_lsn "commit_lsn" ;;
    READ ts <- get_i64 "hs ts" ;;
    READ xmin <- get_u64 "hs xmin" ;;
    READ cxmin <- get_u64 "hs catalog_xmin" ;;
    READ fb <- get_rest_feedback ;;
    rret (AAppendResponse {| as_generation := gen; as_term := t; as_flush_lsn := flush;
                             as_commit_lsn := commit;
                             as_hs_feedback := {| hs_ts := ts; hs_xmin := xmin;
                                                  hs_catalog_xmin := cxmin |};
                             as_pageserver_feedback := fb |})
  else rfail (Protocol (MBadMessage "unknown acceptor message tag")).

(** [AcceptorMessage::parse], with [expect_end] *)
Definition parse_acceptor (buf : Bytes) : Result AcceptorMessage SkErr :=
  match (READ tag <- get_u8 "tag" ;; get_acceptor_body tag) buf with
  | Ok (m, []) => Ok m
  | Ok (_, _) => Err (Protocol (MBadMessage "trailing bytes after acceptor message"))
  | Err e => Err e
  end.
