(* ===== verification/SkProtoInv.v ===== *)
(** * The safekeeper protocol reads what it writes

    Every message, and each of its parts, is read back from the bytes it is written as, and a
    strict prefix of them is refused. *)

From Stdlib Require Import NArith ZArith Lia Ascii.
From stdpp Require Import prelude strings numbers list.
From S2P Require Import Prelude.
From S2P Require Import ByteCodec.
From S2P Require Import SkTypes.
From S2P Require Import SkStore.
From S2P Require Import SkProto.

Open Scope N_scope.

(** ** Numbers *)

Lemma reads_be k what n : n < 256 ^ N.of_nat k → reads (get_be k what) n (be_bytes k n).
Proof.
  intros L. unfold get_be. rewrite <- (be_value_bytes k n) at 1 by done.
  apply (reads_map _ be_value), reads_bytes, length_be_bytes.
Qed.

Lemma reads_u8 what n : n <= 255 → reads (get_u8 what) n (put_u8 n).
Proof. intros L. apply reads_be. change (256 ^ N.of_nat 1) with 256. lia. Qed.
Lemma reads_u16 what n : u16_ok n → reads (get_u16 what) n (put_u16 n).
Proof. unfold u16_ok. intros L. apply reads_be. change (256 ^ N.of_nat 2) with 65536. lia. Qed.
Lemma reads_u32 what n : u32_ok n → reads (get_u32 what) n (put_u32 n).
Proof.
  unfold u32_ok, u32_MAX. intros L. apply reads_be. change (256 ^ N.of_nat 4) with 4294967296. lia.
Qed.
Lemma reads_u64 what n : u64_ok n → reads (get_u64 what) n (put_u64 n).
Proof.
  unfold u64_ok, u64_MAX. intros L. apply reads_be.
  change (256 ^ N.of_nat 8) with 18446744073709551616. lia.
Qed.

Lemma reads_i64 what z : i64_ok z → reads (get_i64 what) z (put_i64 z).
Proof.
  intros L. unfold get_i64, put_i64. rewrite <- (bits_i64_bits z) at 1 by done.
  apply (reads_map _ bits_i64), reads_be. change (256 ^ N.of_nat 8) with 18446744073709551616.
  apply i64_bits_bound.
Qed.

(** ** Strings *)

Record cstr_ok (s : string) : Prop := {
  cs_utf8 : utf8_valid (string_bytes s) = true;
  cs_nul : 0 ∉ string_bytes s;
}.

Lemma split_nul_app s rest : 0 ∉ s → split_nul (s ++ 0 :: rest) = Some (s, rest).
Proof.
  induction s as [|b s IH]; cbn; [done|]. intros [Nb Ns]%not_elem_of_cons.
  rewrite (proj2 (N.eqb_neq _ _)) by done. by rewrite IH.
Qed.

Lemma split_nul_none s : 0 ∉ s → split_nul s = None.
Proof.
  induction s as [|b s IH]; cbn; [done|]. intros [Nb Ns]%not_elem_of_cons.
  rewrite (proj2 (N.eqb_neq _ _)) by done. by rewrite IH.
Qed.

Lemma reads_cstr what s : cstr_ok s → reads (get_cstr what) s (put_cstr s).
Proof.
  intros [U Z]. unfold get_cstr, put_cstr. split.
  - intros rest. rewrite <- app_assoc. cbn [app]. rewrite split_nul_app by done.
    by rewrite U, bytes_string_bytes.
  - intros p (q & E & Nq). destruct q as [|y q _] using rev_ind; [done|].
    rewrite app_assoc in E. apply app_inj_tail in E as [E _].
    rewrite split_nul_none; [by eexists|]. intros I. apply Z. rewrite E. apply elem_of_app. by left.
Qed.

(** ** Configurations and histories *)

Record member_ok (m : SafekeeperId) : Prop := {
  mo_id : u64_ok m.(sk_id);
  mo_host : cstr_ok m.(sk_host);
  mo_port : u16_ok m.(sk_pg_port);
}.

Definition members_ok (ms : list SafekeeperId) : Prop := u32_ok (len ms) ∧ Forall member_ok ms.

(** A configuration the wire can carry: an empty set of new members is written as none. *)
Record mconf_ok (c : Configuration) : Prop := {
  co_gen : u32_ok c.(generation);
  co_members : members_ok c.(members);
  co_new : members_ok (default [] c.(new_members));
  co_nonempty : c.(generation) ≠ 0 → c.(members) ≠ [];
  co_some : c.(new_members) ≠ Some [];
}.

Definition history_ok (h : TermHistory) : Prop :=
  u32_ok (len h) ∧ Forall (λ e, u64_ok e.(tl_term) ∧ u64_ok e.(tl_lsn)) h.

Lemma reads_member m : member_ok m → reads get_member m (put_member m).
Proof.
  intros [? ? ?]. unfold get_member, put_member. destruct m as [id host port]. cbn in *.
  eapply reads_bind; [by apply reads_u64|]. eapply reads_bind; [by apply reads_cstr|].
  by apply (reads_map _ (λ p, {| sk_id := id; sk_host := host; sk_pg_port := p |})), reads_u16.
Qed.

Lemma reads_counted {A} what (r : Reader A) (put : A → Bytes) xs :
  u32_ok (len xs) → Forall (λ x, reads r x (put x)) xs →
  reads (READ n <- get_u32 what ;; get_many (N.to_nat n) r)%loams xs
    (put_u32 (len xs) ++ concat (put <$> xs)).
Proof.
  intros L F. eapply reads_bind; [by apply reads_u32|]. unfold len. rewrite Nat2N.id.
  by apply reads_many.
Qed.

Lemma reads_members what ms : members_ok ms → reads (get_members what) ms (put_members ms).
Proof.
  intros [L F]. apply reads_counted; [done|]. eapply Forall_impl; [exact F|]. apply reads_member.
Qed.

Lemma reads_history h : history_ok h → reads get_term_history h (put_term_history h).
Proof.
  intros [L F]. apply reads_counted; [done|]. eapply Forall_impl; [exact F|].
  intros [t l] [? ?]. cbn in *. eapply reads_bind; [by apply reads_u64|].
  by apply (reads_map _ (λ l, {| tl_term := t; tl_lsn := l |})), reads_u64.
Qed.

Lemma reads_mconf c : mconf_ok c → reads get_mconf c (put_mconf c).
Proof.
  intros [G M W Ne So]. destruct c as [gen ms new]. unfold get_mconf, put_mconf. cbn in *.
  eapply reads_bind; [by apply reads_u32|]. eapply reads_bind; [by apply reads_members|].
  destruct (negb (gen =? 0) && bool_decide (ms = [])) eqn:C.
  { apply andb_true_iff in C as [C1 C2]. apply bool_decide_eq_true in C2.
    apply negb_true_iff, N.eqb_neq in C1. by apply Ne in C1. }
  assert (new = if bool_decide (default [] new = []) then None else Some (default [] new)) as E.
  { destruct new as [[|m new]|]; done. }
  rewrite E at 1. by apply (reads_map _ (λ new, {| generation := gen; members := ms;
    new_members := if bool_decide (new = []) then None else Some new |})), reads_members.
Qed.

#[export] Hint Resolve reads_u8 reads_u16 reads_u32 reads_u64 reads_i64 reads_cstr reads_mconf
  reads_history : reads.

(** ** Proposer messages *)

Definition id_ok (i : Id) : Prop := length i = 16%nat ∧ Forall (λ b, b < 256) i.

(** What the protocol relies on of the [hex] crate. *)
Class HexOk `{Hex} := {
  hex_roundtrip i : id_ok i → hex_decode_to_slice (hex_encode i) = Some i;
  hex_text i : id_ok i → cstr_ok (hex_encode i);
}.

Section messages.
Context `{HexOk}.

Lemma reads_id what i : id_ok i → reads (get_id what) i (put_cstr (hex_encode i)).
Proof.
  intros Ok. unfold get_id. rewrite <- (app_nil_r (put_cstr _)).
  eapply reads_bind; [by apply reads_cstr, hex_text|]. rewrite hex_roundtrip by done.
  apply reads_ret.
Qed.

Record header_ok (h : AppendRequestHeader) : Prop := {
  hd_generation : u32_ok h.(ah_generation);
  hd_term : u64_ok h.(ah_term);
  hd_begin : u64_ok h.(ah_begin_lsn);
  hd_end : u64_ok h.(ah_end_lsn);
  hd_commit : u64_ok h.(ah_commit_lsn);
  hd_truncate : u64_ok h.(ah_truncate_lsn);
}.

(** The messages a proposer sends: numbers of their widths, and the WAL its header announces. *)
Definition proposer_msg_ok (m : ProposerMessage) : Prop :=
  match m with
  | PGreeting g =>
      id_ok g.(pg_tenant_id) ∧ id_ok g.(pg_timeline_id) ∧ mconf_ok g.(pg_mconf)
      ∧ u32_ok g.(pg_pg_version) ∧ u64_ok g.(pg_system_id) ∧ u32_ok g.(pg_wal_seg_size)
  | PVoteRequest v => u32_ok v.(vr_generation) ∧ u64_ok v.(vr_term)
  | PElected e =>
      u32_ok e.(pe_generation) ∧ u64_ok e.(pe_term) ∧ u64_ok e.(pe_start_streaming_at)
      ∧ history_ok e.(pe_term_history)
  | PAppend a =>
      header_ok a.(ar_h) ∧ len a.(ar_wal) <= MAX_SEND_SIZE
      ∧ a.(ar_h).(ah_end_lsn) = a.(ar_h).(ah_begin_lsn) + len a.(ar_wal)
  end.

Lemma reads_wal h wal :
  len wal <= MAX_SEND_SIZE → h.(ah_end_lsn) = h.(ah_begin_lsn) + len wal →
  reads (get_wal h) wal wal.
Proof.
  intros L E. unfold get_wal. rewrite E. rewrite (proj2 (N.ltb_ge _ _)) by lia.
  replace (ah_begin_lsn h + len wal - ah_begin_lsn h) with (len wal) by lia.
  cbv zeta. rewrite (proj2 (N.ltb_ge _ _)) by lia. apply reads_bytes. unfold len. lia.
Qed.

Hint Resolve reads_id reads_wal : reads.

Lemma reads_proposer m :
  proposer_msg_ok m →
  reads (READ tag <- get_u8 "tag" ;; get_proposer_body tag)%loams m (serialize_proposer m).
Proof.
  intros M. destruct m as [[te ti c v s w]|[g t]|[g t st hi]|[[g t b e c tr] wal]]; cbn in *.
  - destruct M as (? & ? & ? & ? & ? & ?). eapply reads_bind; [by apply reads_u8|]. cbn.
    do 5 field. by apply (reads_map _ (λ seg, PGreeting {| pg_tenant_id := te;
      pg_timeline_id := ti; pg_mconf := c; pg_pg_version := v; pg_system_id := s;
      pg_wal_seg_size := seg |})), reads_u32.
  - destruct M as (? & ?). eapply reads_bind; [by apply reads_u8|]. cbn. field.
    by apply (reads_map _ (λ t, PVoteRequest {| vr_generation := g; vr_term := t |})), reads_u64.
  - destruct M as (? & ? & ? & ?). eapply reads_bind; [by apply reads_u8|]. cbn. do 3 field.
    by apply (reads_map _ (λ h, PElected {| pe_generation := g; pe_term := t;
      pe_start_streaming_at := st; pe_term_history := h |})), reads_history.
  - destruct M as ([? ? ? ? ? ?] & L & E). cbn in *.
    eapply reads_bind; [by apply reads_u8|]. cbn. do 6 field.
    by apply (reads_map _ (λ wal, PAppend {| ar_h := {| ah_generation := g; ah_term := t;
      ah_begin_lsn := b; ah_end_lsn := e; ah_commit_lsn := c; ah_truncate_lsn := tr |};
      ar_wal := wal |})), reads_wal.
Qed.

Lemma parse_proposer_whole m rest :
  proposer_msg_ok m → parse_proposer (serialize_proposer m ++ rest) = Ok m.
Proof. intros M. unfold parse_proposer. by rewrite (rd_ok _ _ _ (reads_proposer m M)). Qed.

Lemma parse_proposer_short m p :
  proposer_msg_ok m → strictly p (serialize_proposer m) → ∃ e, parse_proposer p = Err e.
Proof.
  intros M S. unfold parse_proposer.
  destruct (rd_short _ _ _ (reads_proposer m M) p S) as [e ->]. by exists e.
Qed.
End messages.

(** ** Feedback *)

Definition kv_ok (kv : string * Bytes) : Prop := cstr_ok kv.1 ∧ len kv.2 <= 2147483647.

Lemma reads_kv kv : kv_ok kv → reads get_kv kv (put_kv kv.1 kv.2).
Proof.
  intros [K L]. destruct kv as [key v]. cbn [fst snd] in *. unfold get_kv, put_kv.
  eapply reads_bind; [by apply reads_cstr|]. eapply reads_bind.
  { apply (reads_map _ bits_i32), reads_be. change (256 ^ N.of_nat 4) with 4294967296. lia. }
  unfold bits_i32. rewrite (proj2 (N.leb_le _ _)) by done.
  replace (Z.of_N (len v) <? 0)%Z with false by (symmetry; apply Z.ltb_ge; lia).
  apply (reads_map _ (λ v, (key, v))), reads_bytes. unfold len. lia.
Qed.

Definition feedback_of (fb : PageserverFeedback) (kvs : list (string * Bytes)) : PageserverFeedback :=
  foldl (λ fb kv, set_feedback fb kv.1 kv.2) fb kvs.

Lemma reads_feedback kvs fb :
  Forall kv_ok kvs →
  reads (get_feedback (length kvs) fb) (feedback_of fb kvs)
    (concat ((λ kv, put_kv kv.1 kv.2) <$> kvs)).
Proof.
  revert fb. induction kvs as [|kv kvs IH]; intros fb F; cbn; [apply reads_ret|].
  apply Forall_cons in F as [Fk F]. eapply reads_bind; [by apply reads_kv|]. by apply IH.
Qed.

(** The entries by key. *)
Definition feedback_kvs (fb : PageserverFeedback) : list (string * Bytes) :=
  [("current_timeline_size", put_u64 fb.(pf_current_timeline_size));
   ("ps_writelsn", put_u64 fb.(pf_last_received_lsn));
   ("ps_flushlsn", put_u64 fb.(pf_disk_consistent_lsn));
   ("ps_applylsn", put_u64 fb.(pf_remote_consistent_lsn));
   ("ps_replytime", put_i64 fb.(pf_replytime_us))]
  ++ (if 0 <? fb.(pf_shard_number) then [("shard_number", put_u32 fb.(pf_shard_number))] else [])
  ++ (if fb.(pf_corruption_detected) then [("corruption_detected", put_u8 1)] else []).

Lemma feedback_entries_kvs fb :
  feedback_entries fb = (λ kv, put_kv kv.1 kv.2) <$> feedback_kvs fb.
Proof.
  unfold feedback_entries, feedback_kvs.
  by destruct (0 <? pf_shard_number fb), (pf_corruption_detected fb).
Qed.

Record feedback_ok (fb : PageserverFeedback) : Prop := {
  fb_size : u64_ok fb.(pf_current_timeline_size);
  fb_last : u64_ok fb.(pf_last_received_lsn);
  fb_disk : u64_ok fb.(pf_disk_consistent_lsn);
  fb_remote : u64_ok fb.(pf_remote_consistent_lsn);
  fb_reply : i64_ok fb.(pf_replytime_us);
  fb_shard : u32_ok fb.(pf_shard_number);
}.

Lemma put_u64_value n : u64_ok n → be_value (put_u64 n) = n.
Proof.
  unfold u64_ok, u64_MAX, put_u64. intros L. apply be_value_bytes.
  change (256 ^ N.of_nat 8) with 18446744073709551616. lia.
Qed.

Lemma put_i64_value z : be_value (put_i64 z) = i64_bits z.
Proof.
  unfold put_i64. apply be_value_bytes. change (256 ^ N.of_nat 8) with 18446744073709551616.
  apply i64_bits_bound.
Qed.

Lemma put_u32_value n : u32_ok n → be_value (put_u32 n) = n.
Proof.
  unfold u32_ok, u32_MAX, put_u32. intros L. apply be_value_bytes.
  change (256 ^ N.of_nat 4) with 4294967296. lia.
Qed.

(** Concrete keys compare by computation. *)
Ltac keys :=
  repeat match goal with
  | |- context [bool_decide (?a = ?b)] =>
      let v := eval vm_compute in (bool_decide (a = b)) in change (bool_decide (a = b)) with v
  end.

(** A value of a field, by its length and number. *)
Definition value_is (v : Bytes) (l n : N) : Prop := len v = l ∧ be_value v = n.

Lemma put_u64_is n : u64_ok n → value_is (put_u64 n) 8 n.
Proof. intros L. split; [unfold len, put_u64; by rewrite length_be_bytes|by apply put_u64_value]. Qed.
Lemma put_i64_is z : value_is (put_i64 z) 8 (i64_bits z).
Proof. split; [unfold len, put_i64; by rewrite length_be_bytes|apply put_i64_value]. Qed.
Lemma put_u32_is n : u32_ok n → value_is (put_u32 n) 4 n.
Proof. intros L. split; [unfold len, put_u32; by rewrite length_be_bytes|by apply put_u32_value]. Qed.
Lemma put_u8_is : value_is (put_u8 1) 1 1.
Proof. done. Qed.

Lemma feedback_of_kvs fb :
  feedback_ok fb → feedback_of PageserverFeedback_default (feedback_kvs fb) = fb.
Proof.
  intros [Oa Ob Oc Od Oe Os]. destruct fb as [a b c d e s x]. cbn in *.
  unfold feedback_kvs, feedback_of.
  cbn [pf_current_timeline_size pf_last_received_lsn pf_disk_consistent_lsn pf_remote_consistent_lsn
    pf_replytime_us pf_shard_number pf_corruption_detected].
  destruct (put_u64_is a Oa) as [La Va], (put_u64_is b Ob) as [Lb Vb], (put_u64_is c Oc) as [Lc Vc],
    (put_u64_is d Od) as [Ld Vd], (put_i64_is e) as [Le Ve], (put_u32_is s Os) as [Ls Vs],
    put_u8_is as [Lx Vx].
  rewrite !foldl_app. cbn [foldl fst snd]. unfold set_feedback. keys.
  rewrite La, Lb, Lc, Ld, Le, Va, Vb, Vc, Vd, Ve. cbn.
  rewrite bits_i64_bits by done.
  destruct (N.ltb_spec 0 s) as [P|P]; [|replace s with 0 by lia]; destruct x;
    cbn [foldl fst snd]; unfold set_feedback; keys;
    rewrite ?Ls, ?Vs, ?Lx, ?Vx; cbn; done.
Qed.

Lemma feedback_kvs_ok fb : feedback_ok fb → Forall kv_ok (feedback_kvs fb).
Proof.
  intros [Oa Ob Oc Od Oe Os]. unfold feedback_kvs.
  assert (∀ key v l, cstr_ok key → len v = l → l <= 8 → kv_ok (key, v)) as K.
  { intros key v l C L B. split; [done|]. cbn. lia. }
  assert (∀ k n, len (be_bytes k n) = N.of_nat k) as Lb.
  { intros k n. unfold len. by rewrite length_be_bytes. }
  assert (∀ s, utf8_valid (string_bytes s) = true → bool_decide (0 ∉ string_bytes s) = true →
            cstr_ok s) as C.
  { intros s U Z. split; [done|]. by apply bool_decide_eq_true in Z. }
  repeat (apply Forall_app; split); repeat case_match;
    repeat (apply Forall_cons_2; [by eapply K; [apply C|apply Lb|]|]); apply Forall_nil_2.
Qed.

Lemma serialize_feedback_length fb : length (serialize_feedback fb) ≠ 0%nat.
Proof. unfold serialize_feedback. rewrite length_app. unfold put_u8. rewrite length_be_bytes. lia. Qed.

Lemma parse_serialize_feedback fb :
  feedback_ok fb → parse_feedback (serialize_feedback fb) = Ok fb.
Proof.
  intros F. unfold parse_feedback, serialize_feedback. rewrite feedback_entries_kvs.
  set (kvs := feedback_kvs fb). assert (len ((λ kv, put_kv kv.1 kv.2) <$> kvs) = len kvs) as ->.
  { unfold len. by rewrite length_fmap. }
  assert (len kvs <= 255) as L.
  { unfold kvs, feedback_kvs. by destruct (_ <? _), (pf_corruption_detected fb). }
  assert (reads (READ n <- get_u8 "feedback key count" ;;
                 get_feedback (N.to_nat n) PageserverFeedback_default)%loams fb
            (put_u8 (len kvs) ++ concat ((λ kv, put_kv kv.1 kv.2) <$> kvs))) as R.
  { eapply reads_bind; [by apply reads_u8|]. unfold len. rewrite Nat2N.id.
    rewrite <- (feedback_of_kvs fb F) at 1. by apply reads_feedback, feedback_kvs_ok. }
  pose proof (rd_ok _ _ _ R []) as E. rewrite app_nil_r in E. by rewrite E.
Qed.

(** ** Acceptor messages *)

Definition acceptor_msg_ok (m : AcceptorMessage) : Prop :=
  match m with
  | AGreeting g => u64_ok g.(ag_node_id) ∧ mconf_ok g.(ag_mconf) ∧ u64_ok g.(ag_term)
  | AVoteResponse v =>
      u32_ok v.(vs_generation) ∧ u64_ok v.(vs_term) ∧ u64_ok v.(vs_flush_lsn)
      ∧ u64_ok v.(vs_truncate_lsn) ∧ history_ok v.(vs_term_history)
  | AAppendResponse a =>
      u32_ok a.(as_generation) ∧ u64_ok a.(as_term) ∧ u64_ok a.(as_flush_lsn)
      ∧ u64_ok a.(as_commit_lsn) ∧ i64_ok a.(as_hs_feedback).(hs_ts)
      ∧ u64_ok a.(as_hs_feedback).(hs_xmin) ∧ u64_ok a.(as_hs_feedback).(hs_catalog_xmin)
      ∧ match a.(as_pageserver_feedback) with Some fb => feedback_ok fb | None => True end
  end.

Lemma parse_acceptor_reads m :
  reads (READ tag <- get_u8 "tag" ;; get_acceptor_body tag)%loams m (serialize_acceptor m) →
  parse_acceptor (serialize_acceptor m) = Ok m.
Proof.
  intros R. unfold parse_acceptor. pose proof (rd_ok _ _ _ R []) as E.
  rewrite app_nil_r in E. by rewrite E.
Qed.

(** A field at the front of a payload. *)
Lemma rbind_reads {A B} (r : Reader A) (k : A → Reader B) x bs rest :
  reads r x bs → rbind r k (bs ++ rest) = k x rest.
Proof. intros R. unfold rbind. by rewrite (rd_ok _ _ _ R). Qed.

Ltac front := erewrite rbind_reads; [|by eauto with reads].

Lemma parse_serialize_acceptor m :
  acceptor_msg_ok m → parse_acceptor (serialize_acceptor m) = Ok m.
Proof.
  intros M. destruct m as [[n c t]|[g t v f tr hi]|[g t f c [ts xm cx] fb]]; cbn in M.
  - destruct M as (? & ? & ?). apply parse_acceptor_reads. cbn.
    eapply reads_bind; [by apply reads_u8|]. cbn. do 2 field.
    by apply (reads_map _ (λ t, AGreeting {| ag_node_id := n; ag_mconf := c; ag_term := t |})), reads_u64.
  - destruct M as (? & ? & ? & ? & ?). apply parse_acceptor_reads. cbn.
    eapply reads_bind; [by apply reads_u8|]. cbn. do 2 field.
    eapply reads_bind; [apply reads_u8; by destruct v|]. do 2 field.
    replace (AVoteResponse _) with (AVoteResponse {| vs_generation := g; vs_term := t;
      vs_vote_given := negb ((if v then 1 else 0) =? 0); vs_flush_lsn := f; vs_truncate_lsn := tr;
      vs_term_history := hi |}) by (by destruct v).
    by apply (reads_map _ (λ hi, AVoteResponse {| vs_generation := g; vs_term := t;
      vs_vote_given := negb ((if v then 1 else 0) =? 0); vs_flush_lsn := f; vs_truncate_lsn := tr;
      vs_term_history := hi |})), reads_history.
  - destruct M as (? & ? & ? & ? & ? & ? & ? & F). unfold parse_acceptor. cbn.
    erewrite rbind_reads; [|by apply reads_u8]. cbn. do 7 front.
    unfold rbind, rret, get_rest_feedback. destruct fb as [fb|]; [|done].
    rewrite parse_serialize_feedback by done.
    pose proof (serialize_feedback_length fb). by destruct (serialize_feedback fb).
Qed.
