(* ===== verification/SkAcceptor.v ===== *)
(** * The acceptor (loams-safekeeper/src/acceptor.rs)

    One proposer connection's view of a timeline, over any store.  [WalStore] is the trait, a
    class of the calls the acceptor makes; [WalStoreOk] is what its clients rely on: a call
    that succeeds applies the rule of [SkStore] to the timeline's head.  The in-memory store is
    an instance of both.  A handler takes the store and the acceptor and returns both with its
    result.
    [head_step] is what any connection may do to a head, with one elected proposer per term, and
    what it keeps of the WAL end while the term stands. *)

From Stdlib Require Import NArith Lia.
From stdpp Require Import prelude gmap strings numbers list.
From S2P Require Import Prelude.
From S2P Require Import BTree.
From S2P Require Import ByteCodec.
From S2P Require Import SkTypes.
From S2P Require Import SkStore.
From S2P Require Import SkWal.
From S2P Require Import SkStoreInv.
From S2P Require Import SkHistory.
From S2P Require Import SkProto.

Open Scope N_scope.

(** ** The store *)

Class WalStore (S : Type) := {
  ws_max_in_flight : S → N;
  ws_load : S → TimelineId → Result (option AcceptorState) SkErr;
  ws_create : S → TimelineId → ServerInfo → Lsn → S * Result AcceptorState SkErr;
  ws_update_meta : S → TimelineId → ServerInfo → option Configuration →
    S * Result AcceptorState SkErr;
  ws_vote : S → TimelineId → Term → S * Result (bool * AcceptorState) SkErr;
  ws_elected : S → TimelineId → ProposerElected →
    S * Result (Result AcceptorState Deposed) SkErr;
  ws_append : S → TimelineId → AppendBatch → S * Result (Result AcceptorState Deposed) SkErr;
  ws_record_commit_lsn : S → TimelineId → Term → Lsn → S * Result (Result () Deposed) SkErr;
  ws_record_backup_lsn : S → TimelineId → Lsn → S * Result () SkErr;
  ws_record_remote_consistent_lsn : S → TimelineId → Lsn → S * Result () SkErr;
  ws_read : S → TimelineId → Lsn → N → Result (list (Lsn * Bytes)) SkErr;
  ws_trim : S → TimelineId → Lsn → S * Result Lsn SkErr;
}.

(** The calls of [impl WalStore for MemWalStore]. *)
#[export] Instance mem_wal_store : WalStore (gmap TimelineId MemTimeline) := {
  ws_max_in_flight _ := 1;
  ws_load s tl := Ok (tl_head <$> s !! tl);
  ws_create s tl srv start := let '(s, h) := mem_create s tl srv start in (s, Ok h);
  ws_update_meta s tl srv conf := with_timeline s tl (λ t, Ok (tl_update_meta t srv conf));
  ws_vote s tl v := with_timeline s tl (λ t, Ok (tl_vote t v));
  ws_elected s tl msg := with_timeline s tl (λ t, tl_elected t msg);
  ws_append s tl b := with_timeline s tl (λ t, tl_append t b);
  ws_record_commit_lsn s tl v l := with_timeline s tl (λ t, tl_record_commit t v l);
  ws_record_backup_lsn s tl l := with_timeline s tl (λ t, Ok (tl_record_backup t l, ()));
  ws_record_remote_consistent_lsn s tl l :=
    with_timeline s tl (λ t, Ok (tl_record_remote t l, ()));
  ws_read s tl from max := match s !! tl with
                           | None => Err (NotFound tl)
                           | Some t => tl_read t from max
                           end;
  ws_trim s tl l := with_timeline s tl (λ t, Ok (tl_trim t l));
}.

(** ** The acceptor *)

Record Acceptor := {
  ac_node_id : NodeId;
  ac_tl : TimelineId;
  ac_state : AcceptorState;
  ac_commit_lsn : Lsn;
  ac_peer_horizon_lsn : Lsn;
  ac_term_start_lsn : option Lsn;
  ac_issued_end : Lsn;
}.

Record PendingAppends := {
  pa_batch : option AppendBatch;
  pa_term : Term;
  pa_term_start_lsn : Lsn;
  pa_commit_lsn : Lsn;
  pa_truncate_lsn : Lsn;
}.

Inductive Appends :=
  | Reply (m : AcceptorMessage)
  | Pending (p : PendingAppends).

(** Assignments to fields of the acceptor. *)
Definition with_state (a : Acceptor) (st : AcceptorState) : Acceptor := {|
  ac_node_id := a.(ac_node_id);
  ac_tl := a.(ac_tl);
  ac_state := st;
  ac_commit_lsn := a.(ac_commit_lsn);
  ac_peer_horizon_lsn := a.(ac_peer_horizon_lsn);
  ac_term_start_lsn := a.(ac_term_start_lsn);
  ac_issued_end := a.(ac_issued_end);
|}.

Definition with_lsns (a : Acceptor) (commit horizon : Lsn) : Acceptor := {|
  ac_node_id := a.(ac_node_id);
  ac_tl := a.(ac_tl);
  ac_state := a.(ac_state);
  ac_commit_lsn := commit;
  ac_peer_horizon_lsn := horizon;
  ac_term_start_lsn := a.(ac_term_start_lsn);
  ac_issued_end := a.(ac_issued_end);
|}.

Definition with_issued_end (a : Acceptor) (end_ : Lsn) : Acceptor := {|
  ac_node_id := a.(ac_node_id);
  ac_tl := a.(ac_tl);
  ac_state := a.(ac_state);
  ac_commit_lsn := a.(ac_commit_lsn);
  ac_peer_horizon_lsn := a.(ac_peer_horizon_lsn);
  ac_term_start_lsn := a.(ac_term_start_lsn);
  ac_issued_end := end_;
|}.

Definition with_term_start (a : Acceptor) (start : option Lsn) : Acceptor := {|
  ac_node_id := a.(ac_node_id);
  ac_tl := a.(ac_tl);
  ac_state := a.(ac_state);
  ac_commit_lsn := a.(ac_commit_lsn);
  ac_peer_horizon_lsn := a.(ac_peer_horizon_lsn);
  ac_term_start_lsn := start;
  ac_issued_end := a.(ac_issued_end);
|}.

Definition with_term (a : Acceptor) (t : Term) : Acceptor := with_state a (set_term a.(ac_state) t).

(** [Acceptor::state] *)
Definition acceptor_view (a : Acceptor) : AcceptorState :=
  let st := a.(ac_state) in
  set_lsns st st.(flush_lsn) a.(ac_commit_lsn) a.(ac_peer_horizon_lsn) st.(backup_lsn)
    st.(remote_consistent_lsn) st.(trimmed_lsn).

(** [Acceptor::check_generation] *)
Definition check_generation (a : Acceptor) (gen : N) (what : string) : Result () SkErr :=
  let current := a.(ac_state).(mconf).(generation) in
  REFUSE negb (gen =? current) WITH Protocol (MGeneration what gen current) ;; Ok ().

(** [Acceptor::adopt] *)
Definition adopt (a : Acceptor) (st : AcceptorState) : Acceptor :=
  with_state (with_lsns a (N.max a.(ac_commit_lsn) st.(commit_lsn))
                (N.max a.(ac_peer_horizon_lsn) st.(peer_horizon_lsn))) st.

(** [Acceptor::append_response] *)
Definition append_response (a : Acceptor) : AppendResponse := {|
  as_generation := a.(ac_state).(mconf).(generation);
  as_term := a.(ac_state).(term);
  as_flush_lsn := wal_end a.(ac_state);
  as_commit_lsn := a.(ac_commit_lsn);
  as_hs_feedback := HotStandbyFeedback_default;
  as_pageserver_feedback := None;
|}.

(** The refusal of a request of an older term. *)
Definition deposed_response (a : Acceptor) : AcceptorMessage :=
  AAppendResponse (term_only a.(ac_state).(mconf).(generation) a.(ac_state).(term)).

(** [Acceptor::observe_term] *)
Definition observe_term (a : Acceptor) (t : Term) : Acceptor :=
  with_term a (N.max a.(ac_state).(term) t).

(** [Acceptor::commit_lsn_dirty] *)
Definition commit_lsn_dirty (a : Acceptor) : bool := a.(ac_state).(commit_lsn) <? a.(ac_commit_lsn).

(** ** Appends, the half without the store *)

(** The first loop of [begin_appends]. *)
Fixpoint check_requests (a : Acceptor) (first : Term) (reqs : list AppendRequest)
  : Result () SkErr :=
  match reqs with
  | [] => Ok ()
  | r :: reqs =>
      let h := r.(ar_h) in
      LET _u <- check_generation a h.(ah_generation) "AppendRequest" ;;
      LET end_ <- lsn_checked_add h.(ah_begin_lsn) (len r.(ar_wal)) ;;
      REFUSE negb (end_ =? h.(ah_end_lsn))
        WITH Protocol (MWalBytes h.(ah_begin_lsn) h.(ah_end_lsn) (len r.(ar_wal))) ;;
      REFUSE negb (h.(ah_term) =? first) WITH Protocol MTwoTerms ;;
      check_requests a first reqs
  end.

(** The second loop: the requests follow one another from [at_]; the end of the last one. *)
Fixpoint check_contiguous (at_ : Lsn) (data : list AppendRequest) : Result Lsn SkErr :=
  match data with
  | [] => Ok at_
  | r :: data =>
      REFUSE negb (r.(ar_h).(ah_begin_lsn) =? at_)
        WITH Protocol (MNotContiguous r.(ar_h).(ah_begin_lsn) at_) ;;
      check_contiguous r.(ar_h).(ah_end_lsn) data
  end.

(** [iter().max().unwrap_or_default()] *)
Definition max_lsn (ls : list Lsn) : Lsn := foldr N.max INVALID ls.

(** The store write for the requests that carry WAL, if any. *)
Definition build_batch (a : Acceptor) (t : Term) (commit truncate : Lsn)
    (data : list AppendRequest) : Acceptor * Result (option AppendBatch) SkErr :=
  match data with
  | [] => (a, Ok None)
  | d0 :: _ =>
      let begin_ := d0.(ar_h).(ah_begin_lsn) in
      TRY at_ <- check_contiguous begin_ data IN a ;;
      BAIL negb (a.(ac_issued_end) =? INVALID) && (a.(ac_issued_end) <? begin_)
        WITH Protocol (MGap begin_ a.(ac_issued_end)) IN a ;;
      (with_issued_end a (N.max a.(ac_issued_end) at_),
       Ok (Some {| ab_term := t;
                   ab_begin_lsn := begin_;
                   ab_wal := ar_wal <$> data;
                   ab_commit_lsn := N.max commit a.(ac_commit_lsn);
                   ab_truncate_lsn := N.max truncate a.(ac_peer_horizon_lsn) |}))
  end.

(** [Acceptor::begin_appends] *)
Definition begin_appends (a : Acceptor) (reqs : list AppendRequest)
  : Acceptor * Result Appends SkErr :=
  match reqs with
  | [] => (a, Ok (Reply (AAppendResponse (append_response a))))
  | first :: _ =>
      let t := first.(ar_h).(ah_term) in
      TRY _u <- check_requests a t reqs IN a ;;
      if t <? a.(ac_state).(term) then (a, Ok (Reply (deposed_response a)))
      else
        TRY start <- ok_or (if a.(ac_state).(term) =? t then a.(ac_term_start_lsn) else None)
                       (Protocol (MAppendBeforeElected t a.(ac_state).(term))) IN a ;;
        let commit := max_lsn ((λ r, r.(ar_h).(ah_commit_lsn)) <$> reqs) in
        let truncate := max_lsn ((λ r, r.(ar_h).(ah_truncate_lsn)) <$> reqs) in
        let data := filter (λ r, r.(ar_wal) ≠ []) reqs in
        let '(a, batch) := build_batch a t commit truncate data in
        TRY batch <- batch IN a ;;
        (a, Ok (Pending {| pa_batch := batch;
                           pa_term := t;
                           pa_term_start_lsn := start;
                           pa_commit_lsn := commit;
                           pa_truncate_lsn := truncate |}))
  end.

(** ** The handlers *)

Section handlers.
Context {S : Type} `{WalStore S}.

(** What a greeting teaches about the server: sync-safekeepers sends system id 0. *)
Definition greeted_server (have : ServerInfo) (msg : ProposerGreeting) : ServerInfo :=
  if negb (msg.(pg_system_id) =? 0) && negb (have.(system_id) =? msg.(pg_system_id))
  then {| pg_version := if negb (msg.(pg_pg_version) =? 0) then msg.(pg_pg_version)
                        else have.(pg_version);
          system_id := msg.(pg_system_id);
          wal_seg_size := have.(wal_seg_size) |}
  else have.

(** The head a greeting finds or creates. *)
Definition greet_load (s : S) (msg : ProposerGreeting) (allow_timeline_creation : bool)
  : S * Result AcceptorState SkErr :=
  let tl := greeting_timeline msg in
  TRY found <- ws_load s tl IN s ;;
  match found with
  | Some st => (s, Ok st)
  | None =>
      if allow_timeline_creation
      then ws_create s tl {| pg_version := msg.(pg_pg_version); system_id := msg.(pg_system_id);
                             wal_seg_size := msg.(pg_wal_seg_size) |} INVALID
      else (s, Err (NotFound tl))
  end.

(** The checks of a greeting against the head: the configuration to record, if any. *)
Definition greet_check (node : NodeId) (st : AcceptorState) (msg : ProposerGreeting)
  : Result (option Configuration) SkErr :=
  let got := {| pg_version := msg.(pg_pg_version); system_id := msg.(pg_system_id);
                wal_seg_size := msg.(pg_wal_seg_size) |} in
  LET _u <- (match pg_major st.(server), pg_major got with
             | Some have, Some got =>
                 REFUSE negb (have =? got) WITH Protocol (MPgMajor have got) ;; Ok ()
             | _, _ => Ok ()
             end) ;;
  REFUSE negb (st.(server).(wal_seg_size) =? msg.(pg_wal_seg_size))
    WITH Protocol (MSegSize st.(server).(wal_seg_size) msg.(pg_wal_seg_size)) ;;
  if st.(mconf).(generation) <? msg.(pg_mconf).(generation)
  then
    REFUSE negb (conf_contains msg.(pg_mconf) node)
      WITH Protocol (MNotMember msg.(pg_mconf).(generation) node) ;;
    Ok (Some msg.(pg_mconf))
  else Ok None.

(** [Acceptor::greet] *)
Definition greet (s : S) (node : NodeId) (msg : ProposerGreeting)
    (allow_timeline_creation : bool) : S * Result (Acceptor * AcceptorMessage) SkErr :=
  let tl := greeting_timeline msg in
  let '(s, st) := greet_load s msg allow_timeline_creation in
  TRY st <- st IN s ;;
  TRY new_mconf <- greet_check node st msg IN s ;;
  let new_server := greeted_server st.(server) msg in
  let '(s, st) :=
    if negb (bool_decide (new_server = st.(server))) || bool_decide (is_Some new_mconf)
    then ws_update_meta s tl new_server new_mconf
    else (s, Ok st) in
  TRY st <- st IN s ;;
  (s, Ok ({| ac_node_id := node;
             ac_tl := tl;
             ac_state := st;
             ac_commit_lsn := st.(commit_lsn);
             ac_peer_horizon_lsn := st.(peer_horizon_lsn);
             ac_term_start_lsn := None;
             ac_issued_end := INVALID |},
          AGreeting {| ag_node_id := node; ag_mconf := st.(mconf); ag_term := st.(term) |})).

(** [Acceptor::handle_vote] *)
Definition handle_vote (s : S) (a : Acceptor) (msg : VoteRequest)
  : S * Acceptor * Result AcceptorMessage SkErr :=
  TRY _u <- check_generation a msg.(vr_generation) "VoteRequest" IN (s, a) ;;
  let '(s, r) := ws_vote s a.(ac_tl) msg.(vr_term) in
  TRY r <- r IN (s, a) ;;
  let '(given, st) := r in
  let a := adopt a st in
  (s, a, Ok (AVoteResponse {| vs_generation := a.(ac_state).(mconf).(generation);
                              vs_term := a.(ac_state).(term);
                              vs_vote_given := given;
                              vs_flush_lsn := wal_end a.(ac_state);
                              vs_truncate_lsn := a.(ac_peer_horizon_lsn);
                              vs_term_history := stored_term_history a.(ac_state) |})).

(** [Acceptor::handle_elected] *)
Definition handle_elected (s : S) (a : Acceptor) (msg : ProposerElected)
  : S * Acceptor * Result () SkErr :=
  TRY _u <- check_generation a msg.(pe_generation) "ProposerElected" IN (s, a) ;;
  let '(s, r) := ws_elected s a.(ac_tl) msg in
  TRY r <- r IN (s, a) ;;
  match r with
  | Err d => (s, with_term a d.(current), Ok ())
  | Ok st =>
      let a := adopt a st in
      let a := with_issued_end a a.(ac_state).(flush_lsn) in
      match last msg.(pe_term_history) with
      | None => (s, a, Err (Protocol MEmptyHistory))
      | Some e => (s, with_term_start a (Some e.(tl_lsn)), Ok ())
      end
  end.

(** [Acceptor::persist_commit_lsn] *)
Definition persist_commit_lsn (s : S) (a : Acceptor) : S * Acceptor * Result () SkErr :=
  if a.(ac_state).(commit_lsn) <? a.(ac_commit_lsn) then
    let '(s, r) := ws_record_commit_lsn s a.(ac_tl) a.(ac_state).(term) a.(ac_commit_lsn) in
    TRY r <- r IN (s, a) ;;
    match r with
    | Ok _ => (s, with_state a (set_commit a.(ac_state) a.(ac_commit_lsn)), Ok ())
    | Err d =>
        let a := with_term a d.(current) in
        (s, with_lsns a a.(ac_state).(commit_lsn) a.(ac_peer_horizon_lsn), Ok ())
    end
  else (s, a, Ok ()).

(** What [finish_appends] does once the write landed and the term still stands: the positions
    in memory, a commit LSN that crosses the term start made durable, and the answer. *)
Definition finish_positions (s : S) (a : Acceptor) (p : PendingAppends)
  : S * Acceptor * Result AcceptorMessage SkErr :=
  let horizon := N.max a.(ac_peer_horizon_lsn) p.(pa_truncate_lsn) in
  let commit :=
    if negb (p.(pa_commit_lsn) =? INVALID)
    then N.max a.(ac_commit_lsn)
           (N.min (N.max p.(pa_commit_lsn) a.(ac_commit_lsn)) (wal_end a.(ac_state)))
    else a.(ac_commit_lsn) in
  let a := with_lsns a commit horizon in
  let '(s, a, r) :=
    if (p.(pa_term_start_lsn) <=? a.(ac_commit_lsn))
       && (a.(ac_state).(commit_lsn) <? p.(pa_term_start_lsn))
    then persist_commit_lsn s a else (s, a, Ok ()) in
  TRY _u <- r IN (s, a) ;;
  (s, a, Ok (AAppendResponse (append_response a))).

(** [Acceptor::finish_appends] *)
Definition finish_appends (s : S) (a : Acceptor) (p : PendingAppends)
    (res : option (Result (Result AcceptorState Deposed) SkErr))
  : S * Acceptor * Result AcceptorMessage SkErr :=
  match res with
  | Some (Err e) => (s, a, Err e)
  | Some (Ok (Err d)) =>
      let a := with_term a (N.max a.(ac_state).(term) d.(current)) in
      (s, a, Ok (deposed_response a))
  | _ =>
      let a := match res with
               | Some (Ok (Ok st)) =>
                   let flush := N.max a.(ac_state).(flush_lsn) st.(flush_lsn) in
                   let a := adopt a st in
                   let st := a.(ac_state) in
                   with_state a (set_lsns st flush st.(commit_lsn) st.(peer_horizon_lsn)
                                   st.(backup_lsn) st.(remote_consistent_lsn) st.(trimmed_lsn))
               | _ => a
               end in
      if negb (a.(ac_state).(term) =? p.(pa_term)) then (s, a, Ok (deposed_response a))
      else finish_positions s a p
  end.

(** [Acceptor::handle_appends] *)
Definition handle_appends (s : S) (a : Acceptor) (reqs : list AppendRequest)
  : S * Acceptor * Result AcceptorMessage SkErr :=
  let '(a, r) := begin_appends a reqs in
  TRY r <- r IN (s, a) ;;
  match r with
  | Reply m => (s, a, Ok m)
  | Pending p =>
      match p.(pa_batch) with
      | None => finish_appends s a p None
      | Some b => let '(s, res) := ws_append s a.(ac_tl) b in finish_appends s a p (Some res)
      end
  end.

(** [Acceptor::refresh] *)
Definition refresh (s : S) (a : Acceptor) : Acceptor * Result () SkErr :=
  TRY found <- ws_load s a.(ac_tl) IN a ;;
  match found with
  | Some st => if a.(ac_state).(term) <? st.(term) then (with_term a st.(term), Ok ()) else (a, Ok ())
  | None => (a, Ok ())
  end.
End handlers.

(** ** The rules as steps of a head *)

Definition vote_rule (v : Term) (h : AcceptorState)
  : Result (AcceptorState * (bool * AcceptorState)) SkErr :=
  let '(h, given) := apply_vote h v in Ok (h, (given, h)).

Definition elected_rule (msg : ProposerElected) (h : AcceptorState)
  : Result (AcceptorState * Result AcceptorState Deposed) SkErr :=
  LET r <- apply_elected h msg ;;
  match r with (h, Ok _) => Ok (h, Ok h) | (h, Err d) => Ok (h, Err d) end.

Definition append_rule (b : AppendBatch) (h : AcceptorState)
  : Result (AcceptorState * Result AcceptorState Deposed) SkErr :=
  LET r <- apply_append h b ;;
  match r with (h, Ok _) => Ok (h, Ok h) | (h, Err d) => Ok (h, Err d) end.

Definition commit_rule (v : Term) (l : Lsn) (h : AcceptorState)
  : Result (AcceptorState * Result () Deposed) SkErr := apply_commit_lsn h v l.

(** A call with outcome [r] took the head from [h] to [h'] by the rule. *)
Definition call_ok {B} (rule : AcceptorState → Result (AcceptorState * B) SkErr)
    (h h' : option AcceptorState) (r : Result B SkErr) : Prop :=
  match r with
  | Ok b => ∃ h0 h1, h = Some h0 ∧ h' = Some h1 ∧ rule h0 = Ok (h1, b)
  | Err _ => h' = h ∨ ∃ h0 h1 b, h = Some h0 ∧ h' = Some h1 ∧ rule h0 = Ok (h1, b)
  end.

Class WalStoreOk (S : Type) `{WalStore S} := {
  ws_head : S → TimelineId → option AcceptorState;
  ws_load_ok s tl r : ws_load s tl = Ok r → r = ws_head s tl;
  ws_create_ok s tl srv l s' h : ws_create s tl srv l = (s', Ok h) → ws_head s' tl = Some h;
  ws_update_meta_ok s tl srv conf s' h :
    ws_update_meta s tl srv conf = (s', Ok h) → ws_head s' tl = Some h;
  ws_vote_ok s tl v s' r :
    ws_vote s tl v = (s', r) → call_ok (vote_rule v) (ws_head s tl) (ws_head s' tl) r;
  ws_elected_ok s tl msg s' r :
    ws_elected s tl msg = (s', r) → call_ok (elected_rule msg) (ws_head s tl) (ws_head s' tl) r;
  ws_append_ok s tl b s' r :
    ws_append s tl b = (s', r) → call_ok (append_rule b) (ws_head s tl) (ws_head s' tl) r;
  ws_record_commit_ok s tl v l s' r :
    ws_record_commit_lsn s tl v l = (s', r) →
    call_ok (commit_rule v l) (ws_head s tl) (ws_head s' tl) r;
}.

(** ** The in-memory store *)

Lemma with_timeline_ok {A} (rule : AcceptorState → Result (AcceptorState * A) SkErr)
    (s : gmap TimelineId MemTimeline) tl f s' r :
  (∀ t t' a, f t = Ok (t', a) → rule t.(tl_head) = Ok (t'.(tl_head), a)) →
  with_timeline s tl f = (s', r) →
  call_ok rule (tl_head <$> s !! tl) (tl_head <$> s' !! tl) r.
Proof.
  intros F. unfold with_timeline. destruct (s !! tl) as [t|] eqn:E.
  2: { intros [= <- <-]. left. by rewrite E. }
  destruct (f t) as [[t' a]|e] eqn:Ef; intros [= <- <-].
  - exists t.(tl_head), t'.(tl_head). rewrite lookup_insert_eq. split_and!; [done|done|by apply F].
  - left. by rewrite E.
Qed.

#[export] Program Instance mem_wal_store_ok : WalStoreOk (gmap TimelineId MemTimeline) := {
  ws_head s tl := tl_head <$> s !! tl;
}.
Next Obligation. by intros s tl r [= <-]. Qed.
Next Obligation.
  intros s tl srv l s' h. cbn. unfold mem_create. destruct (s !! tl) as [t|] eqn:E; intros [= <- <-].
  - by rewrite E.
  - by rewrite lookup_insert_eq.
Qed.
Next Obligation.
  intros s tl srv conf s' h. cbn. unfold with_timeline. destruct (s !! tl) as [t|]; [|done].
  intros [= <- <-]. by rewrite lookup_insert_eq.
Qed.
Next Obligation.
  intros s tl v s' r. apply with_timeline_ok. intros t t' a [= E]. unfold vote_rule.
  unfold tl_vote in E. destruct (apply_vote (tl_head t) v). by injection E as <- <-.
Qed.
Next Obligation.
  intros s tl msg s' r. apply with_timeline_ok. intros t t' a. unfold tl_elected, elected_rule.
  destruct (apply_elected (tl_head t) msg) as [[h [l|d]]|]; try done; by intros [= <- <-].
Qed.
Next Obligation.
  intros s tl b s' r. apply with_timeline_ok. intros t t' a. unfold tl_append, append_rule.
  destruct (apply_append (tl_head t) b) as [[h [p|d]]|]; try done; by intros [= <- <-].
Qed.
Next Obligation.
  intros s tl v l s' r. apply with_timeline_ok. intros t t' a.
  unfold tl_record_commit, commit_rule.
  destruct (apply_commit_lsn (tl_head t) v l) as [[h x]|]; try done; by intros [= <- <-].
Qed.

(** ** What a head goes through *)

Section heads.
(** The history of the proposer elected in each term. *)
Context (H : Term → TermHistory).

Inductive head_step (h : AcceptorState) : AcceptorState → Prop :=
  | hs_vote v h' r : vote_rule v h = Ok (h', r) → head_step h h'
  | hs_elected msg h' r :
      msg.(pe_term_history) = H msg.(pe_term) → elected_rule msg h = Ok (h', r) → head_step h h'
  | hs_append b h' r : append_rule b h = Ok (h', r) → head_step h h'
  | hs_commit v l h' r : commit_rule v l h = Ok (h', r) → head_step h h'
  | hs_other h' :
      (** configuration, backup, remote and trim positions *)
      h'.(term) = h.(term) → h'.(term_history) = h.(term_history) →
      h'.(flush_lsn) = h.(flush_lsn) → h'.(timeline_start_lsn) = h.(timeline_start_lsn) →
      head_step h h'.

(** The proposer of a term starts it again where its WAL ends. *)
Lemma reelected_end h msg h' r :
  h.(term_history) = msg.(pe_term_history) → h.(term) = msg.(pe_term) →
  apply_elected h msg = Ok (h', r) → h'.(term_history) = h.(term_history) ∧ wal_end h <= wal_end h'.
Proof.
  intros Eh Et. unfold apply_elected. rewrite Et, N.ltb_irrefl. cbv zeta.
  assert (stored_term_history (set_term h (pe_term msg)) = up_to (pe_term_history msg) (wal_end h)) as ->.
  { unfold stored_term_history. cbn. by rewrite Eh. }
  change (wal_end (set_term h (pe_term msg))) with (wal_end h).
  destruct (find_highest_common_point _ _ _) as [lcp|] eqn:F; [|done].
  apply common_point_same in F.
  destruct (match lcp with Some p => _ | None => _ end) as [p|] eqn:P; [|done].
  destruct (N.eqb_spec (tl_lsn p) (pe_start_streaming_at msg)) as [E|]; [|done]. cbn [negb].
  destruct (_ <? _); [done|]. intros [= <- <-]. cbn. split; [by rewrite Eh|].
  assert (wal_end h <= pe_start_streaming_at msg) as L.
  { rewrite <- E. destruct lcp as [q|]; [injection P as <-; lia|].
    destruct (pe_term_history msg) as [|e hist]; [done|]. injection P as <-. cbn in F.
    destruct (N.leb_spec (tl_lsn e) (wal_end h)); [done|lia]. }
  unfold wal_end at 2. cbn. lia.
Qed.

(** A head never goes back to an older term, and while the term of an elected proposer stands
    the WAL does not get shorter. *)
Lemma head_step_kept h h' :
  head_step h h' →
  h.(term) <= h'.(term)
  ∧ (h'.(term) = h.(term) → h.(term_history) = H h.(term) →
     h'.(term_history) = h.(term_history) ∧ wal_end h <= wal_end h').
Proof.
  intros [v h1 r E|msg h1 r Em E|b h1 r E|v l h1 r E|h1 E1 E2 E3 E4].
  - unfold vote_rule, apply_vote in E. destruct (N.ltb_spec (term h) v); injection E as <- <-;
      cbn; (split; [lia|]); intros; split; try done; lia.
  - unfold elected_rule in E. destruct (apply_elected h msg) as [[h2 r2]|] eqn:A; [|done].
    assert (h2 = h1) as -> by (destruct r2; by injection E as <- <-).
    pose proof A as A'. apply apply_elected_cases in A as [(-> & _)|(-> & _ & L & _)]; [done|].
    cbn [term elected_state]. split; [done|]. intros Et Eh. cbn in Et.
    eapply reelected_end; [|by symmetry|exact A']. by rewrite Eh, Em, Et.
  - unfold append_rule in E. destruct (apply_append h b) as [[h2 r2]|] eqn:A; [|done].
    assert (h2 = h1) as -> by (destruct r2; by injection E as <- <-). clear E.
    unfold apply_append in A. repeat case_match; try done; injection A as <- <-; [done|].
    cbn. split; [done|]. intros _ _. split; [done|]. unfold wal_end. cbn. lia.
  - unfold commit_rule, apply_commit_lsn in E. repeat case_match; try done; injection E as <- <-; done.
  - split; [lia|]. intros _ _. split; [done|]. unfold wal_end. by rewrite E3, E4.
Qed.
End heads.
