(* ===== verification/SkPush.v ===== *)
(** * The push loop of the WAL service (loams-safekeeper/src/service.rs)

    One [START_WAL_PUSH] connection after its greeting: the queue of messages the reader task
    fills, the appends in flight, the writes that run as tasks of their own, and the loop that
    handles messages and answers.  [conn_step] is one turn of that loop or one step of what
    runs beside it. *)

From Stdlib Require Import NArith Lia.
From stdpp Require Import prelude gmap strings numbers list.
From S2P Require Import Prelude.
From S2P Require Import SkTypes.
From S2P Require Import SkStore.
From S2P Require Import SkProto.
From S2P Require Import SkTail.
From S2P Require Import SkAcceptor.

Open Scope N_scope.

(** [MAX_BATCH_BYTES], [QUEUE] *)
Definition MAX_BATCH_BYTES : N := 1048576.
Definition QUEUE : N := 256.

Abbreviation StoreAppend := (Result (Result AcceptorState Deposed) SkErr) (only parsing).

(** [struct Flight]; [fl_done] is what its task has returned. *)
Record Flight := {
  fl_pending : PendingAppends;
  fl_reqs : list AppendRequest;
  fl_done : option StoreAppend;
}.

(** What [land] gives for the oldest flight, once it can: heartbeats land at once. *)
Definition landed (f : Flight) : option (option StoreAppend) :=
  match f.(fl_pending).(pa_batch) with
  | None => Some None
  | Some _ => Some <$> f.(fl_done)
  end.

Section push.
Context {S : Type} `{WalStore S}.

Record Conn := {
  cn_store : S;
  cn_acc : Acceptor;
  cn_queue : list ProposerMessage;
  cn_pending : option ProposerMessage;
  cn_flights : list Flight;
  (** an answer that waits for the flights before it *)
  cn_reply : option AcceptorMessage;
  (** the instance's registry: progress and tail of the timeline *)
  cn_progress : Progress;
  cn_tail : Tail;
  (** ghost: the term of the last [ProposerElected] the connection handled *)
  cn_elected : option Term;
}.

Definition with_store (c : Conn) (s : S) (a : Acceptor) : Conn := {|
  cn_store := s; cn_acc := a; cn_queue := c.(cn_queue); cn_pending := c.(cn_pending);
  cn_flights := c.(cn_flights); cn_reply := c.(cn_reply); cn_progress := c.(cn_progress);
  cn_tail := c.(cn_tail); cn_elected := c.(cn_elected);
|}.

Definition with_queue (c : Conn) (pending : option ProposerMessage) (q : list ProposerMessage)
  : Conn := {|
  cn_store := c.(cn_store); cn_acc := c.(cn_acc); cn_queue := q; cn_pending := pending;
  cn_flights := c.(cn_flights); cn_reply := c.(cn_reply); cn_progress := c.(cn_progress);
  cn_tail := c.(cn_tail); cn_elected := c.(cn_elected);
|}.

Definition with_flights (c : Conn) (fs : list Flight) (reply : option AcceptorMessage) : Conn := {|
  cn_store := c.(cn_store); cn_acc := c.(cn_acc); cn_queue := c.(cn_queue);
  cn_pending := c.(cn_pending); cn_flights := fs; cn_reply := reply;
  cn_progress := c.(cn_progress); cn_tail := c.(cn_tail); cn_elected := c.(cn_elected);
|}.

Definition with_registry (c : Conn) (p : Progress) (t : Tail) : Conn := {|
  cn_store := c.(cn_store); cn_acc := c.(cn_acc); cn_queue := c.(cn_queue);
  cn_pending := c.(cn_pending); cn_flights := c.(cn_flights); cn_reply := c.(cn_reply);
  cn_progress := p; cn_tail := t; cn_elected := c.(cn_elected);
|}.

Definition with_elected (c : Conn) (t : Term) : Conn := {|
  cn_store := c.(cn_store); cn_acc := c.(cn_acc); cn_queue := c.(cn_queue);
  cn_pending := c.(cn_pending); cn_flights := c.(cn_flights); cn_reply := c.(cn_reply);
  cn_progress := c.(cn_progress); cn_tail := c.(cn_tail); cn_elected := Some t;
|}.

(** [self.registry.publish(tl, Progress::of(&acc.state()))] *)
Definition publish_state (c : Conn) : Conn :=
  with_registry c (publish c.(cn_progress) (progress_of (acceptor_view c.(cn_acc)))) c.(cn_tail).

(** The connection after its greeting, when the loop begins. *)
Definition open_conn (s : S) (a : Acceptor) (p : Progress) (t : Tail) : Conn := {|
  cn_store := s; cn_acc := a; cn_queue := []; cn_pending := None; cn_flights := [];
  cn_reply := None; cn_progress := publish p (progress_of (acceptor_view a)); cn_tail := t;
  cn_elected := None;
|}.

(** [must_land] *)
Definition must_land (depth : N) (c : Conn) : bool :=
  match c.(cn_pending) with
  | Some (PAppend _) => depth <=? len c.(cn_flights)
  | Some _ => bool_decide (c.(cn_flights) ≠ [])
  | None => false
  end.

(** The group commit: what is queued behind the first append of a batch. *)
Fixpoint gather (t : Term) (bytes : N) (batch : list AppendRequest)
    (queue : list ProposerMessage)
  : list AppendRequest * option ProposerMessage * list ProposerMessage :=
  match queue with
  | [] => (batch, None, [])
  | m :: q =>
      if bytes <? MAX_BATCH_BYTES then
        match m with
        | PAppend a =>
            if a.(ar_h).(ah_term) =? t
            then gather t (u64_add bytes (len a.(ar_wal))) (batch ++ [a]) q
            else (batch, Some m, q)
        | _ => (batch, Some m, q)
        end
      else (batch, None, queue)
  end.

(** The WAL of an answered flight goes to the tail. *)
Definition push_durable (t : Tail) (flush : Lsn) (reqs : list AppendRequest) : Tail :=
  foldl (λ t a, if a.(ar_h).(ah_end_lsn) <=? flush
                then tail_push t a.(ar_h).(ah_begin_lsn) a.(ar_wal) else t) t reqs.

(** [WalService::answer]; the flight is off the queue. *)
Definition answer (c : Conn) (f : Flight) (res : option StoreAppend)
  : Conn * Result AcceptorMessage SkErr :=
  let '(s, a, r) := finish_appends c.(cn_store) c.(cn_acc) f.(fl_pending) res in
  let c := with_store c s a in
  TRY r <- r IN c ;;
  let tail := match r with
              | AAppendResponse resp =>
                  if resp.(as_term) =? f.(fl_pending).(pa_term)
                  then push_durable c.(cn_tail) resp.(as_flush_lsn) f.(fl_reqs)
                  else c.(cn_tail)
              | _ => c.(cn_tail)
              end in
  (publish_state (with_registry c c.(cn_progress) tail), Ok r).

(** The match on a message: the reply it is answered with at once, if any. *)
Definition handle_msg (c : Conn) (m : ProposerMessage)
  : Conn * Result (option AcceptorMessage) SkErr :=
  match m with
  | PGreeting _ => (c, Err (Protocol (MBadMessage "a second ProposerGreeting")))
  | PVoteRequest v =>
      let '(s, a, r) := handle_vote c.(cn_store) c.(cn_acc) v in
      let c := with_store c s a in
      TRY r <- r IN c ;;
      (publish_state c, Ok (Some r))
  | PElected e =>
      let '(s, a, r) := handle_elected c.(cn_store) c.(cn_acc) e in
      let c := with_elected (with_store c s a) e.(pe_term) in
      TRY _u <- r IN c ;;
      let tail := if (acceptor_view a).(term) =? e.(pe_term)
                  then tail_truncate c.(cn_tail) e.(pe_start_streaming_at) else c.(cn_tail) in
      (publish_state (with_registry c c.(cn_progress) tail), Ok None)
  | PAppend first =>
      let '(batch, pending, q) :=
        gather first.(ar_h).(ah_term) (len first.(ar_wal)) [first] c.(cn_queue) in
      let c := with_queue c pending q in
      let a := observe_term c.(cn_acc) c.(cn_progress).(pr_term) in
      let '(a, r) := begin_appends a batch in
      let c := with_store c c.(cn_store) a in
      TRY r <- r IN c ;;
      match r with
      | Reply r => (with_flights c c.(cn_flights) (Some r), Ok None)
      | Pending p =>
          (publish_state
             (with_flights c (c.(cn_flights) ++ [{| fl_pending := p; fl_reqs := batch; fl_done := None |}])
                None), Ok None)
      end
  end.

(** The commit timer. *)
Definition tick (c : Conn) : Conn * Result () SkErr :=
  let '(a, r) := refresh c.(cn_store) c.(cn_acc) in
  TRY _u <- r IN with_store c c.(cn_store) a ;;
  let '(s, a, r) := persist_commit_lsn c.(cn_store) a in
  (with_store c s a, r).

(** The task of flight [i] writes to the store. *)
Definition run_task (c : Conn) (i : nat) : option Conn :=
  f ← c.(cn_flights) !! i;
  b ← f.(fl_pending).(pa_batch);
  match f.(fl_done) with
  | Some _ => None
  | None =>
      let '(s, r) := ws_append c.(cn_store) c.(cn_acc).(ac_tl) b in
      let f := {| fl_pending := f.(fl_pending); fl_reqs := f.(fl_reqs); fl_done := Some r |} in
      Some (with_flights (with_store c s c.(cn_acc)) (<[i := f]> c.(cn_flights)) c.(cn_reply))
  end.
End push.

Arguments Conn S : clear implicits.

Section steps.
Context {S : Type} `{WalStoreOk S} (Hist : Term → TermHistory).

(** What the proposer at the other end does: the condition on a message and the connection
    that handles it. *)
Context (proposer : Conn S → ProposerMessage → Prop) (depth : N).

Definition store_head (c : Conn S) : option AcceptorState :=
  ws_head c.(cn_store) c.(cn_acc).(ac_tl).

(** One step, with the message it sends. *)
Inductive conn_step : Conn S → option AcceptorMessage → Conn S → Prop :=
  (** the reader task, the writes in flight *)
  | cs_arrive c m :
      len c.(cn_queue) < QUEUE →
      conn_step c None (with_queue c c.(cn_pending) (c.(cn_queue) ++ [m]))
  | cs_task c i c' : run_task c i = Some c' → conn_step c None c'
  (** the loop: land what must land or has landed; then a message; the timer *)
  | cs_land c f fs res c' r :
      c.(cn_flights) = f :: fs → landed f = Some res →
      is_Some c.(cn_reply) ∨ must_land depth c = true ∨ c.(cn_pending) = None →
      answer (with_flights c fs c.(cn_reply)) f res = (c', Ok r) →
      conn_step c (Some r) c'
  | cs_drained c r :
      c.(cn_reply) = Some r → c.(cn_flights) = [] →
      conn_step c (Some r) (publish_state (with_flights c [] None))
  | cs_pending c m c' out :
      c.(cn_reply) = None → c.(cn_pending) = Some m → must_land depth c = false →
      proposer c m → handle_msg (with_queue c None c.(cn_queue)) m = (c', Ok out) →
      conn_step c out c'
  | cs_recv c m q c' out :
      c.(cn_reply) = None → c.(cn_pending) = None → c.(cn_queue) = m :: q →
      len c.(cn_flights) < depth →
      proposer c m → handle_msg (with_queue c None q) m = (c', Ok out) →
      conn_step c out c'
  | cs_tick c c' :
      c.(cn_reply) = None → c.(cn_pending) = None → tick c = (c', Ok ()) → conn_step c None c'
  (** other connections: the store, and the registry of this instance *)
  | cs_store c s h h' :
      store_head c = Some h → head_step Hist h h' → ws_head s c.(cn_acc).(ac_tl) = Some h' →
      conn_step c None (with_store c s c.(cn_acc))
  | cs_registry c h p t :
      store_head c = Some h → p.(pr_term) <= h.(term) →
      conn_step c None (with_registry c (publish c.(cn_progress) p) t).

(** A run, with the heads of the timeline it went through. *)
Inductive conn_run : Conn S → list (option AcceptorState) → Conn S → Prop :=
  | cr_refl c : conn_run c [store_head c] c
  | cr_step c hs c' out c'' :
      conn_run c hs c' → conn_step c' out c'' → conn_run c (hs ++ [store_head c'']) c''.
End steps.
