(* ===== verification/SkDurable.v ===== *)
(** * What a safekeeper acknowledges is durable

    The invariant of a push connection against the head of its timeline, kept by every handler
    of the acceptor and every step of the loop while other connections work on the same head:
    the flush LSN of an answer in the proposer's own term is one the store has reached in that
    term. *)

From Stdlib Require Import NArith Lia.
From stdpp Require Import prelude gmap strings numbers list.
From S2P Require Import Prelude.
From S2P Require Import SkTypes.
From S2P Require Import SkStore.
From S2P Require Import SkStoreInv.
From S2P Require Import SkHistory.
From S2P Require Import SkProto.
From S2P Require Import SkTail.
From S2P Require Import SkAcceptor.
From S2P Require Import SkPush.

Open Scope N_scope.

(** ** What the rules answer *)

Lemma vote_rule_head v h h' r : vote_rule v h = Ok (h', r) → r.2 = h'.
Proof. unfold vote_rule. destruct (apply_vote h v). by intros [= <- <-]. Qed.

Lemma elected_rule_cases msg h h' r :
  elected_rule msg h = Ok (h', r) →
  match r with
  | Ok st => st = h' ∧ h'.(term) = msg.(pe_term) ∧ h'.(term_history) = msg.(pe_term_history)
  | Err d => d.(current) = h.(term) ∧ h' = h ∧ msg.(pe_term) < h.(term)
  end.
Proof.
  unfold elected_rule. destruct (apply_elected h msg) as [[h2 r2]|] eqn:A; [|done].
  apply apply_elected_cases in A as [(-> & -> & L)|(-> & -> & L & _)]; by intros [= <- <-].
Qed.

Lemma append_rule_cases b h h' r :
  append_rule b h = Ok (h', r) →
  match r with
  | Ok st => st = h' ∧ h'.(term) = b.(ab_term)
  | Err d => d.(current) = h.(term) ∧ h' = h
  end.
Proof.
  unfold append_rule, apply_append. destruct (N.ltb_spec (ab_term b) (term h)) as [L|L].
  { by intros [= <- <-]. }
  destruct (N.ltb_spec (term h) (ab_term b)) as [G|G]; [done|].
  destruct (batch_end_lsn b); [|done]. destruct (append_plan h b a); [|done].
  intros [= <- <-]. cbn. split; [done|lia].
Qed.

Lemma commit_rule_cases v l h h' r :
  commit_rule v l h = Ok (h', r) →
  h'.(term) = h.(term) ∧ match r with Ok _ => True | Err d => d.(current) = h.(term) end.
Proof.
  unfold commit_rule, apply_commit_lsn. repeat case_match; try done; by intros [= <- <-].
Qed.

(** ** The invariant of a connection *)

Section durable.
Context {S : Type} `{WalStoreOk S} (Hist : Term → TermHistory).
(** The heads the store has gone through. *)
Context (Seen : AcceptorState → Prop).

(** A flight of term [e] whose write was done no later than [h1]. *)
Record flight_ok (e : Term) (h1 : AcceptorState) (f : Flight) : Prop := {
  fo_term : f.(fl_pending).(pa_term) = e;
  fo_batch b : f.(fl_pending).(pa_batch) = Some b → b.(ab_term) = e;
  fo_done st : f.(fl_done) = Some (Ok (Ok st)) → st.(term) = e ∧ wal_end st <= wal_end h1;
}.

Definition refused_ok (h : AcceptorState) (f : Flight) : Prop :=
  ∀ d, f.(fl_done) = Some (Ok (Err d)) → d.(current) <= h.(term).

(** [h1] is the last head of term [e]; the acceptor and its flights are not ahead of it. *)
Record since (h : AcceptorState) (a : Acceptor) (e : Term) (fs : list Flight)
    (h1 : AcceptorState) : Prop := {
  si_seen : Seen h1;
  si_term : h1.(term) = e;
  si_hist : h1.(term_history) = Hist e;
  si_last : h.(term) = e → h1 = h;
  si_flights : Forall (flight_ok e h1) fs;
  si_end : wal_end a.(ac_state) <= wal_end h1;
}.

Definition view_ok (h : AcceptorState) (a : Acceptor) (g : option Term) (fs : list Flight) : Prop :=
  a.(ac_state).(term) <= h.(term) ∧
  match g with
  | None => fs = []
  | Some e =>
      e <= a.(ac_state).(term) ∧ Forall (refused_ok h) fs
      ∧ (fs ≠ [] ∨ a.(ac_state).(term) = e → ∃ h1, since h a e fs h1)
  end.

Lemma flight_ok_later e h1 h2 f :
  wal_end h1 <= wal_end h2 → flight_ok e h1 f → flight_ok e h2 f.
Proof.
  intros L [? ? D]. split; [done|done|]. intros st E. destruct (D st E). split; [done|lia].
Qed.

Lemma view_ok_step h h' a g fs :
  head_step Hist h h' → Seen h' → view_ok h a g fs → view_ok h' a g fs.
Proof.
  intros St Se (La & V). destruct (head_step_kept _ _ _ St) as [Lt K]. split; [lia|].
  destruct g as [e|]; [|done]. destruct V as (Le & R & V). split_and!; [done| |].
  { eapply Forall_impl; [exact R|]. intros f Rf d Ed. specialize (Rf d Ed). lia. }
  intros Q. destruct (V Q) as (h1 & [S1 T1 H1 L1 F1 E1]).
  destruct (decide (term h' = e)) as [D|D].
  - assert (term h = e) as D' by lia. specialize (L1 D'). subst h1.
    destruct K as [Kh Kw]; [lia|by rewrite H1, D'|]. exists h'. split; try done.
    + by rewrite Kh.
    + eapply Forall_impl; [exact F1|]. intros f. by apply flight_ok_later.
    + lia.
  - by exists h1.
Qed.

(** An acceptor whose WAL end did not move and whose term did not go back. *)
Lemma view_ok_same h a a' g fs :
  view_ok h a g fs → wal_end a'.(ac_state) = wal_end a.(ac_state) →
  a.(ac_state).(term) <= a'.(ac_state).(term) <= h.(term) → view_ok h a' g fs.
Proof.
  intros (La & V) Ew Lt. split; [lia|]. destruct g as [e|]; [|done].
  destruct V as (Le & R & V). split_and!; [lia|done|]. intros Q.
  destruct V as (h1 & [? ? ? ? ? ?]). { destruct Q; [by left|right; lia]. }
  exists h1. split; try done. by rewrite Ew.
Qed.

Lemma view_ok_term h a t g fs :
  view_ok h a g fs → a.(ac_state).(term) <= t <= h.(term) → view_ok h (with_term a t) g fs.
Proof. intros V L. by apply (view_ok_same h a). Qed.

(** The head just read, with nothing in flight. *)
Lemma view_ok_adopt h a g :
  Seen h → view_ok h a g [] → view_ok h (adopt a h) g [].
Proof.
  intros Se (La & V). split; [done|]. destruct g as [e|]; [|done].
  destruct V as (Le & R & V). cbn. split_and!; [lia|done|]. intros [?|E]; [done|].
  destruct V as (h1 & [? ? ? L1 ? ?]); [right; lia|].
  specialize (L1 E). subst h1. by exists h.
Qed.

(** ** The handlers *)

Lemma handle_vote_ok s a msg s' a' r h g :
  ws_head s a.(ac_tl) = Some h → view_ok h a g [] →
  (∀ h', ws_head s' a.(ac_tl) = Some h' → Seen h') →
  handle_vote s a msg = (s', a', Ok r) →
  a'.(ac_tl) = a.(ac_tl) ∧ ∃ h', ws_head s' a.(ac_tl) = Some h' ∧ head_step Hist h h'
    ∧ view_ok h' a' g [].
Proof.
  intros Hh V Se. unfold handle_vote. destruct (check_generation _ _ _); [|done].
  destruct (ws_vote s (ac_tl a) (vr_term msg)) as [s1 r1] eqn:E.
  apply ws_vote_ok in E. destruct r1 as [[given st]|]; [|done].
  destruct E as (h0 & h1 & E0 & E1 & R). rewrite Hh in E0. injection E0 as <-.
  pose proof (vote_rule_head _ _ _ _ R) as Est. cbn in Est. subst st.
  intros [= <- <- _]. split; [done|]. exists h1. split_and!; [done|by econstructor|].
  apply view_ok_adopt; [by apply Se|]. eapply view_ok_step; [by econstructor|by apply Se|done].
Qed.

Lemma handle_elected_ok s a msg s' a' h g fs :
  ws_head s a.(ac_tl) = Some h → view_ok h a g fs →
  msg.(pe_term_history) = Hist msg.(pe_term) → fs = [] ∨ g = Some msg.(pe_term) →
  (∀ h', ws_head s' a.(ac_tl) = Some h' → Seen h') →
  handle_elected s a msg = (s', a', Ok ()) →
  a'.(ac_tl) = a.(ac_tl) ∧ ∃ h', ws_head s' a.(ac_tl) = Some h' ∧ head_step Hist h h'
    ∧ view_ok h' a' (Some msg.(pe_term)) fs.
Proof.
  intros Hh V Eh Fg Se. unfold handle_elected. destruct (check_generation _ _ _); [|done].
  destruct (ws_elected s (ac_tl a) msg) as [s1 r1] eqn:E.
  apply ws_elected_ok in E. destruct r1 as [r1|]; [|done].
  destruct E as (h0 & h1 & E0 & E1 & R). rewrite Hh in E0. injection E0 as <-.
  assert (head_step Hist h h1) as St by by econstructor.
  pose proof (elected_rule_cases _ _ _ _ R) as C. destruct r1 as [st|d].
  - destruct C as (-> & Et & Ehh). destruct (last (pe_term_history msg)) as [x|]; [|done].
    intros [= <- <-]. split; [done|]. specialize (Se h1 E1). exists h1. split_and!; [done|done|].
    pose proof (view_ok_step _ _ _ _ _ St Se V) as V1. cbn. split; [done|]. cbn.
    destruct Fg as [->| ->].
    { split_and!; [lia|constructor|]. intros _. exists h1.
      split; cbn; try done; [by rewrite Ehh, Eh]. }
    destruct V1 as (L1 & L2 & R1 & V1). split_and!; [lia|done|]. intros Q.
    destruct V1 as (h2 & [? ? ? La ? ?]); [right; lia|]. specialize (La Et). subst h2.
    exists h1. by split.
  - destruct C as (Ed & -> & L). intros [= <- <-]. split; [done|].
    exists h. split_and!; [done|done|]. destruct V as (La & V). split; [cbn; lia|]. cbn.
    destruct Fg as [->| ->].
    + split_and!; [lia|constructor|]. intros [?|?]; [done|lia].
    + destruct V as (Le & R1 & V). split_and!; [lia|done|]. intros Q.
      destruct V as (h2 & [? ? ? ? ? ?]). { destruct Q; [by left|right; lia]. }
      exists h2. by split.
Qed.

Lemma persist_commit_ok s a s' a' h g fs :
  ws_head s a.(ac_tl) = Some h → view_ok h a g fs →
  (∀ h', ws_head s' a.(ac_tl) = Some h' → Seen h') →
  persist_commit_lsn s a = (s', a', Ok ()) →
  a'.(ac_tl) = a.(ac_tl) ∧ wal_end a'.(ac_state) = wal_end a.(ac_state)
  ∧ a.(ac_state).(term) <= a'.(ac_state).(term)
  ∧ ∃ h', ws_head s' a.(ac_tl) = Some h' ∧ (h' = h ∨ head_step Hist h h') ∧ view_ok h' a' g fs.
Proof.
  intros Hh V Se. unfold persist_commit_lsn.
  destruct (_ <? _). 2: { intros [= <- <-]. split_and!; [done|done|done|]. exists h. auto. }
  destruct (ws_record_commit_lsn _ _ _ _) as [s1 r1] eqn:E.
  apply ws_record_commit_ok in E. destruct r1 as [r1|]; [|done].
  destruct E as (h0 & h1 & E0 & E1 & R). rewrite Hh in E0. injection E0 as <-.
  assert (head_step Hist h h1) as St by (eapply hs_commit; exact R).
  pose proof (commit_rule_cases _ _ _ _ _ R) as [Et C].
  destruct V as (La & V0). assert (view_ok h a g fs) as V by by split.
  destruct r1 as [u|d].
  - intros [= <- <-]. split_and!; [done|done|done|]. exists h1. split_and!; [done|by right|].
    apply (view_ok_same h1 a); [by eapply view_ok_step; [|apply Se|]|done|cbn; lia].
  - intros [= <- <-]. rewrite C. split_and!; [done|done|done|].
    exists h1. split_and!; [done|by right|].
    apply (view_ok_same h1 a); [by eapply view_ok_step; [|apply Se|]|done|cbn; lia].
Qed.

(** ** Answers *)

(** The flush LSN of an answer in term [e] was reached by a head of that term, the current one
    if it is still of that term. *)
Definition acked (h : AcceptorState) (e : Term) (m : AcceptorMessage) : Prop :=
  ∀ resp, m = AAppendResponse resp → resp.(as_term) = e →
    resp.(as_flush_lsn) = INVALID
    ∨ ∃ h1, Seen h1 ∧ h1.(term) = e ∧ h1.(term_history) = Hist e ∧ (h.(term) = e → h1 = h)
        ∧ resp.(as_flush_lsn) <= wal_end h1.

Lemma append_response_acked h a e fs :
  view_ok h a (Some e) fs → acked h e (AAppendResponse (append_response a)).
Proof.
  intros (_ & _ & _ & V) resp [= <-] Et. right. destruct V as (h1 & [? ? ? ? ? ?]); [by right|].
  by exists h1.
Qed.

Lemma deposed_acked h a e : acked h e (deposed_response a).
Proof. intros resp [= <-] _. by left. Qed.

Lemma view_ok_pop h a e f fs : view_ok h a (Some e) (f :: fs) → view_ok h a (Some e) fs.
Proof.
  intros (La & Le & R & V). split_and!; [done|done|by eapply Forall_cons|]. intros _.
  destruct V as (h1 & [? ? ? ? F ?]); [by left|]. exists h1. split; try done.
  by apply Forall_cons in F as [_ ?].
Qed.

(** The write of the oldest flight is adopted. *)
Lemma view_ok_done h a e f fs st (a' : Acceptor) :
  view_ok h a (Some e) (f :: fs) → f.(fl_done) = Some (Ok (Ok st)) →
  a'.(ac_state).(term) = st.(term) →
  wal_end a'.(ac_state) <= N.max (wal_end a.(ac_state)) (wal_end st) →
  view_ok h a' (Some e) fs.
Proof.
  intros (La & Le & R & V) D Et Lw. destruct V as (h1 & [S1 T1 H1 L1 F E1]); [by left|].
  apply Forall_cons in F as [[_ _ Fd] F]. destruct (Fd st D) as [Es Ls].
  split_and!; [lia|lia|by eapply Forall_cons|]. intros _. exists h1. split; try done. lia.
Qed.

Lemma finish_positions_ok s a p s' a' r h e fs :
  ws_head s a.(ac_tl) = Some h → view_ok h a (Some e) fs →
  (∀ h', ws_head s' a.(ac_tl) = Some h' → Seen h') →
  finish_positions s a p = (s', a', Ok r) →
  a'.(ac_tl) = a.(ac_tl)
  ∧ ∃ h', ws_head s' a.(ac_tl) = Some h' ∧ (h' = h ∨ head_step Hist h h')
      ∧ view_ok h' a' (Some e) fs ∧ acked h' e r.
Proof.
  intros Hh V Se. unfold finish_positions. cbv zeta.
  match goal with |- context [with_lsns a ?c ?l] => set (a1 := with_lsns a c l) end.
  assert (view_ok h a1 (Some e) fs) as V1 by (apply (view_ok_same h a); [done|done|split; [done|apply V]]).
  destruct (_ && _).
  - destruct (persist_commit_lsn s a1) as [[s2 a2] [[]|]] eqn:E; [|done].
    intros [= <- <- <-].
    destruct (persist_commit_ok s a1 s2 a2 h (Some e) fs) as (T & _ & _ & h' & Hh' & St & V'); try done.
    split; [done|]. exists h'. split_and!; [done|done|done|by eapply append_response_acked].
  - intros [= <- <- <-]. split; [done|]. exists h.
    split_and!; [done|by left|done|by eapply append_response_acked].
Qed.

Lemma finish_appends_ok s a f res s' a' r h e fs :
  ws_head s a.(ac_tl) = Some h → view_ok h a (Some e) (f :: fs) → landed f = Some res →
  (∀ h', ws_head s' a.(ac_tl) = Some h' → Seen h') →
  finish_appends s a f.(fl_pending) res = (s', a', Ok r) →
  a'.(ac_tl) = a.(ac_tl)
  ∧ ∃ h', ws_head s' a.(ac_tl) = Some h' ∧ (h' = h ∨ head_step Hist h h')
      ∧ view_ok h' a' (Some e) fs ∧ acked h' e r.
Proof.
  intros Hh V L Se. unfold finish_appends.
  assert (∀ a1, a1.(ac_tl) = a.(ac_tl) → view_ok h a1 (Some e) fs →
    (if negb (term (ac_state a1) =? pa_term (fl_pending f)) then (s, a1, Ok (deposed_response a1))
     else finish_positions s a1 (fl_pending f)) = (s', a', Ok r) →
    a'.(ac_tl) = a.(ac_tl)
    ∧ ∃ h', ws_head s' a.(ac_tl) = Some h' ∧ (h' = h ∨ head_step Hist h h')
      ∧ view_ok h' a' (Some e) fs ∧ acked h' e r) as Rest.
  { intros a1 T1 V1. destruct (negb _).
    - intros [= <- <- <-]. split; [done|]. exists h. split_and!; [done|by left|done|apply deposed_acked].
    - intros E. rewrite <- T1. eapply finish_positions_ok; [by rewrite T1|done| |done].
      by rewrite T1. }
  assert (∀ x, res = Some x → f.(fl_done) = Some x) as Done.
  { intros x ->. unfold landed in L. destruct (pa_batch _); [|done].
    destruct (fl_done f); [by injection L as ->|done]. }
  destruct res as [[[st|d]|er]|]; cbv zeta.
  - apply Rest; [done|]. eapply view_ok_done; [done|by apply Done|done|].
    unfold wal_end. cbn. lia.
  - intros [= <- <- <-]. split; [done|]. exists h. split_and!; [done|by left| |apply deposed_acked].
    pose proof V as (La & Le & R & _). apply view_ok_term; [by eapply view_ok_pop|].
    apply Forall_cons in R as [R _]. specialize (R d (Done _ eq_refl)). lia.
  - done.
  - apply Rest; [done|by eapply view_ok_pop].
Qed.

(** ** Issuing appends *)

(** A batch that is not empty is answered at once only by a refusal; else it is issued, in the
    term the acceptor is in. *)
Lemma begin_appends_cases a reqs a' r :
  begin_appends a reqs = (a', Ok r) → reqs ≠ [] →
  a'.(ac_state) = a.(ac_state) ∧ a'.(ac_tl) = a.(ac_tl)
  ∧ match r with
    | Reply m => m = deposed_response a
    | Pending p =>
        p.(pa_term) = a.(ac_state).(term)
        ∧ (∀ b, p.(pa_batch) = Some b → b.(ab_term) = p.(pa_term))
        ∧ ∀ x, head reqs = Some x → p.(pa_term) = x.(ar_h).(ah_term)
    end.
Proof.
  unfold begin_appends. destruct reqs as [|x reqs]; [done|]. intros E _.
  destruct (check_requests _ _ _); [|done].
  destruct (ah_term (ar_h x) <? _); [by injection E as <- <-|].
  destruct (N.eqb_spec (term (ac_state a)) (ah_term (ar_h x))) as [Q|]; [|done].
  destruct (ac_term_start_lsn a) as [start|]; [|done]. cbn [ok_or] in E. cbv zeta in E.
  unfold build_batch in E. destruct (filter _ _) as [|d0 data].
  { injection E as <- <-. cbn. split_and!; [done|done|done|done|]. by intros ? [= <-]. }
  destruct (check_contiguous _ _); [|done]. destruct (_ && _); [done|].
  injection E as <- <-. cbn. split_and!; [done|done|done|by intros ? [= <-]|by intros ? [= <-]].
Qed.

Lemma gather_head t bytes x batch q :
  head (gather t bytes (x :: batch) q).1.1 = Some x.
Proof.
  revert bytes batch. induction q as [|m q IH]; intros bytes batch; cbn; [done|].
  destruct (_ <? _); [|done]. destruct m; try done. destruct (_ =? _); [|done]. apply IH.
Qed.

(** One more flight, in the term of the acceptor. *)
Lemma view_ok_push h a e fs f :
  view_ok h a (Some e) fs → a.(ac_state).(term) = e → f.(fl_pending).(pa_term) = e →
  (∀ b, f.(fl_pending).(pa_batch) = Some b → b.(ab_term) = e) → f.(fl_done) = None →
  view_ok h a (Some e) (fs ++ [f]).
Proof.
  intros (La & Le & R & V) Ea Ep Eb Ed. split_and!; [done|done| |].
  { apply Forall_app. split; [done|]. constructor; [|done]. intros d. by rewrite Ed. }
  intros _. destruct V as (h1 & [? ? ? ? F ?]); [by right|]. exists h1. split; try done.
  apply Forall_app. split; [done|]. constructor; [|done]. split; [done|done|]. by rewrite Ed.
Qed.

(** ** Writes in flight *)

Lemma view_ok_written h a e fs i f st' :
  view_ok h a (Some e) fs → fs !! i = Some f →
  (∀ st, st' = Ok (Ok st) → st = h ∧ h.(term) = e) →
  (∀ d, st' = Ok (Err d) → d.(current) <= h.(term)) →
  view_ok h a (Some e)
    (<[i := {| fl_pending := f.(fl_pending); fl_reqs := f.(fl_reqs); fl_done := Some st' |}]> fs).
Proof.
  intros (La & Le & R & V) Ei Ho He. split_and!; [done|done| |].
  { apply Forall_insert; [done|]. intros d [= ->]. by apply He. }
  intros _. destruct V as (h1 & [S1 T1 H1 L1 F E1]). { left. by intros ->. }
  exists h1. split; try done. apply Forall_insert; [done|].
  destruct (proj1 (Forall_lookup _ _) F _ _ Ei) as [F1 F2 _]. split; [done|done|].
  intros st [= ->]. destruct (Ho st eq_refl) as [-> Et]. split; [done|]. by rewrite (L1 Et).
Qed.
End durable.
