(* ===== verification/SkConn.v ===== *)
(** * Every step of a push connection keeps its invariant

    [conn_ok] is the invariant of [SkDurable] on the state of the loop; [conn_step_ok] shows
    that a step of the loop or of what runs beside it keeps it and only sends answers that the
    store backs. *)

From Stdlib Require Import NArith Lia.
From stdpp Require Import prelude gmap strings numbers list.
From S2P Require Import Prelude.
From S2P Require Import SkTypes.
From S2P Require Import SkStore.
From S2P Require Import SkStoreInv.
From S2P Require Import SkHistory.
From S2P Require Import SkProto.
From S2P Require Import SkTail.
From S2P Require Import SkAcceptor.
From S2P Require Import SkPush.
From S2P Require Import SkDurable.

Open Scope N_scope.

Section conn.
Context {S : Type} `{WalStoreOk S} (Hist : Term → TermHistory) (depth : N).

(** What an honest proposer does: one history per term, appends in the term it announced on
    this connection. *)
Definition honest (c : Conn S) (m : ProposerMessage) : Prop :=
  match m with
  | PElected e => e.(pe_term_history) = Hist e.(pe_term)
  | PAppend a => c.(cn_elected) = Some a.(ar_h).(ah_term)
  | _ => True
  end.

(** Where several writes may be in flight, a vote or another term comes only after the answers
    to its appends. *)
Definition waits (c : Conn S) (m : ProposerMessage) : Prop :=
  match m with
  | PVoteRequest _ => 1 < depth → c.(cn_flights) = []
  | PElected e => 1 < depth → c.(cn_flights) = [] ∨ c.(cn_elected) = Some e.(pe_term)
  | _ => True
  end.

Definition proposer_ok (c : Conn S) (m : ProposerMessage) : Prop := honest c m ∧ waits c m.

Section invariant.
Context (Seen : AcceptorState → Prop).

Record conn_ok (c : Conn S) (h : AcceptorState) : Prop := {
  co_head : store_head c = Some h;
  co_seen : Seen h;
  co_view : view_ok Hist Seen h c.(cn_acc) c.(cn_elected) c.(cn_flights);
  co_progress : c.(cn_progress).(pr_term) <= h.(term);
  co_reply m : c.(cn_reply) = Some m → ∃ a, m = deposed_response a;
}.

Lemma publish_term cur p : (publish cur p).(pr_term) = N.max cur.(pr_term) p.(pr_term).
Proof. unfold publish. destruct (N.ltb_spec (pr_term p) (pr_term cur)); cbn; lia. Qed.

Lemma conn_ok_publish c h : conn_ok c h → conn_ok (publish_state c) h.
Proof.
  intros [? ? V ? ?]. split; try done. cbn. rewrite publish_term. destruct V as [L _]. cbn. lia.
Qed.

Lemma conn_ok_tail c h p t :
  p = c.(cn_progress) → conn_ok c h → conn_ok (with_registry c p t) h.
Proof. intros -> [? ? ? ? ?]. by split. Qed.

Lemma conn_ok_queue c h p q : conn_ok c h → conn_ok (with_queue c p q) h.
Proof. intros [? ? ? ? ?]. by split. Qed.

(** The store moved under the acceptor: what is left to show of a handler. *)
Lemma conn_ok_store c h s a h' g :
  conn_ok c h → a.(ac_tl) = c.(cn_acc).(ac_tl) → ws_head s c.(cn_acc).(ac_tl) = Some h' →
  Seen h' → h.(term) <= h'.(term) → view_ok Hist Seen h' a g c.(cn_flights) →
  g = c.(cn_elected) → conn_ok (with_store c s a) h'.
Proof.
  intros [? ? ? ? ?] T Hh Se L V ->. split; try done; cbn.
  - unfold store_head. cbn. by rewrite T.
  - lia.
Qed.

(** What a step sends, judged by the state it leaves. *)
Definition sent_ok (c : Conn S) (h : AcceptorState) (out : option AcceptorMessage) : Prop :=
  ∀ m e, out = Some m → c.(cn_elected) = Some e → acked Hist Seen h e m.

Lemma stepped_term h h' : h' = h ∨ head_step Hist h h' → h.(term) <= h'.(term).
Proof. intros [->|St]; [done|]. by destruct (head_step_kept _ _ _ St). Qed.

Lemma stepped_view h h' a g fs :
  h' = h ∨ head_step Hist h h' → Seen h' → view_ok Hist Seen h a g fs →
  view_ok Hist Seen h' a g fs.
Proof. intros [->|St] ? ?; [done|by eapply view_ok_step]. Qed.

Lemma finish_appends_tl s a p res s' a' r :
  finish_appends s a p res = (s', a', r) → a'.(ac_tl) = a.(ac_tl).
Proof.
  unfold finish_appends, finish_positions, persist_commit_lsn. intros E.
  repeat case_match; simplify_eq/=; done.
Qed.

Lemma run_task_ok c h i c' :
  conn_ok c h → run_task c i = Some c' → (∀ h', store_head c' = Some h' → Seen h') →
  ∃ h', conn_ok c' h'.
Proof.
  intros CO E Se. pose proof CO as [Hh Sh V P R]. unfold run_task in E.
  destruct (cn_flights c !! i) as [f|] eqn:Ef; [|done]. cbn in E.
  destruct (pa_batch (fl_pending f)) as [b|] eqn:Eb; [|done]. cbn in E.
  destruct (fl_done f) eqn:Ed; [done|].
  destruct (ws_append (cn_store c) (ac_tl (cn_acc c)) b) as [s r] eqn:A.
  injection E as <-. apply ws_append_ok in A. unfold store_head in Hh. rewrite Hh in A.
  destruct (cn_elected c) as [e|] eqn:Ee.
  2: { destruct V as [_ V]. by rewrite V in Ef. }
  assert (ab_term b = e) as Et.
  { destruct V as (_ & _ & _ & V). destruct V as (h1 & [? ? ? ? F ?]).
    { left. intros Q. by rewrite Q in Ef. }
    destruct (proj1 (Forall_lookup _ _) F _ _ Ef) as [_ Fb _]. by apply Fb. }
  assert (∃ h', ws_head s (ac_tl (cn_acc c)) = Some h'
            ∧ (h' = h ∨ head_step Hist h h')
            ∧ (∀ st, r = Ok (Ok st) → st = h' ∧ h'.(term) = e)
            ∧ (∀ d, r = Ok (Err d) → d.(current) <= h'.(term))) as (h' & Hh' & St & Ro & Re).
  { destruct r as [r|er].
    - destruct A as (h0 & h1 & [= <-] & E1 & R1). exists h1. split_and!; [done|right; by eapply hs_append| |].
      + intros st [= ->]. apply append_rule_cases in R1 as [-> Q]. by rewrite Q.
      + intros d [= ->]. apply append_rule_cases in R1 as [Q ->]. by rewrite Q.
    - destruct A as [A|(h0 & h1 & b' & [= <-] & E1 & R1)].
      + exists h. split_and!; [done|by left|done|done].
      + exists h1. split_and!; [done|right; by eapply hs_append|done|done]. }
  assert (Seen h') as Sh' by (apply Se; done).
  exists h'. split; try done; cbn.
  - rewrite Ee. apply view_ok_written; [|done|done|done]. by eapply stepped_view.
  - pose proof (stepped_term _ _ St). lia.
Qed.

Lemma answer_ok c h f fs res c' r :
  conn_ok c h → c.(cn_flights) = f :: fs → landed f = Some res →
  (∀ h', store_head c' = Some h' → Seen h') →
  answer (with_flights c fs c.(cn_reply)) f res = (c', Ok r) →
  ∃ h', conn_ok c' h' ∧ sent_ok c' h' (Some r).
Proof.
  intros CO Ef L Se. pose proof CO as [Hh Sh V P R]. unfold answer. cbn.
  destruct (finish_appends _ _ _ _) as [[s a] [m|]] eqn:E; [|done]. intros [= <- <-].
  rewrite Ef in V. destruct (cn_elected c) as [e|] eqn:Ee; [|by destruct V].
  assert (∀ h', ws_head s (ac_tl (cn_acc c)) = Some h' → Seen h') as Se'.
  { intros h' Q. apply Se. unfold store_head. cbn. by rewrite (finish_appends_tl _ _ _ _ _ _ _ E). }
  destruct (finish_appends_ok Hist Seen _ _ _ _ _ _ _ _ _ _ Hh V L Se' E)
    as (T & h' & Hh' & St & V' & Ak).
  exists h'. split.
  2: { intros m' e' [= <-] Q. cbn in Q. rewrite Ee in Q. by injection Q as <-. }
  apply conn_ok_publish, conn_ok_tail; [done|].
  apply (conn_ok_store (with_flights c fs (cn_reply c)) h s a h' (Some e)); cbn; try done.
  - split; try done. cbn. rewrite Ee. by eapply view_ok_pop.
  - by apply Se'.
  - by apply (stepped_term h h').
Qed.

(** ** Messages *)

(** The flights a vote or an election finds, by the loop and by the proposer. *)
Lemma no_flights (c : Conn S) (P : Prop) :
  (1 < depth → c.(cn_flights) = [] ∨ P) →
  c.(cn_flights) = [] ∨ len c.(cn_flights) < depth →
  c.(cn_flights) = [] ∨ P.
Proof.
  intros Q [E|L]; [by left|]. destruct (decide (1 < depth)); [by apply Q|].
  left. destruct (cn_flights c); [done|]. rewrite len_cons in L. lia.
Qed.

Lemma handle_msg_vote c h v c' out :
  conn_ok c h → c.(cn_flights) = [] → handle_msg c (PVoteRequest v) = (c', Ok out) →
  (∀ h', store_head c' = Some h' → Seen h') →
  ∃ h', conn_ok c' h' ∧ sent_ok c' h' out.
Proof.
  intros CO Ef. pose proof CO as [Hh Sh V P R]. cbn.
  destruct (handle_vote _ _ v) as [[s a] [m|]] eqn:E; [|done]. intros [= <- <-] Se.
  assert (ac_tl a = ac_tl (cn_acc c) ∧ ∃ r, m = AVoteResponse r) as [T [r ->]].
  { unfold handle_vote in E. repeat case_match; simplify_eq/=; eauto. }
  rewrite Ef in V.
  assert (∀ h', ws_head s (ac_tl (cn_acc c)) = Some h' → Seen h') as Se'.
  { intros h' Q. apply Se. unfold store_head. cbn. by rewrite T. }
  destruct (handle_vote_ok Hist Seen _ _ _ _ _ _ _ _ Hh V Se' E) as (_ & h' & Hh' & St & V').
  pose proof (Se' h' Hh') as Sh'.
  exists h'. split; [|by intros ? ? [= <-] _ ?]. apply conn_ok_publish.
  apply (conn_ok_store c h s a h' c.(cn_elected)); try done; [apply stepped_term; by right|].
  by rewrite Ef.
Qed.

Lemma handle_msg_elected c h msg c' out :
  conn_ok c h → c.(cn_flights) = [] ∨ c.(cn_elected) = Some msg.(pe_term) →
  msg.(pe_term_history) = Hist msg.(pe_term) →
  handle_msg c (PElected msg) = (c', Ok out) → (∀ h', store_head c' = Some h' → Seen h') →
  ∃ h', conn_ok c' h' ∧ sent_ok c' h' out.
Proof.
  intros CO Ef Eh. pose proof CO as [Hh Sh V P R]. cbn.
  destruct (handle_elected _ _ msg) as [[s a] [[]|]] eqn:E; [|done]. intros [= <- <-] Se.
  assert (ac_tl a = ac_tl (cn_acc c)) as T.
  { unfold handle_elected in E. repeat case_match; simplify_eq/=; eauto. }
  assert (∀ h', ws_head s (ac_tl (cn_acc c)) = Some h' → Seen h') as Se'.
  { intros h' Q. apply Se. unfold store_head. cbn. by rewrite T. }
  destruct (handle_elected_ok Hist Seen _ _ _ _ _ _ _ _ Hh V Eh Ef Se' E)
    as (_ & h' & Hh' & St & V').
  pose proof (Se' h' Hh') as Sh'.
  exists h'. split; [|by intros ? ? [= <-]]. apply conn_ok_publish, conn_ok_tail; [done|].
  pose proof (stepped_term h h' (or_intror St)). split; try done; cbn; [|lia].
  unfold store_head. cbn. by rewrite T.
Qed.

Lemma handle_msg_append c h x c' out :
  conn_ok c h → c.(cn_reply) = None → c.(cn_elected) = Some x.(ar_h).(ah_term) →
  handle_msg c (PAppend x) = (c', Ok out) → (∀ h', store_head c' = Some h' → Seen h') →
  ∃ h', conn_ok c' h' ∧ sent_ok c' h' out.
Proof.
  intros CO Er Ee. pose proof CO as [Hh Sh V P R]. cbn.
  pose proof (gather_head (ah_term (ar_h x)) (len (ar_wal x)) x [] (cn_queue c)) as G.
  destruct (gather _ _ _ _) as [[batch pending] q]. cbn in G.
  destruct (begin_appends _ batch) as [a [r|]] eqn:B; [|done].
  pose proof (begin_appends_cases _ _ _ _ B) as C.
  destruct C as (Es & Et & C); [by intros ->|]. cbn in Es, Et.
  set (o := observe_term (cn_acc c) (pr_term (cn_progress c))) in *.
  assert (view_ok Hist Seen h o c.(cn_elected) c.(cn_flights)) as Vo.
  { apply view_ok_term; [done|]. destruct V as [? _]. cbn in *. lia. }
  assert (view_ok Hist Seen h a c.(cn_elected) c.(cn_flights)) as Va.
  { apply (view_ok_same _ _ h o); [done|by rewrite Es|]. rewrite Es. split; [done|apply Vo]. }
  intros E Se. exists h. destruct r as [m|p].
  - injection E as <- <-. split; [|by intros ? ? [= <-]]. split; try done; cbn.
    + unfold store_head. cbn. by rewrite Et.
    + intros m' [= <-]. rewrite C. eauto.
  - injection E as <- <-. split; [|by intros ? ? [= <-]]. apply conn_ok_publish.
    destruct C as (C1 & C2 & C3). specialize (C3 x G). split; try done; cbn.
    + unfold store_head. cbn. by rewrite Et.
    + rewrite Ee in *. apply view_ok_push; try done; cbn.
      * rewrite Es. etransitivity; [symmetry; exact C1|exact C3].
      * intros b Eb. rewrite (C2 b Eb). done.
Qed.

Lemma handle_msg_ok c h m c' out :
  conn_ok c h → c.(cn_reply) = None → proposer_ok c m →
  c.(cn_flights) = [] ∨ len c.(cn_flights) < depth →
  handle_msg c m = (c', Ok out) → (∀ h', store_head c' = Some h' → Seen h') →
  ∃ h', conn_ok c' h' ∧ sent_ok c' h' out.
Proof.
  intros CO Er [Ph Pm] F E Se. destruct m as [g|v|e|a]; [done| | |].
  - eapply handle_msg_vote; try done. destruct (no_flights c False); [|exact F|done|done].
    intros Q. left. by apply Pm.
  - eapply handle_msg_elected; try done.
    by apply no_flights.
  - by eapply handle_msg_append.
Qed.

Lemma tick_ok c h c' :
  conn_ok c h → tick c = (c', Ok ()) → (∀ h', store_head c' = Some h' → Seen h') →
  ∃ h', conn_ok c' h'.
Proof.
  intros CO E Se. pose proof CO as [Hh Sh V P R]. unfold tick, refresh in E.
  destruct (ws_load _ _) as [found|] eqn:Ld; [|done]. apply ws_load_ok in Ld.
  unfold store_head in Hh. rewrite Hh in Ld. subst found.
  set (a1 := if term (ac_state (cn_acc c)) <? term h then with_term (cn_acc c) (term h) else cn_acc c).
  assert (view_ok Hist Seen h a1 c.(cn_elected) c.(cn_flights)) as V1.
  { unfold a1. destruct (N.ltb_spec (term (ac_state (cn_acc c))) (term h)); [|done].
    apply view_ok_term; [done|lia]. }
  assert (ac_tl a1 = ac_tl (cn_acc c)) as T1 by (unfold a1; by destruct (_ <? _)).
  assert (∃ s a, persist_commit_lsn (cn_store c) a1 = (s, a, Ok ()) ∧ c' = with_store c s a)
    as (s & a & Ep & ->).
  { unfold a1. destruct (term (ac_state (cn_acc c)) <? term h);
      destruct (persist_commit_lsn (cn_store c) _) as [[s a] r]; injection E as <- ->; eauto. }
  assert (ac_tl a = ac_tl a1) as T.
  { unfold persist_commit_lsn in Ep. repeat case_match; simplify_eq/=; done. }
  rewrite <- T1 in Hh.
  assert (∀ h', ws_head s (ac_tl a1) = Some h' → Seen h') as Se'.
  { intros h' Q. apply Se. unfold store_head. cbn. by rewrite T. }
  destruct (persist_commit_ok Hist Seen _ _ _ _ _ _ _ Hh V1 Se' Ep)
    as (_ & _ & _ & h' & Hh' & St & V').
  pose proof (Se' h' Hh') as Sh'.
  exists h'. rewrite T1 in *. apply (conn_ok_store c h s a h' c.(cn_elected)); try done.
  by apply stepped_term.
Qed.

(** ** Every step *)

Lemma conn_step_ok c h out c' :
  conn_ok c h → conn_step Hist proposer_ok depth c out c' →
  (∀ h', store_head c' = Some h' → Seen h') →
  ∃ h', conn_ok c' h' ∧ sent_ok c' h' out.
Proof.
  intros CO St Se. assert (∀ c0 h0, sent_ok c0 h0 None) as None_ok by by intros ? ? ? ? [=].
  destruct St as [c m L|c i c' E|c f fs res c' r Ef L Cond E|c r Er Ef|c m c' out Er Ep ML Pm E
    |c m q c' out Er Ep Eq L Pm E|c c' Er Ep E|c s h0 h' Hh St Hs|c h0 p t Hh L].
  - exists h. split; [by apply conn_ok_queue|done].
  - destruct (run_task_ok _ _ _ _ CO E Se) as [h' ?]. eauto.
  - by eapply answer_ok.
  - pose proof CO as [? ? V ? R]. exists h. split.
    + apply conn_ok_publish. split; try done. cbn. by rewrite Ef in V.
    + intros m e [= <-] _. destruct (R r Er) as [a ->]. apply deposed_acked.
  - eapply (handle_msg_ok _ h m); [by apply conn_ok_queue|done|by destruct m| |done|done].
    cbn. unfold must_land in ML. rewrite Ep in ML. destruct m; try done;
      try (left; by apply bool_decide_eq_false, dec_stable in ML).
    right. by apply N.leb_gt in ML.
  - eapply (handle_msg_ok _ h m); [by apply conn_ok_queue|done|by destruct m| |done|done].
    by right.
  - destruct (tick_ok _ _ _ CO E Se) as [h' ?]. eauto.
  - pose proof CO as [Hc ? V ? ?]. rewrite Hc in Hh. injection Hh as <-.
    exists h'. split; [|done]. assert (Seen h') by by apply Se.
    eapply conn_ok_store; try done; [apply stepped_term; by right|by eapply view_ok_step].
  - pose proof CO as [Hc ? V ? ?]. rewrite Hc in Hh. injection Hh as <-.
    exists h. split; [|done]. split; try done. cbn. rewrite publish_term. lia.
Qed.
End invariant.

(** ** Runs *)

Lemma conn_ok_more (P Q : AcceptorState → Prop) c h :
  (∀ h, P h → Q h) → conn_ok P c h → conn_ok Q c h.
Proof.
  intros I [? ? (La & V) ? ?]. split; auto. split; [done|].
  destruct (cn_elected c) as [e|]; [|done]. destruct V as (Le & R & V). split_and!; [done|done|].
  intros D. destruct (V D) as (h1 & [? ? ? ? ? ?]). exists h1. split; auto.
Qed.

(** A connection after its greeting. *)
Record fresh_conn (c : Conn S) (h : AcceptorState) : Prop := {
  fc_head : store_head c = Some h;
  fc_term : c.(cn_acc).(ac_state).(term) <= h.(term);
  fc_flights : c.(cn_flights) = [];
  fc_reply : c.(cn_reply) = None;
  fc_elected : c.(cn_elected) = None;
  fc_progress : c.(cn_progress).(pr_term) <= h.(term);
}.

Lemma publish_term_of cur p h :
  cur.(pr_term) <= h → p.(pr_term) <= h → (publish cur p).(pr_term) <= h.
Proof. rewrite publish_term. lia. Qed.

(** The greeting leaves the acceptor with the head of the store. *)
Lemma greet_head s node msg allow s' a m :
  greet s node msg allow = (s', Ok (a, m)) → ws_head s' a.(ac_tl) = Some a.(ac_state).
Proof.
  unfold greet, greet_load. destruct (ws_load s (greeting_timeline msg)) as [found|] eqn:Ld; [|done].
  apply ws_load_ok in Ld.
  destruct (match found with Some st => (s, Ok st) | None => _ end) as [s1 [st|]] eqn:L; [|done].
  assert (ws_head s1 (greeting_timeline msg) = Some st) as Hs.
  { destruct found as [st0|]; [by injection L as <- <-|]. destruct allow; [|done].
    by apply ws_create_ok in L. }
  destruct (greet_check node st msg) as [conf|]; [|done]. cbv zeta.
  destruct (_ || _).
  - destruct (ws_update_meta _ _ _ _) as [s2 [st2|]] eqn:U; [|done].
    apply ws_update_meta_ok in U. by intros [= <- <- <-].
  - by intros [= <- <- <-].
Qed.

Lemma open_conn_fresh s0 node msg allow s a m p t :
  greet s0 node msg allow = (s, Ok (a, m)) → p.(pr_term) <= a.(ac_state).(term) →
  fresh_conn (open_conn s a p t) a.(ac_state).
Proof.
  intros G L. apply greet_head in G. split; try done. cbn. by apply publish_term_of.
Qed.

Lemma conn_run_ok c0 h0 hs c :
  fresh_conn c0 h0 → conn_run Hist proposer_ok depth c0 hs c →
  ∃ h, conn_ok (λ h, Some h ∈ hs) c h.
Proof.
  intros [Fh Ft Ff Fr Fe Fp] R. induction R as [c|c hs c' out c'' R IH St].
  - exists h0. split; try done.
    + rewrite Fh. apply list_elem_of_here.
    + rewrite Fe. by split.
    + by rewrite Fr.
  - destruct (IH Fh Ft Ff Fr Fe Fp) as [h CO].
    destruct (conn_step_ok (λ h, Some h ∈ hs ++ [store_head c'']) c' h out c'') as (h' & CO' & _).
    + eapply conn_ok_more; [|exact CO]. intros h1 I. apply elem_of_app. by left.
    + done.
    + intros h' <-. apply elem_of_app. right. apply list_elem_of_here.
    + by exists h'.
Qed.

Lemma conn_run_sends c0 h0 hs c out c' :
  fresh_conn c0 h0 → conn_run Hist proposer_ok depth c0 hs c →
  conn_step Hist proposer_ok depth c out c' →
  ∃ h', store_head c' = Some h' ∧ sent_ok (λ h, Some h ∈ hs ++ [Some h']) c' h' out.
Proof.
  intros F R St. destruct (conn_run_ok _ _ _ _ F R) as [h CO].
  destruct (conn_step_ok (λ h, Some h ∈ hs ++ [store_head c']) c h out c') as (h' & CO' & Se).
  - eapply conn_ok_more; [|exact CO]. intros h1 I. apply elem_of_app. by left.
  - done.
  - intros h' <-. apply elem_of_app. right. apply list_elem_of_here.
  - exists h'. pose proof (co_head _ _ _ CO') as E. rewrite E in Se. done.
Qed.
End conn.
