(* ===== verification/SkProperties.v ===== *)
(** * What the WAL service guarantees

    The properties of the safekeeper: its store, its acceptor and push loop, its wire format
    and its in-memory tail, each with a concrete run on which its hypotheses hold; and the runs
    behind the findings. *)

From Stdlib Require Import NArith ZArith Lia Ascii.
From stdpp Require Import prelude gmap strings numbers sorting list.
From S2P Require Import Prelude.
From S2P Require Import ByteCodec.
From S2P Require Import BTree.
From S2P Require Import SkTypes.
From S2P Require Import SkHistory.
From S2P Require Import SkStore.
From S2P Require Import SkWal.
From S2P Require Import SkStoreInv.
From S2P Require Import SkTail.
From S2P Require Import SkProto.
From S2P Require Import SkProtoInv.
From S2P Require Import SkAcceptor.
From S2P Require Import SkPush.
From S2P Require Import SkDurable.
From S2P Require Import SkConn.

Open Scope N_scope.

(** An equation between closed terms, by evaluation. *)
Ltac evaluates := match goal with |- ?a = ?b => exact (@eq_refl _ b <: a = b) | |- _ => by vm_compute end.

(** ** A timeline to run *)

Module Demo.
Definition new_timeline (srv : ServerInfo) (start : Lsn) : MemTimeline :=
  {| tl_head := AcceptorState_new srv start; tl_wal := ∅ |}.

Definition t0 : MemTimeline := new_timeline ServerInfo_default INVALID.

Definition history1 : TermHistory := [{| tl_term := 1; tl_lsn := 100 |}].
Definition history2 : TermHistory :=
  [{| tl_term := 1; tl_lsn := 100 |}; {| tl_term := 2; tl_lsn := 101 |}].

Definition elected1 : ProposerElected :=
  {| pe_generation := 0; pe_term := 1; pe_start_streaming_at := 100; pe_term_history := history1 |}.
Definition elected2 : ProposerElected :=
  {| pe_generation := 0; pe_term := 2; pe_start_streaming_at := 101; pe_term_history := history2 |}.

Definition batch (t : Term) (begin_ : Lsn) (wal : list Bytes) (commit : Lsn) : AppendBatch :=
  {| ab_term := t; ab_begin_lsn := begin_; ab_wal := wal; ab_commit_lsn := commit;
     ab_truncate_lsn := 100 |}.

Definition ops1 : list StoreOp :=
  [OpVote 1; OpElected elected1; OpAppend (batch 1 100 [[7]; [8; 9]] 101)].
Definition ops2 : list StoreOp :=
  [OpVote 2; OpElected elected2; OpAppend (batch 2 101 [[3; 4]] 102); OpBackup 102; OpTrim 100].

Lemma ops_valid : valid_run t0 (ops1 ++ ops2).
Proof. repeat split; cbn; try done; try (by left); try (by right); by vm_compute. Qed.
End Demo.

(** ** The store *)

(** C4 Committed WAL survives.  Take any sequence of store calls on a new timeline, by any
    proposers, in which an elected proposer starts at or below the stored WAL and WAL arrives
    after an election.  A byte below the commit LSN reached after a part of them is stored then,
    and is the same byte after all of them, unless it was trimmed. *)
Theorem committed_wal_kept srv start ops1 ops2 l :
  start <= u64_MAX →
  valid_run {| tl_head := AcceptorState_new srv start; tl_wal := ∅ |} (ops1 ++ ops2) →
  let t1 := tl_run {| tl_head := AcceptorState_new srv start; tl_wal := ∅ |} ops1 in
  let t2 := tl_run t1 ops2 in
  t2.(tl_head).(trimmed_lsn) <= l < t1.(tl_head).(commit_lsn) →
  ∃ b, byte_at t1 l = Some b ∧ byte_at t2 l = Some b.
Proof.
  intros M [V1 V2]%valid_run_app t1 t2 L.
  pose proof (tl_run_keeps _ ops1 (timeline_new_ok srv start M) V1) as [O1 _ _ _ _].
  fold t1 in O1. pose proof (tl_run_keeps _ _ O1 V2) as [_ B _ T _]. fold t2 in B, T.
  assert (commit_lsn (tl_head t1) <= flush_lsn (tl_head t1)) by apply O1.
  destruct (stored_bytes t1 l O1) as [b E]; [lia|]. exists b. split; [done|].
  rewrite B by lia. done.
Qed.

Lemma committed_wal_kept_witness :
  ∃ b, byte_at (tl_run Demo.t0 Demo.ops1) 100 = Some b
    ∧ byte_at (tl_run (tl_run Demo.t0 Demo.ops1) Demo.ops2) 100 = Some b.
Proof.
  apply (committed_wal_kept ServerInfo_default INVALID Demo.ops1 Demo.ops2 100).
  - by vm_compute.
  - apply Demo.ops_valid.
  - split; by vm_compute.
Defined.

(** An accepted append leaves the stored bytes as they are and adds exactly the batch's bytes
    above the stored end: the flush LSN becomes the end of the batch if it was below it, and the
    commit LSN stays at or below the flush LSN. *)
Theorem append_adds_bytes t b t' h' :
  timeline_ok t → valid_op t (OpAppend b) → tl_append t b = Ok (t', Ok h') →
  timeline_ok t' ∧ h' = t'.(tl_head)
  ∧ t'.(tl_head).(flush_lsn) = N.max t.(tl_head).(flush_lsn) (b.(ab_begin_lsn) + len (concat b.(ab_wal)))
  ∧ t'.(tl_head).(commit_lsn) <= t'.(tl_head).(flush_lsn)
  ∧ ∀ l, t.(tl_head).(trimmed_lsn) <= l < t'.(tl_head).(flush_lsn) →
      byte_at t' l = if l <? t.(tl_head).(flush_lsn) then byte_at t l
                     else concat b.(ab_wal) !! N.to_nat (l - b.(ab_begin_lsn)).
Proof.
  intros O V E. destruct (tl_append_ok _ _ _ _ O V E) as (O' & -> & _ & Eh & B1 & B2).
  pose proof (to_head _ O') as [_ _ C _ _ _].
  assert (flush_lsn (tl_head t') = N.max (flush_lsn (tl_head t)) (batch_end b)) as Ef
    by by rewrite Eh.
  split_and!; [done|done|done|done|]. intros l Hl.
  destruct (N.ltb_spec l (flush_lsn (tl_head t))) as [L|L]; [by apply B1|].
  apply B2. lia.
Qed.

Lemma append_adds_bytes_witness :
  byte_at (after (tl_run Demo.t0 (take 2 Demo.ops1))
             (tl_append (tl_run Demo.t0 (take 2 Demo.ops1)) (Demo.batch 1 100 [[7]; [8; 9]] 101))) 102
  = Some 9.
Proof.
  set (t := tl_run Demo.t0 (take 2 Demo.ops1)). set (b := Demo.batch 1 100 [[7]; [8; 9]] 101).
  assert (timeline_ok t) as O.
  { pose proof Demo.ops_valid as V. change (Demo.ops1 ++ Demo.ops2)
      with (take 2 Demo.ops1 ++ drop 2 Demo.ops1 ++ Demo.ops2) in V.
    apply valid_run_app in V as [V _]. apply tl_run_keeps in V; [apply V|].
    by apply timeline_new_ok. }
  destruct (append_adds_bytes t b (after t (tl_append t b)) (tl_head (after t (tl_append t b))) O)
    as (_ & _ & _ & _ & B).
  - split_and!; by vm_compute.
  - by vm_compute.
  - etransitivity; [apply (B 102); split; by vm_compute|]. by vm_compute.
Defined.

(** A read at or above the trim point succeeds after any valid sequence of calls, meets no
    hole, and returns exactly the stored bytes from its position on: pieces that follow one
    another, as many bytes as were asked for or up to the flush LSN. *)
Theorem read_returns_stored srv start ops from max_bytes :
  start <= u64_MAX → max_bytes <= u64_MAX →
  valid_run {| tl_head := AcceptorState_new srv start; tl_wal := ∅ |} ops →
  let t := tl_run {| tl_head := AcceptorState_new srv start; tl_wal := ∅ |} ops in
  t.(tl_head).(trimmed_lsn) <= from →
  ∃ out, tl_read t from max_bytes = Ok out ∧ pieces from out
    ∧ len (wal_bytes out) = N.min max_bytes (t.(tl_head).(flush_lsn) - from)
    ∧ ∀ i, i < len (wal_bytes out) → wal_bytes out !! N.to_nat i = byte_at t (from + i).
Proof.
  intros M Mb V t L.
  pose proof (tl_run_keeps _ ops (timeline_new_ok srv start M) V) as [O _ _ _ _].
  by apply tl_read_ok.
Qed.

Lemma read_returns_stored_witness :
  ∃ out, tl_read (tl_run Demo.t0 (Demo.ops1 ++ Demo.ops2)) 101 2 = Ok out ∧ pieces 101 out
    ∧ len (wal_bytes out)
      = N.min 2 ((tl_run Demo.t0 (Demo.ops1 ++ Demo.ops2)).(tl_head).(flush_lsn) - 101)
    ∧ ∀ i, i < len (wal_bytes out) → wal_bytes out !! N.to_nat i
        = byte_at (tl_run Demo.t0 (Demo.ops1 ++ Demo.ops2)) (101 + i).
Proof.
  apply (read_returns_stored ServerInfo_default INVALID (Demo.ops1 ++ Demo.ops2) 101 2).
  - by vm_compute.
  - by vm_compute.
  - apply Demo.ops_valid.
  - by vm_compute.
Defined.

(** C30 One vote per term, and a voter never serves an older term again: after a vote was given
    in a term, whatever calls follow, a second vote for that term is refused, and the appends
    and commit positions of an older term are refused and leave the timeline untouched. *)
Theorem one_vote_per_term t v ops :
  (tl_vote t v).2.1 = true →
  let t' := tl_run (tl_vote t v).1 ops in
  (tl_vote t' v).2.1 = false
  ∧ (∀ b, b.(ab_term) < v →
       tl_append t' b = Ok (t', Err {| current := t'.(tl_head).(term) |}))
  ∧ (∀ u l, u < v →
       tl_record_commit t' u l = Ok (t', Err {| current := t'.(tl_head).(term) |})).
Proof.
  intros G t'. assert (v <= term (tl_head t')) as L.
  { etransitivity; [|apply tl_run_term]. rewrite tl_vote_head. unfold tl_vote, apply_vote in *.
    destruct (N.ltb_spec (term (tl_head t)) v); cbn in *; [lia|done]. }
  split_and!.
  - unfold tl_vote, apply_vote. rewrite (proj2 (N.ltb_ge _ _)) by done. done.
  - intros b Lb. unfold tl_append, apply_append. rewrite (proj2 (N.ltb_lt _ _)) by lia.
    by destruct t'.
  - intros u l Lu. unfold tl_record_commit, apply_commit_lsn.
    rewrite (proj2 (N.ltb_lt _ _)) by lia. by destruct t'.
Qed.

Lemma one_vote_per_term_witness :
  (tl_vote (tl_run (tl_vote Demo.t0 1).1 Demo.ops2) 1).2.1 = false.
Proof. apply (one_vote_per_term Demo.t0 1 Demo.ops2). by vm_compute. Defined.

(** The point an elected proposer starts at is the greatest common point of the two WALs:
    below it both were written in the same terms, and if the acceptor's WAL goes on, the terms
    at the point itself differ. *)
Theorem common_point_is_greatest prop sk wal_end_ p :
  StronglySorted tl_lt prop → StronglySorted tl_lt sk → newest prop sk →
  find_highest_common_point prop sk wal_end_ = Ok (Some p) →
  p.(tl_lsn) <= wal_end_
  ∧ (∀ l, l < p.(tl_lsn) → term_at prop l = term_at sk l)
  ∧ (p.(tl_lsn) < wal_end_ → term_at prop p.(tl_lsn) ≠ term_at sk p.(tl_lsn)).
Proof. apply common_point_spec. Qed.

Lemma common_point_is_greatest_witness :
  term_at Demo.history2 101 ≠ term_at Demo.history1 101.
Proof.
  apply (common_point_is_greatest Demo.history2 Demo.history1 103 {| tl_term := 1; tl_lsn := 101 |}).
  - repeat constructor.
  - repeat constructor.
  - intros z e [= <-] [->|[]%elem_of_nil]%elem_of_cons. by vm_compute.
  - by vm_compute.
  - by vm_compute.
Defined.

(** Group commit changes nothing: one fenced write of the WAL of several requests leaves the
    same head and the same stored chunks as a write per request. *)
Theorem group_commit_same t b t' h' :
  chunk_bytes b.(ab_wal) <= u64_MAX → t.(tl_head).(flush_lsn) <= u64_MAX → b.(ab_wal) ≠ [] →
  tl_append t b = Ok (t', Ok h') →
  append_each t b b.(ab_begin_lsn) b.(ab_wal) = Ok (t', Ok h').
Proof. intros F M Ne E. apply append_each_ok; by destruct b. Qed.

Lemma group_commit_same_witness :
  append_each (tl_run Demo.t0 (take 2 Demo.ops1)) (Demo.batch 1 100 [[7]; [8; 9]] 101) 100 [[7]; [8; 9]]
  = tl_append (tl_run Demo.t0 (take 2 Demo.ops1)) (Demo.batch 1 100 [[7]; [8; 9]] 101).
Proof.
  destruct (tl_append (tl_run Demo.t0 (take 2 Demo.ops1)) (Demo.batch 1 100 [[7]; [8; 9]] 101))
    as [[t' [h'|d]]|e] eqn:E;
    [|vm_compute in E; discriminate E..].
  apply (group_commit_same _ (Demo.batch 1 100 [[7]; [8; 9]] 101)); [by vm_compute..|done].
Defined.

(** C31 Retries are harmless: an append that was accepted is accepted again, answers the same
    head and changes nothing. *)
Theorem append_retry_idempotent t b t' h' :
  chunk_bytes b.(ab_wal) <= u64_MAX → t.(tl_head).(flush_lsn) <= u64_MAX →
  tl_append t b = Ok (t', Ok h') → tl_append t' b = Ok (t', Ok h').
Proof. apply tl_append_again. Qed.

Lemma append_retry_idempotent_witness :
  tl_append (tl_run Demo.t0 Demo.ops1) (Demo.batch 1 100 [[7]; [8; 9]] 101)
  = Ok (tl_run Demo.t0 Demo.ops1, Ok (tl_run Demo.t0 Demo.ops1).(tl_head)).
Proof.
  apply (append_retry_idempotent (tl_run Demo.t0 (take 2 Demo.ops1))); by vm_compute.
Defined.

(** ** A connection to run *)

Module DemoConn.
Definition Hist (t : Term) : TermHistory :=
  if t =? 1 then Demo.history1 else if t =? 2 then Demo.history2 else [].

Definition greeting : ProposerGreeting :=
  {| pg_tenant_id := [1]; pg_timeline_id := [2];
     pg_mconf := Configuration_default; pg_pg_version := 160009; pg_system_id := 42;
     pg_wal_seg_size := 16777216 |}.

Definition progress0 : Progress :=
  {| pr_term := 0; pr_flush_lsn := 0; pr_commit_lsn := 0; pr_peer_horizon_lsn := 0;
     pr_active := false |}.

Definition store0 : gmap TimelineId MemTimeline := ∅.

Definition acceptor0 : Acceptor :=
  {| ac_node_id := 1; ac_tl := greeting_timeline greeting;
     ac_state := AcceptorState_new {| pg_version := 160009; system_id := 42;
                                      wal_seg_size := 16777216 |} INVALID;
     ac_commit_lsn := 0; ac_peer_horizon_lsn := 0; ac_term_start_lsn := None;
     ac_issued_end := INVALID |}.

Definition store1 : gmap TimelineId MemTimeline := (greet store0 1 greeting true).1.

Abbreviation MemConn := (Conn (gmap TimelineId MemTimeline)).

Definition c0 : MemConn := open_conn store1 acceptor0 progress0 Tail_default.

Definition append (t : Term) (begin_ : Lsn) (wal : Bytes) (commit : Lsn) : AppendRequest :=
  {| ar_h := {| ah_generation := 0; ah_term := t; ah_begin_lsn := begin_;
                ah_end_lsn := begin_ + len wal; ah_commit_lsn := commit; ah_truncate_lsn := 100 |};
     ar_wal := wal |}.

(** Turns of the loop as functions. *)
Definition arrive (c : MemConn) (m : ProposerMessage) : MemConn :=
  with_queue c c.(cn_pending) (c.(cn_queue) ++ [m]).
Definition recv (c : MemConn) : MemConn :=
  match c.(cn_queue) with
  | m :: q => (handle_msg (with_queue c None q) m).1
  | [] => c
  end.
Definition task (c : MemConn) : MemConn := default c (run_task c 0).
Definition landing (c : MemConn) : MemConn * Result AcceptorMessage SkErr :=
  match c.(cn_flights) with
  | f :: fs =>
      match landed f with
      | Some res => answer (with_flights c fs c.(cn_reply)) f res
      | None => (c, Err (Protocol MTwoTerms))
      end
  | [] => (c, Err (Protocol MTwoTerms))
  end.

(** Elected in term 1, three bytes of WAL, one answer. *)
Definition c1 : MemConn := recv (arrive c0 (PElected Demo.elected1)).
Definition c2 : MemConn := task (recv (arrive c1 (PAppend (append 1 100 [7; 8; 9] 101)))).
Definition c3 : MemConn := (landing c2).1.
Definition answer1 : AppendResponse :=
  {| as_generation := 0; as_term := 1; as_flush_lsn := 103; as_commit_lsn := 101;
     as_hs_feedback := HotStandbyFeedback_default; as_pageserver_feedback := None |}.

Section runs.
Context (proposer : MemConn → ProposerMessage → Prop) (depth : N).

Lemma run_message c hs m out :
  conn_run Hist proposer depth c0 hs c →
  c.(cn_reply) = None → c.(cn_pending) = None → c.(cn_queue) = [] →
  len c.(cn_flights) < depth →
  proposer (arrive c m) m →
  (handle_msg (with_queue (arrive c m) None []) m).2 = Ok out →
  ∃ hs', conn_run Hist proposer depth c0 hs' (recv (arrive c m)).
Proof.
  intros R Er Ep Eq L P E. eexists. eapply cr_step; [eapply cr_step; [exact R|]|].
  - apply cs_arrive. by rewrite Eq.
  - assert (cn_queue (arrive c m) = [m]) as Q by (cbn; by rewrite Eq).
    eapply (cs_recv _ _ _ (arrive c m) m [] _ out); try done. unfold recv. rewrite Q, <- E.
    apply surjective_pairing.
Qed.

Lemma run_write c hs :
  conn_run Hist proposer depth c0 hs c → bool_decide (is_Some (run_task c 0)) = true →
  ∃ hs', conn_run Hist proposer depth c0 hs' (task c).
Proof.
  intros R [c' E]%bool_decide_eq_true. eexists. eapply cr_step; [exact R|]. unfold task.
  rewrite E. by eapply cs_task.
Qed.

(** The step that answers the oldest flight. *)
Lemma step_land c r :
  c.(cn_pending) = None → (landing c).2 = Ok r →
  conn_step Hist proposer depth c (Some r) (landing c).1.
Proof.
  intros Ep E. unfold landing in E |- *. destruct (cn_flights c) as [|f fs] eqn:Ef; [done|].
  destruct (landed f) as [res|] eqn:El; [|done]. eapply cs_land; eauto.
  rewrite <- E. apply surjective_pairing.
Qed.
End runs.
End DemoConn.

(** ** The push loop *)




(** Heartbeats stay off the store: requests without WAL are answered from memory and leave
    the store as it is, once the commit LSN that was made durable has reached the start of the
    term.  Holds of any store. *)
Theorem heartbeats_leave_store {S} `{WalStore S} (s : S) a reqs s' a' r start :
  Forall (λ q, q.(ar_wal) = []) reqs → a.(ac_term_start_lsn) = Some start →
  start <= a.(ac_state).(commit_lsn) →
  handle_appends s a reqs = (s', a', r) → s' = s.
Proof.
  intros F Es L. unfold handle_appends.
  destruct (begin_appends a reqs) as [a1 [ap|e]] eqn:B; [|by intros [= <- _ _]].
  unfold begin_appends in B. destruct reqs as [|q reqs].
  { injection B as <- <-. by intros [= <- _ _]. }
  destruct (check_requests _ _ _); [|done].
  destruct (_ <? _); [injection B as <- <-; by intros [= <- _ _]|].
  destruct (_ =? _); [|done]. rewrite Es in B. cbn [ok_or] in B. cbv zeta in B.
  assert (filter (λ r, ar_wal r ≠ []) (q :: reqs) = []) as E.
  { apply filter_none. intros x I N. apply N. by apply (proj1 (Forall_forall _ _) F). }
  rewrite E in B. cbn in B. injection B as <- <-. cbn [pa_batch].
  unfold finish_appends. cbn [pa_term]. destruct (negb _); [by intros [= <- _ _]|].
  unfold finish_positions. cbn [pa_term_start_lsn ac_state with_lsns].
  rewrite (proj2 (N.ltb_ge (commit_lsn _) start)) by done. rewrite andb_false_r.
  by intros [= <- _ _].
Qed.

Lemma heartbeats_leave_store_witness :
  (handle_appends DemoConn.c3.(cn_store) DemoConn.c3.(cn_acc) [DemoConn.append 1 103 [] 103]).1.1
  = DemoConn.c3.(cn_store).
Proof.
  destruct (handle_appends DemoConn.c3.(cn_store) DemoConn.c3.(cn_acc)
              [DemoConn.append 1 103 [] 103]) as [[s a] r] eqn:E.
  apply (heartbeats_leave_store (cn_store DemoConn.c3) (cn_acc DemoConn.c3)
    [DemoConn.append 1 103 [] 103] s a r 100); [by repeat constructor|evaluates|by vm_compute|exact E].
Defined.

(** ** The tail *)

Inductive TailOp := TailPush (begin_ : Lsn) (data : Bytes) | TailTruncate (at_ : Lsn).

Definition tail_run (ops : list TailOp) : Tail :=
  foldl (λ t op, match op with
                 | TailPush b d => tail_push t b d
                 | TailTruncate at_ => tail_truncate t at_
                 end) Tail_default ops.

(** The byte an LSN was last given, not truncated since. *)
Definition tail_gives (ops : list TailOp) (l : Lsn) (b : N) : Prop :=
  ∃ pre begin_ data post, ops = pre ++ TailPush begin_ data :: post
    ∧ begin_ <= l ∧ data !! N.to_nat (l - begin_) = Some b
    ∧ Forall (λ op, match op with TailTruncate at_ => l < at_ | _ => True end) post.

Definition tail_fits (op : TailOp) : Prop :=
  match op with TailPush b d => b + len d <= u64_MAX | _ => True end.

Lemma tail_run_ok ops :
  Forall tail_fits ops →
  tail_ok (tail_run ops) ∧ ∀ l b, tail_at (tail_run ops) l = Some b → tail_gives ops l b.
Proof.
  unfold tail_run. induction ops as [|op ops IH] using rev_ind; intros F.
  { split; [apply Tail_default_ok|done]. }
  apply Forall_app in F as [F Fo]. apply Forall_cons in Fo as [Fo _].
  destruct (IH F) as [O G]. clear IH F. rewrite foldl_app. cbn [foldl].
  set (t := foldl _ _ ops) in *. destruct op as [begin_ data|at_].
  - destruct (tail_push_spec t begin_ data O Fo) as [O' P]. split; [done|].
    intros l b [E|[L E]]%P.
    + destruct (G l b E) as (pre & b' & d & post & -> & ? & ? & ?).
      exists pre, b', d, (post ++ [TailPush begin_ data]). rewrite <- app_assoc.
      split_and!; try done. apply Forall_app. split; [done|by repeat constructor].
    + exists ops, begin_, data, []. by split_and!.
  - destruct (tail_truncate_spec t at_ O) as [O' P]. split; [done|].
    intros l b. rewrite P. destruct (N.ltb_spec l at_) as [L|]; [|done]. intros E.
    destruct (G l b E) as (pre & b' & d & post & -> & ? & ? & ?).
    exists pre, b', d, (post ++ [TailTruncate at_]). rewrite <- app_assoc.
    split_and!; try done. apply Forall_app. split; [done|by repeat constructor].
Qed.

(** C34 The tail never invents WAL and never grows past its bound: after any pushes and
    truncations it holds at most [TAIL_BYTES], in one contiguous run; a read returns pieces that
    follow one another from its position, and each byte of them is one a push gave that LSN and
    no later truncation removed. *)
Theorem tail_reads_pushed ops from max out :
  Forall tail_fits ops → max <= u64_MAX → tail_read (tail_run ops) from max = Some out →
  (tail_run ops).(ta_bytes) <= TAIL_BYTES
  ∧ (tail_run ops).(ta_bytes) = len (wal_bytes (tail_run ops).(ta_chunks))
  ∧ pieces from out
  ∧ ∀ i b, wal_bytes out !! N.to_nat i = Some b → tail_gives ops (from + i) b.
Proof.
  intros F M E. destruct (tail_run_ok ops F) as [O G].
  pose proof (tail_read_spec _ from max O M) as R. rewrite E in R. destruct R as (P & B & _).
  split_and!; [apply O|apply O|done|]. intros i b Eb. apply G. rewrite <- B; [done|].
  apply lookup_lt_Some in Eb. unfold len. lia.
Qed.

Lemma tail_reads_pushed_witness :
  tail_gives [TailPush 100 [7; 8; 9]; TailTruncate 102] 101 8.
Proof.
  apply (tail_reads_pushed [TailPush 100 [7; 8; 9]; TailTruncate 102] 101 10 [(101, [8])])
    with (i := 0).
  - repeat constructor; evaluates.
  - evaluates.
  - evaluates.
  - evaluates.
Defined.

(** ** Text and wire *)

(** An LSN printed in Postgres' notation parses to itself. *)
Theorem lsn_text_roundtrip l : l <= u64_MAX → parse_lsn (show_lsn l) = Ok l.
Proof. apply parse_show_lsn. Qed.

Lemma lsn_text_roundtrip_witness : parse_lsn "16/B374D848" = Ok 97500059720.
Proof. apply (lsn_text_roundtrip 97500059720). evaluates. Defined.

(** Two characters per byte, for the concrete messages below. *)
Module DemoHex.
Definition greeting : ProposerGreeting :=
  {| pg_tenant_id := replicate 16 1; pg_timeline_id := replicate 16 2;
     pg_mconf := Configuration_default; pg_pg_version := 160009; pg_system_id := 42;
     pg_wal_seg_size := 16777216 |}.

Definition hex_char (d : N) : ascii := if d <? 10 then ascii_of_N (48 + d) else ascii_of_N (87 + d).
Fixpoint encode (i : list N) : string :=
  match i with
  | [] => EmptyString
  | b :: i => String (hex_char (b / 16)) (String (hex_char (b mod 16)) (encode i))
  end.
Fixpoint decode (s : string) : option (list N) :=
  match s with
  | EmptyString => Some []
  | String a (String b s) =>
      x ← hex_value a; y ← hex_value b; i ← decode s; Some (x * 16 + y :: i)
  | _ => None
  end.

#[export] Instance demo_hex : Hex := { hex_encode := encode; hex_decode_to_slice := decode }.

Lemma hex_value_char d : d < 16 → hex_value (hex_char d) = Some d ∧ 0 < N_of_ascii (hex_char d) < 128.
Proof. intros L. destruct d as [|p]; [done|]. do 5 (destruct p; try done; try lia). Qed.

Lemma hex_decode_encode i : Forall (λ b, b < 256) i → decode (encode i) = Some i.
Proof.
  induction 1 as [|b i L F IH]; [done|]. cbn [encode decode].
  assert (b / 16 < 16) as Ld by (apply N.Div0.div_lt_upper_bound; lia).
  pose proof (N.mod_lt b 16 ltac:(done)) as Lm.
  rewrite (proj1 (hex_value_char _ Ld)), (proj1 (hex_value_char _ Lm)). cbn. rewrite IH. cbn.
  do 2 f_equal. pose proof (N.div_mod b 16 ltac:(done)). lia.
Qed.

Lemma encode_text i : Forall (λ b, b < 256) i → cstr_ok (encode i).
Proof.
  intros F. assert (Forall (λ b, 0 < b < 128) (string_bytes (encode i))) as A.
  { unfold string_bytes. induction F as [|b i L F IH]; cbn; [constructor|].
    assert (b / 16 < 16) by (apply N.Div0.div_lt_upper_bound; lia).
    pose proof (N.mod_lt b 16 ltac:(done)). repeat constructor; try apply hex_value_char; done. }
  clear F. split.
  - induction A as [|b l L F IH]; cbn; [done|]. by rewrite (proj2 (N.ltb_lt _ _)) by lia.
  - intros I. apply (proj1 (Forall_forall _ _) A) in I. lia.
Qed.

#[export] Instance demo_hex_ok : HexOk.
Proof. split; intros i [_ F]; [by apply hex_decode_encode|by apply encode_text]. Qed.
End DemoHex.

(** The proposer's messages survive the wire: what [serialize] writes, [parse] reads back,
    whatever follows it; and a message cut short at any byte is refused. *)
Theorem proposer_wire_roundtrip `{HexOk} m :
  proposer_msg_ok m →
  (∀ rest, parse_proposer (serialize_proposer m ++ rest) = Ok m)
  ∧ (∀ p q, serialize_proposer m = p ++ q → q ≠ [] → ∃ e, parse_proposer p = Err e).
Proof.
  intros M. split; [intros rest; by apply parse_proposer_whole|].
  intros p q E Nq. apply (parse_proposer_short m); [done|]. by exists q.
Qed.

Lemma proposer_wire_roundtrip_witness :
  @parse_proposer DemoHex.demo_hex
    (@serialize_proposer DemoHex.demo_hex (PGreeting DemoHex.greeting) ++ [1; 2])
  = Ok (PGreeting DemoHex.greeting).
Proof.
  apply (@proposer_wire_roundtrip _ DemoHex.demo_hex_ok (PGreeting DemoHex.greeting)).
  assert (id_ok (replicate 16 1) ∧ id_ok (replicate 16 2)) as [? ?].
  { split; (split; [done|by apply Forall_replicate]). }
  split_and!; done.
Defined.

(** The acceptor's messages survive the wire: what [serialize] writes, with the pageserver
    feedback as key and value entries, [parse] reads back to the last byte. *)
Theorem acceptor_wire_roundtrip m :
  acceptor_msg_ok m → parse_acceptor (serialize_acceptor m) = Ok m.
Proof. apply parse_serialize_acceptor. Qed.

Lemma acceptor_wire_roundtrip_witness :
  parse_acceptor (serialize_acceptor (AAppendResponse DemoConn.answer1))
  = Ok (AAppendResponse DemoConn.answer1).
Proof. apply acceptor_wire_roundtrip. by repeat split. Defined.

(** ** Findings *)

Module Pipelined.
Definition d1 : DemoConn.MemConn := DemoConn.recv (DemoConn.arrive DemoConn.c2 (PElected Demo.elected2)).
Definition d2 : DemoConn.MemConn := (DemoConn.landing d1).1.
Definition d3 : DemoConn.MemConn := DemoConn.recv (DemoConn.arrive d2 (PAppend (DemoConn.append 2 101 [] 0))).
Definition answer2 : AppendResponse :=
  {| as_generation := 0; as_term := 2; as_flush_lsn := 103; as_commit_lsn := 101;
     as_hs_feedback := HotStandbyFeedback_default; as_pageserver_feedback := None |}.

(** C35 With two writes in flight the loop handles an election it received while an append of an
    older term is still out; the answer to a later heartbeat then acknowledges WAL in the new
    term that the election has cut off.  The proposers are honest: one history per term, and
    appends in the term announced.  [acknowledged_is_durable] needs its proposer to wait. *)
Theorem pipelined_ack_ahead_of_store :
  ∃ hs h, conn_run DemoConn.Hist (honest DemoConn.Hist) 2 DemoConn.c0 hs d3
    ∧ conn_step DemoConn.Hist (honest DemoConn.Hist) 2 d3 (Some (AAppendResponse answer2))
        (DemoConn.landing d3).1
    ∧ store_head (DemoConn.landing d3).1 = Some h
    ∧ h.(term) = answer2.(as_term) ∧ wal_end h < answer2.(as_flush_lsn).
Proof.
  set (P := honest DemoConn.Hist (S := gmap TimelineId MemTimeline)).
  destruct (DemoConn.run_message P 2 DemoConn.c0 [store_head DemoConn.c0]
    (PElected Demo.elected1) None) as [hs1 R1]; [apply cr_refl|evaluates..|].
  destruct (DemoConn.run_message P 2 _ _ (PAppend (DemoConn.append 1 100 [7; 8; 9] 101)) None R1)
    as [hs2 R2]; [evaluates..|].
  destruct (DemoConn.run_write P 2 _ _ R2) as [hs3 R3]; [evaluates|].
  destruct (DemoConn.run_message P 2 DemoConn.c2 _ (PElected Demo.elected2) None R3) as [hs4 R4];
    [evaluates..|].
  destruct (DemoConn.run_message P 2 d2 (hs4 ++ [store_head d2])
    (PAppend (DemoConn.append 2 101 [] 0)) None) as [hs5 R5]; [|evaluates..|].
  { eapply cr_step; [exact R4|]. eapply (DemoConn.step_land P 2 d1 (AAppendResponse
      {| as_generation := 0; as_term := 1; as_flush_lsn := 103; as_commit_lsn := 101;
         as_hs_feedback := HotStandbyFeedback_default; as_pageserver_feedback := None |}));
      evaluates. }
  eexists _, _. split_and!; [exact R5| |evaluates|evaluates|evaluates].
  apply DemoConn.step_land; evaluates.
Qed.
End Pipelined.

(** An empty batch whose position is above the stored WAL moves the flush LSN there. *)
Lemma empty_batch_moves_flush :
  (tl_run Demo.t0 Demo.ops1).(tl_head).(flush_lsn) = 103
  ∧ (tl_step (tl_run Demo.t0 Demo.ops1) (OpAppend (Demo.batch 1 500 [] 0))).(tl_head).(flush_lsn) = 500.
Proof. split; evaluates. Qed.

(** A proposer whose history has nothing in common with the acceptor's may start above the
    stored WAL; the WAL between is then not there, and a reader meets the hole. *)
Lemma elected_above_stored_end :
  let t := tl_run {| tl_head := AcceptorState_new ServerInfo_default 100; tl_wal := ∅ |}
    [OpElected {| pe_generation := 0; pe_term := 1; pe_start_streaming_at := 500;
                  pe_term_history := [{| tl_term := 1; tl_lsn := 500 |}] |};
     OpAppend (Demo.batch 1 500 [[7]] 0)] in
  t.(tl_head).(flush_lsn) = 501 ∧ tl_read t 100 10 = Err (StoreHole 100 500).
Proof. split; evaluates. Qed.
