(* ===== verification/LogBatch.v ===== *)
(** * Records, errors and record batches of the log (loams-log/src/record.rs, error.rs, batch.rs)

    A [Bytes] is a list of byte values; the signed timestamps are [Z].  The text of an error is
    the format string it is made with; the values formatted into it are left out.  The errors of
    the object store, the range cache and the metastore client are here too, in modules, since
    the log passes them on.

    A batch is Kafka's [RecordBatch] v2: a header of 61 bytes, of which [baseOffset] and the leader
    epoch are outside the checksum, and records with zigzag variable-length numbers.  Encoding gives
    the bytes; decoding is a reader over a cursor.  The [crc32c] crate is a parameter. *)

From Stdlib Require Import NArith ZArith Lia.
From stdpp Require Import prelude strings numbers list.
From S2P Require Import Prelude.
From S2P Require Import ByteCodec.
From S2P Require Import Ids.
From S2P Require Import MetaTypes.

Open Scope N_scope.

Record LogRecord := {
  rec_key : option Bytes;
  rec_value : option Bytes;
  rec_headers : list (string * option Bytes);
  rec_timestamp_ms : Z;
}.

Record OffsetRecord := { or_offset : N; or_record : LogRecord }.

Inductive Encoding := Kafka | Arrow.

(** [StoreError] (loams-store/src/error.rs) *)
Module StoreError.
Inductive t := NotFound | AlreadyExists | PreconditionFailed | NotSupported | InvalidUrl
  | InvalidPath | Backend.
End StoreError.

(** [CacheError] (loams-cache/src/range_cache.rs) *)
Module CacheError.
Inductive t := Store (e : StoreError.t) | Cache | OutOfRange | SizeMismatch.
End CacheError.

(** [MetaError] (loams-common/src/meta/error.rs) *)
Module MetaError.
Inductive t :=
  | Rejected (e : ApplyError)
  | NotLeader (leader : option N)
  | Timeout
  | Unavailable
  | ClockSkew (stamped_ms leader_ms : N)
  | Storage
  | Config
  | UnexpectedReply.
End MetaError.

Inductive LogError :=
  | Corrupt (what : string)
  | UnsupportedEncoding (n : N)
  | InvalidArgument (what : string)
  | UnknownStream (stream : StreamId)
  | UnknownPartition (stream : StreamId) (partition : N)
  | OffsetOutOfRange (requested log_start_offset high_watermark : N)
  | Backpressure
  | Closed
  | CommitUnknown (what : string)
  | LogStore (e : StoreError.t)
  | LogCache (e : CacheError.t)
  | LogMeta (e : MetaError.t)
  | LogTask (e : TaskError)

(** [TaskError] (loams-worker/src/lib.rs); what it wraps is here an error of the log. *)
with TaskError :=
  | TaskFenced
  | TaskMeta (e : MetaError.t)
  | TaskFailed (e : LogError).

#[export] Instance Encoding_eq_dec : EqDecision Encoding.
Proof. solve_decision. Defined.
#[export] Instance LogRecord_eq_dec : EqDecision LogRecord.
Proof. solve_decision. Defined.
#[export] Instance OffsetRecord_eq_dec : EqDecision OffsetRecord.
Proof. solve_decision. Defined.

(** [From<Encoding> for u8] *)
Definition encoding_byte (e : Encoding) : N := match e with Kafka => 0 | Arrow => 1 end.

(** [TryFrom<u8> for Encoding] *)
Definition encoding_try_from (n : N) : Result Encoding LogError :=
  if n =? 0 then Ok Kafka else if n =? 1 then Ok Arrow else Err (UnsupportedEncoding n).

(** [Encoding::ensure_readable] *)
Definition ensure_readable (e : Encoding) : Result () LogError :=
  match e with
  | Kafka => Ok ()
  | Arrow => Err (UnsupportedEncoding (encoding_byte e))
  end.

(** ** Records as Rust values: bytes, valid strings and an [i64] *)

Definition bytes_ok (bs : Bytes) : Prop := Forall (λ b, b < 256) bs.
Definition opt_bytes_ok (o : option Bytes) : Prop := default True (bytes_ok <$> o).

Record record_ok (r : LogRecord) : Prop := {
  ro_key : opt_bytes_ok r.(rec_key);
  ro_value : opt_bytes_ok r.(rec_value);
  ro_headers : Forall (λ h, utf8_valid (string_bytes h.1) = true ∧ opt_bytes_ok h.2) r.(rec_headers);
  ro_timestamp : i64_ok r.(rec_timestamp_ms);
}.

(** [HEADER_LEN] .. [MAGIC] *)
Definition HEADER_LEN : nat := 61.
Definition LOG_OVERHEAD : nat := 12.
Definition MAGIC_OFFSET : nat := 16.
Definition CRC_OFFSET : nat := 17.
Definition ATTRIBUTES_OFFSET : nat := 21.
Definition LAST_OFFSET_DELTA_OFFSET : nat := 23.
Definition BASE_TIMESTAMP_OFFSET : nat := 27.
Definition MAX_TIMESTAMP_OFFSET : nat := 35.
Definition RECORD_COUNT_OFFSET : nat := 57.
Definition MAGIC : N := 2.
Definition NO_PRODUCER_ID : Z := (-1)%Z.
Definition NO_PRODUCER_EPOCH : Z := (-1)%Z.
Definition NO_SEQUENCE : Z := (-1)%Z.
Definition NO_PARTITION_LEADER_EPOCH : Z := (-1)%Z.
Definition COMPRESSION_MASK : Z := 7%Z.

Definition i32_MAX : N := 2147483647.

(** ** Writing *)

(** [len_i32] *)
Definition len_i32 (what : string) (n : N) : Result Z LogError :=
  if n <=? i32_MAX then Ok (Z.of_N n) else Err (InvalidArgument (what +:+ " is too large")).

(** [(value << 1) ^ (value >> 63)] as a [u64]. *)
Definition zigzag (value : Z) : N :=
  i64_bits (Z.lxor (bits_i64 (i64_bits (Z.shiftl value 1))) (Z.shiftr value 63)).

(** The loop of [put_varlong]: a [u64] has at most ten groups of seven bits. *)
Fixpoint put_groups (fuel : nat) (z : N) : Bytes :=
  match fuel with
  | O => [z mod 256]
  | S fuel =>
      if 128 <=? z then N.lor (z mod 256) 128 :: put_groups fuel (N.shiftr z 7) else [z mod 256]
  end.

(** [put_varlong] *)
Definition put_varlong (value : Z) : Bytes := put_groups 10 (zigzag value).

(** [put_varint] *)
Definition put_varint (value : Z) : Bytes := put_varlong value.

(** [put_bytes] *)
Definition put_bytes (what : string) (bytes : option Bytes) : Result Bytes LogError :=
  match bytes with
  | None => Ok (put_varint (-1))
  | Some bytes => LET n <- len_i32 what (len bytes) ;; Ok (put_varint n ++ bytes)
  end.

(** [a.checked_sub(b)] and [a.checked_add(b)] on [i64]. *)
Definition i64_checked (z : Z) : option Z :=
  if (i64_MIN <=? z)%Z && (z <=? i64_MAX)%Z then Some z else None.

(** One turn of the header loop of [encode_record]. *)
Definition put_header (h : string * option Bytes) : Result Bytes LogError :=
  let '(key, value) := h in
  LET n <- len_i32 "header key" (str_len key) ;;
  LET v <- put_bytes "header value" value ;;
  Ok (put_varint n ++ string_bytes key ++ v).

(** A loop whose turns append to a buffer. *)
Fixpoint put_all {A} (put : A → Result Bytes LogError) (xs : list A) : Result Bytes LogError :=
  match xs with
  | [] => Ok []
  | x :: xs => LET b <- put x ;; LET bs <- put_all put xs ;; Ok (b ++ bs)
  end.

(** [encode_record]: the bytes it appends. *)
Definition encode_record (offset_delta base_timestamp : Z) (record : LogRecord)
  : Result Bytes LogError :=
  LET timestamp_delta <- ok_or (i64_checked (record.(rec_timestamp_ms) - base_timestamp)%Z)
                               (InvalidArgument "timestamps too far apart") ;;
  LET key <- put_bytes "record key" record.(rec_key) ;;
  LET value <- put_bytes "record value" record.(rec_value) ;;
  LET count <- len_i32 "header count" (len record.(rec_headers)) ;;
  LET headers <- put_all put_header record.(rec_headers) ;;
  let body := [0] ++ put_varlong timestamp_delta ++ put_varint offset_delta ++ key ++ value
              ++ put_varint count ++ headers in
  LET n <- len_i32 "record" (len body) ;;
  Ok (put_varint n ++ body).

(** The records with their offset deltas, [(0..count).zip(records)]. *)
Definition with_deltas (from : Z) (records : list LogRecord) : list (Z * LogRecord) :=
  imap (λ i r, ((from + Z.of_nat i)%Z, r)) records.

(** [records.iter().map(..).max()], where there is a first one. *)
Definition max_timestamp (first : LogRecord) (rest : list LogRecord) : Z :=
  foldl (λ m r, Z.max m r.(rec_timestamp_ms)) first.(rec_timestamp_ms) rest.

Definition put_be_i16 (z : Z) : Bytes := be_bytes 2 (i16_bits z).
Definition put_be_i32 (z : Z) : Bytes := be_bytes 4 (i32_bits z).
Definition put_be_i64 (z : Z) : Bytes := be_bytes 8 (i64_bits z).

Section batches.
Context `{Crc32c}.

(** [encode] *)
Definition encode (records : list LogRecord) : Result Bytes LogError :=
  match records with
  | [] => Err (InvalidArgument "a batch needs at least one record")
  | first :: rest =>
      LET count <- len_i32 "record count" (len records) ;;
      let base_timestamp := first.(rec_timestamp_ms) in
      let max_ts := max_timestamp first rest in
      LET body <- put_all (λ dr, encode_record dr.1 base_timestamp dr.2) (with_deltas 0 records) ;;
      LET batch_length <- len_i32 "batch" (N.of_nat (HEADER_LEN - LOG_OVERHEAD) + len body) ;;
      let front := put_be_i64 0 ++ put_be_i32 batch_length
                   ++ put_be_i32 NO_PARTITION_LEADER_EPOCH ++ [MAGIC] in
      let covered := put_be_i16 0 ++ put_be_i32 (count - 1) ++ put_be_i64 base_timestamp
                     ++ put_be_i64 max_ts ++ put_be_i64 NO_PRODUCER_ID
                     ++ put_be_i16 NO_PRODUCER_EPOCH ++ put_be_i32 NO_SEQUENCE
                     ++ put_be_i32 count ++ body in
      Ok (front ++ be_bytes 4 (crc32c covered) ++ covered)
  end.

(** [patch_base_offset] *)
Definition patch_base_offset (batch : Bytes) (base_offset : N) : Bytes :=
  if (8 <=? length batch)%nat then be_bytes 8 base_offset ++ drop 8 batch else batch.

(** [base_offset] *)
Definition batch_base_offset (batch : Bytes) : option N :=
  if (8 <=? length batch)%nat then Some (be_value (take 8 batch)) else None.

(** ** Reading *)

Record BatchRef := { br_bytes : Bytes; br_record_count : N; br_max_timestamp_ms : Z }.

Definition be_i16 (bytes : Bytes) (at_ : nat) : Z := bits_i16 (be_at 2 bytes at_).
Definition be_i32 (bytes : Bytes) (at_ : nat) : Z := bits_i32 (be_at 4 bytes at_).
Definition be_u32 (bytes : Bytes) (at_ : nat) : N := be_at 4 bytes at_.
Definition be_i64 (bytes : Bytes) (at_ : nat) : Z := bits_i64 (be_at 8 bytes at_).

(** [parse_batch] *)
Definition parse_batch (bytes : Bytes) : Result BatchRef LogError :=
  REFUSE (length bytes <? HEADER_LEN)%nat WITH Corrupt "record batch truncated: {} bytes" ;;
  let length_ := be_i32 bytes 8 in
  let total := (Z.to_nat length_ + LOG_OVERHEAD)%nat in
  REFUSE (length_ <? 0)%Z || (total <? HEADER_LEN)%nat || (length bytes <? total)%nat
    WITH Corrupt "bad record batch length {length}" ;;
  let bytes := take total bytes in
  REFUSE negb (default 0 (bytes !! MAGIC_OFFSET) =? MAGIC)
    WITH Corrupt "unsupported record batch magic {}" ;;
  REFUSE negb (crc32c (drop ATTRIBUTES_OFFSET bytes) =? be_u32 bytes CRC_OFFSET)
    WITH Corrupt "record batch checksum mismatch" ;;
  let attributes := be_i16 bytes ATTRIBUTES_OFFSET in
  REFUSE negb (Z.land attributes COMPRESSION_MASK =? 0)%Z
    WITH Corrupt "compressed record batches are not supported (attributes {attributes:#x})" ;;
  let count := be_i32 bytes RECORD_COUNT_OFFSET in
  let last_delta := be_i32 bytes LAST_OFFSET_DELTA_OFFSET in
  REFUSE negb ((0 <? count)%Z && (count - 1 =? last_delta)%Z)
    WITH Corrupt "bad record count {count} (last offset delta {last_delta})" ;;
  Ok {| br_bytes := bytes;
        br_record_count := Z.to_N count;
        br_max_timestamp_ms := be_i64 bytes MAX_TIMESTAMP_OFFSET |}.

(** The items of [batches]; each batch takes at least its header off the buffer, so the length
    of the buffer bounds their number. *)
Fixpoint batches_from (fuel : nat) (bytes : Bytes) : list (Result BatchRef LogError) :=
  match fuel, bytes with
  | _, [] | O, _ => []
  | S fuel, _ =>
      match parse_batch bytes with
      | Ok batch => Ok batch :: batches_from fuel (drop (length batch.(br_bytes)) bytes)
      | Err e => [Err e]
      end
  end.

(** [batches] *)
Definition batches (bytes : Bytes) : list (Result BatchRef LogError) :=
  batches_from (length bytes) bytes.

(** ** The cursor *)

(** [Cursor::take] *)
Definition cursor_take (n : N) : Reader LogError Bytes :=
  get_bytes (N.to_nat n) (Corrupt "record truncated").

(** The loop of [Cursor::varlong]: [todo] turns from the [i]th on. *)
Fixpoint get_groups (todo : nat) (i value : N) : Reader LogError Z :=
  match todo with
  | O => rfail (Corrupt "varint too long")
  | S todo =>
      READ bs <- cursor_take 1 ;;
      let byte := default 0 (head bs) in
      let value := N.lor value (N.shiftl (N.land byte 127) (7 * i) mod u64_modulus) in
      if N.land byte 128 =? 0
      then rret (Z.lxor (Z.of_N (N.shiftr value 1)) (- Z.of_N (N.land value 1)))
      else get_groups todo (i + 1) value
  end.

(** [Cursor::varlong] *)
Definition varlong (max_bytes : nat) : Reader LogError Z := get_groups max_bytes 0 0.

(** [Cursor::varint] *)
Definition varint : Reader LogError Z :=
  READ value <- varlong 5 ;;
  if (-2147483648 <=? value)%Z && (value <=? 2147483647)%Z then rret value
  else rfail (Corrupt "varint out of range").

(** [usize::try_from(cursor.varint()?)] *)
Definition varint_len (negative : string) : Reader LogError N :=
  READ n <- varint ;; if (n <? 0)%Z then rfail (Corrupt negative) else rret (Z.to_N n).

(** [Cursor::nullable_bytes] *)
Definition nullable_bytes : Reader LogError (option Bytes) :=
  READ n <- varint ;;
  if (n =? -1)%Z then rret None
  else if (n <? 0)%Z then rfail (Corrupt "negative length")
  else READ bs <- cursor_take (Z.to_N n) ;; rret (Some bs).

(** One turn of the header loop of [decode_record]. *)
Definition get_header : Reader LogError (string * option Bytes) :=
  READ key_len <- varint_len "negative header key length" ;;
  READ key <- cursor_take key_len ;;
  if utf8_valid key then
    READ value <- nullable_bytes ;; rret (bytes_string key, value)
  else rfail (Corrupt "header key is not UTF-8").

(** The part of [decode_record] that reads the record's own bytes. *)
Definition decode_body (expected_delta base_timestamp : Z) : Reader LogError LogRecord :=
  READ attributes <- cursor_take 1 ;;
  READ timestamp_delta <- varlong 10 ;;
  READ offset_delta <- varint ;;
  if negb (offset_delta =? expected_delta)%Z
  then rfail (Corrupt "record offset delta {offset_delta}, expected {expected_delta}")
  else
    match i64_checked (base_timestamp + timestamp_delta)%Z with
    | None => rfail (Corrupt "record timestamp overflows")
    | Some timestamp_ms =>
        READ key <- nullable_bytes ;;
        READ value <- nullable_bytes ;;
        READ header_count <- varint_len "negative header count" ;;
        READ headers <- get_many (N.to_nat header_count) get_header ;;
        rret {| rec_key := key; rec_value := value; rec_headers := headers;
                rec_timestamp_ms := timestamp_ms |}
    end.

(** [decode_record] *)
Definition decode_record (expected_delta base_timestamp : Z) : Reader LogError LogRecord :=
  READ n <- varint_len "negative record length" ;;
  READ bytes <- cursor_take n ;;
  match decode_body expected_delta base_timestamp bytes with
  | Err e => rfail e
  | Ok (r, []) => rret r
  | Ok (_, _ :: _) => rfail (Corrupt "trailing bytes in record")
  end.

(** The loop of [decode_batch]: [todo] records from the [delta]th on. *)
Fixpoint decode_records (todo : nat) (delta base_timestamp : Z) (offset : N)
  : Reader LogError (list OffsetRecord) :=
  match todo with
  | O => rret []
  | S todo =>
      READ r <- decode_record delta base_timestamp ;;
      READ rs <- decode_records todo (delta + 1) base_timestamp (u64_add offset 1) ;;
      rret ({| or_offset := offset; or_record := r |} :: rs)
  end.

(** [decode_batch]: the records it pushes. *)
Definition decode_batch (batch : BatchRef) (base : N) : Result (list OffsetRecord) LogError :=
  let base_timestamp := be_i64 batch.(br_bytes) BASE_TIMESTAMP_OFFSET in
  REFUSE i32_MAX <? batch.(br_record_count) WITH Corrupt "record count" ;;
  LET r <- decode_records (N.to_nat batch.(br_record_count)) 0 base_timestamp base
             (drop HEADER_LEN batch.(br_bytes)) ;;
  match r with
  | (rs, []) => Ok rs
  | (_, _ :: _) => Err (Corrupt "trailing bytes in record batch")
  end.

(** The loop of [decode]. *)
Fixpoint decode_from (items : list (Result BatchRef LogError)) (next : N)
  : Result (list OffsetRecord) LogError :=
  match items with
  | [] => Ok []
  | item :: items =>
      LET batch <- item ;;
      LET rs <- decode_batch batch next ;;
      LET rest <- decode_from items (u64_add next batch.(br_record_count)) ;;
      Ok (rs ++ rest)
  end.

(** [decode] *)
Definition decode (bytes : Bytes) (base : N) : Result (list OffsetRecord) LogError :=
  decode_from (batches bytes) base.
End batches.
