(* ===== verification/LogBatchInv.v ===== *)
(** * Batches read back as they were written

    The zigzag numbers, the parts of a record, records and batches are each read back from the
    bytes they are written as, wherever the batch lies in a buffer and whatever base offset was
    patched into it. *)

From Stdlib Require Import NArith ZArith Lia.
From stdpp Require Import prelude strings numbers list.
From S2P Require Import Prelude.
From S2P Require Import ByteCodec.
From S2P Require Import LogBatch.

Open Scope N_scope.

(** ** Zigzag numbers *)

Definition unzigzag (n : N) : Z := Z.lxor (Z.of_N (N.shiftr n 1)) (- Z.of_N (N.land n 1)).

Lemma i64_bits_bits n : n < 18446744073709551616 → i64_bits (bits_i64 n) = n.
Proof.
  intros L. unfold i64_bits, bits_i64. destruct (N.leb_spec n 9223372036854775807).
  - rewrite Z.mod_small by lia. lia.
  - rewrite <- (Z_mod_plus_full _ 1), Z.mod_small by lia. lia.
Qed.

Lemma lxor_m1 z : Z.lxor z (-1) = (- z - 1)%Z.
Proof. rewrite Z.lxor_m1_r. unfold Z.lnot. lia. Qed.

Lemma zigzag_spec v :
  i64_ok v → Z.of_N (zigzag v) = (if decide (0 <= v) then 2 * v else - 2 * v - 1)%Z.
Proof.
  unfold i64_ok, i64_MIN, i64_MAX, zigzag. intros L. rewrite Z.shiftl_mul_pow2 by lia.
  change (2 ^ 1)%Z with 2%Z. rewrite Z.shiftr_div_pow2 by lia. case_decide as P.
  - rewrite (Z.div_small v) by lia. rewrite Z.lxor_0_r, i64_bits_bits by apply i64_bits_bound.
    unfold i64_bits. rewrite Z.mod_small by lia. lia.
  - replace (v / 2 ^ 63)%Z with (-1)%Z by (apply (Z.div_unique _ _ _ (v + 2 ^ 63)); lia).
    rewrite lxor_m1. unfold bits_i64.
    assert (Z.of_N (i64_bits (v * 2)) = v * 2 + 18446744073709551616 ∨
            (v = -9223372036854775808 ∧ Z.of_N (i64_bits (v * 2)) = 0))%Z as E.
    { unfold i64_bits. destruct (decide (v = -9223372036854775808)%Z) as [->|]; [by right|left].
      rewrite <- (Z_mod_plus_full _ 1), Z.mod_small by lia. lia. }
    destruct E as [E|[-> E]].
    + destruct (N.leb_spec (i64_bits (v * 2)) 9223372036854775807).
      * rewrite E. unfold i64_bits. rewrite <- (Z_mod_plus_full _ 1), Z.mod_small by lia. lia.
      * rewrite E. unfold i64_bits. rewrite Z.mod_small by lia. lia.
    + by vm_compute.
Qed.

Lemma unzigzag_zigzag v : i64_ok v → unzigzag (zigzag v) = v.
Proof.
  intros L. pose proof (zigzag_spec v L) as E. unfold unzigzag.
  rewrite N.shiftr_div_pow2. change (2 ^ 1) with 2. change 1 with (N.ones 1).
  rewrite N.land_ones. change (2 ^ 1) with 2. case_decide.
  - assert (zigzag v / 2 = Z.to_N v) as -> by (symmetry; apply (N.div_unique _ _ _ 0); lia).
    assert (zigzag v mod 2 = 0) as -> by (symmetry; apply (N.mod_unique _ _ (Z.to_N v)); lia).
    rewrite Z.lxor_0_r. lia.
  - assert (zigzag v / 2 = Z.to_N (- v - 1)) as ->
      by (symmetry; apply (N.div_unique _ _ _ 1); lia).
    assert (zigzag v mod 2 = 1) as -> by (symmetry; apply (N.mod_unique _ _ (Z.to_N (- v - 1))); lia).
    change (- Z.of_N 1)%Z with (-1)%Z. rewrite lxor_m1. lia.
Qed.

Lemma zigzag_bound v : i64_ok v → zigzag v < 18446744073709551616.
Proof. intros L. unfold zigzag. apply i64_bits_bound. Qed.

Lemma zigzag_i32 v : i32_ok v → zigzag v < 4294967296.
Proof.
  intros L. assert (i64_ok v) as L' by (unfold i32_ok, i64_ok, i64_MIN, i64_MAX in *; lia).
  pose proof (zigzag_spec v L'). unfold i32_ok in L. case_decide; lia.
Qed.

(** ** Groups of seven bits *)

Lemma land_shifted a d k : a < 2 ^ k → N.land a (N.shiftl d k) = 0.
Proof.
  intros L. apply N.bits_inj. intros i. rewrite N.land_spec, N.bits_0.
  destruct (N.lt_ge_cases i k).
  - by rewrite N.shiftl_spec_low, andb_false_r.
  - by rewrite <- (N.mod_small a (2 ^ k)), N.mod_pow2_bits_high.
Qed.

Lemma lor_shifted a d k : a < 2 ^ k → N.lor a (N.shiftl d k) = a + d * 2 ^ k.
Proof.
  intros L. pose proof (land_shifted a d k L) as Z.
  by rewrite <- N.lxor_lor, <- N.add_nocarry_lxor, N.shiftl_mul_pow2.
Qed.

Lemma low_bits b : N.land b 127 = b mod 128.
Proof. change 127 with (N.ones 7). by rewrite N.land_ones. Qed.

(** A byte that goes on, and the last one. *)
Lemma marked_byte z :
  N.land (N.lor (z mod 256) 128) 128 ≠ 0 ∧ N.land (N.lor (z mod 256) 128) 127 = z mod 128.
Proof.
  split.
  - intros E. apply (f_equal (λ n, N.testbit n 7)) in E.
    by rewrite N.land_spec, N.lor_spec, orb_true_r in E.
  - rewrite N.land_lor_distr_l. change (N.land 128 127) with 0. rewrite N.lor_0_r, low_bits.
    change 256 with (128 * 2). by rewrite N.Div0.mod_mul_r, N.mul_comm, N.Div0.mod_add, N.Div0.mod_mod.
Qed.

Lemma last_byte z : z < 128 → N.land z 128 = 0 ∧ N.land z 127 = z.
Proof.
  intros L. split; [|rewrite low_bits; by apply N.mod_small].
  change 128 with (N.shiftl 1 7). by apply land_shifted.
Qed.

(** One more group: the value grows by the group at its place. *)
Lemma group_value value d i :
  value < 2 ^ (7 * i) → value + d * 2 ^ (7 * i) < u64_modulus →
  N.lor value (N.shiftl d (7 * i) mod u64_modulus) = value + d * 2 ^ (7 * i).
Proof.
  intros L B. rewrite N.mod_small; [by apply lor_shifted|]. rewrite N.shiftl_mul_pow2. lia.
Qed.

Lemma cursor_byte b rest : cursor_take 1 (b :: rest) = Ok ([b], rest).
Proof. done. Qed.

Lemma reads_byte b : reads (cursor_take 1) [b] [b].
Proof. by apply reads_bytes. Qed.

Lemma reads_groups t : ∀ fuel i value z,
  z < 2 ^ (7 * N.of_nat (S t)) → z < 2 ^ (7 * N.of_nat (S fuel)) →
  value < 2 ^ (7 * i) → value + z * 2 ^ (7 * i) < u64_modulus →
  reads (get_groups (S t) i value) (unzigzag (value + z * 2 ^ (7 * i))) (put_groups fuel z).
Proof.
  induction t as [|t IH]; intros fuel i value z Lt Lf Lv B.
  - change (2 ^ (7 * N.of_nat 1)) with 128 in Lt.
    assert (put_groups fuel z = [z] ++ []) as ->.
    { destruct fuel; cbn; [|rewrite (proj2 (N.leb_gt _ _)) by done]; by rewrite N.mod_small by lia. }
    destruct (last_byte z Lt) as [E1 E2]. cbn [get_groups]. eapply reads_bind; [apply reads_byte|].
    cbv zeta. change (default 0 (head [z])) with z. rewrite E1, E2, group_value by done. apply reads_ret.
  - destruct (N.lt_ge_cases z 128) as [Lz|Lz].
    + assert (put_groups fuel z = [z] ++ []) as ->.
      { destruct fuel; cbn; [|rewrite (proj2 (N.leb_gt _ _)) by done]; by rewrite N.mod_small by lia. }
      destruct (last_byte z Lz) as [E1 E2].
      remember (S t) as t'. cbn [get_groups]. eapply reads_bind; [apply reads_byte|].
      cbv zeta. change (default 0 (head [z])) with z. rewrite E1, E2, group_value by done. apply reads_ret.
    + destruct fuel as [|fuel]; [change (2 ^ (7 * N.of_nat 1)) with 128 in Lf; lia|].
      cbn [put_groups]. rewrite (proj2 (N.leb_le _ _)) by done.
      destruct (marked_byte z) as [E1 E2]. set (b := N.lor (z mod 256) 128) in *.
      change (b :: put_groups fuel (N.shiftr z 7)) with ([b] ++ put_groups fuel (N.shiftr z 7)).
      remember (S t) as t'. cbn [get_groups]. eapply reads_bind; [apply reads_byte|].
      cbv zeta. change (default 0 (head [b])) with b. rewrite (proj2 (N.eqb_neq _ _)) by done. rewrite E2, N.shiftr_div_pow2.
      change (2 ^ 7) with 128. pose proof (N.div_mod z 128 ltac:(done)) as D.
      assert (2 ^ (7 * (i + 1)) = 128 * 2 ^ (7 * i)) as Ei.
      { replace (7 * (i + 1)) with (7 + 7 * i) by lia. by rewrite N.pow_add_r. }
      assert (value + z mod 128 * 2 ^ (7 * i) + z / 128 * 2 ^ (7 * (i + 1))
              = value + z * 2 ^ (7 * i)) as Es by (rewrite Ei; nia).
      pose proof (N.mod_lt z 128 ltac:(done)).
      rewrite group_value by (done || nia). rewrite <- Es. subst t'. apply IH.
      * apply N.Div0.div_lt_upper_bound. eapply N.lt_le_trans; [exact Lt|].
        rewrite <- (N.pow_add_r 2 7). apply N.pow_le_mono_r; lia.
      * apply N.Div0.div_lt_upper_bound. eapply N.lt_le_trans; [exact Lf|].
        rewrite <- (N.pow_add_r 2 7). apply N.pow_le_mono_r; lia.
      * rewrite Ei. nia.
      * by rewrite Es.
Qed.

Lemma reads_varlong v : i64_ok v → reads (varlong 10) v (put_varlong v).
Proof.
  intros L. pose proof (zigzag_bound v L). rewrite <- (unzigzag_zigzag v L) at 1.
  pose proof (reads_groups 9 10 0 0 (zigzag v)) as R.
  replace (0 + zigzag v * 2 ^ (7 * 0)) with (zigzag v) in R by lia.
  apply R; [| |by vm_compute|exact H]; (eapply N.lt_le_trans; [exact H|by vm_compute]).
Qed.

Lemma reads_varint v : i32_ok v → reads varint v (put_varint v).
Proof.
  intros L. assert (i64_ok v) as L' by (unfold i32_ok, i64_ok, i64_MIN, i64_MAX in *; lia).
  unfold varint, put_varint. rewrite <- (app_nil_r (put_varlong v)).
  eapply (reads_bind _ _ v).
  - pose proof (zigzag_i32 v L). rewrite <- (unzigzag_zigzag v L') at 1.
    pose proof (reads_groups 4 10 0 0 (zigzag v)) as R.
    replace (0 + zigzag v * 2 ^ (7 * 0)) with (zigzag v) in R by lia.
    apply R; [| |by vm_compute|]; (eapply N.lt_le_trans; [exact H|by vm_compute]).
  - unfold i32_ok in L. rewrite (proj2 (Z.leb_le _ _)), (proj2 (Z.leb_le _ _)) by lia.
    apply reads_ret.
Qed.

(** ** The parts of a record *)

Lemma len_i32_Ok what n z : len_i32 what n = Ok z → n <= i32_MAX ∧ z = Z.of_N n ∧ i32_ok z.
Proof.
  unfold len_i32. destruct (N.leb_spec n i32_MAX); [|done]. intros [= <-].
  unfold i32_ok, i32_MAX in *. split_and!; [done|done|lia|lia].
Qed.

Lemma reads_varint_len what negative n z :
  len_i32 what n = Ok z → reads (varint_len negative) n (put_varint z).
Proof.
  intros (L & -> & I)%len_i32_Ok. unfold varint_len. rewrite <- (app_nil_r (put_varint _)).
  eapply reads_bind; [by apply reads_varint|]. rewrite (proj2 (Z.ltb_ge _ _)) by lia.
  rewrite N2Z.id. apply reads_ret.
Qed.

Lemma reads_take n bs : len bs = n → reads (cursor_take n) bs bs.
Proof. intros <-. apply reads_bytes. unfold len. lia. Qed.

Lemma reads_nullable what o bs : put_bytes what o = Ok bs → reads nullable_bytes o bs.
Proof.
  unfold put_bytes, nullable_bytes. destruct o as [b|].
  - destruct (len_i32 what (len b)) as [z|] eqn:E; [|done]. intros [= <-].
    apply len_i32_Ok in E as (L & -> & I). eapply reads_bind; [by apply reads_varint|].
    rewrite (proj2 (Z.eqb_neq _ _)), (proj2 (Z.ltb_ge _ _)) by lia. rewrite N2Z.id.
    by apply (reads_map _ Some), reads_take.
  - intros [= <-]. rewrite <- (app_nil_r (put_varint _)).
    eapply reads_bind; [by apply reads_varint|]. apply reads_ret.
Qed.

Lemma length_string_bytes s : len (string_bytes s) = str_len s.
Proof.
  unfold len, str_len, string_bytes. rewrite length_fmap. f_equal.
  induction s as [|c s IH]; cbn; [done|]. by f_equal.
Qed.

Lemma reads_header h bs :
  utf8_valid (string_bytes h.1) = true → put_header h = Ok bs → reads get_header h bs.
Proof.
  destruct h as [key value]. cbn [fst]. intros U. unfold put_header, get_header.
  destruct (len_i32 "header key" _) as [n|] eqn:En; [|done].
  destruct (put_bytes _ value) as [v|] eqn:Ev; [|done]. intros [= <-].
  eapply reads_bind; [by eapply reads_varint_len|].
  eapply reads_bind; [apply reads_take, length_string_bytes|]. rewrite U.
  replace (key, value) with (bytes_string (string_bytes key), value)
    by (by rewrite bytes_string_bytes).
  by eapply (reads_map _ (λ v, (bytes_string (string_bytes key), v))), reads_nullable.
Qed.

(** A loop of writers is read by the loop of their readers. *)
Lemma reads_put_all {A} (put : A → Result Bytes LogError) (r : Reader LogError A) xs bs :
  Forall (λ x, ∀ b, put x = Ok b → reads r x b) xs → put_all put xs = Ok bs →
  reads (get_many (length xs) r) xs bs.
Proof.
  intros F. revert bs. induction F as [|x xs Hx F IH]; intros bs; cbn.
  - intros [= <-]. apply reads_ret.
  - destruct (put x) as [b|] eqn:E; [|done]. destruct (put_all put xs) as [bs'|]; [|done].
    intros [= <-]. eapply reads_bind; [by apply Hx|].
    by apply (reads_map _ (λ xs, x :: xs)), IH.
Qed.

Lemma i64_checked_Some z z' : i64_checked z = Some z' ↔ z' = z ∧ i64_ok z.
Proof.
  unfold i64_checked, i64_ok. destruct (Z.leb_spec i64_MIN z), (Z.leb_spec z i64_MAX); cbn;
    (split; [intros [= <-] || done|intros [-> ?]]); try done; lia.
Qed.

Lemma reads_record d t0 r bs :
  i32_ok d → record_ok r → encode_record d t0 r = Ok bs → reads (decode_record d t0) r bs.
Proof.
  intros Ld [_ _ Hh Lt]. destruct r as [key value headers ts]. unfold encode_record.
  cbn [rec_key rec_value rec_headers rec_timestamp_ms] in *.
  destruct (ok_or (i64_checked _) _) as [td|] eqn:Et; [|done].
  destruct (put_bytes "record key" _) as [k|] eqn:Ek; [|done].
  destruct (put_bytes "record value" _) as [v|] eqn:Ev; [|done].
  destruct (len_i32 "header count" _) as [c|] eqn:Ec; [|done].
  destruct (put_all put_header _) as [hs|] eqn:Eh; [|done].
  set (body := [0] ++ _). destruct (len_i32 "record" (len body)) as [n|] eqn:En; [|done].
  intros [= <-].
  set (r := {| rec_key := key; rec_value := value; rec_headers := headers; rec_timestamp_ms := ts |}).
  assert (reads (decode_body d t0) r body) as R.
  { destruct (i64_checked _) as [td'|] eqn:E; [|done]. injection Et as ->.
    apply i64_checked_Some in E as [-> Ltd]. unfold decode_body, body.
    eapply reads_bind; [apply reads_byte|]. eapply reads_bind; [by apply reads_varlong|].
    eapply reads_bind; [by apply reads_varint|]. rewrite Z.eqb_refl. cbn [negb].
    replace (t0 + (ts - t0))%Z with ts by lia.
    rewrite (proj2 (i64_checked_Some _ _) (conj eq_refl Lt)).
    eapply reads_bind; [by eapply reads_nullable|]. eapply reads_bind; [by eapply reads_nullable|].
    eapply reads_bind; [by eapply reads_varint_len|]. unfold len. rewrite Nat2N.id.
    eapply (reads_map _ (λ hs, {| rec_key := key; rec_value := value;
      rec_headers := hs; rec_timestamp_ms := ts |})), reads_put_all; [|exact Eh].
    eapply Forall_impl; [exact Hh|]. intros h [U _] b. by apply reads_header. }
  unfold decode_record. eapply reads_bind; [exact (reads_varint_len _ _ _ _ En)|].
  rewrite <- (app_nil_r body) at 2. eapply reads_bind; [by apply reads_take|].
  pose proof (rd_ok _ _ _ R []) as O. rewrite app_nil_r in O. rewrite O. apply reads_ret.
Qed.

(** ** The records of a batch *)

(** Records at consecutive offsets. *)
Fixpoint at_offsets (offset : N) (rs : list LogRecord) : list OffsetRecord :=
  match rs with
  | [] => []
  | r :: rs => {| or_offset := offset; or_record := r |} :: at_offsets (offset + 1) rs
  end.

Lemma with_deltas_cons d r rs : with_deltas d (r :: rs) = (d, r) :: with_deltas (d + 1) rs.
Proof.
  unfold with_deltas. cbn. f_equal; [f_equal; lia|]. apply imap_ext. intros i x _. cbn. f_equal. lia.
Qed.

Lemma reads_records t0 rs d offset bs :
  Forall record_ok rs → (0 <= d)%Z → (d + Z.of_nat (length rs) <= 2147483647)%Z →
  offset + len rs <= u64_MAX →
  put_all (λ dr, encode_record dr.1 t0 dr.2) (with_deltas d rs) = Ok bs →
  reads (decode_records (length rs) d t0 offset) (at_offsets offset rs) bs.
Proof.
  intros F. revert d offset bs. induction F as [|r rs Hr F IH]; intros d offset bs P L B.
  - cbn. intros [= <-]. apply reads_ret.
  - rewrite with_deltas_cons. cbn [put_all fst snd length] in *.
    destruct (encode_record d t0 r) as [b|] eqn:E; [|done].
    destruct (put_all _ (with_deltas (d + 1) rs)) as [bs'|] eqn:E'; [|done]. intros [= <-].
    cbn [decode_records at_offsets]. rewrite len_cons in B. rewrite u64_add_small by lia.
    eapply reads_bind; [apply reads_record; [unfold i32_ok; lia|done|exact E]|].
    eapply (reads_map _ (λ rs, _ :: rs)), IH; [lia|lia|lia|done].
Qed.

(** ** The fields of a batch *)

(** The fields of a batch with base offset field [off]. *)
Definition batch_fields (off : Bytes) (n t0 tm : Z) (body covered_crc : Bytes) : list Bytes :=
  [off; put_be_i32 (Z.of_N (49 + len body)); put_be_i32 (-1); [MAGIC]; covered_crc;
   put_be_i16 0; put_be_i32 (n - 1); put_be_i64 t0; put_be_i64 tm; put_be_i64 (-1);
   put_be_i16 (-1); put_be_i32 (-1); put_be_i32 n; body].

Definition batch_covered (n t0 tm : Z) (body : Bytes) : Bytes :=
  concat (drop 5 (batch_fields [] n t0 tm body [])).

#[local] Ltac field_lengths :=
  try match goal with x := batch_fields _ _ _ _ _ _ |- _ => unfold x end;
  unfold batch_fields, put_be_i16, put_be_i32, put_be_i64; literal_lengths.

Lemma length_fields off n t0 tm body crc :
  lengths (batch_fields off n t0 tm body crc) = (length off + length crc + length body + 49)%nat.
Proof.
  unfold lengths, batch_fields, put_be_i16, put_be_i32, put_be_i64.
  cbn [fmap list_fmap sum_list]. rewrite !length_be_bytes. cbn [length]. unfold id. lia.
Qed.

Section laws.
Context `{Crc32cOk}.

Lemma encode_shape recs enc :
  encode recs = Ok enc → ∃ first rest n tm body,
    recs = first :: rest ∧ n = Z.of_nat (length recs) ∧ (n <= 2147483647)%Z
    ∧ tm = max_timestamp first rest ∧ 49 + len body <= i32_MAX
    ∧ put_all (λ dr, encode_record dr.1 first.(rec_timestamp_ms) dr.2) (with_deltas 0 recs) = Ok body
    ∧ enc = concat (batch_fields (put_be_i64 0) n first.(rec_timestamp_ms) tm body
              (be_bytes 4 (crc32c (batch_covered n first.(rec_timestamp_ms) tm body)))).
Proof.
  unfold encode. destruct recs as [|first rest]; [done|].
  destruct (len_i32 "record count" _) as [n|] eqn:En; [|done]. cbv zeta.
  destruct (put_all _ _) as [body|] eqn:Eb; [|done].
  destruct (len_i32 "batch" _) as [L|] eqn:El; [|done]. intros E.
  apply len_i32_Ok in En as (Ln & -> & _). apply len_i32_Ok in El as (Ll & -> & _).
  unfold i32_MAX, len in *.
  exists first, rest, (Z.of_N (N.of_nat (length (first :: rest)))), (max_timestamp first rest), body.
  split_and!; [done|lia|lia|done|done|done|]. apply Ok_inj in E as <-.
  unfold batch_covered, batch_fields. cbn [drop concat]. rewrite app_nil_r.
  unfold len. rewrite <- !app_assoc. done.
Qed.

(** [bs] is the batch of [recs], with any base offset. *)
Definition holds (bs : Bytes) (recs : list LogRecord) : Prop :=
  ∃ enc, encode recs = Ok enc ∧ length bs = length enc ∧ drop 8 bs = drop 8 enc.

Lemma encode_holds recs enc : encode recs = Ok enc → holds enc recs.
Proof. by exists enc. Qed.

Lemma holds_shape bs recs :
  holds bs recs → ∃ off first rest n tm body,
    recs = first :: rest ∧ n = Z.of_nat (length recs) ∧ (n <= 2147483647)%Z
    ∧ tm = max_timestamp first rest ∧ 49 + len body <= i32_MAX
    ∧ put_all (λ dr, encode_record dr.1 first.(rec_timestamp_ms) dr.2) (with_deltas 0 recs) = Ok body
    ∧ off = take 8 bs ∧ length off = 8%nat
    ∧ bs = concat (batch_fields off n first.(rec_timestamp_ms) tm body
              (be_bytes 4 (crc32c (batch_covered n first.(rec_timestamp_ms) tm body)))).
Proof.
  intros (enc & (first & rest & n & tm & body & E1 & E2 & E3 & E4 & E5 & E6 & ->)%encode_shape & L & D).
  exists (take 8 bs), first, rest, n, tm, body. rewrite length_concat in L.
  rewrite (drop_fields _ _ 1) in D by (by field_lengths).
  split_and!; try done.
  - rewrite length_take, L, length_fields. unfold put_be_i64. rewrite !length_be_bytes. lia.
  - rewrite <- (take_drop 8 bs) at 1. rewrite D. done.
Qed.

Lemma patch_holds bs recs off : holds bs recs → holds (patch_base_offset bs off) recs.
Proof.
  intros (enc & E & L & D). unfold patch_base_offset.
  destruct (Nat.leb_spec 8 (length bs)); [|by exists enc]. exists enc. split; [done|].
  rewrite length_app, length_be_bytes, length_drop, (drop_app_length' _ _ 8) by (by rewrite length_be_bytes).
  split; [lia|done].
Qed.

(** ** Parsing *)

Lemma be_i32_field at_ fields i z :
  fields !! i = Some (put_be_i32 z) → lengths (take i fields) = at_ → i32_ok z →
  be_i32 (concat fields) at_ = z.
Proof.
  intros I L B. unfold be_i32. rewrite (be_at_field 4 at_ fields i _ I);
    [|apply length_be_bytes|done]. unfold put_be_i32. rewrite be_value_bytes; [by apply bits_i32_bits|].
  apply i32_bits_bound.
Qed.

Lemma be_i64_field at_ fields i z :
  fields !! i = Some (put_be_i64 z) → lengths (take i fields) = at_ → i64_ok z →
  be_i64 (concat fields) at_ = z.
Proof.
  intros I L B. unfold be_i64. rewrite (be_at_field 8 at_ fields i _ I);
    [|apply length_be_bytes|done]. unfold put_be_i64. rewrite be_value_bytes; [by apply bits_i64_bits|].
  apply i64_bits_bound.
Qed.

Lemma max_timestamp_ok first rest :
  Forall record_ok (first :: rest) → i64_ok (max_timestamp first rest).
Proof.
  intros [F0 F]%Forall_cons. unfold max_timestamp.
  assert (i64_ok first.(rec_timestamp_ms)) as M by apply F0. revert M.
  generalize (rec_timestamp_ms first). induction F as [|r rs Hr F IH]; intros m M; cbn; [done|].
  apply IH. destruct Hr as [_ _ _ Lt]. unfold i64_ok in *. lia.
Qed.

(** What the header of a batch says. *)
Record header_says (bs : Bytes) (n t0 tm : Z) (body crc : Bytes) : Prop := {
  hs_length : length bs = (61 + length body)%nat;
  hs_batch_length : be_i32 bs 8 = Z.of_N (49 + len body);
  hs_magic : bs !! MAGIC_OFFSET = Some MAGIC;
  hs_crc : be_u32 bs CRC_OFFSET = be_value crc;
  hs_covered : drop ATTRIBUTES_OFFSET bs = batch_covered n t0 tm body;
  hs_attributes : be_i16 bs ATTRIBUTES_OFFSET = 0%Z;
  hs_last : be_i32 bs LAST_OFFSET_DELTA_OFFSET = (n - 1)%Z;
  hs_base_ts : be_i64 bs BASE_TIMESTAMP_OFFSET = t0;
  hs_max_ts : be_i64 bs MAX_TIMESTAMP_OFFSET = tm;
  hs_count : be_i32 bs RECORD_COUNT_OFFSET = n;
  hs_body : drop HEADER_LEN bs = body;
}.

Lemma fields_say off n t0 tm body crc :
  length off = 8%nat → length crc = 4%nat → (0 < n <= 2147483647)%Z → 49 + len body <= i32_MAX →
  i64_ok t0 → i64_ok tm →
  header_says (concat (batch_fields off n t0 tm body crc)) n t0 tm body crc.
Proof.
  intros Lo Lc Ln Lb B0 Bm. set (fields := batch_fields off n t0 tm body crc).
  split.
  - rewrite length_concat. unfold fields. rewrite length_fields. lia.
  - apply (be_i32_field 8 fields 1); [done|by field_lengths|]. unfold i32_ok, i32_MAX in *. lia.
  - rewrite <- (Nat.add_0_r MAGIC_OFFSET), <- lookup_drop.
    rewrite (drop_fields _ fields 3); [done|]. by field_lengths.
  - unfold be_u32. rewrite (be_at_field 4 _ fields 4 crc); [done|done|done|by field_lengths].
  - by rewrite (drop_fields _ fields 5) by (by field_lengths).
  - unfold be_i16. rewrite (be_at_field 2 _ fields 5 (put_be_i16 0)); [done|done|done|by field_lengths].
  - apply (be_i32_field _ fields 6); [done|by field_lengths|]. unfold i32_ok; lia.
  - apply (be_i64_field _ fields 7); [done|by field_lengths|done].
  - apply (be_i64_field _ fields 8); [done|by field_lengths|done].
  - apply (be_i32_field _ fields 12); [done|by field_lengths|]. unfold i32_ok; lia.
  - rewrite (drop_fields _ fields 13) by (by field_lengths). apply app_nil_r.
Qed.

(** What a batch of [recs] says in its header. *)
Lemma holds_says bs recs :
  holds bs recs → Forall record_ok recs → ∃ first tl body crc,
    recs = first :: tl ∧ len recs <= i32_MAX ∧ 49 + len body <= i32_MAX
    ∧ put_all (λ dr, encode_record dr.1 first.(rec_timestamp_ms) dr.2) (with_deltas 0 recs) = Ok body
    ∧ be_value crc = crc32c (batch_covered (Z.of_N (len recs)) first.(rec_timestamp_ms)
                               (max_timestamp first tl) body)
    ∧ header_says bs (Z.of_N (len recs)) first.(rec_timestamp_ms) (max_timestamp first tl) body crc.
Proof.
  intros (off & first & tl & n & tm & body & Er & En & Ln & Em & Lb & Eb & _ & Lo & E)%holds_shape F.
  assert (0 < length recs)%nat by (rewrite Er; cbn; lia).
  assert (n = Z.of_N (len recs)) as -> by (unfold len; lia). subst tm.
  eexists first, tl, body, (be_bytes 4 _).
  split_and!; [done|unfold i32_MAX; lia|done|done| |].
  - apply be_value_bytes. match goal with |- crc32c ?l < _ => pose proof (crc_u32 l) end.
    unfold u32_MAX in *. change (256 ^ N.of_nat 4) with 4294967296. lia.
  - rewrite E. apply fields_say; [done|apply length_be_bytes|lia|done| |].
    + rewrite Er in F. apply Forall_cons in F as [F0 _]. apply F0.
    + apply max_timestamp_ok. by rewrite <- Er.
Qed.

(** What a reader of a buffer finds at a batch. *)
Definition batch_ref (bs : Bytes) (recs : list LogRecord) : BatchRef :=
  {| br_bytes := bs;
     br_record_count := len recs;
     br_max_timestamp_ms :=
       match recs with first :: tl => max_timestamp first tl | [] => 0%Z end |}.

(** A batch parses wherever it lies. *)
Lemma parse_holds bs recs rest :
  holds bs recs → Forall record_ok recs → parse_batch (bs ++ rest) = Ok (batch_ref bs recs).
Proof.
  intros Hb F. destruct (holds_says bs recs Hb F) as
    (first & tl & body & crc & Er & Ln & Lb & _ & Ec & [E1 E2 E3 E4 E5 E6 E7 _ E9 E10 _]).
  assert (0 < len recs) by (rewrite Er, len_cons; lia).
  assert (be_i32 (bs ++ rest) 8 = Z.of_N (49 + len body)) as Elr.
  { rewrite <- E2. unfold be_i32, be_at. rewrite drop_app_le, take_app_le; [done| |lia].
    rewrite length_drop. lia. }
  assert (Z.to_nat (Z.of_N (49 + len body)) + LOG_OVERHEAD = length bs)%nat as Et.
  { unfold LOG_OVERHEAD, len in *. lia. }
  unfold parse_batch. cbv zeta. rewrite Elr, Et, take_app_length, E3, E5, E4, E6, E7, E9, E10, Ec, length_app.
  unfold HEADER_LEN. rewrite !(proj2 (Nat.ltb_ge _ _)), (proj2 (Z.ltb_ge _ _)) by lia.
  rewrite (proj2 (Z.ltb_lt _ _)) by lia. cbn. by rewrite N.eqb_refl, !Z.eqb_refl, N2Z.id, Er.
Qed.

Lemma decode_holds bs recs base :
  holds bs recs → Forall record_ok recs → base + len recs <= u64_MAX →
  decode_batch (batch_ref bs recs) base = Ok (at_offsets base recs).
Proof.
  intros Hb F B. destruct (holds_says bs recs Hb F) as
    (first & tl & body & crc & Er & Ln & Lb & Eb & _ & [_ _ _ _ _ _ _ E8 _ _ E11]).
  unfold decode_batch. cbn [batch_ref br_bytes br_record_count].
  rewrite (proj2 (N.ltb_ge _ _)) by done. rewrite E8, E11. unfold len. rewrite Nat2N.id.
  assert (0 + Z.of_nat (length recs) <= 2147483647)%Z as Lz by (unfold len, i32_MAX in *; lia).
  pose proof (rd_ok _ _ _ (reads_records _ recs 0 base body F ltac:(done) Lz B Eb) []) as O.
  rewrite app_nil_r in O. by rewrite O.
Qed.

(** ** Buffers of batches *)

Lemma batches_from_nil fuel : batches_from fuel [] = [].
Proof. by destruct fuel. Qed.

Lemma parse_batch_length bytes b :
  parse_batch bytes = Ok b → (HEADER_LEN <= length b.(br_bytes) <= length bytes)%nat
    ∧ b.(br_bytes) = take (length b.(br_bytes)) bytes.
Proof.
  unfold parse_batch. destruct (Nat.ltb_spec (length bytes) HEADER_LEN) as [|L]; [done|]. cbv zeta.
  set (total := (Z.to_nat _ + LOG_OVERHEAD)%nat).
  destruct (Nat.ltb_spec total HEADER_LEN) as [|L1]; [by rewrite orb_true_r|].
  destruct (Nat.ltb_spec (length bytes) total) as [|L2]; [by rewrite !orb_true_r|].
  destruct (_ || _); [done|]. do 4 (destruct (negb _); [done|]). intros [= <-]. cbn.
  rewrite length_take, Nat.min_l by done. done.
Qed.

(** Any fuel from the length of the buffer on gives all items. *)
Lemma batches_fuel bytes fuel :
  (length bytes <= fuel)%nat → batches_from fuel bytes = batches bytes.
Proof.
  unfold batches. remember (length bytes) as n eqn:En. revert bytes fuel En.
  induction (lt_wf n) as [n _ IH]. intros bytes fuel -> L.
  destruct fuel as [|fuel]; [destruct bytes; [done|cbn in L; lia]|].
  destruct bytes as [|x bytes]; [done|]. set (bs := x :: bytes) in *.
  change (length bs) with (S (length bytes)). cbn [batches_from]. fold bs.
  destruct (parse_batch bs) as [b|e] eqn:P; [|done]. f_equal.
  apply parse_batch_length in P as [P _]. unfold HEADER_LEN in P.
  assert (length (drop (length (br_bytes b)) bs) < length bs)%nat as S by (rewrite length_drop; lia).
  change (length bs) with (Datatypes.S (length bytes)) in *.
  rewrite (IH _ S _ fuel eq_refl) by lia. symmetry. apply (IH _ S _ _ eq_refl). lia.
Qed.

(** The items of a buffer: a batch and the items of the rest, or an error. *)
Lemma batches_cons bytes :
  bytes ≠ [] → batches bytes = match parse_batch bytes with
                               | Ok b => Ok b :: batches (drop (length b.(br_bytes)) bytes)
                               | Err e => [Err e]
                               end.
Proof.
  intros Ne. unfold batches at 1. destruct bytes as [|x bytes]; [done|]. set (bs := x :: bytes).
  change (length bs) with (S (length bytes)). cbn [batches_from]. fold bs.
  destruct (parse_batch bs) as [b|e] eqn:P; [|done]. f_equal. apply batches_fuel.
  apply parse_batch_length in P as [P _]. unfold HEADER_LEN in P. rewrite length_drop.
  change (length bs) with (S (length bytes)) in *. lia.
Qed.

(** [bs] is the batches of the record lists [rss], back to back, with any base offsets. *)
Definition holds_all (bs : Bytes) (rss : list (list LogRecord)) : Prop :=
  ∃ parts, bs = concat parts ∧ Forall2 holds parts rss ∧ Forall (Forall record_ok) rss.

Lemma holds_nonempty bs recs : holds bs recs → (61 <= length bs)%nat ∧ recs ≠ [].
Proof.
  intros (off & first & tl & n & tm & body & -> & _ & _ & _ & _ & _ & _ & Lo & E)%holds_shape.
  split; [|done]. rewrite E, length_concat, length_fields, length_be_bytes. lia.
Qed.

Lemma batches_hold parts rss :
  Forall2 holds parts rss → Forall (Forall record_ok) rss →
  batches (concat parts) = Ok <$> zip_with batch_ref parts rss.
Proof.
  induction 1 as [|bs recs parts rss Hb Hp IH]; intros F; [done|].
  apply Forall_cons in F as [F1 F2]. cbn [concat zip_with fmap list_fmap].
  destruct (holds_nonempty bs recs Hb) as [L _]. rewrite batches_cons.
  - rewrite (parse_holds bs recs) by done. cbn [batch_ref br_bytes].
    rewrite drop_app_length. f_equal. by apply IH.
  - destruct bs; [cbn in L; lia|done].
Qed.

Lemma at_offsets_app base rs rs' :
  at_offsets base (rs ++ rs') = at_offsets base rs ++ at_offsets (base + len rs) rs'.
Proof.
  revert base. induction rs as [|r rs IH]; intros base; cbn [app at_offsets].
  - by rewrite N.add_0_r.
  - rewrite IH, len_cons. do 3 f_equal. lia.
Qed.

Lemma len_concat {A} (l : list A) ls : len (concat (l :: ls)) = len l + len (concat ls).
Proof. apply len_app. Qed.

(** A buffer decodes to its records, at consecutive offsets. *)
Lemma decode_holds_all bs rss base :
  holds_all bs rss → base + len (concat rss) <= u64_MAX →
  decode bs base = Ok (at_offsets base (concat rss)).
Proof.
  intros (parts & -> & Fh & Fr). unfold decode. rewrite (batches_hold _ _ Fh Fr).
  revert base. induction Fh as [|b recs parts rss Hb Hp IH]; intros base B; [done|].
  apply Forall_cons in Fr as [F1 F2]. rewrite len_concat in B.
  cbn [zip_with fmap list_fmap decode_from concat]. rewrite decode_holds by (done || lia).
  cbn [batch_ref br_record_count]. rewrite u64_add_small by lia.
  rewrite at_offsets_app, IH by (done || lia). done.
Qed.

(** ** Damage *)

(** What lies before a changed byte reads as before. *)
Lemma be_at_insert n bs at_ i x :
  (at_ + n <= i)%nat → be_at n (<[i := x]> bs) at_ = be_at n bs at_.
Proof.
  intros L. unfold be_at. f_equal. apply list_eq. intros j.
  destruct (decide (j < n)%nat); [|by rewrite !lookup_take_ge by lia].
  rewrite !lookup_take_lt, !lookup_drop by lia. by rewrite list_lookup_insert_ne by lia.
Qed.

(** A byte changed where the checksum covers a batch is noticed. *)
Lemma parse_damaged bs recs i b b' :
  holds bs recs → Forall record_ok recs → (ATTRIBUTES_OFFSET <= i)%nat → bs !! i = Some b →
  b < 256 → b' < 256 → b' ≠ b → ∃ why, parse_batch (<[i := b']> bs) = Err (Corrupt why).
Proof.
  intros Hb F Li Ib Lb Lb' Ne. destruct (holds_says bs recs Hb F) as
    (first & tl & body & crc & Er & Ln & Lbd & _ & Ec & [E1 E2 _ E4 E5 _ _ _ _ _ _]).
  unfold ATTRIBUTES_OFFSET in Li.
  assert (be_i32 (<[i := b']> bs) 8 = Z.of_N (49 + len body)) as El.
  { rewrite <- E2. unfold be_i32. by rewrite be_at_insert by lia. }
  assert (Z.to_nat (Z.of_N (49 + len body)) + LOG_OVERHEAD = length bs)%nat as Et.
  { unfold LOG_OVERHEAD, len in *. lia. }
  unfold parse_batch. cbv zeta. rewrite El, Et. destruct (_ <? HEADER_LEN)%nat; [by eexists|].
  destruct (_ || _ || _); [by eexists|]. destruct (negb _); [by eexists|].
  rewrite take_ge by (by rewrite length_insert).
  rewrite (proj2 (N.eqb_neq _ _)); [by eexists|].
  unfold be_u32. rewrite be_at_insert by (unfold CRC_OFFSET; lia). fold (be_u32 bs CRC_OFFSET).
  rewrite E4, Ec, <- E5, drop_insert_ge by (unfold ATTRIBUTES_OFFSET; lia).
  apply (crc_burst _ _ b); [|done|done|done]. rewrite lookup_drop, <- Ib. f_equal.
  unfold ATTRIBUTES_OFFSET. lia.
Qed.
End laws.
