(* ===== verification/LogWal.v ===== *)
(** * WAL objects (loams-log/src/wal.rs)

    One object of a flush: a header, the chunks of the partitions back to back in key order, an
    index of the chunks, and a trailer with the index's place and checksum.  The [postcard]
    encoding of the index and [crc32c] are parameters; a [Ulid] is its 16 bytes. *)

From Stdlib Require Import NArith ZArith Lia.
From stdpp Require Import prelude gmap strings numbers list.
From S2P Require Import Prelude.
From S2P Require Import BTree.
From S2P Require Import ByteCodec.
From S2P Require Import Ids.
From S2P Require Import MetaTypes.
From S2P Require Import LogBatch.

Open Scope N_scope.

(** [HEADER_LEN] .. [TRAILER_MAGIC] *)
Definition HEADER_LEN : nat := 36.
Definition TRAILER_LEN : nat := 24.
Definition VERSION : N := 1.
Definition MAGIC : Bytes := [79; 80; 78; 87; 65; 76; 0; 0].
Definition TRAILER_MAGIC : Bytes := [79; 80; 78; 87; 65; 76; 70; 84].

Record ChunkMeta := {
  cm_stream : StreamId;
  cm_partition : N;
  cm_encoding : Encoding;
  cm_records : N;
  cm_max_timestamp_ms : Z;
  cm_offset : N;
  cm_len : N;
  cm_crc32c : N;
}.

(** [ChunkMeta::byte_range] *)
Definition chunk_range (m : ChunkMeta) : Range :=
  {| range_start := m.(cm_offset); range_end := u64_add m.(cm_offset) m.(cm_len) |}.

Record WalHeader := {
  wh_version : N;
  wh_class : WalClass;
  wh_node_id : N;
  wh_ulid : Bytes;
}.

(** [class_byte] *)
Definition class_byte (c : WalClass) : N :=
  match c with Standard => 0 | Express => 1 | Quorum => 2 end.

(** [class_from_byte] *)
Definition class_from_byte (b : N) : Result WalClass LogError :=
  if b =? 0 then Ok Standard
  else if b =? 1 then Ok Express
  else if b =? 2 then Ok Quorum
  else Err (Corrupt "unknown WAL class {other}").

(** ** The builder *)

Record PendingChunk := {
  pc_payload : Bytes;
  pc_records : N;
  pc_max_timestamp_ms : Z;
}.

Definition PendingChunk_default : PendingChunk :=
  {| pc_payload := []; pc_records := 0; pc_max_timestamp_ms := 0%Z |}.

Record WalObjectBuilder := {
  wb_header : WalHeader;
  wb_chunks : gmap (StreamId * N) PendingChunk;
}.

(** [WalObjectBuilder::new] *)
Definition wal_new (node_id : N) (class : WalClass) (ulid : Bytes) : WalObjectBuilder :=
  {| wb_header := {| wh_version := VERSION; wh_class := class; wh_node_id := node_id;
                     wh_ulid := ulid |};
     wb_chunks := ∅ |}.

(** The entry of a push that finds no chunk. *)
Definition fresh_chunk : PendingChunk :=
  {| pc_payload := PendingChunk_default.(pc_payload);
     pc_records := PendingChunk_default.(pc_records);
     pc_max_timestamp_ms := i64_MIN |}.

(** [WalObjectBuilder::push] *)
Definition wal_push (b : WalObjectBuilder) (stream : StreamId) (partition : N) (batch : Bytes)
    (records : N) (max_timestamp_ms : Z) : WalObjectBuilder :=
  let chunk := default fresh_chunk (b.(wb_chunks) !! (stream, partition)) in
  let chunk := {| pc_payload := chunk.(pc_payload) ++ batch;
                  pc_records := u32_saturating_add chunk.(pc_records) records;
                  pc_max_timestamp_ms := Z.max chunk.(pc_max_timestamp_ms) max_timestamp_ms |} in
  {| wb_header := b.(wb_header); wb_chunks := <[(stream, partition) := chunk]> b.(wb_chunks) |}.

(** [WalObjectBuilder::is_empty] *)
Definition wal_is_empty (b : WalObjectBuilder) : bool := bool_decide (b.(wb_chunks) = ∅).

Section objects.
Context `{Crc32c} `{Codec (list ChunkMeta)}.

(** The chunk loop of [finish]. *)
Fixpoint write_chunks (chunks : list (StreamId * N * PendingChunk)) (out : Bytes)
    (metas : list ChunkMeta) : Bytes * list ChunkMeta :=
  match chunks with
  | [] => (out, metas)
  | ((stream, partition), chunk) :: chunks =>
      let meta := {| cm_stream := stream;
                     cm_partition := partition;
                     cm_encoding := Kafka;
                     cm_records := chunk.(pc_records);
                     cm_max_timestamp_ms := chunk.(pc_max_timestamp_ms);
                     cm_offset := len out;
                     cm_len := len chunk.(pc_payload);
                     cm_crc32c := crc32c chunk.(pc_payload) |} in
      write_chunks chunks (out ++ chunk.(pc_payload)) (metas ++ [meta])
  end.

(** The header bytes of [finish]. *)
Definition put_wal_header (h : WalHeader) : Bytes :=
  MAGIC ++ le_bytes 2 h.(wh_version) ++ [class_byte h.(wh_class); 0]
  ++ le_bytes 8 h.(wh_node_id) ++ h.(wh_ulid).

(** [WalObjectBuilder::finish]; [None] is the panic of [expect] on an index that does not
    serialize. *)
Definition wal_finish (b : WalObjectBuilder) : option (Bytes * list ChunkMeta) :=
  let '(out, metas) := write_chunks (btree_iter b.(wb_chunks)) (put_wal_header b.(wb_header)) [] in
  let index_offset := len out in
  index ← to_io metas;
  let index_crc := crc32c_append (crc32c (take HEADER_LEN out)) index in
  Some (out ++ index ++ le_bytes 8 index_offset ++ le_bytes 4 (len index)
        ++ le_bytes 4 index_crc ++ TRAILER_MAGIC, metas).

(** ** Reading *)

(** [le_u16], [le_u32], [le_u64] *)
Definition le_u16 : Bytes → nat → N := le_at 2.
Definition le_u32 : Bytes → nat → N := le_at 4.
Definition le_u64 : Bytes → nat → N := le_at 8.

(** [parse_header] *)
Definition parse_header (bytes : Bytes) : Result WalHeader LogError :=
  REFUSE (length bytes <? HEADER_LEN)%nat || negb (bool_decide (take 8 bytes = MAGIC))
    WITH Corrupt "not a WAL object" ;;
  let version := le_u16 bytes 8 in
  REFUSE negb (version =? VERSION) WITH Corrupt "unsupported WAL format version {version}" ;;
  LET class <- class_from_byte (byte_at bytes 10) ;;
  REFUSE negb (byte_at bytes 11 =? 0) WITH Corrupt "WAL header reserved byte is not zero" ;;
  Ok {| wh_version := version; wh_class := class; wh_node_id := le_u64 bytes 12;
        wh_ulid := take 16 (drop 20 bytes) |}.

(** [read_chunk_unchecked_encoding] *)
Definition read_chunk_unchecked_encoding (object : Bytes) (meta : ChunkMeta) : Result Bytes LogError :=
  LET chunk <- ok_or (get_range object meta.(cm_offset) meta.(cm_len))
                     (Corrupt "WAL chunk out of bounds") ;;
  REFUSE negb (crc32c chunk =? meta.(cm_crc32c)) WITH Corrupt "WAL chunk checksum mismatch at {}" ;;
  Ok chunk.

(** [read_chunk] *)
Definition read_chunk (object : Bytes) (meta : ChunkMeta) : Result Bytes LogError :=
  LET chunk <- read_chunk_unchecked_encoding object meta ;;
  LET _e <- ensure_readable meta.(cm_encoding) ;;
  Ok chunk.

(** The chunk loop of [parse]: the offset after the last chunk. *)
Fixpoint check_chunks (bytes : Bytes) (index_offset : N) (metas : list ChunkMeta)
    (expected_offset : N) (previous : option (StreamId * N)) : Result N LogError :=
  match metas with
  | [] => Ok expected_offset
  | meta :: metas =>
      let key := (meta.(cm_stream), meta.(cm_partition)) in
      REFUSE match previous with Some p => key_leb key p | None => false end
        WITH Corrupt "WAL chunks are not sorted by (stream, partition)" ;;
      REFUSE negb (meta.(cm_offset) =? expected_offset) || (meta.(cm_len) =? 0)
             || (meta.(cm_records) =? 0)
        WITH Corrupt "bad WAL chunk placement at {} ({} bytes, {} records)" ;;
      match u64_checked_add meta.(cm_offset) meta.(cm_len) with
      | None => Err (Corrupt "WAL chunk overruns the index")
      | Some e =>
          REFUSE index_offset <? e WITH Corrupt "WAL chunk overruns the index" ;;
          LET _chunk <- read_chunk_unchecked_encoding bytes meta ;;
          check_chunks bytes index_offset metas e (Some key)
      end
  end.

(** [parse] *)
Definition wal_parse (bytes : Bytes) : Result (WalHeader * list ChunkMeta) LogError :=
  REFUSE (length bytes <? HEADER_LEN + TRAILER_LEN)%nat WITH Corrupt "WAL object truncated: {} bytes" ;;
  LET header <- parse_header bytes ;;
  let trailer_at := (length bytes - TRAILER_LEN)%nat in
  let trailer := drop trailer_at bytes in
  REFUSE negb (bool_decide (take 8 (drop 16 trailer) = TRAILER_MAGIC))
    WITH Corrupt "bad WAL trailer magic" ;;
  let index_offset := le_u64 trailer 0 in
  let index_len := le_u32 trailer 8 in
  let index_crc := le_u32 trailer 12 in
  REFUSE (index_offset <? N.of_nat HEADER_LEN)
         || negb (bool_decide (u64_checked_add index_offset index_len = Some (N.of_nat trailer_at)))
    WITH Corrupt "bad WAL index location {index_offset}+{index_len}" ;;
  let index := drop (N.to_nat index_offset) (take trailer_at bytes) in
  let crc := crc32c_append (crc32c (take HEADER_LEN bytes)) index in
  REFUSE negb (crc =? index_crc) WITH Corrupt "WAL index checksum mismatch" ;;
  LET r <- ok_or (take_from_bytes index) (Corrupt "bad WAL index: {e}") ;;
  let '(metas, rest) := r in
  REFUSE negb (bool_decide (rest = [])) WITH Corrupt "trailing bytes after the WAL index" ;;
  LET expected_offset <- check_chunks bytes index_offset metas (N.of_nat HEADER_LEN) None ;;
  REFUSE negb (expected_offset =? index_offset)
    WITH Corrupt "gap between the last WAL chunk and the index" ;;
  Ok (header, metas).
End objects.
