(* ===== verification/LogWalInv.v ===== *)
(** * A WAL object parses to what was pushed

    [place] is the layout of the chunks; [parse_finish] is the round trip of the object, and
    [read_placed] reads each chunk back.  [pushed] says what a chunk of the builder holds. *)

From Stdlib Require Import NArith ZArith Lia.
From stdpp Require Import prelude gmap strings numbers list.
From S2P Require Import Prelude.
From S2P Require Import BTree.
From S2P Require Import ByteCodec.
From S2P Require Import Ids.
From S2P Require Import MetaTypes.
From S2P Require Import LogBatch.
From S2P Require Import LogWal.

Open Scope N_scope.

Abbreviation Placed := (StreamId * N * PendingChunk)%type (only parsing).

Definition payloads (l : list (StreamId * N * PendingChunk)) : Bytes := concat (pc_payload <$> l.*2).

Section laws.
Context `{Crc32cOk} `{Codec (list ChunkMeta)}.

(** The chunk [c] of [k] at [at_]. *)
Definition meta_at (at_ : N) (k : StreamId * N) (c : PendingChunk) : ChunkMeta :=
  {| cm_stream := k.1; cm_partition := k.2; cm_encoding := Kafka; cm_records := c.(pc_records);
     cm_max_timestamp_ms := c.(pc_max_timestamp_ms); cm_offset := at_;
     cm_len := len c.(pc_payload); cm_crc32c := crc32c c.(pc_payload) |}.

(** The chunks from [at_] on, back to back. *)
Fixpoint place (at_ : N) (l : list (StreamId * N * PendingChunk)) : list ChunkMeta :=
  match l with
  | [] => []
  | (k, c) :: l => meta_at at_ k c :: place (at_ + len c.(pc_payload)) l
  end.

Lemma write_chunks_place l out metas :
  write_chunks l out metas = (out ++ payloads l, metas ++ place (len out) l).
Proof.
  revert out metas. induction l as [|[[st p] c] l IH]; intros out metas; cbn.
  - by rewrite !app_nil_r.
  - rewrite IH, <- !app_assoc, len_app. done.
Qed.

Lemma read_placed pre k c post :
  len (pre ++ c.(pc_payload) ++ post) <= u64_MAX →
  read_chunk_unchecked_encoding (pre ++ c.(pc_payload) ++ post) (meta_at (len pre) k c)
  = Ok c.(pc_payload).
Proof.
  intros B. unfold read_chunk_unchecked_encoding. cbn [meta_at cm_offset cm_len cm_crc32c].
  rewrite get_range_app by done. cbn. by rewrite N.eqb_refl.
Qed.

(** A chunk with something in it. *)
Definition chunk_ok (c : PendingChunk) : Prop := c.(pc_payload) ≠ [] ∧ c.(pc_records) ≠ 0.

Lemma check_placed pre l post prev :
  ordered l → (∀ p kc, prev = Some p → kc ∈ l → key_lt p kc.1) → Forall chunk_ok l.*2 →
  len (pre ++ payloads l ++ post) <= u64_MAX →
  check_chunks (pre ++ payloads l ++ post) (len (pre ++ payloads l)) (place (len pre) l) (len pre) prev
  = Ok (len (pre ++ payloads l)).
Proof.
  revert pre prev. induction l as [|[k c] l IH]; intros pre prev O P F B; cbn [place check_chunks].
  - by rewrite app_nil_r.
  - apply ordered_cons in O as [O1 O2]. apply Forall_cons in F as [[Np Nr] F].
    change (payloads ((k, c) :: l)) with (pc_payload c ++ payloads l) in *.
    rewrite <- !app_assoc in *. cbn [cm_stream cm_partition cm_offset cm_len cm_records meta_at].
    rewrite <- surjective_pairing.
    assert ((match prev with Some p => key_leb k p | None => false end) = false) as ->.
    { destruct prev as [p|]; [|done]. destruct (P p (k, c) eq_refl) as [Lp Np']; [left|].
      destruct (key_leb k p) eqn:E; [|done]. cbn in *. destruct Np'. by apply key_leb_antisym. }
    rewrite N.eqb_refl, (proj2 (N.eqb_neq (pc_records c) 0)) by done.
    rewrite (proj2 (N.eqb_neq (len (pc_payload c)) 0)).
    2: { unfold len. destruct (pc_payload c) eqn:Ep; [by destruct Np|]. cbn. lia. }
    cbn [negb orb]. unfold u64_checked_add. rewrite !len_app in *.
    rewrite (proj2 (N.leb_le _ _)) by lia. rewrite (proj2 (N.ltb_ge _ _)) by lia.
    rewrite read_placed by (rewrite !len_app; lia).
    specialize (IH (pre ++ pc_payload c) (Some k) O2). rewrite <- !app_assoc, !len_app in IH.
    apply IH; [|done|lia]. intros p kc [= <-]. apply O1.
Qed.

(** ** Headers and trailers *)

Record wal_header_ok (h : WalHeader) : Prop := {
  who_version : h.(wh_version) = VERSION;
  who_node : h.(wh_node_id) <= u64_MAX;
  who_ulid : length h.(wh_ulid) = 16%nat;
}.

Lemma length_wal_header h : wal_header_ok h → length (put_wal_header h) = HEADER_LEN.
Proof.
  intros [_ _ U]. unfold put_wal_header. rewrite !length_app, !length_le_bytes, U. done.
Qed.

Lemma class_byte_round c : class_from_byte (class_byte c) = Ok c.
Proof. by destruct c. Qed.

Definition wal_header_fields (h : WalHeader) (rest : Bytes) : list Bytes :=
  [MAGIC; le_bytes 2 h.(wh_version); [class_byte h.(wh_class)]; [0]; le_bytes 8 h.(wh_node_id);
   h.(wh_ulid); rest].

Lemma parse_header_put h rest : wal_header_ok h → parse_header (put_wal_header h ++ rest) = Ok h.
Proof.
  intros Oh. pose proof (length_wal_header h Oh) as L. destruct Oh as [V Nd U].
  unfold parse_header. rewrite length_app, L, (proj2 (Nat.ltb_ge _ _)) by lia.
  assert (put_wal_header h ++ rest = concat (wal_header_fields h rest)) as ->.
  { unfold put_wal_header, wal_header_fields. cbn [concat]. rewrite <- !app_assoc, app_nil_r. done. }
  set (fields := wal_header_fields h rest). unfold le_u16, le_u64.
  rewrite bool_decide_eq_true_2 by done. cbn [orb negb].
  rewrite (le_at_field 2 8 fields 1 (wh_version h)); [|done|done|by rewrite V].
  rewrite V, N.eqb_refl, (byte_at_field 10 fields 2 (class_byte (wh_class h)));
    [|done|unfold fields, wal_header_fields; by literal_lengths].
  rewrite class_byte_round, (byte_at_field 11 fields 3 0);
    [|done|unfold fields, wal_header_fields; by literal_lengths].
  rewrite (le_at_field 8 12 fields 4 (wh_node_id h));
    [|done|unfold fields, wal_header_fields; by literal_lengths|].
  2: { unfold u64_MAX in *. change (256 ^ N.of_nat 8) with 18446744073709551616. lia. }
  rewrite (take_field 16 20 fields 5 (wh_ulid h));
    [|done|done|unfold fields, wal_header_fields; by literal_lengths].
  cbn. rewrite <- V. by destruct h.
Qed.

(** ** The object *)

(** [m] is where chunk [c] of [k] lies in [obj]. *)
Record placed (obj : Bytes) (kc : StreamId * N * PendingChunk) (m : ChunkMeta) : Prop := {
  pl_meta : m = meta_at m.(cm_offset) kc.1 kc.2;
  pl_end : m.(cm_offset) + m.(cm_len) <= len obj;
  pl_bytes : get_range obj m.(cm_offset) m.(cm_len) = Some kc.2.(pc_payload);
}.

Lemma place_placed pre l post :
  len (pre ++ payloads l ++ post) <= u64_MAX →
  Forall2 (placed (pre ++ payloads l ++ post)) l (place (len pre) l).
Proof.
  revert pre. induction l as [|[k c] l IH]; intros pre B; cbn [place]; [constructor|].
  change (payloads ((k, c) :: l)) with (pc_payload c ++ payloads l) in *.
  rewrite <- !app_assoc in *. constructor.
  - split; cbn.
    + done.
    + rewrite !len_app. lia.
    + by apply get_range_app.
  - rewrite <- len_app. specialize (IH (pre ++ pc_payload c)). rewrite <- !app_assoc in IH. by apply IH.
Qed.

Lemma placed_read obj kc m :
  placed obj kc m → read_chunk obj m = Ok kc.2.(pc_payload).
Proof.
  intros [E _ G]. unfold read_chunk, read_chunk_unchecked_encoding. rewrite G, E. cbn.
  by rewrite N.eqb_refl.
Qed.

Definition wal_trailer (index_offset : N) (index : Bytes) (crc : N) : list Bytes :=
  [le_bytes 8 index_offset; le_bytes 4 (len index); le_bytes 4 crc; TRAILER_MAGIC].

Lemma trailer_says index_offset index crc :
  index_offset <= u64_MAX → len index <= u32_MAX → crc <= u32_MAX →
  let t := concat (wal_trailer index_offset index crc) in
  length t = TRAILER_LEN ∧ take 8 (drop 16 t) = TRAILER_MAGIC ∧ le_u64 t 0 = index_offset
  ∧ le_u32 t 8 = len index ∧ le_u32 t 12 = crc.
Proof.
  unfold u64_MAX, u32_MAX. intros B1 B2 B3. set (fields := wal_trailer index_offset index crc).
  split_and!.
  - rewrite length_concat. by literal_lengths.
  - by apply (take_field 8 16 fields 3).
  - apply (le_at_field 8 0 fields 0); [done|done|].
    change (256 ^ N.of_nat 8) with 18446744073709551616. lia.
  - apply (le_at_field 4 8 fields 1); [done|done|]. change (256 ^ N.of_nat 4) with 4294967296. lia.
  - apply (le_at_field 4 12 fields 2); [done|done|]. change (256 ^ N.of_nat 4) with 4294967296. lia.
Qed.

Section finish.
Context `{!CodecOk (list ChunkMeta) id}.
Variable (b : WalObjectBuilder) (obj : Bytes) (metas : list ChunkMeta).
Hypothesis header_ok : wal_header_ok b.(wb_header).
Hypothesis finished : wal_finish b = Some (obj, metas).
Hypothesis small : len obj <= u64_MAX.

Let l := btree_iter b.(wb_chunks).
Let header := put_wal_header b.(wb_header).

Lemma finish_shape : ∃ index,
  to_io metas = Some index ∧ metas = place (N.of_nat HEADER_LEN) l
  ∧ obj = (header ++ payloads l) ++ index
          ++ concat (wal_trailer (len (header ++ payloads l)) index
                       (crc32c (header ++ index))).
Proof.
  unfold wal_finish in finished. fold l header in finished.
  rewrite write_chunks_place in finished. cbn [app] in finished.
  assert (len header = N.of_nat HEADER_LEN) as Lh
    by (unfold header, len; by rewrite length_wal_header).
  destruct (to_io (place (len header) l)) as [index|] eqn:E; [|done].
  apply (inj Some), pair_equal_spec in finished as [<- <-]. exists index. rewrite <- Lh. split_and!; [done|done|].
  rewrite take_app_length' by (unfold header; by rewrite length_wal_header).
  rewrite crc_appended. unfold wal_trailer. cbn [concat]. by rewrite <- !app_assoc, app_nil_r.
Qed.

Lemma finish_placed : Forall2 (placed obj) l metas.
Proof.
  destruct finish_shape as (index & _ & -> & E). rewrite E in small |- *. rewrite <- !app_assoc in *.
  assert (N.of_nat HEADER_LEN = len header) as ->
    by (unfold header, len; by rewrite length_wal_header).
  by apply place_placed.
Qed.

Hypothesis chunks_ok : map_Forall (λ _ c, chunk_ok c) b.(wb_chunks).
Hypothesis index_small : ∀ index, to_io metas = Some index → len index <= u32_MAX.

Lemma parse_finish : wal_parse obj = Ok (b.(wb_header), metas).
Proof.
  destruct finish_shape as (index & Ei & Em & Eo). pose proof (index_small _ Ei) as Li.
  pose proof (length_wal_header _ header_ok) as Lh. fold header in Lh.
  set (data := header ++ payloads l) in *. set (trailer := concat (wal_trailer _ _ _)) in Eo.
  assert (len data <= u64_MAX) as Bd by (rewrite Eo in small; rewrite !len_app in small; lia).
  destruct (trailer_says (len data) index (crc32c (header ++ index)) Bd Li (crc_u32 _))
    as (Lt & Tm & To & Tl & Tc). fold trailer in Lt, Tm, To, Tl, Tc.
  assert (length obj = length data + length index + TRAILER_LEN)%nat as Lo
    by (rewrite Eo, !length_app, Lt; lia).
  assert (length data = HEADER_LEN + length (payloads l))%nat as Ld
    by (unfold data; by rewrite length_app, Lh).
  unfold wal_parse. rewrite (proj2 (Nat.ltb_ge _ _)) by (rewrite Lo; lia).
  assert (parse_header obj = Ok (wb_header b)) as ->.
  { rewrite Eo. unfold data, header. rewrite <- !app_assoc. by apply parse_header_put. }
  cbv zeta. replace (length obj - TRAILER_LEN)%nat with (length (data ++ index))
    by (rewrite length_app; lia).
  assert (drop (length (data ++ index)) obj = trailer) as ->
    by (rewrite Eo, (app_assoc data); apply drop_app_length).
  assert (take (length (data ++ index)) obj = data ++ index) as ->
    by (rewrite Eo, (app_assoc data); apply take_app_length).
  rewrite Tm, To, Tl, Tc, bool_decide_eq_true_2 by done. cbn [negb].
  rewrite (proj2 (N.ltb_ge _ _)) by (unfold len; lia). cbn [orb].
  rewrite bool_decide_eq_true_2.
  2: { unfold u64_checked_add. rewrite (proj2 (N.leb_le _ _)) by (unfold len in *; lia).
       unfold len. rewrite length_app. f_equal. lia. }
  cbn [negb]. assert (drop (N.to_nat (len data)) (data ++ index) = index) as ->
    by (unfold len; by rewrite Nat2N.id, drop_app_length).
  rewrite crc_appended.
  assert (take HEADER_LEN obj = header) as ->
    by (rewrite Eo; unfold data; rewrite <- !app_assoc; by apply take_app_length').
  rewrite N.eqb_refl. cbn [negb].
  pose proof (take_to_io metas index [] Ei) as T. rewrite app_nil_r in T. rewrite T.
  cbn [ok_or id]. rewrite bool_decide_eq_true_2 by done. cbn [negb].
  assert (len header = N.of_nat HEADER_LEN) as Lh' by (unfold len; by rewrite Lh).
  unfold id. rewrite Em. rewrite <- Lh'. rewrite Eo. unfold data. rewrite <- !app_assoc.
  rewrite check_placed.
  - by rewrite N.eqb_refl.
  - apply btree_iter_ordered.
  - done.
  - apply Forall_fmap, Forall_forall. intros [k c] I%elem_of_btree_iter. by apply (chunks_ok k c).
  - rewrite !app_assoc. unfold data in Eo. by rewrite !app_assoc in Eo; rewrite <- Eo.
Qed.
End finish.
End laws.
