(* ===== verification/LogSegment.v ===== *)
(** * Segments (loams-log/src/segment.rs)

    The immutable objects a partition's WAL chunks are rewritten into: a header, record batches
    with absolute base offsets, an index with one entry per batch, and a trailer with three
    checksums.  [postcard] and [crc32c] are parameters. *)

From Stdlib Require Import NArith ZArith Lia.
From stdpp Require Import prelude strings numbers list.
From S2P Require Import Prelude.
From S2P Require Import ByteCodec.
From S2P Require Import Ids.
From S2P Require Import MetaTypes.
From S2P Require Import LogBatch.

Open Scope N_scope.

(** [HEADER_LEN] .. [TRAILER_MAGIC] *)
Definition HEADER_LEN : nat := 40.
Definition TRAILER_LEN : nat := 40.
Definition VERSION : N := 1.
Definition MAGIC : Bytes := [79; 80; 78; 83; 69; 71; 0; 0].
Definition TRAILER_MAGIC : Bytes := [79; 80; 78; 83; 69; 71; 70; 84].

Record BatchIndexEntry := {
  bi_base_offset : N;
  bi_position : N;
  bi_max_timestamp_ms : Z;
}.

Record SegmentFooter := {
  sf_stream : StreamId;
  sf_partition : N;
  sf_encoding : Encoding;
  sf_base_offset : N;
  sf_end_offset : N;
  sf_data : Range;
  sf_batches : list BatchIndexEntry;
}.

(** ** Looking up an offset *)

(** [slice.partition_point(p)] of a slice that [p] partitions. *)
Fixpoint partition_point {A} (p : A → bool) (l : list A) : nat :=
  match l with
  | [] => 0
  | x :: l => if p x then S (partition_point p l) else 0
  end.

(** [SegmentFooter::batch_index_for] *)
Definition batch_index_for (f : SegmentFooter) (offset : N) : option nat :=
  if (offset <? f.(sf_base_offset)) || (f.(sf_end_offset) <=? offset) then None
  else
    match partition_point (λ b, b.(bi_base_offset) <=? offset) f.(sf_batches) with
    | O => None
    | S i => Some i
    end.

(** [SegmentFooter::position_for] *)
Definition position_for (f : SegmentFooter) (offset : N) : option N :=
  i ← batch_index_for f offset; bi_position <$> f.(sf_batches) !! i.

(** [SegmentFooter::batch_range]; the callers index below the number of batches. *)
Definition batch_range (f : SegmentFooter) (i : nat) : Range :=
  {| range_start := match f.(sf_batches) !! i with Some b => b.(bi_position) | None => 0 end;
     range_end := match f.(sf_batches) !! S i with
                  | Some next => next.(bi_position)
                  | None => f.(sf_data).(range_end)
                  end |}.

(** [SegmentFooter::batch_end_offset] *)
Definition batch_end_offset (f : SegmentFooter) (i : nat) : N :=
  match f.(sf_batches) !! S i with
  | Some next => next.(bi_base_offset)
  | None => f.(sf_end_offset)
  end.

Record Trailer := {
  tr_index_offset : N;
  tr_index_len : N;
  tr_index_crc32c : N;
  tr_data_crc32c : N;
  tr_header_crc32c : N;
}.

(** [Trailer::index_range] *)
Definition index_range (t : Trailer) (object_len : N) : Result Range LogError :=
  let e := u64_checked_add t.(tr_index_offset) t.(tr_index_len) in
  REFUSE (t.(tr_index_offset) <? N.of_nat HEADER_LEN)
         || (object_len <? N.of_nat (HEADER_LEN + TRAILER_LEN))
         || negb (bool_decide (e = Some (object_len - N.of_nat TRAILER_LEN)))
    WITH Corrupt "bad segment index location {}+{} in {object_len} bytes" ;;
  Ok {| range_start := t.(tr_index_offset); range_end := object_len - N.of_nat TRAILER_LEN |}.

(** ** The builder *)

Record SegmentBuilder := {
  sb_stream : StreamId;
  sb_partition : N;
  sb_encoding : Encoding;
  sb_base_offset : N;
  sb_next_offset : N;
  sb_data : Bytes;
  sb_batches : list BatchIndexEntry;
}.

(** [SegmentBuilder::new] *)
Definition segment_new (stream : StreamId) (partition base_offset : N) (encoding : Encoding)
  : SegmentBuilder :=
  {| sb_stream := stream; sb_partition := partition; sb_encoding := encoding;
     sb_base_offset := base_offset; sb_next_offset := base_offset; sb_data := [];
     sb_batches := [] |}.

(** [SegmentBuilder::data_len] *)
Definition data_len (b : SegmentBuilder) : N := len b.(sb_data).

Section segments.
Context `{Crc32c} `{Codec (list BatchIndexEntry)}.

(** [SegmentBuilder::push_batch] *)
Definition push_batch (b : SegmentBuilder) (batch : Bytes) (records : N) (max_timestamp_ms : Z)
  : Result SegmentBuilder LogError :=
  match batches batch with
  | [Ok first] =>
      REFUSE negb (first.(br_record_count) =? records) || (records =? 0)
        WITH InvalidArgument "batch holds {} records, not {records}" ;;
      let position := N.of_nat HEADER_LEN + len b.(sb_data) in
      Ok {| sb_stream := b.(sb_stream); sb_partition := b.(sb_partition);
            sb_encoding := b.(sb_encoding); sb_base_offset := b.(sb_base_offset);
            sb_next_offset := u64_add b.(sb_next_offset) records;
            sb_data := b.(sb_data) ++ patch_base_offset batch b.(sb_next_offset);
            sb_batches := b.(sb_batches) ++ [{| bi_base_offset := b.(sb_next_offset);
                                                bi_position := position;
                                                bi_max_timestamp_ms := max_timestamp_ms |}] |}
  | Err _ :: _ => Err (InvalidArgument "bad record batch: {err}")
  | _ => Err (InvalidArgument "push_batch takes exactly one record batch")
  end.

(** The header bytes of [finish]. *)
Definition put_segment_header (b : SegmentBuilder) : Bytes :=
  MAGIC ++ le_bytes 2 VERSION ++ [encoding_byte b.(sb_encoding); 0] ++ le_bytes 8 b.(sb_stream)
  ++ le_bytes 4 b.(sb_partition) ++ le_bytes 8 b.(sb_base_offset) ++ le_bytes 8 b.(sb_next_offset).

(** [SegmentBuilder::finish]; [None] is the panic of [expect]. *)
Definition segment_finish (b : SegmentBuilder) : option (Bytes * SegmentFooter) :=
  let header := put_segment_header b in
  let header_crc := crc32c header in
  let data_crc := crc32c b.(sb_data) in
  let out := header ++ b.(sb_data) in
  let index_offset := len out in
  index ← to_io b.(sb_batches);
  Some (out ++ index ++ le_bytes 8 index_offset ++ le_bytes 4 (len index)
        ++ le_bytes 4 (crc32c index) ++ le_bytes 4 data_crc ++ le_bytes 4 header_crc
        ++ le_bytes 8 0 ++ TRAILER_MAGIC,
        {| sf_stream := b.(sb_stream); sf_partition := b.(sb_partition);
           sf_encoding := b.(sb_encoding); sf_base_offset := b.(sb_base_offset);
           sf_end_offset := b.(sb_next_offset);
           sf_data := {| range_start := N.of_nat HEADER_LEN; range_end := index_offset |};
           sf_batches := b.(sb_batches) |}).

(** ** Reading *)

(** [parse_trailer] *)
Definition parse_trailer (tail : Bytes) : Result Trailer LogError :=
  REFUSE negb (bool_decide (take 8 (drop 32 tail) = TRAILER_MAGIC))
    WITH Corrupt "bad segment trailer magic" ;;
  REFUSE negb (le_at 8 tail 24 =? 0) WITH Corrupt "segment trailer reserved field is not zero" ;;
  Ok {| tr_index_offset := le_at 8 tail 0;
        tr_index_len := le_at 4 tail 8;
        tr_index_crc32c := le_at 4 tail 12;
        tr_data_crc32c := le_at 4 tail 16;
        tr_header_crc32c := le_at 4 tail 20 |}.

(** [check_index]'s loop over [windows(2)]. *)
Fixpoint in_order (l : list BatchIndexEntry) : bool :=
  match l with
  | a :: (b :: _) as l =>
      (a.(bi_base_offset) <? b.(bi_base_offset)) && (a.(bi_position) <? b.(bi_position)) && in_order l
  | _ => true
  end.

(** [check_index] *)
Definition check_index (f : SegmentFooter) : Result () LogError :=
  REFUSE f.(sf_end_offset) <? f.(sf_base_offset)
    WITH Corrupt "bad segment index: end offset below base offset" ;;
  match f.(sf_batches) with
  | [] =>
      if (f.(sf_end_offset) =? f.(sf_base_offset))
         && (f.(sf_data).(range_end) <=? f.(sf_data).(range_start))
      then Ok () else Err (Corrupt "bad segment index: no batches")
  | first :: _ =>
      REFUSE negb (first.(bi_base_offset) =? f.(sf_base_offset))
             || negb (first.(bi_position) =? f.(sf_data).(range_start))
        WITH Corrupt "bad segment index: first batch misplaced" ;;
      REFUSE negb (in_order f.(sf_batches)) WITH Corrupt "bad segment index: batches out of order" ;;
      let last := default first (last f.(sf_batches)) in
      REFUSE (f.(sf_end_offset) <=? last.(bi_base_offset))
             || (f.(sf_data).(range_end) <=? last.(bi_position))
        WITH Corrupt "bad segment index: last batch out of range" ;;
      Ok ()
  end.

(** [parse_footer] *)
Definition parse_footer (header index : Bytes) (trailer : Trailer) : Result SegmentFooter LogError :=
  REFUSE negb (length header =? HEADER_LEN)%nat || negb (bool_decide (take 8 header = MAGIC))
    WITH Corrupt "not a segment" ;;
  REFUSE negb (crc32c header =? trailer.(tr_header_crc32c))
    WITH Corrupt "segment header checksum mismatch" ;;
  let version := le_at 2 header 8 in
  REFUSE negb (version =? VERSION) WITH Corrupt "unsupported segment format version {version}" ;;
  LET encoding <- encoding_try_from (byte_at header 10) ;;
  LET _readable <- ensure_readable encoding ;;
  REFUSE negb (byte_at header 11 =? 0) WITH Corrupt "segment header reserved byte is not zero" ;;
  REFUSE negb (len index =? trailer.(tr_index_len))
         || (trailer.(tr_index_offset) <? N.of_nat HEADER_LEN)
    WITH Corrupt "segment index length mismatch" ;;
  REFUSE negb (crc32c index =? trailer.(tr_index_crc32c))
    WITH Corrupt "segment index checksum mismatch" ;;
  LET r <- ok_or (take_from_bytes index) (Corrupt "bad segment index: {e}") ;;
  let '(batches, rest) := r in
  REFUSE negb (bool_decide (rest = [])) WITH Corrupt "trailing bytes after the segment index" ;;
  let footer := {| sf_stream := le_at 8 header 12;
                   sf_partition := le_at 4 header 20;
                   sf_encoding := encoding;
                   sf_base_offset := le_at 8 header 24;
                   sf_end_offset := le_at 8 header 32;
                   sf_data := {| range_start := N.of_nat HEADER_LEN;
                                 range_end := trailer.(tr_index_offset) |};
                   sf_batches := batches |} in
  LET _checked <- check_index footer ;;
  Ok footer.

(** One turn of the batch loop of [parse]. *)
Definition batch_matches (f : SegmentFooter) (i : nat) (batch : BatchRef) : bool :=
  let range := batch_range f i in
  let base := match f.(sf_batches) !! i with Some b => b.(bi_base_offset) | None => 0 end in
  (len batch.(br_bytes) =? u64_sub range.(range_end) range.(range_start))
  && (batch.(br_record_count) =? u64_sub (batch_end_offset f i) base)
  && bool_decide (batch_base_offset batch.(br_bytes) = Some base).

(** The batch loop of [parse]: the [i]th item on, for [todo] batches. *)
Fixpoint match_batches (f : SegmentFooter) (todo i : nat) (items : list (Result BatchRef LogError))
  : Result (list (Result BatchRef LogError)) LogError :=
  match todo with
  | O => Ok items
  | S todo =>
      match items with
      | [] => Err (Corrupt "segment data has fewer batches than its index")
      | item :: items =>
          LET batch <- item ;;
          REFUSE negb (batch_matches f i batch)
            WITH Corrupt "segment batch {i} does not match the index" ;;
          match_batches f todo (S i) items
      end
  end.

(** [parse] *)
Definition segment_parse (bytes : Bytes) : Result SegmentFooter LogError :=
  REFUSE (length bytes <? HEADER_LEN + TRAILER_LEN)%nat WITH Corrupt "segment truncated: {len} bytes" ;;
  let tail := drop (length bytes - TRAILER_LEN) bytes in
  LET trailer <- parse_trailer tail ;;
  LET range <- index_range trailer (len bytes) ;;
  let index := drop (N.to_nat range.(range_start)) (take (N.to_nat range.(range_end)) bytes) in
  LET footer <- parse_footer (take HEADER_LEN bytes) index trailer ;;
  let data := drop (N.to_nat footer.(sf_data).(range_start))
                   (take (N.to_nat footer.(sf_data).(range_end)) bytes) in
  REFUSE negb (crc32c data =? trailer.(tr_data_crc32c)) WITH Corrupt "segment data checksum mismatch" ;;
  LET rest <- match_batches footer (length footer.(sf_batches)) 0 (batches data) ;;
  REFUSE negb (bool_decide (rest = [])) WITH Corrupt "segment data has more batches than its index" ;;
  Ok footer.
End segments.
