(* ===== verification/LogSegmentInv.v ===== *)
(** * Segments hold the batches pushed, at contiguous offsets

    [batch_index_spec]: a checked index finds the batch of every offset.  [built] is what a
    builder holds after pushes; [segment_parse_finish] is the round trip of the object. *)

From Stdlib Require Import NArith ZArith Lia.
From stdpp Require Import prelude strings numbers list.
From S2P Require Import Prelude.
From S2P Require Import ByteCodec.
From S2P Require Import Ids.
From S2P Require Import MetaTypes.
From S2P Require Import LogBatch.
From S2P Require Import LogBatchInv.
From S2P Require Import LogSegment.

Open Scope N_scope.

(** ** Lookups in a checked index *)

Lemma partition_point_spec {A} (p : A → bool) l :
  (∀ i x, (i < partition_point p l)%nat → l !! i = Some x → p x = true)
  ∧ (∀ x, l !! partition_point p l = Some x → p x = false)
  ∧ (partition_point p l <= length l)%nat.
Proof.
  induction l as [|y l (IH1 & IH2 & IH3)]; cbn; [split_and!; [intros; lia|done|done]|].
  destruct (p y) eqn:E; cbn.
  - split_and!; [|done|lia]. intros [|i] x L I; cbn in I; [congruence|]. apply (IH1 i x); [lia|done].
  - split_and!; [intros; lia|congruence|lia].
Qed.

Lemma in_order_le l i j a b :
  in_order l = true → l !! i = Some a → l !! j = Some b → (i < j)%nat →
  a.(bi_base_offset) < b.(bi_base_offset) ∧ a.(bi_position) < b.(bi_position).
Proof.
  revert i j a. induction l as [|x l IH]; intros i j a O I J L; [done|].
  destruct l as [|y l]; [destruct i, j; cbn in *; try lia; done|].
  cbn [in_order] in O. bools. destruct i as [|i], j as [|j]; try lia.
  - injection I as <-. destruct j as [|j]; [injection J as <-; done|].
    destruct (IH 0%nat (S j) y) as [? ?]; [done|done|done|lia|]. lia.
  - destruct (IH i j a) as [? ?]; [done|done|done|lia|]. done.
Qed.

(** The parts of a footer a check accepts. *)
Lemma check_index_Ok f :
  check_index f = Ok () → f.(sf_base_offset) < f.(sf_end_offset) →
  ∃ first lst, f.(sf_batches) !! 0%nat = Some first ∧ last f.(sf_batches) = Some lst
    ∧ first.(bi_base_offset) = f.(sf_base_offset) ∧ first.(bi_position) = f.(sf_data).(range_start)
    ∧ in_order f.(sf_batches) = true
    ∧ lst.(bi_base_offset) < f.(sf_end_offset) ∧ lst.(bi_position) < f.(sf_data).(range_end).
Proof.
  unfold check_index. intros C L. revert C. destruct (f.(sf_end_offset) <? f.(sf_base_offset)); [done|].
  destruct (sf_batches f) as [|first l] eqn:E.
  - by rewrite (proj2 (N.eqb_neq (sf_end_offset f) _)) by lia.
  - destruct (negb _ || negb _) eqn:E1; [done|]. destruct (negb (in_order _)) eqn:E2; [done|].
    destruct (last (first :: l)) as [lst|] eqn:El; [|by apply last_None in El].
    cbv zeta. cbn [default from_option id]. destruct ((_ <=? _) || (_ <=? _)) eqn:E3; [done|]. intros _.
    exists first, lst. bools. split_and!; done.
Qed.

Lemma batch_index_spec f offset :
  check_index f = Ok () → f.(sf_base_offset) <= offset < f.(sf_end_offset) →
  ∃ i b, batch_index_for f offset = Some i ∧ f.(sf_batches) !! i = Some b
    ∧ b.(bi_base_offset) <= offset < batch_end_offset f i.
Proof.
  intros C Lo. destruct (check_index_Ok f C) as (first & lst & F & _ & E1 & _ & _ & L1 & L2); [lia|].
  unfold batch_index_for. rewrite (proj2 (N.ltb_ge _ _)), (proj2 (N.leb_gt _ _)) by lia. cbn [orb].
  set (p := λ b, bi_base_offset b <=? offset).
  destruct (partition_point_spec p (sf_batches f)) as (P1 & P2 & P3).
  destruct (partition_point p (sf_batches f)) as [|i] eqn:Ei.
  { specialize (P2 first F). unfold p in P2. apply N.leb_gt in P2. lia. }
  destruct (lookup_lt_is_Some_2 (sf_batches f) i) as [b Hb]; [lia|].
  exists i, b. split_and!; [done|done| |].
  - apply N.leb_le, (P1 i b); [lia|done].
  - unfold batch_end_offset. destruct (sf_batches f !! S i) as [c|] eqn:Hc; [|lia].
    specialize (P2 c eq_refl). by apply N.leb_gt in P2.
Qed.

(** Only one batch holds an offset. *)
Lemma batch_index_unique f offset i j a b :
  check_index f = Ok () → f.(sf_base_offset) < f.(sf_end_offset) →
  f.(sf_batches) !! i = Some a → f.(sf_batches) !! j = Some b →
  a.(bi_base_offset) <= offset < batch_end_offset f i →
  b.(bi_base_offset) <= offset < batch_end_offset f j → i = j.
Proof.
  intros C L I J Li Lj. destruct (check_index_Ok f C L) as (_ & _ & _ & _ & _ & _ & O & _).
  assert (∀ i j a b, sf_batches f !! i = Some a → sf_batches f !! j = Some b → (i < j)%nat →
            batch_end_offset f i <= b.(bi_base_offset)) as K.
  { clear -O. intros i j a b I J Lt. unfold batch_end_offset.
    destruct (lookup_lt_is_Some_2 (sf_batches f) (S i)) as [c Hc].
    { apply lookup_lt_Some in J. lia. }
    rewrite Hc. destruct (decide (S i = j)) as [<-|]; [simplify_eq; lia|].
    destruct (in_order_le _ (S i) j c b O Hc J); lia. }
  destruct (Nat.lt_trichotomy i j) as [Lt|[?|Lt]]; [|done|].
  - specialize (K i j a b I J Lt). lia.
  - specialize (K j i b a J I Lt). lia.
Qed.

(** ** What a builder holds *)

(** A batch as pushed: its bytes in the segment, its records, its newest timestamp. *)
Record Item := { it_bytes : Bytes; it_records : list LogRecord; it_timestamp : Z }.

Definition items_bytes (l : list Item) : Bytes := concat (it_bytes <$> l).
Definition items_records (l : list Item) : list LogRecord := concat (it_records <$> l).

(** The index of the items from offset [o] and position [p] on. *)
Fixpoint layout (o p : N) (l : list Item) : list BatchIndexEntry :=
  match l with
  | [] => []
  | x :: l => {| bi_base_offset := o; bi_position := p; bi_max_timestamp_ms := x.(it_timestamp) |}
              :: layout (o + len x.(it_records)) (p + len x.(it_bytes)) l
  end.

Lemma items_bytes_app l l' : items_bytes (l ++ l') = items_bytes l ++ items_bytes l'.
Proof. unfold items_bytes. by rewrite fmap_app, concat_app. Qed.

Lemma items_records_app l l' : items_records (l ++ l') = items_records l ++ items_records l'.
Proof. unfold items_records. by rewrite fmap_app, concat_app. Qed.

Lemma layout_app o p l l' :
  layout o p (l ++ l')
  = layout o p l ++ layout (o + len (items_records l)) (p + len (items_bytes l)) l'.
Proof.
  revert o p. induction l as [|x l IH]; intros o p; cbn [app layout].
  - by rewrite !N.add_0_r.
  - rewrite IH. unfold items_records, items_bytes. cbn [fmap list_fmap concat].
    rewrite !len_app, !N.add_assoc. done.
Qed.

Lemma length_layout o p l : length (layout o p l) = length l.
Proof. revert o p. induction l as [|x l IH]; intros; cbn; [done|]. by rewrite IH. Qed.

Lemma layout_split o p l x l' :
  layout o p (l ++ x :: l') !! length l
  = Some {| bi_base_offset := o + len (items_records l); bi_position := p + len (items_bytes l);
            bi_max_timestamp_ms := x.(it_timestamp) |}.
Proof.
  rewrite layout_app, lookup_app_r by (by rewrite length_layout).
  by rewrite length_layout, Nat.sub_diag.
Qed.

(** Where the items after [l] start: at the next entry, or at the end. *)
Lemma layout_next o p l l' :
  match layout o p (l ++ l') !! length l with
  | Some b => b.(bi_base_offset) | None => o + len (items_records (l ++ l')) end
  = o + len (items_records l)
  ∧ match layout o p (l ++ l') !! length l with
    | Some b => b.(bi_position) | None => p + len (items_bytes (l ++ l')) end
    = p + len (items_bytes l).
Proof.
  destruct l' as [|x l'].
  - rewrite app_nil_r, lookup_ge_None_2 by (by rewrite length_layout). done.
  - by rewrite layout_split.
Qed.

Section laws.
Context `{Crc32cOk}.

(** An item is a batch of its records with its offset in it. *)
Record item_ok (o : N) (x : Item) : Prop := {
  io_holds : holds x.(it_bytes) x.(it_records);
  io_records : Forall record_ok x.(it_records);
  io_offset : batch_base_offset x.(it_bytes) = Some o;
}.

Fixpoint items_ok (o : N) (l : list Item) : Prop :=
  match l with
  | [] => True
  | x :: l => item_ok o x ∧ items_ok (o + len x.(it_records)) l
  end.

Lemma items_ok_app o l l' :
  items_ok o (l ++ l') ↔ items_ok o l ∧ items_ok (o + len (items_records l)) l'.
Proof.
  revert o. induction l as [|x l IH]; intros o; cbn [app items_ok].
  - rewrite N.add_0_r. tauto.
  - rewrite IH. unfold items_records. cbn [fmap list_fmap concat]. rewrite len_app, N.add_assoc. tauto.
Qed.

Record built (b : SegmentBuilder) (l : list Item) : Prop := {
  bt_data : b.(sb_data) = items_bytes l;
  bt_index : b.(sb_batches) = layout b.(sb_base_offset) (N.of_nat HEADER_LEN) l;
  bt_next : b.(sb_next_offset) = b.(sb_base_offset) + len (items_records l);
  bt_items : items_ok b.(sb_base_offset) l;
  bt_bound : b.(sb_next_offset) <= u64_MAX;
}.

Lemma built_new st p base e : base <= u64_MAX → built (segment_new st p base e) [].
Proof. intros L. split; [done|done|symmetry; apply N.add_0_r|done|done]. Qed.

Lemma patched_offset bs o recs :
  holds bs recs → o <= u64_MAX → batch_base_offset (patch_base_offset bs o) = Some o.
Proof.
  intros [L _]%holds_nonempty B. unfold batch_base_offset, patch_base_offset.
  rewrite (proj2 (Nat.leb_le 8 (length bs))) by lia.
  rewrite length_app, length_be_bytes, (proj2 (Nat.leb_le _ _)) by lia.
  rewrite take_app_length' by (by rewrite length_be_bytes). rewrite be_value_bytes; [done|].
  unfold u64_MAX in *. change (256 ^ N.of_nat 8) with 18446744073709551616. lia.
Qed.

(** A push of a batch is accepted, and the batch is the last item. *)
Lemma push_built b l bs recs ts :
  built b l → holds bs recs → Forall record_ok recs → b.(sb_next_offset) + len recs <= u64_MAX →
  ∃ b', push_batch b bs (len recs) ts = Ok b'
    ∧ built b' (l ++ [{| it_bytes := patch_base_offset bs b.(sb_next_offset); it_records := recs;
                         it_timestamp := ts |}])
    ∧ b'.(sb_next_offset) = b.(sb_next_offset) + len recs
    ∧ b'.(sb_base_offset) = b.(sb_base_offset) ∧ b'.(sb_stream) = b.(sb_stream)
    ∧ b'.(sb_partition) = b.(sb_partition) ∧ b'.(sb_encoding) = b.(sb_encoding).
Proof.
  intros [D I N It Bd] Hb F B. destruct (holds_nonempty bs recs Hb) as [Lb Nr].
  assert (batches bs = [Ok (batch_ref bs recs)]) as Eb.
  { pose proof (batches_hold [bs] [recs]) as P. cbn in P. rewrite app_nil_r in P.
    apply P; repeat constructor; done. }
  assert (len recs ≠ 0) as Nz by (destruct recs; [done|rewrite len_cons; lia]).
  unfold push_batch. rewrite Eb. cbn [batch_ref br_record_count].
  rewrite N.eqb_refl, (proj2 (N.eqb_neq _ _)) by done. cbn [negb orb].
  eexists. split_and!; [done| |cbn; by apply u64_add_small|done..].
  assert (u64_add (sb_next_offset b) (len recs) = sb_next_offset b + len recs) as Eu
    by (by apply u64_add_small).
  split; cbn [sb_data sb_batches sb_base_offset sb_next_offset].
  - rewrite items_bytes_app, D. unfold items_bytes at 3. cbn. by rewrite app_nil_r.
  - rewrite layout_app, I, D, N. done.
  - rewrite Eu, items_records_app, len_app, N. unfold items_records at 3. cbn.
    rewrite app_nil_r. lia.
  - apply items_ok_app. split; [done|]. cbn. split; [|done]. rewrite <- N. split; cbn.
    + by apply patch_holds.
    + done.
    + by eapply patched_offset.
  - lia.
Qed.

(** ** The index of a built segment is checked *)

Definition footer_of (b : SegmentBuilder) : SegmentFooter :=
  {| sf_stream := b.(sb_stream); sf_partition := b.(sb_partition); sf_encoding := b.(sb_encoding);
     sf_base_offset := b.(sb_base_offset); sf_end_offset := b.(sb_next_offset);
     sf_data := {| range_start := N.of_nat HEADER_LEN;
                   range_end := N.of_nat HEADER_LEN + len b.(sb_data) |};
     sf_batches := b.(sb_batches) |}.

Lemma item_nonempty o x : item_ok o x → 0 < len x.(it_records) ∧ 61 <= len x.(it_bytes).
Proof.
  intros [Ho _ _]. destruct (holds_nonempty _ _ Ho) as [L N]. unfold len.
  destruct (it_records x); [done|]. cbn [length]. lia.
Qed.

Lemma layout_in_order o p l : items_ok o l → in_order (layout o p l) = true.
Proof.
  revert o p. induction l as [|x l IH]; intros o p I; [done|]. destruct I as [Ix I].
  destruct (item_nonempty _ _ Ix). specialize (IH _ (p + len (it_bytes x)) I).
  destruct l as [|y l]; [done|]. cbn [layout in_order] in *. rewrite IH. cbn.
  rewrite !(proj2 (N.ltb_lt _ _)) by lia. done.
Qed.

Lemma items_snoc o l x :
  items_ok o (l ++ [x]) → 0 < len x.(it_records) ∧ 61 <= len x.(it_bytes).
Proof. intros [_ [I _]]%items_ok_app. by eapply item_nonempty. Qed.

Lemma built_check b l : built b l → check_index (footer_of b) = Ok ().
Proof.
  intros [D I N It Bd]. unfold check_index. cbn. rewrite (proj2 (N.ltb_ge _ _)) by lia.
  rewrite I. destruct l as [|x l _] using rev_ind.
  - cbn. rewrite N, D. cbn. by rewrite N.add_0_r, N.eqb_refl.
  - destruct (layout _ _ (l ++ [x])) as [|first rest] eqn:E.
    { apply (f_equal length) in E. rewrite length_layout, length_app in E. cbn in E. lia. }
    assert (bi_base_offset first = sb_base_offset b ∧ bi_position first = 40) as [-> ->].
    { destruct l as [|y l]; cbn in E; by injection E as <- _. }
    rewrite <- E. rewrite layout_in_order by done. rewrite !N.eqb_refl. cbn [negb orb].
    rewrite layout_app. cbn [layout]. rewrite last_snoc. cbn.
    destruct (items_snoc _ _ _ It). rewrite N, D, items_records_app, items_bytes_app, !len_app.
    unfold items_records at 2, items_bytes at 2. cbn. rewrite !app_nil_r.
    rewrite !(proj2 (N.leb_gt _ _)) by lia. done.
Qed.

(** ** Batches match the index *)

Lemma batches_items o l :
  items_ok o l → batches (items_bytes l) = (λ x, Ok (batch_ref x.(it_bytes) x.(it_records))) <$> l.
Proof.
  intros I. unfold items_bytes.
  assert (∀ o l, items_ok o l → Forall2 holds (it_bytes <$> l) (it_records <$> l)
            ∧ Forall (Forall record_ok) (it_records <$> l)) as K.
  { clear. intros o l. revert o. induction l as [|x l IH]; intros o; cbn; [done|].
    intros [[Ho Fr _] Il]. destruct (IH _ Il). split; by constructor. }
  destruct (K _ _ I) as [K1 K2]. rewrite (batches_hold _ _ K1 K2).
  clear. induction l as [|x l IH]; cbn; [done|]. by rewrite IH.
Qed.

Lemma batch_matches_item b l x l' :
  built b (l ++ x :: l') → N.of_nat HEADER_LEN + len b.(sb_data) <= u64_MAX →
  batch_matches (footer_of b) (length l) (batch_ref x.(it_bytes) x.(it_records)) = true.
Proof.
  intros [D I N It Bd] B. unfold batch_matches, batch_range, batch_end_offset.
  cbn [footer_of sf_batches sf_data sf_end_offset range_start range_end batch_ref br_bytes
       br_record_count]. rewrite I, layout_split. cbn [bi_position bi_base_offset].
  pose proof (layout_next (sb_base_offset b) (N.of_nat HEADER_LEN) (l ++ [x]) l') as [Lo Lp].
  rewrite <- app_assoc, length_app in Lo, Lp. cbn [app length] in Lo, Lp.
  rewrite Nat.add_1_r in Lo, Lp. rewrite N, D, Lo, Lp.
  rewrite D in B. rewrite items_bytes_app in B. rewrite N, items_records_app in Bd.
  change (items_bytes (x :: l')) with (it_bytes x ++ items_bytes l') in B.
  change (items_records (x :: l')) with (it_records x ++ items_records l') in Bd.
  rewrite items_bytes_app, items_records_app, !len_app in *.
  unfold items_bytes at 2, items_records at 2. cbn [fmap list_fmap concat]. rewrite !app_nil_r.
  rewrite !u64_sub_small by lia.
  apply items_ok_app in It as [_ [Ix _]]. rewrite (io_offset _ _ Ix).
  rewrite bool_decide_eq_true_2 by done. rewrite andb_true_r.
  apply andb_true_iff. split; apply N.eqb_eq; lia.
Qed.

Lemma match_items b pre l :
  built b (pre ++ l) → N.of_nat HEADER_LEN + len b.(sb_data) <= u64_MAX →
  match_batches (footer_of b) (length l) (length pre)
    ((λ x, Ok (batch_ref x.(it_bytes) x.(it_records))) <$> l) = Ok [].
Proof.
  revert pre. induction l as [|x l IH]; intros pre Bt B; cbn; [done|].
  rewrite (batch_matches_item b pre x l) by done. cbn [negb].
  specialize (IH (pre ++ [x])). rewrite <- app_assoc, length_app, Nat.add_1_r in IH. by apply IH.
Qed.

(** ** The object *)

Definition header_fields (b : SegmentBuilder) : list Bytes :=
  [MAGIC; le_bytes 2 VERSION; [encoding_byte b.(sb_encoding)]; [0]; le_bytes 8 b.(sb_stream);
   le_bytes 4 b.(sb_partition); le_bytes 8 b.(sb_base_offset); le_bytes 8 b.(sb_next_offset)].

Definition trailer_fields (t : Trailer) : list Bytes :=
  [le_bytes 8 t.(tr_index_offset); le_bytes 4 t.(tr_index_len); le_bytes 4 t.(tr_index_crc32c);
   le_bytes 4 t.(tr_data_crc32c); le_bytes 4 t.(tr_header_crc32c); le_bytes 8 0; TRAILER_MAGIC].

Lemma header_concat b : put_segment_header b = concat (header_fields b).
Proof. unfold put_segment_header, header_fields. cbn [concat]. by rewrite app_nil_r. Qed.

Lemma length_segment_header b : length (put_segment_header b) = HEADER_LEN.
Proof. rewrite header_concat, length_concat. by literal_lengths. Qed.

Record trailer_ok (t : Trailer) : Prop := {
  to_offset : t.(tr_index_offset) <= u64_MAX;
  to_len : t.(tr_index_len) <= u32_MAX;
  to_index_crc : t.(tr_index_crc32c) <= u32_MAX;
  to_data_crc : t.(tr_data_crc32c) <= u32_MAX;
  to_header_crc : t.(tr_header_crc32c) <= u32_MAX;
}.

Lemma u64_fits n : n <= u64_MAX → n < 256 ^ N.of_nat 8.
Proof. unfold u64_MAX. change (256 ^ N.of_nat 8) with 18446744073709551616. lia. Qed.
Lemma u32_fits n : n <= u32_MAX → n < 256 ^ N.of_nat 4.
Proof. unfold u32_MAX. change (256 ^ N.of_nat 4) with 4294967296. lia. Qed.

Lemma parse_trailer_put t : trailer_ok t → parse_trailer (concat (trailer_fields t)) = Ok t.
Proof.
  intros [B1 B2 B3 B4 B5]. set (fields := trailer_fields t). unfold parse_trailer.
  rewrite bool_decide_eq_true_2 by (by apply (take_field 8 32 fields 6)).
  rewrite (le_at_field 8 24 fields 5 0), (le_at_field 8 0 fields 0 (tr_index_offset t)),
    (le_at_field 4 8 fields 1 (tr_index_len t)), (le_at_field 4 12 fields 2 (tr_index_crc32c t)),
    (le_at_field 4 16 fields 3 (tr_data_crc32c t)), (le_at_field 4 20 fields 4 (tr_header_crc32c t))
    by (done || by apply u64_fits || by apply u32_fits).
  by destruct t.
Qed.

Lemma drop_take_mid (obj pre mid post : Bytes) i j :
  obj = pre ++ mid ++ post → i = length pre → j = (length pre + length mid)%nat →
  drop i (take j obj) = mid.
Proof.
  intros -> -> ->. rewrite app_assoc, take_app_length' by (by rewrite length_app).
  apply drop_app_length.
Qed.

Section finish.
Context `{Codec (list BatchIndexEntry)} `{!CodecOk (list BatchIndexEntry) id}.

(** The numbers of a builder have their widths, and its encoding is the one that is read. *)
Record builder_ok (b : SegmentBuilder) : Prop := {
  bo_stream : b.(sb_stream) <= u64_MAX;
  bo_partition : b.(sb_partition) <= u32_MAX;
  bo_encoding : b.(sb_encoding) = Kafka;
}.

Lemma parse_footer_put b l index t :
  builder_ok b → built b l → to_io b.(sb_batches) = Some index →
  t.(tr_header_crc32c) = crc32c (put_segment_header b) → t.(tr_index_len) = len index →
  t.(tr_index_offset) = N.of_nat HEADER_LEN + len b.(sb_data) →
  t.(tr_index_crc32c) = crc32c index →
  parse_footer (put_segment_header b) index t = Ok (footer_of b).
Proof.
  intros [B1 B2 En] Bt Ei Eh El Eo Ec. pose proof (built_check b l Bt) as Ck.
  destruct Bt as [_ _ Nx _ Bd]. unfold parse_footer.
  rewrite length_segment_header, header_concat in *. set (fields := header_fields b) in *.
  rewrite bool_decide_eq_true_2, Eh, N.eqb_refl by done. cbn [negb orb Nat.eqb HEADER_LEN].
  rewrite (le_at_field 2 8 fields 1 VERSION), (byte_at_field 10 fields 2 (encoding_byte (sb_encoding b))),
    (byte_at_field 11 fields 3 0), (le_at_field 8 12 fields 4 (sb_stream b)),
    (le_at_field 4 20 fields 5 (sb_partition b)), (le_at_field 8 24 fields 6 (sb_base_offset b)),
    (le_at_field 8 32 fields 7 (sb_next_offset b))
    by (done || (apply u64_fits; lia) || by apply u32_fits).
  rewrite El, Ec, !N.eqb_refl, (proj2 (N.ltb_ge _ _)) by lia.
  pose proof (take_to_io (sb_batches b) index [] Ei) as T. rewrite app_nil_r in T. rewrite T.
  rewrite En. cbn [negb orb ok_or encoding_byte encoding_try_from N.eqb ensure_readable].
  rewrite bool_decide_eq_true_2 by done. cbn [negb]. unfold id. unfold footer_of in *.
  rewrite En, <- Eo in *. by rewrite Ck.
Qed.

Lemma segment_finish_shape b obj f :
  segment_finish b = Some (obj, f) → ∃ index t,
    to_io b.(sb_batches) = Some index ∧ f = footer_of b
    ∧ t = {| tr_index_offset := N.of_nat HEADER_LEN + len b.(sb_data); tr_index_len := len index;
             tr_index_crc32c := crc32c index; tr_data_crc32c := crc32c b.(sb_data);
             tr_header_crc32c := crc32c (put_segment_header b) |}
    ∧ obj = put_segment_header b ++ b.(sb_data) ++ index ++ concat (trailer_fields t).
Proof.
  unfold segment_finish. destruct (to_io (sb_batches b)) as [index|]; [|done].
  intros E. apply (inj Some), pair_equal_spec in E as [<- <-].
  assert (len (put_segment_header b ++ sb_data b) = N.of_nat HEADER_LEN + len (sb_data b)) as ->.
  { rewrite len_app. unfold len at 1. by rewrite length_segment_header. }
  eexists index, _. split_and!; [done|done|done|]. unfold trailer_fields. cbn [concat tr_index_offset
    tr_index_len tr_index_crc32c tr_data_crc32c tr_header_crc32c].
  by rewrite <- !app_assoc, app_nil_r.
Qed.

(** The parts of a finished segment, as a reader meets them. *)
Lemma segment_pieces b l obj f :
  builder_ok b → built b l → segment_finish b = Some (obj, f) → len obj <= u64_MAX →
  (∀ index, to_io b.(sb_batches) = Some index → len index <= u32_MAX) →
  ∃ index t, f = footer_of b
    ∧ obj = put_segment_header b ++ b.(sb_data) ++ index ++ concat (trailer_fields t)
    ∧ len (concat (trailer_fields t)) = N.of_nat TRAILER_LEN
    ∧ len obj = N.of_nat HEADER_LEN + len b.(sb_data) + len index + N.of_nat TRAILER_LEN
    ∧ parse_trailer (concat (trailer_fields t)) = Ok t
    ∧ index_range t (len obj) = Ok {| range_start := N.of_nat HEADER_LEN + len b.(sb_data);
                                      range_end := N.of_nat HEADER_LEN + len b.(sb_data) + len index |}
    ∧ parse_footer (put_segment_header b) index t = Ok (footer_of b)
    ∧ tr_data_crc32c t = crc32c b.(sb_data).
Proof.
  intros Ob Bt (index & t & Ei & -> & Et & Eo)%segment_finish_shape Sm Li. specialize (Li _ Ei).
  exists index, t. split; [done|]. split; [done|].
  assert (len (concat (trailer_fields t)) = N.of_nat TRAILER_LEN) as Lt.
  { unfold len. rewrite length_concat. by literal_lengths. }
  assert (len obj = N.of_nat HEADER_LEN + len (sb_data b) + len index + N.of_nat TRAILER_LEN) as Lo.
  { rewrite Eo, !len_app, Lt. unfold len at 1. rewrite length_segment_header. lia. }
  split_and!; [done|done| | | |by rewrite Et].
  - apply parse_trailer_put. rewrite Et. split; cbn; try apply crc_u32; unfold HEADER_LEN in *; lia.
  - unfold index_range. rewrite Lo.
    assert (tr_index_offset t = N.of_nat HEADER_LEN + len (sb_data b) ∧ tr_index_len t = len index)
      as [-> ->] by (by rewrite Et).
    rewrite !(proj2 (N.ltb_ge _ _)) by lia. cbn [orb]. rewrite bool_decide_eq_true_2.
    + cbn [negb]. do 2 f_equal. lia.
    + unfold u64_checked_add. rewrite (proj2 (N.leb_le _ _)) by lia. f_equal. lia.
  - by apply (parse_footer_put b l); rewrite ?Et.
Qed.

Lemma segment_parse_finish b l obj f :
  builder_ok b → built b l → segment_finish b = Some (obj, f) → len obj <= u64_MAX →
  (∀ index, to_io b.(sb_batches) = Some index → len index <= u32_MAX) →
  segment_parse obj = Ok f.
Proof.
  intros Ob Bt Fi Sm Li.
  destruct (segment_pieces b l obj f Ob Bt Fi Sm Li)
    as (index & t & -> & Eo & Lt & Lo & Pt & Ir & Pf & Ec).
  pose proof (length_segment_header b) as Lh. set (header := put_segment_header b) in *.
  unfold segment_parse. rewrite (proj2 (Nat.ltb_ge _ _)) by (unfold len in Lo; lia). cbv zeta.
  replace (length obj - TRAILER_LEN)%nat with (length (header ++ sb_data b ++ index))
    by (rewrite !length_app, Lh; unfold len in Lo; lia).
  assert (drop (length (header ++ sb_data b ++ index)) obj = concat (trailer_fields t)) as ->
    by (rewrite Eo, !app_assoc; apply drop_app_length).
  rewrite Pt, Ir. cbn [range_start range_end].
  rewrite (drop_take_mid obj (header ++ sb_data b) index (concat (trailer_fields t)));
    [|by rewrite Eo, <- app_assoc|rewrite length_app, Lh; unfold len; lia
     |rewrite length_app, Lh; unfold len; lia].
  assert (take HEADER_LEN obj = header) as -> by (rewrite Eo; by apply take_app_length').
  rewrite Pf.
  change (sf_data (footer_of b)) with {| range_start := N.of_nat HEADER_LEN;
    range_end := N.of_nat HEADER_LEN + len (sb_data b) |}. cbn [range_start range_end].
  rewrite (drop_take_mid obj header (sb_data b) (index ++ concat (trailer_fields t)));
    [|done|rewrite Lh; lia|rewrite Lh; unfold len; lia].
  rewrite Ec, N.eqb_refl.
  assert (batches (sb_data b) = (λ x, Ok (batch_ref (it_bytes x) (it_records x))) <$> l
    ∧ length (sf_batches (footer_of b)) = length l) as [-> ->].
  { pose proof Bt as [D I _ It _]. cbn [footer_of sf_batches].
    by rewrite I, D, (batches_items _ _ It), length_layout. }
  pose proof (match_items b [] l Bt ltac:(lia)) as M. cbn [length] in M. by rewrite M.
Qed.
End finish.
End laws.
