(* ===== verification/LogReader.v ===== *)
(** * The fetch path (loams-log/src/reader.rs)

    A fetch plans with the index entries of one metastore read, reads the objects they name
    through the range cache, and gathers whole batches under a byte budget.  The reader keeps
    two caches of its own, segment footers and the batch boundaries of WAL chunks; they are its
    state here, and what moka evicts is a smaller map.  The range cache is the class
    [ObjectCache].  A long poll takes turns: what its metastore reads see and how its waits end
    are arguments. *)

From Stdlib Require Import NArith ZArith Lia.
From stdpp Require Import prelude gmap strings numbers list.
From S2P Require Import Prelude.
From S2P Require Import BTree.
From S2P Require Import ByteCodec.
From S2P Require Import Ids.
From S2P Require Import MetaTypes.
From S2P Require Import MetaState.
From S2P Require Import MetaCatalog.
From S2P Require Import LogBatch.
From S2P Require Import LogSegment.

Open Scope N_scope.

(** [RangeCache::read] and [RangeCache::size]. *)
Class ObjectCache := {
  cache_read : string → Range → Result Bytes CacheError.t;
  cache_size : string → Result N CacheError.t;
}.

Abbreviation ChunkBatches := (list (N * Range)) (only parsing).

Record FetchRequest := {
  fr_stream : StreamId;
  fr_partition : N;
  fr_offset : N;
  fr_max_bytes : N;
}.

Record FetchResponse := {
  fs_records : list OffsetRecord;
  fs_next_offset : N;
  fs_high_watermark : N;
  fs_log_start_offset : N;
}.

Record Plan := {
  pl_log_start_offset : N;
  pl_high_watermark : N;
  pl_entries : list IndexEntry;
}.

(** The caches of a [LogReader]. *)
Record ReaderState := {
  rs_footers : gmap string SegmentFooter;
  rs_chunk_batches : gmap (string * N) (list (N * Range));
}.

(** [is_gone] *)
Definition is_gone (e : LogError) : bool :=
  match e with
  | LogCache (CacheError.Store StoreError.NotFound) => true
  | LogStore StoreError.NotFound => true
  | _ => false
  end.

(** [cache_error] *)
Definition cache_error (e : CacheError.t) : LogError :=
  match e with
  | CacheError.OutOfRange | CacheError.SizeMismatch => Corrupt "object shorter than its index entry: {err}"
  | other => LogCache other
  end.

(** ** Gathering *)

Record Gather := {
  ga_offset : N;
  ga_max_bytes : N;
  ga_bytes : N;
  ga_records : list OffsetRecord;
  ga_full : bool;
}.

Definition set_full (g : Gather) : Gather :=
  {| ga_offset := g.(ga_offset); ga_max_bytes := g.(ga_max_bytes); ga_bytes := g.(ga_bytes);
     ga_records := g.(ga_records); ga_full := true |}.

(** [Gather::fits]: what it answers; a [false] also sets [full]. *)
Definition fits (g : Gather) (n : N) : bool :=
  (g.(ga_bytes) =? 0) || (u64_saturating_add g.(ga_bytes) n <=? g.(ga_max_bytes)).

(** [Gather::add] *)
Definition gather_add (g : Gather) (batch : BatchRef) (base : N) : Result Gather LogError :=
  LET rs <- decode_batch batch base ;;
  Ok {| ga_offset := g.(ga_offset); ga_max_bytes := g.(ga_max_bytes);
        ga_bytes := u64_add g.(ga_bytes) (len batch.(br_bytes));
        ga_records := g.(ga_records) ++ filter (λ r, g.(ga_offset) <= r.(or_offset)) rs;
        ga_full := g.(ga_full) |}.

Section reader.
Context `{Crc32c} `{Codec (list BatchIndexEntry)} `{ObjectCache}.

(** ** WAL chunks *)

(** Where [read_wal] starts: the batch holding the fetch offset, when it is known, else the
    chunk. *)
Definition wal_start (known : option (list (N * Range))) (entry : IndexEntry) (g : Gather) : N * N :=
  match known with
  | Some batches =>
      if entry.(base_offset) <? g.(ga_offset) then
        let holding := (partition_point (λ b, b.1 <=? g.(ga_offset))%N batches - 1)%nat in
        match batches !! holding with
        | Some (base, range) => (range.(range_start), base)
        | None => (entry.(byte_range).(range_start), entry.(base_offset))
        end
      else (entry.(byte_range).(range_start), entry.(base_offset))
  | None => (entry.(byte_range).(range_start), entry.(base_offset))
  end.

(** What the batch loop of [read_wal] leaves: the gathered, the boundaries learned so far, the
    offset and position reached, and the items left when it stopped. *)
Record WalLoop := {
  wl_gather : Gather;
  wl_learned : option (list (N * Range));
  wl_base : N;
  wl_at : N;
  wl_stopped : option (list (Result BatchRef LogError));
}.

(** [if let Some(learned) = learned.as_mut() { learned.push(..) }] *)
Definition learn (learned : option (list (N * Range))) (base at_ n : N) : option (list (N * Range)) :=
  (λ l, l ++ [(base, {| range_start := at_; range_end := u64_add at_ n |})]) <$> learned.

(** The batch loop of [read_wal]. *)
Fixpoint wal_loop (items : list (Result BatchRef LogError)) (g : Gather)
    (learned : option (list (N * Range))) (base at_ : N) : Result WalLoop LogError :=
  match items with
  | [] => Ok {| wl_gather := g; wl_learned := learned; wl_base := base; wl_at := at_;
                wl_stopped := None |}
  | item :: items =>
      LET batch <- item ;;
      let n := len batch.(br_bytes) in
      let e := u64_add base batch.(br_record_count) in
      let learned := learn learned base at_ n in
      let at' := u64_add at_ n in
      if g.(ga_offset) <? e then
        if fits g n then
          LET g <- gather_add g batch base ;;
          wal_loop items g learned e at'
        else Ok {| wl_gather := set_full g; wl_learned := learned; wl_base := e; wl_at := at';
                   wl_stopped := Some items |}
      else wal_loop items g learned e at'
  end.

(** The loop after a stop, which learns the rest of the boundaries: none if a batch does not
    parse. *)
Fixpoint learn_rest (items : list (Result BatchRef LogError)) (boundaries : list (N * Range))
    (base at_ : N) : option (list (N * Range) * N) :=
  match items with
  | [] => Some (boundaries, base)
  | Err _ :: _ => None
  | Ok batch :: items =>
      let n := len batch.(br_bytes) in
      learn_rest items (boundaries ++ [(base, {| range_start := at_; range_end := u64_add at_ n |})])
        (u64_add base batch.(br_record_count)) (u64_add at_ n)
  end.

Definition insert_chunk (st : ReaderState) (key : string * N) (b : list (N * Range)) : ReaderState :=
  {| rs_footers := st.(rs_footers); rs_chunk_batches := <[key := b]> st.(rs_chunk_batches) |}.

(** [LogReader::read_wal] *)
Definition read_wal (st : ReaderState) (entry : IndexEntry) (g : Gather)
  : ReaderState * Result Gather LogError :=
  let key := (entry.(object), entry.(byte_range).(range_start)) in
  let known := st.(rs_chunk_batches) !! key in
  let '(start, base) := wal_start known entry g in
  TRY bytes <- map_err cache_error
                 (cache_read entry.(object)
                    {| range_start := start; range_end := entry.(byte_range).(range_end) |}) IN st ;;
  let learned := if bool_decide (known = None) && (start =? entry.(byte_range).(range_start))
                 then Some [] else None in
  TRY l <- wal_loop (batches bytes) g learned base start IN st ;;
  match l.(wl_stopped) with
  | Some items =>
      let st := match l.(wl_learned) with
                | Some boundaries =>
                    match learn_rest items boundaries l.(wl_base) l.(wl_at) with
                    | Some (boundaries, base) =>
                        if base =? end_offset entry then insert_chunk st key boundaries else st
                    | None => st
                    end
                | None => st
                end in
      (st, Ok l.(wl_gather))
  | None =>
      BAIL negb (l.(wl_base) =? end_offset entry)
        WITH Corrupt "WAL chunk in {} holds records up to {base}, its index entry up to {}" IN st ;;
      let st := match l.(wl_learned) with
                | Some boundaries => insert_chunk st key boundaries
                | None => st
                end in
      (st, Ok l.(wl_gather))
  end.

(** ** Segments *)

(** [LogReader::footer] *)
Definition footer (st : ReaderState) (path : string) : ReaderState * Result SegmentFooter LogError :=
  match st.(rs_footers) !! path with
  | Some f => (st, Ok f)
  | None =>
      TRY size <- map_err cache_error (cache_size path) IN st ;;
      BAIL size <? N.of_nat (HEADER_LEN + TRAILER_LEN)
        WITH Corrupt "segment {path} is too short: {size} bytes" IN st ;;
      TRY tail <- map_err cache_error
                    (cache_read path {| range_start := size - N.of_nat TRAILER_LEN; range_end := size |})
        IN st ;;
      BAIL negb (length tail =? 40)%nat WITH Corrupt "short segment trailer read" IN st ;;
      TRY trailer <- parse_trailer tail IN st ;;
      TRY range <- index_range trailer size IN st ;;
      TRY header <- map_err cache_error
                      (cache_read path {| range_start := 0; range_end := N.of_nat HEADER_LEN |}) IN st ;;
      TRY index <- map_err cache_error (cache_read path range) IN st ;;
      TRY f <- parse_footer header index trailer IN st ;;
      ({| rs_footers := <[path := f]> st.(rs_footers);
          rs_chunk_batches := st.(rs_chunk_batches) |}, Ok f)
  end.

(** The planning loop of [read_segment]: the last batch that fits, from the [i]th on. *)
Fixpoint plan_batches (f : SegmentFooter) (max_bytes : N) (todo i lst : nat) (planned : N) : nat :=
  match todo with
  | O => lst
  | S todo =>
      let range := batch_range f i in
      let n := u64_sub range.(range_end) range.(range_start) in
      if negb (planned =? 0) && (max_bytes <? u64_saturating_add planned n) then lst
      else plan_batches f max_bytes todo (S i) i (u64_add planned n)
  end.

(** The batch loop of [read_segment]: [todo] batches from the [i]th on.  [true] when all of
    them were added. *)
Fixpoint segment_loop (f : SegmentFooter) (todo i : nat) (items : list (Result BatchRef LogError))
    (g : Gather) : Result (Gather * bool) LogError :=
  match todo with
  | O => Ok (g, true)
  | S todo =>
      match items with
      | [] => Err (Corrupt "segment {} ends early")
      | item :: items =>
          LET batch <- item ;;
          let range := batch_range f i in
          let base := match f.(sf_batches) !! i with Some b => b.(bi_base_offset) | None => 0 end in
          REFUSE negb (len batch.(br_bytes) =? u64_sub range.(range_end) range.(range_start))
                 || negb (batch.(br_record_count) =? u64_sub (batch_end_offset f i) base)
            WITH Corrupt "segment {} batch {i} does not match its footer" ;;
          if fits g (len batch.(br_bytes)) then
            LET g <- gather_add g batch base ;; segment_loop f todo (S i) items g
          else Ok (set_full g, false)
      end
  end.

(** [LogReader::read_segment] *)
Definition read_segment (st : ReaderState) (request : FetchRequest) (entry : IndexEntry) (g : Gather)
  : ReaderState * Result Gather LogError :=
  let '(st, r) := footer st entry.(object) in
  TRY f <- r IN st ;;
  BAIL negb (f.(sf_stream) =? request.(fr_stream)) || negb (f.(sf_partition) =? request.(fr_partition))
       || negb (f.(sf_base_offset) =? entry.(base_offset))
       || negb (f.(sf_end_offset) =? end_offset entry)
       || negb (bool_decide (f.(sf_data) = entry.(byte_range)))
    WITH Corrupt "segment {} does not match its index entry" IN st ;;
  let from := N.max g.(ga_offset) entry.(base_offset) in
  TRY first <- ok_or (batch_index_for f from) (Corrupt "segment {} has no batch for {from}") IN st ;;
  let lst := plan_batches f g.(ga_max_bytes) (length f.(sf_batches) - first) first first g.(ga_bytes) in
  let start := (batch_range f first).(range_start) in
  let end_ := (batch_range f lst).(range_end) in
  TRY bytes <- map_err cache_error
                 (cache_read entry.(object) {| range_start := start; range_end := end_ |}) IN st ;;
  TRY r <- segment_loop f (S lst - first) first (batches bytes) g IN st ;;
  let '(g, all) := r in
  (st, Ok (if (all : bool) && (S lst <? length f.(sf_batches))%nat then set_full g else g)).

(** ** Fetches *)

(** The entry loop of [LogReader::read]. *)
Fixpoint read_entries (st : ReaderState) (request : FetchRequest) (es : list IndexEntry) (g : Gather)
  : ReaderState * Result (list OffsetRecord) LogError :=
  match es with
  | [] => (st, Ok g.(ga_records))
  | e :: es =>
      let '(st, r) := match e.(entry_kind) with
                      | Wal => read_wal st e g
                      | Segment => read_segment st request e g
                      end in
      TRY g <- r IN st ;;
      if g.(ga_full) then (st, Ok g.(ga_records)) else read_entries st request es g
  end.

(** [LogReader::read] *)
Definition read (st : ReaderState) (request : FetchRequest) (plan : Plan)
  : ReaderState * Result (list OffsetRecord) LogError :=
  read_entries st request plan.(pl_entries)
    {| ga_offset := request.(fr_offset); ga_max_bytes := request.(fr_max_bytes); ga_bytes := 0;
       ga_records := []; ga_full := false |}.

(** [LogReader::plan] *)
Definition plan (s : MetaState) (request : FetchRequest) : Result Plan LogError :=
  match partition_index s request.(fr_stream) request.(fr_partition) request.(fr_offset)
          (Some request.(fr_max_bytes)) with
  | Some index => Ok {| pl_log_start_offset := index.(px_log_start_offset);
                        pl_high_watermark := px_high_watermark index;
                        pl_entries := index.(px_entries) |}
  | None =>
      match stream s request.(fr_stream) with
      | Some _ => Err (UnknownPartition request.(fr_stream) request.(fr_partition))
      | None => Err (UnknownStream request.(fr_stream))
      end
  end.

Definition out_of_range (request : FetchRequest) (p : Plan) : LogError :=
  OffsetOutOfRange request.(fr_offset) p.(pl_log_start_offset) p.(pl_high_watermark).

(** [LogReader::fetch]: [states] are what its metastore reads see, one for each turn of the
    loop, and [wakes] how its waits end, [true] for the deadline or a stopped node.  [None] while
    the fetch still waits for one of them. *)
Fixpoint fetch_loop (st : ReaderState) (request : FetchRequest) (states : list MetaState)
    (wakes : list bool) (timed_out replanned : bool)
  : option (ReaderState * Result FetchResponse LogError) :=
  match states with
  | [] => None
  | s :: states =>
      match plan s request with
      | Err e => Some (st, Err e)
      | Ok p =>
          if (request.(fr_offset) <? p.(pl_log_start_offset))
             || (p.(pl_high_watermark) <? request.(fr_offset))
          then Some (st, Err (out_of_range request p))
          else if request.(fr_offset) =? p.(pl_high_watermark) then
            if timed_out then
              Some (st, Ok {| fs_records := []; fs_next_offset := request.(fr_offset);
                              fs_high_watermark := p.(pl_high_watermark);
                              fs_log_start_offset := p.(pl_log_start_offset) |})
            else
              match wakes with
              | [] => None
              | woken :: wakes => fetch_loop st request states wakes woken replanned
              end
          else
            match read st request p with
            | (st, Ok records) =>
                Some (st, Ok {| fs_records := records;
                                fs_next_offset := match last records with
                                                  | Some r => u64_add r.(or_offset) 1
                                                  | None => request.(fr_offset)
                                                  end;
                                fs_high_watermark := p.(pl_high_watermark);
                                fs_log_start_offset := p.(pl_log_start_offset) |})
            | (st, Err e) =>
                if is_gone e && negb replanned then fetch_loop st request states wakes timed_out true
                else if is_gone e then
                  match states with
                  | [] => None
                  | s :: _ =>
                      match plan s request with
                      | Err e => Some (st, Err e)
                      | Ok fresh =>
                          if request.(fr_offset) <? fresh.(pl_log_start_offset)
                          then Some (st, Err (out_of_range request fresh))
                          else Some (st, Err e)
                      end
                  end
                else Some (st, Err e)
            end
      end
  end.

Definition fetch (st : ReaderState) (request : FetchRequest) (states : list MetaState)
    (wakes : list bool) (max_wait_is_zero : bool) : option (ReaderState * Result FetchResponse LogError) :=
  fetch_loop st request states wakes max_wait_is_zero false.
End reader.
