(* ===== verification/LogReaderInv.v ===== *)
(** * What a fetch returns

    The range cache answers with slices of the objects ([ObjectCacheOk]).  An index entry is
    [stored] when its byte range holds the batches of its records; a reader's own caches are
    [reader_ok] when they say what the objects say.  A fetch over stored entries returns the
    records from its offset on, contiguous and at least one, and fails only where a cache read
    fails. *)

From Stdlib Require Import NArith ZArith Lia.
From stdpp Require Import prelude gmap strings numbers list.
From S2P Require Import Prelude.
From S2P Require Import BTree.
From S2P Require Import ByteCodec.
From S2P Require Import Ids.
From S2P Require Import MetaTypes.
From S2P Require Import MetaState.
From S2P Require Import MetaCatalog.
From S2P Require Import LogBatch.
From S2P Require Import LogBatchInv.
From S2P Require Import LogSegment.
From S2P Require Import LogSegmentInv.
From S2P Require Import LogReader.

Open Scope N_scope.

(** ** Records from an offset on *)

(** The records of [recs], stored from [base] on, that a fetch at [o] takes. *)
Definition since (o base : N) (recs : list LogRecord) : list OffsetRecord :=
  filter (λ r, o <= r.(or_offset)) (at_offsets base recs).

Lemma elem_of_at_offsets r base recs :
  r ∈ at_offsets base recs → base <= r.(or_offset) < base + len recs.
Proof.
  revert base. induction recs as [|x recs IH]; intros base I; cbn in I; [by apply elem_of_nil in I|].
  rewrite len_cons. apply elem_of_cons in I as [->|I%IH]; cbn; lia.
Qed.

Lemma since_app o base l l' : since o base (l ++ l') = since o base l ++ since o (base + len l) l'.
Proof. unfold since. by rewrite at_offsets_app, filter_app. Qed.

Lemma since_skip o base l : base + len l <= o → since o base l = [].
Proof. intros L. apply filter_none. intros r I%elem_of_at_offsets. lia. Qed.

Lemma since_all o base l : o <= base → since o base l = at_offsets base l.
Proof. intros L. apply filter_all. intros r I%elem_of_at_offsets. lia. Qed.

Lemma since_nonempty o base l : o < base + len l → l ≠ [] → since o base l ≠ [].
Proof.
  intros L N. destruct l as [|x l _] using rev_ind; [done|].
  rewrite since_app. rewrite len_app, len_cons in L. change (len []) with 0 in L.
  intros [_ E]%app_eq_nil. unfold since in E. cbn [at_offsets] in E.
  rewrite filter_cons_True in E by (cbn; lia). done.
Qed.

(** ** Stored batches *)

Abbreviation Stored := (Bytes * list LogRecord)%type (only parsing).

Definition bytes_of (l : list Stored) : Bytes := concat l.*1.
Definition records_of (l : list Stored) : list LogRecord := concat l.*2.
Definition items_of (l : list Stored) : list (Result BatchRef LogError) :=
  (λ b, Ok (batch_ref b.1 b.2)) <$> l.

(** The boundaries of the batches from offset [base] and position [at_] on. *)
Fixpoint bounds (base at_ : N) (l : list Stored) : list (N * Range) :=
  match l with
  | [] => []
  | b :: l => (base, {| range_start := at_; range_end := at_ + len b.1 |})
              :: bounds (base + len b.2) (at_ + len b.1) l
  end.

Lemma bytes_of_app l l' : bytes_of (l ++ l') = bytes_of l ++ bytes_of l'.
Proof. unfold bytes_of. by rewrite fmap_app, concat_app. Qed.
Lemma records_of_app l l' : records_of (l ++ l') = records_of l ++ records_of l'.
Proof. unfold records_of. by rewrite fmap_app, concat_app. Qed.
Lemma bytes_of_cons b l : bytes_of (b :: l) = b.1 ++ bytes_of l.
Proof. done. Qed.
Lemma records_of_cons b l : records_of (b :: l) = b.2 ++ records_of l.
Proof. done. Qed.

Lemma items_of_cons b l : items_of (b :: l) = Ok (batch_ref b.1 b.2) :: items_of l.
Proof. done. Qed.

Lemma bounds_app base at_ l l' :
  bounds base at_ (l ++ l')
  = bounds base at_ l ++ bounds (base + len (records_of l)) (at_ + len (bytes_of l)) l'.
Proof.
  revert base at_. induction l as [|b l IH]; intros base at_; cbn [app bounds].
  - by rewrite !N.add_0_r.
  - rewrite IH, records_of_cons, bytes_of_cons, !len_app. do 3 f_equal; lia.
Qed.

Lemma bounds_lookup base at_ l i x :
  bounds base at_ l !! i = Some x → ∃ l1 b l2, l = l1 ++ b :: l2 ∧ i = length l1
    ∧ x = (base + len (records_of l1), {| range_start := at_ + len (bytes_of l1);
                                          range_end := at_ + len (bytes_of l1) + len b.1 |}).
Proof.
  revert base at_ i. induction l as [|b l IH]; intros base at_ [|i] E; cbn in E; try done.
  - injection E as <-. exists [], b, l. change (records_of []) with (@nil LogRecord).
    change (bytes_of []) with (@nil N). change (len []) with 0. by rewrite !N.add_0_r.
  - apply IH in E as (l1 & c & l2 & -> & -> & ->). exists (b :: l1), c, l2. split_and!; try done.
    rewrite records_of_cons, bytes_of_cons, !len_app. f_equal; [lia|f_equal; lia].
Qed.

Section laws.
Context `{Crc32cOk}.

Definition stored_ok (b : Stored) : Prop := holds b.1 b.2 ∧ Forall record_ok b.2.

Lemma batches_stored l : Forall stored_ok l → batches (bytes_of l) = items_of l.
Proof.
  intros F. unfold bytes_of, items_of. rewrite (batches_hold l.*1 l.*2).
  - clear F. induction l as [|b l IH]; cbn; [done|]. by rewrite IH.
  - induction F as [|b l [] F IH]; cbn; by constructor.
  - induction F as [|b l [] F IH]; cbn; by constructor.
Qed.

Lemma stored_nonempty b : stored_ok b → 61 <= len b.1 ∧ 0 < len b.2.
Proof.
  intros [[L N]%holds_nonempty _]. unfold len. destruct b.2; [done|]. cbn [length]. lia.
Qed.

(** ** Gathering *)

(** What has been gathered of [target]: all of it, or a part that fills the budget. *)
Record gathered (o : N) (target : list OffsetRecord) (g : Gather) : Prop := {
  gt_offset : g.(ga_offset) = o;
  gt_records : if g.(ga_full) then g.(ga_records) `prefix_of` target ∧ g.(ga_records) ≠ []
               else g.(ga_records) = target;
  gt_empty : g.(ga_records) = [] → g.(ga_bytes) = 0;
}.

Lemma gathered_more o target more g :
  ga_full g = true → gathered o target g → gathered o (target ++ more) g.
Proof.
  intros F [O R E]. split; try done. rewrite F in *. destruct R as [R N]. split; [|done].
  by apply prefix_app_r.
Qed.

Lemma gathered_full o target g n :
  ga_full g = false → fits g n = false → gathered o target g → gathered o target (set_full g).
Proof.
  intros F N [O R E]. rewrite F in R. split; cbn; try done. split; [by rewrite R|].
  intros E'. unfold fits in N. by rewrite (E E') in N.
Qed.

Lemma gathered_set_full o target g :
  ga_full g = false → ga_records g ≠ [] → gathered o target g → gathered o target (set_full g).
Proof. intros F N [O R E]. rewrite F in R. split; cbn; try done. by rewrite R in *. Qed.

(** A batch is added whole, less the records below the fetch offset. *)
Lemma gather_add_spec o target g b base :
  stored_ok b → base + len b.2 <= u64_MAX → o < base + len b.2 →
  ga_full g = false → gathered o target g →
  ∃ g', gather_add g (batch_ref b.1 b.2) base = Ok g' ∧ ga_full g' = false ∧ ga_records g' ≠ []
    ∧ gathered o (target ++ since o base b.2) g'.
Proof.
  intros [Hb Fr] B Lo F [O R E]. unfold gather_add. rewrite (decode_holds _ _ _ Hb Fr B).
  assert (since o base b.2 ≠ []) as N.
  { apply since_nonempty; [done|]. by apply holds_nonempty in Hb as []. }
  eexists. split; [done|]. cbn. rewrite F in *. rewrite O, R.
  split_and!; [done| |split; cbn; try done]. all: intros [_ ?]%app_eq_nil; done.
Qed.
(** ** The batch loop over a chunk *)

(** What the loop over the batches [l] leaves. *)
Definition wal_looped (o : N) (target : list OffsetRecord) (learned : option (list (N * Range)))
    (base at_ : N) (l : list Stored) (w : WalLoop) : Prop :=
  gathered o (target ++ since o base (records_of l)) w.(wl_gather)
  ∧ match w.(wl_stopped) with
    | None => ga_full w.(wl_gather) = false ∧ w.(wl_base) = base + len (records_of l)
              ∧ w.(wl_learned) = (λ k, k ++ bounds base at_ l) <$> learned
    | Some items => ga_full w.(wl_gather) = true
        ∧ ∃ l1 l2, l = l1 ++ l2 ∧ items = items_of l2
          ∧ w.(wl_base) = base + len (records_of l1) ∧ w.(wl_at) = at_ + len (bytes_of l1)
          ∧ w.(wl_learned) = (λ k, k ++ bounds base at_ l1) <$> learned
    end.

(** A loop over the rest of the batches makes one over all of them. *)
Lemma wal_looped_cons o target learned base at_ b l w :
  wal_looped o (target ++ since o base b.2)
    ((λ k, k ++ [(base, {| range_start := at_; range_end := at_ + len b.1 |})]) <$> learned)
    (base + len b.2) (at_ + len b.1) l w →
  wal_looped o target learned base at_ (b :: l) w.
Proof.
  intros [G S]. unfold wal_looped. rewrite records_of_cons, since_app, app_assoc.
  split; [done|]. destruct (wl_stopped w) as [items|].
  - destruct S as (F & l1 & l2 & -> & -> & Eb & Ea & El). split; [done|]. exists (b :: l1), l2.
    rewrite records_of_cons, bytes_of_cons, !len_app. split_and!; try done; try lia.
    rewrite El, <- option_fmap_compose. apply option_fmap_ext. intros k. cbn. by rewrite <- app_assoc.
  - destruct S as (F & Eb & El). rewrite len_app. split_and!; [done|lia|].
    rewrite El, <- option_fmap_compose. apply option_fmap_ext. intros k. cbn. by rewrite <- app_assoc.
Qed.

Lemma wal_loop_spec o l base at_ g learned target :
  Forall stored_ok l → base + len (records_of l) <= u64_MAX → at_ + len (bytes_of l) <= u64_MAX →
  ga_full g = false → gathered o target g →
  ∃ w, wal_loop (items_of l) g learned base at_ = Ok w ∧ wal_looped o target learned base at_ l w.
Proof.
  intros F. revert base at_ g learned target.
  induction F as [|b l Ob F IH]; intros base at_ g learned target Bb Ba Fg G.
  - eexists. split; [done|]. split; cbn; [by rewrite app_nil_r|]. split_and!; [done|by rewrite N.add_0_r|].
    destruct learned; cbn; by rewrite ?app_nil_r.
  - rewrite records_of_cons, len_app in Bb. rewrite bytes_of_cons, len_app in Ba.
    rewrite items_of_cons. cbn [wal_loop batch_ref br_bytes br_record_count]. rewrite !u64_add_small by lia. unfold learn.
    rewrite u64_add_small by lia. rewrite (gt_offset _ _ _ G).
    set (learned' := (λ _, _) <$> learned). destruct (N.ltb_spec o (base + len b.2)) as [L|L].
    + destruct (fits g (len b.1)) eqn:Ft.
      * destruct (gather_add_spec o target g b base Ob) as (g' & -> & Fg' & _ & G'); [lia|done..|].
        destruct (IH (base + len b.2) (at_ + len b.1) g' learned' _ ltac:(lia) ltac:(lia) Fg' G')
          as (w & -> & W). exists w. split; [done|]. by apply wal_looped_cons.
      * eexists. split; [done|]. apply wal_looped_cons. split; cbn.
        -- rewrite <- app_assoc. apply gathered_more; [done|]. by eapply gathered_full.
        -- split; [done|]. exists [], l. cbn. rewrite !N.add_0_r. split_and!; try done.
           destruct learned; cbn; by rewrite ?app_nil_r.
    + rewrite <- (app_nil_r target), <- (since_skip o base b.2) in G by lia.
      destruct (IH (base + len b.2) (at_ + len b.1) g learned' _ ltac:(lia) ltac:(lia) Fg G)
        as (w & -> & W). exists w. split; [done|]. by apply wal_looped_cons.
Qed.

Lemma learn_rest_spec l base at_ k :
  base + len (records_of l) <= u64_MAX → at_ + len (bytes_of l) <= u64_MAX →
  learn_rest (items_of l) k base at_ = Some (k ++ bounds base at_ l, base + len (records_of l)).
Proof.
  revert base at_ k. induction l as [|b l IH]; intros base at_ k Bb Ba.
  - cbn. by rewrite app_nil_r, N.add_0_r.
  - rewrite records_of_cons, len_app in *. rewrite bytes_of_cons, len_app in Ba.
    rewrite items_of_cons. cbn [learn_rest batch_ref br_bytes br_record_count]. rewrite !u64_add_small by lia.
    rewrite IH by lia. cbn [bounds].
    rewrite <- app_assoc, N.add_assoc. done.
Qed.
(** ** The range cache *)

Lemma slice_mid {A} (l : list A) k n a b c :
  slice l k n = a ++ b ++ c → slice l (k + len a) (len b) = b.
Proof.
  unfold slice, len. intros E. apply (f_equal (drop (length a))) in E.
  rewrite drop_app_length, skipn_firstn_comm, drop_drop in E.
  apply (f_equal (take (length b))) in E. rewrite take_app_length, take_take in E.
  rewrite N2Nat.inj_add, !Nat2N.id. rewrite <- E at 2. f_equal.
  apply (f_equal length) in E. rewrite length_take in E. lia.
Qed.

Lemma len_slice {A} (l : list A) k n : k + n <= len l → len (slice l k n) = n.
Proof. unfold slice, len. intros L. rewrite length_take, length_drop. lia. Qed.

Context `{ObjectCache} (objects : gmap string Bytes).

(** The range cache serves the objects: what a read returns is the range of the object it asked
    for.  [objects] has what each path was ever written with, so it may also serve an object that
    was deleted. *)
Class ObjectCacheOk : Prop := {
  cache_read_ok p r bs : cache_read p r = Ok bs → ∃ obj, objects !! p = Some obj
    ∧ bs = slice obj r.(range_start) (r.(range_end) - r.(range_start));
  cache_size_ok p n : cache_size p = Ok n → ∃ obj, objects !! p = Some obj ∧ n = len obj;
}.

(** A failure of the cache: of a size, or of a read that the object has. *)
Definition cache_failed (p : string) (err : LogError) : Prop :=
  ∃ e, err = cache_error e
    ∧ (cache_size p = Err e
       ∨ ∃ obj r, objects !! p = Some obj ∧ r.(range_start) <= r.(range_end)
           ∧ r.(range_end) <= len obj ∧ cache_read p r = Err e).

(** The cache serves the objects of [present]. *)
Definition cache_live (present : string → Prop) : Prop :=
  ∀ p, present p → is_Some (objects !! p) → (∃ n, cache_size p = Ok n)
    ∧ ∀ obj r, objects !! p = Some obj → r.(range_start) <= r.(range_end) →
        r.(range_end) <= len obj → ∃ bs, cache_read p r = Ok bs.

Lemma live_not_failed present p err :
  cache_live present → present p → is_Some (objects !! p) → ¬ cache_failed p err.
Proof.
  intros L Pp Sm (e & _ & [E|(obj & r & Eo & L1 & L2 & E)]); destruct (L p Pp Sm) as [[n En] R].
  - congruence.
  - destruct (R obj r Eo L1 L2). congruence.
Qed.

Context `{!ObjectCacheOk}.

Lemma cache_read_cases p obj a b :
  objects !! p = Some obj → a <= b → b <= len obj →
  let r := {| range_start := a; range_end := b |} in
  map_err cache_error (cache_read p r) = Ok (slice obj a (b - a))
  ∨ ∃ e, map_err cache_error (cache_read p r) = Err e ∧ cache_failed p e.
Proof.
  intros E L1 L2 r. destruct (cache_read p r) as [bs|e] eqn:C; cbn.
  - left. apply cache_read_ok in C as (obj' & E' & ->). by simplify_eq.
  - right. eexists. split; [done|]. exists e. split; [done|]. right. by exists obj, r.
Qed.

Lemma cache_size_cases p obj :
  objects !! p = Some obj → map_err cache_error (cache_size p) = Ok (len obj)
  ∨ ∃ e, map_err cache_error (cache_size p) = Err e ∧ cache_failed p e.
Proof.
  intros E. destruct (cache_size p) as [n|e] eqn:C; cbn.
  - left. apply cache_size_ok in C as (obj' & E' & ->). by simplify_eq.
  - right. eexists. split; [done|]. exists e. split; [done|]. by left.
Qed.

(** ** Stored entries *)

(** The byte range of a WAL entry is the batches [l], which hold its records. *)
Record wal_stored (e : IndexEntry) (l : list Stored) : Prop := {
  ws_object : ∃ obj, objects !! e.(object) = Some obj
    ∧ e.(byte_range).(range_end) <= len obj ∧ len obj <= u64_MAX
    ∧ slice obj e.(byte_range).(range_start) (e.(byte_range).(range_end) - e.(byte_range).(range_start))
      = bytes_of l;
  ws_range : e.(byte_range).(range_start) <= e.(byte_range).(range_end);
  ws_batches : Forall stored_ok l;
  ws_nonempty : l ≠ [];
  ws_end : end_offset e = e.(base_offset) + len (records_of l);
  ws_bound : end_offset e <= u64_MAX;
}.

(** The WAL entries the reader meets; one object and position names one of them. *)
Context (met : IndexEntry → list Stored → Prop).
Context (met_stored : ∀ e l, met e l → wal_stored e l).
Context (met_unique : ∀ e l e' l', met e l → met e' l' → e.(object) = e'.(object) →
  e.(byte_range).(range_start) = e'.(byte_range).(range_start) → e = e' ∧ l = l').

(** Of a known chunk, from the batch that holds the offset. *)
Lemma wal_start_spec known e l g :
  wal_stored e l →
  (known = None ∨ known = Some (bounds e.(base_offset) e.(byte_range).(range_start) l)) →
  ∃ l1 l2, l = l1 ++ l2
    ∧ wal_start known e g = (e.(byte_range).(range_start) + len (bytes_of l1),
                             e.(base_offset) + len (records_of l1))
    ∧ (l1 ≠ [] → known ≠ None ∧ e.(base_offset) + len (records_of l1) <= g.(ga_offset)).
Proof.
  intros W K. assert (∃ l1 l2, l = l1 ++ l2
    ∧ (e.(byte_range).(range_start), e.(base_offset))
      = (e.(byte_range).(range_start) + len (bytes_of l1), e.(base_offset) + len (records_of l1))
    ∧ (l1 ≠ [] → known ≠ None ∧ e.(base_offset) + len (records_of l1) <= g.(ga_offset))) as Whole.
  { exists [], l. change (len (bytes_of [])) with 0. change (len (records_of [])) with 0.
    by rewrite !N.add_0_r. }
  destruct K as [-> | ->]; [done|]. cbn [wal_start].
  destruct (N.ltb_spec e.(base_offset) g.(ga_offset)) as [L|L]; [|done].
  set (bs := bounds _ _ _). destruct (partition_point_spec (λ b, b.1 <=? g.(ga_offset)) bs) as (P & _ & _).
  generalize dependent (partition_point (λ b, b.1 <=? g.(ga_offset)) bs). intros n P.
  destruct (bs !! (n - 1)%nat) as [[b r]|] eqn:E; [|done].
  assert (b <= ga_offset g) as Lb.
  { destruct n as [|n].
    - change (bs !! 0%nat = Some (b, r)) in E. destruct l as [|x l]; [done|]. cbn in E.
      injection E as Eb _. lia.
    - specialize (P (S n - 1)%nat (b, r) ltac:(lia) E). cbn in P. bools. done. }
  apply bounds_lookup in E as (l1 & x & l2 & -> & _ & [= -> ->]). exists l1, (x :: l2). done.
Qed.
Context `{Codec (list BatchIndexEntry)}.

(** The caches of a reader say what the objects say. *)
Record reader_ok (st : ReaderState) : Prop := {
  ro_chunks p start b : st.(rs_chunk_batches) !! (p, start) = Some b →
    ∃ e l, met e l ∧ e.(object) = p ∧ e.(byte_range).(range_start) = start
      ∧ b = bounds e.(base_offset) start l;
  ro_footers p f : st.(rs_footers) !! p = Some f →
    ∃ obj, objects !! p = Some obj ∧ segment_parse obj = Ok f;
}.

(** A read gathers its target or fails as the cache does. *)
Definition reads_target (o : N) (target : list OffsetRecord) (p : string)
    (out : ReaderState * Result Gather LogError) : Prop :=
  reader_ok out.1
  ∧ ((∃ g, out.2 = Ok g ∧ gathered o target g) ∨ ∃ err, out.2 = Err err ∧ cache_failed p err).

Lemma insert_chunk_ok st e l :
  reader_ok st → met e l →
  reader_ok (insert_chunk st (e.(object), e.(byte_range).(range_start))
               (bounds e.(base_offset) e.(byte_range).(range_start) l)).
Proof.
  intros [C F] M. split; cbn; [|done]. intros p start b [[E <-]|[_ E]]%lookup_insert_Some; [|by apply C].
  injection E as <- <-. by exists e, l.
Qed.

Lemma known_spec st e l :
  reader_ok st → met e l →
  let known := st.(rs_chunk_batches) !! (e.(object), e.(byte_range).(range_start)) in
  known = None ∨ known = Some (bounds e.(base_offset) e.(byte_range).(range_start) l).
Proof.
  intros [C _] M known. destruct known as [b|] eqn:E; [|by left]. right.
  apply C in E as (e' & l' & M' & Eo & Es & ->). by destruct (met_unique e l e' l' M M') as [<- <-].
Qed.

(** The bytes of a chunk from a batch boundary on. *)
Lemma wal_tail e l1 l2 :
  wal_stored e (l1 ++ l2) → ∃ obj, objects !! e.(object) = Some obj ∧ len obj <= u64_MAX
    ∧ e.(byte_range).(range_end) <= len obj
    ∧ e.(byte_range).(range_end)
      = e.(byte_range).(range_start) + len (bytes_of l1) + len (bytes_of l2)
    ∧ slice obj (e.(byte_range).(range_start) + len (bytes_of l1)) (len (bytes_of l2)) = bytes_of l2.
Proof.
  intros [(obj & Eo & L1 & L2 & Es) Lr _ _ _ _]. exists obj. rewrite bytes_of_app in Es.
  pose proof (len_slice obj (range_start (byte_range e))
    (range_end (byte_range e) - range_start (byte_range e)) ltac:(lia)) as El.
  rewrite Es, len_app in El. split_and!; [done..|lia|].
  eapply (slice_mid _ _ _ _ _ []). by rewrite Es, app_nil_r.
Qed.

Lemma read_wal_spec st e l g o target :
  reader_ok st → met e l → ga_full g = false → gathered o target g →
  reads_target o (target ++ since o e.(base_offset) (records_of l)) e.(object) (read_wal st e g).
Proof.
  intros R M Fg G. pose proof (met_stored e l M) as W.
  pose proof (known_spec st e l R M) as K. unfold read_wal. cbv zeta in *.
  set (known := rs_chunk_batches st !! _) in *.
  destruct (wal_start_spec known e l g W K) as (l1 & l2 & -> & -> & K1).
  destruct (wal_tail e l1 l2 W) as (obj & Eo & Bo & Le & Er & Es). destruct W as [_ _ Fs _ We Wb].
  destruct (cache_read_cases (object e) obj (range_start (byte_range e) + len (bytes_of l1))
    (range_end (byte_range e)) Eo ltac:(lia) Le) as [-> | (err & -> & Cf)];
    [|split; [done|]; right; by exists err].
  replace (range_end (byte_range e) - _) with (len (bytes_of l2)) by lia. rewrite Es.
  apply Forall_app in Fs as [F1 F2]. rewrite (batches_stored l2 F2).
  rewrite records_of_app, len_app in We.
  set (base' := base_offset e + len (records_of l1)) in *.
  set (at' := range_start (byte_range e) + len (bytes_of l1)) in *.
  set (learned := if _ : bool then Some [] else None).
  destruct (wal_loop_spec o l2 base' at' g learned target) as (w & -> & Gw & Sw); [done|lia|lia|done|done|].
  assert (since o (base_offset e) (records_of (l1 ++ l2)) = since o base' (records_of l2)) as ->.
  { rewrite records_of_app, since_app. destruct l1 as [|x l1]; [done|].
    rewrite since_skip; [done|]. rewrite (gt_offset _ _ _ G) in K1. by apply K1. }
  assert (∀ k, learned = Some k → k = [] ∧ l1 = []) as Ek.
  { intros k. unfold learned. destruct (bool_decide_reflect (known = None)) as [Kn|]; [|done].
    destruct (_ =? _); intros [= <-]; (split; [done|]). destruct l1; [done|]. by destruct K1. }
  assert (∀ k, learned = Some k → reader_ok (insert_chunk st (object e, range_start (byte_range e))
    (k ++ bounds base' at' l2))) as Ins.
  { intros k [-> ->]%Ek. unfold base', at'. change (len (bytes_of [])) with 0.
    change (len (records_of [])) with 0. rewrite !N.add_0_r. by apply insert_chunk_ok. }
  clearbody learned. destruct (wl_stopped w) as [items|].
  - destruct Sw as (Fw & l3 & l4 & -> & -> & Eb & Ea & ->). split; [|left; by eexists].
    destruct learned as [k|]; [|done]. rewrite records_of_app, bytes_of_app, !len_app in *.
    cbn [fmap option_fmap option_map]. rewrite Eb, Ea, learn_rest_spec by lia.
    rewrite We, (proj2 (N.eqb_eq _ _)) by lia. rewrite <- app_assoc, <- bounds_app. by apply Ins.
  - destruct Sw as (Fw & -> & ->). rewrite We, (proj2 (N.eqb_eq _ _)) by lia.
    split; [|left; by eexists]. destruct learned; [by apply Ins|done].
Qed.
(** ** Segments *)

Context `{!CodecOk (list BatchIndexEntry) id}.

(** The object of a segment entry is the finished segment of the batches [l]. *)
Record seg_stored (st : StreamId) (pt : N) (e : IndexEntry) (b : SegmentBuilder) (l : list Item)
  : Prop := {
  ss_object : ∃ obj f, objects !! e.(object) = Some obj ∧ segment_finish b = Some (obj, f)
    ∧ len obj <= u64_MAX;
  ss_index : ∀ index, to_io b.(sb_batches) = Some index → len index <= u32_MAX;
  ss_built : built b l;
  ss_builder : builder_ok b;
  ss_of : b.(sb_stream) = st ∧ b.(sb_partition) = pt;
  ss_base : b.(sb_base_offset) = e.(base_offset);
  ss_end : b.(sb_next_offset) = end_offset e;
  ss_range : (footer_of b).(sf_data) = e.(byte_range);
  ss_nonempty : l ≠ [];
}.

Lemma slice_at {A} (l a b c : list A) k n :
  l = a ++ b ++ c → k = len a → n = len b → slice l k n = b.
Proof.
  intros -> -> ->. rewrite app_assoc, slice_app_l by (rewrite len_app; lia). by apply slice_app_r.
Qed.

Lemma len_segment_header b : len (put_segment_header b) = N.of_nat HEADER_LEN.
Proof. unfold len. by rewrite length_segment_header. Qed.

Lemma footer_spec st pt e b l rs :
  reader_ok rs → seg_stored st pt e b l →
  reader_ok (footer rs e.(object)).1
  ∧ ((footer rs e.(object)).2 = Ok (footer_of b)
     ∨ ∃ err, (footer rs e.(object)).2 = Err err ∧ cache_failed e.(object) err).
Proof.
  intros R [(obj & f & Eo & Fi & Bo) Li Bt Ob _ _ _ _ _].
  pose proof (segment_parse_finish b l obj f Ob Bt Fi Bo Li) as Pa.
  destruct (segment_pieces b l obj f Ob Bt Fi Bo Li)
    as (index & t & -> & Es & Lt & Lo & Pt & Ir & Pf & _).
  unfold footer. destruct (rs_footers rs !! object e) as [f|] eqn:Ef.
  { split; [done|]. left. cbn. destruct (ro_footers _ R _ _ Ef) as (obj' & Eo' & Pa'). congruence. }
  pose proof (len_segment_header b) as Lh.
  destruct (cache_size_cases _ obj Eo) as [-> | (err & -> & Cf)]; [|split; [done|right; by exists err]].
  rewrite (proj2 (N.ltb_ge _ _)) by lia.
  destruct (cache_read_cases _ obj (len obj - N.of_nat TRAILER_LEN) (len obj) Eo)
    as [-> | (err & -> & Cf)]; [lia|lia| |split; [done|right; by exists err]].
  rewrite (slice_at obj (put_segment_header b ++ sb_data b ++ index) (concat (trailer_fields t)) []);
    [|by rewrite app_nil_r, <- !app_assoc|rewrite !len_app; lia|lia].
  rewrite (proj2 (Nat.eqb_eq _ 40)) by (unfold len, TRAILER_LEN in Lt; lia). cbn [negb].
  rewrite Pt, Ir.
  destruct (cache_read_cases _ obj 0 (N.of_nat HEADER_LEN) Eo)
    as [-> | (err & -> & Cf)]; [lia|lia| |split; [done|right; by exists err]].
  rewrite (slice_at obj [] (put_segment_header b) _ _ _ Es) by (done || lia).
  destruct (cache_read_cases _ obj (N.of_nat HEADER_LEN + len (sb_data b))
    (N.of_nat HEADER_LEN + len (sb_data b) + len index) Eo)
    as [-> | (err & -> & Cf)]; [lia|lia| |split; [done|right; by exists err]].
  rewrite (slice_at obj (put_segment_header b ++ sb_data b) index (concat (trailer_fields t)));
    [|by rewrite <- app_assoc|rewrite len_app; lia|lia].
  rewrite Pf. split; [|by left]. destruct R as [C F]. split; cbn; [done|].
  intros p f [[<- <-]|[_ E]]%lookup_insert_Some; [by exists obj|by apply F].
Qed.

Definition stored_item (x : Item) : Stored := (x.(it_bytes), x.(it_records)).

Lemma bytes_of_items l : bytes_of (stored_item <$> l) = items_bytes l.
Proof. unfold bytes_of, items_bytes. by rewrite <- list_fmap_compose. Qed.
Lemma records_of_items l : records_of (stored_item <$> l) = items_records l.
Proof. unfold records_of, items_records. by rewrite <- list_fmap_compose. Qed.

Lemma items_stored o l : items_ok o l → Forall stored_ok (stored_item <$> l).
Proof.
  revert o. induction l as [|x l IH]; intros o; cbn; [done|]. intros [[Ho Fr _] I].
  constructor; [done|]. by eapply IH.
Qed.

Lemma plan_batches_bounds f mx todo i lst planned :
  (lst <= i)%nat → (lst <= plan_batches f mx todo i lst planned < S lst `max` (i + todo))%nat.
Proof.
  revert i lst planned. induction todo as [|todo IH]; intros i lst planned L; cbn [plan_batches]; [lia|].
  destruct (_ && _); [lia|]. specialize (IH (S i) i
    (u64_add planned (u64_sub (range_end (batch_range f i)) (range_start (batch_range f i)))) ltac:(lia)).
  lia.
Qed.
Lemma items_records_cons x l : items_records (x :: l) = x.(it_records) ++ items_records l.
Proof. done. Qed.

(** The batches [mid] of a segment are added in turn, until one does not fit. *)
Lemma segment_loop_spec b pre mid post o target g :
  built b (pre ++ mid ++ post) → N.of_nat HEADER_LEN + len b.(sb_data) <= u64_MAX →
  ga_full g = false → gathered o target g →
  (∀ x, head mid = Some x →
     o < b.(sb_base_offset) + len (items_records pre) + len x.(it_records)) →
  ∃ g' all, segment_loop (footer_of b) (length mid) (length pre) (items_of (stored_item <$> mid)) g
            = Ok (g', all)
    ∧ gathered o (target ++ since o (b.(sb_base_offset) + len (items_records pre)) (items_records mid)) g'
    ∧ ga_full g' = negb all ∧ (mid ≠ [] → ga_records g' ≠ []).
Proof.
  revert pre g target. induction mid as [|x mid IH]; intros pre g target Bt Bd Fg G Hx.
  { exists g, true. cbn. by rewrite app_nil_r. }
  specialize (Hx x eq_refl). rewrite items_records_cons, since_app.
  pose proof (batch_matches_item b pre x (mid ++ post) Bt Bd) as Bm. unfold batch_matches in Bm.
  cbv zeta in Bm. apply andb_true_iff in Bm as [[M1 M2]%andb_true_iff _].
  rewrite fmap_cons, items_of_cons. cbn [length segment_loop stored_item fst snd]. rewrite M1, M2. cbn [negb orb].
  assert (sf_batches (footer_of b) !! length pre = Some {|
    bi_base_offset := sb_base_offset b + len (items_records pre);
    bi_position := N.of_nat HEADER_LEN + len (items_bytes pre);
    bi_max_timestamp_ms := it_timestamp x |}) as ->
    by (cbn [footer_of sf_batches]; rewrite (bt_index _ _ Bt); apply layout_split).
  assert (item_ok (sb_base_offset b + len (items_records pre)) x) as Ix
    by (pose proof (bt_items _ _ Bt) as I; by apply items_ok_app in I as [_ [I _]]).
  assert (sb_base_offset b + len (items_records pre) + len (it_records x) <= u64_MAX) as Bx.
  { pose proof (bt_next _ _ Bt) as Nx. pose proof (bt_bound _ _ Bt).
    rewrite items_records_app in Nx. cbn [app] in Nx. rewrite items_records_cons, !len_app in Nx. lia. }
  cbn [batch_ref br_bytes bi_base_offset].
  destruct (fits g (len (it_bytes x))) eqn:Ft.
  - destruct (gather_add_spec o target g (stored_item x) (sb_base_offset b + len (items_records pre)))
      as (g1 & Ea & Fg1 & Ng1 & G1); [by destruct Ix|done|done|done|done|].
    cbn [stored_item fst snd] in Ea, G1. rewrite Ea.
    assert (items_records (pre ++ [x]) = items_records pre ++ it_records x) as Epx
      by (rewrite items_records_app; cbn; by rewrite app_nil_r).
    destruct (IH (pre ++ [x]) g1 _ ltac:(by rewrite <- app_assoc) Bd Fg1 G1) as (g' & all & El & G' & Fg' & N').
    { intros y Hy. rewrite Epx, len_app. lia. }
    rewrite length_app, Nat.add_comm in El. cbn in El. rewrite Epx, len_app, N.add_assoc in G'.
    exists g', all. rewrite app_assoc. split_and!; try done. intros _. destruct mid; [|by apply N'].
    injection El as <- <-. done.
  - pose proof (gathered_full o target g _ Fg Ft G) as G'. exists (set_full g), false.
    split; [done|]. split; [by apply gathered_more|]. split; [done|]. intros _. apply G'.
Qed.

(** The batch holding an offset splits the batches of the segment. *)
Lemma segment_split b l o :
  built b l → b.(sb_base_offset) <= o < b.(sb_next_offset) → ∃ pre x post, l = pre ++ x :: post
    ∧ batch_index_for (footer_of b) o = Some (length pre)
    ∧ b.(sb_base_offset) + len (items_records pre) <= o
      < b.(sb_base_offset) + len (items_records pre) + len x.(it_records).
Proof.
  intros Bt L. destruct (batch_index_spec (footer_of b) o (built_check b l Bt) L) as (i & y & Ei & Ey & Ly).
  cbn [footer_of sf_batches] in Ey. unfold batch_end_offset in Ly.
  cbn [footer_of sf_batches sf_end_offset] in Ly. rewrite (bt_index _ _ Bt) in Ey, Ly.
  pose proof (lookup_lt_Some _ _ _ Ey) as Li. rewrite length_layout in Li.
  destruct (lookup_lt_is_Some_2 l i Li) as [x Ex]. apply list_elem_of_split_length in Ex as (pre & post & -> & ->).
  exists pre, x, post. split_and!; [done|done| |].
  - rewrite layout_split in Ey. injection Ey as <-. apply Ly.
  - pose proof (layout_next (sb_base_offset b) (N.of_nat HEADER_LEN) (pre ++ [x]) post) as [En _].
    rewrite <- app_assoc in En. cbn [app] in En. rewrite length_app, Nat.add_comm in En. cbn [length Nat.add] in En.
    rewrite (bt_next _ _ Bt), En, items_records_app, len_app in Ly.
    assert (items_records [x] = it_records x) as E by (cbn; by rewrite app_nil_r).
    rewrite E in Ly. lia.
Qed.
Lemma since_before o base l : base + len l <= N.max o base → since o base l = [].
Proof.
  intros L. destruct (decide (o <= base)) as [Lo|Lo]; [|apply since_skip; lia].
  destruct l; [done|]. rewrite len_cons in L. lia.
Qed.

(** The byte range of consecutive batches. *)
Lemma batch_ranges b pre mid post :
  built b (pre ++ mid ++ post) → mid ≠ [] →
  (batch_range (footer_of b) (length pre)).(range_start) = N.of_nat HEADER_LEN + len (items_bytes pre)
  ∧ (batch_range (footer_of b) (length pre + length mid - 1)).(range_end)
    = N.of_nat HEADER_LEN + len (items_bytes pre) + len (items_bytes mid).
Proof.
  intros Bt N. destruct mid as [|x mid]; [done|].
  unfold batch_range. cbn [footer_of sf_batches sf_data range_start range_end].
  rewrite (bt_index _ _ Bt), (bt_data _ _ Bt). split.
  - cbn [app]. by rewrite layout_split.
  - pose proof (layout_next (sb_base_offset b) (N.of_nat HEADER_LEN) (pre ++ x :: mid) post) as [_ En].
    rewrite length_app, <- app_assoc in En. cbn [length app] in *.
    replace (S (length pre + S (length mid) - 1)) with (length pre + S (length mid))%nat by lia.
    rewrite En, items_bytes_app, len_app. lia.
Qed.

(** The run [mid] of the batches stands for the whole segment: what is before it is below the
    offset, and what is after it makes the gather full. *)
Lemma read_run b pre mid post o target g :
  built b (pre ++ mid ++ post) → N.of_nat HEADER_LEN + len b.(sb_data) <= u64_MAX → mid ≠ [] →
  ga_full g = false → gathered o target g →
  b.(sb_base_offset) + len (items_records pre) <= N.max o b.(sb_base_offset) →
  (∀ x, head mid = Some x →
     o < b.(sb_base_offset) + len (items_records pre) + len x.(it_records)) →
  ∃ g' all, segment_loop (footer_of b) (length mid) (length pre) (items_of (stored_item <$> mid)) g
            = Ok (g', all)
    ∧ gathered o (target ++ since o b.(sb_base_offset) (items_records (pre ++ mid ++ post)))
        (if all && (length pre + length mid <? length (sf_batches (footer_of b)))%nat
         then set_full g' else g').
Proof.
  intros Bt Bd Nm Fg G Lp Hx.
  destruct (segment_loop_spec b pre mid post o target g Bt Bd Fg G Hx) as (g' & all & El & G' & Fg' & N').
  exists g', all. split; [done|]. rewrite !items_records_app, !since_app, (since_before o _ _ Lp), app_nil_l.
  cbn [footer_of sf_batches]. rewrite (bt_index _ _ Bt), length_layout, !length_app.
  destruct all; cbn [andb negb] in *.
  - destruct (Nat.ltb_spec (length pre + length mid) (length pre + (length mid + length post))).
    + rewrite app_assoc. apply gathered_more; [done|]. apply gathered_set_full; auto.
    + destruct post; [|cbn in *; lia]. cbn. by rewrite app_nil_r.
  - rewrite app_assoc. by apply gathered_more.
Qed.

(** A segment read from the batch holding the offset to the last planned one. *)
Lemma read_segment_spec st pt e b l rs request g o target :
  reader_ok rs → seg_stored st pt e b l → fr_stream request = st → fr_partition request = pt →
  ga_full g = false → gathered o target g → o < end_offset e →
  reads_target o (target ++ since o e.(base_offset) (items_records l)) e.(object)
    (read_segment rs request e g).
Proof.
  intros R Sg Es Ep Fg G Lo. pose proof (footer_spec st pt e b l rs R Sg) as [R' Fo].
  unfold read_segment. destruct (footer rs (object e)) as [rs1 r]. cbn [fst snd] in R', Fo.
  destruct Fo as [-> | (err & -> & Cf)]; [|split; [done|right; by exists err]].
  destruct Sg as [(obj & f & Eo & Fi & Bo) Li Bt Ob [So Po] Eb Ee Er Nl].
  destruct (segment_pieces b l obj f Ob Bt Fi Bo Li) as (index & t & -> & Eobj & _ & Lobj & _).
  change (sf_stream (footer_of b)) with (sb_stream b).
  change (sf_partition (footer_of b)) with (sb_partition b).
  change (sf_base_offset (footer_of b)) with (sb_base_offset b).
  change (sf_end_offset (footer_of b)) with (sb_next_offset b).
  rewrite So, Po, Es, Ep, Eb, Ee, !N.eqb_refl, bool_decide_eq_true_2 by done. cbn [negb orb].
  rewrite (gt_offset _ _ _ G).
  assert (base_offset e < end_offset e) as Lb.
  { rewrite <- Eb, <- Ee, (bt_next _ _ Bt). destruct l as [|x l]; [done|].
    destruct (bt_items _ _ Bt) as [Ix _]. apply item_nonempty in Ix.
    rewrite items_records_cons, len_app. lia. }
  destruct (segment_split b l (N.max o (base_offset e)) Bt) as (pre & x & post & -> & -> & Lp); [lia|].
  cbn [ok_or].
  pose proof (plan_batches_bounds (footer_of b) (ga_max_bytes g)
    (length (sf_batches (footer_of b)) - length pre) (length pre) (length pre) (ga_bytes g) (le_n _)) as Pl.
  generalize dependent (plan_batches (footer_of b) (ga_max_bytes g)
    (length (sf_batches (footer_of b)) - length pre) (length pre) (length pre) (ga_bytes g)).
  intros lst Pl. assert (length (sf_batches (footer_of b)) = length (pre ++ x :: post)) as Ls
    by (cbn [footer_of sf_batches]; by rewrite (bt_index _ _ Bt), length_layout).
  rewrite Ls, length_app in Pl. cbn [length] in Pl.
  set (mid := x :: take (lst - length pre) post). set (post' := drop (lst - length pre) post).
  assert (x :: post = mid ++ post') as Em by (unfold mid, post'; cbn; by rewrite take_drop).
  assert (length mid = S lst - length pre)%nat as Lm by (cbn; rewrite length_take; lia).
  rewrite Em in *. destruct (batch_ranges b pre mid post' Bt ltac:(done)) as [-> Ere].
  replace (length pre + length mid - 1)%nat with lst in Ere by lia. rewrite Ere.
  pose proof (bt_data _ _ Bt) as Ed. rewrite !items_bytes_app in Ed.
  pose proof (f_equal len Ed) as Ld. rewrite !len_app in Ld.
  destruct (cache_read_cases _ obj (N.of_nat HEADER_LEN + len (items_bytes pre))
    (N.of_nat HEADER_LEN + len (items_bytes pre) + len (items_bytes mid)) Eo)
    as [-> | (err & -> & Cf)]; [lia|lia| |split; [done|right; by exists err]].
  rewrite (slice_at obj (put_segment_header b ++ items_bytes pre) (items_bytes mid)
    (items_bytes post' ++ index ++ concat (trailer_fields t)));
    [|by rewrite Eobj, Ed, <- !app_assoc
     |rewrite len_app, len_segment_header; lia|lia].
  rewrite <- (bytes_of_items mid), batches_stored.
  2: { pose proof (bt_items _ _ Bt) as [_ [I _]%items_ok_app]%items_ok_app. by eapply items_stored. }
  rewrite <- Lm. rewrite Eb in Lp.
  destruct (read_run b pre mid post' o target g Bt) as (g' & all & -> & G'); rewrite ?Eb; try done; try lia.
  { intros y [= <-]. lia. }
  split; [done|]. left. eexists. split; [done|].
  rewrite Eb in G'. replace (S lst) with (length pre + length mid)%nat by lia. done.
Qed.
(** ** Entries in turn *)

(** The records of an index entry are in its object. *)
Inductive entry_stored (st : StreamId) (pt : N) (e : IndexEntry) : list LogRecord → Prop :=
  | stored_wal l : e.(entry_kind) = Wal → met e l → entry_stored st pt e (records_of l)
  | stored_segment b l : e.(entry_kind) = Segment → seg_stored st pt e b l →
      entry_stored st pt e (items_records l).

(** A run of entries that follow each other from [base] on. *)
Fixpoint run_stored (st : StreamId) (pt : N) (base : N) (es : list IndexEntry)
    (rss : list (list LogRecord)) : Prop :=
  match es, rss with
  | [], [] => True
  | e :: es, recs :: rss =>
      e.(base_offset) = base ∧ entry_stored st pt e recs ∧ run_stored st pt (base + len recs) es rss
  | _, _ => False
  end.

Lemma entry_stored_end st pt e recs :
  entry_stored st pt e recs → end_offset e = e.(base_offset) + len recs ∧ recs ≠ [].
Proof.
  intros [l K M|b l K [_ _ Bt _ _ Eb Ee _ N]].
  - destruct (met_stored e l M) as [_ _ F N E _]. split; [done|].
    destruct F as [|x l [[_ Nx]%holds_nonempty _] F]; [done|]. rewrite records_of_cons. by destruct x.2.
  - rewrite <- Eb, <- Ee. split; [apply (bt_next _ _ Bt)|]. destruct l as [|x l]; [done|].
    destruct (bt_items _ _ Bt) as [[[_ Nx]%holds_nonempty _ _] _]. rewrite items_records_cons.
    by destruct (it_records x).
Qed.

Lemma read_entry_spec rs request e recs g o target :
  reader_ok rs → entry_stored (fr_stream request) (fr_partition request) e recs →
  ga_full g = false → gathered o target g → o < e.(base_offset) + len recs →
  reads_target o (target ++ since o e.(base_offset) recs) e.(object)
    (match e.(entry_kind) with
     | Wal => read_wal rs e g
     | Segment => read_segment rs request e g
     end).
Proof.
  intros R S Fg G Lo. pose proof (entry_stored_end _ _ _ _ S) as [Ee _].
  destruct S as [l K M|b l K S]; rewrite K.
  - by apply read_wal_spec.
  - eapply read_segment_spec; try done. lia.
Qed.

Lemma read_entries_spec rs request es rss base g o target :
  reader_ok rs → run_stored (fr_stream request) (fr_partition request) base es rss →
  ga_full g = false → gathered o target g →
  (∀ recs, head rss = Some recs → o < base + len recs) →
  let out := read_entries rs request es g in
  reader_ok out.1
  ∧ ((∃ g', out.2 = Ok g'.(ga_records) ∧ gathered o (target ++ since o base (concat rss)) g')
     ∨ ∃ e err, e ∈ es ∧ out.2 = Err err ∧ cache_failed e.(object) err).
Proof.
  revert rs rss base g target. induction es as [|e es IH]; intros rs rss base g target R S Fg G Lo.
  { destruct rss; [|done]. split; [done|]. left. exists g. cbn. by rewrite app_nil_r. }
  destruct rss as [|recs rss]; [done|]. destruct S as (<- & S & Ss). specialize (Lo _ eq_refl).
  destruct (read_entry_spec rs request e recs g o target R S Fg G Lo) as [R' Out].
  cbn [read_entries]. destruct (match entry_kind e with Wal => _ | Segment => _ end) as [rs1 r].
  cbn [fst snd] in R', Out. destruct Out as [(g1 & -> & G1)|(err & -> & Cf)].
  2: { split; [done|]. right. exists e, err. split; [left|done]. }
  cbn [concat]. rewrite since_app, app_assoc. destruct (ga_full g1) eqn:Fg1.
  - split; [done|]. left. exists g1. split; [done|]. by apply gathered_more.
  - destruct (IH rs1 rss (base_offset e + len recs) g1 _ R' Ss Fg1 G1) as [R2 Out].
    { intros recs' E. destruct rss as [|recs2 rss]; [done|]. injection E as ->. lia. }
    split; [done|]. destruct Out as [Out|(e' & err & I & Out)]; [by left|right].
    exists e', err. split; [by right|done].
Qed.

(** What [read] returns of stored entries, the first holding the offset: a run of records from
    the offset on, at least one. *)
Lemma read_spec rs request p base rss :
  reader_ok rs →
  run_stored (fr_stream request) (fr_partition request) base p.(pl_entries) rss →
  (∀ recs, head rss = Some recs → fr_offset request < base + len recs) →
  let out := read rs request p in
  reader_ok out.1
  ∧ ((∃ records, out.2 = Ok records
        ∧ records `prefix_of` since (fr_offset request) base (concat rss)
        ∧ (rss ≠ [] → records ≠ []))
     ∨ ∃ e err, e ∈ p.(pl_entries) ∧ out.2 = Err err ∧ cache_failed e.(object) err).
Proof.
  intros R S Lo. unfold read.
  destruct (read_entries_spec rs request (pl_entries p) rss base
    {| ga_offset := fr_offset request; ga_max_bytes := fr_max_bytes request; ga_bytes := 0;
       ga_records := []; ga_full := false |} (fr_offset request) [] R S eq_refl) as [R' Out]; [|done|].
  { by split. }
  split; [done|]. destruct Out as [(g' & E & [_ Gr _])|Out]; [left|by right].
  exists (ga_records g'). split; [done|]. cbn [app] in Gr. destruct (ga_full g'); [by destruct Gr|].
  rewrite Gr. split; [done|]. intros N. destruct rss as [|recs rss]; [done|].
  destruct (pl_entries p) as [|e es]; [done|]. destruct S as (<- & Se & _).
  apply entry_stored_end in Se as [_ Nr]. cbn [concat]. rewrite since_app.
  intros [E'%since_nonempty _]%app_eq_nil; auto.
Qed.
End laws.
