(* ===== verification/LogWriter.v ===== *)
(** * The write path (loams-log/src/writer.rs)

    Appends are encoded and buffered; a flush takes the whole buffer, writes it as one WAL object,
    commits the object and answers every append with its offsets.  The calls and the flush task
    are functions on the [WriterState] behind the mutex: what they send on a oneshot channel is a
    list of answers, a channel is a number, and what the metastore, the object store and the clock
    answer are arguments. *)

From Stdlib Require Import NArith ZArith Lia.
From stdpp Require Import prelude gmap strings numbers list.
From S2P Require Import Prelude.
From S2P Require Import BTree.
From S2P Require Import ByteCodec.
From S2P Require Import Ids.
From S2P Require Import MetaTypes.
From S2P Require Import Paths.
From S2P Require Import LogBatch.
From S2P Require Import LogWal.

Open Scope N_scope.

(** ** Configuration; durations are in nanoseconds *)

Definition from_millis (n : N) : N := n * 1000000.
Definition from_secs (n : N) : N := n * 1000000000.

Record LogConfig := {
  lc_node_id : N;
  lc_flush_interval : N;
  lc_flush_bytes : N;
  lc_max_buffered_bytes : N;
  lc_commit_retry_deadline : N;
  lc_max_batch_records : N;
}.

(** [LogConfig::new] *)
Definition LogConfig_new (node_id : N) : LogConfig :=
  {| lc_node_id := node_id;
     lc_flush_interval := from_millis 250;
     lc_flush_bytes := 8 * 1024 * 1024;
     lc_max_buffered_bytes := 64 * 1024 * 1024;
     lc_commit_retry_deadline := from_secs 60;
     lc_max_batch_records := 10000 |}.

Definition MAX_COMMIT_RETRY_DEADLINE : N := from_millis (WAL_COMMIT_WINDOW_MS / 3).

(** [LogConfig::validate] *)
Definition validate_config (c : LogConfig) : Result () LogError :=
  REFUSE (c.(lc_max_batch_records) =? 0) || (c.(lc_flush_bytes) =? 0)
         || (c.(lc_max_buffered_bytes) =? 0)
    WITH InvalidArgument "max_batch_records, flush_bytes and max_buffered_bytes must be at least 1" ;;
  REFUSE MAX_COMMIT_RETRY_DEADLINE <? c.(lc_commit_retry_deadline)
    WITH InvalidArgument "commit_retry_deadline must be at most {MAX_COMMIT_RETRY_DEADLINE:?}, got {:?}" ;;
  Ok ().

Record AppendAck := {
  ak_stream : StreamId;
  ak_partition : N;
  ak_base_offset : N;
  ak_last_offset : N;
}.

Definition COMMIT_BACKOFF : N := from_millis 50.
Definition COMMIT_MAX_BACKOFF : N := from_secs 1.

(** ** State *)

(** The sending end of a oneshot channel. *)
Abbreviation Sender := N (only parsing).

Record Pending := {
  pd_stream : StreamId;
  pd_partition : N;
  pd_batch : Bytes;
  pd_records : N;
  pd_max_timestamp_ms : Z;
  pd_reply : Sender;
}.

Record WriterState := {
  ws_pending : list Pending;
  ws_pending_bytes : N;
  ws_inflight_bytes : N;
  ws_opened_at : option N;
  ws_flush_waiters : list Sender;
  ws_flushing : bool;
  ws_inflight_waiters : list Sender;
  ws_closed : bool;
  ws_stopped : bool;
}.

Definition WriterState_default : WriterState :=
  {| ws_pending := []; ws_pending_bytes := 0; ws_inflight_bytes := 0; ws_opened_at := None;
     ws_flush_waiters := []; ws_flushing := false; ws_inflight_waiters := []; ws_closed := false;
     ws_stopped := false |}.

(** [State::add_waiter] *)
Definition add_waiter (s : WriterState) (waiter : Sender) : WriterState :=
  let inflight := bool_decide (s.(ws_pending) = []) && s.(ws_flushing) in
  {| ws_pending := s.(ws_pending); ws_pending_bytes := s.(ws_pending_bytes);
     ws_inflight_bytes := s.(ws_inflight_bytes); ws_opened_at := s.(ws_opened_at);
     ws_flush_waiters := if inflight then s.(ws_flush_waiters) else s.(ws_flush_waiters) ++ [waiter];
     ws_flushing := s.(ws_flushing);
     ws_inflight_waiters := if inflight then s.(ws_inflight_waiters) ++ [waiter]
                            else s.(ws_inflight_waiters);
     ws_closed := s.(ws_closed); ws_stopped := s.(ws_stopped) |}.

Definition set_closed (s : WriterState) : WriterState :=
  {| ws_pending := s.(ws_pending); ws_pending_bytes := s.(ws_pending_bytes);
     ws_inflight_bytes := s.(ws_inflight_bytes); ws_opened_at := s.(ws_opened_at);
     ws_flush_waiters := s.(ws_flush_waiters); ws_flushing := s.(ws_flushing);
     ws_inflight_waiters := s.(ws_inflight_waiters); ws_closed := true;
     ws_stopped := s.(ws_stopped) |}.

(** [FlushFailure] *)
Inductive FlushFailure :=
  | FailStore (e : StoreError.t)
  | FailRejected (e : ApplyError)
  | FailClockSkew (stamped_ms leader_ms : N)
  | FailUnknown (what : string).

(** [FlushFailure::to_error] *)
Definition to_error (f : FlushFailure) : LogError :=
  match f with
  | FailStore e => LogStore e
  | FailRejected e => LogMeta (MetaError.Rejected e)
  | FailClockSkew stamped leader => LogMeta (MetaError.ClockSkew stamped leader)
  | FailUnknown what => CommitUnknown what
  end.

(** ** Appending *)

(** The request check of [append_many]: [seen] has the partitions of the batches so far. *)
Fixpoint check_batches (c : LogConfig) (batches : list (N * list LogRecord)) (seen : gmap N ())
  : Result (gmap N ()) LogError :=
  match batches with
  | [] => Ok seen
  | (partition, records) :: batches =>
      REFUSE bool_decide (records = [])
        WITH InvalidArgument "the batch for partition {partition} needs at least one record" ;;
      REFUSE bool_decide (is_Some (seen !! partition))
        WITH InvalidArgument "partition {partition} appears more than once in one append" ;;
      REFUSE c.(lc_max_batch_records) <? len records
        WITH InvalidArgument "a batch holds at most {} records, got {} for partition {partition}" ;;
      check_batches c batches (<[partition := ()]> seen)
  end.

(** A record with a negative timestamp gets the writer's clock. *)
Definition stamp (now : Z) (r : LogRecord) : LogRecord :=
  if (r.(rec_timestamp_ms) <? 0)%Z
  then {| rec_key := r.(rec_key); rec_value := r.(rec_value); rec_headers := r.(rec_headers);
          rec_timestamp_ms := now |}
  else r.

(** [records.iter().map(|r| r.timestamp_ms).max().unwrap_or(now)] *)
Definition max_stamp (now : Z) (records : list LogRecord) : Z :=
  match records with
  | [] => now
  | first :: rest => max_timestamp first rest
  end.

(** A batch, encoded: its partition, bytes, record count and newest timestamp. *)
Record Encoded := {
  en_partition : N;
  en_batch : Bytes;
  en_records : N;
  en_max_timestamp_ms : Z;
}.

Section writer.
Context `{Crc32c} `{Codec (list ChunkMeta)}.

(** The encoding loop of [append_many]. *)
Fixpoint encode_batches (now : Z) (batches : list (N * list LogRecord)) : Result (list Encoded) LogError :=
  match batches with
  | [] => Ok []
  | (partition, records) :: batches =>
      let records := stamp now <$> records in
      LET batch <- encode records ;;
      LET count <- ok_or (u32_try_from (len records)) (InvalidArgument "too many records") ;;
      LET rest <- encode_batches now batches ;;
      Ok ({| en_partition := partition; en_batch := batch; en_records := count;
             en_max_timestamp_ms := max_stamp now records |} :: rest)
  end.

(** [i64::try_from(now_ms).unwrap_or(i64::MAX)] *)
Definition clock_i64 (now_ms : N) : Z :=
  if (Z.of_N now_ms <=? i64_MAX)%Z then Z.of_N now_ms else i64_MAX.

(** [encoded.iter().map(|(_, batch, _, _)| batch.len()).sum()] *)
Definition encoded_bytes (encoded : list Encoded) : N :=
  foldl (λ n e, u64_add n (len e.(en_batch))) 0 encoded.

(** What the lock of [append_many] covers: [replies] are the channels made, one for each batch. *)
Definition buffer (c : LogConfig) (s : WriterState) (now : N) (stream : StreamId)
    (encoded : list Encoded) (replies : list Sender) : WriterState * Result () LogError :=
  let bytes := encoded_bytes encoded in
  let limit := c.(lc_max_buffered_bytes) in
  BAIL s.(ws_closed) WITH Closed IN s ;;
  BAIL limit <? bytes
    WITH InvalidArgument "an append of {bytes} bytes exceeds the buffer limit of {limit} bytes" IN s ;;
  BAIL limit <? u64_add (u64_add s.(ws_pending_bytes) s.(ws_inflight_bytes)) bytes
    WITH Backpressure IN s ;;
  ({| ws_pending := s.(ws_pending) ++ zip_with (λ e reply,
        {| pd_stream := stream; pd_partition := e.(en_partition); pd_batch := e.(en_batch);
           pd_records := e.(en_records); pd_max_timestamp_ms := e.(en_max_timestamp_ms);
           pd_reply := reply |}) encoded replies;
      ws_pending_bytes := u64_add s.(ws_pending_bytes) bytes;
      ws_inflight_bytes := s.(ws_inflight_bytes);
      ws_opened_at := Some (default now s.(ws_opened_at));
      ws_flush_waiters := s.(ws_flush_waiters); ws_flushing := s.(ws_flushing);
      ws_inflight_waiters := s.(ws_inflight_waiters); ws_closed := s.(ws_closed);
      ws_stopped := s.(ws_stopped) |}, Ok ()).

(** [LogWriter::append_many], up to the wait for the answers: [known] is what the metastore read
    returns, [now_ms] its clock, [now] the instant. *)
Definition append_many (c : LogConfig) (s : WriterState) (stream : StreamId)
    (batches : list (N * list LogRecord)) (known : Result (option Stream) MetaError.t)
    (now_ms now : N) (replies : list Sender) : WriterState * Result () LogError :=
  BAIL bool_decide (batches = []) WITH InvalidArgument "an append needs at least one batch" IN s ;;
  TRY seen <- check_batches c batches ∅ IN s ;;
  TRY known <- map_err LogMeta known IN s ;;
  TRY st <- ok_or known (UnknownStream stream) IN s ;;
  match filter (λ p, st.(stream_partitions) <= p) (btree_iter seen).*1 with
  | partition :: _ => (s, Err (UnknownPartition stream partition))
  | [] =>
      BAIL negb (bool_decide (st.(stream_class) = Standard))
        WITH InvalidArgument "stream {stream} uses WAL class {class:?}, which this build does not serve"
        IN s ;;
      TRY encoded <- encode_batches (clock_i64 now_ms) batches IN s ;;
      buffer c s now stream encoded replies
  end.

(** The answer of [append_many], once its channels were answered: the first error is the error, a
    dropped channel is [None]. *)
Fixpoint collect_acks (answers : list (option (Result AppendAck LogError)))
  : Result (list AppendAck) LogError :=
  match answers with
  | [] => Ok []
  | answer :: answers =>
      LET ack <- default (Err (CommitUnknown "the writer stopped before answering")) answer ;;
      LET acks <- collect_acks answers ;;
      Ok (ack :: acks)
  end.

(** [LogWriter::append]'s answer from that of [append_many]. *)
Definition append_answer (r : Result (list AppendAck) LogError) : Result AppendAck LogError :=
  LET acks <- r ;; ok_or (last acks) (CommitUnknown "no acknowledgement for an append").

(** ** The flush task *)

Record Job := {
  jb_pending : list Pending;
  jb_bytes : N;
  jb_waiters : list Sender;
}.

Inductive Next :=
  | Flush (job : Job)
  | Wait (deadline : option N)
  | Exit.

(** What a flush caller is sent. *)
Abbreviation Told := (list (Sender * Result () LogError)) (only parsing).

(** [LogWriter::flush]: the answer when the task has stopped, else it waits on its channel. *)
Definition flush_call (s : WriterState) (waiter : Sender) : WriterState * option (Result () LogError) :=
  if s.(ws_stopped) then (s, Some (Ok ())) else (add_waiter s waiter, None).

(** [LogWriter::shutdown]: the same, after closing. *)
Definition shutdown_call (s : WriterState) (waiter : Sender) : WriterState * option (Result () LogError) :=
  let s := set_closed s in
  if s.(ws_stopped) then (s, Some (Ok ())) else (add_waiter s waiter, None).

(** [next] *)
Definition next (c : LogConfig) (s : WriterState) (now : N) : WriterState * Told * Next :=
  match s.(ws_pending) with
  | [] =>
      let told := (λ w, (w, Ok ())) <$> s.(ws_flush_waiters) in
      let s' stopped := {| ws_pending := s.(ws_pending); ws_pending_bytes := s.(ws_pending_bytes);
         ws_inflight_bytes := s.(ws_inflight_bytes); ws_opened_at := s.(ws_opened_at);
         ws_flush_waiters := []; ws_flushing := s.(ws_flushing);
         ws_inflight_waiters := s.(ws_inflight_waiters); ws_closed := s.(ws_closed);
         ws_stopped := stopped |} in
      if s.(ws_closed) then (s' true, told, Exit) else (s' s.(ws_stopped), told, Wait None)
  | _ :: _ =>
      let deadline := (λ opened, opened + c.(lc_flush_interval)) <$> s.(ws_opened_at) in
      let due := s.(ws_closed) || negb (bool_decide (s.(ws_flush_waiters) = []))
                 || (c.(lc_flush_bytes) <=? s.(ws_pending_bytes))
                 || match deadline with Some d => d <=? now | None => true end in
      if negb due then (s, [], Wait deadline)
      else
        ({| ws_pending := []; ws_pending_bytes := 0;
            ws_inflight_bytes := u64_add s.(ws_inflight_bytes) s.(ws_pending_bytes);
            ws_opened_at := None; ws_flush_waiters := []; ws_flushing := true;
            ws_inflight_waiters := s.(ws_inflight_waiters); ws_closed := s.(ws_closed);
            ws_stopped := s.(ws_stopped) |},
         [], Flush {| jb_pending := s.(ws_pending); jb_bytes := s.(ws_pending_bytes);
                      jb_waiters := s.(ws_flush_waiters) |})
  end.

(** The end of a turn of [run], when its flush answered [result]. *)
Definition flushed (s : WriterState) (job : Job) (result : Result () FlushFailure) : WriterState * Told :=
  ({| ws_pending := s.(ws_pending); ws_pending_bytes := s.(ws_pending_bytes);
      ws_inflight_bytes := u64_sub s.(ws_inflight_bytes) job.(jb_bytes);
      ws_opened_at := s.(ws_opened_at); ws_flush_waiters := s.(ws_flush_waiters);
      ws_flushing := false; ws_inflight_waiters := []; ws_closed := s.(ws_closed);
      ws_stopped := s.(ws_stopped) |},
   (λ w, (w, map_err to_error result)) <$> (job.(jb_waiters) ++ s.(ws_inflight_waiters))).

(** [flush]: what it answers the appends, of the outcome of [write_and_commit]. *)
Definition flush_replies (pending : list Pending) (outcome : Result (list AppendAck) FlushFailure)
  : list (Sender * Result AppendAck LogError) :=
  match outcome with
  | Ok acks => zip_with (λ p ack, (p.(pd_reply), Ok ack)) pending acks
  | Err failure => (λ p, (p.(pd_reply), Err (to_error failure))) <$> pending
  end.

(** ** Writing and committing *)

(** The object builder of [write_and_commit] after its push loop. *)
Definition wal_of (c : LogConfig) (ulid : Bytes) (pending : list Pending) : WalObjectBuilder :=
  foldl (λ b p, wal_push b p.(pd_stream) p.(pd_partition) p.(pd_batch) p.(pd_records)
                  p.(pd_max_timestamp_ms))
    (wal_new c.(lc_node_id) Standard ulid) pending.

(** A chunk of the commit, from the object's index. *)
Definition chunk_of (m : ChunkMeta) : WalChunk :=
  {| chunk_stream := m.(cm_stream); chunk_partition := m.(cm_partition);
     chunk_records := m.(cm_records); chunk_byte_range := chunk_range m;
     chunk_max_timestamp_ms := m.(cm_max_timestamp_ms) |}.

(** The acknowledgement loop: [next] has the next offset of each chunk. *)
Fixpoint ack_all (next : gmap (StreamId * N) N) (pending : list Pending)
  : Result (list AppendAck) FlushFailure :=
  match pending with
  | [] => Ok []
  | p :: pending =>
      let key := (p.(pd_stream), p.(pd_partition)) in
      LET base_offset <- ok_or (next !! key) (FailUnknown "chunk missing for an append") ;;
      LET acks <- ack_all (<[key := u64_add base_offset p.(pd_records)]> next) pending ;;
      Ok ({| ak_stream := p.(pd_stream); ak_partition := p.(pd_partition);
             ak_base_offset := base_offset;
             ak_last_offset := u64_sub (u64_add base_offset p.(pd_records)) 1 |} :: acks)
  end.

(** The acknowledgements of [write_and_commit], of the base offsets the metastore answered. *)
Definition acks_of (metas : list ChunkMeta) (base_offsets : list N) (pending : list Pending)
  : Result (list AppendAck) FlushFailure :=
  REFUSE negb (length base_offsets =? length metas)%nat
    WITH FailUnknown "the metastore returned {} offsets for {} chunks" ;;
  ack_all (list_to_map (reverse (zip_with (λ m base, ((m.(cm_stream), m.(cm_partition)), base))
                                   metas base_offsets))) pending.

(** [Tracked<Vec<u64>>] *)
Record Tracked := {
  tk_result : Result (list N) MetaError.t;
  tk_earlier_unknown : bool;
}.

(** An attempt of [commit]: what the metastore answers, and the time that is left then. *)
Record Attempt := {
  am_tracked : Tracked;
  am_remaining : N;
}.

(** [commit]: [None] when it is still trying after these attempts. *)
Fixpoint commit (attempts : list Attempt) (outcome_unknown : bool)
  : option (Result (list N) FlushFailure) :=
  match attempts with
  | [] => None
  | a :: attempts =>
      let outcome_unknown := outcome_unknown || a.(am_tracked).(tk_earlier_unknown) in
      match a.(am_tracked).(tk_result) with
      | Ok base_offsets => Some (Ok base_offsets)
      | Err (MetaError.Rejected e) =>
          Some (Err (if outcome_unknown
                     then FailUnknown "committing {path}: {why}, after an attempt whose outcome is unknown; the records may be committed"
                     else FailRejected e))
      | Err (MetaError.ClockSkew stamped leader) =>
          Some (Err (if outcome_unknown
                     then FailUnknown "committing {path}: {why}, after an attempt whose outcome is unknown; the records may be committed"
                     else FailClockSkew stamped leader))
      | Err err =>
          let retryable := match err with
                           | MetaError.NotLeader _ | MetaError.Timeout | MetaError.Unavailable => true
                           | _ => false
                           end in
          if negb retryable || (a.(am_remaining) =? 0)
          then Some (Err (FailUnknown "committing {path} failed: {err}"))
          else commit attempts true
      end
  end.

(** The ULID crate: [Ulid::from_parts], [timestamp_ms], [Display] and the bytes. *)
Class Ulids := {
  ulid_from_parts : N → N → Bytes;
  ulid_timestamp_ms : Bytes → N;
  ulid_string : Bytes → string;
}.

Context `{Ulids}.

(** What a flush writes: the path, the object and its index.  [None] is the panic of [finish]. *)
Definition wal_written (c : LogConfig) (ulid : Bytes) (pending : list Pending)
  : option (string * Bytes * list ChunkMeta) :=
  '(object, metas) ← wal_finish (wal_of c ulid pending);
  Some (wal_object Standard c.(lc_node_id) (ulid_string ulid), object, metas).

(** The command a flush commits. *)
Definition wal_commit_command (c : LogConfig) (ulid : Bytes) (path : string) (metas : list ChunkMeta) : Command :=
  CommitWal path (ulid_timestamp_ms ulid) (chunk_of <$> metas).

(** [write_and_commit]: [now_ms] and [random] make the ULID, [put] is what the store answers, and
    [attempts] what the metastore answers.  [None] while it is still trying. *)
Definition write_and_commit (c : LogConfig) (pending : list Pending) (now_ms random : N)
    (put : Result () StoreError.t) (attempts : list Attempt)
  : option (Result (list AppendAck) FlushFailure) :=
  let ulid := ulid_from_parts now_ms random in
  '(path, object, metas) ← wal_written c ulid pending;
  match put with
  | Err e => Some (Err (FailStore e))
  | Ok _ =>
      answer ← commit attempts false;
      Some (LET base_offsets <- answer ;; acks_of metas base_offsets pending)
  end.
End writer.
