(* ===== verification/LogWriterInv.v ===== *)
(** * What an acknowledgement means

    The chunk of a partition in a flushed WAL object is the batches appended to it, in order.  The
    offsets of an acknowledgement are those of the chunk, after the batches before it.  What
    [append_many] buffers is its batches, stamped and encoded.  A flush reports a definite failure
    only when nothing was committed: the object was not written, or the first attempt was refused. *)

From Stdlib Require Import NArith ZArith Lia.
From stdpp Require Import prelude gmap strings numbers list.
From S2P Require Import Prelude.
From S2P Require Import BTree.
From S2P Require Import ByteCodec.
From S2P Require Import Ids.
From S2P Require Import MetaTypes.
From S2P Require Import MetaState.
From S2P Require Import MetaLog.
From S2P Require Import PartitionInv.
From S2P Require Import LogBatch.
From S2P Require Import LogBatchInv.
From S2P Require Import LogWal.
From S2P Require Import LogWalInv.
From S2P Require Import LogReader.
From S2P Require Import LogReaderInv.
From S2P Require Import LogWriter.

Open Scope N_scope.

(** ** The chunks of a flush *)

Definition pd_key (p : Pending) : StreamId * N := (p.(pd_stream), p.(pd_partition)).

(** An append and its records. *)
Abbreviation Append := (Pending * list LogRecord)%type (only parsing).

(** The appends to one partition, in order. *)
Definition appends_to (k : StreamId * N) (l : list Append) : list Append :=
  filter (λ a, pd_key a.1 = k) l.

Definition stored_appends (l : list Append) : list Stored := (λ a, (a.1.(pd_batch), a.2)) <$> l.

(** The records of the appends to one partition. *)
Definition appended (k : StreamId * N) (l : list Append) : list LogRecord :=
  records_of (stored_appends (appends_to k l)).

Lemma stored_appends_app l l' : stored_appends (l ++ l') = stored_appends l ++ stored_appends l'.
Proof. apply fmap_app. Qed.

Lemma appended_app k l l' : appended k (l ++ l') = appended k l ++ appended k l'.
Proof.
  unfold appended, appends_to. by rewrite filter_app, stored_appends_app, records_of_app.
Qed.

Lemma appended_one k a : appended k [a] = if decide (pd_key a.1 = k) then a.2 else [].
Proof.
  unfold appended, appends_to. rewrite filter_cons. case_decide; [|done]. cbn. apply app_nil_r.
Qed.

Lemma appended_cons k a l :
  appended k (a :: l) = (if decide (pd_key a.1 = k) then a.2 else []) ++ appended k l.
Proof. change (a :: l) with ([a] ++ l). by rewrite appended_app, appended_one. Qed.

Section laws.
Context `{Crc32cOk} `{Codec (list ChunkMeta)}.

Record append_ok (a : Append) : Prop := {
  ap_stored : stored_ok (a.1.(pd_batch), a.2);
  ap_records : a.1.(pd_records) = len a.2;
}.

Lemma appended_pos k l : Forall append_ok l → appends_to k l ≠ [] → 0 < len (appended k l).
Proof.
  intros F%(Forall_filter _ (λ a, pd_key a.1 = k)) N. unfold appended.
  change (filter _ l) with (appends_to k l) in F. destruct F as [|a l' [[_ Lr]%stored_nonempty _] _]; [done|].
  cbn [stored_appends fmap list_fmap]. rewrite records_of_cons, len_app. cbn [snd] in *. lia.
Qed.

(** A chunk is the batches appended to it. *)
Record chunk_holds (k : StreamId * N) (l : list Append) (ch : PendingChunk) : Prop := {
  ch_some : appends_to k l ≠ [];
  ch_payload : ch.(pc_payload) = bytes_of (stored_appends (appends_to k l));
  ch_records : len (appended k l) <= u32_MAX → ch.(pc_records) = len (appended k l);
}.

Lemma wal_of_spec c u l k :
  Forall append_ok l →
  match (wal_of c u l.*1).(wb_chunks) !! k with
  | None => appends_to k l = []
  | Some ch => chunk_holds k l ch
  end.
Proof.
  induction l as [|a l IH] using rev_ind; intros F; [done|].
  apply Forall_app in F as [F [[_ Er] _]%Forall_cons]. specialize (IH F).
  unfold wal_of. rewrite fmap_app, foldl_app. cbn [fmap list_fmap foldl]. fold (wal_of c u l.*1).
  unfold wal_push. cbn [wb_chunks]. fold (pd_key a.1).
  destruct (decide (pd_key a.1 = k)) as [<-|N].
  - rewrite lookup_insert_eq.
    assert (appends_to (pd_key a.1) (l ++ [a]) = appends_to (pd_key a.1) l ++ [a]) as Ea.
    { unfold appends_to. rewrite filter_app. by rewrite (filter_cons_True _ a []) by done. }
    split; cbn [pc_payload pc_records].
    + rewrite Ea. by destruct (appends_to _ l).
    + rewrite Ea, stored_appends_app, bytes_of_app. f_equal; [|cbn; by rewrite app_nil_r].
      destruct (wb_chunks _ !! _) as [ch|]; [apply IH|]. by rewrite IH.
    + rewrite appended_app, appended_one, decide_True, len_app by done. intros B.
      unfold u32_saturating_add. destruct (wb_chunks _ !! _) as [ch|]; cbn [from_option id].
      * rewrite (ch_records _ _ _ IH), Er by lia. lia.
      * unfold appended in *. rewrite IH in *. cbn [stored_appends fmap list_fmap fresh_chunk pc_records PendingChunk_default] in *.
        change (len (records_of [])) with 0 in *. rewrite Er. lia.
  - rewrite lookup_insert_ne by done.
    assert (appends_to k (l ++ [a]) = appends_to k l) as Ea.
    { unfold appends_to. rewrite filter_app, (filter_cons_False _ a []) by done. apply app_nil_r. }
    destruct (wb_chunks _ !! k) as [ch|]; [|by rewrite Ea]. destruct IH as [C1 C2 C3].
    split; unfold appended in *; by rewrite Ea.
Qed.

(** ** Acknowledgements *)

(** The acknowledgement of append [a], the batch after [before] in a chunk at [base]. *)
Record acks_append (base : N) (before : list Append) (a : Append) (ack : AppendAck) : Prop := {
  aa_stream : ack.(ak_stream) = a.1.(pd_stream);
  aa_partition : ack.(ak_partition) = a.1.(pd_partition);
  aa_base : ack.(ak_base_offset) = base + len (appended (pd_key a.1) before);
  aa_last : ack.(ak_last_offset) + 1 = ack.(ak_base_offset) + len a.2;
}.

Lemma ack_all_spec next l :
  Forall append_ok l →
  (∀ a, a ∈ l → ∃ b, next !! pd_key a.1 = Some b ∧ b + len (appended (pd_key a.1) l) <= u64_MAX) →
  ∃ acks, ack_all next l.*1 = Ok acks ∧ length acks = length l
    ∧ ∀ i a, l !! i = Some a → ∃ b ack, next !! pd_key a.1 = Some b ∧ acks !! i = Some ack
        ∧ acks_append b (take i l) a ack.
Proof.
  revert next. induction l as [|a l IH]; intros next F B; [by exists []|].
  apply Forall_cons in F as [[[Hb _] Er] F]. apply holds_nonempty in Hb as [_ Na]. cbn [snd] in Na.
  destruct (B a ltac:(left)) as (b & Eb & Bb). rewrite appended_cons, decide_True, len_app in Bb by done.
  cbn [fmap list_fmap ack_all]. fold (pd_key a.1). rewrite Eb. cbn [ok_or].
  rewrite u64_add_small by lia. destruct (IH (<[pd_key a.1 := b + pd_records a.1]> next) F)
    as (acks & -> & La & Ia).
  { intros a' I. destruct (B a' ltac:(by right)) as (b' & Eb' & Bb'). rewrite appended_cons in Bb'.
    destruct (decide (pd_key a.1 = pd_key a'.1)) as [<-|N].
    - exists (b + pd_records a.1). rewrite lookup_insert_eq. split; [done|lia].
    - exists b'. rewrite lookup_insert_ne by done. done. }
  eexists. split; [done|]. split; [cbn; by rewrite La|].
  assert (0 < len a.2) as L2 by (unfold len; destruct a.2; [done|cbn; lia]).
  intros [|i] a' I; cbn in I.
  - injection I as <-. exists b. eexists. split; [done|]. split; [done|]. split; cbn; try done.
    + symmetry. apply N.add_0_r.
    + rewrite u64_sub_small by lia. lia.
  - destruct (Ia i a' I) as (b' & ack & Eb' & Ea' & [A1 A2 A3 A4]).
    destruct (decide (pd_key a.1 = pd_key a'.1)) as [E|N].
    + rewrite <- E, lookup_insert_eq in Eb'. injection Eb' as <-. exists b, ack. rewrite <- E.
      split; [done|]. split; [done|]. split; try done. cbn [take]. rewrite appended_cons, decide_True by done.
      rewrite len_app. lia.
    + rewrite lookup_insert_ne in Eb' by done. exists b', ack. split; [done|]. split; [done|].
      split; try done. cbn [take]. by rewrite appended_cons, decide_False by done.
Qed.
(** ** A flush and its commit *)

Definition cm_key (m : ChunkMeta) : StreamId * N := (m.(cm_stream), m.(cm_partition)).

Lemma placed_keys o lc ms : Forall2 (placed o) lc ms → cm_key <$> ms = lc.*1.
Proof.
  induction 1 as [|[k ch] m lc ms [Em _ _] F IH]; cbn; [done|]. rewrite IH. f_equal.
  rewrite Em. by destruct k.
Qed.

Lemma zip_keys {A B K} (f : A → K) (l : list A) (k : list B) :
  length k = length l → (zip_with (λ x y, (f x, y)) l k).*1 = f <$> l.
Proof.
  revert k. induction l as [|x l IH]; intros [|y k] L; cbn in *; try done. f_equal. apply IH. lia.
Qed.

Section flush.
Context `{!CodecOk (list ChunkMeta) id}.
Context (c : LogConfig) (u : Bytes) (l : list Append) (obj : Bytes) (metas : list ChunkMeta).
Context (appends : Forall append_ok l).
Context (header_ok : wal_header_ok (wal_of c u l.*1).(wb_header)).
Context (finished : wal_finish (wal_of c u l.*1) = Some (obj, metas)).
Context (small : len obj <= u64_MAX) (counts : ∀ k, len (appended k l) <= u32_MAX).

(** Each chunk of the object holds what was appended to its partition. *)
Lemma meta_spec j m :
  metas !! j = Some m →
  appends_to (cm_key m) l ≠ [] ∧ m.(cm_records) = len (appended (cm_key m) l)
  ∧ m.(cm_offset) + m.(cm_len) <= len obj
  ∧ slice obj m.(cm_offset) m.(cm_len) = bytes_of (stored_appends (appends_to (cm_key m) l)).
Proof.
  intros I. destruct (Forall2_lookup_r _ _ _ _ _ (finish_placed _ _ _ header_ok finished small) I)
    as ([k ch] & Ik & [Em Le Gr]).
  assert (cm_key m = k) as -> by (rewrite Em; by destruct k).
  apply list_elem_of_lookup_2, elem_of_btree_iter in Ik.
  pose proof (wal_of_spec c u l k appends) as S. rewrite Ik in S. destruct S as [S1 S2 S3].
  split_and!; [done| |done|].
  - rewrite Em. cbn. by apply S3, counts.
  - rewrite <- S2. cbn [snd] in Gr. unfold get_range, u64_checked_add in Gr.
    destruct (_ <=? u64_MAX); [|done]. cbn in Gr. destruct (_ <=? _); [|done]. by injection Gr.
Qed.

Lemma metas_keys : cm_key <$> metas = (btree_iter (wal_of c u l.*1).(wb_chunks)).*1.
Proof. eapply placed_keys, (finish_placed _ _ _ header_ok finished small). Qed.

(** An append has its chunk. *)
Lemma append_meta a : a ∈ l → ∃ j m, metas !! j = Some m ∧ cm_key m = pd_key a.1.
Proof.
  intros I. pose proof (wal_of_spec c u l (pd_key a.1) appends) as S.
  destruct (wb_chunks _ !! pd_key a.1) as [ch|] eqn:E.
  - apply elem_of_btree_iter, (list_elem_of_fmap_2 fst) in E. cbn in E. rewrite <- metas_keys in E.
    apply list_elem_of_fmap in E as (m & Em & [j J]%list_elem_of_lookup). by exists j, m.
  - assert (a ∈ appends_to (pd_key a.1) l) as Ia by (by apply list_elem_of_filter).
    rewrite S in Ia. by apply elem_of_nil in Ia.
Qed.

(** The acknowledgements of a flush whose commit answered [bases]. *)
Lemma acks_of_spec bases :
  length bases = length metas →
  (∀ j m b, metas !! j = Some m → bases !! j = Some b → b + m.(cm_records) <= u64_MAX) →
  ∃ acks, acks_of metas bases l.*1 = Ok acks ∧ length acks = length l
    ∧ ∀ i a, l !! i = Some a → ∃ j m b ack, metas !! j = Some m ∧ bases !! j = Some b
        ∧ cm_key m = pd_key a.1 ∧ acks !! i = Some ack ∧ acks_append b (take i l) a ack.
Proof.
  intros L B. unfold acks_of. rewrite (proj2 (Nat.eqb_eq _ _)) by done. cbn [negb].
  set (next := list_to_map _ : gmap (StreamId * N) N).
  assert (∀ j m b, metas !! j = Some m → bases !! j = Some b → next !! cm_key m = Some b) as Nx.
  { intros j m b I J. apply elem_of_list_to_map_1.
    - rewrite reverse_Permutation, (zip_keys cm_key), metas_keys by done. apply btree_iter_NoDup.
    - rewrite reverse_Permutation. apply list_elem_of_lookup. exists j. by rewrite lookup_zip_with, I, J. }
  destruct (ack_all_spec next l appends) as (acks & Ea & La & Ia).
  { intros a (j & m & J & Em)%append_meta.
    destruct (lookup_lt_is_Some_2 bases j) as [b Eb]; [rewrite L; by eapply lookup_lt_Some|].
    exists b. rewrite <- Em. split; [by eapply Nx|].
    destruct (meta_spec j m J) as (_ & R & _). specialize (B j m b J Eb). lia. }
  exists acks. split; [done|]. split; [done|]. intros i a I.
  destruct (Ia i a I) as (b & ack & Eb & Ek & Aa).
  destruct (append_meta a) as (j & m & J & Em); [by eapply list_elem_of_lookup_2|].
  destruct (lookup_lt_is_Some_2 bases j) as [b' Eb']; [rewrite L; by eapply lookup_lt_Some|].
  exists j, m, b, ack. split_and!; try done. rewrite <- Em, (Nx j m b' J Eb') in Eb. congruence.
Qed.

(** The index entry of a committed chunk is stored. *)
Lemma chunk_stored objects path j m b :
  objects !! path = Some obj → metas !! j = Some m → b + m.(cm_records) <= u64_MAX →
  wal_stored objects (wal_entry b path (chunk_of m)) (stored_appends (appends_to (cm_key m) l)).
Proof.
  intros Eo I B. destruct (meta_spec j m I) as (N & R & Le & Sl).
  split; cbn [wal_entry object byte_range chunk_of chunk_byte_range chunk_range range_start range_end
              base_offset chunk_records]; rewrite ?u64_add_small by lia.
  - exists obj. split; [done|]. split; [done|]. split; [done|].
    by replace (cm_offset m + cm_len m - cm_offset m) with (cm_len m) by lia.
  - lia.
  - unfold stored_appends. apply Forall_fmap, Forall_filter. eapply Forall_impl; [exact appends|]. by intros ? [].
  - unfold stored_appends. by destruct (appends_to _ l).
  - unfold end_offset. cbn. rewrite u64_add_small by lia. by rewrite R.
  - unfold end_offset. cbn. rewrite u64_add_small; lia.
Qed.
End flush.

(** ** Buffered appends *)

Lemma stamp_ok now r : i64_ok now → record_ok r → record_ok (stamp now r).
Proof. intros Nw [K V Hd T]. unfold stamp. destruct (_ <? 0)%Z; by split. Qed.

(** The batches of an append are encoded in order, each with its stamped records. *)
Lemma encode_batches_spec now batches es :
  i64_ok now → Forall (λ b, Forall record_ok b.2) batches → encode_batches now batches = Ok es →
  Forall2 (λ e b, e.(en_partition) = b.1 ∧ stored_ok (e.(en_batch), stamp now <$> b.2)
                  ∧ e.(en_records) = len b.2) es batches.
Proof.
  intros Nw F. revert es. induction F as [|[p rs] batches Fr F IH]; intros es E; cbn in E.
  { injection E as <-. constructor. }
  destruct (encode _) as [batch|] eqn:En; [|done]. cbn in E.
  destruct (u32_try_from _) as [n|] eqn:Un; [|done]. cbn in E.
  destruct (encode_batches now batches) as [rest|]; [|done]. injection E as <-.
  constructor; [|by apply IH]. cbn. split_and!; [done| |].
  - split; cbn; [by apply encode_holds|]. apply Forall_fmap. eapply Forall_impl; [exact Fr|].
    intros r. by apply stamp_ok.
  - unfold u32_try_from in Un. destruct (_ <=? _); [|done]. injection Un as <-.
    unfold len. by rewrite length_fmap.
Qed.

Lemma clock_i64_ok n : i64_ok (clock_i64 n).
Proof. unfold clock_i64, i64_ok, i64_MIN, i64_MAX. destruct (_ <=? _)%Z eqn:E; lia. Qed.

(** An append that is accepted buffers its batches, in order. *)
Lemma append_many_buffers c s stream batches known now_ms now replies s' :
  Forall (λ b, Forall record_ok b.2) batches → length replies = length batches →
  append_many c s stream batches known now_ms now replies = (s', Ok ()) →
  ∃ ps, s'.(ws_pending) = s.(ws_pending) ++ ps ∧ pd_reply <$> ps = replies
    ∧ Forall2 (λ p b, pd_key p = (stream, b.1) ∧ append_ok (p, stamp (clock_i64 now_ms) <$> b.2)) ps batches.
Proof.
  intros F L. unfold append_many. destruct (bool_decide _); [done|].
  destruct (check_batches c batches ∅); [|done]. destruct (map_err LogMeta known); [|done].
  destruct (ok_or _ _); [|done]. destruct (filter _ _); [|done]. destruct (negb _); [done|].
  destruct (encode_batches _ batches) as [es|] eqn:E; [|done].
  pose proof (encode_batches_spec _ _ _ (clock_i64_ok now_ms) F E) as Es. clear E F.
  unfold buffer. cbv zeta. destruct (ws_closed s); [done|]. destruct (_ <? _); [done|].
  destruct (_ <? _); [done|]. intros [= <-]. eexists. split; [done|]. revert replies L.
  induction Es as [|e b es batches (Ep & St & En) Es IH]; intros [|r rs] L; try done.
  cbn in L. destruct (IH rs ltac:(lia)) as [Er Eb]. split; [cbn; by rewrite Er|].
  constructor; [|done]. unfold pd_key. cbn. split; [by rewrite Ep|]. split; cbn; [done|].
  rewrite En. unfold len. by rewrite length_fmap.
Qed.

(** ** Definite failures *)

(** After an attempt whose outcome is unknown, no failure is definite. *)
Lemma commit_unknown attempts f : commit attempts true = Some (Err f) → ∃ w, f = FailUnknown w.
Proof.
  induction attempts as [|a attempts IH]; cbn; [done|].
  destruct (tk_result _) as [|[]]; try (intros [= <-]; by eexists);
    try (destruct (_ || _); [intros [= <-]; by eexists|done]); done.
Qed.

Lemma ack_all_unknown next ps f : ack_all next ps = Err f → ∃ w, f = FailUnknown w.
Proof.
  revert next. induction ps as [|p ps IH]; intros next E; cbn in E; [done|].
  destruct (ok_or _ _) as [b|f'] eqn:O; cbn in E.
  - destruct (ack_all _ ps) eqn:A; [done|]. injection E as <-. by eapply IH.
  - injection E as <-. destruct (next !! _); [done|]. injection O as <-. by eexists.
Qed.

Definition definite (f : FlushFailure) : Prop := ∀ w, f ≠ FailUnknown w.

(** What the metastore refused without applying it. *)
Definition refused (a : Attempt) : Prop :=
  a.(am_tracked).(tk_earlier_unknown) = false
  ∧ ((∃ e, a.(am_tracked).(tk_result) = Err (MetaError.Rejected e))
     ∨ ∃ x y, a.(am_tracked).(tk_result) = Err (MetaError.ClockSkew x y)).

Lemma commit_definite attempts f :
  commit attempts false = Some (Err f) → definite f →
  ∃ a rest, attempts = a :: rest ∧ refused a.
Proof.
  destruct attempts as [|a rest]; cbn; [done|]. intros E D. exists a, rest. split; [done|].
  unfold refused. destruct (tk_earlier_unknown _); destruct (tk_result _) as [|[]];
    repeat match type of E with context [if ?b then _ else _] => destruct b end;
    try (injection E as <-; by edestruct D); try done; try (apply commit_unknown in E as [w ->]; by edestruct D);
    split; eauto.
Qed.
End laws.
