(* ===== verification/LogWriterSteps.v ===== *)
(** * The writer as a state machine

    Appends, flush and shutdown calls and the turns of the flush task interleave.  [wstep] is one
    of them; [writer_ok] holds in every state they reach: the buffer stays within its limit, the
    bytes are those of the appends buffered and in flight, and each reply channel handed out is
    buffered, in flight or answered, in exactly one place. *)

From Stdlib Require Import NArith ZArith Lia.
From stdpp Require Import prelude gmap strings numbers list.
From S2P Require Import Prelude.
From S2P Require Import BTree.
From S2P Require Import ByteCodec.
From S2P Require Import Ids.
From S2P Require Import MetaTypes.
From S2P Require Import Paths.
From S2P Require Import LogBatch.
From S2P Require Import LogWal.
From S2P Require Import LogWriter.

Open Scope N_scope.

(** ** Sums of bytes *)

Fixpoint pending_size (ps : list Pending) : N :=
  match ps with [] => 0 | p :: ps => len p.(pd_batch) + pending_size ps end.

Fixpoint encoded_size (es : list Encoded) : N :=
  match es with [] => 0 | e :: es => len e.(en_batch) + encoded_size es end.

Lemma pending_size_app l l' : pending_size (l ++ l') = pending_size l + pending_size l'.
Proof. induction l as [|p l IH]; cbn; [done|]. rewrite IH. lia. Qed.

Lemma encoded_bytes_size es : encoded_size es <= u64_MAX → encoded_bytes es = encoded_size es.
Proof.
  unfold encoded_bytes. intros B.
  assert (∀ n, n + encoded_size es <= u64_MAX →
    foldl (λ n e, u64_add n (len (en_batch e))) n es = n + encoded_size es) as K.
  { clear B. induction es as [|e es IH]; intros n B; cbn in *; [lia|].
    rewrite u64_add_small by lia. rewrite IH; lia. }
  apply K. lia.
Qed.

Section machine.
Context `{Crc32c} `{Codec (list ChunkMeta)} `{Ulids} (c : LogConfig).

(** The writer: its state, the flush in flight, what was answered, and the channels made. *)
Record Writer := {
  wr_state : WriterState;
  wr_job : option Job;
  wr_replied : list (Sender * Result AppendAck LogError);
  wr_told : list (Sender * Result () LogError);
  wr_channels : list Sender;
  wr_exited : bool;
}.

Definition Writer_start : Writer :=
  {| wr_state := WriterState_default; wr_job := None; wr_replied := []; wr_told := [];
     wr_channels := []; wr_exited := false |}.

(** A step that moves on the state, with the answers [told] to flush callers. *)
Definition with_state (w : Writer) (s : WriterState) (told : list (Sender * Result () LogError)) : Writer :=
  {| wr_state := s; wr_job := w.(wr_job); wr_replied := w.(wr_replied);
     wr_told := w.(wr_told) ++ told; wr_channels := w.(wr_channels); wr_exited := w.(wr_exited) |}.

Inductive wstep : Writer → Writer → Prop :=
  | step_append w stream batches known now_ms now replies s :
      (** new channels, one for each batch, and batches that fit in memory *)
      NoDup replies → (∀ x, x ∈ replies → x ∉ w.(wr_channels)) → length replies = length batches →
      (∀ es, encode_batches (clock_i64 now_ms) batches = Ok es → encoded_size es <= u64_MAX) →
      append_many c w.(wr_state) stream batches known now_ms now replies = (s, Ok ()) →
      wstep w {| wr_state := s; wr_job := w.(wr_job); wr_replied := w.(wr_replied);
                 wr_told := w.(wr_told); wr_channels := w.(wr_channels) ++ replies;
                 wr_exited := w.(wr_exited) |}
  | step_flush_call w waiter s answer :
      flush_call w.(wr_state) waiter = (s, answer) →
      wstep w (with_state w s (match answer with Some r => [(waiter, r)] | None => [] end))
  | step_shutdown_call w waiter s answer :
      shutdown_call w.(wr_state) waiter = (s, answer) →
      wstep w (with_state w s (match answer with Some r => [(waiter, r)] | None => [] end))
  | step_close w : wstep w (with_state w (set_closed w.(wr_state)) [])
  | step_wait w now s told deadline :
      w.(wr_job) = None → w.(wr_exited) = false →
      next c w.(wr_state) now = (s, told, Wait deadline) → wstep w (with_state w s told)
  | step_exit w now s told :
      w.(wr_job) = None → w.(wr_exited) = false →
      next c w.(wr_state) now = (s, told, Exit) →
      wstep w {| wr_state := s; wr_job := None; wr_replied := w.(wr_replied);
                 wr_told := w.(wr_told) ++ told; wr_channels := w.(wr_channels); wr_exited := true |}
  | step_flush w now s told job :
      w.(wr_job) = None → w.(wr_exited) = false →
      next c w.(wr_state) now = (s, told, Flush job) →
      wstep w {| wr_state := s; wr_job := Some job; wr_replied := w.(wr_replied);
                 wr_told := w.(wr_told) ++ told; wr_channels := w.(wr_channels);
                 wr_exited := false |}
  | step_flushed w job now_ms random put attempts outcome s told :
      w.(wr_job) = Some job →
      write_and_commit c job.(jb_pending) now_ms random put attempts = Some outcome →
      flushed w.(wr_state) job (LET _acks <- outcome ;; Ok ()) = (s, told) →
      wstep w {| wr_state := s; wr_job := None;
                 wr_replied := w.(wr_replied) ++ flush_replies job.(jb_pending) outcome;
                 wr_told := w.(wr_told) ++ told; wr_channels := w.(wr_channels);
                 wr_exited := w.(wr_exited) |}.

(** ** The invariant *)

Definition in_flight (w : Writer) : list Pending :=
  match w.(wr_job) with Some job => job.(jb_pending) | None => [] end.

Record writer_ok (w : Writer) : Prop := {
  wo_pending : w.(wr_state).(ws_pending_bytes) = pending_size w.(wr_state).(ws_pending);
  wo_inflight : w.(wr_state).(ws_inflight_bytes) = pending_size (in_flight w);
  wo_job : ∀ job, w.(wr_job) = Some job → job.(jb_bytes) = pending_size job.(jb_pending)
                                        ∧ job.(jb_pending) ≠ [];
  wo_limit : w.(wr_state).(ws_pending_bytes) + w.(wr_state).(ws_inflight_bytes)
             <= c.(lc_max_buffered_bytes);
  wo_opened : is_Some w.(wr_state).(ws_opened_at) ↔ w.(wr_state).(ws_pending) ≠ [];
  wo_flushing : w.(wr_state).(ws_flushing) = true ↔ is_Some w.(wr_job);
  wo_stopped : w.(wr_state).(ws_stopped) = w.(wr_exited);
  wo_exited : w.(wr_exited) = true → w.(wr_state).(ws_closed) = true
    ∧ w.(wr_state).(ws_pending) = [] ∧ w.(wr_job) = None;
  wo_channels : w.(wr_replied).*1 ++ (pd_reply <$> in_flight w)
                ++ (pd_reply <$> w.(wr_state).(ws_pending)) ≡ₚ w.(wr_channels);
  wo_nodup : NoDup w.(wr_channels);
}.

Lemma start_ok : writer_ok Writer_start.
Proof.
  split; cbn; try done; try lia; try constructor; by intros [].
Qed.

(** Buffers are smaller than half of the address space. *)
Context (limit_u64 : 2 * c.(lc_max_buffered_bytes) <= u64_MAX).

(** What [buffer] changes. *)
Record buffers (s s' : WriterState) (ps : list Pending) : Prop := {
  bf_pending : s'.(ws_pending) = s.(ws_pending) ++ ps;
  bf_bytes : s'.(ws_pending_bytes) = s.(ws_pending_bytes) + pending_size ps;
  bf_limit : s'.(ws_pending_bytes) + s'.(ws_inflight_bytes) <= c.(lc_max_buffered_bytes);
  bf_open : s.(ws_closed) = false ∧ s'.(ws_closed) = false ∧ is_Some s'.(ws_opened_at);
  bf_inflight : s'.(ws_inflight_bytes) = s.(ws_inflight_bytes);
  bf_flushing : s'.(ws_flushing) = s.(ws_flushing);
  bf_stopped : s'.(ws_stopped) = s.(ws_stopped);
}.

Lemma buffer_spec s now stream es replies s' :
  encoded_size es <= u64_MAX → length replies = length es →
  s.(ws_pending_bytes) + s.(ws_inflight_bytes) <= c.(lc_max_buffered_bytes) →
  buffer c s now stream es replies = (s', Ok ()) →
  ∃ ps, buffers s s' ps ∧ pd_reply <$> ps = replies ∧ length ps = length es.
Proof.
  intros B L Lm. unfold buffer. rewrite encoded_bytes_size by done.
  destruct (ws_closed s) eqn:Ec; [done|].
  destruct (N.ltb_spec (lc_max_buffered_bytes c) (encoded_size es)) as [|L1]; [done|].
  rewrite !u64_add_small by (try lia; rewrite u64_add_small; lia).
  destruct (N.ltb_spec (lc_max_buffered_bytes c)
    (ws_pending_bytes s + ws_inflight_bytes s + encoded_size es)) as [|L2]; [done|].
  intros [= <-]. set (mk := λ e reply, {| pd_stream := stream; pd_partition := en_partition e;
    pd_batch := en_batch e; pd_records := en_records e; pd_max_timestamp_ms := en_max_timestamp_ms e;
    pd_reply := reply |}). exists (zip_with mk es replies).
  assert (pending_size (zip_with mk es replies) = encoded_size es) as Ep.
  { clear -L. revert replies L. induction es as [|e es IH]; intros [|r rs] L; cbn in *; try done.
    rewrite IH; lia. }
  assert (pd_reply <$> zip_with mk es replies = replies) as Er.
  { clear -L. revert replies L. induction es as [|e es IH]; intros [|r rs] L; cbn in *; try done.
    f_equal. apply IH. lia. }
  split_and!; [|done|rewrite length_zip_with; lia]. split; cbn; try done; try lia.
Qed.

Lemma encode_batches_length now batches es :
  encode_batches now batches = Ok es → length es = length batches.
Proof.
  revert es. induction batches as [|[p rs] batches IH]; intros es E; cbn in E; [by injection E as <-|].
  destruct (encode _); [|done]. destruct (ok_or _ _); [|done].
  destruct (encode_batches now batches); [|done]. injection E as <-. cbn. by rewrite (IH _ eq_refl).
Qed.

Lemma append_spec s stream batches known now_ms now replies s' :
  length replies = length batches →
  (∀ es, encode_batches (clock_i64 now_ms) batches = Ok es → encoded_size es <= u64_MAX) →
  s.(ws_pending_bytes) + s.(ws_inflight_bytes) <= c.(lc_max_buffered_bytes) →
  append_many c s stream batches known now_ms now replies = (s', Ok ()) →
  ∃ ps, buffers s s' ps ∧ pd_reply <$> ps = replies ∧ ps ≠ [].
Proof.
  intros L B Lm. unfold append_many. destruct (bool_decide_reflect (batches = [])) as [|Nb]; [done|].
  destruct (check_batches c batches ∅); [|done]. destruct (map_err LogMeta known); [|done].
  destruct (ok_or _ _); [|done]. destruct (filter _ _); [|done]. destruct (negb _); [done|].
  destruct (encode_batches _ batches) as [es|] eqn:E; [|done]. intros Bu.
  pose proof (encode_batches_length _ _ _ E) as Le.
  destruct (buffer_spec s now stream es replies s' (B es eq_refl) ltac:(lia) Lm Bu) as (ps & Bf & Er & Lp).
  exists ps. split_and!; try done. intros ->. destruct batches; [done|]. cbn in *. lia.
Qed.
Lemma ack_all_length nx ps acks : ack_all nx ps = Ok acks → length acks = length ps.
Proof.
  revert nx acks. induction ps as [|p ps IH]; intros nx acks E; cbn in E; [by injection E as <-|].
  destruct (ok_or _ _); [|done]. destruct (ack_all _ ps) eqn:A; [|done]. injection E as <-.
  cbn. f_equal. by eapply IH.
Qed.

(** A flush answers each of its appends. *)
Lemma flush_replies_all ps now_ms random put attempts outcome :
  write_and_commit c ps now_ms random put attempts = Some outcome →
  (flush_replies ps outcome).*1 = pd_reply <$> ps.
Proof.
  unfold write_and_commit. destruct (wal_written c _ ps) as [[[path obj] metas]|]; [|done]. cbn.
  destruct put as [|e]; [|intros [= <-]; cbn; by rewrite <- list_fmap_compose].
  destruct (commit attempts false) as [answer|]; [|done]. cbn. intros [= <-].
  destruct answer as [bases|f]; cbn; [|by rewrite <- list_fmap_compose].
  destruct (acks_of metas bases ps) as [acks|f] eqn:A; cbn; [|by rewrite <- list_fmap_compose].
  unfold acks_of in A. destruct (negb _); [done|]. apply ack_all_length in A. clear -A.
  revert acks A. induction ps as [|p ps IH]; intros [|a acks] A; cbn in *; try done.
  f_equal. apply IH. lia.
Qed.

(** What [flush] and [shutdown] leave alone. *)
Lemma writer_ok_told w s told :
  writer_ok w → s.(ws_pending) = w.(wr_state).(ws_pending) →
  s.(ws_pending_bytes) = w.(wr_state).(ws_pending_bytes) →
  s.(ws_inflight_bytes) = w.(wr_state).(ws_inflight_bytes) →
  s.(ws_opened_at) = w.(wr_state).(ws_opened_at) → s.(ws_flushing) = w.(wr_state).(ws_flushing) →
  s.(ws_stopped) = w.(wr_state).(ws_stopped) →
  (w.(wr_state).(ws_closed) = true → s.(ws_closed) = true) →
  writer_ok (with_state w s told).
Proof.
  intros [O1 O2 O3 O4 O5 O6 O7 O8 O9 O10] E1 E2 E3 E4 E5 E6 E7.
  split; cbn; rewrite ?E1, ?E2, ?E3, ?E4, ?E5, ?E6; try done.
  intros X. destruct (O8 X) as (X1 & X2 & X3). split_and!; auto.
Qed.

(** The task takes the whole buffer, waits, or exits once closed with nothing left. *)
Lemma next_cases s now s' told nx :
  next c s now = (s', told, nx) →
  match nx with
  | Flush job => job.(jb_pending) = s.(ws_pending) ∧ s.(ws_pending) ≠ []
      ∧ job.(jb_bytes) = s.(ws_pending_bytes) ∧ s'.(ws_pending) = [] ∧ s'.(ws_pending_bytes) = 0
      ∧ s'.(ws_inflight_bytes) = u64_add s.(ws_inflight_bytes) s.(ws_pending_bytes)
      ∧ s'.(ws_opened_at) = None ∧ s'.(ws_flushing) = true ∧ s'.(ws_closed) = s.(ws_closed)
      ∧ s'.(ws_stopped) = s.(ws_stopped)
  | Wait _ | Exit => s'.(ws_pending) = s.(ws_pending) ∧ s'.(ws_pending_bytes) = s.(ws_pending_bytes)
      ∧ s'.(ws_inflight_bytes) = s.(ws_inflight_bytes) ∧ s'.(ws_opened_at) = s.(ws_opened_at)
      ∧ s'.(ws_flushing) = s.(ws_flushing) ∧ s'.(ws_closed) = s.(ws_closed)
      ∧ match nx with
        | Exit => s.(ws_pending) = [] ∧ s.(ws_closed) = true ∧ s'.(ws_stopped) = true
        | _ => s'.(ws_stopped) = s.(ws_stopped)
        end
  end.
Proof.
  unfold next. destruct (ws_pending s) as [|p ps] eqn:Ep.
  - destruct (ws_closed s) eqn:Ec; intros [= <- <- <-]; cbn; by rewrite ?Ep, ?Ec.
  - destruct (negb _); intros [= <- <- <-]; cbn; by rewrite ?Ep.
Qed.

Lemma wstep_ok w w' : writer_ok w → wstep w w' → writer_ok w'.
Proof.
  intros O S. destruct S as [w stream batches known now_ms now replies s Nd Fr Lr Ms A
    |w waiter s answer A|w waiter s answer A|w|w now s told d J X A|w now s told J X A
    |w now s told job J X A|w job now_ms random put attempts outcome s told J Wc A].
  - destruct (append_spec _ _ _ _ _ _ _ _ Lr Ms (wo_limit _ O) A) as (ps & [B1 B2 B3 (B4 & B5 & B6) B7 B8 B9] & Er & Np).
    destruct O as [O1 O2 O3 O4 O5 O6 O7 O8 O9 O10].
    split; cbn; rewrite ?B1, ?B2, ?B7, ?B8, ?B9 in *; try done.
    + by rewrite O1, pending_size_app.
    + split; [|done]. intros _. by destruct (ws_pending (wr_state w)), ps.
    + intros X. destruct (O8 X). congruence.
    + rewrite fmap_app, Er. rewrite !app_assoc in *. by rewrite O9.
    + apply NoDup_app. split_and!; try done. intros x I J. by apply (Fr x J).
  - unfold flush_call, add_waiter in A. destruct (ws_stopped _) eqn:E; injection A as <- <-;
      by apply writer_ok_told.
  - unfold shutdown_call, add_waiter in A. destruct (ws_stopped _) eqn:E; injection A as <- <-;
      by apply writer_ok_told.
  - by apply writer_ok_told.
  - apply next_cases in A as (E1 & E2 & E3 & E4 & E5 & E6 & E7). apply writer_ok_told; try done.
    by rewrite E6.
  - apply next_cases in A as (E1 & E2 & E3 & E4 & E5 & E6 & E7 & E8 & E9).
    destruct O as [O1 O2 O3 O4 O5 O6 O7 O8 O9 O10]. unfold in_flight in *. rewrite J in *.
    split; cbn; rewrite ?E1, ?E2, ?E3, ?E4, ?E5, ?E6; try done.
  - apply next_cases in A as (E1 & E2 & E3 & E4 & E5 & E6 & E7 & E8 & E9 & E10).
    destruct O as [O1 O2 O3 O4 O5 O6 O7 O8 O9 O10]. unfold in_flight in *. rewrite J in *. cbn in O2.
    rewrite u64_add_small in E6 by lia.
    split; cbn; rewrite ?E1, ?E4, ?E5, ?E6, ?E7, ?E8, ?E10 in *; try done; try lia.
    + intros job' [= <-]. by rewrite E1, E3.
    + by rewrite O7, X.
    + by rewrite app_nil_r.
  - destruct (wo_job _ O job J) as [Jb Jn]. unfold flushed in A. injection A as <- <-.
    destruct O as [O1 O2 O3 O4 O5 O6 O7 O8 O9 O10]. unfold in_flight in *. rewrite J in *.
    split; cbn; try done.
    + rewrite u64_sub_small by lia. lia.
    + rewrite u64_sub_small by lia. lia.
    + intros X. by destruct (O8 X) as (_ & _ & ?).
    + rewrite fmap_app, (flush_replies_all _ _ _ _ _ _ Wc), <- app_assoc. done.
Qed.

Lemma reachable_ok w : rtc wstep Writer_start w → writer_ok w.
Proof.
  intros R. assert (∀ v w, rtc wstep v w → writer_ok v → writer_ok w) as K.
  { clear -limit_u64. induction 1; eauto using wstep_ok. }
  eapply K; [exact R|apply start_ok].
Qed.
End machine.
