(* ===== verification/LogSegmenter.v ===== *)
(** * The segmenter (loams-log/src/segmenter.rs)

    Rewrites a run of WAL entries of a partition into one segment and swaps it in.  What the
    metastore, the range cache, the store and the clock answer are arguments; [segment] returns
    what the attempt ended with and whether it deletes the segment it wrote. *)

From Stdlib Require Import NArith ZArith Lia.
From stdpp Require Import prelude gmap strings numbers list.
From S2P Require Import Prelude.
From S2P Require Import BTree.
From S2P Require Import ByteCodec.
From S2P Require Import Ids.
From S2P Require Import MetaTypes.
From S2P Require Import Paths.
From S2P Require Import MetaState.
From S2P Require Import MetaCatalog.
From S2P Require Import LogBatch.
From S2P Require Import LogSegment.
From S2P Require Import LogReader.
From S2P Require Import LogWriter.

Open Scope N_scope.

Record SegmenterConfig := {
  sc_min_bytes : N;
  sc_target_bytes : N;
  sc_max_wal_age : N;
  sc_lease_ttl : N;
  sc_swap_deadline : N;
}.

Definition SegmenterConfig_default : SegmenterConfig :=
  {| sc_min_bytes := 64 * 1024 * 1024;
     sc_target_bytes := 256 * 1024 * 1024;
     sc_max_wal_age := from_secs 600;
     sc_lease_ttl := from_secs 30;
     sc_swap_deadline := from_secs 600 |}.

Record SegmenterReport := {
  rp_segments : N;
  rp_skipped : N;
  rp_failed : N;
}.

Definition SegmenterReport_default : SegmenterReport :=
  {| rp_segments := 0; rp_skipped := 0; rp_failed := 0 |}.

(** [u32] arithmetic on the counts. *)
Definition u32_add (a b : N) : N := (a + b) mod 4294967296.
Definition u32_sub (a b : N) : N := (a + 4294967296 - b) mod 4294967296.

(** [SegmenterReport::minus] *)
Definition report_minus (r earlier : SegmenterReport) : SegmenterReport :=
  {| rp_segments := u32_sub r.(rp_segments) earlier.(rp_segments);
     rp_skipped := u32_sub r.(rp_skipped) earlier.(rp_skipped);
     rp_failed := u32_sub r.(rp_failed) earlier.(rp_failed) |}.

(** [millis] *)
Definition millis (duration : N) : N := N.min (duration / 1000000) u64_MAX.

(** ** What is due *)

(** The entry loop of [due_run], and the bytes it took. *)
Fixpoint take_run (target_bytes : N) (es : list IndexEntry) (taken : list IndexEntry) (bytes : N)
  : list IndexEntry * N :=
  match es with
  | [] => (taken, bytes)
  | e :: es =>
      let n := u64_sub e.(byte_range).(range_end) e.(byte_range).(range_start) in
      if negb (bool_decide (taken = [])) && (target_bytes <? u64_add bytes n) then (taken, bytes)
      else take_run target_bytes es (taken ++ [e]) (u64_add bytes n)
  end.

(** [iter.skip_while(p)] and [iter.take_while(p)] *)
Fixpoint skip_while {A} (p : A → bool) (l : list A) : list A :=
  match l with
  | [] => []
  | x :: l' => if p x then skip_while p l' else l
  end.

Fixpoint take_while {A} (p : A → bool) (l : list A) : list A :=
  match l with
  | [] => []
  | x :: l => if p x then x :: take_while p l else []
  end.

(** [due_run] *)
Definition due_run (state : PartitionIndex) (c : SegmenterConfig) (cutoff : Z) : list IndexEntry :=
  let '(entries, bytes) :=
    take_run c.(sc_target_bytes)
      (take_while (λ e, bool_decide (e.(entry_kind) = Wal))
         (skip_while (λ e, bool_decide (e.(entry_kind) = Segment)) state.(px_entries))) [] 0 in
  match entries with
  | first :: _ =>
      if (c.(sc_min_bytes) <=? bytes) || (first.(max_timestamp_ms) <? cutoff)%Z then entries else []
  | [] => []
  end.

(** [due]: [index] is what the metastore read returns. *)
Definition due (c : SegmenterConfig) (now_ms : N) (index : Result (option PartitionIndex) MetaError.t)
  : Result (list IndexEntry) MetaError.t :=
  let cutoff := clock_i64 (u64_saturating_sub now_ms (millis c.(sc_max_wal_age))) in
  LET index <- index ;;
  Ok (match index with Some state => due_run state c cutoff | None => [] end).

(** The task of a partition: its key is [segmenter/<stream>/<partition>] in its namespace. *)
Record SegmentTask := {
  sg_namespace : NamespaceId;
  sg_stream : StreamId;
  sg_partition : N;
}.

Definition task_name (t : SegmentTask) : string :=
  "segmenter/" +:+ show_u64 t.(sg_stream) +:+ "/" +:+ show_u64 t.(sg_partition).

(** The partition loop of [candidates], from partition [partition] on. *)
Fixpoint partition_tasks (c : SegmenterConfig) (now_ms : N)
    (read : StreamId → N → Result (option PartitionIndex) MetaError.t) (st : Stream)
    (todo : nat) (partition : N) : Result (list SegmentTask) MetaError.t :=
  match todo with
  | O => Ok []
  | S todo =>
      LET entries <- due c now_ms (read st.(stream_id) partition) ;;
      LET rest <- partition_tasks c now_ms read st todo (partition + 1) ;;
      Ok (if bool_decide (entries = []) then rest
          else {| sg_namespace := st.(stream_namespace); sg_stream := st.(stream_id);
                  sg_partition := partition |} :: rest)
  end.

Fixpoint stream_tasks (c : SegmenterConfig) (now_ms : N)
    (read : StreamId → N → Result (option PartitionIndex) MetaError.t) (sts : list Stream)
  : Result (list SegmentTask) MetaError.t :=
  match sts with
  | [] => Ok []
  | st :: sts =>
      LET tasks <- partition_tasks c now_ms read st (N.to_nat st.(stream_partitions)) 0 ;;
      LET rest <- stream_tasks c now_ms read sts ;;
      Ok (tasks ++ rest)
  end.

(** [SegmenterSource::candidates]: [streams] and [read] are what the metastore reads return. *)
Definition candidates (c : SegmenterConfig) (now_ms : N) (streams : Result (list Stream) MetaError.t)
    (read : StreamId → N → Result (option PartitionIndex) MetaError.t)
  : Result (list SegmentTask) TaskError :=
  map_err TaskMeta
    (LET sts <- streams ;;
     stream_tasks c now_ms read (filter (λ st, st.(stream_class) = Standard) sts)).

(** ** Building a segment *)

Section segmenter.
Context `{Crc32c} `{Codec (list BatchIndexEntry)} `{ObjectCache}.

(** The batch loop of [segment]. *)
Fixpoint push_batches (items : list (Result BatchRef LogError)) (b : SegmentBuilder)
  : Result SegmentBuilder TaskError :=
  match items with
  | [] => Ok b
  | item :: items =>
      LET batch <- map_err TaskFailed item ;;
      LET b <- map_err (λ _, TaskFailed (Corrupt "WAL chunk in {}: {e}"))
                 (push_batch b batch.(br_bytes) batch.(br_record_count) batch.(br_max_timestamp_ms)) ;;
      push_batches items b
  end.

(** The entry loop of [segment]. *)
Fixpoint push_entries (entries : list IndexEntry) (b : SegmentBuilder) (max_timestamp : Z)
  : Result (SegmentBuilder * Z) TaskError :=
  match entries with
  | [] => Ok (b, max_timestamp)
  | e :: entries =>
      LET bytes <- map_err (λ err, TaskFailed (LogCache err)) (cache_read e.(object) e.(byte_range)) ;;
      LET b <- push_batches (batches bytes) b ;;
      REFUSE negb (b.(sb_next_offset) =? end_offset e)
        WITH TaskFailed (Corrupt "WAL chunk in {} holds records up to {}, its index entry up to {}") ;;
      push_entries entries b (Z.max max_timestamp e.(max_timestamp_ms))
  end.

(** What [segment] builds of its entries; the callers pass at least one. *)
Definition build_segment (t : SegmentTask) (entries : list IndexEntry)
  : Result (SegmentBuilder * Z) TaskError :=
  let base := match entries with e :: _ => e.(base_offset) | [] => 0 end in
  push_entries entries (segment_new t.(sg_stream) t.(sg_partition) base Kafka) i64_MIN.

Inductive SegmentAttempt := Swapped | Skipped.

(** What a run sees after its PUT: the clock, whether it was cancelled, what the swap answers
    ([Tracked]: the result and whether an earlier attempt ended unknown). *)
Record SwapAnswer := {
  sa_now_ms : N;
  sa_cancelled : bool;
  sa_result : Result () MetaError.t;
  sa_earlier_unknown : bool;
}.

(** How an attempt ends after its PUT, and whether it calls [delete_unused]. *)
Definition after_put (c : SegmenterConfig) (written_at : N) (a : SwapAnswer)
  : bool * Result SegmentAttempt TaskError :=
  let late := millis c.(sc_swap_deadline) <? u64_saturating_sub a.(sa_now_ms) written_at in
  if a.(sa_cancelled) || late then (true, Ok Skipped)
  else
    match a.(sa_result) with
    | Ok _ => (false, Ok Swapped)
    | Err (MetaError.Rejected rejection) =>
        match rejection with
        | IndexMismatch _ _ | StaleObject _ _ _ _ => (negb a.(sa_earlier_unknown), Ok Skipped)
        | Fenced _ => (negb a.(sa_earlier_unknown), Err TaskFenced)
        | _ => (false, Err (TaskMeta (MetaError.Rejected rejection)))
        end
    | Err err => (false, Err (TaskMeta err))
    end.

(** [SegmentTask::delete_unused] deletes when the metastore knows nothing of the path. *)
Definition deletes_unused (known : Result bool MetaError.t) : bool :=
  match known with
  | Ok false => true
  | _ => false
  end.

(** ** A run of the task *)

Inductive TaskOutcome := Done | MoreWork | Idle.

Definition count_segment (r : SegmenterReport) : SegmenterReport :=
  {| rp_segments := u32_add r.(rp_segments) 1; rp_skipped := r.(rp_skipped);
     rp_failed := r.(rp_failed) |}.
Definition count_skipped (r : SegmenterReport) : SegmenterReport :=
  {| rp_segments := r.(rp_segments); rp_skipped := u32_add r.(rp_skipped) 1;
     rp_failed := r.(rp_failed) |}.
Definition count_failed (r : SegmenterReport) : SegmenterReport :=
  {| rp_segments := r.(rp_segments); rp_skipped := r.(rp_skipped);
     rp_failed := u32_add r.(rp_failed) 1 |}.

(** [SegmentTask::run]: [attempt] is how [segment] of the due entries ends, [due_after] what is
    due after it. *)
Definition run_segment (r : SegmenterReport) (due_before : Result (list IndexEntry) MetaError.t)
    (attempt : list IndexEntry → Result SegmentAttempt TaskError)
    (due_after : Result (list IndexEntry) MetaError.t) : SegmenterReport * Result TaskOutcome TaskError :=
  TRY entries <- map_err TaskMeta due_before IN r ;;
  if bool_decide (entries = []) then (r, Ok Idle)
  else
    match attempt entries with
    | Ok Swapped =>
        let r := count_segment r in
        TRY more <- map_err TaskMeta due_after IN r ;;
        (r, Ok (if bool_decide (more = []) then Done else MoreWork))
    | Ok Skipped => (count_skipped r, Ok Done)
    | Err TaskFenced => (count_skipped r, Err TaskFenced)
    | Err err => (count_failed r, Err err)
    end.

(** The report of [Segmenter::run_once]: [held] counts the tasks whose lease another holder had. *)
Definition run_once_report (before after : SegmenterReport) (held : nat) : SegmenterReport :=
  let r := report_minus after before in
  {| rp_segments := r.(rp_segments);
     rp_skipped := u32_add r.(rp_skipped) (default u32_MAX (u32_try_from (N.of_nat held)));
     rp_failed := r.(rp_failed) |}.

Context `{Ulids}.

(** What [segment] writes: the path, the object and its footer.  [None] is the panic of
    [finish]. *)
Definition segment_written (t : SegmentTask) (base_offset written_at random : N) (b : SegmentBuilder)
  : option (string * Bytes * SegmentFooter) :=
  let ulid := ulid_from_parts written_at random in
  '(bytes, f) ← segment_finish b;
  Some (Paths.segment t.(sg_namespace) t.(sg_stream) t.(sg_partition) base_offset
          (ulid_string ulid), bytes, f).

(** The swap [segment] asks for. *)
Definition segment_swap (c : SegmenterConfig) (t : SegmentTask) (entries : list IndexEntry)
    (path : string) (f : SegmentFooter) (max_timestamp : Z) (written_at : N) (fence : Fence) (now : N)
  : Command :=
  SwapSegment t.(sg_stream) t.(sg_partition) ((λ e, (e.(base_offset), e.(object))) <$> entries) path
    f.(sf_data) max_timestamp (Some fence) now
    {| created_at_ms := written_at; fresh_max_age_ms := millis c.(sc_swap_deadline) |}.
End segmenter.
