(* ===== verification/LogSegmenterInv.v ===== *)
(** * A segment holds the records of the entries it replaces

    [due_run] takes a run of WAL entries that follows the segments of a partition.  The segment
    built of stored WAL entries is the batches of the entries, in order, with their offsets: it
    is stored in the sense of the reader, and its records are those of the entries. *)

From Stdlib Require Import NArith ZArith Lia.
From stdpp Require Import prelude gmap strings numbers list.
From S2P Require Import Prelude.
From S2P Require Import BTree.
From S2P Require Import ByteCodec.
From S2P Require Import Ids.
From S2P Require Import MetaTypes.
From S2P Require Import MetaState.
From S2P Require Import MetaCatalog.
From S2P Require Import LogBatch.
From S2P Require Import LogBatchInv.
From S2P Require Import LogSegment.
From S2P Require Import LogSegmentInv.
From S2P Require Import LogReader.
From S2P Require Import LogReaderInv.
From S2P Require Import LogWriter.
From S2P Require Import LogSegmenter.

Open Scope N_scope.

(** ** The tasks *)

Lemma partition_tasks_spec c now read st todo partition ts t :
  partition_tasks c now read st todo partition = Ok ts → t ∈ ts →
  t.(sg_namespace) = st.(stream_namespace) ∧ t.(sg_stream) = st.(stream_id)
  ∧ partition <= t.(sg_partition) < partition + N.of_nat todo
  ∧ ∃ es, due c now (read t.(sg_stream) t.(sg_partition)) = Ok es ∧ es ≠ [].
Proof.
  revert partition ts. induction todo as [|todo IH]; intros partition ts E I; cbn in E.
  { injection E as <-. by apply elem_of_nil in I. }
  destruct (due c now (read st.(stream_id) partition)) as [es|] eqn:D; [|done]. cbn in E.
  destruct (partition_tasks _ _ _ _ _ _) as [rest|] eqn:R; [|done]. cbn in E. injection E as <-.
  assert (t ∈ rest → t.(sg_namespace) = st.(stream_namespace) ∧ t.(sg_stream) = st.(stream_id)
    ∧ partition <= t.(sg_partition) < partition + N.of_nat (S todo)
    ∧ ∃ es, due c now (read t.(sg_stream) t.(sg_partition)) = Ok es ∧ es ≠ []) as Rest.
  { intros J. destruct (IH _ _ R J) as (A & B & C & F). split_and!; [done|done|lia|lia|done]. }
  case_bool_decide as X; [by apply Rest|]. apply elem_of_cons in I as [->|I]; [|by apply Rest].
  cbn. split_and!; [done|done|lia|lia|by exists es].
Qed.

(** The tasks are partitions of standard streams with entries that are due. *)
Lemma candidates_spec c now sts read ts t :
  candidates c now (Ok sts) read = Ok ts → t ∈ ts →
  ∃ st, st ∈ sts ∧ st.(stream_class) = Standard ∧ t.(sg_namespace) = st.(stream_namespace)
    ∧ t.(sg_stream) = st.(stream_id) ∧ t.(sg_partition) < st.(stream_partitions)
    ∧ ∃ es, due c now (read t.(sg_stream) t.(sg_partition)) = Ok es ∧ es ≠ [].
Proof.
  unfold candidates. cbn. intros E I.
  assert (∀ st, st ∈ filter (λ st, stream_class st = Standard) sts → st ∈ sts ∧ stream_class st = Standard)
    as Std by (intros st Q; apply list_elem_of_filter in Q; tauto).
  revert ts E I Std. induction (filter _ sts) as [|st l IH]; intros ts E I Std; cbn in E.
  { injection E as <-. by apply elem_of_nil in I. }
  destruct (partition_tasks _ _ _ _ _ _) as [tasks|] eqn:P; [|done]. cbn in E.
  destruct (stream_tasks _ _ _ _) as [rest|] eqn:R; [|done]. cbn in E. injection E as <-.
  apply elem_of_app in I as [I|I].
  - destruct (partition_tasks_spec _ _ _ _ _ _ _ _ P I) as (A & B & C & F).
    destruct (Std st ltac:(left)). exists st. split_and!; try done. lia.
  - eapply (IH rest); [done|done|]. intros st' I'. apply Std. by right.
Qed.

(** ** The run that is due *)

Definition run_bytes (es : list IndexEntry) : N :=
  foldl (λ n e, u64_add n (u64_sub e.(byte_range).(range_end) e.(byte_range).(range_start))) 0 es.

Lemma skip_while_split {A} (p : A → bool) l :
  ∃ pre, l = pre ++ skip_while p l ∧ Forall (λ x, p x = true) pre.
Proof.
  induction l as [|x l (pre & E & F)]; [by exists []|]. cbn. destruct (p x) eqn:Ex; [|by exists []].
  exists (x :: pre). split; [by rewrite E at 1|by constructor].
Qed.

Lemma take_while_split {A} (p : A → bool) l :
  ∃ post, l = take_while p l ++ post ∧ Forall (λ x, p x = true) (take_while p l).
Proof.
  induction l as [|x l (post & E & F)]; [by exists []|]. cbn. destruct (p x) eqn:Ex; [|by exists (x :: l)].
  exists post. split; [cbn; by rewrite E at 1|by constructor].
Qed.

Lemma take_run_spec target es taken :
  (length taken = 1%nat ∨ run_bytes taken <= target ∨ taken = []) →
  let '(run, bytes) := take_run target es taken (run_bytes taken) in
  (∃ post, taken ++ es = run ++ post) ∧ bytes = run_bytes run
  ∧ (length run = 1%nat ∨ run_bytes run <= target ∨ run = []) ∧ (taken ++ es ≠ [] → run ≠ []).
Proof.
  revert taken. induction es as [|e es IH]; intros taken T; cbn [take_run].
  { split_and!; [by exists []|done|done|]. by rewrite app_nil_r. }
  set (n := u64_sub _ _). destruct (_ && _) eqn:E.
  - split_and!; [by exists (e :: es)|done|done|]. bools. done.
  - assert (run_bytes (taken ++ [e]) = u64_add (run_bytes taken) n) as Er
      by (unfold run_bytes; by rewrite foldl_app).
    specialize (IH (taken ++ [e])). rewrite Er in IH. rewrite <- app_assoc in IH. apply IH.
    apply andb_false_iff in E as [E|E]; bools.
    + rewrite E. by left.
    + right. left. done.
Qed.

(** What [due_run] returns: WAL entries right after the segments, of at most [target_bytes] unless
    there is only one. *)
Lemma due_run_spec state c cutoff :
  let run := due_run state c cutoff in
  run = [] ∨ ∃ pre post, state.(px_entries) = pre ++ run ++ post
    ∧ Forall (λ e, e.(entry_kind) = Segment) pre ∧ Forall (λ e, e.(entry_kind) = Wal) run
    ∧ (length run = 1%nat ∨ run_bytes run <= c.(sc_target_bytes)).
Proof.
  unfold due_run. set (tail := skip_while _ _). set (wal := take_while _ _).
  destruct (skip_while_split (λ e, bool_decide (entry_kind e = Segment)) (px_entries state))
    as (pre & Ep & Fp). fold tail in Ep.
  destruct (take_while_split (λ e, bool_decide (entry_kind e = Wal)) tail) as (post & Et & Fw).
  fold wal in Et, Fw.
  pose proof (take_run_spec (sc_target_bytes c) wal [] ltac:(by right; right)) as T.
  change (run_bytes []) with 0 in T. destruct (take_run _ wal [] 0) as [run bytes].
  destruct T as ((post' & Er) & _ & Lr & _). cbn [app] in Er. destruct run as [|e run]; [by left|].
  destruct (_ || _); [right|by left]. exists pre, (post' ++ post).
  rewrite Ep, Et, Er, <- app_assoc. split; [done|]. rewrite Er in Fw. apply Forall_app in Fw as [Fw _].
  split_and!.
  - eapply Forall_impl; [exact Fp|]. by intros ? ?%bool_decide_eq_true.
  - eapply Forall_impl; [exact Fw|]. by intros ? ?%bool_decide_eq_true.
  - destruct Lr as [?|[?|?]]; [by left|by right|done].
Qed.

(** ** Building *)

Section laws.
Context `{Crc32cOk}.

(** What stays of a builder as batches are pushed. *)
Record grown (b b' : SegmentBuilder) : Prop := {
  gr_stream : b'.(sb_stream) = b.(sb_stream);
  gr_partition : b'.(sb_partition) = b.(sb_partition);
  gr_encoding : b'.(sb_encoding) = b.(sb_encoding);
  gr_base : b'.(sb_base_offset) = b.(sb_base_offset);
}.

#[local] Instance grown_preorder : PreOrder grown.
Proof. split; [by split|]. intros a b d [] []. split; congruence. Qed.

Lemma push_batches_spec l b its :
  built b its → Forall stored_ok l → b.(sb_next_offset) + len (records_of l) <= u64_MAX →
  ∃ b' its', push_batches (items_of l) b = Ok b' ∧ built b' (its ++ its') ∧ grown b b'
    ∧ items_records its' = records_of l
    ∧ b'.(sb_next_offset) = b.(sb_next_offset) + len (records_of l).
Proof.
  intros Bt F. revert b its Bt. induction F as [|x l [Hx Fx] F IH]; intros b its Bt B.
  - exists b, []. rewrite app_nil_r. change (records_of []) with (@nil LogRecord).
    change (len []) with 0. rewrite N.add_0_r. by split_and!.
  - rewrite records_of_cons, len_app in *. rewrite items_of_cons.
    cbn [push_batches map_err batch_ref br_bytes br_record_count br_max_timestamp_ms].
    destruct (push_built b its x.1 x.2 (match x.2 with first :: tl => max_timestamp first tl | [] => 0%Z end)
      Bt Hx Fx ltac:(lia)) as (b1 & E1 & Bt1 & N1 & Gb & Gs & Gp & Ge).
    rewrite E1. cbn [map_err]. destruct (IH b1 _ Bt1 ltac:(lia)) as (b2 & its2 & -> & Bt2 & G2 & R2 & N2).
    exists b2. eexists. rewrite <- app_assoc in Bt2. split_and!; [done|exact Bt2| | |lia].
    + etransitivity; [|exact G2]. by split.
    + cbn [app]. rewrite items_records_cons. cbn [it_records]. by rewrite R2.
Qed.
Context `{ObjectCache} (objects : gmap string Bytes) `{!ObjectCacheOk objects}.

(** WAL entries that follow each other from [base] on, and their batches. *)
Fixpoint wal_run (base : N) (es : list IndexEntry) (ls : list (list Stored)) : Prop :=
  match es, ls with
  | [], [] => True
  | e :: es, l :: ls =>
      e.(base_offset) = base ∧ wal_stored objects e l ∧ wal_run (base + len (records_of l)) es ls
  | _, _ => False
  end.

Definition run_records (ls : list (list Stored)) : list LogRecord := concat (records_of <$> ls).

Lemma wal_bytes e l bs :
  wal_stored objects e l → cache_read e.(object) e.(byte_range) = Ok bs → bs = bytes_of l.
Proof.
  intros [(obj & Eo & _ & _ & Es) _ _ _ _ _] (obj' & Eo' & ->)%(cache_read_ok objects).
  by simplify_eq.
Qed.

Lemma push_entries_spec es ls b its ts :
  built b its → wal_run b.(sb_next_offset) es ls →
  (∃ b' its' ts', push_entries es b ts = Ok (b', ts') ∧ built b' (its ++ its') ∧ grown b b'
     ∧ items_records its' = run_records ls
     ∧ b'.(sb_next_offset) = b.(sb_next_offset) + len (run_records ls))
  ∨ ∃ e err, e ∈ es ∧ cache_read e.(object) e.(byte_range) = Err err
      ∧ push_entries es b ts = Err (TaskFailed (LogCache err)).
Proof.
  revert ls b its ts. induction es as [|e es IH]; intros ls b its ts Bt R.
  { destruct ls; [|done]. left. exists b, [], ts. rewrite app_nil_r.
    change (run_records []) with (@nil LogRecord). change (len []) with 0. rewrite N.add_0_r. by split_and!. }
  destruct ls as [|l ls]; [done|]. destruct R as (Eb & W & R). cbn [push_entries].
  destruct (cache_read (object e) (byte_range e)) as [bs|err] eqn:C; cbn [map_err].
  2: { right. exists e, err. split; [left|done]. }
  rewrite (wal_bytes e l bs W C), batches_stored by apply W. pose proof (ws_end _ _ _ W) as Ee.
  pose proof (ws_bound _ _ _ W).
  destruct (push_batches_spec l b its Bt (ws_batches _ _ _ W) ltac:(lia)) as (b1 & its1 & -> & Bt1 & G1 & R1 & N1).
  rewrite Ee, Eb, N1, N.eqb_refl. cbn [negb]. rewrite <- N1 in R.
  destruct (IH ls b1 _ (Z.max ts (max_timestamp_ms e)) Bt1 R)
    as [(b2 & its2 & ts2 & -> & Bt2 & G2 & R2 & N2)|(e' & err & I & C' & ->)].
  - left. exists b2, (its1 ++ its2), ts2. rewrite app_assoc.
    change (run_records (l :: ls)) with (records_of l ++ run_records ls). split_and!; try done.
    + by etransitivity.
    + by rewrite items_records_app, R1, R2.
    + rewrite len_app. lia.
  - right. exists e', err. split; [by right|done].
Qed.

(** The segment built of a run holds the records of the run. *)
Lemma build_segment_spec t e es ls :
  wal_run e.(base_offset) (e :: es) ls → e.(base_offset) <= u64_MAX →
  (∃ b its ts, build_segment t (e :: es) = Ok (b, ts) ∧ built b its ∧ items_records its = run_records ls
     ∧ b.(sb_stream) = t.(sg_stream) ∧ b.(sb_partition) = t.(sg_partition) ∧ b.(sb_encoding) = Kafka
     ∧ b.(sb_base_offset) = e.(base_offset)
     ∧ b.(sb_next_offset) = e.(base_offset) + len (run_records ls))
  ∨ ∃ e' err, e' ∈ e :: es ∧ cache_read e'.(object) e'.(byte_range) = Err err
      ∧ build_segment t (e :: es) = Err (TaskFailed (LogCache err)).
Proof.
  intros R B. unfold build_segment.
  destruct (push_entries_spec (e :: es) ls
    (segment_new (sg_stream t) (sg_partition t) (base_offset e) Kafka) [] i64_MIN)
    as [(b & its & ts & E & Bt & [G1 G2 G3 G4] & Ri & Nx)|F]; [by apply built_new|done| |by right].
  left. exists b, its, ts. by split_and!.
Qed.

Context `{Codec (list BatchIndexEntry)}.

(** The entry of a swap of such a segment is stored. *)
Lemma segment_stored t b its obj f path e :
  built b its → b.(sb_encoding) = Kafka → b.(sb_stream) = t.(sg_stream) →
  b.(sb_partition) = t.(sg_partition) → t.(sg_stream) <= u64_MAX → t.(sg_partition) <= u32_MAX →
  segment_finish b = Some (obj, f) → len obj <= u64_MAX →
  (∀ index, to_io b.(sb_batches) = Some index → len index <= u32_MAX) →
  objects !! path = Some obj → its ≠ [] →
  e.(object) = path → e.(base_offset) = b.(sb_base_offset) → end_offset e = b.(sb_next_offset) →
  e.(byte_range) = f.(sf_data) →
  seg_stored objects t.(sg_stream) t.(sg_partition) e b its.
Proof.
  intros Bt Ek Es Ep Bs Bp Fi Bo Li Eo Ni Eobj Eb Ee Er.
  destruct (segment_finish_shape b obj f Fi) as (index & tr & _ & -> & _).
  split; try done.
  - exists obj, (footer_of b). by rewrite Eobj.
  - split; [by rewrite Es|by rewrite Ep|done].
Qed.
End laws.
