(* ===== verification/LogOrigin.v ===== *)
(** * Where index entries come from

    Every WAL entry of a partition was put there by the one commit of its object that took
    effect, and has the base offset that commit answered.  Every segment entry was put there by
    a swap.  So a WAL object and a chunk of it name one entry for ever, however often its commit
    is retried. *)

From Stdlib Require Import NArith Lia.
From stdpp Require Import prelude gmap strings numbers list.
From S2P Require Import Prelude.
From S2P Require Import BTree.
From S2P Require Import Ids.
From S2P Require Import Schema.
From S2P Require Import MetaTypes.
From S2P Require Import MetaState.
From S2P Require Import MetaLog.
From S2P Require Import MetaApply.
From S2P Require Import CatalogInv.
From S2P Require Import MetaCatalogInv.
From S2P Require Import MetaFrames.
From S2P Require Import MetaAliasInv.
From S2P Require Import PartitionInv.
From S2P Require Import MetaObjects.
From S2P Require Import MetaLogInv.
From S2P Require Import MetaInvariants.
From S2P Require Import MetaSound.
From S2P Require Import MetaEnv.
From S2P Require Import MetaCommit.
From S2P Require Import MetaSteps.
From S2P Require Import LogRefinement.
From S2P Require Import MetaRetired.
From S2P Require Import MetaReads.

Open Scope N_scope.

Abbreviation start := MetaState_default (only parsing).

(** A commit that takes effect after [l1]. *)
Record effective (l1 : list Command) (obj : string) (t : N) (chunks : list WalChunk) (bases : list N)
  : Prop := {
  ef_new : (run start l1).(wal_commits) !! obj = None;
  ef_answer : (commit_wal (run start l1) obj t chunks).2 = Ok (WalCommitted bases);
}.

(** The entry [e] of partition [k] is a chunk of the commit of its object. *)
Definition origin (log : list Command) (k : PartKey) (e : IndexEntry) : Prop :=
  ∃ l1 l2 t chunks bases i c b,
    log = l1 ++ CommitWal e.(object) t chunks :: l2 ∧ effective l1 e.(object) t chunks bases
    ∧ chunks !! i = Some c ∧ bases !! i = Some b ∧ chunk_key c = k ∧ e = wal_entry b e.(object) c.

Lemma origin_app log k e l' : origin log k e → origin (log ++ l') k e.
Proof.
  intros (l1 & l2 & t & ch & bs & i & c & b & -> & O). exists l1, (l2 ++ l'), t, ch, bs, i, c, b.
  by rewrite <- app_assoc.
Qed.

(** The answers of effective commits of one object agree. *)
Lemma effective_agree log l1 l2 l1' l2' obj t t' ch ch' bs bs' :
  well_named log →
  log = l1 ++ CommitWal obj t ch :: l2 → log = l1' ++ CommitWal obj t' ch' :: l2' →
  effective l1 obj t ch bs → effective l1' obj t' ch' bs' → (length l1 <= length l1')%nat →
  l1 = l1' ∨ bs' = bs.
Proof.
  intros wn E E' [N A] [N' A'] L.
  assert (∀ t' ch', CommitWal obj t' ch' ∈ log → t' = t) as T.
  { intros u v I. eapply (wn_created _ wn _ (CommitWal obj t ch)); [exact I| |done|done].
    rewrite E. set_solver. }
  assert (t' = t) as -> by (apply (T t' ch'); rewrite E'; set_solver).
  rewrite E' in E. apply app_eq_inv in E as [(k & El & Er)|(k & El & Er)].
  - destruct k as [|x k]; [left; by rewrite El, app_nil_r|]. right. cbn in Er. injection Er as <- Er.
    pose proof (commit_wal_records _ _ _ _ _ A (or_introl N)) as C.
    apply (run_committed _ k) in C.
    + rewrite El, run_app, run_cons in A'. cbn [apply] in A'. exact (proj2 (recommit _ obj t bs ch' C) _ A').
    + intros u v I. apply (T u v). rewrite E', El. set_solver.
  - left. rewrite El, length_app in L. destruct k; [by rewrite app_nil_r in El|cbn in L; lia].
Qed.

(** ** Partitions after a commit *)

Lemma commit_wal_cases s obj t chunks :
  (commit_wal s obj t chunks).1.(partitions) = s.(partitions)
  ∨ ∃ bases s', s.(wal_commits) !! obj = None ∧ append_chunks s obj chunks [] = (s', Ok bases)
      ∧ (commit_wal s obj t chunks).1.(partitions) = s'.(partitions)
      ∧ (commit_wal s obj t chunks).2 = Ok (WalCommitted bases).
Proof.
  unfold commit_wal.
  match goal with |- (partitions (fst ?o) = _) ∨ (∃ bs s1, _ ∧ _ ∧ partitions (fst ?o) = _ ∧ snd ?o = _) =>
    change (ensures (λ s' r, partitions s' = partitions s ∨ ∃ bs s1, wal_commits s !! obj = None
      ∧ append_chunks s obj chunks [] = (s1, Ok bs) ∧ partitions s' = partitions s1
      ∧ r = Ok (WalCommitted bs)) o) end.
  destruct (validate_chunks s chunks) as [[]|] eqn:V; [|outcome_cases; by left].
  destruct (append_chunks s obj chunks []) as [s' [bases|]] eqn:A.
  - outcome_cases; try (by left). right. by eexists _, _.
  - exfalso. destruct (append_chunks_total s obj chunks [] (validated_partitions _ _ V))
      as (b & E & _). by rewrite A in E.
Qed.

(** The entries [append_all] leaves: the old ones, and one for each chunk. *)
Lemma append_all_origin ps obj cs b e :
  (append_all ps obj cs).(index) !! b = Some e →
  ps.(index) !! b = Some e
  ∨ ∃ j c, cs !! j = Some c
      ∧ e = wal_entry (append_all ps obj (take j cs)).(next_offset) obj c.
Proof.
  induction cs as [|c cs IH] using rev_ind; [by left|].
  unfold append_all at 1. rewrite foldl_app. cbn [foldl]. fold (append_all ps obj cs). cbn.
  rewrite lookup_insert_Some. intros [[<- <-]|[_ I]].
  - right. exists (length cs), c. rewrite list_lookup_middle by done.
    by rewrite take_app_length.
  - destruct (IH I) as [?|(j & c' & J & ->)]; [by left|right].
    exists j, c'. rewrite lookup_app_l by (by eapply lookup_lt_Some). split; [done|].
    rewrite take_app_le; [done|]. apply lookup_lt_Some in J. lia.
Qed.

Lemma filter_index {A} (P : A → Prop) `{∀ x, Decision (P x)} (l : list A) j x :
  filter P l !! j = Some x → ∃ i, l !! i = Some x ∧ filter P (take i l) = take j (filter P l).
Proof.
  revert j. induction l as [|y l IH]; intros j E; [done|]. rewrite filter_cons in E |- *. case_decide.
  - destruct j as [|j]; cbn in E.
    + injection E as ->. by exists 0%nat.
    + destruct (IH j E) as (i & I & F). exists (S i). split; [done|]. cbn [take].
      by rewrite filter_cons_True, F.
  - destruct (IH j E) as (i & I & F). exists (S i). split; [done|]. cbn [take].
    by rewrite filter_cons_False.
Qed.

(** The entry [e] of partition [k] is the segment of a swap. *)
Definition swap_origin (log : list Command) (k : PartKey) (e : IndexEntry) : Prop :=
  ∃ l1 l2 first obj rest seg range ts fence now fresh ps recs,
    log = l1 ++ SwapSegment k.1 k.2 ((first, obj) :: rest) seg range ts fence now fresh :: l2
    ∧ (run start l1).(partitions) !! k = Some ps
    ∧ check_replaces ps (IndexMismatch k.1 k.2) ((first, obj) :: rest) first 0 = Ok recs
    ∧ e = segment_entry first recs seg range ts.

Lemma swap_origin_app log k e l' : swap_origin log k e → swap_origin (log ++ l') k e.
Proof.
  intros (l1 & l2 & f & o & r & sg & ra & ts & fe & nw & fr & ps & rc & -> & O).
  exists l1, (l2 ++ l'), f, o, r, sg, ra, ts, fe, nw, fr, ps, rc. by rewrite <- app_assoc.
Qed.

Definition placed_by (log : list Command) (k : PartKey) (e : IndexEntry) : Prop :=
  match e.(entry_kind) with
  | Wal => origin log k e
  | Segment => swap_origin log k e
  end.

Lemma placed_by_app log k e l' : placed_by log k e → placed_by (log ++ l') k e.
Proof. unfold placed_by. destruct (entry_kind e); [apply origin_app|apply swap_origin_app]. Qed.

(** The entries a commit adds are its chunks. *)
Lemma commit_placed log obj t chunks k ps b e :
  (run start (log ++ [CommitWal obj t chunks])).(partitions) !! k = Some ps →
  ps.(index) !! b = Some e →
  (∃ ps0, (run start log).(partitions) !! k = Some ps0 ∧ ps0.(index) !! b = Some e)
  ∨ origin (log ++ [CommitWal obj t chunks]) k e ∧ e.(entry_kind) = Wal.
Proof.
  rewrite run_snoc. cbn [apply]. intros M I.
  destruct (commit_wal_cases (run start log) obj t chunks) as [E|(bases & s' & N & A & E & R)].
  { left. rewrite E in M. by exists ps. }
  rewrite E, (append_chunks_lookup _ _ _ _ _ _ k A) in M.
  destruct (partitions (run start log) !! k) as [ps0|] eqn:M0; [|done]. injection M as <-.
  apply append_all_origin in I as [I|(j & c & J & ->)]; [left; by exists ps0|right]. split; [|done].
  destruct (filter_index _ _ _ _ J) as (i & I & F).
  assert (chunk_key c = k) as Kc by (by apply list_elem_of_lookup_2, list_elem_of_filter in J as [? _]).
  destruct (append_chunks_bases _ _ _ _ _ _ i c A I) as (ps1 & M1 & Bi).
  rewrite Kc, M0 in M1. injection M1 as <-. cbn [length Nat.add] in Bi.
  rewrite Kc, F in Bi.
  exists log, [], t, chunks, bases, i, c. eexists. cbn [wal_entry object]. split_and!; try done.
Qed.

Lemma run_placed log k ps b e :
  well_named log → log_weight log <= u64_MAX →
  (run start log).(partitions) !! k = Some ps → ps.(index) !! b = Some e → placed_by log k e.
Proof.
  revert ps b e. induction log as [|c log IH] using rev_ind; intros ps b e wn B M I.
  { unfold run in M. cbn in M. by rewrite lookup_empty in M. }
  assert (well_named log) as wn0 by (by eapply well_named_app).
  assert (log_weight (log ++ [c]) = log_weight log + weight c) as Ew
    by (rewrite log_weight_app; cbn [log_weight]; lia).
  assert (1 <= weight c) by (unfold weight; lia).
  assert (∀ ps0, (run start log).(partitions) !! k = Some ps0 → ps0.(index) !! b = Some e →
    placed_by (log ++ [c]) k e) as Old.
  { intros ps0 M0 I0. apply placed_by_app. eapply IH; [done|lia|exact M0|exact I0]. }
  destruct (run_catalog 0 start log catalog_default naming_default) as [C _]; [lia|].
  pose proof (run_ok log wn0 ltac:(lia)) as [P _ _ _].
  pose proof (apply_part_step _ (run start log) c k C ltac:(lia)) as S.
  unfold steps_parts in S. rewrite <- run_snoc, M in S.
  inversion S as [x Ex|Lt|ps0|obj created chunks ps0 Ec _ _ Ch Ex|
      first obj rest seg range ts fence now fresh ps0 recs ps' removed Ec _ Cr Rm Ex|
      before fence now ps0 ps' removed Ec Pp Ex]; subst.
  - by eapply Old.
  - by rewrite (lookup_empty b : index PartitionState_default !! b = None) in I.
  - destruct (commit_placed log obj created chunks k _ b e M I)
      as [(ps1 & M1 & I1)|[O K]]; [by eapply Old|]. unfold placed_by. by rewrite K.
  - assert (log_weight log + entry_bytes (segment_entry first recs seg range ts) <= u64_MAX) as Bs.
    { rewrite Ew in B. unfold weight in B. cbn in B. unfold entry_bytes, u64_saturating_sub. cbn. lia. }
    destruct (swap_ok _ ps0 _ first obj rest recs (segment_entry first recs seg range ts)
      _ ps' removed Bs (P _ _ (eq_sym Ex)) Cr Rm eq_refl eq_refl eq_refl)
      as (pre & mid & post & E & _ & _ & _ & _ & _ & _ & E' & _).
    apply elem_of_btree_iter in I. rewrite E' in I.
    assert ((b, e) ∈ pre ++ mid ++ post ∨ (b, e) = (first, segment_entry first recs seg range ts))
      as [J|[= -> ->]] by set_solver.
    + rewrite <- E in J. apply elem_of_btree_iter in J. by eapply Old.
    + unfold placed_by. cbn. exists log, [], first, obj, rest, seg, range, ts, fence, now, fresh, ps0, recs.
      by split_and!.
  - destruct (trim_ok (log_weight log) ps0 (N.min before (next_offset ps0)) ps' removed ltac:(lia) (P _ _ (eq_sym Ex)) ltac:(lia) Pp)
      as (_ & _ & popped & kept & E & E' & _).
    apply elem_of_btree_iter in I. cbn in I. rewrite E' in I. eapply Old; [by rewrite <- Ex|].
    apply elem_of_btree_iter. rewrite E. set_solver.
Qed.
