(* ===== verification/LogSystem.v ===== *)
(** * The log plane as a whole

    Writers put WAL objects and commit them, segmenters read index entries, put segments and swap
    them in, and the metastore applies the commands in one order.  [objects] has what each path
    was written with; a path is written once.  [produced] says where the commits and swaps of a
    run come from: the flush of a writer, the attempt of a segmenter that planned with an earlier
    state.  Then the run is [faithful], so every partition is an append-only log, and every index
    entry is stored where the reader looks for it. *)

From Stdlib Require Import NArith ZArith Lia.
From stdpp Require Import prelude gmap strings numbers list.
From S2P Require Import Prelude.
From S2P Require Import BTree.
From S2P Require Import ByteCodec.
From S2P Require Import Ids.
From S2P Require Import MetaTypes.
From S2P Require Import Paths.
From S2P Require Import MetaState.
From S2P Require Import MetaLog.
From S2P Require Import MetaApply.
From S2P Require Import PartitionInv.
From S2P Require Import MetaLogInv.
From S2P Require Import MetaEnv.
From S2P Require Import MetaSteps.
From S2P Require Import LogRefinement.
From S2P Require Import MetaCatalog.
From S2P Require Import LogBatch.
From S2P Require Import LogBatchInv.
From S2P Require Import LogWal.
From S2P Require Import LogWalInv.
From S2P Require Import LogSegment.
From S2P Require Import LogSegmentInv.
From S2P Require Import LogReader.
From S2P Require Import LogReaderInv.
From S2P Require Import LogWriter.
From S2P Require Import LogWriterInv.
From S2P Require Import LogSegmenter.
From S2P Require Import LogSegmenterInv.
From S2P Require Import LogOrigin.

Open Scope N_scope.

Section system.
Context `{Crc32cOk}.
Context (objects : gmap string Bytes).

(** ** What a byte range holds *)

(** The records a byte range of an object decodes to. *)
Definition content (path : string) (r : Range) : list LogRecord :=
  match objects !! path with
  | Some obj =>
      match decode (slice obj r.(range_start) (r.(range_end) - r.(range_start))) 0 with
      | Ok rs => or_record <$> rs
      | Err _ => []
      end
  | None => []
  end.

Lemma at_offsets_records base recs : or_record <$> at_offsets base recs = recs.
Proof. revert base. induction recs as [|r recs IH]; intros base; cbn; [done|]. by rewrite IH. Qed.

Lemma content_stored path r obj l :
  objects !! path = Some obj →
  slice obj r.(range_start) (r.(range_end) - r.(range_start)) = bytes_of l →
  Forall stored_ok l → len (records_of l) <= u64_MAX → content path r = records_of l.
Proof.
  intros Eo Es F B. unfold content. rewrite Eo, Es, (decode_holds_all _ l.*2).
  - apply at_offsets_records.
  - exists l.*1. split; [done|]. split.
    + clear -F. induction F as [|b l [] F IH]; cbn; by constructor.
    + clear -F. induction F as [|b l [] F IH]; cbn; by constructor.
  - done.
Qed.

Lemma wal_content e l : wal_stored objects e l → content e.(object) e.(byte_range) = records_of l.
Proof.
  intros [(obj & Eo & _ & _ & Es) _ F _ Ee Be]. eapply content_stored; [done|done|done|]. lia.
Qed.

Lemma holds_len bs recs : holds bs recs → Forall record_ok recs → len recs <= u64_MAX.
Proof.
  intros Hb F. destruct (holds_says bs recs Hb F) as (first & tl & body & crc & _ & L & _).
  unfold i32_MAX, u64_MAX in *. lia.
Qed.

(** The batches of a buffer are determined by its bytes. *)
Lemma stored_unique l l' :
  Forall stored_ok l → Forall stored_ok l' → bytes_of l = bytes_of l' → l = l'.
Proof.
  intros F F' E. apply (f_equal batches) in E. rewrite !batches_stored in E by done.
  revert l' F' E. induction F as [|b l [Hb Rb] F IH]; intros l' F' E; (destruct F' as [|b' l' [Hb' Rb'] F']; try done).
  rewrite !items_of_cons in E. injection E as E1 E2 E3 E4. f_equal; [|by apply IH].
  pose proof (holds_len _ _ Hb Rb). pose proof (holds_len _ _ Hb' Rb').
  pose proof (decode_holds b.1 b.2 0 Hb Rb ltac:(lia)) as D.
  pose proof (decode_holds b'.1 b'.2 0 Hb' Rb' ltac:(lia)) as D'.
  assert (batch_ref b.1 b.2 = batch_ref b'.1 b'.2) as Eb by (unfold batch_ref; by rewrite E1, E2, E3).
  rewrite Eb, D' in D. apply Ok_inj, (f_equal (fmap or_record)) in D. rewrite !at_offsets_records in D.
  destruct b, b'. cbn in *. congruence.
Qed.

(** ** Segments *)

Context `{Codec (list BatchIndexEntry)} `{!CodecOk (list BatchIndexEntry) id}.

Lemma seg_content st pt e b l :
  seg_stored objects st pt e b l → content e.(object) e.(byte_range) = items_records l.
Proof.
  intros [(obj & f & Eo & Fi & Bo) Li Bt Ob _ Eb Ee Er _].
  destruct (segment_pieces b l obj f Ob Bt Fi Bo Li) as (index & t & -> & Es & _).
  rewrite <- records_of_items. eapply content_stored; [done| | |].
  - rewrite <- Er, bytes_of_items, <- (bt_data _ _ Bt). cbn [footer_of sf_data range_start range_end].
    eapply slice_at; [exact Es|by rewrite len_segment_header|lia].
  - eapply items_stored, (bt_items _ _ Bt).
  - rewrite records_of_items. pose proof (bt_next _ _ Bt). pose proof (bt_bound _ _ Bt). lia.
Qed.
(** ** Flushes *)

Context `{Codec (list ChunkMeta)} `{!CodecOk (list ChunkMeta) id} `{Ulids}.

(** A flush of the appends [l] that wrote [obj] under [path]. *)
Record flush_of (path : string) (c : LogConfig) (u : Bytes) (l : list (Pending * list LogRecord))
    (obj : Bytes) (metas : list ChunkMeta) : Prop := {
  fl_appends : Forall append_ok l;
  fl_ulid : length u = 16%nat;
  fl_node : c.(lc_node_id) <= u64_MAX;
  fl_written : wal_written c u l.*1 = Some (path, obj, metas);
  fl_object : objects !! path = Some obj;
  fl_small : len obj <= u64_MAX;
  fl_counts : ∀ k, len (appended k l) <= u32_MAX;
  fl_index : ∀ index, to_io metas = Some index → len index <= u32_MAX;
}.

Lemma wal_of_header c u ps :
  (wal_of c u ps).(wb_header)
  = {| wh_version := LogWal.VERSION; wh_class := Standard; wh_node_id := c.(lc_node_id); wh_ulid := u |}.
Proof.
  induction ps as [|p ps IH] using rev_ind; [done|]. unfold wal_of. rewrite foldl_app. exact IH.
Qed.

Lemma flush_finish path c u l obj metas :
  flush_of path c u l obj metas →
  path = wal_object Standard c.(lc_node_id) (ulid_string u)
  ∧ wal_finish (wal_of c u l.*1) = Some (obj, metas)
  ∧ wal_header_ok (wal_of c u l.*1).(wb_header).
Proof.
  intros [_ U Nd W _ _ _ _]. unfold wal_written in W.
  destruct (wal_finish (wal_of c u l.*1)) as [[obj' metas']|]; [|done]. cbn in W.
  injection W as <- <- <-. rewrite wal_of_header. done.
Qed.

Lemma flush_chunks path c u l obj metas :
  flush_of path c u l obj metas → map_Forall (λ _ ch, chunk_ok ch) (wal_of c u l.*1).(wb_chunks).
Proof.
  intros Fl k ch E. pose proof (wal_of_spec c u l k (fl_appends _ _ _ _ _ _ Fl)) as S.
  rewrite E in S. destruct S as [S1 S2 S3]. specialize (S3 (fl_counts _ _ _ _ _ _ Fl k)).
  assert (Forall stored_ok (stored_appends (appends_to k l))) as Fs.
  { unfold stored_appends. apply Forall_fmap, Forall_filter.
    eapply Forall_impl; [exact (fl_appends _ _ _ _ _ _ Fl)|]. by intros ? []. }
  unfold chunk_ok. rewrite S2, S3. unfold appended.
  destruct (appends_to k l) as [|a as_]; [done|]. cbn [stored_appends fmap list_fmap] in *.
  apply Forall_cons in Fs as [[Lb Lr]%stored_nonempty _]. cbn [fst snd] in *.
  rewrite bytes_of_cons, records_of_cons, len_app. cbn [fst snd]. split; [|lia].
  intros [E' _]%app_eq_nil. rewrite E' in Lb. change (len []) with 0 in Lb. lia.
Qed.

(** A path names one flush: its index and its ULID are in the object. *)
Lemma flush_unique path c u l obj metas c' u' l' obj' metas' :
  flush_of path c u l obj metas → flush_of path c' u' l' obj' metas' → metas' = metas ∧ u' = u.
Proof.
  intros F F'. pose proof (fl_object _ _ _ _ _ _ F) as E. pose proof (fl_object _ _ _ _ _ _ F') as E'.
  assert (obj' = obj) as -> by congruence.
  destruct (flush_finish _ _ _ _ _ _ F) as (_ & W & Hh).
  destruct (flush_finish _ _ _ _ _ _ F') as (_ & W' & Hh').
  pose proof (parse_finish _ _ _ Hh W (fl_small _ _ _ _ _ _ F) (flush_chunks _ _ _ _ _ _ F)
                (fl_index _ _ _ _ _ _ F)) as P.
  pose proof (parse_finish _ _ _ Hh' W' (fl_small _ _ _ _ _ _ F') (flush_chunks _ _ _ _ _ _ F')
                (fl_index _ _ _ _ _ _ F')) as P'.
  rewrite P' in P. apply Ok_inj, pair_equal_spec in P as [Eh ->]. split; [done|].
  rewrite !wal_of_header in Eh. by injection Eh.
Qed.

Lemma place_ge at_ cs j m : place at_ cs !! j = Some m → at_ <= m.(cm_offset).
Proof.
  revert at_ j. induction cs as [|[k c] cs IH]; intros at_ j J; [done|]. cbn [place] in J.
  destruct j as [|j]; cbn in J; [by injection J as <-|]. specialize (IH _ _ J). lia.
Qed.

(** Chunks of an object start at different places. *)
Lemma place_starts at_ cs i j m m' :
  Forall (λ kc, chunk_ok kc.2) cs → place at_ cs !! i = Some m → place at_ cs !! j = Some m' →
  m.(cm_offset) = m'.(cm_offset) → i = j.
Proof.
  intros F. revert at_ i j. induction F as [|[k c] cs [Np _] F IH]; intros at_ i j I J E; [done|].
  cbn [place snd] in *. assert (0 < len (pc_payload c)) as Lp.
  { unfold len. destruct (pc_payload c); [done|cbn; lia]. }
  destruct i as [|i], j as [|j]; cbn in I, J; [done| | |].
  - injection I as <-. apply place_ge in J. cbn in E. lia.
  - injection J as <-. apply place_ge in I. cbn in E. lia.
  - f_equal. by eapply IH.
Qed.
(** ** Runs *)

Context `{ObjectCache} `{!ObjectCacheOk objects}.

(** An attempt of the segmenter that planned with the state after [l0]. *)
Record attempt_of (l0 : list Command) (cmd : Command) (t : SegmentTask) (e : IndexEntry)
    (es : list IndexEntry) (b : SegmentBuilder) (path : string) (obj : Bytes) (f : SegmentFooter) : Prop := {
  at_planned : ∃ cfg cutoff ix,
    partition_index (run start l0) t.(sg_stream) t.(sg_partition) 0 None = Some ix
    ∧ due_run ix cfg cutoff = e :: es;
  at_command : ∃ cfg ts written_at random fence now, build_segment t (e :: es) = Ok (b, ts)
    ∧ segment_written t e.(base_offset) written_at random b = Some (path, obj, f)
    ∧ cmd = segment_swap cfg t (e :: es) path f ts written_at fence now;
  at_object : objects !! path = Some obj;
  at_small : len obj <= u64_MAX;
  at_index : ∀ index, to_io b.(sb_batches) = Some index → len index <= u32_MAX;
  at_typed : t.(sg_stream) <= u64_MAX ∧ t.(sg_partition) <= u32_MAX ∧ e.(base_offset) <= u64_MAX;
  at_namespace : t.(sg_namespace) <= u64_MAX;
  at_stream : ∃ la lb str, l0 = la ++ lb ∧ (run start la).(streams) !! t.(sg_stream) = Some str
    ∧ t.(sg_namespace) = str.(stream_namespace);
}.

Definition commit_produced (path : string) (t : N) (chunks : list WalChunk) : Prop :=
  ∃ c u l obj metas, flush_of path c u l obj metas ∧ t = ulid_timestamp_ms u
    ∧ chunks = chunk_of <$> metas.

(** Every commit and swap of the run was made by a writer or a segmenter. *)
Definition produced (log : list Command) : Prop :=
  ∀ l1 cmd l2, log = l1 ++ cmd :: l2 →
    match cmd with
    | CommitWal path t chunks => commit_produced path t chunks
    | SwapSegment _ _ _ _ _ _ _ _ _ =>
        ∃ l0 l0' t e es b path obj f, l1 = l0 ++ l0' ∧ attempt_of l0 cmd t e es b path obj f
    | _ => True
    end.

Lemma produced_prefix l l' : produced (l ++ l') → produced l.
Proof.
  intros P l1 cmd l2 ->. apply (P l1 cmd (l2 ++ l')). by rewrite <- app_assoc.
Qed.

Lemma produced_commit log path t chunks :
  produced log → CommitWal path t chunks ∈ log → commit_produced path t chunks.
Proof. intros P (l1 & l2 & E)%list_elem_of_split. exact (P l1 _ l2 E). Qed.

(** The commits of a path agree. *)
Lemma commit_unique path t chunks t' chunks' :
  commit_produced path t chunks → commit_produced path t' chunks' → t' = t ∧ chunks' = chunks.
Proof.
  intros (c & u & l & obj & metas & F & -> & ->) (c' & u' & l' & obj' & metas' & F' & -> & ->).
  by destruct (flush_unique _ _ _ _ _ _ _ _ _ _ _ F F') as [-> ->].
Qed.

Lemma produced_named log : produced log → well_named log.
Proof.
  intros P. split.
  - intros cmd obj t I E. destruct cmd; try done. injection E as -> ->.
    destruct (produced_commit _ _ _ _ P I) as (c & u & l & o & metas & F & _).
    apply flush_finish in F as (-> & _). by eexists _, _, _.
  - intros cmd cmd' obj t t' I I' E E'. destruct cmd, cmd'; try done. injection E as -> ->.
    injection E' as -> ->. symmetry.
    eapply commit_unique; [exact (produced_commit _ _ _ _ P I)|exact (produced_commit _ _ _ _ P I')].
  - intros cmd seg st p b I E. destruct cmd; try done.
    apply list_elem_of_split in I as (l1 & l2 & ->).
    destruct (P l1 _ l2 eq_refl) as (l0 & l0' & t & e & es & bl & path & obj & f & _ & A).
    destruct A as [_ (cfg & ts & wa & rnd & fe & now & _ & W & Ec) _ _ _ (B1 & B2 & B3) _ _].
    unfold segment_swap in Ec. injection Ec as -> -> -> -> _ _ _ _ _. injection E as <- <- <- <-.
    unfold segment_written in W. destruct (segment_finish bl) as [[o fo]|]; [|done]. cbn in W.
    injection W as <- _ _. split_and!; [done| |done|by eexists _, _].
    unfold u32_MAX, u64_MAX in *. lia.
Qed.
Section run.
Context (log : list Command) (P : produced log) (B : log_weight log <= u64_MAX).

Lemma bases_agree l1 l2 l1' l2' obj t t' ch ch' bs bs' :
  log = l1 ++ CommitWal obj t ch :: l2 → log = l1' ++ CommitWal obj t' ch' :: l2' →
  effective l1 obj t ch bs → effective l1' obj t' ch' bs' → bs' = bs ∧ t' = t ∧ ch' = ch.
Proof.
  intros E E' F F'. pose proof (produced_named log P) as wn.
  destruct (commit_unique obj t ch t' ch') as [-> ->];
    [eapply produced_commit; [exact P|rewrite E; set_solver]
    |eapply produced_commit; [exact P|rewrite E'; set_solver]|].
  split; [|done]. assert (l1 = l1' → bs' = bs) as Same.
  { intros <-. destruct F as [_ A], F' as [_ A']. rewrite A in A'. by injection A'. }
  destruct (decide (length l1 <= length l1')%nat) as [L|L].
  - destruct (effective_agree log l1 l2 l1' l2' obj t t ch ch bs bs' wn E E' F F' L); auto.
  - destruct (effective_agree log l1' l2' l1 l2 obj t t ch ch bs' bs wn E' E F' F) as [?|?];
      [lia|auto|done].
Qed.

(** A WAL object has one entry in a partition, and one entry at a position of it. *)
Lemma origin_unique k e k' e' :
  origin log k e → origin log k' e' → e.(object) = e'.(object) →
  (k = k' ∨ e.(byte_range).(range_start) = e'.(byte_range).(range_start)) → e = e'.
Proof.
  intros (l1 & l2 & t & ch & bs & i & c & b & E & F & I & Ib & K & Ee)
    (l1' & l2' & t' & ch' & bs' & i' & c' & b' & E' & F' & I' & Ib' & K' & Ee') Eo D.
  rewrite <- Eo in *. destruct (bases_agree _ _ _ _ _ _ _ _ _ _ _ E E' F F') as (-> & -> & ->).
  assert (commit_produced (object e) t ch) as (cf & u & l & obj & metas & Fl & _ & Ec)
    by (eapply produced_commit; [exact P|rewrite E; set_solver]).
  destruct (flush_finish _ _ _ _ _ _ Fl) as (_ & Fi & Hh).
  rewrite Ec in I, I'. apply list_lookup_fmap_Some in I as (m & -> & I).
  apply list_lookup_fmap_Some in I' as (m' & -> & I').
  enough (i = i') as <- by congruence.
  destruct (finish_shape _ _ _ Hh Fi (fl_small _ _ _ _ _ _ Fl)) as (index & _ & Em & _).
  destruct D as [<-|D].
  - pose proof (metas_keys cf u l obj metas Hh Fi (fl_small _ _ _ _ _ _ Fl)) as Ek.
    pose proof (btree_iter_NoDup (wb_chunks (wal_of cf u l.*1))) as Nd. rewrite <- Ek in Nd.
    eapply NoDup_lookup; [exact Nd| |].
    + by rewrite list_lookup_fmap, I.
    + rewrite list_lookup_fmap, I'. cbn. f_equal. by transitivity k.
  - rewrite Ee, Ee' in D. cbn in D. rewrite Em in I, I'.
    eapply place_starts; [|exact I|exact I'|exact D].
    apply Forall_forall. intros [q pc] Iq%elem_of_btree_iter. exact (flush_chunks _ _ _ _ _ _ Fl q pc Iq).
Qed.

(** The WAL entries of a state of the run are stored. *)
Lemma wal_entry_stored l l' k ps b e :
  log = l ++ l' → (run start l).(partitions) !! k = Some ps → ps.(index) !! b = Some e →
  e.(entry_kind) = Wal → origin log k e ∧ ∃ ls, wal_stored objects e ls.
Proof.
  intros El M I Kd. pose proof (produced_named log P) as wn.
  assert (log_weight l <= u64_MAX) as Bl by (rewrite El, log_weight_app in B; lia).
  assert (well_named l) as wnl by (rewrite El in wn; by eapply well_named_app).
  pose proof (run_placed l k ps b e wnl Bl M I) as O. unfold placed_by in O. rewrite Kd in O.
  assert (origin log k e) as O' by (rewrite El; by apply origin_app). split; [done|].
  destruct O' as (l1 & l2 & t & ch & bs & i & c & b' & E & F & Ii & Ib & K & Ee).
  assert (commit_produced (object e) t ch) as (cf & u & la & obj & metas & Fl & _ & Ec)
    by (eapply produced_commit; [exact P|rewrite E; set_solver]).
  destruct (flush_finish _ _ _ _ _ _ Fl) as (_ & Fi & Hh).
  rewrite Ec in Ii. apply list_lookup_fmap_Some in Ii as (m & -> & Ii).
  eexists. rewrite Ee. eapply (chunk_stored cf u la obj metas); try done; try apply Fl.
  destruct (run_ok l wnl Bl) as [Po _ _ _]. destruct (Po _ _ M) as [[a T] _ _ Ln _].
  apply elem_of_btree_iter in I. destruct (tiles_elem _ _ _ _ _ T I) as (Eb & _ & _ & Le).
  rewrite Ee in Eb, Le. cbn in Eb, Le. lia.
Qed.
(** ** Swaps *)

Fixpoint sum_records_of (es : list IndexEntry) : N :=
  match es with [] => 0 | e :: es => e.(records) + sum_records_of es end.

Lemma sum_records_snd es : sum_records es = sum_records_of es.*2.
Proof. induction es as [|e es IH]; cbn; [done|]. by rewrite IH. Qed.

Lemma stored_tiles a es stop :
  tiles a es stop → stop <= u64_MAX →
  (∀ k e, (k, e) ∈ es → ∃ l, wal_stored objects e l) →
  ∃ ls, wal_run objects a es.*2 ls ∧ len (run_records ls) = sum_records es.
Proof.
  revert a. induction es as [|[k e] es IH]; intros a T Bs F; [by exists []|].
  pose proof (tiles_elem _ _ _ k e T ltac:(left)) as (_ & _ & _ & Le).
  destruct T as (-> & Eb & _ & T). destruct (F a e ltac:(left)) as [l W].
  pose proof (ws_end _ _ _ W) as Ee. unfold end_offset in Ee. rewrite u64_add_small in Ee by lia.
  assert (records e = len (records_of l)) as Er by lia.
  destruct (IH _ T Bs) as (ls & R & Ln). { intros k' e' I. apply (F k'). by right. }
  exists (l :: ls). rewrite Er in R. split; [by split_and!|].
  change (run_records (l :: ls)) with (records_of l ++ run_records ls).
  rewrite len_app, Ln. cbn. lia.
Qed.

(** The entries of an attempt follow each other and are stored. *)
Lemma attempt_run l0 l' cmd t e es b path obj f :
  log = l0 ++ l' → attempt_of l0 cmd t e es b path obj f →
  ∃ ls, wal_run objects e.(base_offset) (e :: es) ls
    ∧ e.(base_offset) + len (run_records ls) <= u64_MAX
    ∧ len (run_records ls) = sum_records_of (e :: es)
    ∧ Forall (origin log (t.(sg_stream), t.(sg_partition))) (e :: es).
Proof.
  intros El [(cfg & cutoff & ix & Px & Dr) _ _ _ _ _ _ _]. unfold partition_index in Px.
  destruct (MetaCatalog.stream _ _) as [str|]; [|done]. cbn in Px.
  destruct (MetaLog.partition_of _ _ _) as [ps|] eqn:M; [|done]. cbn in Px. injection Px as <-.
  pose proof (produced_named log P) as wn. rewrite El in wn. apply well_named_app in wn.
  assert (log_weight l0 <= u64_MAX) as B0 by (rewrite El, log_weight_app in B; lia).
  destruct (run_ok l0 wn B0) as [Po _ _ _]. specialize (Po _ _ M).
  pose proof (due_run_spec {| px_log_start_offset := log_start_offset ps; px_next_offset := next_offset ps;
    px_bytes := bytes ps; px_entries := entries_page None true 0 (entries_from ps 0) |} cfg cutoff) as S.
  cbv zeta in S. rewrite Dr in S. cbn [px_entries] in S. rewrite entries_page_all in S.
  destruct S as [?|(pre & post & Ep & _ & Fw & _)]; [done|].
  destruct (entries_from_spec _ ps B0 Po 0) as (pre0 & post0 & Ei & Ef & _). rewrite Ef in Ep.
  apply fmap_app_inv in Ep as (p1 & p23 & -> & E23 & ->).
  symmetry in E23. apply fmap_app_inv in E23 as (p2 & p3 & Er & -> & ->).
  pose proof Po as [[a T] _ _ Ln _]. rewrite Ei in T. pose proof (tiles_sum _ _ _ T) as Sm.
  rewrite !sum_records_app in Sm.
  apply tiles_app in T as [_ T]. apply tiles_app in T as [_ T]. apply tiles_app in T as [T _].
  set (a' := a + sum_records pre0 + sum_records p1) in *.
  assert (∀ k e', (k, e') ∈ p2 → origin log (sg_stream t, sg_partition t) e'
    ∧ ∃ ls, wal_stored objects e' ls) as In.
  { intros k e' I. apply (wal_entry_stored l0 l' _ ps k e' El M).
    - apply elem_of_btree_iter. rewrite Ei. set_solver.
    - rewrite Forall_forall in Fw. apply Fw. rewrite Er. by apply (list_elem_of_fmap_2 snd) in I. }
  destruct (stored_tiles a' p2 _ T) as (ls & R & Lr); [lia|intros k e' I; by apply (In k)|].
  assert (base_offset e = a') as Eb
    by (destruct p2 as [|[k2 e2] p2]; [done|]; injection Er as -> _; by destruct T as (_ & ? & _)).
  exists ls. rewrite Er, Eb, <- sum_records_snd. split_and!; [done|lia|done|].
  apply Forall_forall. intros e' ([k e''] & -> & I)%list_elem_of_fmap. by apply (In k).
Qed.
(** The entries a swap replaces are the ones its segmenter read. *)
Lemma replaced_same ps mm k es expected acc recs :
  Forall (origin log k) es →
  (∀ b e, ps.(index) !! b = Some e → e.(entry_kind) = Wal → origin log k e) →
  check_replaces ps mm ((λ e, (e.(base_offset), e.(object))) <$> es) expected acc = Ok recs →
  Forall (λ e, ps.(index) !! e.(base_offset) = Some e) es ∧ recs = acc + sum_records_of es.
Proof.
  intros F O. revert expected acc. induction F as [|e es Oe F IH]; intros expected acc C; cbn in C.
  { injection C as <-. split; [done|]. cbn. lia. }
  destruct (index ps !! base_offset e) as [e'|] eqn:I; [|done].
  destruct (_ || _) eqn:Ch; [done|]. bools.
  assert (e' = e) as -> by (eapply (origin_unique k _ k); [by eapply O|done|done|by left]).
  unfold u32_checked_add in C. destruct (acc + records e <=? u32_MAX); [|done].
  apply IH in C as [Fi ->]. split; [by constructor|]. cbn. lia.
Qed.

Lemma run_contents base es ls :
  wal_run objects base es ls → concat (entry_content content <$> es) = run_records ls.
Proof.
  revert base ls. induction es as [|e es IH]; intros base [|l ls] R; try done.
  destruct R as (_ & W & R). cbn [fmap list_fmap concat].
  change (run_records (l :: ls)) with (records_of l ++ run_records ls). f_equal.
  - by apply wal_content.
  - by eapply IH.
Qed.

Lemma replaced_omap ps es :
  Forall (λ e, ps.(index) !! e.(base_offset) = Some e) es →
  omap (λ b, ps.(index) !! b) (base_offset <$> es) = es.
Proof. induction 1 as [|e es I F IH]; cbn; [done|]. by rewrite I, IH. Qed.

(** A swap that is applied puts in a segment with the records of the entries it replaces, stored
    where its entry says. *)
Lemma swap_stored l1 l2 st p first obj rest seg range ts fence now fresh ps recs :
  log = l1 ++ SwapSegment st p ((first, obj) :: rest) seg range ts fence now fresh :: l2 →
  (run start l1).(partitions) !! (st, p) = Some ps →
  check_replaces ps (IndexMismatch st p) ((first, obj) :: rest) first 0 = Ok recs →
  ∃ b its, seg_stored objects st p (segment_entry first recs seg range ts) b its
    ∧ items_records its = replaced_content content ps (first :: rest.*1).
Proof.
  intros El M C. destruct (P l1 _ l2 El) as (l0 & l0' & t & e & es & b & path & o & f & E0 & A).
  pose proof A as [_ (cfg & ts' & wa & rnd & fe & nw & Bs & W & Ec) Eo Sm Li (B1 & B2 & B3)].
  unfold segment_swap in Ec. injection Ec as -> -> -> -> -> -> -> -> -> ->.
  assert (∃ l', log = l0 ++ l') as [l' E'] by (eexists; rewrite El, E0, <- app_assoc; reflexivity).
  destruct (attempt_run l0 l' _ t e es b path o f E' A) as (ls & R & Br & Lr & Or).
  assert (∀ b e, index ps !! b = Some e → entry_kind e = Wal →
    origin log (sg_stream t, sg_partition t) e) as Oi.
  { intros b' e' I Kd. by apply (wal_entry_stored l1 _ _ ps b' e' El M I Kd). }
  destruct (replaced_same ps _ _ (e :: es) _ _ recs Or Oi C) as [Fi Er].
  destruct (build_segment_spec objects t e es ls R B3)
    as [(b' & its & ts2 & Bs' & Bt & Ri & Gs & Gp & Ge & Gb & Gn)|(? & ? & _ & _ & Bs')]; [|congruence].
  rewrite Bs in Bs'. injection Bs' as <- <-.
  unfold segment_written in W. destruct (segment_finish b) as [[o' f']|] eqn:Fin; [|done]. cbn in W.
  injection W as <- <- <-. exists b, its. split.
  - eapply segment_stored; try done.
    + intros ->. change (items_records []) with (@nil LogRecord) in Ri.
      destruct ls as [|l ls]; [done|]. destruct R as (_ & We & _).
      pose proof (ws_nonempty _ _ _ We) as Ne. pose proof (ws_batches _ _ _ We) as Fb.
      change (run_records (l :: ls)) with (records_of l ++ run_records ls) in Ri.
      destruct Fb as [|x l [_ Lx]%stored_nonempty _]; [done|]. rewrite records_of_cons in Ri.
      destruct x.2; [|done]. done.
    + unfold end_offset. cbn [segment_entry base_offset records].
      rewrite u64_add_small by lia. rewrite Gn, Er, Lr. lia.
  - rewrite Ri. unfold replaced_content.
    match goal with |- context [omap _ ?bs] => assert (bs = base_offset <$> e :: es) as -> end.
    { cbn. f_equal. clear. induction es as [|e es IH]; cbn; [done|]. by rewrite IH. }
    rewrite (replaced_omap ps (e :: es) Fi). symmetry. by eapply run_contents.
Qed.
(** ** The contract of the writers holds *)

Lemma commit_faithful path t chunks :
  commit_produced path t chunks →
  Forall (λ c, len (content path c.(chunk_byte_range)) = c.(chunk_records)) chunks.
Proof.
  intros (c & u & l & obj & metas & Fl & _ & ->). destruct (flush_finish _ _ _ _ _ _ Fl) as (_ & Fi & Hh).
  apply Forall_fmap, Forall_forall. intros m [j J]%list_elem_of_lookup. cbn.
  destruct (meta_spec c u l obj metas (fl_appends _ _ _ _ _ _ Fl) Hh Fi (fl_small _ _ _ _ _ _ Fl)
    (fl_counts _ _ _ _ _ _ Fl) j m J) as (_ & Er & _).
  pose proof (fl_counts _ _ _ _ _ _ Fl (cm_key m)).
  pose proof (chunk_stored c u l obj metas (fl_appends _ _ _ _ _ _ Fl) Hh Fi (fl_small _ _ _ _ _ _ Fl)
    (fl_counts _ _ _ _ _ _ Fl) objects path j m 0 (fl_object _ _ _ _ _ _ Fl) J) as S.
  rewrite (wal_content _ _ (S ltac:(unfold u32_MAX, u64_MAX in *; lia)) : content path (chunk_range m) = _).
  by rewrite Er.
Qed.

Lemma run_faithful_from l1 l2 : log = l1 ++ l2 → faithful_run content (run start l1) l2.
Proof.
  revert l1. induction l2 as [|c l2 IH]; intros l1 E; [done|]. cbn [faithful_run]. split.
  - pose proof (P l1 c l2 E) as Pc. destruct c; try done.
    + by eapply commit_faithful.
    + destruct replaces as [|[first obj] rest]; [done|]. cbn [faithful]. intros ps recs M C.
      destruct (swap_stored _ _ _ _ _ _ _ _ _ _ _ _ _ ps recs E M C) as (b & its & S & <-).
      exact (seg_content _ _ _ _ _ S).
  - rewrite <- run_snoc. apply IH. by rewrite E, <- app_assoc.
Qed.

Lemma run_faithful : faithful_run content start log.
Proof. by apply (run_faithful_from []). Qed.

(** ** Every entry is stored *)

(** The WAL entries of the run. *)
Definition met (e : IndexEntry) (l : list (Bytes * list LogRecord)) : Prop :=
  (∃ k, origin log k e) ∧ wal_stored objects e l.

Lemma met_stored e l : met e l → wal_stored objects e l.
Proof. by intros []. Qed.

Lemma met_unique e l e' l' :
  met e l → met e' l' → e.(object) = e'.(object) →
  e.(byte_range).(range_start) = e'.(byte_range).(range_start) → e = e' ∧ l = l'.
Proof.
  intros [[k O] W] [[k' O'] W'] Eo Er.
  assert (e = e') as <- by (eapply origin_unique; eauto). split; [done|].
  destruct W as [(obj & E & _ & _ & S) _ F _ _ _], W' as [(obj' & E' & _ & _ & S') _ F' _ _ _].
  apply stored_unique; [done|done|]. congruence.
Qed.

Lemma index_stored l l' k ps b e :
  log = l ++ l' → (run start l).(partitions) !! k = Some ps → ps.(index) !! b = Some e →
  entry_stored objects met k.1 k.2 e (entry_content content e).
Proof.
  intros El M I. destruct (entry_kind e) eqn:Kd.
  - destruct (wal_entry_stored l l' k ps b e El M I Kd) as [O (ls & W)].
    unfold entry_content. rewrite (wal_content e ls W). apply stored_wal; [done|]. split; [by exists k|done].
  - pose proof (produced_named log P) as wn. rewrite El in wn. apply well_named_app in wn.
    assert (log_weight l <= u64_MAX) as B0 by (rewrite El, log_weight_app in B; lia).
    pose proof (run_placed l k ps b e wn B0 M I) as O. unfold placed_by in O. rewrite Kd in O.
    apply (swap_origin_app _ _ _ l') in O. rewrite <- El in O.
    destruct O as (l1 & l2 & first & obj & rest & seg & range & ts & fe & nw & fr & ps1 & recs & E1 & M1 & C & ->).
    rewrite (surjective_pairing k) in M1.
    destruct (swap_stored l1 l2 k.1 k.2 first obj rest seg range ts fe nw fr ps1 recs E1 M1 C)
      as (bl & its & S & _).
    unfold entry_content. rewrite (seg_content _ _ _ _ _ S). by eapply stored_segment.
Qed.

(** The byte range of an index entry is not empty. *)
Lemma entry_range l l' k ps b e :
  log = l ++ l' → (run start l).(partitions) !! k = Some ps → ps.(index) !! b = Some e →
  e.(byte_range).(range_start) < e.(byte_range).(range_end) ∧ e.(byte_range).(range_end) <= u64_MAX.
Proof.
  intros El M I. destruct (index_stored l l' k ps b e El M I) as [ls _ [_ W]|bd its _ S].
  - destruct W as [(obj & _ & Le & Lo & Es) Rg Fs Ns _ _]. split; [|lia].
    destruct ls as [|x ls]; [done|]. apply Forall_cons in Fs as [[Lx _]%stored_nonempty _].
    apply (f_equal len) in Es. rewrite bytes_of_cons, len_app in Es. unfold slice, len in *.
    rewrite length_take, length_drop in Es. lia.
  - destruct S as [(obj & f & _ & Fi & Lo) _ Bt _ _ _ _ Rg Ns].
    destruct (segment_finish_shape _ _ _ Fi) as (index & t & _ & _ & _ & Eo). rewrite <- Rg.
    assert (0 < len bd.(sb_data)) as Ld.
    { rewrite (bt_data _ _ Bt). destruct its as [|x its]; [done|]. destruct (bt_items _ _ Bt) as [Ix _].
      apply item_nonempty in Ix as [_ Lx]. change (x :: its) with ([x] ++ its).
      rewrite items_bytes_app, len_app. unfold items_bytes at 1. cbn [fmap list_fmap concat].
      rewrite len_app. lia. }
    apply (f_equal len) in Eo. rewrite !len_app, len_segment_header in Eo.
    cbn [footer_of sf_data range_start range_end]. lia.
Qed.
End run.
End system.
