(* ===== verification/LogFetch.v ===== *)
(** * What a fetch returns of the log

    [fetch_returns]: over the states of a run the writers and segmenters produced, a fetch
    answers with the records of the partition's append-only log from its offset on, whole and in
    order, whatever WAL objects and segments hold them at the time and whatever the reader's
    caches have learned.  It fails only where the range cache does. *)

From Stdlib Require Import NArith ZArith Lia.
From stdpp Require Import prelude gmap strings numbers list.
From S2P Require Import Prelude.
From S2P Require Import BTree.
From S2P Require Import ByteCodec.
From S2P Require Import Ids.
From S2P Require Import MetaTypes.
From S2P Require Import MetaState.
From S2P Require Import MetaLog.
From S2P Require Import MetaCatalog.
From S2P Require Import MetaApply.
From S2P Require Import PartitionInv.
From S2P Require Import MetaLogInv.
From S2P Require Import MetaEnv.
From S2P Require Import LogRefinement.
From S2P Require Import LogBatch.
From S2P Require Import LogBatchInv.
From S2P Require Import LogWal.
From S2P Require Import LogSegment.
From S2P Require Import LogReader.
From S2P Require Import LogReaderInv.
From S2P Require Import LogWriter.
From S2P Require Import LogOrigin.
From S2P Require Import LogSystem.

Open Scope N_scope.

(** ** Lists *)

Lemma since_from o a recs :
  a <= o → o <= a + len recs → since o a recs = at_offsets o (drop (N.to_nat (o - a)) recs).
Proof.
  intros L1 L2. rewrite <- (take_drop (N.to_nat (o - a)) recs) at 1. rewrite since_app.
  assert (len (take (N.to_nat (o - a)) recs) = o - a) as E
    by (unfold len in *; rewrite length_take; lia).
  rewrite since_skip by lia. rewrite E. replace (a + (o - a)) with o by lia.
  cbn [app]. apply since_all. lia.
Qed.

Lemma prefix_at_offsets o recs rs :
  rs `prefix_of` at_offsets o recs →
  rs = at_offsets o (take (length rs) recs) ∧ (length rs <= length recs)%nat.
Proof.
  revert o recs. induction rs as [|r rs IH]; intros o recs Pf; [split; [done|cbn; lia]|].
  destruct recs as [|x recs]; cbn [at_offsets] in Pf.
  { by apply prefix_nil_inv in Pf. }
  apply prefix_cons_inv_1 in Pf as E. subst r. apply prefix_cons_inv_2, IH in Pf as [E L].
  cbn. split; [by rewrite <- E|lia].
Qed.

Lemma drop_slice {A} (l : list A) k n m : drop (N.to_nat m) (slice l k n) = slice l (k + m) (n - m).
Proof.
  unfold slice. rewrite skipn_firstn_comm, drop_drop. f_equal; [lia|]. f_equal. lia.
Qed.

Lemma take_slice {A} (l : list A) k n m :
  (m <= N.to_nat n)%nat → take m (slice l k n) = slice l k (N.of_nat m).
Proof. intros L. unfold slice. rewrite take_take. f_equal. lia. Qed.

Lemma entries_page_prefix m first bytes es :
  entries_page m first bytes es `prefix_of` es
  ∧ (first = true → es ≠ [] → entries_page m first bytes es ≠ []).
Proof.
  revert first bytes. induction es as [|e es IH]; intros first bytes; [done|]. cbn [entries_page].
  destruct (match m with Some m => _ | None => false end) eqn:E.
  - split; [apply prefix_nil|]. intros -> _. by destruct m.
  - split; [|done]. apply prefix_cons. apply IH.
Qed.

(** ** Plans *)

Lemma plan_spec s request p :
  plan s request = Ok p → ∃ ps,
    s.(partitions) !! (fr_stream request, fr_partition request) = Some ps
    ∧ p.(pl_log_start_offset) = ps.(log_start_offset) ∧ p.(pl_high_watermark) = ps.(next_offset)
    ∧ p.(pl_entries) = entries_page (Some (fr_max_bytes request)) true 0
                         (entries_from ps (fr_offset request)).
Proof.
  unfold plan, partition_index. destruct (stream s (fr_stream request)) as [st|]; cbn; [|done].
  destruct (partition_of s _ _) as [ps|] eqn:M; cbn; [|done]. intros [= <-]. by exists ps.
Qed.

(** The entries of a plan tile, from an offset at or below the request's. *)
Lemma plan_tiles W ps o mx :
  W <= u64_MAX → partition_ok W ps → ps.(log_start_offset) <= o < ps.(next_offset) →
  ∃ a es stop, entries_page mx true 0 (entries_from ps o) = es.*2 ∧ tiles a es stop
    ∧ a <= o ∧ es ≠ [] ∧ stop <= ps.(next_offset)
    ∧ (∀ k e, (k, e) ∈ es → ps.(index) !! k = Some e ∧ o < k + e.(records)).
Proof.
  intros BW Po Lo. destruct (entries_from_spec W ps BW Po o) as (pre & post & Ei & Ef & Lpre & Lpost).
  rewrite N.max_l in Lpre, Lpost by lia.
  pose proof Po as [[a T] So _ _ _]. rewrite Ei in T. pose proof (tiles_sum _ _ _ T) as Sm.
  rewrite sum_records_app in Sm. apply tiles_app in T as [T1 T2].
  assert (a + sum_records pre <= o) as La.
  { destruct pre as [|[k e] pre _] using rev_ind.
    - cbn. unfold start_ok in So. rewrite Ei in So. destruct post as [|[k e] post]; cbn in T2, So; [lia|].
      destruct T2 as (-> & _). cbn in So. lia.
    - assert ((k, e) ∈ pre ++ [(k, e)]) as I by set_solver. specialize (Lpre k e I).
      apply tiles_app in T1 as [_ [-> _]]. rewrite sum_records_app in *. cbn [sum_records snd] in *. lia. }
  destruct (entries_page_prefix mx true 0 (entries_from ps o)) as [[rest Er] Ne].
  rewrite Ef in *. apply fmap_app_inv in Er as (p1 & p2 & E1 & _ & ->).
  exists (a + sum_records pre), p1, (a + sum_records pre + sum_records p1).
  apply tiles_app in T2 as [T2 _]. rewrite sum_records_app in Sm. split_and!; [done|done|lia| |lia|].
  - intros ->. apply Ne; [done| |exact E1]. intros E%fmap_nil_inv. destruct p2; [|done].
    cbn in Sm. lia.
  - intros k e I. split; [apply elem_of_btree_iter; rewrite Ei; set_solver|apply Lpost; set_solver].
Qed.

Section fetch.
Context `{Crc32cOk} (objects : gmap string Bytes).
Context `{Codec (list BatchIndexEntry)} `{!CodecOk (list BatchIndexEntry) id}.
Context `{Codec (list ChunkMeta)} `{!CodecOk (list ChunkMeta) id} `{Ulids}.
Context `{ObjectCache} `{!ObjectCacheOk objects}.
Context (log : list Command) (P : produced objects log) (B : log_weight log <= u64_MAX).

#[local] Abbreviation reader_ok := (LogReaderInv.reader_ok objects (met objects log)) (only parsing).
#[local] Abbreviation content := (LogSystem.content objects) (only parsing).
#[local] Abbreviation key request := (fr_stream request, fr_partition request) (only parsing).

Lemma tiles_run_stored st pt a es stop :
  tiles a es stop → stop <= u64_MAX →
  (∀ k e, (k, e) ∈ es → entry_stored objects (met objects log) st pt e (entry_content content e)) →
  run_stored objects (met objects log) st pt a es.*2 (entry_content content <$> es.*2).
Proof.
  revert a. induction es as [|[k e] es IH]; intros a T Bs F; [done|].
  pose proof (tiles_elem _ _ _ k e T ltac:(left)) as (_ & _ & _ & Le).
  destruct T as (-> & Eb & _ & T). pose proof (F a e ltac:(left)) as S.
  pose proof (entry_stored_end objects _ (met_stored objects log) _ _ _ _ S) as [Ee _].
  unfold end_offset in Ee. rewrite u64_add_small in Ee by lia.
  cbn [fmap list_fmap run_stored snd]. split_and!; [done|done|].
  replace (len (entry_content content e)) with (records e) by lia.
  apply IH; [done|done|]. intros k' e' I. apply (F k'). by right.
Qed.

(** The partition of a state of the run is an append-only log. *)
Lemma partition_log l l' k ps :
  log = l ++ l' → (run start l).(partitions) !! k = Some ps →
  partition_ok u64_MAX ps ∧ ∃ al, refines content ps al.
Proof.
  intros El M. pose proof (produced_named objects log P) as wn. rewrite El in wn. split.
  - apply well_named_app in wn. destruct (run_meta_ok l wn) as [Po _ _]; [|by eapply Po].
    rewrite El, log_weight_app in B. lia.
  - pose proof (run_faithful objects log P B) as F. rewrite El in F, B.
    destruct (run_represents content l l' k wn B F) as (x & y & X & _ & _).
    unfold represents in X. rewrite M in X. destruct x as [|al|]; try done. by exists al.
Qed.

(** Records of the log from an offset on. *)
Definition log_from (al : ALog) (o : N) (records : list OffsetRecord) : Prop :=
  records = at_offsets o (slice al.(al_records) o (len records))
  ∧ o + len records <= len al.(al_records).

(** A read of a plan with the state after [l] returns records of the log, or fails as the cache
    does on an object of an entry of the plan. *)
Lemma read_returns l l' rs request p ps al :
  log = l ++ l' → reader_ok rs → plan (run start l) request = Ok p →
  (run start l).(partitions) !! key request = Some ps → refines content ps al →
  ps.(log_start_offset) <= fr_offset request < ps.(next_offset) →
  let out := read rs request p in
  reader_ok out.1
  ∧ ((∃ records, out.2 = Ok records ∧ log_from al (fr_offset request) records ∧ records ≠ [])
     ∨ ∃ e err, e ∈ p.(pl_entries) ∧ out.2 = Err err ∧ cache_failed objects e.(object) err).
Proof.
  intros El R Pl M Rf Lo. destruct (plan_spec _ _ _ Pl) as (ps' & M' & _ & _ & Ee).
  assert (ps' = ps) as -> by congruence. destruct (partition_log l l' _ ps El M) as [Po _].
  destruct (plan_tiles _ ps _ (Some (fr_max_bytes request)) (N.le_refl _) Po Lo)
    as (a & es & stop & Ep & T & La & Ne & Ls & In).
  pose proof (part_next_le _ _ Po) as Ln.
  assert (run_stored objects (met objects log) (fr_stream request) (fr_partition request) a
    (pl_entries p) (entry_content content <$> es.*2)) as Rs.
  { rewrite Ee, Ep. apply (tiles_run_stored _ _ a es stop T); [lia|]. intros k e I.
    by apply (index_stored objects log P B l l' (key request) ps k e El M), In. }
  assert (concat (entry_content content <$> es.*2) = slice (al_records al) a (sum_records es)) as Ec.
  { eapply run_content; [exact T|]. intros k e I. apply (rf_entries _ _ _ Rf). by apply In. }
  pose proof (tiles_sum _ _ _ T) as Sm. pose proof (rf_next _ _ _ Rf) as Nx.
  assert (fr_offset request < stop) as Lst.
  { destruct es as [|[k e] es]; [done|]. destruct (In k e ltac:(left)) as [_ L].
    pose proof (tiles_elem _ _ _ k e T ltac:(left)) as (_ & _ & _ & ?). lia. }
  destruct (read_spec objects (met objects log) (met_stored objects log) (met_unique objects log P B)
    rs request p a _ R Rs) as [R' Out].
  { intros recs E. destruct es as [|[k e] es]; [done|]. injection E as <-.
    destruct (In k e ltac:(left)) as [Ik L]. destruct T as (-> & _).
    rewrite (rf_entries _ _ _ Rf _ _ Ik).
    rewrite len_slice; [lia|]. cbn [sum_records snd] in Sm. lia. }
  split; [done|]. destruct Out as [(records & E & Pf & Nr)|Out]; [left|by right].
  exists records. split; [done|]. split; [|apply Nr; by destruct es].
  rewrite Ec, since_from in Pf by (rewrite ?len_slice; lia). rewrite drop_slice in Pf.
  replace (a + (fr_offset request - a)) with (fr_offset request) in Pf by lia.
  apply prefix_at_offsets in Pf as [Er Lr]. unfold slice in Lr. rewrite length_take in Lr.
  rewrite take_slice in Er by lia. split; [exact Er|]. unfold len in *. rewrite length_drop in Lr. lia.
Qed.
(** ** Fetches *)

(** The answer [resp] is that of the log as of [s]. *)
Record answers (s : MetaState) (request : FetchRequest) (resp : FetchResponse) (al : ALog) : Prop := {
  an_partition : ∃ ps, s.(partitions) !! key request = Some ps ∧ refines content ps al;
  an_range : al.(al_start) <= fr_offset request <= len al.(al_records);
  an_records : log_from al (fr_offset request) resp.(fs_records);
  an_some : fr_offset request < len al.(al_records) → resp.(fs_records) ≠ [];
  an_next : resp.(fs_next_offset) = fr_offset request + len resp.(fs_records);
  an_watermark : resp.(fs_high_watermark) = len al.(al_records);
  an_start : resp.(fs_log_start_offset) = al.(al_start);
}.

(** Why a fetch fails with [e]: the partition is unknown, the offset is out of range, or the cache
    failed on an object of the plan. *)
Definition fetch_fails (s : MetaState) (request : FetchRequest) (e : LogError) : Prop :=
  plan s request = Err e
  ∨ (∃ p, plan s request = Ok p ∧ e = out_of_range request p
      ∧ (fr_offset request < p.(pl_log_start_offset) ∨ p.(pl_high_watermark) < fr_offset request))
  ∨ ∃ p entry, plan s request = Ok p ∧ entry ∈ p.(pl_entries)
      ∧ cache_failed objects entry.(object) e.

Definition fetch_outcome (states : list MetaState) (request : FetchRequest)
    (r : Result FetchResponse LogError) : Prop :=
  match r with
  | Ok resp => ∃ s al, s ∈ states ∧ answers s request resp al
  | Err e => ∃ s, s ∈ states ∧ fetch_fails s request e
  end.

Lemma last_at_offsets o rs r : last (at_offsets o rs) = Some r → or_offset r + 1 = o + len rs.
Proof.
  revert o. induction rs as [|x rs IH]; intros o E; [done|]. rewrite len_cons.
  destruct rs as [|y rs]; [injection E as <-; cbn [or_offset]; change (len []) with 0; lia|]. apply (IH (o + 1)) in E. rewrite E. lia.
Qed.

(** A turn at the end of the log answers with nothing. *)
Lemma answers_empty l l' request p :
  log = l ++ l' → plan (run start l) request = Ok p →
  p.(pl_log_start_offset) <= fr_offset request → fr_offset request = p.(pl_high_watermark) →
  ∃ al, answers (run start l) request
    {| fs_records := []; fs_next_offset := fr_offset request;
       fs_high_watermark := p.(pl_high_watermark);
       fs_log_start_offset := p.(pl_log_start_offset) |} al.
Proof.
  intros El Pl Ls Eh. destruct (plan_spec _ _ _ Pl) as (ps & M & Es & En & _).
  destruct (partition_log l l' _ ps El M) as [_ (al & Rf)]. exists al.
  pose proof (rf_next _ _ _ Rf). pose proof (rf_start _ _ _ Rf).
  split; cbn [fs_records fs_next_offset fs_high_watermark fs_log_start_offset]; try lia.
  - by exists ps.
  - split; [done|]. change (len []) with 0. lia.
  - change (len []) with 0. lia.
Qed.

(** A turn below the end answers with what it read. *)
Lemma answers_read l l' rs request p :
  log = l ++ l' → reader_ok rs → plan (run start l) request = Ok p →
  p.(pl_log_start_offset) <= fr_offset request < p.(pl_high_watermark) →
  reader_ok (read rs request p).1
  ∧ ((∃ records al, (read rs request p).2 = Ok records ∧ answers (run start l) request
        {| fs_records := records;
           fs_next_offset := match last records with
                             | Some r => u64_add r.(or_offset) 1
                             | None => fr_offset request
                             end;
           fs_high_watermark := p.(pl_high_watermark);
           fs_log_start_offset := p.(pl_log_start_offset) |} al)
     ∨ ∃ e err, e ∈ p.(pl_entries) ∧ (read rs request p).2 = Err err
         ∧ cache_failed objects e.(object) err).
Proof.
  intros El R Pl Lo. destruct (plan_spec _ _ _ Pl) as (ps & M & Es & En & _).
  destruct (partition_log l l' _ ps El M) as [Po (al & Rf)]. rewrite Es, En in Lo.
  destruct (read_returns l l' rs request p ps al El R Pl M Rf Lo) as [R' Out]. split; [done|].
  destruct Out as [(records & E & [Er Lr] & Nr)|Out]; [left|by right]. exists records, al. split; [done|].
  pose proof (rf_next _ _ _ Rf). pose proof (rf_start _ _ _ Rf). pose proof (part_next_le _ _ Po).
  split; cbn [fs_records fs_next_offset fs_high_watermark fs_log_start_offset]; try lia; try done.
  - by exists ps.
  - destruct (last records) as [r|] eqn:La; [|apply last_None in La; by rewrite La].
    rewrite Er in La. apply last_at_offsets in La. rewrite len_slice in La by lia.
    rewrite u64_add_small by lia. lia.
Qed.

Lemma outcome_cons s states request r :
  fetch_outcome states request r → fetch_outcome (s :: states) request r.
Proof.
  destruct r as [resp|e]; cbn.
  - intros (s' & al & I & A). exists s', al. split; [by right|done].
  - intros (s' & I & A). exists s'. split; [by right|done].
Qed.

Lemma fetch_loop_spec states rs request wakes timed_out replanned rs' r :
  Forall (λ s, ∃ l l', log = l ++ l' ∧ s = run start l) states → reader_ok rs →
  fetch_loop rs request states wakes timed_out replanned = Some (rs', r) →
  reader_ok rs' ∧ fetch_outcome states request r.
Proof.
  intros F. revert rs wakes timed_out replanned.
  induction F as [|s states (l & l' & El & Es) F IH]; intros rs wakes timed_out replanned R E; [done|].
  assert (s ∈ s :: states) as Is by left. cbn [fetch_loop] in E.
  destruct (plan s request) as [p|err] eqn:Pl.
  2: { injection E as <- <-. split; [done|]. exists s. split; [done|]. by left. }
  destruct (_ || _) eqn:Rg.
  { injection E as <- <-. split; [done|]. exists s. split; [done|]. right. left. exists p. split_and!; try done.
    apply orb_true_iff in Rg as [Rg|Rg]; bools; auto. }
  bools. rewrite Es in *. destruct (N.eqb_spec (fr_offset request) (pl_high_watermark p)) as [Eh|Nh].
  - destruct timed_out.
    + injection E as <- <-. split; [done|].
      destruct (answers_empty l l' request p El Pl) as [al A]; [done|done|]. by exists (run start l), al.
    + destruct wakes as [|woken wakes]; [done|]. apply IH in E as [R' O]; [|done].
      split; [done|]. by apply outcome_cons.
  - destruct (answers_read l l' rs request p El R Pl) as [R' Out]; [lia|].
    destruct (read rs request p) as [rs1 [records|err]]; cbn [fst snd] in *.
    + injection E as <- <-. split; [done|].
      destruct Out as [(rec & al & [= ->] & A)|(? & ? & _ & ? & _)]; [|done]. by exists (run start l), al.
    + destruct Out as [(? & ? & ? & _)|(entry & err' & Ie & [= <-] & Cf)]; [done|].
      assert (fetch_outcome (run start l :: states) request (Err err)) as Oe.
      { exists (run start l). split; [done|]. right. right. by exists p, entry. }
      destruct (is_gone err && negb replanned).
      { apply IH in E as [R2 O]; [|done]. split; [done|]. by apply outcome_cons. }
      destruct (is_gone err); [|by injection E as <- <-].
      destruct states as [|s2 states]; [done|].
      destruct (plan s2 request) as [fresh|err2] eqn:Pl2.
      2: { injection E as <- <-. split; [done|]. exists s2. split; [by right; left|]. by left. }
      destruct (N.ltb_spec (fr_offset request) (pl_log_start_offset fresh)); injection E as <- <-;
        (split; [done|]); [|done].
      exists s2. split; [by right; left|]. right. left. exists fresh. split_and!; [done|done|by left].
Qed.
End fetch.
