(* ===== verification/LogDurable.v ===== *)
(** * An acknowledged append can be fetched

    The records of an acknowledged append are in the partition's log at the offsets of the
    acknowledgement, in every later state, whichever attempt of the commit was answered; and a
    fetch of one of the offsets returns its record. *)

From Stdlib Require Import NArith ZArith Lia.
From stdpp Require Import prelude gmap strings numbers list.
From S2P Require Import Prelude.
From S2P Require Import BTree.
From S2P Require Import ByteCodec.
From S2P Require Import Ids.
From S2P Require Import MetaTypes.
From S2P Require Import MetaState.
From S2P Require Import MetaLog.
From S2P Require Import MetaApply.
From S2P Require Import MetaFrames.
From S2P Require Import PartitionInv.
From S2P Require Import MetaLogInv.
From S2P Require Import MetaEnv.
From S2P Require Import MetaCommit.
From S2P Require Import LogRefinement.
From S2P Require Import MetaReads.
From S2P Require Import MetaCatalog.
From S2P Require Import LogBatch.
From S2P Require Import LogBatchInv.
From S2P Require Import LogWal.
From S2P Require Import LogWalInv.
From S2P Require Import LogSegment.
From S2P Require Import LogReader.
From S2P Require Import LogReaderInv.
From S2P Require Import LogWriter.
From S2P Require Import LogWriterInv.
From S2P Require Import LogOrigin.
From S2P Require Import LogSystem.
From S2P Require Import LogFetch.

Open Scope N_scope.

(** ** Which attempt took effect *)

Lemma commit_wal_record s obj t chunks :
  let out := commit_wal s obj t chunks in
  out.1.(wal_commits) = s.(wal_commits)
  ∨ ∃ bases, s.(wal_commits) !! obj = None ∧ out.2 = Ok (WalCommitted bases)
      ∧ out.1.(wal_commits)
        = <[obj := {| wal_base_offsets := bases; wal_created_at_ms := t |}]> s.(wal_commits).
Proof.
  cbv zeta. unfold commit_wal. destruct (append_chunks_frame s obj chunks []) as [m F].
  destruct (append_chunks s obj chunks []) as [s' r]. cbn in F. subst s'.
  match goal with |- (wal_commits (fst ?o) = _) ∨ _ =>
    change (ensures (λ s' x, wal_commits s' = wal_commits s ∨ ∃ bases, wal_commits s !! obj = None
      ∧ x = Ok (WalCommitted bases) ∧ wal_commits s'
        = <[obj := {| wal_base_offsets := bases; wal_created_at_ms := t |}]> (wal_commits s)) o) end.
  outcome_cases; try (by left). right. by eexists.
Qed.

(** A commit record was made by a commit that took effect. *)
Lemma commit_record_origin log obj r :
  (run start log).(wal_commits) !! obj = Some r →
  ∃ l1 l2 t chunks, log = l1 ++ CommitWal obj t chunks :: l2
    ∧ effective l1 obj t chunks r.(wal_base_offsets).
Proof.
  induction log as [|c log IH] using rev_ind; intros E.
  { unfold run in E. cbn in E. by rewrite lookup_empty in E. }
  assert ((run start log).(wal_commits) !! obj = Some r → ∃ l1 l2 t chunks,
    log ++ [c] = l1 ++ CommitWal obj t chunks :: l2 ∧ effective l1 obj t chunks r.(wal_base_offsets)) as Old.
  { intros (l1 & l2 & t & ch & -> & F)%IH. exists l1, (l2 ++ [c]), t, ch. by rewrite <- app_assoc. }
  rewrite run_snoc in E. destruct c; try (apply Old; by rewrite apply_commits in E by done); cbn [apply] in E.
  - destruct (commit_wal_record (run start log) object created_at_ms chunks) as [Es|(bases & N & A & Es)];
      rewrite Es in E; [by apply Old|].
    apply lookup_insert_Some in E as [[-> <-]|[_ E]]; [|by apply Old].
    by exists log, [], created_at_ms, chunks.
  - apply Old. revert E. unfold prune_wal_commits.
    match goal with |- wal_commits (fst ?o) !! _ = _ → _ =>
      change (ensures (λ s' _, wal_commits s' !! obj = Some r →
        wal_commits (run start log) !! obj = Some r) o) end.
    outcome_cases; [|done]. by intros [? _]%map_lookup_filter_Some.
Qed.

(** Every accepted commit was answered with the offsets of the one that took effect. *)
Lemma answer_effective l obj t chunks bases :
  (apply (run start l) (CommitWal obj t chunks)).2 = Ok (WalCommitted bases) →
  ∃ l1 l2 t' chunks', l ++ [CommitWal obj t chunks] = l1 ++ CommitWal obj t' chunks' :: l2
    ∧ effective l1 obj t' chunks' bases.
Proof.
  cbn [apply]. intros A. destruct (wal_commits (run start l) !! obj) as [r|] eqn:E.
  - assert (wal_base_offsets r = bases) as <-.
    { unfold commit_wal in A. destruct (validate_key _ _); [|done]. rewrite E in A. by injection A. }
    destruct (commit_record_origin l obj r E) as (l1 & l2 & t' & ch & -> & F).
    exists l1, (l2 ++ [CommitWal obj t chunks]), t', ch. by rewrite <- app_assoc.
  - by exists l, [], t, chunks.
Qed.

Section durable.
Context `{Crc32cOk} (objects : gmap string Bytes).
Context `{Codec (list BatchIndexEntry)} `{!CodecOk (list BatchIndexEntry) id}.
Context `{Codec (list ChunkMeta)} `{!CodecOk (list ChunkMeta) id} `{Ulids}.
Context `{ObjectCache} `{!ObjectCacheOk objects}.
Context (log : list Command) (P : produced objects log) (B : log_weight log <= u64_MAX).

#[local] Abbreviation content := (LogSystem.content objects) (only parsing).

(** What was at an offset stays there. *)
Lemma record_stays l1 l2 l3 k ps ps' o :
  log = (l1 ++ l2) ++ l3 → (run start l1).(partitions) !! k = Some ps →
  (run start (l1 ++ l2)).(partitions) !! k = Some ps' →
  ps'.(log_start_offset) <= o < ps.(next_offset) →
  record_at content ps' o = record_at content ps o ∧ o < ps'.(next_offset).
Proof.
  intros E M M' Lo. pose proof (run_faithful objects log P B) as F. rewrite E in F.
  apply faithful_run_app in F as [F _]. pose proof (produced_named objects log P) as wn.
  rewrite E in wn. apply well_named_app in wn.
  assert (log_weight (l1 ++ l2) <= u64_MAX) as B2 by (rewrite E, log_weight_app in B; lia).
  destruct (run_represents content l1 l2 k wn B2 F) as (x & y & X & Y & S).
  unfold represents in X, Y. rewrite M in X. rewrite M' in Y.
  destruct x as [|l|], y as [|l'|]; try done.
  destruct (log_steps_grow _ _ S l eq_refl) as [?|(l'' & E' & [rest Rs] & St)]; [done|].
  injection E' as <-.
  destruct (run_meta_ok _ wn B2) as [P' _ _]. rewrite log_weight_app in B2.
  destruct (run_meta_ok _ (well_named_app _ _ wn)) as [P1 _ _]; [lia|].
  rewrite (refines_read content _ _ _ o (N.le_refl _) (P' _ _ M') Y),
    (refines_read content _ _ _ o (N.le_refl _) (P1 _ _ M) X).
  pose proof (rf_next _ _ _ X). pose proof (rf_next _ _ _ Y). pose proof (rf_start _ _ _ X).
  pose proof (rf_start _ _ _ Y). rewrite Rs, len_app in *. rewrite !decide_True by lia.
  split; [|lia]. apply lookup_app_l. unfold len in *. lia.
Qed.

(** The entry a commit that took effect makes of a chunk. *)
Lemma effective_chunk l1 l2 path t chunks bases c u la obj metas j m b :
  log = l1 ++ CommitWal path t chunks :: l2 → effective l1 path t chunks bases →
  flush_of objects path c u la obj metas → metas !! j = Some m → bases !! j = Some b →
  ∃ ps, (run start (l1 ++ [CommitWal path t chunks])).(partitions) !! cm_key m = Some ps
    ∧ b + m.(cm_records) <= u64_MAX
    ∧ ∀ o, b <= o < b + m.(cm_records) →
        lookup_offset ps o = Some (wal_entry b path (chunk_of m)) ∧ o < ps.(next_offset).
Proof.
  intros E [N A] Fl Jm Jb. set (cmd := CommitWal path t chunks) in *.
  assert (chunks = chunk_of <$> metas) as Ec.
  { destruct (commit_unique objects path (ulid_timestamp_ms u) (chunk_of <$> metas) t chunks) as [_ ->]; [|..|done].
    - by exists c, u, la, obj, metas.
    - eapply (produced_commit objects log); [exact P|]. rewrite E. unfold cmd. set_solver. }
  pose proof (produced_named objects log P) as wn. rewrite E in wn.
  pose proof B as B1. rewrite E, !log_weight_app in B1. cbn [log_weight] in B1.
  destruct (run_ok l1 (well_named_app _ _ wn) ltac:(lia)) as [P1 _ _ _].
  destruct (commit_readable _ (run start l1) path t chunks bases j (chunk_of m) P1) as
    (ps0 & ps1 & b' & _ & M1 & Jb' & _ & Lk); [unfold cmd, weight in B1; lia|done|done| |].
  { rewrite Ec. by rewrite list_lookup_fmap, Jm. }
  rewrite Jb in Jb'. injection Jb' as <-. exists ps1.
  assert (partitions (run start (l1 ++ [cmd])) !! cm_key m = Some ps1) as M1' by (by rewrite run_snoc).
  split; [done|].
  assert (partition_ok u64_MAX ps1) as Po1.
  { destruct (run_meta_ok (l1 ++ [cmd])) as [Q _ _]; [| |by eapply Q].
    - eapply well_named_app. rewrite <- app_assoc. cbn. exact wn.
    - rewrite log_weight_app. cbn [log_weight]. lia. }
  pose proof (part_next_le _ _ Po1) as Ln. destruct (part_tiles _ _ Po1) as [a T].
  assert (∀ o, b <= o < b + m.(cm_records) →
    lookup_offset ps1 o = Some (wal_entry b path (chunk_of m)) ∧ o < ps1.(next_offset)
    ∧ b + m.(cm_records) <= ps1.(next_offset)) as K.
  { intros o Ho. specialize (Lk o Ho). split; [done|].
    apply (lookup_offset_spec _ ps1 (N.le_refl _) Po1) in Lk as (Ro & Ix & _).
    apply elem_of_btree_iter in Ix. pose proof (tiles_elem _ _ _ _ _ T Ix) as (_ & _ & _ & Le).
    cbn in Le. lia. }
  destruct (flush_finish _ _ _ _ _ _ _ Fl) as (_ & Fi & Hh).
  destruct (meta_spec c u la obj metas (fl_appends _ _ _ _ _ _ _ Fl) Hh Fi (fl_small _ _ _ _ _ _ _ Fl)
    (fl_counts _ _ _ _ _ _ _ Fl) j m Jm) as (Na & Er & _).
  pose proof (appended_pos (cm_key m) la (fl_appends _ _ _ _ _ _ _ Fl) Na) as Lr. rewrite <- Er in Lr.
  split; [destruct (K b) as (_ & _ & ?); lia|]. intros o Ho. by destruct (K o Ho) as (? & ? & _).
Qed.

(** The records of a chunk are at the offsets its commit answered. *)
Lemma chunk_records_at l1 l2 l3 path t chunks bases c u la obj metas j m b ps o :
  log = (l1 ++ CommitWal path t chunks :: l2) ++ l3 → effective l1 path t chunks bases →
  flush_of objects path c u la obj metas → metas !! j = Some m → bases !! j = Some b →
  (run start (l1 ++ CommitWal path t chunks :: l2)).(partitions) !! cm_key m = Some ps →
  b <= o < b + len (appended (cm_key m) la) → ps.(log_start_offset) <= o →
  record_at content ps o = appended (cm_key m) la !! N.to_nat (o - b) ∧ o < ps.(next_offset).
Proof.
  intros E Ef Fl Jm Jb M Lo Ls. pose proof E as E1. rewrite <- app_assoc in E1. cbn [app] in E1.
  destruct (effective_chunk _ _ _ _ _ _ _ _ _ _ _ _ _ _ E1 Ef Fl Jm Jb) as (ps1 & M1 & Bb & Lk).
  destruct (flush_finish _ _ _ _ _ _ _ Fl) as (_ & Fi & Hh).
  destruct (meta_spec c u la obj metas (fl_appends _ _ _ _ _ _ _ Fl) Hh Fi (fl_small _ _ _ _ _ _ _ Fl)
    (fl_counts _ _ _ _ _ _ _ Fl) j m Jm) as (_ & Er & _). rewrite <- Er in Lo.
  destruct (Lk o Lo) as [Lo1 Ln].
  pose proof (chunk_stored c u la obj metas (fl_appends _ _ _ _ _ _ _ Fl) Hh Fi (fl_small _ _ _ _ _ _ _ Fl)
    (fl_counts _ _ _ _ _ _ _ Fl) objects path j m b (fl_object _ _ _ _ _ _ _ Fl) Jm Bb) as S.
  destruct (record_stays (l1 ++ [CommitWal path t chunks]) l2 l3 (cm_key m) ps1 ps o) as [Rs Ln'].
  { rewrite E, <- !app_assoc. done. }
  { done. }
  { by rewrite <- app_assoc. }
  { lia. }
  split; [|done]. rewrite Rs. unfold record_at. rewrite Lo1. cbn.
  rewrite (wal_content objects _ _ S : entry_content content (wal_entry b path (chunk_of m)) = _). done.
Qed.

(** The record of an acknowledged append at an offset of its acknowledgement. *)
Lemma acked_record l1 l2 l3 path t chunks bases c u la obj metas acks i a ack ps o :
  log = (l1 ++ CommitWal path t chunks :: l2) ++ l3 →
  (apply (run start l1) (CommitWal path t chunks)).2 = Ok (WalCommitted bases) →
  flush_of objects path c u la obj metas → acks_of metas bases la.*1 = Ok acks →
  la !! i = Some a → acks !! i = Some ack →
  (run start (l1 ++ CommitWal path t chunks :: l2)).(partitions) !! pd_key a.1 = Some ps →
  ack.(ak_base_offset) <= o <= ack.(ak_last_offset) → ps.(log_start_offset) <= o →
  record_at content ps o = a.2 !! N.to_nat (o - ack.(ak_base_offset)) ∧ o < ps.(next_offset).
Proof.
  intros E A Fl Ak Ia Ic M Lo Ls.
  destruct (answer_effective l1 path t chunks bases A) as (l1' & l2' & t' & ch' & E' & Ef).
  assert (l1 ++ CommitWal path t chunks :: l2 = l1' ++ CommitWal path t' ch' :: (l2' ++ l2)) as E2.
  { change (l1 ++ [CommitWal path t chunks] ++ l2 = l1' ++ (CommitWal path t' ch' :: l2') ++ l2).
    by rewrite !app_assoc, E'. }
  rewrite E2 in E, M. pose proof E as E1. rewrite <- app_assoc in E1. cbn [app] in E1.
  destruct (flush_finish _ _ _ _ _ _ _ Fl) as (_ & Fi & Hh).
  assert (length bases = length metas) as Lb.
  { unfold acks_of in Ak. destruct (Nat.eqb_spec (length bases) (length metas)); [done|discriminate Ak]. }
  destruct (acks_of_spec c u la obj metas (fl_appends _ _ _ _ _ _ _ Fl) Hh Fi (fl_small _ _ _ _ _ _ _ Fl)
    (fl_counts _ _ _ _ _ _ _ Fl) bases Lb) as (acks' & Ak' & _ & Ai).
  { intros j m b J Jb.
    by destruct (effective_chunk _ _ _ _ _ _ _ _ _ _ _ _ _ _ E1 Ef Fl J Jb) as (_ & _ & ? & _). }
  rewrite Ak in Ak'. apply Ok_inj in Ak' as <-.
  destruct (Ai i a Ia) as (j & m & b & ack' & J & Jb & Km & Ic' & [_ _ Eb El]).
  rewrite Ic in Ic'. injection Ic' as <-. rewrite <- Km in M.
  assert (appended (cm_key m) la = appended (cm_key m) (take i la) ++ a.2 ++ appended (cm_key m) (drop (S i) la))
    as Es.
  { rewrite <- (take_drop_middle _ _ _ Ia) at 1. by rewrite appended_app, appended_cons, decide_True. }
  rewrite <- Km in Eb. assert (0 < len a.2) as La.
  { pose proof (fl_appends _ _ _ _ _ _ _ Fl) as F. rewrite Forall_lookup in F.
    destruct (F _ _ Ia) as [[_ L]%stored_nonempty _]. done. }
  pose proof (f_equal len Es) as Ln. rewrite !len_app in Ln.
  destruct (chunk_records_at _ _ _ _ _ _ _ _ _ _ _ _ _ _ b ps o E Ef Fl J Jb M) as [R Lt]; [lia|done|].
  split; [|done]. rewrite R, Es. unfold len in *. rewrite lookup_app_r by lia.
  rewrite lookup_app_l by lia. f_equal. lia.
Qed.
(** ** Fetching *)

Lemma plan_known s request ps :
  meta_ok s → s.(partitions) !! (fr_stream request, fr_partition request) = Some ps →
  ∃ p, plan s request = Ok p.
Proof.
  intros [_ C _] M. destruct C as [_ _ _ _ _ _ _ _ _ Pm _].
  destruct (proj1 (Pm _ _) (ex_intro _ _ M)) as (st & St & _).
  unfold plan, partition_index. unfold MetaCatalog.stream. rewrite St. cbn.
  unfold MetaLog.partition_of. rewrite M. cbn. by eexists.
Qed.

(** The objects of the entries of a partition. *)
Definition in_index (ps : PartitionState) (p : string) : Prop :=
  ∃ b e, ps.(index) !! b = Some e ∧ e.(object) = p.

(** While the cache serves the objects of a partition, a fetch of an offset in range answers at
    its first turn. *)
Lemma fetch_answers l l' rs request ps more wakes timed_out :
  log = l ++ l' → (run start l).(partitions) !! (fr_stream request, fr_partition request) = Some ps →
  reader_ok objects (met objects log) rs →
  ps.(log_start_offset) <= fr_offset request < ps.(next_offset) →
  cache_live objects (in_index ps) →
  ∃ rs' resp al, fetch rs request (run start l :: more) wakes timed_out = Some (rs', Ok resp)
    ∧ reader_ok objects (met objects log) rs'
    ∧ answers objects (run start l) request resp al.
Proof.
  intros El M R Lo Lv. pose proof (produced_named objects log P) as wn. rewrite El in wn.
  apply well_named_app in wn. assert (log_weight l <= u64_MAX) as Bl by (rewrite El, log_weight_app in B; lia).
  destruct (plan_known _ request ps (run_meta_ok l wn Bl) M) as [p Pl].
  destruct (plan_spec _ _ _ Pl) as (ps' & M' & Es & En & Ee). assert (ps' = ps) as -> by congruence.
  unfold fetch. cbn [fetch_loop]. rewrite Pl, Es, En, !(proj2 (N.ltb_ge _ _)) by lia. cbn [orb].
  rewrite (proj2 (N.eqb_neq _ _)) by lia.
  destruct (answers_read objects log P B l l' rs request p El R Pl) as [R' Out]; [lia|].
  destruct (read rs request p) as [rs1 r]. cbn [fst snd] in *. rewrite Es, En in Out.
  destruct Out as [(records & al & -> & A)|(e & err & Ie & _ & Cf)]; [by eexists _, _, al|].
  exfalso. destruct (partition_log objects log P B l l' _ ps El M) as [Po _].
  destruct (plan_tiles _ ps _ (Some (fr_max_bytes request)) (N.le_refl _) Po Lo)
    as (a & es & stop & Ep & _ & _ & _ & _ & In).
  rewrite Ee, Ep in Ie. apply list_elem_of_fmap in Ie as ([b e'] & -> & Ie).
  destruct (In b e' Ie) as [Ix _]. revert Cf. apply (live_not_failed objects (in_index ps)); [done|by exists b, e'|].
  pose proof (index_stored objects log P B l l' _ ps b e' El M Ix) as [ls _ Mt|bl its _ Sg].
  - destruct (met_stored _ _ _ _ Mt) as [(obj & Eo & _) _ _ _ _ _]. by eexists.
  - destruct Sg as [(obj & f & Eo & _) _ _ _ _ _ _ _ _]. by eexists.
Qed.

(** What the first record of an answer is. *)
Lemma answers_head s request resp al ps :
  partition_ok u64_MAX ps → s.(partitions) !! (fr_stream request, fr_partition request) = Some ps →
  fr_offset request < ps.(next_offset) → answers objects s request resp al →
  ∃ r rest, record_at content ps (fr_offset request) = Some r
    ∧ resp.(fs_records) = {| or_offset := fr_offset request; or_record := r |} :: rest.
Proof.
  intros Po M Lt [(ps' & M' & Rf) Rg [Er Lr] Ne _ _ _]. assert (ps' = ps) as -> by congruence.
  pose proof (rf_next _ _ _ Rf) as Nx. rewrite Nx in Lt. specialize (Ne Lt).
  rewrite (refines_read content _ _ _ _ (N.le_refl _) Po Rf), decide_True by lia.
  destruct (fs_records resp) as [|r rs]; [done|]. rewrite len_cons in *.
  assert (∃ x, al_records al !! N.to_nat (fr_offset request) = Some x) as [x Ex]
    by (apply lookup_lt_is_Some; unfold len in *; lia).
  exists x, rs. split; [done|]. unfold slice in Er. rewrite (drop_S _ _ _ Ex) in Er.
  replace (N.to_nat (len rs + 1)) with (S (length rs)) in Er by (unfold len; lia).
  cbn [take at_offsets] in Er. by injection Er as -> _.
Qed.
End durable.
