(* ===== verification/LogRetention.v ===== *)
(** * Retention (loams-log/src/retention.rs)

    Trims partitions by age and size, then prunes commit records and lapsed idempotency keys.  What
    the metastore answers are arguments.  A trim point is a boundary between entries.  Each entry
    below it is older than the age limit, or the partition from it on is over the size limit; what
    is kept is within both, or is the newest entry alone, which the size limit never drops. *)

From Stdlib Require Import NArith ZArith Lia.
From stdpp Require Import prelude gmap strings numbers list.
From S2P Require Import Prelude.
From S2P Require Import BTree.
From S2P Require Import Ids.
From S2P Require Import MetaTypes.
From S2P Require Import MetaState.
From S2P Require Import MetaLog.
From S2P Require Import PartitionInv.
From S2P Require Import MetaCatalog.
From S2P Require Import LogBatch.
From S2P Require Import LogWriter.
From S2P Require Import LogSegmenter.
From S2P Require Import LogSegmenterInv.

Open Scope N_scope.

Definition RETENTION_TASK : string := "retention".

Record RetentionReport := {
  rr_trimmed : N;
  rr_pruned : N;
  rr_skipped : bool;
}.

Definition RetentionReport_default : RetentionReport :=
  {| rr_trimmed := 0; rr_pruned := 0; rr_skipped := false |}.

(** [by_age] of [trim_point] *)
Definition trim_by_age (state : PartitionIndex) (age now_ms : N) : N :=
  let cutoff := clock_i64 (u64_saturating_sub now_ms age) in
  match skip_while (λ e, (e.(max_timestamp_ms) <? cutoff)%Z) state.(px_entries) with
  | e :: _ => e.(base_offset)
  | [] => px_high_watermark state
  end.

(** The entry loop of [by_bytes]: the last entry is kept. *)
Fixpoint trim_bytes_loop (limit : N) (es : list IndexEntry) (bytes before : N) : N :=
  match es with
  | e :: (_ :: _) as es =>
      if bytes <=? limit then before
      else trim_bytes_loop limit es
             (u64_sub bytes (u64_sub e.(byte_range).(range_end) e.(byte_range).(range_start)))
             (end_offset e)
  | _ => before
  end.

(** [by_bytes] of [trim_point] *)
Definition trim_by_bytes (state : PartitionIndex) (limit : N) : N :=
  trim_bytes_loop limit state.(px_entries) state.(px_bytes) state.(px_log_start_offset).

(** [trim_point] *)
Definition trim_point (state : PartitionIndex) (max_age_ms max_bytes : option N) (now_ms : N) : option N :=
  let by_age := (λ age, trim_by_age state age now_ms) <$> max_age_ms in
  let by_bytes := trim_by_bytes state <$> max_bytes in
  before ← (match by_age, by_bytes with
            | Some a, Some b => Some (N.max a b)
            | Some a, None => Some a
            | None, b => b
            end);
  if px_log_start_offset state <? before then Some before else None.

(** [fenced] *)
Definition fenced (e : MetaError.t) : TaskError :=
  match e with
  | MetaError.Rejected (Fenced _) => TaskFenced
  | other => TaskMeta other
  end.

(** What the metastore answers a run of retention. *)
Record RetentionEnv := {
  re_now_ms : N;
  re_streams : Result (list Stream) MetaError.t;
  re_index : StreamId → N → Result (option PartitionIndex) MetaError.t;
  re_trim : StreamId → N → N → Result () MetaError.t;
  re_prune_commits : Result N MetaError.t;
  re_prune_keys : Result N MetaError.t;
}.

(** The trims a run asks for, in order: stream, partition and offset. *)
Abbreviation Trims := (list (StreamId * N * N)) (only parsing).

(** The partition loop of [apply]: [trimmed] counts, [asked] has the trims so far. *)
Fixpoint trim_partitions (env : RetentionEnv) (st : Stream) (todo : nat) (partition trimmed : N)
    (asked : Trims) : Trims * Result N TaskError :=
  match todo with
  | O => (asked, Ok trimmed)
  | S todo =>
      TRY index <- map_err TaskMeta (env.(re_index) st.(stream_id) partition) IN asked ;;
      match state ← index; trim_point state st.(stream_retention).(max_age_ms)
                             st.(stream_retention).(max_bytes) env.(re_now_ms) with
      | Some before =>
          let asked := asked ++ [((st.(stream_id), partition), before)] in
          TRY _trimmed <- map_err fenced (env.(re_trim) st.(stream_id) partition before) IN asked ;;
          trim_partitions env st todo (partition + 1) (u32_add trimmed 1) asked
      | None => trim_partitions env st todo (partition + 1) trimmed asked
      end
  end.

Fixpoint trim_streams (env : RetentionEnv) (sts : list Stream) (trimmed : N) (asked : Trims)
  : Trims * Result N TaskError :=
  match sts with
  | [] => (asked, Ok trimmed)
  | st :: sts =>
      let '(asked, r) := trim_partitions env st (N.to_nat st.(stream_partitions)) 0 trimmed asked in
      TRY trimmed <- r IN asked ;;
      trim_streams env sts trimmed asked
  end.

(** [apply]: the trims it asked for, and its report. *)
Definition apply_retention (env : RetentionEnv) : Trims * Result RetentionReport TaskError :=
  TRY sts <- map_err TaskMeta env.(re_streams) IN [] ;;
  let policies := filter (λ st, is_Some st.(stream_retention).(max_age_ms)
                               ∨ is_Some st.(stream_retention).(max_bytes)) sts in
  let '(asked, r) := trim_streams env policies 0 [] in
  TRY trimmed <- r IN asked ;;
  TRY pruned <- map_err fenced env.(re_prune_commits) IN asked ;;
  TRY _ledger <- map_err fenced env.(re_prune_keys) IN asked ;;
  (asked, Ok {| rr_trimmed := trimmed; rr_pruned := pruned; rr_skipped := false |}).

(** [RetentionSource::candidates]: whether the task is due, [elapsed] since its last start. *)
Definition retention_due (interval : N) (elapsed : option N) : bool :=
  match elapsed with Some e => interval <=? e | None => true end.

(** [RetentionTask::run]: the totals of the source after it. *)
Definition run_retention (total : RetentionReport) (r : Result RetentionReport TaskError)
  : RetentionReport * Result TaskOutcome TaskError :=
  TRY report <- r IN total ;;
  ({| rr_trimmed := u32_add total.(rr_trimmed) report.(rr_trimmed);
      rr_pruned := u32_add total.(rr_pruned) report.(rr_pruned);
      rr_skipped := total.(rr_skipped) |}, Ok Done).

(** The index a run reads of a partition. *)
Definition whole_index (ps : PartitionState) : PartitionIndex :=
  {| px_log_start_offset := ps.(log_start_offset); px_next_offset := ps.(next_offset);
     px_bytes := ps.(bytes); px_entries := entries_page None true 0 (entries_from ps 0) |}.

Section trim.
Context (W : N) (ps : PartitionState) (WB : W <= u64_MAX) (Po : partition_ok W ps).

Lemma whole_entries : (whole_index ps).(px_entries) = (btree_iter ps.(index)).*2.
Proof.
  cbn. rewrite entries_page_all. destruct (entries_from_spec W ps WB Po 0) as (pre & post & E & -> & Lp & _).
  destruct pre as [|[k e] pre]; [by rewrite E|]. pose proof (part_start _ _ Po) as So. rewrite E in So.
  specialize (Lp k e ltac:(left)). cbn in So. lia.
Qed.

(** The bytes of the entries of a partition fit, and their ranges are not empty. *)
Context (ranges : ∀ k e, ps.(index) !! k = Some e →
  e.(byte_range).(range_start) < e.(byte_range).(range_end) ∧ e.(byte_range).(range_end) <= u64_MAX).

Lemma sum_bytes_small : sum_bytes (btree_iter ps.(index)) <= u64_MAX.
Proof. rewrite <- (part_bytes _ _ Po). pose proof (part_bytes_le _ _ Po). lia. Qed.

(** A cut of the entries: [dropped] below [before], [kept] from it on. *)
Definition cut_at (dropped kept : list (N * IndexEntry)) (before : N) : Prop :=
  btree_iter ps.(index) = dropped ++ kept
  ∧ ∃ a, tiles a dropped before ∧ tiles before kept ps.(next_offset).

Lemma cut_exists dropped kept :
  btree_iter ps.(index) = dropped ++ kept → ∃ before, cut_at dropped kept before.
Proof.
  intros E. destruct (part_tiles _ _ Po) as [a T]. rewrite E in T. apply tiles_app in T as [T1 T2].
  exists (a + sum_records dropped). split; [done|]. by exists a.
Qed.

Lemma cut_le dropped kept before : cut_at dropped kept before → before <= ps.(next_offset).
Proof. intros (_ & a & _ & T). apply tiles_sum in T. lia. Qed.

Lemma cut_end dropped k e kept before :
  cut_at (dropped ++ [(k, e)]) kept before → end_offset e = before.
Proof.
  intros C. pose proof (cut_le _ _ _ C) as Le. destruct C as (_ & a & T & _).
  apply tiles_app in T as [_ (-> & Eb & _ & T)]. cbn in T. pose proof (part_next_le _ _ Po).
  unfold end_offset. rewrite Eb, u64_add_small; lia.
Qed.

(** ** By age *)

Lemma by_age_spec age now :
  let cutoff := clock_i64 (u64_saturating_sub now age) in
  ∃ dropped kept, cut_at dropped kept (trim_by_age (whole_index ps) age now)
    ∧ Forall (λ ke, (ke.2.(max_timestamp_ms) < cutoff)%Z) dropped
    ∧ (∀ k e rest, kept = (k, e) :: rest → (cutoff <= e.(max_timestamp_ms))%Z).
Proof.
  cbv zeta. unfold trim_by_age. rewrite whole_entries. set (cutoff := clock_i64 _).
  destruct (skip_while_split (λ e, (max_timestamp_ms e <? cutoff)%Z) (btree_iter (index ps)).*2) as (pre & E & F).
  assert (∀ y ys, skip_while (λ e, (max_timestamp_ms e <? cutoff)%Z) (btree_iter (index ps)).*2 = y :: ys →
    (cutoff <= max_timestamp_ms y)%Z) as Hd.
  { clear. generalize ((btree_iter (index ps)).*2). intros l. induction l as [|x l IH]; intros y ys E; [done|].
    cbn in E. destruct (Z.ltb_spec (max_timestamp_ms x) cutoff); [by eapply IH|]. by injection E as -> _. }
  apply fmap_app_inv in E as (dropped & kept & -> & Ek & Es).
  rewrite Ek in Hd |- *. exists dropped, kept. destruct (cut_exists dropped kept Es) as [before C].
  pose proof C as (_ & a & T1 & T2). split_and!.
  - destruct kept as [|[k e] kept]; cbn.
    + cbn in T2. by rewrite T2 in C.
    + destruct T2 as (-> & -> & _). done.
  - apply Forall_fmap in F. eapply Forall_impl; [exact F|]. intros [k e] L. cbn in *. by apply Z.ltb_lt.
  - intros k e rest ->. by eapply Hd.
Qed.

(** ** By size *)

Lemma bytes_loop_spec limit dropped kept :
  btree_iter ps.(index) = dropped ++ kept →
  ∃ more rest, kept = more ++ rest
    ∧ trim_bytes_loop limit kept.*2 (sum_bytes kept) (match last dropped with Some ke => end_offset ke.2 | None => ps.(log_start_offset) end)
      = match last (dropped ++ more) with Some ke => end_offset ke.2 | None => ps.(log_start_offset) end
    ∧ (kept ≠ [] → rest ≠ []) ∧ (sum_bytes rest <= limit ∨ (length rest <= 1)%nat)
    ∧ (∀ m1 ke m2, more = m1 ++ ke :: m2 → limit < sum_bytes (ke :: m2 ++ rest)).
Proof.
  revert dropped. induction kept as [|[k e] kept IH]; intros dropped E.
  { exists [], []. rewrite (app_nil_r dropped). split_and!; [done|done|tauto|right; cbn; lia|].
    intros [|]; discriminate. }
  destruct kept as [|[k2 e2] kept].
  { exists [], [(k, e)]. rewrite (app_nil_r dropped). split_and!; [done|done|tauto|right; cbn; lia|].
    intros [|]; discriminate. }
  cbn [fmap list_fmap trim_bytes_loop snd].
  destruct (N.leb_spec (sum_bytes ((k, e) :: (k2, e2) :: kept)) limit) as [Le|Lt].
  { exists [], ((k, e) :: (k2, e2) :: kept). rewrite (app_nil_r dropped).
    split_and!; [done|done|done|by left|]. intros [|]; discriminate. }
  assert (u64_sub (sum_bytes ((k, e) :: (k2, e2) :: kept))
            (u64_sub (range_end (byte_range e)) (range_start (byte_range e)))
          = sum_bytes ((k2, e2) :: kept)) as Es.
  { destruct (ranges k e) as [L1 L2]; [apply elem_of_btree_iter; rewrite E; set_solver|].
    pose proof sum_bytes_small as Sb. rewrite E, sum_bytes_app in Sb. cbn [sum_bytes snd] in Sb |- *.
    unfold entry_bytes, u64_saturating_sub in Sb |- *. rewrite (u64_sub_small (range_end _)) by lia.
    rewrite u64_sub_small by lia. lia. }
  rewrite Es. destruct (IH (dropped ++ [(k, e)])) as (more & rest & Ek & El & Nr & Sz & Mr).
  { by rewrite E, <- app_assoc. }
  exists ((k, e) :: more), rest. rewrite last_snoc in El. cbn [snd] in El.
  change ((k2, e2) :: kept).*2 with (e2 :: kept.*2) in El. rewrite <- app_assoc in El. cbn [app] in El.
  split_and!; [by rewrite Ek|exact El| |done|].
  - intros _. by apply Nr.
  - intros [|x m1] ke m2 Em; cbn in Em; injection Em as <- Em.
    + rewrite <- Em, <- Ek. done.
    + by eapply Mr.
Qed.

Lemma by_bytes_spec limit :
  ∃ dropped kept, btree_iter ps.(index) = dropped ++ kept
    ∧ (dropped = [] ∧ trim_by_bytes (whole_index ps) limit = ps.(log_start_offset)
       ∨ dropped ≠ [] ∧ cut_at dropped kept (trim_by_bytes (whole_index ps) limit))
    ∧ (btree_iter ps.(index) ≠ [] → kept ≠ []) ∧ (sum_bytes kept <= limit ∨ (length kept <= 1)%nat)
    ∧ (∀ d1 ke d2, dropped = d1 ++ ke :: d2 → limit < sum_bytes (ke :: d2 ++ kept)).
Proof.
  destruct (bytes_loop_spec limit [] (btree_iter (index ps)) eq_refl) as (dropped & kept & E & El & Nk & Sz & Md).
  exists dropped, kept. split; [done|]. split; [|done]. unfold trim_by_bytes. rewrite whole_entries.
  cbn [whole_index px_bytes px_log_start_offset]. rewrite (part_bytes _ _ Po). cbn [last app] in El.
  rewrite El. destruct dropped as [|[k e] d _] using rev_ind; [by left|right].
  rewrite last_snoc. cbn [snd]. destruct (cut_exists _ _ E) as [before C].
  split; [by destruct d|]. by rewrite (cut_end _ _ _ _ _ C).
Qed.
(** ** The trim point *)

Lemma cut_order d k b d' k' b' :
  cut_at d k b → cut_at d' k' b' → b <= b' → ∃ m, d' = d ++ m ∧ k = m ++ k'.
Proof.
  intros (E & a & _ & T) (E' & a' & _ & T') L. rewrite E in E'.
  apply app_eq_inv in E' as [(m & -> & ->)|(m & -> & ->)]; [|by exists m].
  pose proof (tiles_sum _ _ _ T) as S. pose proof (tiles_sum _ _ _ T') as S'.
  rewrite sum_records_app in S'. destruct m as [|[x e] m]; [exists []; by rewrite !app_nil_r|].
  destruct T' as (_ & _ & R & _). cbn [sum_records snd] in S'. lia.
Qed.

Lemma sum_bytes_suffix m l : sum_bytes l <= sum_bytes (m ++ l).
Proof. rewrite sum_bytes_app. lia. Qed.

Lemma trim_point_spec ma mb now before :
  trim_point (whole_index ps) ma mb now = Some before →
  ∃ dropped kept, cut_at dropped kept before
    ∧ ps.(log_start_offset) < before <= ps.(next_offset)
    ∧ (∀ d1 ke d2, dropped = d1 ++ ke :: d2 →
        (∃ age, ma = Some age
           ∧ (ke.2.(max_timestamp_ms) < clock_i64 (u64_saturating_sub now age))%Z)
        ∨ ∃ limit, mb = Some limit ∧ limit < sum_bytes (ke :: d2 ++ kept))
    ∧ (ma = None → kept ≠ [])
    ∧ (∀ limit, mb = Some limit → sum_bytes kept <= limit ∨ (length kept <= 1)%nat).
Proof.
  unfold trim_point. intros E.
  assert (∀ b, (if px_log_start_offset (whole_index ps) <? b then Some b else None) = Some before →
    b = before ∧ log_start_offset ps < before) as Lt.
  { intros b. destruct (N.ltb_spec (px_log_start_offset (whole_index ps)) b); [|done].
    intros [= ->]. done. }
  assert (∀ d k age, ma = Some age → cut_at d k before → trim_by_age (whole_index ps) age now = before →
    ∀ d1 ke d2, d = d1 ++ ke :: d2 → ∃ age, ma = Some age
      ∧ (ke.2.(max_timestamp_ms) < clock_i64 (u64_saturating_sub now age))%Z) as Age.
  { intros d k age -> C Eb d1 ke d2 ->. exists age. split; [done|].
    destruct (by_age_spec age now) as (da & ka & Ca & Fa & _). rewrite Eb in Ca.
    destruct (cut_order _ _ _ _ _ _ C Ca (N.le_refl _)) as (m & -> & _).
    apply Forall_app in Fa as [Fa _]. apply Forall_app in Fa as [_ [Fk _]%Forall_cons]. done. }
  destruct mb as [limit|]; cbn [fmap option_fmap option_map mbind option_bind] in E.
  - destruct (by_bytes_spec limit) as (db & kb & Es & Cb & Nk & Sz & Md).
    destruct ma as [age|]; cbn [fmap option_fmap option_map mbind option_bind] in E; apply Lt in E as [<- Ls].
    + destruct (by_age_spec age now) as (da & ka & Ca & Fa & _).
      destruct (N.le_gt_cases (trim_by_bytes (whole_index ps) limit) (trim_by_age (whole_index ps) age now)) as [Le|Gt].
      * rewrite N.max_l in * by done. exists da, ka. split_and!; try done; [by eapply cut_le| |].
        -- intros d1 ke d2 Ed. left. by eapply Age.
        -- intros l [= <-]. destruct Cb as [[-> Eb]|[_ Cb]].
           ++ destruct Ca as (Es' & _). rewrite Es in Es'. cbn [app] in Es'. rewrite Es' in Sz.
              pose proof (sum_bytes_suffix da ka). rewrite length_app in Sz. destruct Sz; [left|right]; lia.
           ++ destruct (cut_order _ _ _ _ _ _ Cb Ca Le) as (m & _ & ->).
              pose proof (sum_bytes_suffix m ka). rewrite length_app in Sz. destruct Sz; [left|right]; lia.
      * rewrite N.max_r in * by lia. destruct Cb as [[_ Eb]|[_ Cb]]; [lia|].
        exists db, kb. split_and!; try done; [by eapply cut_le| |].
        -- intros d1 ke d2 Ed. right. exists limit. split; [done|]. by eapply Md.
        -- by intros l [= <-].
    + destruct Cb as [[_ Eb]|[Nd Cb]]; [lia|]. exists db, kb. split_and!; try done; [by eapply cut_le| | |].
      * intros d1 ke d2 Ed. right. exists limit. split; [done|]. by eapply Md.
      * intros _. apply Nk. rewrite Es. by destruct db.
      * by intros l [= <-].
  - destruct ma as [age|]; [|done]. cbn [fmap option_fmap option_map mbind option_bind] in E. apply Lt in E as [Eb Ls].
    destruct (by_age_spec age now) as (da & ka & Ca & Fa & _). rewrite Eb in Ca.
    exists da, ka. split_and!; try done; [by eapply cut_le|].
    intros d1 ke d2 Ed. left. by eapply Age.
Qed.
End trim.
