(* ===== verification/LogGc.v ===== *)
(** * Garbage collection (loams-log/src/gc.rs)

    A run makes three passes over retired objects, orphan WAL objects and orphan segments and
    link objects.  What the metastore and the store answer a run is a [GcEnv], a function of how
    many questions the run asked before, since both change while it runs.  Whether the run is
    cancelled is asked again and again, and once it is it stays so: a [Cancel] says how many more
    times the answer is no.  [GcRun] is what a run has done so far: its report and the objects it
    deleted, each with the time of the delete. *)

From Stdlib Require Import NArith ZArith Lia Ascii.
From stdpp Require Import prelude gmap strings numbers list.
From S2P Require Import Prelude.
From S2P Require Import BTree.
From S2P Require Import ByteCodec.
From S2P Require Import Ids.
From S2P Require Import MetaTypes.
From S2P Require Import Paths.
From S2P Require Import MetaState.
From S2P Require Import LogBatch.
From S2P Require Import LogWriter.
From S2P Require Import LogSegmenter.
From S2P Require Import LogRetention.

Open Scope N_scope.

Definition GC_TASK : string := "gc".

Record GcConfig := {
  gc_grace : N;
  gc_interval : N;
  gc_list_page : nat;
  gc_keep_manifests : nat;
}.

Definition GcConfig_default : GcConfig :=
  {| gc_grace := from_secs 3600; gc_interval := from_secs 60; gc_list_page := 1000;
     gc_keep_manifests := 10 |}.

(** [DeadlineError] *)
Record DeadlineError := { de_name : string; de_deadline : N; de_grace : N }.

(** [GcConfig::check_deadlines] *)
Definition check_deadlines (c : GcConfig) (deadlines : list (string * N)) : Result () DeadlineError :=
  match filter (λ d, c.(gc_grace) <= d.2) deadlines with
  | (name, deadline) :: _ =>
      Err {| de_name := name; de_deadline := deadline; de_grace := c.(gc_grace) |}
  | [] => Ok ()
  end.

Record GcReport := {
  gr_retired : N;
  gr_orphan_wal : N;
  gr_orphan_segments : N;
  gr_orphan_other : N;
}.

Definition GcReport_default : GcReport :=
  {| gr_retired := 0; gr_orphan_wal := 0; gr_orphan_segments := 0; gr_orphan_other := 0 |}.

(** [GcReport::add] *)
Definition report_add (r other : GcReport) : GcReport :=
  {| gr_retired := u32_add r.(gr_retired) other.(gr_retired);
     gr_orphan_wal := u32_add r.(gr_orphan_wal) other.(gr_orphan_wal);
     gr_orphan_segments := u32_add r.(gr_orphan_segments) other.(gr_orphan_segments);
     gr_orphan_other := u32_add r.(gr_orphan_other) other.(gr_orphan_other) |}.

Record GcKeep := {
  gk_objects : gset string;
  gk_prefixes : list string;
}.

(** [ObjectInfo] (loams-store): what the passes use of it. *)
Record ObjectInfo := {
  oi_path : string;
  oi_last_modified_ms : N;
}.

(** ** The time of an object *)

(** [s.rsplit(c).next()]: what follows the last [c]. *)
Fixpoint after_last (c : ascii) (s : list ascii) (acc : list ascii) : list ascii :=
  match s with
  | [] => acc
  | x :: s => if bool_decide (x = c) then after_last c s [] else after_last c s (acc ++ [x])
  end.

(** [s.split(c).next()]: what precedes the first [c]. *)
Fixpoint before_first (c : ascii) (s : list ascii) : list ascii :=
  match s with
  | [] => []
  | x :: s => if bool_decide (x = c) then [] else x :: before_first c s
  end.

(** The part of a path that may be a ULID. *)
Definition ulid_part (path : string) : string :=
  let name := after_last "/"%char (String.list_ascii_of_string path) [] in
  let stem := before_first "."%char name in
  String.string_of_list_ascii (after_last "-"%char stem []).

(** [Ulid::from_string] *)
Class UlidParse := { ulid_from_string : string → option Bytes }.

Section gc.
Context `{Ulids} `{UlidParse}.

(** [object_time_ms] *)
Definition object_time_ms (info : ObjectInfo) : N :=
  match ulid_from_string (ulid_part info.(oi_path)) with
  | Some u => ulid_timestamp_ms u
  | None => info.(oi_last_modified_ms)
  end.

(** ** A run *)

Abbreviation Cancel := (option nat) (only parsing).

(** [ctx.cancel.is_cancelled()] *)
Definition is_cancelled (cancel : Cancel) : bool * Cancel :=
  match cancel with
  | None => (false, None)
  | Some O => (true, Some O)
  | Some (S n) => (false, Some n)
  end.

(** What a root of the third pass answers in a namespace. *)
Record GcRoot := {
  rt_prefix : string;
  rt_reachable : nat → NamespaceId → nat → Result GcKeep LogError;
  rt_object_time_ms : ObjectInfo → N;
}.

Record GcEnv := {
  ge_fence : Fence;
  ge_retired_expired : nat → N → Result (list string) MetaError.t;
  ge_list : nat → string → Result (list ObjectInfo) StoreError.t;
  ge_lease : nat → string → Result (option Lease) MetaError.t;
  ge_delete : nat → string → Result () StoreError.t;
  ge_forget : nat → list string → Fence → Result N MetaError.t;
  ge_orphan_wal : nat → list (string * N) → N → nat → Result (list string) MetaError.t;
  ge_namespaces : nat → Result (list Namespace) MetaError.t;
  ge_orphan_segments :
    nat → NamespaceId → list (string * N) → N → nat → Result (list string) MetaError.t;
  ge_clock_ms : nat → Result N MetaError.t;
  ge_roots : list GcRoot;
}.

Record GcRun := {
  gn_time : nat;
  gn_cancel : option nat;
  gn_report : GcReport;
  gn_deleted : list (nat * string);
}.

Definition set_cancel (r : GcRun) (cancel : Cancel) : GcRun :=
  {| gn_time := r.(gn_time); gn_cancel := cancel; gn_report := r.(gn_report);
     gn_deleted := r.(gn_deleted) |}.

Definition count (r : GcRun) (report : GcReport) : GcRun :=
  {| gn_time := r.(gn_time); gn_cancel := r.(gn_cancel);
     gn_report := report_add r.(gn_report) report; gn_deleted := r.(gn_deleted) |}.

(** A question is asked. *)
Definition asked (r : GcRun) : GcRun :=
  {| gn_time := S r.(gn_time); gn_cancel := r.(gn_cancel); gn_report := r.(gn_report);
     gn_deleted := r.(gn_deleted) |}.

Definition removed (r : GcRun) (path : string) : GcRun :=
  {| gn_time := r.(gn_time); gn_cancel := r.(gn_cancel); gn_report := r.(gn_report);
     gn_deleted := r.(gn_deleted) ++ [(r.(gn_time), path)] |}.

(** [store_failed] *)
Definition store_failed (e : StoreError.t) : TaskError := TaskFailed (LogStore e).

(** [u32::try_from(n).unwrap_or(u32::MAX)] *)
Definition count_of {A} (l : list A) : N := default u32_MAX (u32_try_from (len l)).

(** [GcTask::confirm_lease] *)
Definition confirm_lease (env : GcEnv) (r : GcRun) : GcRun * Result () TaskError :=
  let answer := env.(ge_lease) r.(gn_time) env.(ge_fence).(fence_lease) in
  let r := asked r in
  TRY lease <- map_err TaskMeta answer IN r ;;
  let held := match lease with
              | Some l => (l.(epoch) =? env.(ge_fence).(fence_epoch)) && bool_decide (is_Some l.(owner))
              | None => false
              end in
  if (held : bool) then
    let '(cancelled, cancel) := is_cancelled r.(gn_cancel) in
    (set_cancel r cancel, if (cancelled : bool) then Err TaskFenced else Ok ())
  else (r, Err TaskFenced).

(** The loop of [GcTask::delete]: the paths it deleted. *)
Fixpoint delete_loop (env : GcEnv) (r : GcRun) (paths deleted : list string) : GcRun * list string :=
  match paths with
  | [] => (r, deleted)
  | path :: paths =>
      let '(cancelled, cancel) := is_cancelled r.(gn_cancel) in
      let r := set_cancel r cancel in
      if (cancelled : bool) then (r, deleted)
      else
        match env.(ge_delete) r.(gn_time) path with
        | Ok _ => delete_loop env (asked (removed r path)) paths (deleted ++ [path])
        | Err _ => delete_loop env (asked r) paths deleted
        end
  end.

(** [GcTask::delete] *)
Definition gc_delete (env : GcEnv) (r : GcRun) (paths : list string)
  : GcRun * Result (list string) TaskError :=
  if bool_decide (paths = []) then (r, Ok paths)
  else
    let '(r, held) := confirm_lease env r in
    TRY _held <- held IN r ;;
    let '(r, deleted) := delete_loop env r paths [] in
    (r, Ok deleted).

(** ** The passes *)

(** What the loop of [retired] collects: objects, empty prefixes, objects under prefixes. *)
Record RetiredPlan := {
  rp_objects : list string;
  rp_empty_prefixes : list string;
  rp_under_prefixes : list string;
}.

Fixpoint plan_retired (env : GcEnv) (r : GcRun) (due : list string) (budget : nat) (p : RetiredPlan)
  : GcRun * Result RetiredPlan TaskError :=
  match due with
  | [] => (r, Ok p)
  | path :: due =>
      if (budget =? 0)%nat then (r, Ok p)
      else if negb (ends_with "/" path) then
        plan_retired env r due (budget - 1)
          {| rp_objects := p.(rp_objects) ++ [path]; rp_empty_prefixes := p.(rp_empty_prefixes);
             rp_under_prefixes := p.(rp_under_prefixes) |}
      else
        let answer := env.(ge_list) r.(gn_time) path in
        let r := asked r in
        TRY listed <- map_err store_failed answer IN r ;;
        if bool_decide (listed = []) then
          plan_retired env r due budget
            {| rp_objects := p.(rp_objects); rp_empty_prefixes := p.(rp_empty_prefixes) ++ [path];
               rp_under_prefixes := p.(rp_under_prefixes) |}
        else
          let n := Nat.min (length listed) budget in
          plan_retired env r due (budget - n)
            {| rp_objects := p.(rp_objects); rp_empty_prefixes := p.(rp_empty_prefixes);
               rp_under_prefixes := p.(rp_under_prefixes) ++ (oi_path <$> take n listed) |}
  end.

Definition retired_count (n : N) : GcReport :=
  {| gr_retired := n; gr_orphan_wal := 0; gr_orphan_segments := 0; gr_orphan_other := 0 |}.

(** [GcTask::retired] *)
Definition retired_pass (c : GcConfig) (env : GcEnv) (r : GcRun) : GcRun * Result () TaskError :=
  let answer := env.(ge_retired_expired) r.(gn_time) (millis c.(gc_grace)) in
  let r := asked r in
  TRY due <- map_err TaskMeta answer IN r ;;
  let '(r, planned) := plan_retired env r due c.(gc_list_page)
                         {| rp_objects := []; rp_empty_prefixes := []; rp_under_prefixes := [] |} in
  TRY p <- planned IN r ;;
  let '(r, d) := gc_delete env r p.(rp_under_prefixes) in
  TRY deleted <- d IN r ;;
  let r := count r (retired_count (count_of deleted)) in
  let '(r, f) := gc_delete env r p.(rp_objects) in
  TRY forget <- f IN r ;;
  if bool_decide (forget = []) && bool_decide (p.(rp_empty_prefixes) = []) then (r, Ok ())
  else
    let answer := env.(ge_forget) r.(gn_time) (forget ++ p.(rp_empty_prefixes)) env.(ge_fence) in
    let r := asked r in
    TRY forgotten <- map_err fenced answer IN r ;;
    (count r (retired_count forgotten), Ok ()).

(** The objects of a listing with an ending, and their times. *)
Definition candidates_of (suffix : string) (listed : list ObjectInfo) : list (string * N) :=
  (λ info, (info.(oi_path), object_time_ms info))
    <$> filter (λ info, ends_with suffix info.(oi_path) = true) listed.

(** [GcTask::orphan_wal] *)
Definition orphan_wal_pass (c : GcConfig) (env : GcEnv) (r : GcRun) : GcRun * Result () TaskError :=
  let min_age := u64_add (2 * WAL_COMMIT_WINDOW_MS) (millis c.(gc_grace)) in
  let answer := env.(ge_list) r.(gn_time) "wal/" in
  let r := asked r in
  TRY listed <- map_err store_failed answer IN r ;;
  let candidates := candidates_of ".wal" listed in
  if bool_decide (candidates = []) then (r, Ok ())
  else
    let answer := env.(ge_orphan_wal) r.(gn_time) candidates min_age c.(gc_list_page) in
    let r := asked r in
    TRY orphans <- map_err TaskMeta answer IN r ;;
    let '(r, d) := gc_delete env r orphans in
    TRY deleted <- d IN r ;;
    (count r {| gr_retired := 0; gr_orphan_wal := count_of deleted; gr_orphan_segments := 0;
                gr_orphan_other := 0 |}, Ok ()).

(** The segments of a namespace in [orphan_namespaced]. *)
Definition orphan_segments_of (c : GcConfig) (env : GcEnv) (r : GcRun) (ns : NamespaceId)
  : GcRun * Result () TaskError :=
  let answer := env.(ge_list) r.(gn_time) ("ns/" +:+ show_u64 ns +:+ "/streams/") in
  let r := asked r in
  TRY listed <- map_err store_failed answer IN r ;;
  let candidates := candidates_of ".seg" listed in
  if bool_decide (candidates = []) then (r, Ok ())
  else
    let answer := env.(ge_orphan_segments) r.(gn_time) ns candidates (millis c.(gc_grace))
                    c.(gc_list_page) in
    let r := asked r in
    TRY orphans <- map_err TaskMeta answer IN r ;;
    let '(r, d) := gc_delete env r orphans in
    TRY deleted <- d IN r ;;
    (count r {| gr_retired := 0; gr_orphan_wal := 0; gr_orphan_segments := count_of deleted;
                gr_orphan_other := 0 |}, Ok ()).

(** [path.starts_with(prefix)] *)
Definition starts_with (prefix s : string) : bool :=
  bool_decide (take (String.length prefix) (String.list_ascii_of_string s)
               = String.list_ascii_of_string prefix).

(** What a root's listing leaves to delete. *)
Definition root_orphans (c : GcConfig) (root : GcRoot) (keep : GcKeep) (now : N)
    (listed : list ObjectInfo) : list string :=
  take c.(gc_list_page)
    (oi_path <$> filter (λ info,
       (oi_path info ∉ keep.(gk_objects))
       ∧ Forall (λ p, starts_with p info.(oi_path) = false) keep.(gk_prefixes)
       ∧ u64_saturating_add (root.(rt_object_time_ms) info) (millis c.(gc_grace)) <= now) listed).

(** The root loop of [orphan_namespaced]. *)
Fixpoint orphan_roots (c : GcConfig) (env : GcEnv) (r : GcRun) (ns : NamespaceId) (roots : list GcRoot)
  : GcRun * Result () TaskError :=
  match roots with
  | [] => (r, Ok ())
  | root :: roots =>
      let prefix := "ns/" +:+ show_u64 ns +:+ "/" +:+ root.(rt_prefix) in
      let answer := env.(ge_clock_ms) r.(gn_time) in
      let r := asked r in
      TRY now <- map_err TaskMeta answer IN r ;;
      let reachable := root.(rt_reachable) r.(gn_time) ns c.(gc_keep_manifests) in
      let r := asked r in
      match reachable with
      | Err _ => orphan_roots c env r ns roots
      | Ok keep =>
          let answer := env.(ge_list) r.(gn_time) prefix in
          let r := asked r in
          TRY listed <- map_err store_failed answer IN r ;;
          let '(r, d) := gc_delete env r (root_orphans c root keep now listed) in
          TRY deleted <- d IN r ;;
          orphan_roots c env (count r {| gr_retired := 0; gr_orphan_wal := 0; gr_orphan_segments := 0;
                                         gr_orphan_other := count_of deleted |}) ns roots
      end
  end.

(** The namespace loop of [orphan_namespaced]. *)
Fixpoint orphan_namespaces (c : GcConfig) (env : GcEnv) (r : GcRun) (nss : list NamespaceId)
  : GcRun * Result () TaskError :=
  match nss with
  | [] => (r, Ok ())
  | ns :: nss =>
      let '(cancelled, cancel) := is_cancelled r.(gn_cancel) in
      let r := set_cancel r cancel in
      if (cancelled : bool) then (r, Ok ())
      else
        let '(r, d) := orphan_segments_of c env r ns in
        TRY _segments <- d IN r ;;
        let '(r, d) := orphan_roots c env r ns env.(ge_roots) in
        TRY _roots <- d IN r ;;
        orphan_namespaces c env r nss
  end.

(** [GcTask::orphan_namespaced] *)
Definition orphan_namespaced_pass (c : GcConfig) (env : GcEnv) (r : GcRun) : GcRun * Result () TaskError :=
  let answer := env.(ge_namespaces) r.(gn_time) in
  let r := asked r in
  TRY nss <- map_err TaskMeta answer IN r ;;
  orphan_namespaces c env r (namespace_id <$> nss).

(** [GcTask::passes] *)
Definition gc_passes (c : GcConfig) (env : GcEnv) (r : GcRun) : GcRun * Result () TaskError :=
  let '(r, d) := retired_pass c env r in
  TRY _retired <- d IN r ;;
  let '(cancelled, cancel) := is_cancelled r.(gn_cancel) in
  let r := set_cancel r cancel in
  if (cancelled : bool) then (r, Ok ())
  else
    let '(r, d) := orphan_wal_pass c env r in
    TRY _wal <- d IN r ;;
    let '(cancelled, cancel) := is_cancelled r.(gn_cancel) in
    let r := set_cancel r cancel in
    if (cancelled : bool) then (r, Ok ()) else orphan_namespaced_pass c env r.

(** A run that starts now. *)
Definition gc_start (cancel : Cancel) : GcRun :=
  {| gn_time := 0; gn_cancel := cancel; gn_report := GcReport_default; gn_deleted := [] |}.

(** [GcTask::run]: the totals of the source after it, what it deleted and how it ended. *)
Definition gc_run (c : GcConfig) (env : GcEnv) (cancel : Cancel) (totals : GcReport)
  : GcReport * list (nat * string) * Result TaskOutcome TaskError :=
  let '(r, result) := gc_passes c env (gc_start cancel) in
  (report_add totals r.(gn_report), r.(gn_deleted),
   match result with Ok _ => Ok Done | Err e => Err e end).
End gc.

(** [GcSource::candidates]: whether the task is due, [elapsed] after the last run. *)
Definition gc_due (c : GcConfig) (elapsed : option N) : bool :=
  match elapsed with Some d => c.(gc_interval) <=? d | None => true end.

(** The report of [GcSource::run_once]. *)
Definition gc_report_minus (after before : GcReport) : GcReport :=
  {| gr_retired := u32_sub after.(gr_retired) before.(gr_retired);
     gr_orphan_wal := u32_sub after.(gr_orphan_wal) before.(gr_orphan_wal);
     gr_orphan_segments := u32_sub after.(gr_orphan_segments) before.(gr_orphan_segments);
     gr_orphan_other := u32_sub after.(gr_orphan_other) before.(gr_orphan_other) |}.
