(* ===== verification/LogGcInv.v ===== *)
(** * What garbage collection chooses is out of use for good

    Retired objects never come back, the commit of an orphan WAL object and the swap of an orphan
    segment come too late, and what is under the prefix of a dropped collection or of a root is no
    object of the log.  The second
    part follows a run through its passes: whatever it deletes, at whichever time it asks, is
    unused from then on ([gc_run_safe]). *)

From Stdlib Require Import NArith ZArith Lia Ascii.
From stdpp Require Import prelude gmap strings numbers list.
From S2P Require Import Prelude.
From S2P Require Import BTree.
From S2P Require Import ByteCodec.
From S2P Require Import Ids.
From S2P Require Import MetaTypes.
From S2P Require Import Paths.
From S2P Require Import MetaState.
From S2P Require Import MetaLog.
From S2P Require Import MetaCatalog.
From S2P Require Import MetaApply.
From S2P Require Import CatalogInv.
From S2P Require Import MetaCatalogInv.
From S2P Require Import MetaAliasInv.
From S2P Require Import MetaObjects.
From S2P Require Import MetaLogInv.
From S2P Require Import MetaEnv.
From S2P Require Import MetaCommit.
From S2P Require Import MetaSteps.
From S2P Require Import MetaRetired.
From S2P Require Import LogBatch.
From S2P Require Import LogBatchInv.
From S2P Require Import LogWal.
From S2P Require Import LogSegment.
From S2P Require Import LogReader.
From S2P Require Import LogReaderInv.
From S2P Require Import LogWriter.
From S2P Require Import LogSegmenter.
From S2P Require Import LogSegmenterInv.
From S2P Require Import LogOrigin.
From S2P Require Import LogSystem.
From S2P Require Import LogRetention.
From S2P Require Import LogGc.

Open Scope N_scope.

(** ** Names *)

Lemma elem_take {A} n (x : A) xs : x ∈ take n xs → x ∈ xs.
Proof. intros I. rewrite <- (take_drop n xs). set_solver. Qed.

Lemma after_last_none c s acc : c ∉ s → after_last c s acc = acc ++ s.
Proof.
  revert acc. induction s as [|x s IH]; intros acc N; cbn; [by rewrite app_nil_r|].
  apply not_elem_of_cons in N as [N1 N2]. rewrite bool_decide_false by done.
  by rewrite IH, <- app_assoc.
Qed.

Lemma after_last_app c s t acc : c ∉ t → after_last c (s ++ c :: t) acc = t.
Proof.
  intros N. revert acc. induction s as [|x s IH]; intros acc; cbn.
  - rewrite bool_decide_true by done. by rewrite after_last_none.
  - case_bool_decide; apply IH.
Qed.

Lemma before_first_app c s t : c ∉ s → before_first c (s ++ c :: t) = s.
Proof.
  intros N. induction s as [|x s IH]; cbn; [by rewrite bool_decide_true|].
  apply not_elem_of_cons in N as [N1 N2]. rewrite bool_decide_false by done. by rewrite IH.
Qed.

(** A text without separators. *)
Definition plain (u : string) : Prop :=
  let l := String.list_ascii_of_string u in
  ("/"%char ∉ l) ∧ ("."%char ∉ l) ∧ ("-"%char ∉ l).

Lemma wal_ulid_part class node u : plain u → ulid_part (wal_object class node u) = u.
Proof.
  intros (N1 & N2 & N3). unfold ulid_part, wal_object. rewrite <- !string_app_assoc, string_app_assoc.
  rewrite (list_ascii_app _ (u +:+ ".wal")).
  match goal with |- context [String.list_ascii_of_string (?a +:+ "/") ++ _] =>
    rewrite (list_ascii_app a "/") end.
  rewrite <- app_assoc. change (String.list_ascii_of_string "/" ++ ?x) with ("/"%char :: x).
  rewrite after_last_app.
  2: { rewrite list_ascii_app. intros [?|I]%elem_of_app; [done|]. cbn in I. set_solver. }
  rewrite list_ascii_app. change (String.list_ascii_of_string ".wal")
    with ("."%char :: String.list_ascii_of_string "wal").
  rewrite before_first_app, after_last_none by done. apply String.string_of_list_ascii_of_string.
Qed.

Lemma segment_ulid_part ns st p b u : plain u → ulid_part (segment ns st p b u) = u.
Proof.
  intros (N1 & N2 & N3). unfold ulid_part, segment.
  set (tail := show_padded b +:+ "-" +:+ u +:+ ".seg"). rewrite <- !string_app_assoc.
  rewrite (list_ascii_app _ tail).
  match goal with |- context [String.list_ascii_of_string (?a +:+ "/") ++ _] =>
    rewrite (list_ascii_app a "/") end.
  rewrite <- app_assoc. change (String.list_ascii_of_string "/" ++ ?x) with ("/"%char :: x).
  assert (String.list_ascii_of_string tail = (String.list_ascii_of_string (show_padded b) ++ "-"%char ::
    String.list_ascii_of_string u) ++ "."%char :: String.list_ascii_of_string "seg") as Et.
  { unfold tail. rewrite !list_ascii_app, <- app_assoc. done. }
  rewrite after_last_app, Et.
  2: { rewrite Et. intros [[I|I]%elem_of_app|I]%elem_of_app.
       - by apply padded_not in I.
       - apply elem_of_cons in I as [I|I]; [discriminate I|done].
       - cbn in I. set_solver. }
  rewrite before_first_app.
  2: { intros [I|I]%elem_of_app; [by apply padded_not in I|].
       apply elem_of_cons in I as [I|I]; [discriminate I|done]. }
  rewrite after_last_app by done. apply String.string_of_list_ascii_of_string.
Qed.

(** The milliseconds a ULID has room for, 2^48. *)
Definition ULID_TIMES : N := 281474976710656.

(** The ULID library: a ULID is 16 bytes and its text has no separators. *)
Class UlidsOk `{Ulids} `{UlidParse} : Prop := {
  ulid_parsed u : length u = 16%nat → ulid_from_string (ulid_string u) = Some u;
  ulid_plain u : plain (ulid_string u);
  ulid_parts t r : t < ULID_TIMES →
    length (ulid_from_parts t r) = 16%nat ∧ ulid_timestamp_ms (ulid_from_parts t r) = t;
  ulid_time u : length u = 16%nat → ulid_timestamp_ms u < ULID_TIMES;
}.

Lemma starts_with_app p s : starts_with p s = true ↔ ∃ rest, s = p +:+ rest.
Proof.
  unfold starts_with. rewrite bool_decide_eq_true. split.
  - intros E. exists (String.string_of_list_ascii (drop (String.length p) (String.list_ascii_of_string s))).
    apply list_ascii_inj. rewrite list_ascii_app, String.list_ascii_of_string_of_list_ascii, <- E.
    by rewrite take_drop.
  - intros [rest ->]. rewrite list_ascii_app. by rewrite take_app_length' by (by rewrite length_list_ascii).
Qed.

(** A segment under the streams of a namespace is of the namespace. *)
Lemma segment_under ns ns' st p b u :
  ns <= u64_MAX → ns' <= u64_MAX →
  starts_with ("ns/" +:+ (show_u64 ns +:+ "/streams/")) (segment ns' st p b u) = true → ns' = ns.
Proof.
  intros B B' [rest E]%starts_with_app. apply (f_equal String.list_ascii_of_string) in E.
  unfold segment in E. rewrite !list_ascii_app, <- !app_assoc in E. apply app_inv_head in E. cbn in E.
  apply sep_app_inj in E as [E _]; [|by apply show_not..].
  by apply list_ascii_inj, show_u64_inj in E.
Qed.

(** The objects of the log are not under other prefixes of a namespace. *)
Lemma log_path_apart ns x o :
  (∀ rest rest', x +:+ rest ≠ "streams/" +:+ rest') →
  ((∃ class node u, o = wal_object class node u) ∨ ∃ ns' st p b u, o = segment ns' st p b u) →
  starts_with ("ns/" +:+ (show_u64 ns +:+ ("/" +:+ x))) o = false.
Proof.
  intros Ax K. apply not_true_iff_false. intros [rest E]%starts_with_app.
  apply (f_equal String.list_ascii_of_string) in E.
  destruct K as [(class & node & u & ->)|(ns' & st & p & b & u & ->)].
  { unfold wal_object in E. rewrite !list_ascii_app in E. cbn in E. discriminate E. }
  unfold segment in E. rewrite !list_ascii_app, <- !app_assoc in E. apply app_inv_head in E. cbn in E.
  apply sep_app_inj in E as [_ E]; [|by apply show_not..].
  match type of E with _ = ?l ++ ?r =>
    apply (Ax rest (String.string_of_list_ascii (drop 8 (l ++ r)))) end.
  apply list_ascii_inj. rewrite !list_ascii_app, String.list_ascii_of_string_of_list_ascii.
  rewrite <- E. done.
Qed.

Lemma dropped_apart o q :
  ((∃ class node u, o = wal_object class node u) ∨ ∃ ns' st p b u, o = segment ns' st p b u) →
  dropped_prefix q → starts_with q o = false.
Proof.
  intros K (ns & id & [->| ->]).
  - apply (log_path_apart ns ("collections/" +:+ (show_u64 id +:+ "/"))); [|done].
    intros rest rest' E. discriminate E.
  - apply (log_path_apart ns ("pk/collection-" +:+ (show_u64 id +:+ "/"))); [|done].
    intros rest rest' E. discriminate E.
Qed.

(** ** Paths in use and retired paths *)

(** Objects in use are WAL objects and segments. *)
Lemma used_named l o :
  well_named l → log_weight l <= u64_MAX → in_use o (run start l) →
  (∃ class node u, o = wal_object class node u) ∨ ∃ ns st p b u, o = segment ns st p b u.
Proof.
  intros wn B (k & ps & b & e & M & I & <-).
  pose proof (run_placed l k ps b e wn B M I) as O. unfold placed_by in O.
  destruct (entry_kind e).
  - left. destruct O as (l1 & l2 & t & ch & bs & i & c & b' & -> & _).
    apply (wn_wal _ wn (CommitWal (object e) t ch) _ t); [set_solver|done].
  - right. destruct O as (l1 & l2 & f & o & r & sg & ra & ts & fe & nw & fr & ps' & rc & -> & _ & _ & ->).
    destruct (wn_segment _ wn (SwapSegment k.1 k.2 ((f, o) :: r) sg ra ts fe nw fr) sg k.1 k.2 f)
      as (_ & _ & _ & ns & u & ->); [set_solver|done|]. by eexists _, _, _, _, _.
Qed.

Lemma slash_not_used o :
  ((∃ class node u, o = wal_object class node u) ∨ ∃ ns st p b u, o = segment ns st p b u) →
  ends_with "/" o = false.
Proof.
  intros [(class & node & u & ->)|(ns & st & p & b & u & ->)].
  - unfold wal_object, ends_with. rewrite <- !string_app_assoc, list_ascii_app, rev_app_distr. done.
  - unfold segment, ends_with. rewrite <- !string_app_assoc, list_ascii_app, rev_app_distr. done.
Qed.

Lemma seg_not_ends_wal o : ends_with ".seg" o = true → ends_with ".wal" o = false.
Proof.
  unfold ends_with. rewrite bool_decide_eq_true, bool_decide_eq_false.
  destruct (rev _) as [|a r]; intros E E'; [done|]. cbn in E, E'. injection E as -> _. done.
Qed.

(** A retired path that ends with a slash is the prefix of a dropped collection. *)
Lemma retired_kind l q :
  well_named l → log_weight l <= u64_MAX → is_Some ((run start l).(retired) !! q) →
  ends_with "/" q = true → dropped_prefix q.
Proof.
  induction l as [|c l IH] using rev_ind; intros wn B R Es.
  { unfold run in R. cbn in R. rewrite lookup_empty in R. by destruct R. }
  rewrite log_weight_app in B. apply well_named_app in wn. rewrite run_snoc in R.
  apply apply_retired in R as [R|[U|D]]; [by apply IH; [|lia|..]| |done].
  apply used_named, slash_not_used in U; [congruence|done|lia].
Qed.

(** ** What the questions choose *)

Section gc.
Context `{Crc32cOk} (objects : gmap string Bytes).
Context `{Codec (list BatchIndexEntry)}.
Context `{Codec (list ChunkMeta)} `{!CodecOk (list ChunkMeta) id}.
Context `{UlidsOk} `{ObjectCache}.

Context (log : list Command) (P : produced objects log) (B : log_weight log <= u64_MAX).

(** The segmenter's times fit a ULID, and its swaps expire before [grace_ms]. *)
Definition swaps_expire (grace_ms : N) : Prop :=
  ∀ st p reps seg range ts fence now fresh, SwapSegment st p reps seg range ts fence now fresh ∈ log →
    fresh.(created_at_ms) < ULID_TIMES ∧ fresh.(fresh_max_age_ms) < grace_ms.

Lemma commit_time path t chunks ms :
  CommitWal path t chunks ∈ log →
  object_time_ms {| oi_path := path; oi_last_modified_ms := ms |} = t ∧ t < ULID_TIMES
  ∧ ends_with ".wal" path = true.
Proof.
  intros I. destruct (produced_commit objects log path t chunks P I) as (c & u & l & obj & metas & Fl & -> & _).
  pose proof (fl_ulid _ _ _ _ _ _ _ Fl) as Lu. destruct (flush_finish _ _ _ _ _ _ _ Fl) as (-> & _).
  unfold object_time_ms. cbn [oi_path]. rewrite wal_ulid_part by apply ulid_plain.
  rewrite ulid_parsed by done. split_and!; [done|by apply ulid_time|apply wal_object_ends].
Qed.

(** A swap of the log names a segment of its stream's namespace. *)
Lemma swap_time st p reps seg range ts fence now fresh ms :
  SwapSegment st p reps seg range ts fence now fresh ∈ log → fresh.(created_at_ms) < ULID_TIMES →
  object_time_ms {| oi_path := seg; oi_last_modified_ms := ms |} = fresh.(created_at_ms)
  ∧ ends_with ".wal" seg = false.
Proof.
  intros (l1 & l2 & E)%list_elem_of_split Bt.
  destruct (P l1 _ l2 E) as (l0 & l0' & t & e & es & b & path & obj & f & _ & A).
  destruct (at_command _ _ _ _ _ _ _ _ _ _ A) as (cfg & mts & wa & rnd & fe & nw & _ & W & Ec).
  unfold segment_swap in Ec. injection Ec as _ _ _ -> _ _ _ _ ->. cbn [created_at_ms] in *.
  unfold segment_written in W. destruct (segment_finish b) as [[o fo]|]; [|done]. cbn in W.
  injection W as <- _ _. destruct (ulid_parts wa rnd Bt) as [Lu Tu].
  unfold object_time_ms. cbn [oi_path]. rewrite segment_ulid_part by apply ulid_plain.
  rewrite ulid_parsed by done. split; [done|apply segment_ends].
Qed.

(** A stream that two states of a run have is in one namespace. *)
Lemma homes_agree la l i str0 str :
  log_weight (la ++ l) <= u64_MAX → (run start la).(streams) !! i = Some str0 →
  (run start (la ++ l)).(streams) !! i = Some str → stream_namespace str = stream_namespace str0.
Proof.
  intros Bl S0 S. rewrite log_weight_app in Bl.
  destruct (run_catalog 0 start la catalog_default naming_default) as [C K]; [lia|].
  destruct (run_homes (run start la) l _ C K ltac:(lia)) as [_ Hk]. rewrite run_app in S.
  destruct (ti_item _ _ _ (ca_streams _ _ _ _ _ _ _ _ _ _ _ _ _ _ _ C) _ _ S0) as (_ & Li & _).
  destruct (Hk i str S) as [?|(str' & S' & E)]; [lia|]. congruence.
Qed.

Section at_state.
Context (l l' : list Command) (El : log = l ++ l').

Lemma split_named : well_named (l ++ l') ∧ log_weight (l ++ l') <= u64_MAX.
Proof. rewrite <- El. split; [by eapply produced_named|done]. Qed.

Lemma late_commit t clock :
  t < ULID_TIMES → u64_saturating_add t (2 * WAL_COMMIT_WINDOW_MS) <= clock →
  u64_saturating_add t WAL_COMMIT_WINDOW_MS < clock.
Proof. unfold u64_saturating_add, WAL_COMMIT_WINDOW_MS, ULID_TIMES, u64_MAX. lia. Qed.

Lemma late_swap fresh grace_ms clock :
  fresh.(created_at_ms) < ULID_TIMES → fresh.(fresh_max_age_ms) < grace_ms →
  ULID_TIMES + grace_ms <= u64_MAX → u64_saturating_add fresh.(created_at_ms) grace_ms <= clock →
  expired_at fresh clock = true.
Proof. unfold expired_at, u64_saturating_add. rewrite N.ltb_lt. lia. Qed.

(** A commit or a swap of an object that is old enough comes too late. *)
Lemma old_barred o ms grace_ms :
  swaps_expire grace_ms → ULID_TIMES + grace_ms <= u64_MAX →
  u64_saturating_add (object_time_ms {| oi_path := o; oi_last_modified_ms := ms |})
    (if ends_with ".wal" o then 2 * WAL_COMMIT_WINDOW_MS else grace_ms) <= (run start l).(clock_ms) →
  Forall (barred (run start l).(clock_ms) o) l'.
Proof.
  intros Ex Bg Old. apply Forall_forall. intros c I. assert (c ∈ log) as Il by (rewrite El; set_solver).
  destruct c; cbn; try done.
  - intros ->. destruct (commit_time _ _ _ ms Il) as (Et & Bt & Ew). rewrite Et, Ew in Old.
    by apply late_commit.
  - intros ->. destruct (Ex _ _ _ _ _ _ _ _ _ Il) as [Bt Bm].
    destruct (swap_time _ _ _ _ _ _ _ _ _ ms Il Bt) as (Et & Ew). rewrite Et, Ew in Old.
    by apply (late_swap fresh grace_ms).
Qed.

(** ** Orphans *)

Lemma elem_candidates suffix listed p t :
  (p, t) ∈ candidates_of suffix listed →
  ends_with suffix p = true
  ∧ ∃ ms, t = object_time_ms {| oi_path := p; oi_last_modified_ms := ms |}
    ∧ {| oi_path := p; oi_last_modified_ms := ms |} ∈ listed.
Proof.
  unfold candidates_of. intros ([q ms] & Eq & I)%list_elem_of_fmap. injection Eq as -> ->.
  apply list_elem_of_filter in I as [E I]. split; [done|]. by exists ms.
Qed.

Lemma orphan_wal_unused grace_ms listed limit p :
  swaps_expire grace_ms → ULID_TIMES + grace_ms <= u64_MAX →
  2 * WAL_COMMIT_WINDOW_MS + grace_ms <= u64_MAX →
  p ∈ orphan_wal_objects (run start l) (candidates_of ".wal" listed)
        (u64_add (2 * WAL_COMMIT_WINDOW_MS) grace_ms) limit →
  ¬ in_use p (run start (l ++ l')).
Proof.
  intros Ex Bg Bm I. unfold orphan_wal_objects in I. apply elem_take, list_elem_of_filter in I as [[Lv _] I].
  apply list_elem_of_fmap in I as ([q t] & -> & I). apply list_elem_of_filter in I as [Old I].
  apply elem_candidates in I as (Ew & ms & -> & _). cbn [fst snd] in *.
  rewrite u64_add_small in Old by done. destruct split_named as [wn Bl].
  apply barred_unused; [done|done| |by eapply not_live_unused].
  eapply (old_barred q ms grace_ms); [done|done|]. rewrite Ew. etransitivity; [|exact Old].
  unfold u64_saturating_add. lia.
Qed.

(** The partition of an index entry is one of a stream. *)
Lemma kept_entry k ps b e str :
  (run start l).(partitions) !! k = Some ps → ps.(index) !! b = Some e →
  (run start l).(streams) !! k.1 = Some str → object e ∈ kept_objects (run start l) str.(stream_namespace).
Proof.
  intros M I S. destruct split_named as [wn Bl]. destruct (prefix_ok l l' wn Bl) as (_ & C & _).
  destruct (proj1 (ca_parts _ _ _ _ _ _ _ _ _ _ _ _ _ _ _ C k.1 k.2)) as (str' & S' & Lt).
  { rewrite <- surjective_pairing. by eexists. }
  rewrite S in S'. injection S' as <-.
  destruct (ti_item _ _ _ (ca_streams _ _ _ _ _ _ _ _ _ _ _ _ _ _ _ C) _ _ S) as (Ei & _).
  change (stream_id str = k.1) in Ei. unfold kept_objects. apply list_elem_of_bind. exists str. split.
  - apply list_elem_of_bind. exists (N.to_nat k.2). split; [|apply elem_of_seq; lia].
    rewrite N2Nat.id. unfold partition_of. rewrite Ei, <- surjective_pairing, M.
    apply list_elem_of_fmap_2, elem_of_entries. by exists b.
  - unfold streams_of. apply list_elem_of_filter. split; [done|].
    unfold btree_values. apply list_elem_of_fmap. exists (k.1, str). split; [done|]. by apply elem_of_btree_iter.
Qed.

(** A segment in use is in the namespace its path names. *)
Lemma segment_home ns p :
  ns <= u64_MAX → starts_with ("ns/" +:+ (show_u64 ns +:+ "/streams/")) p = true →
  ends_with ".seg" p = true → in_use p (run start l) → p ∈ kept_objects (run start l) ns.
Proof.
  intros Bn Sw Es (k & ps & b & e & M & I & <-). destruct split_named as [wn Bl].
  pose proof Bl as Bl'. rewrite log_weight_app in Bl'.
  pose proof (run_placed l k ps b e (well_named_app _ _ wn) ltac:(lia) M I) as O. unfold placed_by in O.
  destruct (entry_kind e).
  { destruct O as (l1 & l2 & t & ch & bs & i & c & b' & E1 & _).
    destruct (wn_wal _ wn (CommitWal (object e) t ch) (object e) t) as (class & node & u & E);
      [rewrite E1; set_solver|done|]. rewrite E, wal_ends_seg in Es. done. }
  destruct O as (l1 & l2 & f & o & r & sg & ra & ts & fe & nw & fr & ps' & rc & E1 & _ & _ & Ee).
  destruct (P l1 (SwapSegment k.1 k.2 ((f, o) :: r) sg ra ts fe nw fr) (l2 ++ l'))
    as (l0 & l0' & t & e0 & es & bd & path & obj & ft & E0 & A).
  { rewrite El, E1, <- app_assoc. done. }
  destruct (at_command _ _ _ _ _ _ _ _ _ _ A) as (cfg & mts & wa & rnd & fe' & nw' & _ & W & Ec).
  unfold segment_swap in Ec. injection Ec as Est _ _ _ _ Esg _ _ _ _ _.
  unfold segment_written in W. destruct (segment_finish bd) as [[ob fo]|]; [|done]. cbn in W.
  injection W as Ep _ _. rewrite Ee in Sw. cbn in Sw. rewrite Esg, <- Ep in Sw.
  apply segment_under in Sw as <-; [|done|apply A].
  destruct (at_stream _ _ _ _ _ _ _ _ _ _ A) as (la & lb & str0 & E2 & S0 & ->).
  assert (l = la ++ (lb ++ l0' ++ (SwapSegment k.1 k.2 ((f, o) :: r) sg ra ts fe nw fr) :: l2)) as E3
    by (rewrite E1, E0, E2, <- !app_assoc; done).
  destruct (prefix_ok l l' wn Bl) as (_ & C & _).
  destruct (proj1 (ca_parts _ _ _ _ _ _ _ _ _ _ _ _ _ _ _ C k.1 k.2)) as (str & S & _).
  { rewrite <- surjective_pairing. by eexists. }
  enough (stream_namespace str = stream_namespace str0) as <- by (by eapply kept_entry).
  rewrite Est in S. rewrite E3 in S. eapply homes_agree; [|exact S0|exact S]. rewrite <- E3. lia.
Qed.
Lemma orphan_segment_unused ns grace_ms listed limit p :
  ns <= u64_MAX → swaps_expire grace_ms → ULID_TIMES + grace_ms <= u64_MAX →
  Forall (λ info, starts_with ("ns/" +:+ (show_u64 ns +:+ "/streams/")) info.(oi_path) = true) listed →
  p ∈ orphan_segments (run start l) ns (candidates_of ".seg" listed) grace_ms limit →
  ¬ in_use p (run start (l ++ l')).
Proof.
  intros Bn Ex Bg Fl I. unfold orphan_segments in I. apply elem_take, list_elem_of_filter in I as [[Nk _] I].
  apply list_elem_of_fmap in I as ([q t] & -> & I). apply list_elem_of_filter in I as [Old I].
  apply elem_candidates in I as (Es & ms & -> & Il). cbn [fst snd] in *.
  rewrite Forall_forall in Fl. specialize (Fl _ Il). destruct split_named as [wn Bl].
  apply barred_unused; [done|done| |intros U; by apply Nk, segment_home].
  eapply (old_barred q ms grace_ms); [done|done|]. by rewrite seg_not_ends_wal.
Qed.

(** What is under the prefix of a dropped collection is no object of the log. *)
Lemma under_dropped_unused q p :
  is_retired (run start l) q = true → ends_with "/" q = true → starts_with q p = true →
  ¬ in_use p (run start (l ++ l')).
Proof.
  intros R Es Sw U. apply contains_key_true in R.
  assert (dropped_prefix q) as Dq.
  { destruct split_named as [wn Bl]. rewrite log_weight_app in Bl. apply well_named_app in wn.
    eapply retired_kind; [exact wn|lia|done|done]. }
  destruct split_named as [wn Bl].
  enough (starts_with q p = false) by congruence. apply dropped_apart; [|done].
  eapply used_named; [exact wn|exact Bl|exact U].
Qed.
End at_state.
End gc.

(** ** A run *)

Section gc_run.
Context `{Crc32cOk} (objects : gmap string Bytes).
Context `{Codec (list BatchIndexEntry)}.
Context `{Codec (list ChunkMeta)} `{!CodecOk (list ChunkMeta) id}.
Context `{UlidsOk} `{ObjectCache}.
Context (log : list Command) (P : produced objects log) (B : log_weight log <= u64_MAX).

(** [hist t] has the commands applied before the run's question number [t]. *)
Context (hist : nat → list Command).
Context (hist_grows : ∀ t t', (t ≤ t')%nat → ∃ d, hist t' = hist t ++ d).
Context (hist_log : ∀ t, ∃ d, log = hist t ++ d).

Abbreviation state_at t := (run start (hist t)).

(** From question [t] on, no index entry names [p]. *)
Definition unused (t : nat) (p : string) : Prop := ∀ t', (t ≤ t')%nat → ¬ in_use p (state_at t').

Lemma unused_later t t' p : (t ≤ t')%nat → unused t p → unused t' p.
Proof. intros L U t2 L2. apply U. lia. Qed.

(** What the metastore and the store answer. *)
Record gc_env_ok (c : GcConfig) (env : GcEnv) : Prop := {
  go_retired t g due : env.(ge_retired_expired) t g = Ok due → due = retired_expired (state_at t) g;
  go_wal t cs a n os : env.(ge_orphan_wal) t cs a n = Ok os → os = orphan_wal_objects (state_at t) cs a n;
  go_segments t ns cs a n os :
    env.(ge_orphan_segments) t ns cs a n = Ok os → os = orphan_segments (state_at t) ns cs a n;
  go_namespaces t nss : env.(ge_namespaces) t = Ok nss → Forall (λ n, n.(namespace_id) <= u64_MAX) nss;
  go_list t prefix infos : env.(ge_list) t prefix = Ok infos →
    Forall (λ info, starts_with prefix info.(oi_path) = true) infos;
  go_roots : Forall (λ root, ∀ rest rest', root.(rt_prefix) +:+ rest ≠ "streams/" +:+ rest') env.(ge_roots);
  go_swaps : swaps_expire log (millis c.(gc_grace));
  go_grace : ULID_TIMES + (2 * WAL_COMMIT_WINDOW_MS + millis c.(gc_grace)) <= u64_MAX;
}.

Definition gc_ok (r : GcRun) : Prop := Forall (λ d, unused d.1 d.2) r.(gn_deleted).

(** A part of a run: time passes, and what it deletes is out of use. *)
Definition advances (r r' : GcRun) : Prop := (gn_time r ≤ gn_time r')%nat ∧ (gc_ok r → gc_ok r').

#[local] Instance advances_preorder : PreOrder advances.
Proof.
  split.
  - intros r. by split.
  - intros r1 r2 r3 [L1 G1] [L2 G2]. split; [lia|auto].
Qed.

Lemma advances_cancel r x : advances r (set_cancel r x).
Proof. by split. Qed.
Lemma advances_count r x : advances r (count r x).
Proof. by split. Qed.
Lemma advances_asked r : advances r (asked r).
Proof. split; [cbn; lia|done]. Qed.

Lemma advances_removed r p : unused (gn_time r) p → advances r (removed r p).
Proof. intros U. split; [done|]. intros G. apply Forall_app. split; [done|]. by constructor. Qed.

Section run.
Context (c : GcConfig) (env : GcEnv) (ok : gc_env_ok c env).

Lemma delete_loop_advances r paths acc r' deleted :
  Forall (unused (gn_time r)) paths → delete_loop env r paths acc = (r', deleted) → advances r r'.
Proof.
  revert r acc. induction paths as [|p paths IH]; intros r acc F E; cbn in E; [by injection E as <- _|].
  apply Forall_cons in F as [U F].
  destruct (is_cancelled (gn_cancel r)) as [[] x]; [injection E as <- _; apply advances_cancel|].
  assert (∀ r1, (gn_time r ≤ gn_time r1)%nat → Forall (unused (gn_time r1)) paths) as F1.
  { intros r1 L. eapply Forall_impl; [exact F|]. intros q. by apply unused_later. }
  etransitivity; [apply (advances_cancel r x)|]. destruct (ge_delete _ _ _).
  - etransitivity; [by apply (advances_removed (set_cancel r x) p)|].
    etransitivity; [apply advances_asked|]. eapply IH; [|exact E]. apply F1. cbn. lia.
  - etransitivity; [apply advances_asked|]. eapply IH; [|exact E]. apply F1. cbn. lia.
Qed.

Lemma confirm_lease_advances r r' res : confirm_lease env r = (r', res) → advances r r'.
Proof.
  unfold confirm_lease. destruct (ge_lease _ _ _) as [lease|]; cbn; intros E;
    [|injection E as <- _; apply advances_asked].
  etransitivity; [apply advances_asked|]. destruct (match lease with Some _ => _ | None => _ end);
    [|by injection E as <- _].
  destruct (is_cancelled _) as [x y]. injection E as <- _. apply advances_cancel.
Qed.

Lemma gc_delete_advances r paths r' res :
  Forall (unused (gn_time r)) paths → gc_delete env r paths = (r', res) → advances r r'.
Proof.
  intros F. unfold gc_delete. case_bool_decide; [by intros [= <- _]|].
  destruct (confirm_lease env r) as [r1 [[]|]] eqn:C; apply confirm_lease_advances in C; cbn;
    [|by intros [= <- _]].
  destruct (delete_loop env r1 paths []) as [r2 deleted] eqn:D. intros [= <- _].
  etransitivity; [exact C|]. eapply delete_loop_advances; [|exact D].
  eapply Forall_impl; [exact F|]. intros q. apply unused_later. apply C.
Qed.

(** Deletes of what is out of use since an earlier question. *)
Lemma gc_delete_since t r paths r' res :
  (t ≤ gn_time r)%nat → Forall (unused t) paths → gc_delete env r paths = (r', res) → advances r r'.
Proof.
  intros L F. apply gc_delete_advances. eapply Forall_impl; [exact F|]. intros q. by apply unused_later.
Qed.

(** ** The passes *)

(** The states from question [t] on extend the one at [t]. *)
Lemma unused_from t p :
  (∀ l', produced objects (hist t ++ l') → log_weight (hist t ++ l') <= u64_MAX →
    swaps_expire (hist t ++ l') (millis c.(gc_grace)) → ¬ in_use p (run start (hist t ++ l'))) →
  unused t p.
Proof.
  intros Q t' L. destruct (hist_grows t t' L) as [d Ed]. destruct (hist_log t') as [rest Er].
  rewrite Ed. rewrite Ed in Er. pose proof B as B'. pose proof P as P'. pose proof (go_swaps _ _ ok) as Sw.
  rewrite Er in B', P', Sw. rewrite log_weight_app in B'. apply Q.
  - by eapply produced_prefix.
  - lia.
  - intros st p' reps seg range ts fence now fresh I. eapply Sw. apply elem_of_app. by left.
Qed.

Lemma retired_expired_retired s g p : p ∈ retired_expired s g → is_retired s p = true.
Proof.
  unfold retired_expired, retired_list. intros ([q t] & -> & I)%list_elem_of_fmap.
  apply list_elem_of_filter in I as [_ I]. apply elem_of_btree_iter in I.
  apply contains_key_true. by eexists.
Qed.

Lemma retired_gone_from t p : is_retired (state_at t) p = true → unused t p.
Proof.
  intros R. apply unused_from. intros l' Pl Bl _. apply retired_unused; [by eapply produced_named|done|done].
Qed.

Lemma under_gone_from t q p :
  is_retired (state_at t) q = true → ends_with "/" q = true → starts_with q p = true → unused t p.
Proof.
  intros R Es Sw. apply unused_from. intros l' Pl Bl _.
  by eapply (under_dropped_unused objects (hist t ++ l') Pl Bl (hist t) l' eq_refl q).
Qed.

Lemma plan_retired_spec t r due budget p r' res :
  (t ≤ gn_time r)%nat → Forall (λ q, is_retired (state_at t) q = true) due →
  Forall (unused t) p.(rp_objects) → Forall (unused t) p.(rp_under_prefixes) →
  plan_retired env r due budget p = (r', res) →
  advances r r' ∧ ∀ p', res = Ok p' → Forall (unused t) p'.(rp_objects)
    ∧ Forall (unused t) p'.(rp_under_prefixes).
Proof.
  revert r budget p. induction due as [|q due IH]; intros r budget p L F Fo Fu E; cbn in E.
  { injection E as <- <-. split; [done|]. by intros p' [= <-]. }
  apply Forall_cons in F as [R F]. destruct (budget =? 0)%nat.
  { injection E as <- <-. split; [done|]. by intros p' [= <-]. }
  destruct (ends_with "/" q) eqn:Es; cbn in E.
  - destruct (ge_list _ _ _) as [infos|] eqn:Li; cbn in E.
    2: { injection E as <- <-. split; [apply advances_asked|done]. }
    assert (∀ b' p1, Forall (unused t) p1.(rp_objects) → Forall (unused t) p1.(rp_under_prefixes) →
      plan_retired env (asked r) due b' p1 = (r', res) → advances r r' ∧ ∀ p', res = Ok p' →
        Forall (unused t) p'.(rp_objects) ∧ Forall (unused t) p'.(rp_under_prefixes)) as Go.
    { intros b' p1 Fo1 Fu1 E1. destruct (IH (asked r) _ _ ltac:(cbn; lia) F Fo1 Fu1 E1) as [A Q].
      split; [|done]. etransitivity; [apply advances_asked|exact A]. }
    case_bool_decide; eapply Go; try exact E; try done. cbn. apply Forall_app. split; [done|].
    apply Forall_fmap, Forall_forall. intros info I%elem_take. cbn.
    pose proof (go_list _ _ ok _ _ _ Li) as Fl. rewrite Forall_forall in Fl.
    eapply under_gone_from; [exact R|exact Es|by apply Fl].
  - eapply IH; [exact L|exact F| | |exact E]; cbn; [|exact Fu]. apply Forall_app. split; [done|].
    constructor; [by apply retired_gone_from|done].
Qed.

Lemma retired_pass_advances r r' res : retired_pass c env r = (r', res) → advances r r'.
Proof.
  unfold retired_pass. cbv zeta. destruct (ge_retired_expired _ _ _) as [due|] eqn:Du; cbn.
  2: { intros [= <- _]. apply advances_asked. }
  apply (go_retired _ _ ok) in Du.
  destruct (plan_retired _ _ _ _ _) as [r1 planned] eqn:Pl.
  apply (plan_retired_spec (gn_time r)) in Pl as [A1 Q]; [|cbn; lia| |done|done].
  2: { apply Forall_forall. intros q I. rewrite Du in I. by eapply retired_expired_retired. }
  assert (advances r r1) as A1' by (etransitivity; [apply advances_asked|exact A1]). clear A1.
  destruct planned as [p|]; cbn; [|by intros [= <- _]].
  destruct (Q p eq_refl) as [Fo Fu]. clear Q.
  destruct (gc_delete env r1 _) as [r2 d] eqn:D1.
  apply (gc_delete_since (gn_time r)) in D1; [|apply A1'|done].
  assert (advances r r2) as A2 by (by etransitivity). destruct d as [deleted|]; cbn; [|by intros [= <- _]].
  destruct (gc_delete env (count _ _) _) as [r3 f] eqn:D2.
  apply (gc_delete_since (gn_time r)) in D2; [|apply A2|done].
  assert (advances r r3) as A3
    by (etransitivity; [exact A2|]; etransitivity; [apply advances_count|exact D2]).
  destruct f as [forget|]; cbn; [|by intros [= <- _]]. destruct (_ && _); [by intros [= <- _]|].
  destruct (ge_forget _ _ _ _) as [n|]; cbn; intros [= <- _].
  - etransitivity; [exact A3|]. etransitivity; [apply advances_asked|apply advances_count].
  - etransitivity; [exact A3|apply advances_asked].
Qed.

Lemma orphan_wal_pass_advances r r' res : orphan_wal_pass c env r = (r', res) → advances r r'.
Proof.
  pose proof (go_grace _ _ ok) as Bg.
  unfold orphan_wal_pass. cbv zeta. destruct (ge_list _ _ _) as [listed|]; cbn [map_err].
  2: { intros [= <- _]. apply advances_asked. }
  case_bool_decide; [intros [= <- _]; apply advances_asked|].
  destruct (ge_orphan_wal _ _ _ _ _) as [os|] eqn:Os; cbn [map_err].
  2: { intros [= <- _]. etransitivity; apply advances_asked. }
  apply (go_wal _ _ ok) in Os. destruct (gc_delete _ _ _) as [r1 d] eqn:D.
  apply (gc_delete_since (gn_time (asked r))) in D; [|cbn; lia|].
  2: { apply Forall_forall. intros p I. rewrite Os in I. apply unused_from. intros l' Pl Bl Sw.
       eapply (orphan_wal_unused objects (hist (gn_time (asked r)) ++ l') Pl Bl _ l' eq_refl);
         [exact Sw|unfold WAL_COMMIT_WINDOW_MS in Bg; lia| |exact I].
       unfold ULID_TIMES in Bg. lia. }
  assert (advances r r1) as A
    by (etransitivity; [apply advances_asked|]; etransitivity; [apply advances_asked|exact D]).
  destruct d; intros [= <- _]; [|done]. etransitivity; [exact A|apply advances_count].
Qed.

Lemma orphan_segments_advances ns r r' res :
  ns <= u64_MAX → orphan_segments_of c env r ns = (r', res) → advances r r'.
Proof.
  intros Bn. pose proof (go_grace _ _ ok) as Bg.
  unfold orphan_segments_of. cbv zeta. destruct (ge_list _ _ _) as [listed|] eqn:Li; cbn [map_err].
  2: { intros [= <- _]. apply advances_asked. }
  case_bool_decide; [intros [= <- _]; apply advances_asked|].
  destruct (ge_orphan_segments _ _ _ _ _ _) as [os|] eqn:Os; cbn [map_err].
  2: { intros [= <- _]. etransitivity; apply advances_asked. }
  apply (go_segments _ _ ok) in Os. destruct (gc_delete _ _ _) as [r1 d] eqn:D.
  apply (gc_delete_since (gn_time (asked r))) in D; [|cbn; lia|].
  2: { apply Forall_forall. intros p I. rewrite Os in I. apply unused_from. intros l' Pl Bl Sw.
       eapply (orphan_segment_unused objects (hist (gn_time (asked r)) ++ l') Pl Bl _ l' eq_refl);
         [exact Bn|exact Sw|unfold WAL_COMMIT_WINDOW_MS in Bg; lia| |exact I].
       exact (go_list _ _ ok _ _ _ Li). }
  assert (advances r r1) as A
    by (etransitivity; [apply advances_asked|]; etransitivity; [apply advances_asked|exact D]).
  destruct d; intros [= <- _]; [|done]. etransitivity; [exact A|apply advances_count].
Qed.

Lemma orphan_roots_advances ns roots r r' res :
  Forall (λ root, ∀ rest rest', root.(rt_prefix) +:+ rest ≠ "streams/" +:+ rest') roots →
  orphan_roots c env r ns roots = (r', res) → advances r r'.
Proof.
  intros F. revert r. induction F as [|root roots Ap F IH]; intros r; cbn; [by intros [= <- _]|].
  destruct (ge_clock_ms _ _) as [now|]; cbn; [|intros [= <- _]; apply advances_asked].
  assert (advances r (asked (asked r))) as A by (etransitivity; apply advances_asked).
  destruct (rt_reachable _ _ _ _) as [keep|]; cbn; [|intros E; etransitivity; [exact A|by apply IH]].
  destruct (ge_list _ _ _) as [listed|] eqn:Li; cbn.
  2: { intros [= <- _]. etransitivity; [exact A|apply advances_asked]. }
  destruct (gc_delete _ _ _) as [r1 d] eqn:D.
  apply (gc_delete_since 0) in D; [|lia|].
  2: { apply Forall_forall. intros p I. unfold root_orphans in I. apply elem_take in I.
       apply list_elem_of_fmap in I as (info & -> & I). apply list_elem_of_filter in I as [_ I].
       pose proof (go_list _ _ ok _ _ _ Li) as Fl. rewrite Forall_forall in Fl. specialize (Fl _ I).
       apply unused_from. intros l' Pl Bl _ U.
       rewrite (log_path_apart ns (rt_prefix root)) in Fl; [done|done|].
       eapply used_named; [by eapply produced_named|exact Bl|exact U]. }
  assert (advances r r1) as A1
    by (etransitivity; [exact A|]; etransitivity; [apply advances_asked|exact D]).
  destruct d; [|by intros [= <- _]]. intros E. etransitivity; [exact A1|].
  etransitivity; [apply advances_count|by eapply IH].
Qed.

Lemma orphan_namespaces_advances nss r r' res :
  Forall (λ ns, ns <= u64_MAX) nss → orphan_namespaces c env r nss = (r', res) → advances r r'.
Proof.
  intros F. revert r. induction F as [|ns nss Bn F IH]; intros r; cbn; [by intros [= <- _]|].
  destruct (is_cancelled _) as [[] x]; [intros [= <- _]; apply advances_cancel|].
  destruct (orphan_segments_of _ _ _ _) as [r1 d1] eqn:D1. apply orphan_segments_advances in D1; [|done].
  assert (advances r r1) as A1 by (etransitivity; [apply advances_cancel|exact D1]).
  destruct d1; cbn; [|by intros [= <- _]].
  destruct (orphan_roots _ _ _ _ _) as [r2 d2] eqn:D2. apply orphan_roots_advances in D2; [|apply ok].
  assert (advances r r2) as A2 by (by etransitivity).
  destruct d2; cbn; [|by intros [= <- _]]. intros E. etransitivity; [exact A2|by apply IH].
Qed.

Lemma gc_passes_advances r r' res : gc_passes c env r = (r', res) → advances r r'.
Proof.
  unfold gc_passes. destruct (retired_pass _ _ _) as [r1 d1] eqn:D1. apply retired_pass_advances in D1.
  destruct d1; cbn; [|by intros [= <- _]].
  destruct (is_cancelled _) as [[] x]; [intros [= <- _]; etransitivity; [exact D1|apply advances_cancel]|].
  destruct (orphan_wal_pass _ _ _) as [r2 d2] eqn:D2. apply orphan_wal_pass_advances in D2.
  assert (advances r r2) as A2
    by (etransitivity; [exact D1|]; etransitivity; [apply advances_cancel|exact D2]).
  destruct d2; cbn; [|by intros [= <- _]].
  destruct (is_cancelled _) as [[] y]; [intros [= <- _]; etransitivity; [exact A2|apply advances_cancel]|].
  unfold orphan_namespaced_pass. destruct (ge_namespaces _ _) as [nss|] eqn:Ns; cbn; intros E.
  - apply orphan_namespaces_advances in E; [|apply Forall_fmap; exact (go_namespaces _ _ ok _ _ Ns)].
    etransitivity; [exact A2|]. etransitivity; [apply advances_cancel|].
    etransitivity; [apply advances_asked|exact E].
  - injection E as <- _. etransitivity; [exact A2|]. etransitivity; [apply advances_cancel|apply advances_asked].
Qed.

(** What a run deletes is named by no index entry from then on. *)
Lemma gc_run_safe cancel totals totals' deleted res td p :
  gc_run c env cancel totals = (totals', deleted, res) → (td, p) ∈ deleted → unused td p.
Proof.
  unfold gc_run. destruct (gc_passes _ _ _) as [r x] eqn:G. intros [= <- <- <-] I.
  apply gc_passes_advances in G as [_ G]. specialize (G ltac:(constructor)).
  unfold gc_ok in G. rewrite Forall_forall in G. exact (G _ I).
Qed.
End run.
End gc_run.
