(* ===== verification/LogDemo.v ===== *)
(** * A concrete log plane

    Concrete functions for the crates the log plane uses, with the laws it relies on: a sum as
    checksum, numbers as an index format, ULIDs in unary, a cache that reads what was written.
    And a small run: a writer appends two records to a stream, flushes and commits them. *)

From Stdlib Require Import NArith ZArith Lia Ascii.
From stdpp Require Import prelude gmap strings numbers list.
From S2P Require Import Prelude.
From S2P Require Import BTree.
From S2P Require Import ByteCodec.
From S2P Require Import Ids.
From S2P Require Import MetaTypes.
From S2P Require Import Paths.
From S2P Require Import MetaState.
From S2P Require Import MetaApply.
From S2P Require Import MetaSnapshot.
From S2P Require Import MetaLogInv.
From S2P Require Import LogBatch.
From S2P Require Import LogBatchInv.
From S2P Require Import LogWal.
From S2P Require Import LogSegment.
From S2P Require Import LogReader.
From S2P Require Import LogReaderInv.
From S2P Require Import LogWriter.
From S2P Require Import LogWriterInv.
From S2P Require Import LogSegmenter.
From S2P Require Import PartitionInv.
From S2P Require Import MetaSteps.
From S2P Require Import MetaObjects.
From S2P Require Import LogOrigin.
From S2P Require Import MetaCatalog.
From S2P Require Import LogSystem.
From S2P Require Import LogGc.
From S2P Require Import LogGcInv.

Open Scope N_scope.

Module LogDemo.

(** ** A checksum *)

#[export] Instance demo_crc : Crc32c := {|
  crc32c := DemoCodec.sum;
  crc32c_append c bs := (c + foldr N.add 0 bs) mod 4294967296;
|}.

Lemma sum_app bs bs' : foldr N.add 0 (bs ++ bs') = foldr N.add 0 bs + foldr N.add 0 bs'.
Proof. induction bs as [|b bs IH]; cbn; [done|]. rewrite IH. lia. Qed.

#[export] Instance demo_crc_ok : Crc32cOk.
Proof.
  split; cbn.
  - apply DemoCodec.sum_u32.
  - intros bs bs'. unfold DemoCodec.sum. by rewrite N.Div0.add_mod_idemp_l, sum_app.
  - apply DemoCodec.sum_burst.
Qed.

(** ** An index format: every field is a number *)

Section list_codec.
Context {A : Type} (put : A → list N) (get : list N → option (A * list N)).
Hypothesis get_put : ∀ x rest, get (put x ++ rest) = Some (x, rest).

Fixpoint get_list (n : nat) (bs : list N) : option (list A * list N) :=
  match n with
  | O => Some ([], bs)
  | S n => '(x, bs) ← get bs; '(xs, bs) ← get_list n bs; Some (x :: xs, bs)
  end.

Definition list_codec : Codec (list A) := {|
  to_io xs := Some (N.of_nat (length xs) :: concat (put <$> xs));
  take_from_bytes bs := match bs with n :: bs => get_list (N.to_nat n) bs | [] => None end;
|}.

Lemma list_codec_ok : @CodecOk (list A) list_codec id.
Proof.
  intros xs bs rest. cbn. intros [= <-]. cbn. rewrite Nat2N.id.
  induction xs as [|x xs IH]; cbn; [done|]. rewrite <- app_assoc, get_put. cbn. by rewrite IH.
Qed.
End list_codec.

Definition put_z (z : Z) : list N := [if (z <? 0)%Z then 1 else 0; Z.to_N (Z.abs z)].
Definition get_z (s a : N) : Z := if s =? 1 then (- Z.of_N a)%Z else Z.of_N a.

Lemma get_put_z z : get_z (if (z <? 0)%Z then 1 else 0) (Z.to_N (Z.abs z)) = z.
Proof. unfold get_z. destruct (Z.ltb_spec z 0); cbn; lia. Qed.

Definition put_meta (m : ChunkMeta) : list N :=
  [m.(cm_stream); m.(cm_partition); encoding_byte m.(cm_encoding); m.(cm_records)]
  ++ put_z m.(cm_max_timestamp_ms) ++ [m.(cm_offset); m.(cm_len); m.(cm_crc32c)].

Definition get_meta (bs : list N) : option (ChunkMeta * list N) :=
  match bs with
  | st :: p :: e :: r :: s :: a :: o :: l :: c :: bs =>
      Some ({| cm_stream := st; cm_partition := p; cm_encoding := if e =? 0 then Kafka else Arrow;
               cm_records := r; cm_max_timestamp_ms := get_z s a; cm_offset := o; cm_len := l;
               cm_crc32c := c |}, bs)
  | _ => None
  end.

#[export] Instance meta_codec : Codec (list ChunkMeta) := list_codec put_meta get_meta.
#[export] Instance meta_codec_ok : CodecOk (list ChunkMeta) id.
Proof.
  apply list_codec_ok. intros [st p e r t o l c] rest. cbn. rewrite get_put_z. by destruct e.
Qed.

Definition put_batch (b : BatchIndexEntry) : list N :=
  [b.(bi_base_offset); b.(bi_position)] ++ put_z b.(bi_max_timestamp_ms).

Definition get_batch (bs : list N) : option (BatchIndexEntry * list N) :=
  match bs with
  | o :: p :: s :: a :: bs =>
      Some ({| bi_base_offset := o; bi_position := p; bi_max_timestamp_ms := get_z s a |}, bs)
  | _ => None
  end.

#[export] Instance batch_codec : Codec (list BatchIndexEntry) := list_codec put_batch get_batch.
#[export] Instance batch_codec_ok : CodecOk (list BatchIndexEntry) id.
Proof. apply list_codec_ok. intros [o p t] rest. cbn. by rewrite get_put_z. Qed.

(** ** ULIDs in unary *)

Fixpoint unary (u : list N) : list ascii :=
  match u with
  | [] => []
  | n :: u => replicate (N.to_nat n) "0"%char ++ "1"%char :: unary u
  end.

Fixpoint from_unary (s : list ascii) (n : N) : list N :=
  match s with
  | [] => []
  | c :: s => if bool_decide (c = "0"%char) then from_unary s (n + 1) else n :: from_unary s 0
  end.

Lemma from_to_unary u : from_unary (unary u) 0 = u.
Proof.
  induction u as [|n u IH]; cbn; [done|].
  assert (∀ k m, from_unary (replicate k "0"%char ++ "1"%char :: unary u) m = (m + N.of_nat k) :: u) as K.
  { induction k as [|k IHk]; intros m; cbn; [rewrite IH; f_equal; lia|]. rewrite IHk. f_equal. lia. }
  rewrite K. f_equal. lia.
Qed.

#[export] Instance demo_ulids : Ulids := {|
  ulid_from_parts t r := t :: r :: replicate 14 0;
  ulid_timestamp_ms u := (default 0 (head u)) mod ULID_TIMES;
  ulid_string u := String.string_of_list_ascii (unary u);
|}.

#[export] Instance demo_ulid_parse : UlidParse := {|
  ulid_from_string s := let u := from_unary (String.list_ascii_of_string s) 0 in
                        if (length u =? 16)%nat then Some u else None;
|}.

#[export] Instance demo_ulids_ok : UlidsOk.
Proof.
  split.
  - intros u L. cbn. rewrite String.list_ascii_of_string_of_list_ascii, from_to_unary, L. done.
  - intros u. unfold plain. cbn. rewrite String.list_ascii_of_string_of_list_ascii.
    assert (∀ c, c ∈ unary u → c = "0"%char ∨ c = "1"%char) as K.
    { induction u as [|n u IH]; cbn; intros c I; [by apply elem_of_nil in I|].
      apply elem_of_app in I as [[-> _]%elem_of_replicate|I]; [by left|].
      apply elem_of_cons in I as [->|I]; [by right|by apply IH]. }
    split_and!; intros I; apply K in I as [?|?]; done.
  - intros t r L. cbn. split; [done|]. by apply N.mod_small.
  - intros u _. cbn. apply N.mod_lt. done.
Qed.

(** ** A cache over what was written *)

Definition read_object (objects : gmap string Bytes) (p : string) (r : Range) : Result Bytes CacheError.t :=
  match objects !! p with
  | Some obj => Ok (slice obj r.(range_start) (r.(range_end) - r.(range_start)))
  | None => Err (CacheError.Store StoreError.NotFound)
  end.

Definition object_cache (objects : gmap string Bytes) : ObjectCache := {|
  cache_read := read_object objects;
  cache_size p := match objects !! p with
                  | Some obj => Ok (len obj)
                  | None => Err (CacheError.Store StoreError.NotFound)
                  end;
|}.

Lemma object_cache_ok objects : @ObjectCacheOk (object_cache objects) objects.
Proof.
  split; cbn; [|intros p n]; [intros p r bs; unfold read_object|]; destruct (objects !! p); intros [= <-];
    by eexists.
Qed.

(** It serves everything that was written. *)
Lemma object_cache_live objects present : @cache_live (object_cache objects) objects present.
Proof.
  intros p _ [obj E]. split; [exists (len obj); cbn; by rewrite E|].
  intros obj' r E' _ _. eexists. cbn. unfold read_object. by rewrite E'.
Qed.

(** ** An append, its flush and its segment *)

Definition record_of (n : N) : LogRecord :=
  {| rec_key := None; rec_value := Some [n]; rec_headers := []; rec_timestamp_ms := 3 |}.
Definition records : list LogRecord := [record_of 7; record_of 8].

Definition config : LogConfig := LogConfig_new 5.
Definition batch : Bytes := Eval vm_compute in match encode records with Ok b => b | Err _ => [] end.
Definition pending : Pending :=
  {| pd_stream := 1; pd_partition := 0; pd_batch := batch; pd_records := 2; pd_max_timestamp_ms := 3;
     pd_reply := 0 |}.
Definition appends : list (Pending * list LogRecord) := [(pending, records)].

Definition ulid : Bytes := Eval vm_compute in ulid_from_parts 4 1.
Definition written : string * Bytes * list ChunkMeta :=
  Eval vm_compute in default (EmptyString, [], []) (wal_written config ulid appends.*1).
Definition path : string := Eval vm_compute in written.1.1.
Definition wal : Bytes := Eval vm_compute in written.1.2.
Definition metas : list ChunkMeta := Eval vm_compute in written.2.

Definition commit_command : Command := Eval vm_compute in wal_commit_command config ulid path metas.

(** The run up to the commit. *)
Definition before : list Command := [CreateNamespace "n"; CreateStream 1 "s" 1 Standard Retention_default].
Definition committed : list Command := before ++ [commit_command].

Definition entry : IndexEntry := Eval vm_compute in
  match commit_command with
  | CommitWal p _ (c :: _) => PartitionInv.wal_entry 0 p c
  | _ => segment_entry 0 0 EmptyString {| range_start := 0; range_end := 0 |} 0
  end.

Definition segmenter : SegmenterConfig :=
  {| sc_min_bytes := 1; sc_target_bytes := 100; sc_max_wal_age := 0; sc_lease_ttl := from_secs 30; sc_swap_deadline := from_secs 60 |}.
Definition task : SegmentTask := {| sg_namespace := 1; sg_stream := 1; sg_partition := 0 |}.
Definition built_segment : SegmentBuilder * Z := Eval vm_compute in
  match @build_segment _ (object_cache {[path := wal]}) task [entry] with
  | Ok x => x
  | Err _ => (segment_new 0 0 0 Kafka, 0%Z)
  end.

Definition segment_of : string * Bytes * SegmentFooter := Eval vm_compute in
  match segment_written task 0 6 2 built_segment.1 with
  | Some x => x
  | None => (EmptyString, [], {| sf_stream := 0; sf_partition := 0; sf_encoding := Kafka; sf_base_offset := 0;
                                 sf_end_offset := 0; sf_data := {| range_start := 0; range_end := 0 |};
                                 sf_batches := [] |})
  end.
Definition segment_path : string := Eval vm_compute in segment_of.1.1.
Definition segment_bytes : Bytes := Eval vm_compute in segment_of.1.2.
Definition footer : SegmentFooter := Eval vm_compute in segment_of.2.

Definition fence : Fence := {| fence_lease := "l"; fence_epoch := 1 |}.
Definition swap_command : Command := Eval vm_compute in
  segment_swap segmenter task [entry] segment_path footer built_segment.2 6 fence 9.

(** The segmenter takes its lease and swaps the segment in; later the clock moves on. *)
Definition swapped : list Command :=
  committed ++ [AcquireLease "l" "me" 1000 7; swap_command].
Definition log : list Command := swapped ++ [AcquireLease "l" "me" 1000 9000000].

Definition objects : gmap string Bytes := {[path := wal; segment_path := segment_bytes]}.
#[export] Instance cache : ObjectCache := object_cache objects.
#[export] Instance cache_ok : ObjectCacheOk objects := object_cache_ok objects.

Lemma objects_wal : objects !! path = Some wal.
Proof. by vm_compute. Qed.
Lemma objects_segment : objects !! segment_path = Some segment_bytes.
Proof. by vm_compute. Qed.

Lemma records_ok : Forall record_ok records.
Proof. repeat constructor; by vm_compute. Qed.

Lemma flush_demo : flush_of objects path config ulid appends wal metas.
Proof.
  split.
  - constructor; [|constructor]. split; [|done]. split; [|exact records_ok]. cbn.
    apply encode_holds. by vm_compute.
  - done.
  - by vm_compute.
  - by vm_compute.
  - exact objects_wal.
  - by vm_compute.
  - intros k. unfold appends. rewrite appended_one. case_decide; by vm_compute.
  - intros index [= <-]. by vm_compute.
Qed.

Lemma attempt_demo :
  attempt_of objects committed swap_command task entry [] built_segment.1 segment_path segment_bytes footer.
Proof.
  split.
  - eexists segmenter, 0%Z, _. split; by vm_compute.
  - exists segmenter, built_segment.2, 6, 2, fence, 9. split_and!; by vm_compute.
  - exact objects_segment.
  - by vm_compute.
  - intros index [= <-]. by vm_compute.
  - by vm_compute.
  - by vm_compute.
  - eexists committed, [], _. split_and!; by vm_compute.
Qed.

Lemma produced_demo : produced objects log.
Proof.
  intros l1 cmd l2 E. change log with (committed ++ [AcquireLease "l" "me" 1000 7; swap_command;
    AcquireLease "l" "me" 1000 9000000]) in E. unfold committed, before in E.
  destruct l1 as [|c1 l1]; [by injection E as <- _|].
  destruct l1 as [|c2 l1]; [by injection E as _ <- _|].
  destruct l1 as [|c3 l1].
  { injection E as _ _ <- _. exists config, ulid, appends, wal, metas.
    split; [exact flush_demo|]. split; by vm_compute. }
  destruct l1 as [|c4 l1]; [by injection E as _ _ _ <- _|].
  destruct l1 as [|c5 l1].
  { injection E as <- <- <- <- <- _.
    exists committed, [AcquireLease "l" "me" 1000 7], task, entry, [], built_segment.1, segment_path,
      segment_bytes, footer. split; [done|exact attempt_demo]. }
  destruct l1 as [|c6 l1]; [by injection E as _ _ _ _ _ <- _|]. destruct l1; done.
Qed.
End LogDemo.
