(* ===== verification/LogProperties.v ===== *)
(** * What the log plane guarantees

    The theorems about loams-log, from the bytes of a batch to a fetch of an acknowledged record
    and to garbage collection, with the concrete run of [LogDemo] on which their hypotheses hold. *)

From Stdlib Require Import NArith ZArith Lia.
From stdpp Require Import prelude gmap strings numbers list relations.
From S2P Require Import Prelude.
From S2P Require Import BTree.
From S2P Require Import ByteCodec.
From S2P Require Import Ids.
From S2P Require Import MetaTypes.
From S2P Require Import Paths.
From S2P Require Import MetaState.
From S2P Require Import MetaLog.
From S2P Require Import MetaApply.
From S2P Require Import PartitionInv.
From S2P Require Import MetaLogInv.
From S2P Require Import MetaEnv.
From S2P Require Import MetaSteps.
From S2P Require Import LogRefinement.
From S2P Require Import MetaRetired.
From S2P Require Import MetaCatalog.
From S2P Require Import LogBatch.
From S2P Require Import LogBatchInv.
From S2P Require Import LogWal.
From S2P Require Import LogWalInv.
From S2P Require Import LogSegment.
From S2P Require Import LogSegmentInv.
From S2P Require Import LogReader.
From S2P Require Import LogReaderInv.
From S2P Require Import LogWriter.
From S2P Require Import LogWriterInv.
From S2P Require Import LogWriterSteps.
From S2P Require Import LogSegmenter.
From S2P Require Import LogSegmenterInv.
From S2P Require Import MetaReads.
From S2P Require Import LogOrigin.
From S2P Require Import LogSystem.
From S2P Require Import LogFetch.
From S2P Require Import LogDurable.
From S2P Require Import LogRetention.
From S2P Require Import LogGc.
From S2P Require Import LogGcInv.
From S2P Require Import LogDemo.

Open Scope N_scope.

(** ** The log as a whole *)

Section system.
Context `{Crc32cOk} (objects : gmap string Bytes).
Context `{Codec (list BatchIndexEntry)} `{!CodecOk (list BatchIndexEntry) id}.
Context `{Codec (list ChunkMeta)} `{!CodecOk (list ChunkMeta) id}.
Context `{Ulids} `{ObjectCache} `{!ObjectCacheOk objects}.
Context (log : list Command) (P : produced objects log) (B : log_weight log <= u64_MAX).

(** C1 An acknowledged append is durable and readable: once the commit of a flush was answered and
    the writer acknowledged an append with its offsets, a fetch of any of these offsets that is
    not yet trimmed answers, from every later state of the metastore, and its first record is the
    record that was appended there.  That holds after segments replaced the WAL objects, after
    trims, and whatever the reader has cached; the object cache serves the objects of the
    partition's index. *)
Theorem acked_append_is_fetched l1 l2 l3 path t chunks bases c u la obj metas acks i a ack ps
    rs request more wakes timed_out :
  log = (l1 ++ CommitWal path t chunks :: l2) ++ l3 →
  (apply (run MetaState_default l1) (CommitWal path t chunks)).2 = Ok (WalCommitted bases) →
  flush_of objects path c u la obj metas → acks_of metas bases la.*1 = Ok acks →
  la !! i = Some a → acks !! i = Some ack →
  (fr_stream request, fr_partition request) = pd_key a.1 →
  ack.(ak_base_offset) <= fr_offset request <= ack.(ak_last_offset) →
  let s := run MetaState_default (l1 ++ CommitWal path t chunks :: l2) in
  s.(partitions) !! pd_key a.1 = Some ps → ps.(log_start_offset) <= fr_offset request →
  reader_ok objects (met objects log) rs → cache_live objects (in_index ps) →
  ∃ rs' resp r rest,
    fetch rs request (s :: more) wakes timed_out = Some (rs', Ok resp)
    ∧ a.2 !! N.to_nat (fr_offset request - ack.(ak_base_offset)) = Some r
    ∧ resp.(fs_records) = {| or_offset := fr_offset request; or_record := r |} :: rest.
Proof.
  intros El Ap Fl Ak Ia Iack Ek Ho s M St Ro Cl.
  destruct (acked_record objects log P B l1 l2 l3 path t chunks bases c u la obj metas acks i a ack ps
    (fr_offset request) El Ap Fl Ak Ia Iack M Ho St) as [Er Lt].
  destruct (fetch_answers objects log P B (l1 ++ CommitWal path t chunks :: l2) l3 rs request ps more
    wakes timed_out El) as (rs' & resp & al & F & _ & An); [by rewrite Ek|done|done|done|].
  assert (partition_ok u64_MAX ps) as Po.
  { pose proof (produced_named objects log P) as wn. pose proof B as B'. rewrite El in wn, B'.
    rewrite log_weight_app in B'. apply well_named_app in wn.
    destruct (run_meta_ok _ wn) as [Pp _ _]; [lia|]. by eapply Pp. }
  destruct (answers_head objects log B s request resp al ps Po) as (r & rest & E & Ers);
    [by rewrite Ek|done|done|].
  exists rs', resp, r, rest. split_and!; [done| |done]. by rewrite <- Er.
Qed.

(** C15 A fetch answers only with the log: whatever it returns are the records of the partition from
    the requested offset on, gap-free and at least one where there is one, as of a state the fetch
    planned with; the watermark and the log start are of that state.  It fails only when the
    partition is unknown, the offset is out of range, or the object cache fails. *)
Theorem fetch_answers_with_the_log states rs request wakes timed_out rs' r :
  Forall (λ s, ∃ l l', log = l ++ l' ∧ s = run MetaState_default l) states →
  reader_ok objects (met objects log) rs →
  fetch rs request states wakes timed_out = Some (rs', r) →
  reader_ok objects (met objects log) rs' ∧ fetch_outcome objects states request r.
Proof. exact (fetch_loop_spec objects log P B states rs request wakes timed_out false rs' r). Qed.

(** C6 What writers and segmenters do keeps every partition an append-only log of the records they
    wrote: as bytes in the objects, the records readable at a later state extend those readable
    before, offset by offset, and the log start only moves forward. *)
Theorem written_records_stay l1 l2 k ps ps' :
  log = l1 ++ l2 →
  (run MetaState_default l1).(partitions) !! k = Some ps →
  (run MetaState_default log).(partitions) !! k = Some ps' →
  ps.(log_start_offset) <= ps'.(log_start_offset) ∧ ps.(next_offset) <= ps'.(next_offset)
  ∧ ∀ o, ps'.(log_start_offset) <= o < ps.(next_offset) →
      record_at (content objects) ps' o = record_at (content objects) ps o
      ∧ is_Some (record_at (content objects) ps o).
Proof.
  intros E M M'. pose proof (run_faithful objects log P B) as F.
  pose proof (produced_named objects log P) as wn. pose proof B as B'. rewrite E in wn, F, B', M'.
  by eapply (append_only (content objects) l1 l2).
Qed.

(** C16 A segment that is swapped in holds the records of the WAL entries it replaces, at their
    offsets: its index entry covers a segment object whose batches decode to exactly these
    records. *)
Theorem segment_holds_what_it_replaces l1 l2 st p first obj rest seg range ts fence now fresh ps recs :
  log = l1 ++ SwapSegment st p ((first, obj) :: rest) seg range ts fence now fresh :: l2 →
  (run MetaState_default l1).(partitions) !! (st, p) = Some ps →
  check_replaces ps (IndexMismatch st p) ((first, obj) :: rest) first 0 = Ok recs →
  ∃ b its, seg_stored objects st p (segment_entry first recs seg range ts) b its
    ∧ items_records its = replaced_content (content objects) ps (first :: rest.*1).
Proof. exact (swap_stored objects log P B l1 l2 st p first obj rest seg range ts fence now fresh ps recs). Qed.
End system.

(** ** The concrete run *)

#[local] Existing Instances LogDemo.demo_crc LogDemo.demo_crc_ok LogDemo.meta_codec
  LogDemo.meta_codec_ok LogDemo.batch_codec LogDemo.batch_codec_ok LogDemo.demo_ulids
  LogDemo.demo_ulid_parse LogDemo.demo_ulids_ok LogDemo.cache LogDemo.cache_ok.

Lemma demo_small : log_weight LogDemo.log <= u64_MAX.
Proof. by vm_compute. Qed.

Lemma demo_reader : reader_ok LogDemo.objects (met LogDemo.objects LogDemo.log)
  {| rs_footers := ∅; rs_chunk_batches := ∅ |}.
Proof. split; cbn; intros *; by rewrite lookup_empty. Qed.

Definition demo_request (o : N) : FetchRequest :=
  {| fr_stream := 1; fr_partition := 0; fr_offset := o; fr_max_bytes := 1000 |}.

(** The cache of the run serves everything that was written. *)
Lemma demo_live present : cache_live LogDemo.objects present.
Proof. apply LogDemo.object_cache_live. Qed.

Definition demo_partition (l : list Command) : PartitionState :=
  default PartitionState_default ((run MetaState_default l).(partitions) !! (1, 0)).

Definition demo_ack : AppendAck :=
  {| ak_stream := 1; ak_partition := 0; ak_base_offset := 0; ak_last_offset := 1 |}.

(** The second record, read after the swap of the segment. *)
Lemma acked_append_is_fetched_witness :
  ∃ rs' resp rest,
    fetch {| rs_footers := ∅; rs_chunk_batches := ∅ |} (demo_request 1)
      [run MetaState_default LogDemo.swapped] [] false = Some (rs', Ok resp)
    ∧ resp.(fs_records) = {| or_offset := 1; or_record := LogDemo.record_of 8 |} :: rest.
Proof.
  destruct (acked_append_is_fetched LogDemo.objects LogDemo.log LogDemo.produced_demo demo_small
    LogDemo.before [AcquireLease "l" "me" 1000 7; LogDemo.swap_command]
    [AcquireLease "l" "me" 1000 9000000] LogDemo.path 4 (chunk_of <$> LogDemo.metas) [0]
    LogDemo.config LogDemo.ulid LogDemo.appends LogDemo.wal LogDemo.metas [demo_ack] 0
    (LogDemo.pending, LogDemo.records) demo_ack (demo_partition LogDemo.swapped) {| rs_footers := ∅; rs_chunk_batches := ∅ |}
    (demo_request 1) [] [] false)
    as (rs' & resp & r & rest & F & R & Rs);
    [by vm_compute|by vm_compute|exact LogDemo.flush_demo|by vm_compute|done|done|done|by vm_compute
    |by vm_compute|by vm_compute|exact demo_reader|apply demo_live|].
  exists rs', resp, rest. split; [exact F|]. injection R as <-. exact Rs.
Defined.

(** A fetch from the WAL object, before the swap. *)
Definition demo_response : FetchResponse :=
  {| fs_records := at_offsets 0 LogDemo.records; fs_next_offset := 2; fs_high_watermark := 2;
     fs_log_start_offset := 0 |}.

Lemma demo_fetch : ∃ rs',
  fetch {| rs_footers := ∅; rs_chunk_batches := ∅ |} (demo_request 0)
    [run MetaState_default LogDemo.committed] [] false = Some (rs', Ok demo_response).
Proof.
  assert (match fetch {| rs_footers := ∅; rs_chunk_batches := ∅ |} (demo_request 0)
                  [run MetaState_default LogDemo.committed] [] false with
          | Some (_, Ok resp) => Some resp
          | _ => None
          end = Some demo_response) as K by (by vm_compute).
  destruct (fetch _ _ _ _ _) as [[rs [resp|]]|]; try done. injection K as ->. by exists rs.
Qed.

Lemma fetch_answers_with_the_log_witness :
  fetch_outcome LogDemo.objects [run MetaState_default LogDemo.committed] (demo_request 0)
    (Ok demo_response).
Proof.
  destruct demo_fetch as [rs' E].
  apply (fetch_answers_with_the_log LogDemo.objects LogDemo.log LogDemo.produced_demo demo_small
    [run MetaState_default LogDemo.committed] {| rs_footers := ∅; rs_chunk_batches := ∅ |}
    (demo_request 0) [] false rs' (Ok demo_response)); [|exact demo_reader|exact E].
  constructor; [|constructor]. eexists LogDemo.committed, _. split; [|done].
  unfold LogDemo.log, LogDemo.swapped. by rewrite <- app_assoc.
Defined.

Lemma written_records_stay_witness :
  record_at (content LogDemo.objects) (demo_partition LogDemo.log) 1
  = record_at (content LogDemo.objects) (demo_partition LogDemo.committed) 1.
Proof.
  apply (written_records_stay LogDemo.objects LogDemo.log LogDemo.produced_demo demo_small
    LogDemo.committed [AcquireLease "l" "me" 1000 7; LogDemo.swap_command;
                       AcquireLease "l" "me" 1000 9000000] (1, 0)); by vm_compute.
Defined.

Lemma segment_holds_what_it_replaces_witness :
  ∃ e b its, seg_stored LogDemo.objects 1 0 e b its
    ∧ items_records its = replaced_content (content LogDemo.objects) (demo_partition LogDemo.committed) [0].
Proof.
  eexists. eapply (segment_holds_what_it_replaces LogDemo.objects LogDemo.log LogDemo.produced_demo
    demo_small (LogDemo.committed ++ [AcquireLease "l" "me" 1000 7]) [AcquireLease "l" "me" 1000 9000000]
    1 0 0 LogDemo.path []); by vm_compute.
Defined.

(** ** Batches, WAL objects and segments *)

Section formats.
Context `{Crc32cOk}.

(** C36 Record batches read back: what [encode] makes of records decodes to the same records, at
    consecutive offsets from any base. *)
Theorem batch_round_trip recs bs base :
  Forall record_ok recs → base + len recs <= u64_MAX → encode recs = Ok bs →
  decode bs base = Ok (at_offsets base recs).
Proof.
  intros F L E. rewrite (decode_holds_all bs [recs] base); cbn; rewrite ?app_nil_r; [done| |done].
  exists [bs]. cbn. rewrite app_nil_r. split; [done|]. split; [|by constructor].
  constructor; [by apply encode_holds|constructor].
Qed.

(** A batch with a byte changed after its header's checksum field is refused, never decoded to
    other records. *)
Theorem damaged_batch_refused recs bs base i b b' :
  Forall record_ok recs → encode recs = Ok bs → (ATTRIBUTES_OFFSET <= i)%nat → bs !! i = Some b →
  b < 256 → b' < 256 → b' ≠ b → ∃ why, decode (<[i := b']> bs) base = Err (Corrupt why).
Proof.
  intros F E Li Ib Lb Lb' Ne. apply encode_holds in E.
  destruct (parse_damaged bs recs i b b' E F Li Ib Lb Lb' Ne) as [why Pd]. exists why.
  unfold decode. rewrite batches_cons, Pd; [done|]. intros N. apply (f_equal length) in N.
  rewrite length_insert in N. destruct bs; [done|discriminate N].
Qed.

(** C37 A WAL object reads back: its header and its index are those of the builder, and each chunk
    of the index reads, checksum verified, as the payload pushed to its partition. *)
Theorem wal_object_round_trip `{Codec (list ChunkMeta)} `{!CodecOk (list ChunkMeta) id} b obj metas :
  wal_header_ok b.(wb_header) → map_Forall (λ _, chunk_ok) b.(wb_chunks) →
  wal_finish b = Some (obj, metas) → len obj <= u64_MAX →
  (∀ index, to_io metas = Some index → len index <= u32_MAX) →
  wal_parse obj = Ok (b.(wb_header), metas)
  ∧ Forall2 (λ kc m, (m.(cm_stream), m.(cm_partition)) = kc.1
                     ∧ m.(cm_records) = kc.2.(pc_records) ∧ read_chunk obj m = Ok kc.2.(pc_payload))
      (btree_iter b.(wb_chunks)) metas.
Proof.
  intros Hh Fc Fi Lo Li. split; [by apply (parse_finish b obj metas)|].
  eapply Forall2_impl; [exact (finish_placed b obj metas Hh Fi Lo)|].
  intros [[st p] ch] m Pl. split_and!; [|destruct Pl as [-> _ _]; done|by eapply placed_read].
  destruct Pl as [-> _ _]. done.
Qed.

(** C38 A segment reads back: the footer parsed from a finished segment is the builder's, every
    offset of the segment is found in its index, in the one batch that covers it. *)
Theorem segment_round_trip `{Codec (list BatchIndexEntry)} `{!CodecOk (list BatchIndexEntry) id}
    b its obj f offset :
  builder_ok b → built b its → segment_finish b = Some (obj, f) → len obj <= u64_MAX →
  (∀ index, to_io b.(sb_batches) = Some index → len index <= u32_MAX) →
  b.(sb_base_offset) <= offset < b.(sb_next_offset) →
  segment_parse obj = Ok f
  ∧ ∃ i e, batch_index_for f offset = Some i ∧ f.(sf_batches) !! i = Some e
      ∧ e.(bi_base_offset) <= offset < batch_end_offset f i
      ∧ ∀ j e', f.(sf_batches) !! j = Some e' →
          e'.(bi_base_offset) <= offset < batch_end_offset f j → j = i.
Proof.
  intros Bo Bt Fi Lo Li Ho. pose proof (segment_parse_finish b its obj f Bo Bt Fi Lo Li) as Sp.
  split; [done|]. destruct (segment_finish_shape b obj f Fi) as (_ & _ & _ & Ef & _).
  pose proof (built_check b its Bt) as Ck. rewrite <- Ef in Ck.
  destruct (batch_index_spec f offset Ck) as (i & e & Ei & Ib & Le); [by rewrite Ef|].
  exists i, e. split_and!; [done|done|apply Le|apply Le|]. intros j e' Ij Lj.
  eapply (batch_index_unique f offset j i); [done| |done|done|done|done]. rewrite Ef. cbn. lia.
Qed.
End formats.

Lemma batch_round_trip_witness : decode LogDemo.batch 5 = Ok (at_offsets 5 LogDemo.records).
Proof. apply (batch_round_trip LogDemo.records); [exact LogDemo.records_ok|by vm_compute|by vm_compute]. Defined.

(** The last byte but one is the value of the second record. *)
Lemma damaged_batch_refused_witness :
  ∃ why, decode (<[75%nat := 9]> LogDemo.batch) 5 = Err (Corrupt why).
Proof.
  apply (damaged_batch_refused LogDemo.records LogDemo.batch 5 75 8 9);
    [exact LogDemo.records_ok|by vm_compute|unfold ATTRIBUTES_OFFSET; lia|by vm_compute|done|done|done].
Defined.

Lemma wal_object_round_trip_witness :
  wal_parse LogDemo.wal = Ok ((wal_of LogDemo.config LogDemo.ulid LogDemo.appends.*1).(wb_header), LogDemo.metas).
Proof.
  apply (wal_object_round_trip (wal_of LogDemo.config LogDemo.ulid LogDemo.appends.*1));
    [split; by vm_compute|exact (flush_chunks _ _ _ _ _ _ _ LogDemo.flush_demo)|by vm_compute|by vm_compute|].
  exact (fl_index _ _ _ _ _ _ _ LogDemo.flush_demo).
Defined.

Definition demo_items : list Item :=
  [{| it_bytes := LogDemo.batch; it_records := LogDemo.records; it_timestamp := 3 |}].

Lemma segment_round_trip_witness : segment_parse LogDemo.segment_bytes = Ok LogDemo.footer.
Proof.
  apply (segment_round_trip LogDemo.built_segment.1 demo_items LogDemo.segment_bytes LogDemo.footer 1);
    [split; by vm_compute| |by vm_compute|by vm_compute
    |exact (at_index _ _ _ _ _ _ _ _ _ _ LogDemo.attempt_demo)|by vm_compute].
  destruct (push_built (segment_new 1 0 0 Kafka) [] LogDemo.batch LogDemo.records 3)
    as (b & E & Bt & _); [by apply built_new|by apply encode_holds; vm_compute|exact LogDemo.records_ok
    |by vm_compute|].
  assert (push_batch (segment_new 1 0 0 Kafka) LogDemo.batch (len LogDemo.records) 3
          = Ok LogDemo.built_segment.1) as E' by (by vm_compute).
  rewrite E' in E. injection E as E. subst b. exact Bt.
Defined.

(** ** Writers *)

Section writers.
Context `{Crc32cOk} `{Codec (list ChunkMeta)} `{Ulids}.

(** C17 A writer, whatever is appended, flushed, closed or answered and in whichever order, keeps its
    buffer within the limit, counts the bytes that are buffered and in flight exactly, and answers
    every accepted append exactly once: the channels of the appends are those answered, in flight
    or buffered.  A task that exited left nothing behind. *)
Theorem writer_stays_consistent c w :
  2 * c.(lc_max_buffered_bytes) <= u64_MAX → rtc (wstep c) Writer_start w → writer_ok c w.
Proof. intros L. by apply reachable_ok. Qed.

(** An accepted append buffers its batches in order: for each batch one pending append to its
    partition, whose bytes hold the batch's records with negative timestamps replaced by the
    writer's clock. *)
Theorem append_buffers_its_batches c s stream batches known now_ms now replies s' :
  Forall (λ b, Forall record_ok b.2) batches → length replies = length batches →
  append_many c s stream batches known now_ms now replies = (s', Ok ()) →
  ∃ ps, s'.(ws_pending) = s.(ws_pending) ++ ps ∧ pd_reply <$> ps = replies
    ∧ Forall2 (λ p b, pd_key p = (stream, b.1) ∧ append_ok (p, stamp (clock_i64 now_ms) <$> b.2)) ps batches.
Proof. apply append_many_buffers. Qed.

(** C18 A flush reports a definite failure only when nothing was committed: the object could not be
    written, or the first attempt to commit was refused by the metastore and no earlier attempt
    may have reached it.  After any attempt whose outcome is unknown the failure says so. *)
Theorem definite_failure_is_definite c pending now_ms random put attempts f :
  write_and_commit c pending now_ms random put attempts = Some (Err f) → definite f →
  (∃ e, put = Err e ∧ f = FailStore e) ∨ (put = Ok () ∧ ∃ a rest, attempts = a :: rest ∧ refused a).
Proof.
  unfold write_and_commit. destruct (wal_written _ _ _) as [[[path obj] metas]|]; [|done]. cbn.
  intros E D. destruct put as [[]|e]; [right; split; [done|]|left; exists e; by injection E as <-].
  destruct (commit attempts false) as [[bases|f']|] eqn:C; cbn in E; [|..|done].
  - injection E as E. unfold acks_of in E. destruct (negb _); [injection E as <-; by edestruct D|].
    apply ack_all_unknown in E as [w ->]. by edestruct D.
  - injection E as ->. by apply (commit_definite attempts f).
Qed.
End writers.

(** A writer that buffers one append, flushes it and is told the object could not be written. *)
Definition demo_stream : Stream :=
  {| stream_id := 1; stream_namespace := 1; stream_name := "s"; stream_partitions := 1;
     stream_class := Standard; stream_retention := Retention_default |}.

Definition demo_buffered : WriterState :=
  (append_many LogDemo.config WriterState_default 1 [(0, LogDemo.records)] (Ok (Some demo_stream)) 9 0 [0]).1.

Lemma append_buffers_its_batches_witness :
  ∃ ps, demo_buffered.(ws_pending) = ps
    ∧ Forall2 (λ p b, pd_key p = (1, b.1) ∧ append_ok (p, stamp 9 <$> b.2)) ps [(0, LogDemo.records)].
Proof.
  destruct (append_buffers_its_batches LogDemo.config WriterState_default 1 [(0, LogDemo.records)]
    (Ok (Some demo_stream)) 9 0 [0] demo_buffered) as (ps & E & _ & F);
    [constructor; [exact LogDemo.records_ok|constructor]|done|by vm_compute|].
  by exists ps.
Defined.

Definition demo_writer : Writer :=
  {| wr_state := demo_buffered; wr_job := None; wr_replied := []; wr_told := []; wr_channels := [0];
     wr_exited := false |}.

Lemma writer_stays_consistent_witness : writer_ok LogDemo.config demo_writer.
Proof.
  apply (writer_stays_consistent LogDemo.config demo_writer); [by vm_compute|]. apply rtc_once.
  apply (step_append LogDemo.config Writer_start 1 [(0, LogDemo.records)] (Ok (Some demo_stream)) 9 0 [0]).
  - apply NoDup_singleton.
  - intros x _. apply not_elem_of_nil.
  - done.
  - intros es E. assert (encode_batches (clock_i64 9) [(0, LogDemo.records)] = Ok es) as E' by exact E.
    vm_compute in E'. injection E' as <-. by vm_compute.
  - by vm_compute.
Defined.

Definition demo_refusal : Attempt :=
  {| am_tracked := {| tk_result := Err (MetaError.Rejected (StreamNotFound 1)); tk_earlier_unknown := false |};
     am_remaining := 5 |}.

Lemma definite_failure_is_definite_witness :
  (∃ e, Ok () = Err e ∧ FailRejected (StreamNotFound 1) = FailStore e)
  ∨ (Ok () = @Ok () StoreError.t () ∧ ∃ a rest, [demo_refusal] = a :: rest ∧ refused a).
Proof.
  apply (definite_failure_is_definite LogDemo.config [LogDemo.pending] 4 1 (Ok ()) [demo_refusal]);
    [by vm_compute|done].
Defined.

(** ** Retention *)

Section retention.
Context `{Crc32cOk} (objects : gmap string Bytes).
Context `{Codec (list BatchIndexEntry)} `{!CodecOk (list BatchIndexEntry) id}.
Context `{Codec (list ChunkMeta)} `{!CodecOk (list ChunkMeta) id}.
Context `{Ulids} `{ObjectCache} `{!ObjectCacheOk objects}.
Context (log : list Command) (P : produced objects log) (B : log_weight log <= u64_MAX).

End retention.


(** ** Garbage collection *)

Section gc.
Context `{Crc32cOk} (objects : gmap string Bytes).
Context `{Codec (list BatchIndexEntry)}.
Context `{Codec (list ChunkMeta)} `{!CodecOk (list ChunkMeta) id}.
Context `{UlidsOk} `{ObjectCache}.
Context (log : list Command) (P : produced objects log) (B : log_weight log <= u64_MAX).

(** C5 Garbage collection deletes nothing that is or comes into use: an object a run deletes is named
    by no index entry at the time of the delete or at any later time, while writers commit,
    segmenters swap and retention trims concurrently.  The run asks its questions at states of the
    metastore in order; swap deadlines are below the grace period. *)
Theorem gc_deletes_nothing_in_use hist c env cancel totals totals' deleted res td p :
  (∀ t t', (t ≤ t')%nat → ∃ d, hist t' = hist t ++ d) → (∀ t, ∃ d, log = hist t ++ d) →
  gc_env_ok log hist c env →
  gc_run c env cancel totals = (totals', deleted, res) → (td, p) ∈ deleted →
  ∀ t, (td ≤ t)%nat → ¬ in_use p (run MetaState_default (hist t)).
Proof.
  intros Hg Hl Ok G I. exact (gc_run_safe objects log P B hist Hg Hl c env Ok cancel totals totals'
    deleted res td p G I).
Qed.
End gc.

(** The store has the WAL object, the segment and a WAL object whose commit never came. *)
Definition demo_orphan : string :=
  Eval vm_compute in wal_object Standard 5 (ulid_string (ulid_from_parts 2 1)).
Definition demo_listing : list ObjectInfo :=
  (λ p, {| oi_path := p; oi_last_modified_ms := 0 |}) <$> [LogDemo.path; demo_orphan; LogDemo.segment_path].

Definition gc_env_at (s : MetaState) : GcEnv := {|
  ge_fence := {| fence_lease := "task/gc"; fence_epoch := 1 |};
  ge_retired_expired _ g := Ok (retired_expired s g);
  ge_list _ prefix := Ok (filter (λ info, starts_with prefix info.(oi_path) = true) demo_listing);
  ge_lease _ _ := Ok (Some {| epoch := 1; owner := Some "me"; deadline_ms := 9 |});
  ge_delete _ _ := Ok ();
  ge_forget _ paths _ := Ok (count_of paths);
  ge_orphan_wal _ cs a n := Ok (orphan_wal_objects s cs a n);
  ge_namespaces _ := Ok [{| namespace_id := 1; namespace_name := "n" |}];
  ge_orphan_segments _ ns cs a n := Ok (orphan_segments s ns cs a n);
  ge_clock_ms _ := Ok s.(clock_ms);
  ge_roots := [];
|}.

Lemma gc_env_at_ok log :
  swaps_expire log (millis GcConfig_default.(gc_grace)) →
  gc_env_ok log (λ _, log) GcConfig_default (gc_env_at (run MetaState_default log)).
Proof.
  intros Sw. split.
  - by intros t g due <-%Ok_inj.
  - by intros t cs a n os <-%Ok_inj.
  - by intros t ns cs a n os <-%Ok_inj.
  - intros t nss <-%Ok_inj. repeat constructor. by vm_compute.
  - intros t prefix infos <-%Ok_inj. apply Forall_forall. intros info I.
    by apply list_elem_of_filter in I as [? _].
  - constructor.
  - exact Sw.
  - by vm_compute.
Qed.

Definition demo_gc_env : GcEnv := gc_env_at (run MetaState_default LogDemo.log).

Lemma demo_swaps : swaps_expire LogDemo.log (millis GcConfig_default.(gc_grace)).
Proof.
  intros st p reps seg range ts fence now fresh I.
  assert (LogDemo.log = LogDemo.before ++ [LogDemo.commit_command; AcquireLease "l" "me" 1000 7;
    LogDemo.swap_command; AcquireLease "l" "me" 1000 9000000]) as El by (by vm_compute).
  rewrite El in I. repeat (apply elem_of_cons in I as [I|I]; [try discriminate I|]); [|by apply elem_of_nil in I].
  injection I as _ _ _ _ _ _ _ _ ->. split; by vm_compute.
Qed.

(** A run deletes the retired WAL object and the orphan. *)
Lemma gc_deletes_nothing_in_use_witness :
  (gc_run GcConfig_default demo_gc_env None GcReport_default).1.2 = [(2%nat, LogDemo.path); (7%nat, demo_orphan)]
  ∧ ¬ in_use demo_orphan (run MetaState_default LogDemo.log).
Proof.
  split; [by vm_compute|].
  apply (gc_deletes_nothing_in_use LogDemo.objects LogDemo.log LogDemo.produced_demo demo_small
    (λ _, LogDemo.log) GcConfig_default demo_gc_env None GcReport_default
    (gc_run GcConfig_default demo_gc_env None GcReport_default).1.1
    (gc_run GcConfig_default demo_gc_env None GcReport_default).1.2
    (gc_run GcConfig_default demo_gc_env None GcReport_default).2 7 demo_orphan) with (t := 7%nat).
  - intros t t' _. exists []. by rewrite app_nil_r.
  - intros t. exists []. by rewrite app_nil_r.
  - apply gc_env_at_ok, demo_swaps.
  - by rewrite <- !surjective_pairing.
  - assert ((gc_run GcConfig_default demo_gc_env None GcReport_default).1.2
            = [(2%nat, LogDemo.path); (7%nat, demo_orphan)]) as -> by (by vm_compute). set_solver.
  - lia.
Defined.
