(* ===== verification/TikvTuple.v ===== *)
(** * The order-preserving tuple codec (loams-tikv/src/codec.rs)

    Index keys are compared as bytes by TiKV.  [tuple_encode] writes a value so that the byte order
    of two encodings is the order of the values, also when more bytes follow, and [tuple_decode]
    reads it back.  An [f64] is its 64 bits; the order of two of them is [SFcompare] of the Standard
    Library's model of IEEE 754, with every NaN last.

    [sorts c u v] says that the byte strings [u] and [v] compare as [c], whatever follows them.  The
    encodings of two elements sort as the elements do, and so do tuples of them.  An element is read
    back from its encoding up to the identifications of floats, and one that nests too deep is
    refused.  [successor] bounds the extensions of a key. *)

From Stdlib Require Import NArith ZArith Lia.
From Stdlib Require Import SpecFloat.
From stdpp Require Import prelude gmap strings numbers list.
From S2P Require Import Prelude.
From S2P Require Import BTree.
From S2P Require Import ByteCodec.

Open Scope N_scope.

(** ** Values *)

(** [CodecError] *)
Inductive TupleError :=
  | TupleTruncated (at_ : nat)
  | TupleBadTag (tag : N) (at_ : nat)
  | TupleBadEscape (at_ : nat)
  | TupleBadUtf8 (at_ : nat)
  | TupleTooDeep (at_ : nat).

Definition TAG_NULL : N := 0x05.
Definition TAG_I64 : N := 0x10.
Definition TAG_F64 : N := 0x20.
Definition TAG_FALSE : N := 0x30.
Definition TAG_TRUE : N := 0x31.
Definition TAG_STR : N := 0x40.
Definition TAG_BYTES : N := 0x50.
Definition TAG_ARRAY : N := 0x60.

Definition SIGN : N := 0x8000000000000000.
Definition CANONICAL_NAN : N := 0x7ff8000000000000.

(** [Elem]; a string is the string of its bytes, a float its bits. *)
Inductive Elem :=
  | ENull
  | EI64 (v : Z)
  | EF64 (bits : N)
  | EBool (b : bool)
  | EStr (s : string)
  | EBytes (b : Bytes)
  | EArray (items : list Elem).

(** ** Floats as bits *)

(** [f64::is_nan] and [v == 0.0], on the bits. *)
Definition f64_is_nan (bits : N) : bool := 0x7ff0000000000000 <? N.land bits 0x7fffffffffffffff.
Definition f64_is_zero (bits : N) : bool := N.land bits 0x7fffffffffffffff =? 0.

(** [!bits] of a [u64] *)
Definition u64_not (n : N) : N := N.lxor n u64_MAX.

(** [float_bits] *)
Definition float_bits (v : N) : N :=
  let bits := if f64_is_nan v then CANONICAL_NAN else if f64_is_zero v then 0 else v in
  if N.land bits SIGN =? 0 then N.lor bits SIGN else u64_not bits.

(** [float_from_bits] *)
Definition float_from_bits (bits : N) : N :=
  if negb (N.land bits SIGN =? 0) then N.lxor bits SIGN else u64_not bits.

(** ** Encoding *)

(** [escape] *)
Fixpoint escape (bytes : Bytes) : Bytes :=
  match bytes with
  | [] => [0; 0]
  | b :: bytes => if b =? 0 then b :: 0xFF :: escape bytes else b :: escape bytes
  end.

(** [encode]: what it appends to [out]. *)
Fixpoint tuple_encode (e : Elem) : Bytes :=
  match e with
  | ENull => [TAG_NULL]
  | EI64 v => TAG_I64 :: be_bytes 8 (N.lxor (i64_bits v) SIGN)
  | EF64 v => TAG_F64 :: be_bytes 8 (float_bits v)
  | EBool false => [TAG_FALSE]
  | EBool true => [TAG_TRUE]
  | EStr s => TAG_STR :: escape (string_bytes s)
  | EBytes b => TAG_BYTES :: escape b
  | EArray items => TAG_ARRAY :: concat (tuple_encode <$> items) ++ [0; 0]
  end.

(** [PartialEq for Elem] *)
Fixpoint elem_eq (a b : Elem) : bool :=
  match a, b with
  | ENull, ENull => true
  | EI64 a, EI64 b => (a =? b)%Z
  | EF64 a, EF64 b => float_bits a =? float_bits b
  | EBool a, EBool b => bool_decide (a = b)
  | EStr a, EStr b => bool_decide (a = b)
  | EBytes a, EBytes b => bool_decide (a = b)
  | EArray a, EArray b =>
      (fix all2 (xs ys : list Elem) : bool :=
         match xs, ys with
         | [], [] => true
         | x :: xs, y :: ys => elem_eq x y && all2 xs ys
         | _, _ => false
         end) a b
  | _, _ => false
  end.

(** ** Decoding *)

Definition MAX_DEPTH : nat := 64.

(** [fixed8] *)
Definition fixed8 (buf : Bytes) (at_ : nat) : Result N TupleError :=
  if (at_ + 8 <=? length buf)%nat then Ok (be_at 8 buf at_) else Err (TupleTruncated (length buf)).

(** The loop of [unescape], on what is left of the buffer from [pos] on. *)
Fixpoint unescape_from (rest : Bytes) (pos : nat) : Result (Bytes * nat) TupleError :=
  match rest with
  | [] => Err (TupleTruncated pos)
  | b :: rest =>
      if negb (b =? 0) then
        LET r <- unescape_from rest (pos + 1) ;; Ok (b :: r.1, r.2)
      else
        match rest with
        | c :: rest =>
            if c =? 0xFF then LET r <- unescape_from rest (pos + 2) ;; Ok (0 :: r.1, r.2)
            else if c =? 0 then Ok ([], pos + 2)%nat
            else Err (TupleBadEscape pos)
        | [] => Err (TupleTruncated (pos + 1))
        end
  end.

(** [unescape] *)
Definition unescape (buf : Bytes) (pos : nat) : Result (Bytes * nat) TupleError :=
  unescape_from (drop pos buf) pos.

(** The array loop of [decode_at]; [decode] decodes one item.  An item takes a byte, so the length of
    the buffer is fuel enough ([decode_items_fuel]). *)
Fixpoint decode_items (decode : nat → Result (Elem * nat) TupleError) (buf : Bytes) (fuel : nat)
    (items : list Elem) (pos : nat) : Result (Elem * nat) TupleError :=
  match fuel with
  | O => Err (TupleTruncated pos)
  | S fuel =>
      match buf !! pos with
      | None => Err (TupleTruncated pos)
      | Some b =>
          if b =? 0 then
            match buf !! (pos + 1)%nat with
            | Some c => if c =? 0 then Ok (EArray items, pos + 2)%nat else Err (TupleBadEscape pos)
            | None => Err (TupleTruncated (pos + 1))
            end
          else
            LET r <- decode pos ;; decode_items decode buf fuel (items ++ [r.1]) r.2
      end
  end.

(** [decode_at]; [levels] is how many more arrays may nest, [MAX_DEPTH - depth]. *)
Fixpoint decode_at (levels : nat) (buf : Bytes) (at_ : nat) : Result (Elem * nat) TupleError :=
  match buf !! at_ with
  | None => Err (TupleTruncated at_)
  | Some tag =>
      let body := (at_ + 1)%nat in
      if tag =? TAG_NULL then Ok (ENull, body)
      else if tag =? TAG_I64 then
        LET raw <- fixed8 buf body ;; Ok (EI64 (bits_i64 (N.lxor raw SIGN)), body + 8)%nat
      else if tag =? TAG_F64 then
        LET raw <- fixed8 buf body ;; Ok (EF64 (float_from_bits raw), body + 8)%nat
      else if tag =? TAG_FALSE then Ok (EBool false, body)
      else if tag =? TAG_TRUE then Ok (EBool true, body)
      else if tag =? TAG_STR then
        LET r <- unescape buf body ;;
        REFUSE negb (utf8_valid r.1) WITH TupleBadUtf8 at_ ;;
        Ok (EStr (bytes_string r.1), r.2)
      else if tag =? TAG_BYTES then
        LET r <- unescape buf body ;; Ok (EBytes r.1, r.2)
      else if tag =? TAG_ARRAY then
        match levels with
        | O => Err (TupleTooDeep at_)
        | S levels => decode_items (decode_at levels buf) buf (length buf) [] body
        end
      else Err (TupleBadTag tag at_)
  end.

(** [decode] *)
Definition tuple_decode (buf : Bytes) : Result (Elem * nat) TupleError := decode_at MAX_DEPTH buf 0.

(** The loop of [successor], from the last byte on. *)
Fixpoint pop_successor (rev : Bytes) : Bytes :=
  match rev with
  | [] => []
  | last :: rev => if negb (last =? 0xFF) then (last + 1) :: rev else pop_successor rev
  end.

(** [successor] *)
Definition successor (prefix : Bytes) : Bytes := reverse (pop_successor (reverse prefix)).

(** ** The order of values *)

(** The order of a pair: the first part decides unless it is equal. *)
Definition then_cmp (c d : comparison) : comparison := match c with Eq => d | c => c end.

Section lex.
Context {A : Type} (cmp : A → A → comparison).
Fixpoint lex_cmp (xs ys : list A) : comparison :=
  match xs, ys with
  | [], [] => Eq
  | [], _ :: _ => Lt
  | _ :: _, [] => Gt
  | x :: xs, y :: ys => then_cmp (cmp x y) (lex_cmp xs ys)
  end.
End lex.

(** The order of byte strings, as TiKV and Rust's slices have it. *)
Definition bytes_cmp : Bytes → Bytes → comparison := lex_cmp N.compare.

(** The number a float's bits stand for, in the Standard Library's model of IEEE 754. *)
Definition f64_spec (bits : N) : spec_float :=
  let s := SIGN <=? bits in
  let e := (bits / 2 ^ 52) mod 2 ^ 11 in
  let m := bits mod 2 ^ 52 in
  if e =? 2047 then (if m =? 0 then S754_infinity s else S754_nan)
  else if e =? 0 then match m with 0 => S754_zero s | Npos p => S754_finite s p (-1074) end
  else S754_finite s (N.succ_pos (m + 2 ^ 52 - 1)) (Z.of_N e - 1075).

(** Floats in numeric order, the NaNs equal and last. *)
Definition f64_cmp (a b : N) : comparison :=
  match f64_is_nan a, f64_is_nan b with
  | true, true => Eq
  | true, false => Gt
  | false, true => Lt
  | false, false => default Eq (SFcompare (f64_spec a) (f64_spec b))
  end.

Definition bool_cmp (a b : bool) : comparison :=
  match a, b with false, true => Lt | true, false => Gt | _, _ => Eq end.

(** Null < int64 < float64 < bool < string < bytes < array. *)
Definition elem_rank (e : Elem) : N :=
  match e with
  | ENull => 0 | EI64 _ => 1 | EF64 _ => 2 | EBool _ => 3 | EStr _ => 4 | EBytes _ => 5 | EArray _ => 6
  end.

Fixpoint elem_cmp (a b : Elem) : comparison :=
  match a, b with
  | ENull, ENull => Eq
  | EI64 a, EI64 b => (a ?= b)%Z
  | EF64 a, EF64 b => f64_cmp a b
  | EBool a, EBool b => bool_cmp a b
  | EStr a, EStr b => bytes_cmp (string_bytes a) (string_bytes b)
  | EBytes a, EBytes b => bytes_cmp a b
  | EArray a, EArray b => lex_cmp elem_cmp a b
  | _, _ => (elem_rank a ?= elem_rank b)%N
  end.

(** ** Elements as Rust values *)

Inductive elem_ok : Elem → Prop :=
  | ok_null : elem_ok ENull
  | ok_i64 v : i64_ok v → elem_ok (EI64 v)
  | ok_f64 v : v <= u64_MAX → elem_ok (EF64 v)
  | ok_bool b : elem_ok (EBool b)
  | ok_str s : utf8_valid (string_bytes s) = true → elem_ok (EStr s)
  | ok_bytes b : Forall (λ x, x < 256) b → elem_ok (EBytes b)
  | ok_array items : Forall elem_ok items → elem_ok (EArray items).

(** How deep arrays nest. *)
Fixpoint elem_depth (e : Elem) : nat :=
  match e with
  | EArray items => S (foldr Nat.max 0%nat (elem_depth <$> items))
  | _ => 0
  end.

(** A value as it reads back: the zeros are one, and so are the NaNs. *)
Definition f64_normal (v : N) : N :=
  if f64_is_nan v then CANONICAL_NAN else if f64_is_zero v then 0 else v.
Fixpoint elem_normal (e : Elem) : Elem :=
  match e with
  | EF64 v => EF64 (f64_normal v)
  | EArray items => EArray (elem_normal <$> items)
  | e => e
  end.

Lemma Elem_rect_list (P : Elem → Prop) :
  P ENull → (∀ v, P (EI64 v)) → (∀ v, P (EF64 v)) → (∀ b, P (EBool b)) → (∀ s, P (EStr s)) →
  (∀ b, P (EBytes b)) → (∀ items, Forall P items → P (EArray items)) → ∀ e, P e.
Proof.
  intros H1 H2 H3 H4 H5 H6 H7. fix IH 1.
  intros [| | | | | |items]; [exact H1|apply H2|apply H3|apply H4|apply H5|apply H6|apply H7].
  induction items as [|e items IHi]; constructor; [apply IH|exact IHi].
Qed.

(** ** Byte order *)

Lemma bytes_cmp_app (h u v : Bytes) : bytes_cmp (h ++ u) (h ++ v) = bytes_cmp u v.
Proof. induction h as [|b h IH]; [done|]. unfold bytes_cmp in *. cbn. by rewrite N.compare_refl. Qed.

Lemma bytes_cmp_refl (u : Bytes) : bytes_cmp u u = Eq.
Proof. rewrite <- (app_nil_r u). by rewrite bytes_cmp_app. Qed.

Lemma bytes_cmp_eq (u v : Bytes) : bytes_cmp u v = Eq ↔ u = v.
Proof.
  split; [|intros ->; apply bytes_cmp_refl]. unfold bytes_cmp. revert v.
  induction u as [|b u IH]; intros [|c v]; cbn; try done.
  destruct (N.compare_spec b c) as [->| |]; try done. intros E. by rewrite (IH v E).
Qed.

Lemma bytes_cmp_antisym (u v : Bytes) : bytes_cmp v u = CompOpp (bytes_cmp u v).
Proof.
  unfold bytes_cmp. revert v. induction u as [|b u IH]; intros [|c v]; cbn; try done.
  rewrite (N.compare_antisym b c). destruct (b ?= c); cbn; auto.
Qed.

(** ** Byte strings that compare whatever follows *)

Definition sorts (c : comparison) (u v : Bytes) : Prop :=
  match c with
  | Eq => u = v
  | _ => ∀ x y, bytes_cmp (u ++ x) (v ++ y) = c
  end.

Lemma sorts_cmp c u v : sorts c u v → bytes_cmp u v = c.
Proof.
  destruct c; cbn; [intros ->; apply bytes_cmp_refl| |];
    intros S; specialize (S [] []); by rewrite !app_nil_r in S.
Qed.

Lemma sorts_app c d u v u' v' : sorts c u v → sorts d u' v' → sorts (then_cmp c d) (u ++ u') (v ++ v').
Proof.
  destruct c; cbn; [|intros S _ x y; rewrite <- !(assoc_L (++)); apply S..].
  intros ->. destruct d; cbn; [by intros ->| |];
    intros S x y; rewrite <- !(assoc_L (++)), bytes_cmp_app; apply S.
Qed.

Lemma sorts_prefix h c u v : sorts c u v → sorts c (h ++ u) (h ++ v).
Proof. intros S. by apply (sorts_app Eq c h h). Qed.
Lemma sorts_cons b c u v : sorts c u v → sorts c (b :: u) (b :: v).
Proof. apply (sorts_prefix [b]). Qed.

Lemma sorts_heads a b u v : a ≠ b → sorts (a ?= b) (a :: u) (b :: v).
Proof.
  intros Ne. destruct (N.compare_spec a b) as [->|L|L]; [done| |]; intros x y; unfold bytes_cmp; cbn.
  - by rewrite (proj2 (N.compare_lt_iff a b) L).
  - by rewrite (proj2 (N.compare_gt_iff a b) L).
Qed.

(** ** Numbers in big-endian order *)

Lemma compare_div a b k : k ≠ 0 → then_cmp (a / k ?= b / k) (a mod k ?= b mod k) = (a ?= b).
Proof.
  intros K. rewrite (N.div_mod a k K) at 3. rewrite (N.div_mod b k K) at 3.
  pose proof (N.mod_lt a k K) as Ma. pose proof (N.mod_lt b k K) as Mb.
  revert Ma Mb. generalize (a / k), (b / k), (a mod k), (b mod k). intros qa qb ra rb Ma Mb.
  destruct (N.compare_spec qa qb) as [->|L|L]; cbn; symmetry.
  - destruct (N.compare_spec ra rb);
      [apply N.compare_eq_iff|apply N.compare_lt_iff|apply N.compare_gt_iff]; lia.
  - apply N.compare_lt_iff. apply N.le_succ_l, (N.mul_le_mono_l _ _ k) in L. lia.
  - apply N.compare_gt_iff. apply N.le_succ_l, (N.mul_le_mono_l _ _ k) in L. lia.
Qed.

Lemma sorts_be k a b : a < 256 ^ N.of_nat k → b < 256 ^ N.of_nat k →
  sorts (a ?= b) (be_bytes k a) (be_bytes k b).
Proof.
  revert a b. induction k as [|k IH]; intros a b La Lb.
  - assert (a = 0) as -> by (cbn in La; lia). assert (b = 0) as -> by (cbn in Lb; lia). done.
  - rewrite !be_bytes_S, <- (compare_div a b 256) by done.
    assert (∀ n, n < 256 ^ N.of_nat (S k) → n / 256 < 256 ^ N.of_nat k) as D.
    { intros n L. apply N.Div0.div_lt_upper_bound. by rewrite Nat2N.inj_succ, N.pow_succ_r' in L. }
    apply sorts_app; [by apply IH; apply D|].
    destruct (decide (a mod 256 = b mod 256)) as [->|Ne]; [by rewrite N.compare_refl|by apply sorts_heads].
Qed.

(** ** Escaped bytes *)

Lemma sorts_escape u v : sorts (bytes_cmp u v) (escape u) (escape v).
Proof.
  revert v. induction u as [|a u IH]; intros [|b v]; cbn [escape].
  - done.
  - change (bytes_cmp [] (b :: v)) with Lt. destruct (N.eqb_spec b 0) as [->|Nb].
    + apply sorts_cons, (sorts_heads 0 255). done.
    + replace Lt with (0 ?= b) by (apply N.compare_lt_iff; lia). apply sorts_heads. done.
  - change (bytes_cmp (a :: u) []) with Gt. destruct (N.eqb_spec a 0) as [->|Na].
    + apply sorts_cons, (sorts_heads 255 0). done.
    + replace Gt with (a ?= 0) by (apply N.compare_gt_iff; lia). by apply sorts_heads.
  - destruct (decide (a = b)) as [->|Ne].
    + change (bytes_cmp (b :: u) (b :: v)) with (bytes_cmp ([b] ++ u) ([b] ++ v)).
      rewrite bytes_cmp_app. specialize (IH v).
      destruct (b =? 0); [by apply sorts_cons, sorts_cons|by apply sorts_cons].
    + replace (bytes_cmp (a :: u) (b :: v)) with (a ?= b)
        by (unfold bytes_cmp; cbn; by destruct (N.compare_spec a b)).
      destruct (a =? 0), (b =? 0); by apply sorts_heads.
Qed.

(** ** Signed numbers *)

Lemma lxor_sign n : n < SIGN → N.lxor n SIGN = n + SIGN.
Proof.
  intros L. rewrite N.add_nocarry_lxor; [done|]. apply N.bits_inj. intros i.
  rewrite N.land_spec, N.bits_0. change SIGN with (2 ^ 63). rewrite N.pow2_bits_eqb.
  destruct (N.eqb_spec 63 i) as [<-|]; [|apply andb_false_r].
  rewrite andb_true_r. apply (N.testbit_false n 63). by rewrite N.div_small.
Qed.

Lemma lxor_sign_high n : SIGN <= n → n <= u64_MAX → N.lxor n SIGN = n - SIGN.
Proof.
  intros L B. set (m := n - SIGN). replace n with (m + SIGN) by lia.
  assert (m < SIGN) by (unfold m, u64_MAX, SIGN in *; lia).
  rewrite <- (lxor_sign m), N.lxor_assoc, N.lxor_nilpotent, N.lxor_0_r by done. unfold m. lia.
Qed.

Lemma i64_key v : i64_ok v → N.lxor (i64_bits v) SIGN = Z.to_N (v + 9223372036854775808).
Proof.
  intros [L H]. unfold i64_MIN, i64_MAX in *. unfold i64_bits. destruct (Z.ltb_spec v 0) as [Neg|Pos].
  - replace (v mod 18446744073709551616)%Z with (v + 18446744073709551616)%Z
      by (apply (Z.mod_unique_pos _ _ (-1)); lia).
    rewrite lxor_sign_high; unfold SIGN, u64_MAX; lia.
  - rewrite Z.mod_small by lia. rewrite lxor_sign; unfold SIGN; lia.
Qed.

Lemma sorts_i64 a b : i64_ok a → i64_ok b →
  sorts (a ?= b)%Z (be_bytes 8 (N.lxor (i64_bits a) SIGN)) (be_bytes 8 (N.lxor (i64_bits b) SIGN)).
Proof.
  intros Ha Hb. rewrite !i64_key by done. unfold i64_ok, i64_MIN, i64_MAX in *.
  replace (a ?= b)%Z with (Z.to_N (a + 9223372036854775808) ?= Z.to_N (b + 9223372036854775808)).
  - apply sorts_be; change (256 ^ N.of_nat 8) with 18446744073709551616; lia.
  - destruct (Z.compare_spec a b);
      [apply N.compare_eq_iff|apply N.compare_lt_iff|apply N.compare_gt_iff]; lia.
Qed.

(** ** Floats *)

Lemma land_low n : n <= u64_MAX → N.land n 0x7fffffffffffffff = if n <? SIGN then n else n - SIGN.
Proof.
  intros B. change 0x7fffffffffffffff with (N.ones 63). rewrite N.land_ones.
  destruct (N.ltb_spec n SIGN) as [L|L]; [by apply N.mod_small|].
  unfold SIGN, u64_MAX in *. symmetry. apply (N.mod_unique _ _ 1); [change (2 ^ 63) with 9223372036854775808; lia|].
  change (2 ^ 63) with 9223372036854775808. lia.
Qed.

Lemma land_sign n : n <= u64_MAX → (N.land n SIGN =? 0) = (n <? SIGN).
Proof.
  intros B. destruct (N.ltb_spec n SIGN) as [L|L].
  - apply N.eqb_eq. apply N.bits_inj. intros i. rewrite N.land_spec, N.bits_0.
    change SIGN with (2 ^ 63) in *. rewrite N.pow2_bits_eqb.
    destruct (N.eqb_spec 63 i) as [<-|]; [|apply andb_false_r].
    rewrite andb_true_r. apply (N.testbit_false n 63). by rewrite N.div_small.
  - apply N.eqb_neq. intros E. apply (f_equal (λ x, N.testbit x 63)) in E.
    rewrite N.land_spec, N.bits_0 in E. change SIGN with (2 ^ 63) in E. rewrite N.pow2_bits_true, andb_true_r in E.
    apply N.testbit_false in E. unfold SIGN, u64_MAX in *.
    rewrite <- (N.div_unique n (2 ^ 63) 1 (n - 2 ^ 63)) in E; [done| |];
      change (2 ^ 63) with 9223372036854775808; lia.
Qed.

Lemma lor_sign n : n < SIGN → N.lor n SIGN = n + SIGN.
Proof.
  intros L. rewrite <- lxor_sign by done. symmetry. apply N.lxor_lor.
  apply N.eqb_eq. rewrite land_sign by (unfold SIGN, u64_MAX in *; lia). by apply N.ltb_lt.
Qed.

Lemma u64_not_sub n : n <= u64_MAX → u64_not n = u64_MAX - n.
Proof.
  intros B. change (u64_not n) with (N.lnot n 64). change u64_MAX with (N.ones 64).
  apply N.lnot_sub_low. destruct (N.eq_dec n 0) as [->|]; [done|].
  apply N.log2_lt_pow2; [lia|]. change (2 ^ 64) with 18446744073709551616. unfold u64_MAX in B. lia.
Qed.

(** The magnitude of a float and its key: the keys of the negative ones run backwards. *)
Definition magnitude (v : N) : N := if v <? SIGN then v else v - SIGN.

Lemma nan_magnitude v : v <= u64_MAX → f64_is_nan v = (0x7ff0000000000000 <? magnitude v).
Proof. intros B. unfold f64_is_nan. by rewrite land_low. Qed.
Lemma zero_magnitude v : v <= u64_MAX → f64_is_zero v = (magnitude v =? 0).
Proof. intros B. unfold f64_is_zero. by rewrite land_low. Qed.

Lemma float_bits_key v : v <= u64_MAX →
  float_bits v = if f64_is_nan v then 0xfff8000000000000
                 else if v <? SIGN then SIGN + magnitude v else if magnitude v =? 0 then SIGN
                 else SIGN - 1 - magnitude v.
Proof.
  intros B. unfold float_bits. rewrite zero_magnitude by done. unfold magnitude.
  destruct (f64_is_nan v); [done|]. destruct (N.ltb_spec v SIGN) as [L|L].
  - destruct (N.eqb_spec v 0) as [->|]; [done|].
    rewrite land_sign by done. rewrite (proj2 (N.ltb_lt _ _) L). rewrite lor_sign by done. lia.
  - destruct (N.eqb_spec (v - SIGN) 0) as [|]; [done|].
    rewrite land_sign by done. rewrite (proj2 (N.ltb_ge _ _) L).
    rewrite u64_not_sub by done. unfold u64_MAX, SIGN in *. lia.
Qed.

Lemma float_bits_bound v : v <= u64_MAX → float_bits v < 18446744073709551616.
Proof.
  intros B. rewrite float_bits_key by done. unfold magnitude, SIGN, u64_MAX in *.
  destruct (f64_is_nan v); [done|]. destruct (N.ltb_spec v 9223372036854775808); [lia|].
  destruct (_ =? 0); lia.
Qed.

(** A float in the model is its magnitude with a sign. *)
Definition with_sign (s : bool) (x : spec_float) : spec_float :=
  match x with
  | S754_zero _ => S754_zero s
  | S754_infinity _ => S754_infinity s
  | S754_nan => S754_nan
  | S754_finite _ m e => S754_finite s m e
  end.

Lemma spec_magnitude v : v <= u64_MAX → f64_spec v = with_sign (SIGN <=? v) (f64_spec (magnitude v)).
Proof.
  intros B. assert (magnitude v mod 2 ^ 52 = v mod 2 ^ 52
    ∧ (magnitude v / 2 ^ 52) mod 2 ^ 11 = (v / 2 ^ 52) mod 2 ^ 11) as [Em Ee].
  { unfold magnitude. destruct (N.ltb_spec v SIGN) as [L|L]; [done|].
    replace v with (v - SIGN + 2 ^ 11 * 2 ^ 52) at 2 4
      by (change (2 ^ 11 * 2 ^ 52) with SIGN; lia).
    rewrite N.Div0.mod_add, N.div_add by done. split; [done|].
    pose proof (N.Div0.mod_add ((v - SIGN) / 2 ^ 52) 1 (2 ^ 11)) as E. by rewrite N.mul_1_l in E. }
  unfold f64_spec. rewrite Em, Ee. destruct (_ =? 2047); [by destruct (_ =? 0)|].
  destruct (_ =? 0); [|done]. by destruct (v mod 2 ^ 52).
Qed.

(** Below the sign bit, floats compare as their bits. *)
Lemma finite_cmp m1 e1 m2 e2 :
  SFcompare (S754_finite false m1 e1) (S754_finite false m2 e2)
  = Some (then_cmp (e1 ?= e2)%Z (Npos m1 ?= Npos m2)).
Proof. cbn. by destruct (e1 ?= e2)%Z. Qed.

(** A finite float that is not zero, with exponent and mantissa as numbers. *)
Lemma spec_finite v e m : v < SIGN → e = v / 2 ^ 52 → m = v mod 2 ^ 52 → e < 2047 → v ≠ 0 →
  ∃ p, f64_spec v = S754_finite false p (Z.of_N (N.max e 1) - 1075)
       ∧ Npos p = if e =? 0 then m else m + 2 ^ 52.
Proof.
  intros L -> -> Le Nz. unfold f64_spec. rewrite (proj2 (N.leb_gt _ _) L).
  rewrite (N.mod_small (v / 2 ^ 52)) by (by etransitivity; [exact Le|]).
  rewrite (proj2 (N.eqb_neq (v / 2 ^ 52) 2047)) by (intros E; by rewrite E in Le).
  destruct (N.eqb_spec (v / 2 ^ 52) 0) as [E0|Ne].
  - pose proof (N.div_mod v (2 ^ 52) ltac:(done)) as D. rewrite E0, N.mul_0_r, N.add_0_l in D.
    destruct (v mod 2 ^ 52) as [|p] eqn:Em; [congruence|]. rewrite E0. by exists p.
  - exists (N.succ_pos (v mod 2 ^ 52 + 2 ^ 52 - 1)). rewrite N.max_l by (apply (proj2 (N.le_succ_l 0 _)), N.neq_0_lt_0, Ne).
    split; [done|].
    rewrite N.succ_pos_spec, <- N.add_1_r, N.sub_add; [done|]. generalize (v mod 2 ^ 52). intros m.
    change (2 ^ 52) with 4503599627370496. lia.
Qed.

Lemma spec_shape v : v <= 0x7ff0000000000000 →
  v = 0x7ff0000000000000 ∧ f64_spec v = S754_infinity false
  ∨ v = 0 ∧ f64_spec v = S754_zero false
  ∨ v ≠ 0 ∧ v < 0x7ff0000000000000 ∧ ∃ p, f64_spec v = S754_finite false p (Z.of_N (N.max (v / 2 ^ 52) 1) - 1075)
    ∧ Npos p = if v / 2 ^ 52 =? 0 then v mod 2 ^ 52 else v mod 2 ^ 52 + 2 ^ 52.
Proof.
  intros L. destruct (N.eq_dec v 0x7ff0000000000000) as [->|Ni]; [by left|right].
  destruct (N.eq_dec v 0) as [->|Nz]; [by left|right].
  assert (v < 0x7ff0000000000000) as Lt by (by apply N.le_neq). split; [done|split; [done|]].
  apply spec_finite; [by etransitivity; [exact Lt|]|done|done| |done].
  by apply N.Div0.div_lt_upper_bound.
Qed.

(** The exponents decide, then the mantissas; the smallest exponent is shared by the subnormals. *)
Lemma exponent_cmp c ea eb ma mb : ma < c → mb < c →
  then_cmp (Z.of_N (N.max ea 1) - 1075 ?= Z.of_N (N.max eb 1) - 1075)%Z
           ((if ea =? 0 then ma else ma + c) ?= (if eb =? 0 then mb else mb + c))
  = then_cmp (ea ?= eb) (ma ?= mb).
Proof.
  intros Ma Mb. destruct (N.compare_spec ea eb) as [->|L|L]; cbn [then_cmp].
  - rewrite Z.compare_refl. cbn [then_cmp]. destruct (eb =? 0); [done|].
    destruct (N.compare_spec ma mb);
      [apply N.compare_eq_iff|apply N.compare_lt_iff|apply N.compare_gt_iff]; lia.
  - rewrite (proj2 (N.eqb_neq eb 0)) by lia. destruct (N.eqb_spec ea 0) as [->|].
    + destruct (N.eq_dec eb 1) as [->|].
      * cbn. apply N.compare_lt_iff. lia.
      * rewrite (proj2 (Z.compare_lt_iff _ _)) by lia. done.
    + rewrite (proj2 (Z.compare_lt_iff _ _)) by lia. done.
  - rewrite (proj2 (N.eqb_neq ea 0)) by lia. destruct (N.eqb_spec eb 0) as [->|].
    + destruct (N.eq_dec ea 1) as [->|].
      * cbn. apply N.compare_gt_iff. lia.
      * rewrite (proj2 (Z.compare_gt_iff _ _)) by lia. done.
    + rewrite (proj2 (Z.compare_gt_iff _ _)) by lia. done.
Qed.

Lemma spec_cmp_magnitude a b : a <= 0x7ff0000000000000 → b <= 0x7ff0000000000000 →
  SFcompare (f64_spec a) (f64_spec b) = Some (a ?= b).
Proof.
  intros La Lb. destruct (spec_shape a La) as [[-> ->]|[[-> ->]|(Na & Ha & p & -> & Ep)]];
  destruct (spec_shape b Lb) as [[-> ->]|[[-> ->]|(Nb & Hb & q & -> & Eq)]]; try done.
  - cbn [SFcompare]. f_equal. symmetry. by apply N.compare_gt_iff.
  - cbn [SFcompare]. f_equal. symmetry. apply N.compare_lt_iff. lia.
  - cbn [SFcompare]. f_equal. symmetry. by apply N.compare_lt_iff.
  - cbn [SFcompare]. f_equal. symmetry. apply N.compare_gt_iff. lia.
  - rewrite finite_cmp, Ep, Eq, <- (compare_div a b (2 ^ 52)) by done. f_equal.
    pose proof (N.mod_lt a (2 ^ 52) ltac:(done)) as Ma. pose proof (N.mod_lt b (2 ^ 52) ltac:(done)) as Mb.
    revert Ma Mb. generalize (a / 2 ^ 52), (b / 2 ^ 52), (a mod 2 ^ 52), (b mod 2 ^ 52).
    change (2 ^ 52) with 4503599627370496. clear. intros ea eb ma mb Ma Mb.
    apply exponent_cmp; done.
Qed.

Lemma cmp_negative x y :
  SFcompare (with_sign true x) (with_sign true y)
  = CompOpp <$> SFcompare (with_sign false x) (with_sign false y).
Proof. destruct x, y; try done. cbn. by destruct (_ ?= _)%Z. Qed.

Lemma positive_magnitude m : m <= 0x7ff0000000000000 → with_sign false (f64_spec m) = f64_spec m.
Proof. intros L. by destruct (spec_shape m L) as [[-> ->]|[[-> ->]|(_ & _ & p & -> & _)]]. Qed.

(** Numbers of different signs, not both zero. *)
Lemma cmp_signs ma mb : ma <= 0x7ff0000000000000 → mb <= 0x7ff0000000000000 → ma ≠ 0 ∨ mb ≠ 0 →
  SFcompare (with_sign true (f64_spec ma)) (f64_spec mb) = Some Lt
  ∧ SFcompare (f64_spec mb) (with_sign true (f64_spec ma)) = Some Gt.
Proof.
  intros La Lb Nz. destruct (spec_shape ma La) as [[-> ->]|[[-> ->]|(? & _ & p & -> & _)]];
  destruct (spec_shape mb Lb) as [[-> ->]|[[-> ->]|(? & _ & q & -> & _)]]; try done.
  by destruct Nz.
Qed.

Lemma signed_cmp (pa pb : bool) ma mb : ma <= 0x7ff0000000000000 → mb <= 0x7ff0000000000000 →
  ((if pa then SIGN + ma else if ma =? 0 then SIGN else SIGN - 1 - ma) ?=
   (if pb then SIGN + mb else if mb =? 0 then SIGN else SIGN - 1 - mb))
  = default Eq (SFcompare (with_sign (negb pa) (f64_spec ma)) (with_sign (negb pb) (f64_spec mb))).
Proof.
  intros La Lb. unfold SIGN. destruct pa, pb; cbn [negb].
  - rewrite !positive_magnitude, spec_cmp_magnitude by done. cbn.
    destruct (N.compare_spec ma mb);
      [apply N.compare_eq_iff|apply N.compare_lt_iff|apply N.compare_gt_iff]; lia.
  - rewrite positive_magnitude by done. destruct (decide (ma = 0 ∧ mb = 0)) as [[-> ->]|Nz]; [done|].
    rewrite (proj2 (cmp_signs mb ma Lb La ltac:(lia))). cbn. apply N.compare_gt_iff.
    destruct (N.eqb_spec mb 0); lia.
  - rewrite (positive_magnitude mb) by done.
    destruct (decide (ma = 0 ∧ mb = 0)) as [[-> ->]|Nz]; [done|].
    rewrite (proj1 (cmp_signs ma mb La Lb ltac:(lia))). cbn. apply N.compare_lt_iff.
    destruct (N.eqb_spec ma 0); lia.
  - rewrite cmp_negative, !positive_magnitude, spec_cmp_magnitude by done. cbn.
    rewrite <- N.compare_antisym.
    destruct (N.eqb_spec ma 0), (N.eqb_spec mb 0), (N.compare_spec mb ma);
      solve [apply N.compare_eq_iff; lia|apply N.compare_lt_iff; lia|apply N.compare_gt_iff; lia].
Qed.

Lemma float_bits_cmp a b : a <= u64_MAX → b <= u64_MAX → (float_bits a ?= float_bits b) = f64_cmp a b.
Proof.
  intros Ba Bb. rewrite !float_bits_key by done. unfold f64_cmp. rewrite !nan_magnitude by done.
  rewrite (spec_magnitude a), (spec_magnitude b) by done.
  assert (∀ v, v <= u64_MAX → magnitude v < SIGN ∧ (SIGN <=? v) = negb (v <? SIGN)) as Mag.
  { intros v B. rewrite N.leb_antisym. split; [|done]. unfold magnitude, SIGN, u64_MAX in *.
    destruct (N.ltb_spec v 9223372036854775808); lia. }
  destruct (Mag a Ba) as [Ma ->], (Mag b Bb) as [Mb ->]. clear Mag. revert Ma Mb.
  generalize (magnitude a), (magnitude b), (a <? SIGN), (b <? SIGN). clear. intros ma mb pa pb Ma Mb.
  destruct (N.ltb_spec 0x7ff0000000000000 ma) as [Na|Na], (N.ltb_spec 0x7ff0000000000000 mb) as [Nb|Nb].
  - done.
  - apply N.compare_gt_iff. unfold SIGN in *. destruct pb; [lia|]. destruct (mb =? 0); lia.
  - apply N.compare_lt_iff. unfold SIGN in *. destruct pa; [lia|]. destruct (ma =? 0); lia.
  - by apply signed_cmp.
Qed.

Lemma sorts_f64 a b : a <= u64_MAX → b <= u64_MAX →
  sorts (f64_cmp a b) (be_bytes 8 (float_bits a)) (be_bytes 8 (float_bits b)).
Proof.
  intros Ba Bb. rewrite <- float_bits_cmp by done.
  apply sorts_be; change (256 ^ N.of_nat 8) with 18446744073709551616; by apply float_bits_bound.
Qed.

(** ** Elements and tuples *)

Lemma encode_head e : ∃ b r, tuple_encode e = b :: r ∧ b ≠ 0.
Proof. destruct e as [| | |[]| | |]; cbn; eexists _, _; by split. Qed.

Lemma sorts_items xs ys :
  Forall (λ x, ∀ y, elem_ok x → elem_ok y → sorts (elem_cmp x y) (tuple_encode x) (tuple_encode y)) xs →
  Forall elem_ok xs → Forall elem_ok ys →
  sorts (lex_cmp elem_cmp xs ys) (concat (tuple_encode <$> xs) ++ [0; 0]) (concat (tuple_encode <$> ys) ++ [0; 0]).
Proof.
  intros IH Ox. revert ys. induction Ox as [|x xs Ox Oxs IHx]; intros [|y ys] Oy; cbn [lex_cmp].
  - done.
  - destruct (encode_head y) as (b & r & E & Nb). rewrite fmap_cons. cbn [concat]. rewrite E. cbn [app fmap list_fmap concat].
    replace Lt with (0 ?= b) by (apply N.compare_lt_iff; lia). apply sorts_heads. congruence.
  - destruct (encode_head x) as (b & r & E & Nb). rewrite fmap_cons. cbn [concat]. rewrite E. cbn [app fmap list_fmap concat].
    replace Gt with (b ?= 0) by (apply N.compare_gt_iff; lia). by apply sorts_heads.
  - inversion_clear IH as [|? ? Hx Hxs]. inversion_clear Oy as [|? ? Hy Hys].
    rewrite !fmap_cons. cbn [concat]. rewrite <- !(assoc_L (++)). apply (sorts_app (elem_cmp x y) (lex_cmp elem_cmp xs ys)); [by apply Hx|by apply IHx].
Qed.

Lemma sorts_elem a b : elem_ok a → elem_ok b → sorts (elem_cmp a b) (tuple_encode a) (tuple_encode b).
Proof.
  revert b. induction a as [| v| v|[]|s|bs|items IH] using Elem_rect_list; intros [|w|w|[]|t|cs|items'] Oa Ob;
    try (intros ??; reflexivity); inversion_clear Oa; inversion_clear Ob; cbn [elem_cmp tuple_encode bool_cmp];
    try done; apply sorts_cons.
  - by apply sorts_i64.
  - by apply sorts_f64.
  - apply sorts_escape.
  - apply sorts_escape.
  - by apply (sorts_items items items').
Qed.

(** Tuples of one length, as the fields of an index, in lexicographic order. *)
Lemma sorts_tuple xs ys : length xs = length ys → Forall elem_ok xs → Forall elem_ok ys →
  sorts (lex_cmp elem_cmp xs ys) (concat (tuple_encode <$> xs)) (concat (tuple_encode <$> ys)).
Proof.
  intros El Ox. revert ys El. induction Ox as [|x xs Ox Oxs IH]; intros [|y ys] El Oy; try done.
  inversion_clear Oy as [|? ? Hy Hys]. rewrite !fmap_cons. cbn [concat lex_cmp].
  apply (sorts_app (elem_cmp x y) (lex_cmp elem_cmp xs ys)); [by apply sorts_elem|]. apply IH; [by injection El|done].
Qed.

(** [PartialEq] is equality of encodings. *)
Lemma sorts_eq c u v : sorts c u v → c = Eq ↔ u = v.
Proof. intros S. rewrite <- (bytes_cmp_eq u v). by rewrite (sorts_cmp _ _ _ S). Qed.

Lemma elem_eq_cmp a b : elem_ok a → elem_ok b → elem_eq a b = true ↔ elem_cmp a b = Eq.
Proof.
  revert b. induction a as [| v| v|[]|s|bs|items IH] using Elem_rect_list; intros [|w|w|[]|t|cs|ys] Oa Ob;
    try done; inversion_clear Oa; inversion_clear Ob; cbn [elem_cmp elem_eq].
  - rewrite Z.eqb_eq. symmetry. apply Z.compare_eq_iff.
  - rewrite N.eqb_eq, <- float_bits_cmp by done. symmetry. apply N.compare_eq_iff.
  - rewrite bool_decide_eq_true, bytes_cmp_eq. split; [by intros ->|].
    intros E. by rewrite <- (bytes_string_bytes s), E, bytes_string_bytes.
  - by rewrite bool_decide_eq_true, bytes_cmp_eq.
  - revert ys H0. induction items as [|x items IHi]; intros [|y ys] Oy; try done.
    inversion_clear IH as [|? ? Hx Hxs]. inversion_clear H as [|? ? Ox Oxs]. inversion_clear Oy as [|? ? Hy Hys].
    cbn [lex_cmp]. rewrite andb_true_iff, (Hx y Ox Hy), (IHi Hxs Oxs ys Hys).
    destruct (elem_cmp x y); cbn; intuition done.
Qed.

Lemma elem_eq_encode a b : elem_ok a → elem_ok b → elem_eq a b = true ↔ tuple_encode a = tuple_encode b.
Proof. intros Oa Ob. rewrite elem_eq_cmp by done. by apply sorts_eq, sorts_elem. Qed.

(** ** Decoding *)

Lemma unescape_escape bs rest pos : unescape_from (escape bs ++ rest) pos = Ok (bs, pos + length (escape bs))%nat.
Proof.
  revert pos. induction bs as [|b bs IH]; intros pos; cbn [escape]; [done|].
  destruct (N.eqb_spec b 0) as [->|Nb].
  - cbn. rewrite IH. cbn. by rewrite <- Nat.add_assoc.
  - cbn. rewrite (proj2 (N.eqb_neq b 0) Nb). cbn. rewrite IH. cbn. by rewrite <- Nat.add_assoc.
Qed.

Lemma unescape_at pre bs post : unescape (pre ++ escape bs ++ post) (length pre) = Ok (bs, length pre + length (escape bs))%nat.
Proof. unfold unescape. rewrite drop_app_length. apply unescape_escape. Qed.

Lemma fixed8_at pre n post : n < 18446744073709551616 → fixed8 (pre ++ be_bytes 8 n ++ post) (length pre) = Ok n.
Proof.
  intros L. unfold fixed8, be_at. rewrite !length_app, length_be_bytes, drop_app_length.
  rewrite (proj2 (Nat.leb_le _ _)) by lia.
  rewrite take_app_length' by (by rewrite length_be_bytes). by rewrite be_value_bytes.
Qed.

Lemma encode_pos e : (0 < length (tuple_encode e))%nat.
Proof. destruct (encode_head e) as (b & r & -> & _). cbn. lia. Qed.

Section items.
Context (decode : nat → Result (Elem * nat) TupleError) (buf : Bytes).

(** [decode] reads the items of [xs] wherever they are in the buffer. *)
Definition decodes (xs : list Elem) : Prop :=
  Forall (λ x, ∀ pre post, buf = pre ++ tuple_encode x ++ post →
    decode (length pre) = Ok (elem_normal x, length pre + length (tuple_encode x))%nat) xs.

Lemma decode_items_app xs : decodes xs → ∀ n acc pre post, buf = pre ++ concat (tuple_encode <$> xs) ++ post →
  decode_items decode buf (length xs + n) acc (length pre)
  = decode_items decode buf n (acc ++ (elem_normal <$> xs)) (length pre + length (concat (tuple_encode <$> xs))).
Proof.
  induction xs as [|x xs IH]; intros D n acc pre post Eb.
  - cbn. by rewrite app_nil_r, Nat.add_0_r.
  - inversion_clear D as [|? ? Dx Dxs]. rewrite fmap_cons in Eb. cbn [concat] in Eb.
    rewrite <- (assoc_L (++)) in Eb. cbn [length Nat.add decode_items].
    destruct (encode_head x) as (b & r & E & Nb).
    rewrite (Dx _ _ Eb). assert (buf !! length pre = Some b) as ->
      by (rewrite Eb, lookup_app_r, Nat.sub_diag, E by lia; done).
    rewrite (proj2 (N.eqb_neq b 0) Nb). cbn [fst snd]. rewrite (assoc_L (++)) in Eb.
    rewrite <- length_app, (IH Dxs n _ _ _ Eb), !fmap_cons. cbn [concat].
    by rewrite !length_app, <- (assoc_L (++)), Nat.add_assoc.
Qed.

Lemma decode_items_done xs n acc pre post : decodes xs → buf = pre ++ concat (tuple_encode <$> xs) ++ [0; 0] ++ post →
  (length xs < n)%nat →
  decode_items decode buf n acc (length pre)
  = Ok (EArray (acc ++ (elem_normal <$> xs)), length pre + length (concat (tuple_encode <$> xs) ++ [0%N; 0%N]))%nat.
Proof.
  intros D Eb L. replace n with (length xs + S (n - length xs - 1))%nat by lia.
  rewrite (decode_items_app xs D _ acc pre _ Eb). cbn [decode_items].
  rewrite Eb, (assoc_L (++)), <- length_app.
  rewrite lookup_app_r, Nat.sub_diag by done. cbn [app lookup list_lookup].
  rewrite lookup_app_r by lia. replace (_ + 1 - _)%nat with 1%nat by lia. cbn. f_equal. f_equal.
  rewrite !length_app. cbn. lia.
Qed.

Lemma decode_items_fails xs x zs n acc pre post e : decodes xs →
  buf = pre ++ concat (tuple_encode <$> (xs ++ x :: zs)) ++ post → (length xs < n)%nat →
  decode (length (pre ++ concat (tuple_encode <$> xs))) = Err e →
  decode_items decode buf n acc (length pre) = Err e.
Proof.
  intros D Eb L F. replace n with (length xs + S (n - length xs - 1))%nat by lia.
  rewrite fmap_app, concat_app, fmap_cons in Eb. cbn [concat] in Eb. rewrite <- !(assoc_L (++)) in Eb.
  rewrite (decode_items_app xs D _ acc pre _ Eb). cbn [decode_items].
  rewrite <- length_app. destruct (encode_head x) as (b & r & E & Nb).
  assert (buf !! length (pre ++ concat (tuple_encode <$> xs)) = Some b) as ->
    by (rewrite Eb, (assoc_L (++)), lookup_app_r, Nat.sub_diag, E by lia; done).
  rewrite (proj2 (N.eqb_neq b 0) Nb). by rewrite F.
Qed.
End items.

(** *** Floats read back normalised *)

Lemma lxor_bound n : n < 18446744073709551616 → N.lxor n SIGN < 18446744073709551616.
Proof.
  intros L. destruct (N.ltb_spec n SIGN).
  - rewrite lxor_sign by done. unfold SIGN in *. lia.
  - rewrite lxor_sign_high by (unfold u64_MAX; lia). lia.
Qed.

Lemma lxor_sign_back n : n < 18446744073709551616 → N.lxor (N.lxor n SIGN) SIGN = n.
Proof. intros _. by rewrite N.lxor_assoc, N.lxor_nilpotent, N.lxor_0_r. Qed.

Lemma f64_normal_bound v : v <= u64_MAX → f64_normal v <= u64_MAX.
Proof. intros B. unfold f64_normal. destruct (f64_is_nan v); [done|]. by destruct (f64_is_zero v). Qed.

Lemma float_from_bits_bits v : v <= u64_MAX → float_from_bits (float_bits v) = f64_normal v.
Proof.
  intros B. pose proof (f64_normal_bound v B) as Bn. unfold float_bits. fold (f64_normal v).
  revert Bn. generalize (f64_normal v). clear. intros n B. unfold float_from_bits.
  rewrite (land_sign n) by done. destruct (N.ltb_spec n SIGN) as [L|L].
  - rewrite lor_sign, land_sign by (unfold SIGN, u64_MAX in *; lia).
    rewrite (proj2 (N.ltb_ge _ _)) by lia. cbn [negb]. rewrite lxor_sign_high by (unfold SIGN, u64_MAX in *; lia). lia.
  - rewrite u64_not_sub by done. rewrite land_sign by lia.
    rewrite (proj2 (N.ltb_lt _ _)) by (unfold SIGN, u64_MAX in *; lia). cbn [negb].
    rewrite u64_not_sub by lia. lia.
Qed.

(** *** Elements *)

Lemma depth_split levels items :
  (foldr Nat.max 0 (elem_depth <$> items) <= levels)%nat ∧ Forall (λ x, (elem_depth x <= levels)%nat) items
  ∨ (levels < foldr Nat.max 0 (elem_depth <$> items))%nat ∧ ∃ xs x zs, items = xs ++ x :: zs ∧
      Forall (λ x, (elem_depth x <= levels)%nat) xs ∧ (levels < elem_depth x)%nat.
Proof.
  induction items as [|x items IH]; [left; cbn; split; [lia|done]|]. rewrite fmap_cons. cbn [foldr].
  destruct (decide (levels < elem_depth x)%nat) as [D|D].
  - right. split; [lia|]. by exists [], x, items.
  - destruct IH as [[M F]|(M & xs & y & zs & -> & F & Dy)].
    + left. split; [lia|]. constructor; [lia|done].
    + right. split; [lia|]. exists (x :: xs), y, zs. split; [done|]. split; [|done]. constructor; [lia|done].
Qed.

Lemma decode_at_eq levels pre tag rest :
  decode_at levels (pre ++ tag :: rest) (length pre)
  = let buf := (pre ++ [tag]) ++ rest in
    let body := length (pre ++ [tag]) in
    if tag =? TAG_NULL then Ok (ENull, body)
    else if tag =? TAG_I64 then
      LET raw <- fixed8 buf body ;; Ok (EI64 (bits_i64 (N.lxor raw SIGN)), body + 8)%nat
    else if tag =? TAG_F64 then
      LET raw <- fixed8 buf body ;; Ok (EF64 (float_from_bits raw), body + 8)%nat
    else if tag =? TAG_FALSE then Ok (EBool false, body)
    else if tag =? TAG_TRUE then Ok (EBool true, body)
    else if tag =? TAG_STR then
      LET r <- unescape buf body ;;
      REFUSE negb (utf8_valid r.1) WITH TupleBadUtf8 (length pre) ;;
      Ok (EStr (bytes_string r.1), r.2)
    else if tag =? TAG_BYTES then LET r <- unescape buf body ;; Ok (EBytes r.1, r.2)
    else if tag =? TAG_ARRAY then
      match levels with
      | O => Err (TupleTooDeep (length pre))
      | S levels => decode_items (decode_at levels buf) buf (length buf) [] body
      end
    else Err (TupleBadTag tag (length pre)).
Proof.
  assert ((pre ++ tag :: rest) !! length pre = Some tag) as L
    by (rewrite lookup_app_r, Nat.sub_diag by lia; done).
  assert (length (pre ++ [tag]) = (length pre + 1)%nat) as -> by (by rewrite length_app).
  replace ((pre ++ [tag]) ++ rest) with (pre ++ tag :: rest) by (by rewrite <- (assoc_L (++))).
  destruct levels; cbn [decode_at]; by rewrite L.
Qed.

Lemma decode_array levels pre items post : Forall elem_ok items →
  Forall (λ x, elem_ok x → ∀ levels pre post,
    ((elem_depth x <= levels)%nat → decode_at levels (pre ++ tuple_encode x ++ post) (length pre)
       = Ok (elem_normal x, length pre + length (tuple_encode x))%nat)
    ∧ ((levels < elem_depth x)%nat → ∃ at_, decode_at levels (pre ++ tuple_encode x ++ post) (length pre)
         = Err (TupleTooDeep at_))) items →
  let buf := pre ++ (concat (tuple_encode <$> items) ++ [0; 0]) ++ post in
  ((foldr Nat.max 0 (elem_depth <$> items) <= levels)%nat →
     decode_items (decode_at levels buf) buf (length buf) [] (length pre)
     = Ok (EArray (elem_normal <$> items), length pre + length (concat (tuple_encode <$> items) ++ [0%N; 0%N]))%nat)
  ∧ ((levels < foldr Nat.max 0 (elem_depth <$> items))%nat →
     ∃ at_, decode_items (decode_at levels buf) buf (length buf) [] (length pre) = Err (TupleTooDeep at_)).
Proof.
  intros Ok IH buf.
  assert (∀ xs, xs ⊆ items → Forall (λ x, (elem_depth x <= levels)%nat) xs → decodes (decode_at levels buf) buf xs) as D.
  { intros xs Sub F. apply Forall_forall. intros x I p q E. rewrite Forall_forall in Ok, IH, F.
    specialize (IH x (Sub _ I) (Ok x (Sub _ I)) levels p q) as [H _]. rewrite E. apply H. by apply F. }
  assert (length items < length buf)%nat as Fuel.
  { unfold buf. rewrite !length_app. cbn. clear. induction items as [|x xs IH]; [cbn; lia|].
    rewrite fmap_cons. cbn [concat length]. rewrite length_app. pose proof (encode_pos x). lia. }
  assert (buf = pre ++ concat (tuple_encode <$> items) ++ [0; 0] ++ post) as Eb
    by (unfold buf; by rewrite <- (assoc_L (++) (concat _))).
  destruct (depth_split levels items) as [[M F]|(M & xs & x & zs & E & F & Dx)]; (split; [intros L|intros L]); try lia.
  - by rewrite (decode_items_done _ buf items _ [] pre post (D items ltac:(done) F) Eb Fuel).
  - subst items. assert (x ∈ xs ++ x :: zs) as Ix by set_solver. rewrite Forall_forall in Ok, IH.
    assert (buf = (pre ++ concat (tuple_encode <$> xs)) ++ tuple_encode x ++ concat (tuple_encode <$> zs) ++ [0; 0] ++ post) as Ebx.
    { rewrite Eb, fmap_app, fmap_cons, concat_app. cbn [concat]. by rewrite <- !(assoc_L (++)). }
    destruct (IH x Ix (Ok x Ix) levels (pre ++ concat (tuple_encode <$> xs)) (concat (tuple_encode <$> zs) ++ [0; 0] ++ post)) as [_ H].
    destruct (H Dx) as [at_ Ha]. rewrite <- Ebx in Ha. exists at_.
    eapply (decode_items_fails _ buf xs x zs _ [] pre _ _ (D xs ltac:(apply list_subseteq_app_l; done) F) Eb); [|exact Ha].
    rewrite length_app in Fuel. cbn in Fuel. lia.
Qed.

Lemma tuple_decode_encode e : elem_ok e → ∀ levels pre post,
  ((elem_depth e <= levels)%nat → decode_at levels (pre ++ tuple_encode e ++ post) (length pre)
     = Ok (elem_normal e, length pre + length (tuple_encode e))%nat)
  ∧ ((levels < elem_depth e)%nat → ∃ at_, decode_at levels (pre ++ tuple_encode e ++ post) (length pre) = Err (TupleTooDeep at_)).
Proof.
  induction e as [|v|v|[]|s|bs|items IH] using Elem_rect_list; intros O levels pre post;
    inversion_clear O; (split; [intros D|intros D; cbn in D; try lia]);
    cbn [tuple_encode app]; rewrite decode_at_eq; cbn -[fixed8 unescape decode_items be_bytes bits_i64 float_bits bytes_string string_bytes utf8_valid].
  - by rewrite length_app.
  - rewrite fixed8_at by (apply lxor_bound, i64_bits_bound). cbn.
    rewrite lxor_sign_back, bits_i64_bits by (done || apply i64_bits_bound).
    by rewrite length_app, length_be_bytes, <- Nat.add_assoc.
  - rewrite fixed8_at by (by apply float_bits_bound). cbn. rewrite float_from_bits_bits by done.
    by rewrite length_app, length_be_bytes, <- Nat.add_assoc.
  - by rewrite length_app.
  - by rewrite length_app.
  - rewrite unescape_at. cbn [fst snd]. rewrite H. cbn [negb]. rewrite bytes_string_bytes.
    by rewrite length_app, <- Nat.add_assoc.
  - rewrite unescape_at. cbn. by rewrite length_app, <- Nat.add_assoc.
  - cbn in D. destruct levels as [|levels]; [lia|].
    destruct (decode_array levels (pre ++ [TAG_ARRAY]) items post H IH) as [A _]. rewrite A by lia.
    by rewrite !length_app, <- !Nat.add_assoc.
  - destruct levels as [|levels]; [by eexists|].
    destruct (decode_array levels (pre ++ [TAG_ARRAY]) items post H IH) as [_ A]. apply A. lia.
Qed.

(** More fuel than the buffer is long changes nothing: every item takes a byte. *)
Lemma decode_items_fuel decode buf n m acc pos :
  (∀ p x q, decode p = Ok (x, q) → (p < q)%nat) → (length buf - pos < n)%nat → (n <= m)%nat →
  decode_items decode buf n acc pos = decode_items decode buf m acc pos.
Proof.
  intros Adv. revert m acc pos. induction n as [|n IH]; intros [|m] acc pos L Le; try lia. cbn [decode_items].
  destruct (buf !! pos) as [b|] eqn:Eb; [|done]. destruct (b =? 0); [done|].
  apply lookup_lt_Some in Eb. destruct (decode pos) as [[x q]|e] eqn:Ed; [|done].
  apply Adv in Ed. cbn [fst snd]. apply IH; lia.
Qed.

(** ** Successors *)

Definition bytes_le (u v : Bytes) : Prop := bytes_cmp u v ≠ Gt.
Definition bytes_lt (u v : Bytes) : Prop := bytes_cmp u v = Lt.

Lemma pop_successor_spec rev :
  (∃ k, rev = replicate k 0xFF ∧ pop_successor rev = [])
  ∨ ∃ k b r, rev = replicate k 0xFF ++ b :: r ∧ b ≠ 0xFF ∧ pop_successor rev = (b + 1) :: r.
Proof.
  induction rev as [|c rev IH]; [left; by exists 0%nat|]. cbn [pop_successor].
  destruct (N.eqb_spec c 0xFF) as [->|Nc]; cbn [negb].
  - destruct IH as [(k & -> & E)|(k & b & r & -> & Nb & E)]; rewrite E.
    + left. by exists (S k).
    + right. by exists (S k), b, r.
  - right. by exists 0%nat, c, rev.
Qed.

Lemma successor_spec p :
  (∃ k, p = replicate k 0xFF ∧ successor p = [])
  ∨ ∃ q b k, p = q ++ b :: replicate k 0xFF ∧ b ≠ 0xFF ∧ successor p = q ++ [b + 1].
Proof.
  unfold successor. destruct (pop_successor_spec (reverse p)) as [(k & E & ->)|(k & b & r & E & Nb & ->)].
  - left. exists k. split; [|done]. by rewrite <- (reverse_involutive p), E, reverse_replicate.
  - right. exists (reverse r), b, k. split; [|split; [done|by rewrite reverse_cons]].
    by rewrite <- (reverse_involutive p), E, reverse_app, reverse_replicate, reverse_cons, <- (assoc_L (++)).
Qed.

Lemma bytes_le_cons b u c v : bytes_le (b :: u) (c :: v) ↔ b < c ∨ b = c ∧ bytes_le u v.
Proof.
  unfold bytes_le, bytes_cmp. cbn. destruct (N.compare_spec b c) as [->|L|L]; cbn.
  - split; [by right|]. intros [L|[_ H]]; [lia|done].
  - split; [by left|done].
  - split; [done|]. intros [L'|[-> _]]; lia.
Qed.
Lemma bytes_lt_cons b u c v : bytes_lt (b :: u) (c :: v) ↔ b < c ∨ b = c ∧ bytes_lt u v.
Proof.
  unfold bytes_lt, bytes_cmp. cbn. destruct (N.compare_spec b c) as [->|L|L]; cbn.
  - split; [by right|]. intros [L|[_ H]]; [lia|done].
  - split; [by left|done].
  - split; [done|]. intros [L'|[-> _]]; lia.
Qed.
Lemma bytes_le_nil u : bytes_le [] u.
Proof. by destruct u. Qed.
Lemma bytes_le_nil_r u : bytes_le u [] → u = [].
Proof. by destruct u. Qed.
Lemma bytes_lt_nil_r u : ¬ bytes_lt u [].
Proof. by destruct u. Qed.

Lemma bytes_le_app q u v : bytes_le (q ++ u) (q ++ v) ↔ bytes_le u v.
Proof. unfold bytes_le. by rewrite bytes_cmp_app. Qed.
Lemma bytes_lt_app q u v : bytes_lt (q ++ u) (q ++ v) ↔ bytes_lt u v.
Proof. unfold bytes_lt. by rewrite bytes_cmp_app. Qed.

Lemma all_ones_prefix k key : Forall (λ b, b < 256) key → bytes_le (replicate k 0xFF) key →
  replicate k 0xFF `prefix_of` key.
Proof.
  revert key. induction k as [|k IH]; intros key B L; [apply prefix_nil|]. cbn [replicate] in *.
  destruct key as [|c key]; [by apply bytes_le_nil_r in L|]. inversion_clear B as [|? ? Bc Bk].
  apply bytes_le_cons in L as [L|[<- L]]; [lia|]. by apply prefix_cons, IH.
Qed.

Lemma between_app q x y key : bytes_le (q ++ x) key → bytes_lt key (q ++ y) → ∃ r, key = q ++ r.
Proof.
  revert key. induction q as [|c q IH]; intros key L G; [by exists key|].
  destruct key as [|d key]; [by apply bytes_le_nil_r in L|]. cbn in L, G.
  apply bytes_le_cons in L as [L|[<- L]]; apply bytes_lt_cons in G as [G|[E G]]; try lia.
  destruct (IH key L G) as [r ->]. by exists r.
Qed.

(** The keys from [p] up to its successor are those that start with [p]. *)
Lemma prefix_between p key : Forall (λ b, b < 256) key →
  p `prefix_of` key ↔ bytes_le p key ∧ (successor p = [] ∨ bytes_lt key (successor p)).
Proof.
  intros B. destruct (successor_spec p) as [(k & -> & E)|(q & b & k & -> & Nb & E)]; rewrite E.
  - split.
    + intros [r ->]. split; [|by left]. rewrite <- (app_nil_r (replicate k _)) at 1.
      apply bytes_le_app, bytes_le_nil.
    + intros [L _]. by apply all_ones_prefix.
  - split.
    + intros [r ->]. split.
      * rewrite <- (app_nil_r (q ++ _)) at 1. apply bytes_le_app, bytes_le_nil.
      * right. rewrite <- (assoc_L (++)). apply bytes_lt_app, bytes_lt_cons. left. lia.
    + intros [L [?|G]]; [by destruct q|]. destruct (between_app _ _ _ _ L G) as [r ->].
      apply bytes_le_app in L. apply bytes_lt_app in G. apply prefix_app.
      destruct r as [|c r]; [by apply bytes_le_nil_r in L|].
      apply bytes_lt_cons in G as [G|[_ G]]; [|by apply bytes_lt_nil_r in G].
      apply bytes_le_cons in L as [L|[<- L]]; [lia|].
      apply prefix_cons, all_ones_prefix; [|done]. apply Forall_app in B as [_ B]. by inversion_clear B.
Qed.

(** ** The order of keys *)

(** [Ord for [u8]] *)
Definition bytes_leb (a b : Bytes) : bool := match bytes_cmp a b with Gt => false | _ => true end.
Definition bytes_ltb (a b : Bytes) : bool := match bytes_cmp a b with Lt => true | _ => false end.

Lemma bytes_leb_le a b : bytes_leb a b = true ↔ bytes_le a b.
Proof. unfold bytes_leb, bytes_le. by destruct (bytes_cmp a b). Qed.
Lemma bytes_ltb_lt a b : bytes_ltb a b = true ↔ bytes_lt a b.
Proof. unfold bytes_ltb, bytes_lt. by destruct (bytes_cmp a b). Qed.

Lemma bytes_le_refl a : bytes_le a a.
Proof. unfold bytes_le. by rewrite bytes_cmp_refl. Qed.
Lemma bytes_le_total a b : bytes_le a b ∨ bytes_le b a.
Proof. unfold bytes_le. rewrite (bytes_cmp_antisym a b). destruct (bytes_cmp a b); cbn; auto. Qed.
Lemma bytes_le_antisym a b : bytes_le a b → bytes_le b a → a = b.
Proof.
  unfold bytes_le. rewrite (bytes_cmp_antisym a b). intros H1 H2. apply bytes_cmp_eq.
  by destruct (bytes_cmp a b).
Qed.
Lemma bytes_le_trans a b c : bytes_le a b → bytes_le b c → bytes_le a c.
Proof.
  revert b c. induction a as [|x a IH]; intros b c L1 L2; [apply bytes_le_nil|].
  destruct b as [|y b]; [by apply bytes_le_nil_r in L1|].
  destruct c as [|z c]; [by apply bytes_le_nil_r in L2|].
  rewrite !bytes_le_cons in *. destruct L1 as [L1|[-> L1]], L2 as [L2|[-> L2]]; [left; lia|by left|by left|].
  right. split; [done|]. by eapply IH.
Qed.

Lemma bytes_lt_nge a b : bytes_lt a b ↔ ¬ bytes_le b a.
Proof.
  unfold bytes_lt, bytes_le. rewrite (bytes_cmp_antisym a b).
  destruct (bytes_cmp a b); cbn; intuition congruence.
Qed.
Lemma bytes_le_lt a b : bytes_le a b ↔ bytes_lt a b ∨ a = b.
Proof.
  unfold bytes_lt, bytes_le. rewrite <- bytes_cmp_eq. destruct (bytes_cmp a b); intuition congruence.
Qed.
Lemma bytes_lt_le_trans a b c : bytes_lt a b → bytes_le b c → bytes_lt a c.
Proof.
  rewrite !bytes_lt_nge. intros L1 L2 L3. apply L1. by eapply bytes_le_trans.
Qed.
Lemma bytes_le_lt_trans a b c : bytes_le a b → bytes_lt b c → bytes_lt a c.
Proof.
  rewrite !bytes_lt_nge. intros L1 L2 L3. apply L2. by eapply bytes_le_trans.
Qed.
Lemma bytes_lt_irrefl a : ¬ bytes_lt a a.
Proof. unfold bytes_lt. by rewrite bytes_cmp_refl. Qed.

(** The next key of [key] is [key ++ [0]]. *)
Lemma bytes_lt_next key k : bytes_lt k (key ++ [0]) ↔ bytes_le k key.
Proof.
  revert k. induction key as [|b key IH]; intros [|c k]; cbn [app].
  - split; [intros _; apply bytes_le_nil|done].
  - rewrite bytes_lt_cons. split; [intros [L|[_ L]]; [lia|by apply bytes_lt_nil_r in L]|intros L; by apply bytes_le_nil_r in L].
  - split; [intros _; apply bytes_le_nil|done].
  - by rewrite bytes_lt_cons, bytes_le_cons, IH.
Qed.
Lemma bytes_next_le key k : bytes_le (key ++ [0]) k ↔ bytes_lt key k.
Proof.
  split; intros L.
  - apply bytes_lt_nge. intros G. by apply bytes_lt_next, bytes_lt_nge in G.
  - destruct (bytes_le_total (key ++ [0]) k) as [|G]; [done|]. apply bytes_le_lt in G as [G| ->]; [|apply bytes_le_refl].
    apply bytes_lt_next in G. by apply bytes_lt_nge in L.
Qed.

#[export] Program Instance bytes_KeyOrd : KeyOrd (list N) := {| key_leb := bytes_leb |}.
Next Obligation. intros. cbn. rewrite !bytes_leb_le. apply bytes_le_total. Qed.
Next Obligation. intros ???. cbn. rewrite !bytes_leb_le. apply bytes_le_trans. Qed.
Next Obligation. intros ??. cbn. rewrite !bytes_leb_le. apply bytes_le_antisym. Qed.

(** [strip_prefix] of slices *)
Fixpoint bytes_strip (p s : Bytes) : option Bytes :=
  match p, s with
  | [], s => Some s
  | a :: p, b :: s => if a =? b then bytes_strip p s else None
  | _ :: _, [] => None
  end.

Lemma bytes_strip_app p s : bytes_strip p (p ++ s) = Some s.
Proof. induction p as [|b p IH]; [done|]. cbn. by rewrite N.eqb_refl. Qed.
