(* ===== verification/LiveKeys.v ===== *)
(** * The keys of a Live app (loams-live/src/keys.rs, ids.rs)

    Documents, index entries and the journal of an app have keys in one TiKV keyspace, compared as
    bytes.  An index entry is the tuple encoding of its values, then the creation time and the
    document id.  The ranges here are what scans read and what subscriptions depend on. *)

From Stdlib Require Import NArith ZArith Lia.
From stdpp Require Import prelude gmap strings numbers list.
From S2P Require Import Prelude.
From S2P Require Import BTree.
From S2P Require Import ByteCodec.
From S2P Require Import TikvTuple.

Open Scope N_scope.

(** ** Ids *)

Abbreviation TableId := N (only parsing).
Abbreviation IndexId := N (only parsing).

Definition BY_ID_INDEX : IndexId := 0.
Definition BY_CREATION_TIME_INDEX : IndexId := 1.
Definition FIRST_USER : N := 2.
Definition DOC_ID_BYTES : nat := 16.

Record DocId := {
  di_table : TableId;
  di_bytes : Bytes;
}.

#[export] Instance DocId_eq_dec : EqDecision DocId.
Proof. solve_decision. Defined.

(** ** Tags *)

Definition CATALOG : N := 0x01.
Definition DOCUMENT : N := 0x02.
Definition INDEX : N := 0x03.
Definition JOURNAL : N := 0x04.
Definition JOURNAL_HEAD : N := 0x00.
Definition JOURNAL_ENTRY : N := 0x01.
Definition JOURNAL_CHECKPOINT : N := 0x02.
Definition IDEMPOTENCY : N := 0x05.
Definition KIND_COUNTER : N := 0x00.
Definition KIND_TABLE_NAME : N := 0x01.
Definition KIND_TABLE : N := 0x02.
Definition KIND_SCHEMA : N := 0x04.
Definition KIND_APP : N := 0x05.

(** ** Ranges *)

Record KeyRange := {
  kr_lo : Bytes;
  kr_hi : Bytes;
}.

(** [KeyRange::contains] *)
Definition range_contains (r : KeyRange) (key : Bytes) : bool :=
  bytes_leb r.(kr_lo) key && (bool_decide (r.(kr_hi) = []) || bytes_ltb key r.(kr_hi)).

(** [KeyRange::is_empty] *)
Definition range_is_empty (r : KeyRange) : bool :=
  negb (bool_decide (r.(kr_hi) = [])) && bytes_leb r.(kr_hi) r.(kr_lo).

(** [prefix_range] *)
Definition prefix_range (prefix : Bytes) : KeyRange := {| kr_lo := prefix; kr_hi := successor prefix |}.

(** [key_after] *)
Definition key_after (key : Bytes) : Bytes := key ++ [0].

(** ** The key builder *)

Record AppKeys := { ak_prefix : Bytes }.

(** [AppKeys::dedicated] *)
Definition dedicated : AppKeys := {| ak_prefix := [] |}.

(** [AppKeys::with] *)
Definition key_with (app : AppKeys) (tag : N) : Bytes := app.(ak_prefix) ++ [tag].

Definition catalog_key (app : AppKeys) (kind : N) (name : Bytes) : Bytes :=
  key_with app CATALOG ++ [kind] ++ name.
Definition table_counter (app : AppKeys) : Bytes := catalog_key app KIND_COUNTER (string_bytes "table").
Definition table_name_key (app : AppKeys) (name : string) : Bytes :=
  catalog_key app KIND_TABLE_NAME (string_bytes name).
Definition table_key (app : AppKeys) (id : TableId) : Bytes := catalog_key app KIND_TABLE (be_bytes 4 id).
Definition schema_key (app : AppKeys) : Bytes := catalog_key app KIND_SCHEMA [].
Definition app_def_key (app : AppKeys) : Bytes := catalog_key app KIND_APP [].
Definition tables_range (app : AppKeys) : KeyRange := prefix_range (catalog_key app KIND_TABLE []).

(** [AppKeys::documents] *)
Definition documents_range (app : AppKeys) (table : TableId) : KeyRange :=
  prefix_range (key_with app DOCUMENT ++ be_bytes 4 table).

(** [AppKeys::document] *)
Definition document_key (app : AppKeys) (id : DocId) : Bytes :=
  (documents_range app id.(di_table)).(kr_lo) ++ id.(di_bytes).

(** [AppKeys::index_prefix] *)
Definition index_prefix (app : AppKeys) (table : TableId) (index : IndexId) : Bytes :=
  key_with app INDEX ++ be_bytes 4 table ++ be_bytes 4 index.

(** [AppKeys::table_indexes] *)
Definition table_indexes_range (app : AppKeys) (table : TableId) : KeyRange :=
  prefix_range (key_with app INDEX ++ be_bytes 4 table).

(** [AppKeys::index_entry] *)
Definition index_entry (app : AppKeys) (index : IndexId) (values : list Elem) (creation_ms : N)
    (id : DocId) : Bytes :=
  index_prefix app id.(di_table) index ++ concat (tuple_encode <$> values)
    ++ be_bytes 8 creation_ms ++ id.(di_bytes).

(** [AppKeys::journal_key] *)
Definition journal_key (app : AppKeys) (kind shard : N) : Bytes :=
  key_with app JOURNAL ++ [kind] ++ be_bytes 2 shard.
Definition journal_head_key (app : AppKeys) (shard : N) : Bytes := journal_key app JOURNAL_HEAD shard.
Definition journal_entry_key (app : AppKeys) (shard seq : N) : Bytes :=
  journal_key app JOURNAL_ENTRY shard ++ be_bytes 8 seq.
Definition journal_entries_range (app : AppKeys) (shard : N) : KeyRange :=
  prefix_range (journal_key app JOURNAL_ENTRY shard).

(** [AppKeys::seq_of_journal_entry] *)
Definition seq_of_journal_entry (app : AppKeys) (shard : N) (key : Bytes) : option N :=
  seq ← bytes_strip (journal_key app JOURNAL_ENTRY shard) key;
  if (length seq =? 8)%nat then Some (be_value seq) else None.

Definition journal_checkpoint_key (app : AppKeys) (shard : N) (consumer : string) : Bytes :=
  journal_key app JOURNAL_CHECKPOINT shard ++ string_bytes consumer.
Definition journal_checkpoints_range (app : AppKeys) (shard : N) : KeyRange :=
  prefix_range (journal_key app JOURNAL_CHECKPOINT shard).
Definition journal_range (app : AppKeys) : KeyRange := prefix_range (key_with app JOURNAL).
Definition idempotency_key (app : AppKeys) (hash : Bytes) : Bytes := key_with app IDEMPOTENCY ++ hash.
Definition idempotency_range (app : AppKeys) : KeyRange := prefix_range (key_with app IDEMPOTENCY).

(** [AppKeys::tables_from] *)
Definition tables_from (app : AppKeys) (first : TableId) : KeyRange :=
  {| kr_lo := key_with app INDEX ++ be_bytes 4 first; kr_hi := successor (key_with app INDEX) |}.

(** [AppKeys::doc_id_of_document] *)
Definition doc_id_of_document (app : AppKeys) (table : TableId) (key : Bytes) : option DocId :=
  bytes ← bytes_strip (documents_range app table).(kr_lo) key;
  if (length bytes =? DOC_ID_BYTES)%nat then Some {| di_table := table; di_bytes := bytes |} else None.

(** [AppKeys::doc_of_index_entry] *)
Definition doc_of_index_entry (app : AppKeys) (table : TableId) (key : Bytes) : option (DocId * N) :=
  let prefix_len := (length app.(ak_prefix) + 1 + 8)%nat in
  if (length key <? prefix_len + 8 + DOC_ID_BYTES)%nat
     || negb (bool_decide ((table_indexes_range app table).(kr_lo) `prefix_of` key))
  then None
  else
    let tail := drop (length key - 8 - DOC_ID_BYTES) key in
    Some ({| di_table := table; di_bytes := drop 8 tail |}, be_value (take 8 tail)).

(** ** What ranges hold *)

Lemma range_contains_spec r key :
  range_contains r key = true ↔ bytes_le r.(kr_lo) key ∧ (r.(kr_hi) = [] ∨ bytes_lt key r.(kr_hi)).
Proof.
  unfold range_contains. by rewrite andb_true_iff, bytes_leb_le, orb_true_iff, bool_decide_eq_true, bytes_ltb_lt.
Qed.

Lemma range_is_empty_spec r : range_is_empty r = true ↔ r.(kr_hi) ≠ [] ∧ bytes_le r.(kr_hi) r.(kr_lo).
Proof.
  unfold range_is_empty. by rewrite andb_true_iff, negb_true_iff, bool_decide_eq_false, bytes_leb_le.
Qed.

Lemma empty_range_contains r key : range_is_empty r = true → range_contains r key = false.
Proof.
  rewrite range_is_empty_spec. intros [Ne L]. apply not_true_iff_false. rewrite range_contains_spec.
  intros [Lk [?|Lt]]; [done|]. apply bytes_lt_nge in Lt. apply Lt. by eapply bytes_le_trans.
Qed.

(** A prefix range holds the keys that start with the prefix. *)
Lemma prefix_range_contains p key : Forall (λ b, b < 256) key →
  range_contains (prefix_range p) key = true ↔ p `prefix_of` key.
Proof. intros B. rewrite range_contains_spec. symmetry. by apply prefix_between. Qed.

(** [key_after key] is the next key. *)
Lemma key_after_lt key k : bytes_lt k (key_after key) ↔ bytes_le k key.
Proof. apply bytes_lt_next. Qed.

(** ** Keys read back *)

Record doc_id_ok (id : DocId) : Prop := {
  id_table : id.(di_table) <= u32_MAX;
  id_length : length id.(di_bytes) = DOC_ID_BYTES;
  id_bytes : Forall (λ b, b < 256) id.(di_bytes);
}.

Lemma document_reads_back app id : length id.(di_bytes) = DOC_ID_BYTES →
  doc_id_of_document app id.(di_table) (document_key app id) = Some id.
Proof.
  intros L. unfold doc_id_of_document, document_key. rewrite bytes_strip_app. cbn.
  rewrite L. by destruct id.
Qed.

Lemma index_entry_reads_back app index values ms id : length id.(di_bytes) = DOC_ID_BYTES → ms <= u64_MAX →
  doc_of_index_entry app id.(di_table) (index_entry app index values ms id) = Some (id, ms).
Proof.
  intros L B. unfold doc_of_index_entry, index_entry, index_prefix, table_indexes_range. cbn [kr_lo prefix_range].
  rewrite (proj2 (Nat.ltb_ge _ _)), bool_decide_eq_true_2; cbn [orb negb].
  - set (v := concat _). set (pre := (key_with app INDEX ++ be_bytes 4 id.(di_table) ++ be_bytes 4 index) ++ v).
    replace ((key_with app INDEX ++ _) ++ _) with (pre ++ be_bytes 8 ms ++ id.(di_bytes))
      by (unfold pre; by rewrite <- (assoc_L (++) _ v)).
    replace (length _ - 8 - DOC_ID_BYTES)%nat with (length pre)
      by (rewrite !length_app, length_be_bytes, L; lia).
    rewrite drop_app_length, take_app_length' by (by rewrite length_be_bytes).
    rewrite drop_app_length' by (by rewrite length_be_bytes).
    rewrite be_value_bytes by (unfold u64_MAX in B; change (256 ^ N.of_nat 8) with 18446744073709551616; lia).
    by destruct id.
  - eexists. rewrite <- !(assoc_L (++)). done.
  - unfold key_with. rewrite !length_app, !length_be_bytes, L. cbn. lia.
Qed.
