(* ===== verification/LiveReadSet.v ===== *)
(** * The index of subscription read sets (loams-live/src/readset.rs; ReadSet of txn.rs)

    The read sets of an app's subscriptions, so that a write finds the subscriptions it may change: a
    map of point keys and an interval tree of key ranges.  The tree is an AVL tree ordered by lower
    end, upper end and subscription, in which every node knows the largest upper end below it.
    [Leaf] is a [Link] of [None]; a function that takes a [Box<Node>] takes a link here and leaves
    [Leaf] alone.

    The tree keeps its order, its balance and its maxima under every insert and remove, holds
    exactly what was put in, and a stab finds exactly the ranges that hold the key.  So an index
    that was built by inserting and removing read sets answers as the read sets would
    ([index_ok]), and its own check finds nothing. *)

From Stdlib Require Import NArith ZArith Lia.
From stdpp Require Import prelude gmap strings numbers sorting list.
From S2P Require Import Prelude.
From S2P Require Import BTree.
From S2P Require Import ByteCodec.
From S2P Require Import TikvTuple.
From S2P Require Import LiveKeys.

Open Scope N_scope.

Abbreviation SubId := N (only parsing).

(** ** Read sets *)

(** [ReadSet]; a [BTreeSet] is a map to nothing. *)
Record ReadSet := {
  rs_points : gmap Bytes ();
  rs_ranges : list KeyRange;
}.

(** [ReadSet::covers] *)
Definition covers (rs : ReadSet) (key : Bytes) : bool :=
  contains_key key rs.(rs_points) || existsb (λ r, range_contains r key) rs.(rs_ranges).

(** ** The tree *)

Inductive Upper := UKey (k : Bytes) | Unbounded.

(** [Ord for Upper]: every key is below [Unbounded]. *)
Definition upper_cmp (a b : Upper) : comparison :=
  match a, b with
  | UKey a, UKey b => bytes_cmp a b
  | UKey _, Unbounded => Lt
  | Unbounded, UKey _ => Gt
  | Unbounded, Unbounded => Eq
  end.

(** [Upper::of] *)
Definition upper_of (r : KeyRange) : Upper := if bool_decide (r.(kr_hi) = []) then Unbounded else UKey r.(kr_hi).

(** [Upper::above] *)
Definition upper_above (u : Upper) (key : Bytes) : bool :=
  match u with UKey hi => bytes_ltb key hi | Unbounded => true end.

(** [Link]: [Option<Box<Node>>] *)
Inductive TreeLink :=
  | Leaf
  | Node (lo : Bytes) (hi : Upper) (id : SubId) (max : Upper) (height : N) (l r : TreeLink).

(** [Node::cmp_key], of the key triples *)
Definition cmp_key (lo : Bytes) (hi : Upper) (id : SubId) (lo' : Bytes) (hi' : Upper) (id' : SubId) : comparison :=
  then_cmp (bytes_cmp lo lo') (then_cmp (upper_cmp hi hi') (id ?= id')).

(** [height] *)
Definition height (t : TreeLink) : N := match t with Leaf => 0 | Node _ _ _ _ h _ _ => h end.

(** [if child.max > max { max = child.max }] *)
Definition raise_max (m : Upper) (child : TreeLink) : Upper :=
  match child with
  | Leaf => m
  | Node _ _ _ cm _ _ _ => match upper_cmp cm m with Gt => cm | _ => m end
  end.

(** [update] *)
Definition update (t : TreeLink) : TreeLink :=
  match t with
  | Leaf => Leaf
  | Node lo hi id _ _ l r =>
      Node lo hi id (raise_max (raise_max hi l) r) (1 + N.max (height l) (height r)) l r
  end.

(** [rotate_right] *)
Definition rotate_right (t : TreeLink) : TreeLink :=
  match t with
  | Node lo hi id m h (Node lo' hi' id' m' h' l' r') r =>
      update (Node lo' hi' id' m' h' l' (update (Node lo hi id m h r' r)))
  | t => t
  end.

(** [rotate_left] *)
Definition rotate_left (t : TreeLink) : TreeLink :=
  match t with
  | Node lo hi id m h l (Node lo' hi' id' m' h' l' r') =>
      update (Node lo' hi' id' m' h' (update (Node lo hi id m h l l')) r')
  | t => t
  end.

(** The children of a node, [None] for a [Leaf]. *)
Definition left_of (t : TreeLink) : TreeLink := match t with Leaf => Leaf | Node _ _ _ _ _ l _ => l end.
Definition right_of (t : TreeLink) : TreeLink := match t with Leaf => Leaf | Node _ _ _ _ _ _ r => r end.

(** [balance] *)
Definition balance (t : TreeLink) : TreeLink :=
  match update t with
  | Leaf => Leaf
  | Node lo hi id m h l r as t =>
      if height r + 1 <? height l then
        let l := if height (left_of l) <? height (right_of l) then rotate_left l else l in
        rotate_right (Node lo hi id m h l r)
      else if height l + 1 <? height r then
        let r := if height (right_of r) <? height (left_of r) then rotate_right r else r in
        rotate_left (Node lo hi id m h l r)
      else t
  end.

(** The node [ReadSetIndex::insert] makes. *)
Definition new_node (lo : Bytes) (hi : Upper) (id : SubId) : TreeLink := Node lo hi id hi 1 Leaf Leaf.

(** [insert], of a new node with these fields *)
Fixpoint tree_insert (t : TreeLink) (lo : Bytes) (hi : Upper) (id : SubId) : TreeLink :=
  match t with
  | Leaf => new_node lo hi id
  | Node lo' hi' id' m h l r =>
      match cmp_key lo' hi' id' lo hi id with
      | Gt => balance (Node lo' hi' id' m h (tree_insert l lo hi id) r)
      | Lt => balance (Node lo' hi' id' m h l (tree_insert r lo hi id))
      | Eq => t
      end
  end.

(** [take_min]: the smallest node, without its children, and the rest *)
Fixpoint take_min (t : TreeLink) : TreeLink * TreeLink :=
  match t with
  | Leaf => (Leaf, Leaf)
  | Node lo hi id m h Leaf r => (Node lo hi id m h Leaf Leaf, r)
  | Node lo hi id m h l r => let '(min, rest) := take_min l in (min, balance (Node lo hi id m h rest r))
  end.

(** [min.left = Some(left); min.right = right] *)
Definition set_children (t l r : TreeLink) : TreeLink :=
  match t with Leaf => Leaf | Node lo hi id m h _ _ => Node lo hi id m h l r end.

(** [remove] *)
Fixpoint tree_remove (t : TreeLink) (lo : Bytes) (hi : Upper) (id : SubId) : TreeLink * bool :=
  match t with
  | Leaf => (Leaf, false)
  | Node lo' hi' id' m h l r =>
      match cmp_key lo' hi' id' lo hi id with
      | Gt => let '(l, found) := tree_remove l lo hi id in (balance (Node lo' hi' id' m h l r), found)
      | Lt => let '(r, found) := tree_remove r lo hi id in (balance (Node lo' hi' id' m h l r), found)
      | Eq =>
          match l, r with
          | Leaf, Leaf => (Leaf, true)
          | Node _ _ _ _ _ _ _, Leaf => (l, true)
          | Leaf, Node _ _ _ _ _ _ _ => (r, true)
          | Node _ _ _ _ _ _ _, Node _ _ _ _ _ _ _ =>
              let '(min, rest) := take_min r in (balance (set_children min l rest), true)
          end
      end
  end.

(** [stab] *)
Fixpoint tree_stab (t : TreeLink) (key : Bytes) (out : gset SubId) : gset SubId :=
  match t with
  | Leaf => out
  | Node lo hi id m _ l r =>
      if negb (upper_above m key) then out
      else
        let out := tree_stab l key out in
        if bytes_ltb key lo then out
        else
          let out := if upper_above hi key then {[ id ]} ∪ out else out in
          tree_stab r key out
  end.

(** ** The index *)

Record Entry := {
  en_points : list Bytes;
  en_ranges : list (Bytes * Upper);
}.

Record ReadSetIndex := {
  ri_app : AppKeys;
  ri_points : gmap Bytes (gset SubId);
  ri_tree : TreeLink;
  ri_ranges : N;
  ri_entries : gmap SubId Entry;
}.

(** [ReadSetIndex::new] *)
Definition index_new (app : AppKeys) : ReadSetIndex :=
  {| ri_app := app; ri_points := ∅; ri_tree := Leaf; ri_ranges := 0; ri_entries := ∅ |}.

(** Taking the points of an entry out, in [remove]. *)
Fixpoint remove_points (points : gmap Bytes (gset SubId)) (id : SubId) (keys : list Bytes)
  : gmap Bytes (gset SubId) :=
  match keys with
  | [] => points
  | key :: keys =>
      let points :=
        match points !! key with
        | Some ids =>
            let ids := ids ∖ {[ id ]} in
            if bool_decide (ids = ∅) then delete key points else <[key := ids]> points
        | None => points
        end in
      remove_points points id keys
  end.

(** Taking the ranges of an entry out, in [remove]. *)
Fixpoint remove_ranges (t : TreeLink) (count : N) (id : SubId) (ranges : list (Bytes * Upper)) : TreeLink * N :=
  match ranges with
  | [] => (t, count)
  | (lo, hi) :: ranges =>
      let '(t, found) := tree_remove t lo hi id in
      remove_ranges t (if found then count - 1 else count) id ranges
  end.

(** [ReadSetIndex::remove] *)
Definition index_remove (idx : ReadSetIndex) (id : SubId) : ReadSetIndex :=
  match idx.(ri_entries) !! id with
  | None => idx
  | Some entry =>
      let '(t, count) := remove_ranges idx.(ri_tree) idx.(ri_ranges) id entry.(en_ranges) in
      {| ri_app := idx.(ri_app);
         ri_points := remove_points idx.(ri_points) id entry.(en_points);
         ri_tree := t; ri_ranges := count; ri_entries := delete id idx.(ri_entries) |}
  end.

(** [Ord for (Vec<u8>, Upper)] *)
Definition range_cmp (a b : Bytes * Upper) : comparison := then_cmp (bytes_cmp a.1 b.1) (upper_cmp a.2 b.2).
Definition range_leb (a b : Bytes * Upper) : bool := match range_cmp a b with Gt => false | _ => true end.

#[export] Instance Upper_eq_dec : EqDecision Upper.
Proof. solve_decision. Defined.

(** [Vec::dedup] *)
Fixpoint dedup (l : list (Bytes * Upper)) : list (Bytes * Upper) :=
  match l with
  | a :: (b :: _) as l => if bool_decide (a = b) then dedup l else a :: dedup l
  | l => l
  end.

(** The ranges [insert] stores: not empty, sorted, each once. *)
Definition stored_ranges (rs : ReadSet) : list (Bytes * Upper) :=
  dedup (sort_by range_leb
    ((λ r, (r.(kr_lo), upper_of r)) <$> filter (λ r, range_is_empty r = false) rs.(rs_ranges))).

Definition insert_points (points : gmap Bytes (gset SubId)) (id : SubId) (keys : list Bytes)
  : gmap Bytes (gset SubId) :=
  foldl (λ points key, <[key := {[ id ]} ∪ default ∅ (points !! key)]> points) points keys.
Definition insert_ranges (t : TreeLink) (id : SubId) (ranges : list (Bytes * Upper)) : TreeLink :=
  foldl (λ t r, tree_insert t r.1 r.2 id) t ranges.

(** [ReadSetIndex::insert] *)
Definition index_insert (idx : ReadSetIndex) (id : SubId) (rs : ReadSet) : ReadSetIndex :=
  let idx := index_remove idx id in
  let keys := btree_keys rs.(rs_points) in
  let ranges := stored_ranges rs in
  {| ri_app := idx.(ri_app);
     ri_points := insert_points idx.(ri_points) id keys;
     ri_tree := insert_ranges idx.(ri_tree) id ranges;
     ri_ranges := idx.(ri_ranges) + len ranges;
     ri_entries := <[id := {| en_points := keys; en_ranges := ranges |}]> idx.(ri_entries) |}.

(** [ReadSetIndex::stab_key] *)
Definition stab_key (idx : ReadSetIndex) (key : Bytes) (out : gset SubId) : gset SubId :=
  let out := match idx.(ri_points) !! key with Some ids => out ∪ ids | None => out end in
  tree_stab idx.(ri_tree) key out.

(** [pb::WriteKind] and the write record of the journal, [pb::WriteRecord]. *)
Inductive WriteKind := WRITE_KIND_INSERT | WRITE_KIND_REPLACE | WRITE_KIND_DELETE.

Record WriteRecord := {
  wr_table_id : N;
  wr_doc_id : Bytes;
  wr_kind : WriteKind;
  wr_removed : list Bytes;
  wr_added : list Bytes;
}.

(** [ReadSetIndex::stab] *)
Definition index_stab (idx : ReadSetIndex) (w : WriteRecord) (out : gset SubId) : gset SubId :=
  let out :=
    if (length w.(wr_doc_id) =? DOC_ID_BYTES)%nat
    then stab_key idx (document_key idx.(ri_app) {| di_table := w.(wr_table_id); di_bytes := w.(wr_doc_id) |}) out
    else out in
  foldl (λ out key, stab_key idx key out) out (w.(wr_removed) ++ w.(wr_added)).

(** [walk] of [check_invariants]: the height and the largest upper end of a subtree, with the key
    before it and the nodes counted so far. *)
Fixpoint walk (t : TreeLink) (prev : option (Bytes * Upper * SubId)) (count : N)
  : option (Bytes * Upper * SubId) * N * Result (N * option Upper) string :=
  match t with
  | Leaf => (prev, count, Ok (0, None))
  | Node lo hi id m h l r =>
      let '(prev, count, res) := walk l prev count in
      TRY lres <- res IN (prev, count) ;;
      BAIL match prev with
           | Some (plo, phi, pid) => match cmp_key plo phi pid lo hi id with Lt => false | _ => true end
           | None => false
           end WITH "the tree is out of order"%string IN (prev, count) ;;
      let '(prev, count, res) := walk r (Some (lo, hi, id)) (count + 1) in
      TRY rres <- res IN (prev, count) ;;
      BAIL (1 <? N.max lres.1 rres.1 - N.min lres.1 rres.1) WITH "unbalanced: heights {lh} and {rh}"%string IN (prev, count) ;;
      BAIL negb (h =? 1 + N.max lres.1 rres.1) WITH "a stale height"%string IN (prev, count) ;;
      let higher (a : Upper) (b : option Upper) :=
        match b with Some b => match upper_cmp b a with Gt => b | _ => a end | None => a end in
      let max := higher (higher hi lres.2) rres.2 in
      BAIL negb (bool_decide (max = m)) WITH "a stale subtree maximum"%string IN (prev, count) ;;
      (prev, count, Ok (h, Some max))
  end.

(** [ReadSetIndex::check_invariants] *)
Definition check_index_invariants (idx : ReadSetIndex) : Result () string :=
  let '(_, count, res) := walk idx.(ri_tree) None 0 in
  LET _ <- res ;;
  REFUSE negb (count =? idx.(ri_ranges)) WITH "{count} nodes, {} counted"%string ;;
  Ok ().

(** ** Comparisons that are total orders *)

Record cmp_ok {A} (cmp : A → A → comparison) : Prop := {
  cmp_eq : ∀ a b, cmp a b = Eq ↔ a = b;
  cmp_opp : ∀ a b, cmp b a = CompOpp (cmp a b);
  cmp_lt_trans : ∀ a b c, cmp a b = Lt → cmp b c = Lt → cmp a c = Lt;
}.

Lemma N_cmp_ok : cmp_ok N.compare.
Proof.
  split; [apply N.compare_eq_iff|intros; apply N.compare_antisym|].
  intros a b c. rewrite !N.compare_lt_iff. lia.
Qed.

Lemma bytes_cmp_ok : cmp_ok bytes_cmp.
Proof.
  split; [apply bytes_cmp_eq|intros; apply bytes_cmp_antisym|].
  intros a b c L1 L2. apply (bytes_lt_le_trans a b c L1), bytes_le_lt. by left.
Qed.

Lemma upper_cmp_ok : cmp_ok upper_cmp.
Proof.
  destruct bytes_cmp_ok as [E O T]. split.
  - intros [a|] [b|]; cbn; try done. rewrite E. split; [by intros ->|by intros [= ->]].
  - intros [a|] [b|]; cbn; auto.
  - intros [a|] [b|] [c|]; cbn; try done. apply T.
Qed.

Definition pair_cmp {A B} (c : A → A → comparison) (d : B → B → comparison) (x y : A * B) : comparison :=
  then_cmp (c x.1 y.1) (d x.2 y.2).

Lemma pair_cmp_ok {A B} (c : A → A → comparison) (d : B → B → comparison) :
  cmp_ok c → cmp_ok d → cmp_ok (pair_cmp c d).
Proof.
  intros [Ec Oc Tc] [Ed Od Td]. unfold pair_cmp. split.
  - intros [a b] [a' b']. cbn. specialize (Ec a a'). specialize (Ed b b').
    destruct (c a a'); cbn; [|split; [done|intros [= -> ->]; by apply Ec]..].
    rewrite Ed. split; [intros ->; f_equal; by apply Ec|by intros [= -> ->]].
  - intros [a b] [a' b']. cbn. rewrite (Oc a a'), (Od b b'). by destruct (c a a').
  - intros [a b] [a' b'] [a'' b'']. cbn. destruct (c a a') eqn:E1, (c a' a'') eqn:E2; cbn; try done.
    + apply Ec in E1 as ->. rewrite E2. cbn. apply Td.
    + apply Ec in E1 as ->. by rewrite E2.
    + apply Ec in E2 as <-. by rewrite E1.
    + by rewrite (Tc _ _ _ E1 E2).
Qed.

Lemma range_cmp_ok : cmp_ok range_cmp.
Proof. apply (pair_cmp_ok bytes_cmp upper_cmp); [apply bytes_cmp_ok|apply upper_cmp_ok]. Qed.

(** ** The keys of the tree *)

Abbreviation Key := (Bytes * Upper * N)%type (only parsing).

Definition key3_cmp (a b : Key) : comparison := cmp_key a.1.1 a.1.2 a.2 b.1.1 b.1.2 b.2.
Definition klt (a b : Key) : Prop := key3_cmp a b = Lt.

Lemma key3_cmp_ok : cmp_ok key3_cmp.
Proof.
  destruct (pair_cmp_ok range_cmp N.compare range_cmp_ok N_cmp_ok) as [E O T].
  assert (∀ a b, key3_cmp a b = pair_cmp range_cmp N.compare a b) as R.
  { intros a b. unfold key3_cmp, cmp_key, pair_cmp, range_cmp. by destruct (bytes_cmp a.1.1 b.1.1). }
  split; intros; rewrite ?R in *; [apply E|apply O|eauto].
Qed.

#[export] Instance klt_trans : Transitive klt.
Proof. intros a b c. apply (cmp_lt_trans _ key3_cmp_ok). Qed.
Lemma klt_irrefl a : ¬ klt a a.
Proof. unfold klt. intros L. by rewrite (proj2 (cmp_eq _ key3_cmp_ok a a) eq_refl) in L. Qed.

(** The three outcomes of a comparison. *)
Lemma key3_cases a b :
  key3_cmp a b = Eq ∧ a = b ∨ key3_cmp a b = Lt ∧ klt a b ∨ key3_cmp a b = Gt ∧ klt b a.
Proof.
  destruct key3_cmp_ok as [E O _]. destruct (key3_cmp a b) eqn:C.
  - left. split; [done|]. by apply E.
  - right; left. done.
  - right; right. split; [done|]. unfold klt. by rewrite (O a b), C.
Qed.

(** ** Trees *)

Fixpoint elements (t : TreeLink) : list Key :=
  match t with
  | Leaf => []
  | Node lo hi id _ _ l r => elements l ++ (lo, hi, id) :: elements r
  end.

(** The heights and maxima are those of the subtrees. *)
Fixpoint tree_ok (t : TreeLink) : Prop :=
  match t with
  | Leaf => True
  | Node _ hi _ m h l r =>
      tree_ok l ∧ tree_ok r ∧ m = raise_max (raise_max hi l) r ∧ h = 1 + N.max (height l) (height r)
      ∧ height l <= height r + 1 ∧ height r <= height l + 1
  end.

Definition sorted (t : TreeLink) : Prop := StronglySorted klt (elements t).

Lemma tree_ok_node lo hi id l r : tree_ok l → tree_ok r → height l <= height r + 1 → height r <= height l + 1 →
  ∀ m h, tree_ok (update (Node lo hi id m h l r)).
Proof. intros. by repeat split. Qed.

Lemma height_update lo hi id m h l r : height (update (Node lo hi id m h l r)) = 1 + N.max (height l) (height r).
Proof. done. Qed.
Lemma elements_update t : elements (update t) = elements t.
Proof. by destruct t. Qed.

Lemma elements_rotate_right t : elements (rotate_right t) = elements t.
Proof. destruct t as [|lo hi id m h [|lo' hi' id' m' h' l' r'] r]; [done|done|]. cbn. by rewrite <- (assoc_L (++)). Qed.
Lemma elements_rotate_left t : elements (rotate_left t) = elements t.
Proof. destruct t as [|lo hi id m h l [|lo' hi' id' m' h' l' r']]; [done|done|]. cbn. by rewrite <- (assoc_L (++)). Qed.

Lemma elements_balance lo hi id m h l r :
  elements (balance (Node lo hi id m h l r)) = elements l ++ (lo, hi, id) :: elements r.
Proof.
  unfold balance. cbn [update]. destruct (_ <? height l).
  - rewrite elements_rotate_right. cbn [elements]. destruct (_ <? _); [by rewrite elements_rotate_left|done].
  - destruct (_ <? height r); [|done].
    rewrite elements_rotate_left. cbn [elements]. destruct (_ <? _); [by rewrite elements_rotate_right|done].
Qed.

(** What [balance] does to the heights: the result is as high as the node was, or one less where it
    had to rotate. *)
Definition balanced_height (l r t : TreeLink) : Prop :=
  height t <= 1 + N.max (height l) (height r) ∧ N.max (height l) (height r) <= height t
  ∧ (height l <= height r + 1 → height r <= height l + 1 → height t = 1 + N.max (height l) (height r)).

Ltac heights := cbn [rotate_right rotate_left update height tree_ok left_of right_of] in *; unfold balanced_height in *;
  cbn [height] in *; repeat match goal with H : _ ∧ _ |- _ => destruct H end; subst; repeat split; try done; try lia.

Lemma balance_left lo hi id m h l r : tree_ok l → tree_ok r → height l = height r + 2 →
  let l' := if height (left_of l) <? height (right_of l) then rotate_left l else l in
  let t := rotate_right (Node lo hi id m h l' r) in
  tree_ok t ∧ balanced_height l r t.
Proof.
  intros Ol Or E. destruct l as [|lo1 hi1 id1 m1 h1 ll lr]; [cbn in E; lia|].
  cbn [left_of right_of]. destruct (N.ltb_spec (height ll) (height lr)) as [L|L].
  - destruct lr as [|lo2 hi2 id2 m2 h2 l2 r2]; [cbn in L; lia|]. heights.
  - heights.
Qed.

Lemma balance_right lo hi id m h l r : tree_ok l → tree_ok r → height r = height l + 2 →
  let r' := if height (right_of r) <? height (left_of r) then rotate_right r else r in
  let t := rotate_left (Node lo hi id m h l r') in
  tree_ok t ∧ balanced_height l r t.
Proof.
  intros Ol Or E. destruct r as [|lo1 hi1 id1 m1 h1 rl rr]; [cbn in E; lia|].
  cbn [left_of right_of]. destruct (N.ltb_spec (height rr) (height rl)) as [L|L].
  - destruct rl as [|lo2 hi2 id2 m2 h2 l2 r2]; [cbn in L; lia|]. heights.
  - heights.
Qed.

Lemma balance_ok lo hi id m h l r : tree_ok l → tree_ok r → height l <= height r + 2 → height r <= height l + 2 →
  let t := balance (Node lo hi id m h l r) in tree_ok t ∧ balanced_height l r t.
Proof.
  intros Ol Or Hl Hr. unfold balance. cbn [update].
  destruct (N.ltb_spec (height r + 1) (height l)) as [L|L]; [by apply balance_left; [..|lia]|].
  destruct (N.ltb_spec (height l + 1) (height r)) as [L'|L']; [by apply balance_right; [..|lia]|].
  heights.
Qed.

(** ** Insert and remove *)

Lemma sorted_parts l k r :
  StronglySorted klt (l ++ k :: r) ↔
  (∀ a, a ∈ l → klt a k) ∧ (∀ b, b ∈ r → klt k b) ∧ StronglySorted klt l ∧ StronglySorted klt r.
Proof.
  rewrite StronglySorted_app, StronglySorted_cons, Forall_forall. split.
  - intros (C & Sl & Fr & Sr). repeat split; try done. intros a Ia. apply C; [done|left].
  - intros (Cl & Cr & Sl & Sr). repeat split; try done. intros a b Ia Ib. apply elem_of_cons in Ib as [->|Ib]; [by apply Cl|].
    etransitivity; [by apply Cl|by apply Cr].
Qed.

Lemma insert_spec t lo hi id : tree_ok t → sorted t → (lo, hi, id) ∉ elements t →
  let t' := tree_insert t lo hi id in
  tree_ok t' ∧ sorted t' ∧ elements t' ≡ₚ (lo, hi, id) :: elements t
  ∧ height t <= height t' ∧ height t' <= height t + 1.
Proof.
  unfold sorted. induction t as [|lo' hi' id' m h l IHl r IHr]; intros O S N.
  - cbn. repeat split; try done; try lia. repeat constructor.
  - cbn [elements] in S, N. apply sorted_parts in S as (Cl & Cr & Sl & Sr). apply not_elem_of_app in N as [Nl N].
    apply not_elem_of_cons in N as [Nk Nr]. destruct O as (Ol & Or & Em & Eh & Hl & Hr).
    cbn [tree_insert]. change (cmp_key lo' hi' id' lo hi id) with (key3_cmp (lo', hi', id') (lo, hi, id)).
    destruct (key3_cases (lo', hi', id') (lo, hi, id)) as [[_ E]|[[-> L]|[-> L]]]; [done| |].
    + destruct (IHr Or Sr Nr) as (O' & S' & P & H1 & H2).
      destruct (balance_ok lo' hi' id' m h l (tree_insert r lo hi id)) as [B1 B2]; [done|done|lia|lia|].
      rewrite elements_balance. split; [done|]. split; [|split].
      * apply sorted_parts. repeat split; try done. intros b Ib. rewrite P in Ib.
        apply elem_of_cons in Ib as [->|Ib]; [done|by apply Cr].
      * rewrite P. cbn [elements]. etransitivity; [|symmetry; apply Permutation_middle].
        apply Permutation_app_head, perm_swap.
      * unfold balanced_height in B2. cbn [height]. lia.
    + destruct (IHl Ol Sl Nl) as (O' & S' & P & H1 & H2).
      destruct (balance_ok lo' hi' id' m h (tree_insert l lo hi id) r) as [B1 B2]; [done|done|lia|lia|].
      rewrite elements_balance. split; [done|]. split; [|split].
      * apply sorted_parts. repeat split; try done. intros b Ib. rewrite P in Ib.
        apply elem_of_cons in Ib as [->|Ib]; [done|by apply Cl].
      * by rewrite P.
      * unfold balanced_height in B2. cbn [height]. lia.
Qed.

Lemma take_min_spec t : t ≠ Leaf → tree_ok t →
  let '(min, rest) := take_min t in
  ∃ lo hi id m h, min = Node lo hi id m h Leaf Leaf ∧ elements t = (lo, hi, id) :: elements rest
    ∧ tree_ok rest ∧ height rest <= height t ∧ height t <= height rest + 1.
Proof.
  induction t as [|lo hi id m h l IHl r IHr]; [done|]. intros _ (Ol & Or & Em & Eh & Hl & Hr).
  destruct l as [|lo' hi' id' m' h' l' r'].
  - cbn. eexists _, _, _, _, _. split; [done|]. cbn in *. repeat split; try done; lia.
  - cbn [take_min]. fold take_min. specialize (IHl ltac:(done) Ol).
    revert IHl. set (l := Node lo' hi' id' m' h' l' r') in *.
    change (match l' with Leaf => _ | _ => _ end) with (take_min l).
    destruct (take_min l) as [min rest] eqn:E. intros (a & b & c & d & e & -> & El & Orest & H1 & H2).
    eexists _, _, _, _, _. split; [done|].
    destruct (balance_ok lo hi id m h rest r) as [B1 B2]; [done|done|lia|lia|].
    rewrite elements_balance. cbn [elements]. rewrite El. split; [done|]. split; [done|].
    unfold balanced_height in B2. cbn [height]. lia.
Qed.

(** Removing the root: the smallest node of the right subtree takes its place. *)
Lemma remove_root lo hi id l r :
  tree_ok l → tree_ok r → height l <= height r + 1 → height r <= height l + 1 →
  ∀ h, h = 1 + N.max (height l) (height r) →
  StronglySorted klt (elements l ++ (lo, hi, id) :: elements r) →
  let '(t', found) := match l, r with
          | Leaf, Leaf => (Leaf, true)
          | Node _ _ _ _ _ _ _, Leaf => (l, true)
          | Leaf, Node _ _ _ _ _ _ _ => (r, true)
          | Node _ _ _ _ _ _ _, Node _ _ _ _ _ _ _ =>
              let '(min, rest) := take_min r in (balance (set_children min l rest), true)
          end in
  tree_ok t' ∧ StronglySorted klt (elements t') ∧ height t' <= h ∧ h <= height t' + 1
  ∧ if found : bool then elements l ++ (lo, hi, id) :: elements r ≡ₚ (lo, hi, id) :: elements t' else False.
Proof.
  intros Ol Or Hl Hr h -> S. pose proof S as S0. apply sorted_parts in S as (Cl & Cr & Sl & Sr).
  destruct l as [|lo1 hi1 id1 m1 h1 l1 r1], r as [|lo2 hi2 id2 m2 h2 l2 r2].
  - cbn [height elements]. repeat split; try done; lia.
  - cbn [height elements] in *. repeat split; try done; try apply Or; lia.
  - cbn [height elements] in *. repeat split; try done; try apply Ol; try lia.
    by rewrite <- Permutation_middle, app_nil_r.
  - set (l := Node lo1 hi1 id1 m1 h1 l1 r1) in *. set (r := Node lo2 hi2 id2 m2 h2 l2 r2) in *.
    assert (r ≠ Leaf) as Nr by done. pose proof (take_min_spec r Nr Or) as M.
    destruct (take_min r) as [min rest]. destruct M as (a & b & c & d & e & -> & E & Orest & H1 & H2).
    cbn [set_children]. destruct (balance_ok a b c d e l rest) as [B1 B2]; [done|done|lia|lia|].
    rewrite elements_balance, <- E. unfold balanced_height in B2.
    split; [done|]. split; [|split; [lia|split; [lia|]]].
    + apply StronglySorted_app. split; [|done]. intros x y Ix Iy. etransitivity; [by apply Cl|by apply Cr].
    + symmetry. apply Permutation_middle.
Qed.

Lemma remove_spec t lo hi id : tree_ok t → sorted t →
  let '(t', found) := tree_remove t lo hi id in
  tree_ok t' ∧ sorted t' ∧ height t' <= height t ∧ height t <= height t' + 1
  ∧ if found then elements t ≡ₚ (lo, hi, id) :: elements t'
    else elements t' = elements t ∧ (lo, hi, id) ∉ elements t.
Proof.
  unfold sorted. induction t as [|lo' hi' id' m h l IHl r IHr]; intros O S.
  - cbn. repeat split; try done; try lia. apply not_elem_of_nil.
  - cbn [elements] in S. pose proof S as S0. apply sorted_parts in S as (Cl & Cr & Sl & Sr).
    destruct O as (Ol & Or & Em & Eh & Hl & Hr).
    cbn [tree_remove]. change (cmp_key lo' hi' id' lo hi id) with (key3_cmp (lo', hi', id') (lo, hi, id)).
    destruct (key3_cases (lo', hi', id') (lo, hi, id)) as [[-> [= -> -> ->]]|[[-> L]|[-> L]]].
    + pose proof (remove_root lo hi id l r Ol Or Hl Hr h Eh S0) as R. revert R.
      match goal with |- (let '(_, _) := ?x in _) → _ => destruct x as [t' [|]] end; [done|].
      by intros (_ & _ & _ & _ & []).
    + specialize (IHr Or Sr). destruct (tree_remove r lo hi id) as [r' found]. destruct IHr as (O' & S' & H1 & H2 & F).
      destruct (balance_ok lo' hi' id' m h l r') as [B1 B2]; [done|done|lia|lia|].
      rewrite elements_balance. split; [done|]. split; [|split; [|split]].
      * apply sorted_parts. repeat split; try done. intros b Ib. apply Cr. destruct found.
        { rewrite F. by right. } { destruct F as [<- _]. done. }
      * unfold balanced_height in B2. cbn [height]. lia.
      * unfold balanced_height in B2. cbn [height]. lia.
      * destruct found; cbn [elements].
        { rewrite F. etransitivity; [|symmetry; apply Permutation_middle]. apply Permutation_app_head, perm_swap. }
        destruct F as [-> N]. split; [done|]. intros I. apply elem_of_app in I as [I|I].
        { apply Cl in I. exact (klt_irrefl _ (transitivity I L)). }
        apply elem_of_cons in I as [E|I]; [|done]. rewrite E in L. by apply klt_irrefl in L.
    + specialize (IHl Ol Sl). destruct (tree_remove l lo hi id) as [l' found]. destruct IHl as (O' & S' & H1 & H2 & F).
      destruct (balance_ok lo' hi' id' m h l' r) as [B1 B2]; [done|done|lia|lia|].
      rewrite elements_balance. split; [done|]. split; [|split; [|split]].
      * apply sorted_parts. repeat split; try done. intros b Ib. apply Cl. destruct found.
        { rewrite F. by right. } { destruct F as [<- _]. done. }
      * unfold balanced_height in B2. cbn [height]. lia.
      * unfold balanced_height in B2. cbn [height]. lia.
      * destruct found; cbn [elements]; [by rewrite F|].
        destruct F as [-> N]. split; [done|]. intros I. apply elem_of_app in I as [I|I]; [done|].
        apply elem_of_cons in I as [E|I]; [rewrite E in L; by apply klt_irrefl in L|].
        apply Cr in I. exact (klt_irrefl _ (transitivity I L)).
Qed.

(** ** Stabs *)

Definition upper_le (a b : Upper) : Prop := upper_cmp a b ≠ Gt.

Lemma upper_le_refl a : upper_le a a.
Proof. unfold upper_le. by rewrite (proj2 (cmp_eq _ upper_cmp_ok a a) eq_refl). Qed.
Lemma upper_above_le a b key : upper_le a b → upper_above a key = true → upper_above b key = true.
Proof.
  destruct a as [a|], b as [b|]; cbn; try done. rewrite !bytes_ltb_lt. intros L A. by eapply bytes_lt_le_trans.
Qed.

Lemma raise_max_le m t : upper_le m (raise_max m t).
Proof.
  destruct t as [|lo hi id cm h l r]; [apply upper_le_refl|]. unfold raise_max, upper_le.
  destruct (upper_cmp cm m) eqn:E; [apply upper_le_refl..|].
  by rewrite (cmp_opp _ upper_cmp_ok cm m), E.
Qed.
Lemma raise_max_child m lo hi id cm h l r : upper_le cm (raise_max m (Node lo hi id cm h l r)).
Proof.
  unfold raise_max, upper_le. destruct (upper_cmp cm m) eqn:E; [by rewrite E..|].
  by rewrite (proj2 (cmp_eq _ upper_cmp_ok cm cm) eq_refl).
Qed.

(** No range of the tree ends after the maximum. *)
Lemma max_bounds t : tree_ok t → ∀ k key, k ∈ elements t → upper_above k.1.2 key = true →
  match t with Leaf => True | Node _ _ _ m _ _ _ => upper_above m key = true end.
Proof.
  induction t as [|lo hi id m h l IHl r IHr]; [done|].
  intros (Ol & Or & -> & _) k key I A. cbn [elements] in I. apply elem_of_app in I as [I|I].
  - specialize (IHl Ol k key I A). destruct l; [by apply not_elem_of_nil in I|].
    eapply upper_above_le; [apply raise_max_le|]. by eapply upper_above_le; [apply raise_max_child|].
  - apply elem_of_cons in I as [->|I].
    + eapply upper_above_le; [apply raise_max_le|]. by eapply upper_above_le; [apply raise_max_le|].
    + specialize (IHr Or k key I A). destruct r; [by apply not_elem_of_nil in I|].
      by eapply upper_above_le; [apply raise_max_child|].
Qed.

(** The range of [k] holds [key]. *)
Definition holds (k : Key) (key : Bytes) : Prop := bytes_le k.1.1 key ∧ upper_above k.1.2 key = true.

Lemma klt_lo a b : klt a b → bytes_le a.1.1 b.1.1.
Proof. unfold klt, key3_cmp, cmp_key, bytes_le. by destruct (bytes_cmp a.1.1 b.1.1). Qed.

Lemma stab_spec t key out i : tree_ok t → sorted t →
  i ∈ tree_stab t key out ↔ i ∈ out ∨ Exists (λ k, k.2 = i ∧ holds k key) (elements t).
Proof.
  unfold sorted, holds. revert out. induction t as [|lo hi id m h l IHl r IHr]; intros out O S.
  - cbn. rewrite Exists_nil. tauto.
  - pose proof (max_bounds _ O) as Max. destruct O as (Ol & Or & _).
    cbn [elements] in *. apply sorted_parts in S as (Cl & Cr & Sl & Sr). cbn [tree_stab].
    destruct (upper_above m key) eqn:Am; cbn [negb].
    2:{ split; [by left|]. intros [?|E]; [done|]. apply Exists_exists in E as (k & I & _ & _ & A).
        specialize (Max k key I A). congruence. }
    rewrite Exists_app, Exists_cons. cbn [fst snd]. destruct (bytes_ltb key lo) eqn:Lk.
    + apply bytes_ltb_lt, bytes_lt_nge in Lk. rewrite IHl by done. split; [tauto|].
      intros [?|[?|[[_ [L _]]|E]]]; [tauto|tauto|done|]. exfalso.
      apply Exists_exists in E as (k & I & _ & L & _). apply Cr, klt_lo in I. apply Lk. by eapply bytes_le_trans.
    + rewrite IHr by done.
      assert (bytes_le lo key) as Ll.
      { destruct (bytes_le_total lo key) as [L|L]; [done|]. apply bytes_le_lt in L as [L|<-]; [|apply bytes_le_refl].
        apply bytes_ltb_lt in L. congruence. }
      destruct (upper_above hi key) eqn:Ah.
      * rewrite elem_of_union, elem_of_singleton, IHl by done. intuition.
      * rewrite IHl by done. intuition congruence.
Qed.

(** ** The tree's own check *)

Definition tree_max (t : TreeLink) : option Upper := match t with Leaf => None | Node _ _ _ m _ _ _ => Some m end.

Lemma higher_raise a t :
  match tree_max t with Some b => match upper_cmp b a with Gt => b | _ => a end | None => a end = raise_max a t.
Proof. by destruct t. Qed.

(** The last key seen after walking [l]. *)
Definition last_key (prev : option Key) (l : list Key) : option Key :=
  match last l with Some k => Some k | None => prev end.

Lemma last_key_app prev l k r : last_key prev (l ++ k :: r) = last_key (Some k) r.
Proof.
  unfold last_key. rewrite last_app, last_cons. by destruct (last r).
Qed.

Lemma walk_spec t : ∀ prev count, tree_ok t → sorted t →
  (∀ p, prev = Some p → ∀ k, k ∈ elements t → klt p k) →
  walk t prev count = (last_key prev (elements t), count + len (elements t), Ok (height t, tree_max t)).
Proof.
  unfold sorted. induction t as [|lo hi id m h l IHl r IHr]; intros prev count O S P.
  - cbn. by rewrite N.add_0_r.
  - destruct O as (Ol & Or & Em & Eh & Hl & Hr). cbn [elements] in *.
    apply sorted_parts in S as (Cl & Cr & Sl & Sr). cbn [walk].
    rewrite IHl; [|done|done|intros p -> k I; apply (P p eq_refl), elem_of_app; by left]. cbn [fst snd].
    set (bad := match last_key prev (elements l) with Some _ => _ | None => false end).
    assert (bad = false) as ->.
    { unfold bad, last_key. destruct (last (elements l)) as [p|] eqn:El.
      - apply last_Some_elem_of, Cl in El. destruct p as [[plo phi] pid]. unfold klt, key3_cmp in El. cbn in El. by rewrite El.
      - destruct prev as [[[plo phi] pid]|]; [|done]. specialize (P _ eq_refl (lo, hi, id)).
        unfold klt, key3_cmp in P. cbn in P. rewrite P; [done|]. apply elem_of_app. right. left. }
    rewrite IHr; [|done|done|intros p [= <-]; exact Cr]. cbn [fst snd].
    rewrite (proj2 (N.ltb_ge 1 _)) by lia. rewrite (proj2 (N.eqb_eq h _)) by done. cbn [negb].
    rewrite !higher_raise, <- Em, bool_decide_eq_true_2 by done. cbn [negb].
    rewrite last_key_app, len_app, len_cons. cbn [height tree_max]. f_equal. f_equal. lia.
Qed.

(** ** The ranges of a read set *)

Definition range_le (a b : Bytes * Upper) : Prop := range_leb a b = true.

Lemma range_le_lt a b : range_le a b ↔ range_cmp a b = Lt ∨ a = b.
Proof.
  unfold range_le, range_leb. rewrite <- (cmp_eq _ range_cmp_ok). destruct (range_cmp a b); intuition congruence.
Qed.

#[export] Instance range_le_trans : Transitive range_le.
Proof.
  intros a b c. rewrite !range_le_lt. intros [L1| ->] [L2| ->]; auto.
  left. exact (cmp_lt_trans _ range_cmp_ok _ _ _ L1 L2).
Qed.
#[export] Instance range_le_total : Total range_le.
Proof.
  intros a b. unfold range_le, range_leb. rewrite (cmp_opp _ range_cmp_ok a b).
  destruct (range_cmp a b); cbn; auto.
Qed.

Lemma dedup_cons a b l : dedup (a :: b :: l) = if bool_decide (a = b) then dedup (b :: l) else a :: dedup (b :: l).
Proof. done. Qed.

Lemma elem_of_dedup l x : x ∈ dedup l ↔ x ∈ l.
Proof.
  induction l as [|a [|b l] IH]; [done|done|]. rewrite dedup_cons. destruct (bool_decide_reflect (a = b)) as [->|_].
  - rewrite IH. rewrite !elem_of_cons. tauto.
  - by rewrite (elem_of_cons (dedup (b :: l))), IH, <- elem_of_cons.
Qed.

Lemma dedup_NoDup l : StronglySorted range_le l → NoDup (dedup l).
Proof.
  induction l as [|a [|b l] IH]; intros S; [constructor|apply NoDup_singleton|].
  apply StronglySorted_cons in S as [F S]. specialize (IH S). rewrite dedup_cons.
  destruct (bool_decide_reflect (a = b)) as [|Ne]; [done|]. apply NoDup_cons. split; [|done].
  rewrite elem_of_dedup. intros I. apply StronglySorted_cons in S as [Fb _].
  apply Forall_cons in F as [Lab _]. apply elem_of_cons in I as [?|I]; [done|].
  rewrite Forall_forall in Fb. specialize (Fb a I). apply range_le_lt in Lab as [Lab|?]; [|done].
  apply range_le_lt in Fb as [Lba|?]; [|by apply Ne].
  rewrite (cmp_opp _ range_cmp_ok a b), Lab in Lba. done.
Qed.

Lemma stored_ranges_NoDup rs : NoDup (stored_ranges rs).
Proof. apply dedup_NoDup. unfold sort_by. apply (StronglySorted_merge_sort range_le). Qed.

Lemma elem_of_stored rs r :
  r ∈ stored_ranges rs ↔ ∃ k, k ∈ rs.(rs_ranges) ∧ range_is_empty k = false ∧ r = (k.(kr_lo), upper_of k).
Proof.
  unfold stored_ranges, sort_by. rewrite elem_of_dedup, merge_sort_Permutation, list_elem_of_fmap.
  setoid_rewrite list_elem_of_filter. split; intros (k & H1 & H2); exists k; tauto.
Qed.

(** A key range holds what its lower end and its [Upper] hold. *)
Lemma range_contains_holds r key id :
  range_contains r key = true ↔ holds (r.(kr_lo), upper_of r, id) key.
Proof.
  rewrite range_contains_spec. unfold holds, upper_of. cbn. destruct (bool_decide_reflect (kr_hi r = [])) as [E|E].
  - intuition.
  - cbn. rewrite bytes_ltb_lt. intuition.
Qed.

Lemma covers_spec rs key id :
  covers rs key = true ↔ is_Some (rs.(rs_points) !! key) ∨ ∃ r, r ∈ stored_ranges rs ∧ holds (r, id) key.
Proof.
  unfold covers. rewrite orb_true_iff, contains_key_true, existsb_exists. apply or_iff_compat_l. split.
  - intros (r & I & C). exists (r.(kr_lo), upper_of r). split; [|by apply range_contains_holds].
    apply elem_of_stored. exists r. split; [by apply list_elem_of_In|]. split; [|done].
    destruct (range_is_empty r) eqn:E; [|done]. by rewrite empty_range_contains in C.
  - intros (r & I & Ho). apply elem_of_stored in I as (k & I & _ & ->). exists k. split; [by apply list_elem_of_In|].
    by eapply range_contains_holds.
Qed.

(** ** Many ranges *)

Definition with_id (id : SubId) (r : Bytes * Upper) : Key := (r, id).

Lemma insert_ranges_spec id ranges : ∀ t, tree_ok t → sorted t → NoDup ranges →
  (∀ r, r ∈ ranges → with_id id r ∉ elements t) →
  let t' := insert_ranges t id ranges in
  tree_ok t' ∧ sorted t' ∧ elements t' ≡ₚ (with_id id <$> ranges) ++ elements t.
Proof.
  induction ranges as [|[lo hi] ranges IH]; intros t O S ND D; [done|]. apply NoDup_cons in ND as [Nr ND].
  destruct (insert_spec t lo hi id O S (D (lo, hi) ltac:(left))) as (O' & S' & P & _).
  specialize (IH _ O' S' ND). destruct IH as (O2 & S2 & P2).
  - intros r I. rewrite P. intros J. apply elem_of_cons in J as [E|J]; [by injection E as ->|].
    apply (D r); [by right|done].
  - split; [exact O2|]. split; [exact S2|]. etransitivity; [exact P2|]. rewrite P. rewrite fmap_cons. cbn [app].
    symmetry. apply Permutation_middle.
Qed.

Lemma remove_ranges_spec id ranges : ∀ t count, tree_ok t → sorted t → NoDup ranges →
  (∀ r, r ∈ ranges → with_id id r ∈ elements t) →
  let '(t', count') := remove_ranges t count id ranges in
  tree_ok t' ∧ sorted t' ∧ elements t ≡ₚ (with_id id <$> ranges) ++ elements t' ∧ count' = count - len ranges.
Proof.
  induction ranges as [|[lo hi] ranges IH]; intros t count O S ND D.
  - cbn. repeat split; try done. by rewrite N.sub_0_r.
  - apply NoDup_cons in ND as [Nr ND]. cbn [remove_ranges]. pose proof (remove_spec t lo hi id O S) as R.
    destruct (tree_remove t lo hi id) as [t' found]. destruct R as (O' & S' & _ & _ & F). destruct found.
    2:{ destruct F as [_ N]. by destruct N; apply (D (lo, hi)); left. }
    specialize (IH t' (count - 1) O' S' ND). destruct (remove_ranges t' (count - 1) id ranges) as [t2 count2].
    destruct IH as (O2 & S2 & P2 & ->).
    + intros r I. assert (with_id id r ∈ elements t) as J by (apply D; by right).
      rewrite F in J. apply elem_of_cons in J as [E|J]; [|done]. injection E as ->. done.
    + repeat split; [done|done| |]; [by rewrite F, P2|]. rewrite len_cons. lia.
Qed.

Lemma sorted_NoDup t : sorted t → NoDup (elements t).
Proof.
  unfold sorted. induction 1 as [|k l S IH F]; constructor; [|done]. intros I.
  rewrite Forall_forall in F. by apply (klt_irrefl k), F.
Qed.

(** ** Many points *)

Lemma elem_of_btree_keys {A} (m : gmap Bytes A) k : k ∈ btree_keys m ↔ is_Some (m !! k).
Proof.
  unfold btree_keys. rewrite list_elem_of_fmap. split.
  - intros ([k' v] & -> & I). apply elem_of_btree_iter in I. by exists v.
  - intros [v L]. exists (k, v). split; [done|]. by apply elem_of_btree_iter.
Qed.

Abbreviation at_point points key := (default ∅ (points !! key)).

Lemma insert_points_spec id keys : ∀ points key i,
  i ∈ at_point (insert_points points id keys) key ↔ i ∈ at_point points key ∨ i = id ∧ key ∈ keys.
Proof.
  induction keys as [|k keys IH]; intros points key i; cbn [insert_points foldl].
  - rewrite elem_of_nil. tauto.
  - unfold insert_points in IH. rewrite IH, elem_of_cons. destruct (decide (key = k)) as [->|N].
    + rewrite lookup_insert_eq. cbn [default]. set_solver.
    + rewrite lookup_insert_ne by done. tauto.
Qed.

Lemma remove_points_spec id keys : ∀ points key i,
  i ∈ at_point (remove_points points id keys) key ↔ i ∈ at_point points key ∧ ¬ (i = id ∧ key ∈ keys).
Proof.
  induction keys as [|k keys IH]; intros points key i; cbn [remove_points].
  - rewrite elem_of_nil. tauto.
  - rewrite IH, elem_of_cons. destruct (points !! k) as [ids|] eqn:P.
    2:{ destruct (decide (key = k)) as [->|N]; [|tauto]. rewrite P. cbn. set_solver. }
    destruct (decide (key = k)) as [->|N].
    + rewrite P. cbn [default]. case_bool_decide as E; [rewrite lookup_delete_eq|rewrite lookup_insert_eq]; cbn; set_solver.
    + case_bool_decide; [rewrite lookup_delete_ne by done|rewrite lookup_insert_ne by done]; tauto.
Qed.

(** No point is kept with no subscription. *)
Definition points_full (points : gmap Bytes (gset SubId)) : Prop := map_Forall (λ _ ids, ids ≠ ∅) points.

Lemma insert_points_full id keys : ∀ points, points_full points → points_full (insert_points points id keys).
Proof.
  induction keys as [|k keys IH]; intros points F; [done|]. apply IH, map_Forall_insert_2; [set_solver|done].
Qed.

Lemma remove_points_full id keys : ∀ points, points_full points → points_full (remove_points points id keys).
Proof.
  induction keys as [|k keys IH]; intros points F; [done|]. cbn [remove_points]. apply IH.
  destruct (points !! k); [|done]. case_bool_decide; [by apply map_Forall_delete|by apply map_Forall_insert_2].
Qed.

(** ** The index and the read sets it holds *)

Definition entry_of (rs : ReadSet) : Entry :=
  {| en_points := btree_keys rs.(rs_points); en_ranges := stored_ranges rs |}.

(** The index [idx] holds the read sets [m]. *)
Record index_ok (idx : ReadSetIndex) (m : gmap SubId ReadSet) : Prop := {
  io_entries : idx.(ri_entries) = entry_of <$> m;
  io_tree : tree_ok idx.(ri_tree);
  io_sorted : sorted idx.(ri_tree);
  io_elements k : k ∈ elements idx.(ri_tree) ↔ ∃ rs, m !! k.2 = Some rs ∧ k.1 ∈ stored_ranges rs;
  io_points key i : i ∈ at_point idx.(ri_points) key ↔ ∃ rs, m !! i = Some rs ∧ is_Some (rs.(rs_points) !! key);
  io_full : points_full idx.(ri_points);
  io_ranges : idx.(ri_ranges) = len (elements idx.(ri_tree));
}.

Lemma index_new_ok app : index_ok (index_new app) ∅.
Proof.
  split; cbn; try done.
  - constructor.
  - intros k. rewrite elem_of_nil. split; [done|]. by intros (rs & [=] & _).
  - intros key i. rewrite lookup_empty. cbn. split; [set_solver|]. by intros (rs & [=] & _).
Qed.

Lemma index_remove_ok idx m id : index_ok idx m → index_ok (index_remove idx id) (delete id m).
Proof.
  intros [En Tr So El Po Fu Co]. unfold index_remove. rewrite En, lookup_fmap.
  destruct (m !! id) as [rs|] eqn:M; cbn.
  2:{ rewrite delete_id by done. by split. }
  pose proof (remove_ranges_spec id (stored_ranges rs) _ idx.(ri_ranges) Tr So (stored_ranges_NoDup rs)) as R.
  destruct (remove_ranges idx.(ri_tree) idx.(ri_ranges) id (stored_ranges rs)) as [t count].
  destruct R as (Tr' & So' & P & Ec).
  { intros r I. apply El. by exists rs. }
  split; cbn; try done.
  - by rewrite fmap_delete.
  - intros k. specialize (El k). rewrite P, elem_of_app in El. destruct (decide (k.2 = id)) as [E|N].
    + rewrite E, lookup_delete_eq. split; [|by intros (? & [=] & _)]. intros I. exfalso.
      assert (k ∈ with_id id <$> stored_ranges rs) as J.
      { destruct (proj1 El (or_intror I)) as (rs' & M' & J). rewrite E, M in M'. injection M' as <-.
        apply list_elem_of_fmap. exists k.1. split; [|done]. destruct k. cbn in E. by subst. }
      pose proof (sorted_NoDup _ So) as ND. rewrite P in ND. apply NoDup_app in ND as (_ & D & _). by apply (D k).
    + rewrite lookup_delete_ne by done. rewrite <- El. split; [by right|]. intros [J|J]; [|done].
      apply list_elem_of_fmap in J as (r & -> & _). done.
  - intros key i. rewrite remove_points_spec, Po. destruct (decide (i = id)) as [->|N].
    + rewrite lookup_delete_eq, M. split; [|by intros (? & [=] & _)]. intros [(rs' & [= <-] & S) C]. exfalso. apply C.
      split; [done|]. by apply elem_of_btree_keys.
    + rewrite lookup_delete_ne by done. tauto.
  - by apply remove_points_full.
  - apply Permutation_length in P. rewrite length_app, length_fmap in P. rewrite Ec, Co. unfold len. lia.
Qed.

Lemma index_insert_ok idx m id rs : index_ok idx m → index_ok (index_insert idx id rs) (<[id := rs]> m).
Proof.
  intros Ok. apply (index_remove_ok _ _ id) in Ok as [En Tr So El Po Fu Co].
  destruct (insert_ranges_spec id (stored_ranges rs) _ Tr So (stored_ranges_NoDup rs)) as (Tr' & So' & P).
  { intros r _ I. apply El in I as (rs' & M & _). cbn in M. by rewrite lookup_delete_eq in M. }
  unfold index_insert. split; cbn; try done.
  - by rewrite En, <- (insert_delete_eq m), fmap_insert.
  - intros k. rewrite P, elem_of_app, El, list_elem_of_fmap. destruct (decide (k.2 = id)) as [E|N].
    + rewrite E, lookup_delete_eq, lookup_insert_eq. split.
      * intros [(r & -> & I)|(? & [=] & _)]. by exists rs.
      * intros (rs' & [= <-] & I). left. exists k.1. split; [|done]. destruct k. cbn in E. by subst.
    + rewrite lookup_delete_ne, lookup_insert_ne by done. split; [|by right].
      intros [(r & -> & _)|?]; [by destruct N|done].
  - intros key i. rewrite insert_points_spec, Po, elem_of_btree_keys. destruct (decide (i = id)) as [->|N].
    + rewrite lookup_delete_eq, lookup_insert_eq. split.
      * intros [(? & [=] & _)|[_ S]]. by exists rs.
      * intros (rs' & [= <-] & S). by right.
    + rewrite lookup_delete_ne, lookup_insert_ne by done. tauto.
  - by apply insert_points_full.
  - apply Permutation_length in P. rewrite length_app, length_fmap in P. rewrite Co. unfold len. lia.
Qed.

(** ** What a write stabs *)

Lemma stab_key_ok idx m key out i : index_ok idx m →
  i ∈ stab_key idx key out ↔ i ∈ out ∨ ∃ rs, m !! i = Some rs ∧ covers rs key = true.
Proof.
  intros [_ Tr So El Po _ _]. unfold stab_key. rewrite (stab_spec _ _ _ _ Tr So), Exists_exists.
  assert (i ∈ match ri_points idx !! key with Some ids => out ∪ ids | None => out end
    ↔ i ∈ out ∨ i ∈ at_point idx.(ri_points) key) as ->.
  { destruct (ri_points idx !! key); cbn; set_solver. }
  rewrite Po. setoid_rewrite El. setoid_rewrite (covers_spec _ _ i). split.
  - intros [[?|(rs & M & S)]|([r j] & (rs & M & I) & E & Ho)]; [by left|right; eauto|]. cbn in *. subst j.
    right. exists rs. split; [done|]. right. by exists r.
  - intros [?|(rs & M & [S|(r & I & Ho)])]; [by do 2 left|left; right; eauto|].
    right. exists (r, i). cbn. eauto.
Qed.

(** The keys a write record touches: its document's and those of its index entries. *)
Definition touched_keys (app : AppKeys) (w : WriteRecord) : list Bytes :=
  (if (length w.(wr_doc_id) =? DOC_ID_BYTES)%nat
   then [document_key app {| di_table := w.(wr_table_id); di_bytes := w.(wr_doc_id) |}] else [])
  ++ w.(wr_removed) ++ w.(wr_added).

(** The subscriptions of [m] that cover one of [keys]. *)
Definition hits (m : gmap SubId ReadSet) (keys : list Bytes) (i : SubId) : Prop :=
  ∃ rs, m !! i = Some rs ∧ existsb (covers rs) keys = true.

Lemma hits_nil m i : ¬ hits m [] i.
Proof. by intros (rs & _ & [=]). Qed.
Lemma hits_cons m key keys i : hits m (key :: keys) i ↔ hits m [key] i ∨ hits m keys i.
Proof.
  unfold hits. cbn [existsb]. split.
  - intros (rs & M & H). apply orb_true_iff in H as [H|H]; [left|right]; exists rs; by rewrite ?H.
  - intros [(rs & M & H)|(rs & M & H)]; exists rs; (split; [done|]); apply orb_true_iff; [left|by right].
    by rewrite orb_false_r in H.
Qed.

Lemma stab_hits idx m key out i : index_ok idx m → i ∈ stab_key idx key out ↔ i ∈ out ∨ hits m [key] i.
Proof.
  intros Ok. rewrite (stab_key_ok _ _ _ _ _ Ok). unfold hits. cbn [existsb]. by setoid_rewrite orb_false_r.
Qed.

Lemma index_stab_ok idx m w out i : index_ok idx m →
  i ∈ index_stab idx w out ↔ i ∈ out ∨ hits m (touched_keys idx.(ri_app) w) i.
Proof.
  intros Ok. assert (∀ keys out, i ∈ foldl (λ out key, stab_key idx key out) out keys ↔ i ∈ out ∨ hits m keys i) as F.
  { induction keys as [|key keys IH]; intros o; cbn [foldl].
    - pose proof (hits_nil m i). tauto.
    - rewrite IH, (stab_hits _ _ _ _ _ Ok), (hits_cons _ key keys). tauto. }
  unfold index_stab, touched_keys. set (b := (_ =? _)%nat). destruct b; [|by rewrite F].
  rewrite F, (stab_hits _ _ _ _ _ Ok). cbn [app]. rewrite (hits_cons _ (document_key _ _) (_ ++ _)). tauto.
Qed.

Lemma check_index_ok idx m : index_ok idx m → check_index_invariants idx = Ok ().
Proof.
  intros [_ Tr So _ _ _ Co]. unfold check_index_invariants. rewrite walk_spec by done. cbn.
  by rewrite Co, N.eqb_refl.
Qed.

(** ** Any run *)

Inductive IndexOp := OpInsert (id : SubId) (rs : ReadSet) | OpRemove (id : SubId).

Definition run_op (idx : ReadSetIndex) (op : IndexOp) : ReadSetIndex :=
  match op with OpInsert id rs => index_insert idx id rs | OpRemove id => index_remove idx id end.

(** The read sets the subscriptions hold. *)
Definition spec_op (m : gmap SubId ReadSet) (op : IndexOp) : gmap SubId ReadSet :=
  match op with OpInsert id rs => <[id := rs]> m | OpRemove id => delete id m end.

Lemma run_ops_ok ops : ∀ idx m, index_ok idx m → index_ok (foldl run_op idx ops) (foldl spec_op m ops).
Proof.
  induction ops as [|[id rs|id] ops IH]; intros idx m Ok; [done| |]; cbn [foldl run_op spec_op]; apply IH;
    [by apply index_insert_ok|by apply index_remove_ok].
Qed.

Lemma run_ops_app ops : ∀ idx, (foldl run_op idx ops).(ri_app) = idx.(ri_app).
Proof.
  induction ops as [|op ops IH]; intros idx; [done|]. cbn [foldl]. rewrite IH.
  assert (∀ id, (index_remove idx id).(ri_app) = idx.(ri_app)) as R.
  { intros id. unfold index_remove. destruct (_ !! id); [|done]. by destruct (remove_ranges _ _ _ _). }
  by destruct op; cbn [run_op index_insert ri_app].
Qed.
