(* ===== verification/TikvTxn.v ===== *)
(** * Transactions and snapshots under a root (loams-tikv/src/txn.rs; TxnError of runner.rs)

    A [Txn] and a [Snap] read and write keys relative to the root of their handle.  Scans and batch
    reads go out in pages, which are halved when a response is too large and grow again after a
    success.  The TiKV client is a parameter ([Client]); its documented behaviour is [ClientOk]: it
    reads a map of keys to values, its own writes included, or fails.  What a transaction reads is
    then a function of the part of that map under the root ([rel_view]): a paged scan returns the
    first keys of its range, however the pages were cut.

    A loop whose every turn lowers a measure is [iterate] of its body. *)

From Stdlib Require Import NArith ZArith Lia.
From stdpp Require Import prelude gmap strings numbers sorting list.
From S2P Require Import Prelude.
From S2P Require Import BTree.
From S2P Require Import ByteCodec.
From S2P Require Import TikvTuple.

Open Scope N_scope.

(** ** Loops *)

Section iterate.
Context {S R : Type} (step : S → S + R) (measure : S → N) (inv : S → Prop).
Context (lowers : ∀ s s', inv s → step s = inl s' → inv s' ∧ measure s' < measure s).

Fixpoint iterate_acc (s : S) (a : Acc (λ x y, measure x < measure y) s) (i : inv s) {struct a} : R :=
  match step s as o return step s = o → R with
  | inl s' => λ E, let next := lowers s s' i E in iterate_acc s' (Acc_inv a (proj2 next)) (proj1 next)
  | inr r => λ _, r
  end eq_refl.

Lemma measure_wf : well_founded (λ x y : S, measure x < measure y).
Proof. apply (wf_projected N.lt measure); [done|apply N.lt_wf_0]. Qed.

(** The loop from a state that meets its invariant. *)
Definition iterate (s : S) (i : inv s) : R := iterate_acc s (Acc_intro_generator 20 measure_wf s) i.

Lemma match_sum (o : S + R) (f : ∀ s', o = inl s' → R) (Q : R → Prop) :
  (∀ s' E, Q (f s' E)) → (∀ r, o = inr r → Q r) →
  Q (match o as o' return o = o' → R with inl s' => f s' | inr r => λ _, r end eq_refl).
Proof. destruct o; auto. Qed.

Lemma iterate_acc_spec (P : S → R → Prop) :
  (∀ s s' r, inv s → step s = inl s' → P s' r → P s r) → (∀ s r, inv s → step s = inr r → P s r) →
  ∀ s a i, P s (iterate_acc s a i).
Proof.
  intros Next Stop. fix IH 2. intros s a i. destruct a as [a]. cbn.
  apply (match_sum (step s) (λ s' E, iterate_acc s' (a s' (proj2 (lowers s s' i E))) (proj1 (lowers s s' i E)))).
  - intros s' E. eapply Next; [done|done|]. apply IH.
  - intros r E. by apply Stop.
Qed.

(** What holds of the loop's result holds if it does of its last turn and of one more turn. *)
Lemma iterate_spec (P : S → R → Prop) :
  (∀ s s' r, inv s → step s = inl s' → P s' r → P s r) → (∀ s r, inv s → step s = inr r → P s r) →
  ∀ s i, P s (iterate s i).
Proof. intros Next Stop s i. apply (iterate_acc_spec P Next Stop). Qed.
End iterate.

(** ** Errors *)

(** [Class] *)
Inductive ErrClass := CFatal | CNotApplied | CTsoClosed | CTooLarge | CConflict | CAlreadyExists | CUndetermined.

Inductive TxnError :=
  | TConflict
  | TNotApplied (text : string)
  | TUndetermined (token : option Bytes)
  | TAlreadyExists (text : string)
  | TFatal (text : string)
  | TDeadline.

Definition Pair : Type := Bytes * Bytes.
Definition MAX_VALUE_BYTES : N := 2 * 1024 * 1024.
Definition PAGE_KEYS : N := 256.
Definition BELOW_SAFE_POINT : string := "read below the GC safe point".

(** ** The client *)

(** A transaction or a snapshot of the client.  A call may change the client's own state and may
    fail; [cl_expired] says that the clock has passed [refuse_reads_after] and [cl_covered] that a
    barrier of the handle covers the snapshot. *)
Class Client (C E : Type) := {
  cl_class : E → ErrClass;
  cl_describe : E → Bytes → string;
  cl_expired : C → bool;
  cl_covered : C → bool;
  cl_start_ms : C → N;
  cl_get : C → Bytes → C * Result (option Bytes) E;
  cl_scan : C → Bytes → option Bytes → N → bool → C * Result (list Pair) E;
  cl_batch_get : C → list Bytes → C * Result (list Pair) E;
  cl_put : C → Bytes → Bytes → C * Result () E;
  cl_insert : C → Bytes → Bytes → C * Result () E;
  cl_delete : C → Bytes → C * Result () E;
  cl_lock_keys : C → list Bytes → C * Result () E;
}.

Section txn.
Context {C E : Type} `{!Client C E}.

(** [Tikv::txn_error] *)
Definition txn_error (root : Bytes) (e : E) : TxnError :=
  let text := cl_describe e root in
  match cl_class e with
  | CConflict => TConflict
  | CUndetermined => TUndetermined None
  | CAlreadyExists => TAlreadyExists text
  | CNotApplied | CTsoClosed => TNotApplied text
  | CTooLarge | CFatal => TFatal text
  end.

Definition is_tso_closed (e : E) : bool := match cl_class e with CTsoClosed => true | _ => false end.

Record Txn := {
  tx_inner : C;
  tx_root : Bytes;
  tx_tso_closed : bool;
}.

Record Snap := {
  sn_inner : C;
  sn_root : Bytes;
}.

(** [Tikv::key] *)
Definition full_key (root suffix : Bytes) : Bytes := root ++ suffix.

(** [Tikv::full_range] *)
Definition full_range (root start : Bytes) (end_ : option Bytes) : Bytes * option Bytes :=
  (full_key root start,
   match end_ with
   | Some end_ => Some (full_key root end_)
   | None => let succ := successor root in if bool_decide (succ = []) then None else Some succ
   end).

(** [Tikv::relative] *)
Definition relative (root key : Bytes) : Bytes := drop (Nat.min (length root) (length key)) key.
Definition relative_pair (root : Bytes) (p : Pair) : Pair := (relative root p.1, p.2).

(** [read_error] and [one_key_too_large] *)
Definition read_error (root : Bytes) (e : E) : TxnError * bool := (txn_error root e, is_tso_closed e).
Definition one_key_too_large : TxnError * bool :=
  (TFatal "a single key's response exceeds the gRPC decoding limit", false).

(** ** Pages *)

Record ScanState := {
  sc_inner : C;
  sc_lo : Bytes;
  sc_hi : option Bytes;
  sc_page : N;
  sc_out : list Pair;
}.

(** One turn of the loop of [paged_scan]. *)
Definition scan_step (root : Bytes) (limit : N) (reverse : bool) (s : ScanState)
  : ScanState + C * Result (list Pair) (TxnError * bool) :=
  if negb (len s.(sc_out) <? limit)
     || match s.(sc_hi) with Some hi => bytes_leb hi s.(sc_lo) | None => false end
  then inr (s.(sc_inner), Ok (take (N.to_nat limit) s.(sc_out)))
  else
    let left := N.min (limit - len s.(sc_out)) u32_MAX in
    let want := N.min s.(sc_page) left in
    match cl_scan s.(sc_inner) s.(sc_lo) s.(sc_hi) want reverse with
    | (c, Ok pairs) =>
        let out := s.(sc_out) ++ (relative_pair root <$> pairs) in
        match last pairs with
        | None => inr (c, Ok (take (N.to_nat limit) out))
        | Some last =>
            if len pairs <? want then inr (c, Ok (take (N.to_nat limit) out))
            else inl {| sc_inner := c;
                        sc_lo := if reverse then s.(sc_lo) else last.1 ++ [0];
                        sc_hi := if reverse then Some last.1 else s.(sc_hi);
                        sc_page := N.min (N.min (s.(sc_page) * 2) u32_MAX) PAGE_KEYS;
                        sc_out := out |}
        end
    | (c, Err e) =>
        match cl_class e with
        | CTooLarge =>
            if want <=? 1 then inr (c, Err one_key_too_large)
            else inl {| sc_inner := c; sc_lo := s.(sc_lo); sc_hi := s.(sc_hi);
                        sc_page := N.max (want / 2) 1; sc_out := s.(sc_out) |}
        | _ => inr (c, Err (read_error root e))
        end
    end.

(** A page is at most [PAGE_KEYS] after a success, and smaller after a refusal. *)
Definition scan_measure (limit : N) (s : ScanState) : N := 512 * (limit - len s.(sc_out)) + s.(sc_page).

Lemma half_lt want page : 1 < want → want <= page → N.max (want / 2) 1 < page.
Proof. intros L Le. pose proof (N.div_lt want 2). lia. Qed.

Lemma scan_step_lowers root limit reverse s s' :
  0 < s.(sc_page) → scan_step root limit reverse s = inl s' →
  0 < s'.(sc_page) ∧ scan_measure limit s' < scan_measure limit s.
Proof.
  intros P. unfold scan_step. destruct (N.ltb_spec (len s.(sc_out)) limit) as [L|]; [|done]. cbn [negb orb].
  destruct (match s.(sc_hi) with Some _ => _ | None => _ end); [done|].
  set (want := N.min s.(sc_page) _). destruct (cl_scan _ _ _ _ _) as [c [pairs|e]].
  - destruct (last pairs) as [l|] eqn:El; [|done]. destruct (len pairs <? want); [done|].
    intros [= <-]. unfold scan_measure. cbn. rewrite len_app. unfold len at 2. rewrite length_fmap.
    destruct pairs as [|p pairs]; [done|]. cbn [length]. unfold PAGE_KEYS, u32_MAX. lia.
  - destruct (cl_class e); try done. destruct (N.leb_spec want 1) as [|W]; [done|]. intros [= <-].
    unfold scan_measure. cbn. pose proof (half_lt want s.(sc_page) W ltac:(unfold want; lia)). lia.
Qed.

(** [paged_scan] *)
Definition paged_scan (c : C) (root lo : Bytes) (hi : option Bytes) (limit : N) (reverse : bool)
  : C * Result (list Pair) (TxnError * bool) :=
  iterate (scan_step root limit reverse) (scan_measure limit) (λ s, 0 < s.(sc_page)) (scan_step_lowers root limit reverse)
    {| sc_inner := c; sc_lo := lo; sc_hi := hi; sc_page := PAGE_KEYS; sc_out := [] |} eq_refl.

Record BatchState := {
  bs_inner : C;
  bs_page : N;
  bs_at : N;
  bs_out : list Pair;
}.

(** [a.0.cmp(&b.0)] *)
Definition pair_leb (a b : Pair) : bool := bytes_leb a.1 b.1.

(** One turn of the loop of [paged_batch_get]. *)
Definition batch_step (root : Bytes) (keys : list Bytes) (s : BatchState)
  : BatchState + C * Result (list Pair) (TxnError * bool) :=
  if negb (s.(bs_at) <? len keys) then inr (s.(bs_inner), Ok (sort_by pair_leb s.(bs_out)))
  else
    let end_ := N.min (s.(bs_at) + s.(bs_page)) (len keys) in
    match cl_batch_get s.(bs_inner) (slice keys s.(bs_at) (end_ - s.(bs_at))) with
    | (c, Ok pairs) =>
        inl {| bs_inner := c; bs_page := N.min (s.(bs_page) * 2) PAGE_KEYS; bs_at := end_;
               bs_out := s.(bs_out) ++ (relative_pair root <$> pairs) |}
    | (c, Err e) =>
        match cl_class e with
        | CTooLarge =>
            let asked := end_ - s.(bs_at) in
            if asked <=? 1 then inr (c, Err one_key_too_large)
            else inl {| bs_inner := c; bs_page := N.max (asked / 2) 1; bs_at := s.(bs_at);
                        bs_out := s.(bs_out) |}
        | _ => inr (c, Err (read_error root e))
        end
    end.

Definition batch_measure (keys : list Bytes) (s : BatchState) : N := 512 * (len keys - s.(bs_at)) + s.(bs_page).

Lemma batch_step_lowers root keys s s' : 0 < s.(bs_page) → batch_step root keys s = inl s' →
  0 < s'.(bs_page) ∧ batch_measure keys s' < batch_measure keys s.
Proof.
  intros P. unfold batch_step, batch_measure. destruct (N.ltb_spec s.(bs_at) (len keys)) as [L|]; [|done]. cbn [negb].
  set (end_ := N.min _ _). assert (s.(bs_at) < end_ ∧ end_ - s.(bs_at) <= s.(bs_page)) as [Le Lp] by (unfold end_; lia).
  destruct (cl_batch_get _ _) as [c [pairs|e]].
  - intros [= <-]. cbn. unfold PAGE_KEYS. lia.
  - destruct (cl_class e); try done. destruct (N.leb_spec (end_ - s.(bs_at)) 1) as [|W]; [done|]. intros [= <-]. cbn.
    pose proof (half_lt _ _ W Lp). lia.
Qed.

(** [paged_batch_get] *)
Definition paged_batch_get (c : C) (root : Bytes) (keys : list Bytes) : C * Result (list Pair) (TxnError * bool) :=
  iterate (batch_step root keys) (batch_measure keys) (λ s, 0 < s.(bs_page)) (batch_step_lowers root keys)
    {| bs_inner := c; bs_page := PAGE_KEYS; bs_at := 0; bs_out := [] |} eq_refl.

(** ** Transactions *)

(** [Txn::map] *)
Definition txn_map {A} (t : Txn) (r : C * Result A E) : Txn * Result A TxnError :=
  match r with
  | (c, Ok a) => ({| tx_inner := c; tx_root := t.(tx_root); tx_tso_closed := t.(tx_tso_closed) |}, Ok a)
  | (c, Err e) =>
      ({| tx_inner := c; tx_root := t.(tx_root); tx_tso_closed := is_tso_closed e || t.(tx_tso_closed) |},
       Err (txn_error t.(tx_root) e))
  end.

(** [Txn::note] *)
Definition txn_note {A} (t : Txn) (r : C * Result A (TxnError * bool)) : Txn * Result A TxnError :=
  match r with
  | (c, Ok a) => ({| tx_inner := c; tx_root := t.(tx_root); tx_tso_closed := t.(tx_tso_closed) |}, Ok a)
  | (c, Err e) =>
      ({| tx_inner := c; tx_root := t.(tx_root); tx_tso_closed := t.(tx_tso_closed) || e.2 |}, Err e.1)
  end.

(** [Txn::check_window] *)
Definition txn_expired (t : Txn) : bool := cl_expired t.(tx_inner).

Definition txn_get (t : Txn) (key : Bytes) : Txn * Result (option Bytes) TxnError :=
  BAIL txn_expired t WITH TFatal BELOW_SAFE_POINT IN t ;;
  txn_map t (cl_get t.(tx_inner) (full_key t.(tx_root) key)).

Definition txn_batch_get (t : Txn) (keys : list Bytes) : Txn * Result (list Pair) TxnError :=
  BAIL txn_expired t WITH TFatal BELOW_SAFE_POINT IN t ;;
  txn_note t (paged_batch_get t.(tx_inner) t.(tx_root) (full_key t.(tx_root) <$> keys)).

(** [Txn::scan] and, with [reverse], [Txn::scan_reverse] *)
Definition txn_scan (t : Txn) (start : Bytes) (end_ : option Bytes) (limit : N) (reverse : bool)
  : Txn * Result (list Pair) TxnError :=
  BAIL txn_expired t WITH TFatal BELOW_SAFE_POINT IN t ;;
  let '(lo, hi) := full_range t.(tx_root) start end_ in
  txn_note t (paged_scan t.(tx_inner) t.(tx_root) lo hi limit reverse).

Definition txn_put (t : Txn) (key value : Bytes) : Txn * Result () TxnError :=
  BAIL MAX_VALUE_BYTES <? len value WITH TFatal "value over 2 MiB" IN t ;;
  txn_map t (cl_put t.(tx_inner) (full_key t.(tx_root) key) value).

Definition txn_insert (t : Txn) (key value : Bytes) : Txn * Result () TxnError :=
  BAIL MAX_VALUE_BYTES <? len value WITH TFatal "value over 2 MiB" IN t ;;
  txn_map t (cl_insert t.(tx_inner) (full_key t.(tx_root) key) value).

Definition txn_delete (t : Txn) (key : Bytes) : Txn * Result () TxnError :=
  txn_map t (cl_delete t.(tx_inner) (full_key t.(tx_root) key)).

Definition txn_lock_keys (t : Txn) (keys : list Bytes) : Txn * Result () TxnError :=
  txn_map t (cl_lock_keys t.(tx_inner) (full_key t.(tx_root) <$> keys)).

(** ** Snapshots *)

(** [Snap::check_window] *)
Definition snap_expired (s : Snap) : bool := cl_expired s.(sn_inner) && negb (cl_covered s.(sn_inner)).

(** The [map_err] of a snapshot's reads. *)
Definition snap_map {A F} (s : Snap) (f : F → TxnError) (r : C * Result A F) : Snap * Result A TxnError :=
  ({| sn_inner := r.1; sn_root := s.(sn_root) |}, map_err f r.2).

Definition snap_get (s : Snap) (key : Bytes) : Snap * Result (option Bytes) TxnError :=
  BAIL snap_expired s WITH TFatal BELOW_SAFE_POINT IN s ;;
  snap_map s (txn_error s.(sn_root)) (cl_get s.(sn_inner) (full_key s.(sn_root) key)).

Definition snap_batch_get (s : Snap) (keys : list Bytes) : Snap * Result (list Pair) TxnError :=
  BAIL snap_expired s WITH TFatal BELOW_SAFE_POINT IN s ;;
  snap_map s fst (paged_batch_get s.(sn_inner) s.(sn_root) (full_key s.(sn_root) <$> keys)).

(** [Snap::scan] and, with [reverse], [Snap::scan_reverse] *)
Definition snap_scan (s : Snap) (start : Bytes) (end_ : option Bytes) (limit : N) (reverse : bool)
  : Snap * Result (list Pair) TxnError :=
  BAIL snap_expired s WITH TFatal BELOW_SAFE_POINT IN s ;;
  let '(lo, hi) := full_range s.(sn_root) start end_ in
  snap_map s fst (paged_scan s.(sn_inner) s.(sn_root) lo hi limit reverse).

End txn.
Arguments Txn C : clear implicits.
Arguments Snap C : clear implicits.

(** ** What the client promises *)

(** Whether [lo <= key], and [key < hi] where there is an upper end. *)
Definition key_in (lo : Bytes) (hi : option Bytes) (key : Bytes) : bool :=
  bytes_leb lo key && match hi with Some hi => bytes_ltb key hi | None => true end.

(** The pairs of a range in the order of a scan. *)
Definition range_pairs (m : gmap Bytes Bytes) (lo : Bytes) (hi : option Bytes) (desc : bool) : list Pair :=
  let pairs := filter (λ p, key_in lo hi p.1 = true) (btree_iter m) in
  if desc then reverse pairs else pairs.

Definition scan_pairs (m : gmap Bytes Bytes) (lo : Bytes) (hi : option Bytes) (limit : N) (desc : bool) : list Pair :=
  take (N.to_nat limit) (range_pairs m lo hi desc).

(** The client reads the map [cl_view].  A call that fails leaves what is read as it was, or has
    ended the transaction.  An insert finds its key absent: the client or, at the latest, the commit
    refuses it otherwise, and with it the whole transaction. *)
Class ClientOk (C E : Type) `{!Client C E} := {
  cl_view : C → gmap Bytes Bytes;
  cl_view_bytes c k : is_Some (cl_view c !! k) → Forall (λ b, b < 256) k;
  cl_get_ok c k c' r : cl_get c k = (c', r) →
    cl_view c' = cl_view c ∧ cl_start_ms c' = cl_start_ms c ∧ ∀ v, r = Ok v → v = cl_view c !! k;
  cl_scan_ok c lo hi n rev c' r : cl_scan c lo hi n rev = (c', r) →
    cl_view c' = cl_view c ∧ cl_start_ms c' = cl_start_ms c
    ∧ ∀ ps, r = Ok ps → ps = scan_pairs (cl_view c) lo hi n rev;
  cl_batch_get_ok c ks c' r : cl_batch_get c ks = (c', r) →
    cl_view c' = cl_view c ∧ cl_start_ms c' = cl_start_ms c
    ∧ ∀ ps, r = Ok ps → ∀ k v, (k, v) ∈ ps ↔ k ∈ ks ∧ cl_view c !! k = Some v;
  cl_put_ok c k v c' : cl_put c k v = (c', Ok ()) →
    cl_view c' = <[k := v]> (cl_view c) ∧ cl_start_ms c' = cl_start_ms c;
  cl_insert_ok c k v c' : cl_insert c k v = (c', Ok ()) →
    cl_view c !! k = None ∧ cl_view c' = <[k := v]> (cl_view c) ∧ cl_start_ms c' = cl_start_ms c;
  cl_delete_ok c k c' : cl_delete c k = (c', Ok ()) →
    cl_view c' = delete k (cl_view c) ∧ cl_start_ms c' = cl_start_ms c;
  cl_lock_keys_ok c ks c' : cl_lock_keys c ks = (c', Ok ()) →
    cl_view c' = cl_view c ∧ cl_start_ms c' = cl_start_ms c;
}.

(** ** Ranges of a map *)

Lemma key_in_true lo hi key :
  key_in lo hi key = true ↔ bytes_le lo key ∧ ∀ h, hi = Some h → bytes_lt key h.
Proof.
  unfold key_in. rewrite andb_true_iff, bytes_leb_le. destruct hi as [h|].
  - rewrite bytes_ltb_lt. naive_solver.
  - naive_solver.
Qed.

Lemma key_lt_bytes (a b : Bytes) : key_lt a b ↔ bytes_lt a b.
Proof.
  unfold key_lt. cbn. rewrite bytes_leb_le, bytes_le_lt. split.
  - intros [[?|?] ?]; done.
  - intros L. split; [by left|]. intros ->. by apply bytes_lt_irrefl in L.
Qed.

(** Splitting an ordered list at a key. *)
Lemma filter_split (P : Pair → Prop) `{∀ x, Decision (P x)} (l1 l2 : list Pair) :
  (∀ p, p ∈ l1 → ¬ P p) → (∀ p, p ∈ l2 → P p) → filter P (l1 ++ l2) = l2.
Proof. intros N Y. rewrite filter_app, (filter_none P l1 N), (filter_all P l2 Y). done. Qed.

Lemma reverse_filter (P : Pair → Prop) `{∀ x, Decision (P x)} (l : list Pair) :
  reverse (filter P l) = filter P (reverse l).
Proof.
  induction l as [|x l IH]; [done|]. rewrite reverse_cons, filter_app, filter_cons, <- IH.
  rewrite (filter_cons _ x []). destruct (decide _); [by rewrite reverse_cons|by rewrite app_nil_r].
Qed.

(** A smaller range is a filter of a larger one. *)
Lemma range_narrow m lo hi desc lo' hi' (f : Bytes → bool) :
  (∀ key, key_in lo' hi' key = key_in lo hi key && f key) →
  range_pairs m lo' hi' desc = filter (λ p, f p.1 = true) (range_pairs m lo hi desc).
Proof.
  intros K. unfold range_pairs. assert (∀ l : list Pair, filter (λ p, key_in lo' hi' p.1 = true) l
    = filter (λ p, f p.1 = true) (filter (λ p, key_in lo hi p.1 = true) l)) as E.
  { intros l. rewrite list_filter_filter. apply list_filter_iff. intros p. rewrite K, andb_true_iff. tauto. }
  rewrite E. destruct desc; [|done]. apply reverse_filter.
Qed.

Definition dir_lt (desc : bool) (a b : Pair) : Prop := if desc then bytes_lt b.1 a.1 else bytes_lt a.1 b.1.

Lemma StronglySorted_filter {A} (R : A → A → Prop) (P : A → Prop) `{∀ x, Decision (P x)} l :
  StronglySorted R l → StronglySorted R (filter P l).
Proof.
  induction 1 as [|x l S IH F]; [constructor|]. rewrite filter_cons. destruct (decide _); [|done].
  constructor; [done|]. by apply Forall_filter.
Qed.

Lemma StronglySorted_reverse {A} (R : A → A → Prop) l : StronglySorted R l → StronglySorted (flip R) (reverse l).
Proof.
  induction 1 as [|x l S IH F]; [constructor|]. rewrite reverse_cons. apply StronglySorted_app. split; [|split].
  - intros a b I J. apply list_elem_of_singleton in J as ->. rewrite elem_of_reverse in I.
    rewrite Forall_forall in F. by apply F.
  - done.
  - repeat constructor.
Qed.

Lemma range_sorted m lo hi desc : StronglySorted (dir_lt desc) (range_pairs m lo hi desc).
Proof.
  unfold range_pairs. assert (StronglySorted (λ a b : Pair, bytes_lt a.1 b.1) (btree_iter m)) as S.
  { pose proof (btree_iter_ordered m) as O. unfold ordered in O. induction O as [|p l O IH F]; constructor; [done|].
    eapply Forall_impl; [exact F|]. intros b. apply key_lt_bytes. }
  apply (StronglySorted_filter _ (λ p, key_in lo hi p.1 = true)) in S. destruct desc; [|done].
  by apply StronglySorted_reverse.
Qed.

Lemma elem_of_range m lo hi desc p :
  p ∈ range_pairs m lo hi desc ↔ key_in lo hi p.1 = true ∧ m !! p.1 = Some p.2.
Proof.
  unfold range_pairs. destruct p as [k v]. cbn. rewrite <- elem_of_btree_iter.
  destruct desc; [rewrite elem_of_reverse|]; by rewrite list_elem_of_filter.
Qed.

(** ** Where the next page begins *)

Lemma page_after m lo hi desc P l R : range_pairs m lo hi desc = P ++ R → last P = Some l →
  range_pairs m (if desc then lo else l.1 ++ [0]) (if desc then Some l.1 else hi) desc = R.
Proof.
  intros EP El. pose proof (range_sorted m lo hi desc) as S. rewrite EP in S.
  apply last_Some in El as [Q ->]. rewrite <- (assoc_L (++)) in EP, S. cbn [app] in EP, S.
  apply StronglySorted_app in S as (C1 & _ & S). apply StronglySorted_cons in S as [C2 _].
  rewrite Forall_forall in C2. assert (l ∈ range_pairs m lo hi desc) as I by (rewrite EP; apply elem_of_app; right; left).
  apply elem_of_range in I as [I _]. apply key_in_true in I as [Il Ih].
  set (f key := if desc then bytes_ltb key l.1 else bytes_ltb l.1 key).
  rewrite (range_narrow m lo hi desc _ _ f).
  - rewrite EP. change (Q ++ l :: R) with (Q ++ [l] ++ R). rewrite (assoc_L (++)). apply filter_split.
    + intros p J Hf. apply elem_of_app in J as [J|J]; [|apply list_elem_of_singleton in J as ->].
      * specialize (C1 p l J ltac:(left)). unfold f in Hf. unfold dir_lt in C1.
        destruct desc; apply bytes_ltb_lt in Hf; apply (bytes_lt_irrefl p.1); eapply bytes_lt_le_trans;
          try exact Hf; try exact C1; apply bytes_le_lt; by left.
      * unfold f in Hf. destruct desc; apply bytes_ltb_lt in Hf; by apply bytes_lt_irrefl in Hf.
    + intros p J. specialize (C2 p J). unfold f. unfold dir_lt in C2. destruct desc; by apply bytes_ltb_lt.
  - intros key. apply eq_true_iff_eq. rewrite andb_true_iff, !key_in_true. unfold f. destruct desc; rewrite bytes_ltb_lt.
    + split; [|naive_solver]. intros [L H]. specialize (H _ eq_refl). split; [|done]. split; [done|]. intros h ->.
      eapply bytes_lt_le_trans; [exact H|]. apply bytes_le_lt. left. by apply Ih.
    + rewrite bytes_next_le. split; [|naive_solver]. intros [L H]. split; [|done]. split; [|done].
      eapply bytes_le_trans; [exact Il|]. apply bytes_le_lt. by left.
Qed.

(** ** Pages are what one request would return *)

Section client.
Context {C E : Type} `{!Client C E, !ClientOk C E}.

(** A call that only reads. *)
Definition same_view (c c' : C) : Prop := cl_view c' = cl_view c ∧ cl_start_ms c' = cl_start_ms c.

Lemma same_view_trans c1 c2 c3 : same_view c1 c2 → same_view c2 c3 → same_view c1 c3.
Proof. intros [E1 F1] [E2 F2]. split; congruence. Qed.

Lemma empty_range m lo hi desc : bytes_leb hi lo = true → range_pairs m lo (Some hi) desc = [].
Proof.
  intros L. apply bytes_leb_le in L. apply elem_of_nil_inv. intros p I. apply elem_of_range in I as [I _].
  apply key_in_true in I as [Il Ih]. specialize (Ih _ eq_refl). apply bytes_lt_nge in Ih. apply Ih.
  by eapply bytes_le_trans.
Qed.

(** What the loop of [paged_scan] still adds to [out], cut to the limit. *)
Definition scan_rest (root : Bytes) (limit : N) (desc : bool) (s : ScanState) : list Pair :=
  take (N.to_nat limit)
    (s.(sc_out) ++ (relative_pair root <$> range_pairs (cl_view s.(sc_inner)) s.(sc_lo) s.(sc_hi) desc)).

Definition scan_answers (root : Bytes) (limit : N) (desc : bool) (s : ScanState)
    (r : C * Result (list Pair) (TxnError * bool)) : Prop :=
  same_view s.(sc_inner) r.1 ∧ ∀ ps, r.2 = Ok ps → ps = scan_rest root limit desc s.

Lemma scan_step_spec root limit desc s : 0 < s.(sc_page) →
  match scan_step root limit desc s with
  | inl s' => same_view s.(sc_inner) s'.(sc_inner) ∧ scan_rest root limit desc s' = scan_rest root limit desc s
  | inr r => scan_answers root limit desc s r
  end.
Proof.
  intros P. unfold scan_step, scan_answers, scan_rest. destruct (N.ltb_spec (len s.(sc_out)) limit) as [L|L]; cbn [negb orb].
  2:{ split; [done|]. intros ps [= <-]. rewrite take_app_le; [done|]. unfold len in L. lia. }
  destruct (match s.(sc_hi) with Some _ => _ | None => _ end) eqn:H.
  { split; [done|]. intros ps [= <-]. destruct s.(sc_hi) as [hi|]; [|done]. by rewrite empty_range, app_nil_r. }
  set (want := N.min s.(sc_page) _). assert (0 < want) as W by (unfold want, u32_MAX; lia).
  destruct (cl_scan _ _ _ _ _) as [c r] eqn:Sc. apply cl_scan_ok in Sc as (V & T & Ps).
  destruct r as [pairs|e].
  - specialize (Ps pairs eq_refl). unfold scan_pairs in Ps. set (all := range_pairs _ _ _ _) in *.
    destruct (last pairs) as [l|] eqn:El.
    2:{ split; [done|]. intros ps [= <-]. apply last_None in El. rewrite El in *.
        destruct all; [done|]. destruct (N.to_nat want) eqn:?; [lia|done]. }
    destruct (N.ltb_spec (len pairs) want) as [Lw|Lw].
    + split; [done|]. intros ps [= <-]. rewrite Ps in *. unfold len in Lw. rewrite length_take in Lw.
      by rewrite (take_ge all) by lia.
    + split; [done|]. cbn [sc_inner sc_lo sc_hi sc_out]. rewrite V.
      rewrite (page_after _ s.(sc_lo) s.(sc_hi) desc pairs l (drop (N.to_nat want) all)); [|by rewrite Ps, take_drop|done].
      rewrite <- (assoc_L (++)), <- fmap_app. by rewrite Ps at 1; rewrite take_drop.
  - destruct (cl_class e); try (split; [done|]; by intros ps [=]).
    destruct (want <=? 1); [split; [done|]; by intros ps [=]|]. split; [done|]. cbn [sc_inner sc_lo sc_hi sc_out]. by rewrite V.
Qed.

Lemma paged_scan_answers c root lo hi limit desc :
  scan_answers root limit desc {| sc_inner := c; sc_lo := lo; sc_hi := hi; sc_page := PAGE_KEYS; sc_out := [] |}
    (paged_scan c root lo hi limit desc).
Proof.
  unfold paged_scan. apply (iterate_spec _ _ _ (scan_step_lowers root limit desc) (scan_answers root limit desc)).
  - intros s s' x Is St. pose proof (scan_step_spec root limit desc s Is) as Sp. rewrite St in Sp.
    destruct Sp as [V Er]. intros [V' Ps']. split; [by eapply same_view_trans|]. intros ps Ex. rewrite <- Er. by apply Ps'.
  - intros s x Is St. pose proof (scan_step_spec root limit desc s Is) as Sp. by rewrite St in Sp.
Qed.

Lemma paged_scan_spec c root lo hi limit desc c' r : paged_scan c root lo hi limit desc = (c', r) →
  same_view c c' ∧ ∀ ps, r = Ok ps → ps = relative_pair root <$> scan_pairs (cl_view c) lo hi limit desc.
Proof.
  intros Ep. pose proof (paged_scan_answers c root lo hi limit desc) as [V Ps]. rewrite Ep in *. split; [done|].
  intros ps Er. rewrite (Ps ps Er). unfold scan_rest, scan_pairs. cbn. by rewrite fmap_take.
Qed.

(** The loop ends with an answer unless the client fails for another reason than the size of a page
    of more than one key. *)
Lemma paged_scan_total (Only : ∀ c lo hi n rev c' e, cl_scan c lo hi n rev = (c', Err e) → cl_class e = CTooLarge ∧ 1 < n)
    c root lo hi limit desc : ∃ c' ps, paged_scan c root lo hi limit desc = (c', Ok ps).
Proof.
  unfold paged_scan. apply (iterate_spec _ _ _ (scan_step_lowers root limit desc) (λ _ r, ∃ c' ps, r = (c', Ok ps))); [done|].
  intros s r _. unfold scan_step. destruct (_ || _); [intros [= <-]; eauto|]. set (want := N.min s.(sc_page) _).
  destruct (cl_scan _ _ _ _ _) as [c' [pairs|e]] eqn:Sc.
  - destruct (last pairs); [destruct (_ <? _); [|done]|]; intros [= <-]; eauto.
  - apply Only in Sc as [-> L]. by rewrite (proj2 (N.leb_gt _ _) L).
Qed.

(** What the loop of [paged_batch_get] still adds to [out]. *)
Definition batch_finds (root : Bytes) (keys : list Bytes) (s : BatchState) (p : Pair) : Prop :=
  p ∈ s.(bs_out) ∨ ∃ key, key ∈ drop (N.to_nat s.(bs_at)) keys ∧ p.1 = relative root key
                         ∧ cl_view s.(bs_inner) !! key = Some p.2.

Definition batch_answers (root : Bytes) (keys : list Bytes) (s : BatchState)
    (r : C * Result (list Pair) (TxnError * bool)) : Prop :=
  same_view s.(bs_inner) r.1 ∧ ∀ ps, r.2 = Ok ps → ∀ p, p ∈ ps ↔ batch_finds root keys s p.

Lemma batch_step_spec root keys s :
  match batch_step root keys s with
  | inl s' => same_view s.(bs_inner) s'.(bs_inner) ∧ ∀ p, batch_finds root keys s' p ↔ batch_finds root keys s p
  | inr r => batch_answers root keys s r
  end.
Proof.
  unfold batch_step, batch_answers, batch_finds. destruct (N.ltb_spec s.(bs_at) (len keys)) as [L|L]; cbn [negb].
  2:{ split; [done|]. intros ps [= <-] p. unfold sort_by. rewrite merge_sort_Permutation, drop_ge by (unfold len in L; lia).
      split; [by left|]. intros [?|(k & I & _)]; [done|]. by apply elem_of_nil in I. }
  set (n := N.min _ _ - s.(bs_at)). destruct (cl_batch_get _ _) as [c r] eqn:B. apply cl_batch_get_ok in B as (V & T & Ps).
  destruct r as [pairs|e].
  - split; [done|]. intros p. specialize (Ps pairs eq_refl). cbn [bs_inner bs_at bs_out]. rewrite V, elem_of_app, list_elem_of_fmap.
    rewrite <- (take_drop (N.to_nat n) (drop (N.to_nat s.(bs_at)) keys)), drop_drop.
    replace (N.to_nat s.(bs_at) + N.to_nat n)%nat with (N.to_nat (N.min (s.(bs_at) + s.(bs_page)) (len keys))) by (unfold n; lia).
    unfold slice in Ps. set (rest := drop (N.to_nat (N.min _ _)) keys). setoid_rewrite elem_of_app. split.
    + intros [[?|([k v] & -> & I)]|(k & I & ? & ?)]; [by left| |right; exists k; tauto].
      apply Ps in I as [I Lk]. right. exists k. cbn. tauto.
    + intros [?|(k & [I|I] & Ek & Lk)]; [by do 2 left| |right; eauto]. left. right. exists (k, p.2).
      split; [|by apply Ps]. destruct p. cbn in *. by subst.
  - destruct (cl_class e); try (split; [done|]; by intros ps [=]).
    destruct (_ <=? 1); [split; [done|]; by intros ps [=]|]. split; [done|]. intros p. cbn [bs_inner bs_at bs_out]. by rewrite V.
Qed.

Lemma paged_batch_get_answers c root keys :
  batch_answers root keys {| bs_inner := c; bs_page := PAGE_KEYS; bs_at := 0; bs_out := [] |} (paged_batch_get c root keys).
Proof.
  unfold paged_batch_get. apply (iterate_spec _ _ _ (batch_step_lowers root keys) (batch_answers root keys)).
  - intros s s' x Is St. pose proof (batch_step_spec root keys s) as Sp. rewrite St in Sp.
    destruct Sp as [V Er]. intros [V' Ps']. split; [by eapply same_view_trans|]. intros ps Ex p. rewrite <- Er. by apply Ps'.
  - intros s x Is St. pose proof (batch_step_spec root keys s) as Sp. by rewrite St in Sp.
Qed.
End client.

(** ** The keys under the root *)

(** The relative key of a pair under [root]. *)
Definition under_root (root : Bytes) (p : Pair) : option Pair := (λ k, (k, p.2)) <$> bytes_strip root p.1.

(** What is stored under [root], by relative key. *)
Definition rel_view (root : Bytes) (m : gmap Bytes Bytes) : gmap Bytes Bytes :=
  list_to_map (omap (under_root root) (map_to_list m)).

Lemma bytes_strip_Some p s r : bytes_strip p s = Some r ↔ s = p ++ r.
Proof.
  split; [|intros ->; apply bytes_strip_app]. revert s. induction p as [|b p IH]; intros [|c s]; cbn; try congruence.
  destruct (N.eqb_spec b c) as [->|]; [|done]. intros E. by rewrite (IH s E).
Qed.

Lemma rel_view_lookup root m k : rel_view root m !! k = m !! (root ++ k).
Proof.
  unfold rel_view. set (l := omap (under_root root) (map_to_list m)).
  assert (∀ k v, (k, v) ∈ l ↔ m !! (root ++ k) = Some v) as El.
  { clear k. intros k v. unfold l. rewrite list_elem_of_omap. unfold under_root. split.
    - intros ([k' v'] & I & Ef). apply elem_of_map_to_list in I. cbn in Ef.
      destruct (bytes_strip root k') as [r|] eqn:Es; [|done]. apply bytes_strip_Some in Es as ->. by injection Ef as <- <-.
    - intros L. exists (root ++ k, v). split; [by apply elem_of_map_to_list|]. cbn. by rewrite bytes_strip_app. }
  apply option_eq. intros v. rewrite <- El. symmetry. apply elem_of_list_to_map'. intros v' I I'.
  apply El in I, I'. congruence.
Qed.

Lemma rel_view_insert root m k v : rel_view root (<[root ++ k := v]> m) = <[k := v]> (rel_view root m).
Proof.
  apply map_eq. intros k'. rewrite rel_view_lookup. destruct (decide (k = k')) as [<-|N].
  - by rewrite !lookup_insert_eq.
  - rewrite !lookup_insert_ne by (try done; intros Eq; by apply app_inv_head in Eq). by rewrite rel_view_lookup.
Qed.

Lemma rel_view_delete root m k : rel_view root (delete (root ++ k) m) = delete k (rel_view root m).
Proof.
  apply map_eq. intros k'. rewrite rel_view_lookup. destruct (decide (k = k')) as [<-|N].
  - by rewrite !lookup_delete_eq.
  - rewrite !lookup_delete_ne by (try done; intros Eq; by apply app_inv_head in Eq). by rewrite rel_view_lookup.
Qed.

Lemma relative_full root k : relative root (root ++ k) = k.
Proof.
  unfold relative. rewrite length_app, Nat.min_l by lia. apply drop_app_length.
Qed.

(** A full range holds the full keys of a range. *)
Lemma full_range_key root lo hi key : Forall (λ b, b < 256) key →
  key_in (full_range root lo hi).1 (full_range root lo hi).2 key = true
  ↔ ∃ k, key = root ++ k ∧ key_in lo hi k = true.
Proof.
  intros B. unfold full_range, full_key. cbn [fst snd]. rewrite key_in_true. setoid_rewrite key_in_true. split.
  - intros [L H]. assert (root `prefix_of` key) as [k ->].
    { destruct hi as [hi|].
      - destruct (between_app _ _ _ _ L (H _ eq_refl)) as [r ->]. apply prefix_app_r. done.
      - apply prefix_between; [done|]. split.
        + eapply bytes_le_trans; [|exact L]. rewrite <- (app_nil_r root) at 1. apply bytes_le_app, bytes_le_nil.
        + case_bool_decide as Es; [by left|]. right. by apply H. }
    exists k. split; [done|]. split; [by apply bytes_le_app in L|]. intros h ->. by apply (bytes_lt_app root), H.
  - intros (k & -> & L & H). split; [by apply bytes_le_app|]. intros h Eh. destruct hi as [hi|].
    + injection Eh as <-. by apply bytes_lt_app, H.
    + case_bool_decide as Es; [done|]. injection Eh as <-.
      destruct (proj1 (prefix_between root (root ++ k) B) (prefix_app_r _ _ _ (reflexivity _))) as [_ [?|?]]; done.
Qed.

(** Lists that strictly increase and have the same members are the same. *)
Lemma dir_sorted_unique desc (l1 l2 : list Pair) :
  StronglySorted (dir_lt desc) l1 → StronglySorted (dir_lt desc) l2 → (∀ p, p ∈ l1 ↔ p ∈ l2) → l1 = l2.
Proof.
  intros S1 S2 El. assert (∀ l, StronglySorted (dir_lt desc) l → NoDup l) as ND.
  { clear. induction 1 as [|p l S IH F]; constructor; [|done]. intros I. rewrite Forall_forall in F. specialize (F p I).
    unfold dir_lt in F. destruct desc; by apply bytes_lt_irrefl in F. }
  apply (StronglySorted_unique_strong (dir_lt desc)); [|done|done|apply NoDup_Permutation; auto].
  intros a b _ _ L1 L2. exfalso. unfold dir_lt in *. destruct desc; apply (bytes_lt_irrefl a.1);
    eapply bytes_lt_le_trans; try eassumption; apply bytes_le_lt; by left.
Qed.

Lemma range_relative root m lo hi desc : (∀ k, is_Some (m !! k) → Forall (λ b, b < 256) k) →
  relative_pair root <$> range_pairs m (full_range root lo hi).1 (full_range root lo hi).2 desc
  = range_pairs (rel_view root m) lo hi desc.
Proof.
  intros B. assert (∀ p, p ∈ range_pairs m (full_range root lo hi).1 (full_range root lo hi).2 desc →
    ∃ k, p.1 = root ++ k ∧ key_in lo hi k = true ∧ m !! (root ++ k) = Some p.2) as Mem.
  { intros p I. apply elem_of_range in I as [I L]. apply full_range_key in I as (k & Ek & I); [|by apply B].
    exists k. by rewrite Ek in L. }
  apply (dir_sorted_unique desc).
  - pose proof (range_sorted m (full_range root lo hi).1 (full_range root lo hi).2 desc) as S.
    induction S as [|p l S IH F]; [constructor|]. rewrite fmap_cons. constructor.
    + apply IH. intros q I. apply Mem. by right.
    + rewrite Forall_fmap. rewrite Forall_forall in *. intros q I. specialize (F q I). unfold dir_lt in *. cbn.
      destruct (Mem p ltac:(left)) as (k & Ek & _), (Mem q ltac:(by right)) as (k' & Ek' & _). rewrite Ek, Ek' in *.
      rewrite !relative_full. by destruct desc; apply bytes_lt_app in F.
  - apply range_sorted.
  - intros [k v]. rewrite list_elem_of_fmap, elem_of_range, rel_view_lookup. cbn. split.
    + intros (p & [= -> ->] & I). destruct (Mem p I) as (k & -> & I' & L). by rewrite relative_full.
    + intros [I L]. exists (root ++ k, v). unfold relative_pair. cbn. rewrite relative_full. split; [done|].
      apply elem_of_range. cbn. split; [|done]. apply full_range_key; [by apply B|]. by exists k.
Qed.
