(* ===== verification/LiveValue.v ===== *)
(** * Values, ids, limits and errors of the Live database
    (loams-live/src/value.rs, ids.rs, limits.rs, error.rs)

    A [LiveValue] is what a document's field holds, with its protobuf form, its element in an index
    key and the bytes its digest covers.  A document id has a text form, the Crockford base32 of its
    table as a varint, its random bytes and a checksum.  [Limits] bounds documents.

    A map in a value ([BTreeMap], and the map of a protobuf object) is its entries in key order. *)

From Stdlib Require Import NArith ZArith Lia Ascii.
From stdpp Require Import prelude gmap strings numbers list.
From S2P Require Import Prelude.
From S2P Require Import BTree.
From S2P Require Import ByteCodec.
From S2P Require Import TikvTuple.
From S2P Require Import LiveKeys.
From S2P Require Import TikvTxn.

Open Scope N_scope.

(** ** Errors *)

Inductive LiveError :=
  | InvalidArgument (message : string)
  | LiveNotFound (message : string)
  | FailedPrecondition (message : string)
  | LimitExceeded (limit message : string)
  | JournalTrimmed (shard position : N) (first : option N)
  | LiveCorrupt (message : string)
  | LiveInternal (message : string)
  | LiveTxnError (e : TxnError).

(** [pb::ErrorCode] *)
Inductive ErrorCode :=
  | CODE_INVALID_ARGUMENT | CODE_NOT_FOUND | CODE_FAILED_PRECONDITION | CODE_RESOURCE_EXHAUSTED
  | CODE_INTERNAL | CODE_UNAVAILABLE.

(** [LiveError::code] *)
Definition error_code (e : LiveError) : ErrorCode :=
  match e with
  | InvalidArgument _ => CODE_INVALID_ARGUMENT
  | LiveNotFound _ => CODE_NOT_FOUND
  | FailedPrecondition _ | JournalTrimmed _ _ _ => CODE_FAILED_PRECONDITION
  | LimitExceeded _ _ => CODE_RESOURCE_EXHAUSTED
  | LiveCorrupt _ | LiveInternal _ => CODE_INTERNAL
  | LiveTxnError e =>
      match e with
      | TConflict | TNotApplied _ | TUndetermined _ | TDeadline => CODE_UNAVAILABLE
      | TAlreadyExists _ | TFatal _ => CODE_INTERNAL
      end
  end.

(** [LiveError::into_txn] *)
Definition into_txn (e : LiveError) : Result LiveError TxnError :=
  match e with LiveTxnError e => Err e | other => Ok other end.

(** ** Values *)

Inductive LiveValue :=
  | VNull
  | VI64 (v : Z)
  | VF64 (bits : N)
  | VBool (b : bool)
  | VStr (s : string)
  | VBytes (b : Bytes)
  | VArray (items : list LiveValue)
  | VObject (fields : list (string * LiveValue)).

(** [pb::Value]; [PbUnset] has no kind. *)
Inductive PbValue :=
  | PbUnset
  | PbNull
  | PbInt64 (v : Z)
  | PbDouble (bits : N)
  | PbBool (b : bool)
  | PbString (s : string)
  | PbBytes (b : Bytes)
  | PbArray (values : list PbValue)
  | PbObject (fields : list (string * PbValue)).

(** [collect::<Result<_, _>>()] of the results of a function on the items of a list. *)
Definition collect {A B E} (f : A → Result B E) : list A → Result (list B) E :=
  fix go l := match l with
              | [] => Ok []
              | a :: l => LET b <- f a ;; LET bs <- go l ;; Ok (b :: bs)
              end.

(** [LiveValue::from_proto] *)
Fixpoint from_proto (v : PbValue) : Result LiveValue LiveError :=
  match v with
  | PbUnset => Err (InvalidArgument "a Value has no kind set")
  | PbNull => Ok VNull
  | PbInt64 i => Ok (VI64 i)
  | PbDouble f => Ok (VF64 f)
  | PbBool b => Ok (VBool b)
  | PbString s => Ok (VStr s)
  | PbBytes b => Ok (VBytes b)
  | PbArray values => LET items <- collect from_proto values ;; Ok (VArray items)
  | PbObject fields =>
      LET fields <- collect (λ f, LET v <- from_proto f.2 ;; Ok (f.1, v)) fields ;; Ok (VObject fields)
  end.

(** [LiveValue::to_proto] *)
Fixpoint to_proto (v : LiveValue) : PbValue :=
  match v with
  | VNull => PbNull
  | VI64 i => PbInt64 i
  | VF64 f => PbDouble f
  | VBool b => PbBool b
  | VStr s => PbString s
  | VBytes b => PbBytes b
  | VArray items => PbArray (to_proto <$> items)
  | VObject fields => PbObject ((λ f, (f.1, to_proto f.2)) <$> fields)
  end.

(** [fields_from_proto] and [fields_to_proto] on the fields of a document *)
Definition fields_from_proto (fields : gmap string PbValue) : Result (gmap string LiveValue) LiveError :=
  LET entries <- collect (λ f, LET v <- from_proto f.2 ;; Ok (f.1, v)) (btree_iter fields) ;;
  Ok (list_to_map entries).
Definition fields_to_proto (fields : gmap string LiveValue) : gmap string PbValue := to_proto <$> fields.

(** [LiveValue::type_name] *)
Definition type_name (v : LiveValue) : string :=
  match v with
  | VNull => "null" | VI64 _ => "int64" | VF64 _ => "float64" | VBool _ => "bool" | VStr _ => "string"
  | VBytes _ => "bytes" | VArray _ => "array" | VObject _ => "object"
  end.

(** [LiveValue::index_elem] *)
Fixpoint index_elem (v : LiveValue) : Result Elem LiveError :=
  match v with
  | VNull => Ok ENull
  | VI64 i => Ok (EI64 i)
  | VF64 f => Ok (EF64 f)
  | VBool b => Ok (EBool b)
  | VStr s => Ok (EStr s)
  | VBytes b => Ok (EBytes b)
  | VArray a => LET items <- collect index_elem a ;; Ok (EArray items)
  | VObject _ => Err (InvalidArgument "objects are not indexable in R1")
  end.

(** [PartialEq for LiveValue] *)
Fixpoint value_eq (a b : LiveValue) : bool :=
  match a, b with
  | VNull, VNull => true
  | VI64 a, VI64 b => (a =? b)%Z
  | VF64 a, VF64 b => (a =? b) || (f64_is_nan a && f64_is_nan b)
  | VBool a, VBool b => bool_decide (a = b)
  | VStr a, VStr b => bool_decide (a = b)
  | VBytes a, VBytes b => bool_decide (a = b)
  | VArray a, VArray b =>
      (fix all2 (xs ys : list LiveValue) : bool :=
         match xs, ys with
         | [], [] => true
         | x :: xs, y :: ys => value_eq x y && all2 xs ys
         | _, _ => false
         end) a b
  | VObject a, VObject b =>
      (fix all2 (xs ys : list (string * LiveValue)) : bool :=
         match xs, ys with
         | [], [] => true
         | x :: xs, y :: ys => bool_decide (x.1 = y.1) && value_eq x.2 y.2 && all2 xs ys
         | _, _ => false
         end) a b
  | _, _ => false
  end.

(** [f64::NAN.to_bits()] *)
Definition NAN_BITS : N := 0x7ff8000000000000.

(** [digest_len] *)
Definition digest_len (n : N) : Bytes := be_bytes 8 n.

(** [digest_value]: the bytes the hash is updated with. *)
Fixpoint digest_value (v : LiveValue) : Bytes :=
  match v with
  | VNull => [0]
  | VI64 i => [1] ++ be_bytes 8 (i64_bits i)
  | VF64 f => [2] ++ be_bytes 8 (if f64_is_nan f then NAN_BITS else f)
  | VBool b => [3; if b then 1 else 0]
  | VStr s => [4] ++ digest_len (len (string_bytes s)) ++ string_bytes s
  | VBytes b => [5] ++ digest_len (len b) ++ b
  | VArray items => [6] ++ digest_len (len items) ++ concat (digest_value <$> items)
  | VObject fields =>
      [7] ++ digest_len (len fields)
        ++ concat ((λ f, digest_len (len (string_bytes f.1)) ++ string_bytes f.1 ++ digest_value f.2) <$> fields)
  end.

(** ** Limits *)

(** [Limits]; durations in milliseconds. *)
Record Limits := {
  max_document_bytes : N;
  max_fields : N;
  max_depth : N;
  max_array_len : N;
  max_field_name_bytes : N;
  max_index_fields : N;
  max_indexes : N;
  max_index_key_bytes : N;
  max_written_bytes : N;
  max_written_docs : N;
  max_scanned_docs : N;
  max_index_ranges : N;
  max_js_cpu : N;
  mutation_deadline : N;
}.

Definition default_limits : Limits := {|
  max_document_bytes := 1024 * 1024;
  max_fields := 1024;
  max_depth := 16;
  max_array_len := 8192;
  max_field_name_bytes := 1024;
  max_index_fields := 16;
  max_indexes := 32;
  max_index_key_bytes := 4096;
  max_written_bytes := 8 * 1024 * 1024;
  max_written_docs := 16000;
  max_scanned_docs := 32000;
  max_index_ranges := 4096;
  max_js_cpu := 1000;
  mutation_deadline := 10000;
|}.

(** [Limits::check_name] *)
Definition check_field_name (limits : Limits) (name : string) : Result () LiveError :=
  REFUSE bool_decide (name = ""%string) WITH InvalidArgument "a field name is empty" ;;
  REFUSE limits.(max_field_name_bytes) <? len (string_bytes name)
    WITH LimitExceeded "max_field_name_bytes" "a field name has {} bytes, more than {}" ;;
  Ok ().

(** The [?] of every item of a loop. *)
Definition each {A E} (f : A → Result () E) : list A → Result () E :=
  fix go l := match l with
              | [] => Ok ()
              | a :: l => LET _ <- f a ;; go l
              end.

(** [Limits::check_value] *)
Fixpoint check_value (limits : Limits) (field : string) (value : LiveValue) (depth : N) : Result () LiveError :=
  REFUSE limits.(max_depth) <? depth WITH LimitExceeded "max_depth" "field '{field}' nests deeper than {}" ;;
  match value with
  | VArray items =>
      REFUSE limits.(max_array_len) <? len items
        WITH LimitExceeded "max_array_len" "field '{field}' has an array of {} elements, more than {}" ;;
      each (λ item, check_value limits field item (depth + 1)) items
  | VObject inner =>
      REFUSE limits.(max_fields) <? len inner
        WITH LimitExceeded "max_fields" "field '{field}' has an object of {} fields, more than {}" ;;
      each (λ f, LET _ <- check_field_name limits f.1 ;; check_value limits field f.2 (depth + 1)) inner
  | _ => Ok ()
  end.

(** [name.starts_with('_')] *)
Definition starts_with_underscore (name : string) : bool :=
  match name with String c _ => bool_decide (c = "_"%char) | EmptyString => false end.

(** [Limits::check_fields] *)
Definition check_fields (limits : Limits) (fields : gmap string LiveValue) : Result () LiveError :=
  REFUSE limits.(max_fields) <? N.of_nat (size fields)
    WITH LimitExceeded "max_fields" "a document has {} fields, more than {}" ;;
  each (λ f,
    LET _ <- check_field_name limits f.1 ;;
    REFUSE starts_with_underscore f.1
      WITH InvalidArgument "field '{name}': names starting with '_' are reserved for system fields" ;;
    check_value limits f.1 f.2 1) (btree_iter fields).

(** [Limits::check_document_bytes] *)
Definition check_document_bytes (limits : Limits) (n : N) : Result () LiveError :=
  REFUSE limits.(max_document_bytes) <? n
    WITH LimitExceeded "max_document_bytes" "a document encodes to {len} bytes, more than {}" ;;
  Ok ().

(** ** Document ids as text *)

(** The Crockford base32 of the data-encoding crate and the CRC-16 of the crc crate. *)
Class IdText := {
  crockford_encode : Bytes → string;
  crockford_decode : string → option Bytes;
  crc16 : Bytes → N;
}.

Class IdTextOk `{IdText} : Prop := {
  crockford_back bs : Forall (λ b, b < 256) bs → crockford_decode (crockford_encode bs) = Some bs;
  crockford_bytes s bs : crockford_decode s = Some bs → Forall (λ b, b < 256) bs;
  crc16_bound bs : crc16 bs < 65536;
}.

(** The varint loop of [DocId::payload]: a [u32] has at most five groups of seven bits. *)
Fixpoint table_varint (fuel : nat) (t : N) : Bytes :=
  let byte := N.land t 0x7f in
  let t := N.shiftr t 7 in
  match fuel with
  | S fuel => if t =? 0 then [byte] else N.lor byte 0x80 :: table_varint fuel t
  | O => [byte]
  end.

(** The varint loop of [DocId::from_str], from byte [at_] on: the table and where its id ends. *)
Fixpoint read_varint (raw : Bytes) (at_ : nat) (table : N) : Result (N * nat) string :=
  match raw with
  | [] => Err "too short"%string
  | byte :: raw =>
      REFUSE (at_ =? 5)%nat WITH "the table id is too long"%string ;;
      let table := N.lor table (N.shiftl (N.land byte 0x7f) (7 * N.of_nat at_)) in
      if N.land byte 0x80 =? 0 then Ok (table, at_ + 1)%nat else read_varint raw (at_ + 1) table
  end.

Section id_text.
Context `{IdText}.

(** [DocId::payload] *)
Definition payload (id : DocId) : Bytes :=
  let out := table_varint 4 id.(di_table) ++ id.(di_bytes) in
  out ++ be_bytes 2 (crc16 out).

(** [Display for DocId] *)
Definition doc_id_to_string (id : DocId) : string := crockford_encode (payload id).

Definition bad_id {A} (why : string) : Result A LiveError :=
  Err (InvalidArgument ("'{s}' is not a document id: " +:+ why)).

(** [FromStr for DocId] *)
Definition doc_id_from_str (s : string) : Result DocId LiveError :=
  match crockford_decode s with
  | None => bad_id "not Crockford base32"
  | Some raw =>
      match read_varint raw 0 0 with
      | Err why => bad_id why
      | Ok (table, at_) =>
          if negb (table <=? u32_MAX) then bad_id "the table id is too large"
          else if negb (length raw =? at_ + DOC_ID_BYTES + 2)%nat then bad_id "wrong length"
          else
            let body := take (at_ + DOC_ID_BYTES) raw in
            let sum := drop (at_ + DOC_ID_BYTES) raw in
            if negb (bool_decide (be_bytes 2 (crc16 body) = sum)) then bad_id "checksum mismatch"
            else
              let id := {| di_table := table; di_bytes := drop at_ body |} in
              if negb (bool_decide (payload id = raw)) then bad_id "non-canonical table id"
              else Ok id
      end
  end.
End id_text.

(** ** Values by induction *)

Section value_ind.
Context (P : LiveValue → Prop).
Context (Hnull : P VNull) (Hi : ∀ v, P (VI64 v)) (Hf : ∀ v, P (VF64 v)) (Hb : ∀ b, P (VBool b)).
Context (Hs : ∀ s, P (VStr s)) (Hbs : ∀ b, P (VBytes b)).
Context (Ha : ∀ l, Forall P l → P (VArray l)) (Ho : ∀ l, Forall (λ f, P f.2) l → P (VObject l)).

Fixpoint LiveValue_nested_ind (v : LiveValue) : P v :=
  match v with
  | VNull => Hnull
  | VI64 v => Hi v
  | VF64 v => Hf v
  | VBool b => Hb b
  | VStr s => Hs s
  | VBytes b => Hbs b
  | VArray l =>
      Ha l ((fix go l : Forall P l :=
               match l with [] => Forall_nil_2 _ | x :: l => Forall_cons_2 _ _ _ (LiveValue_nested_ind x) (go l) end) l)
  | VObject l =>
      Ho l ((fix go l : Forall (λ f, P f.2) l :=
               match l with [] => Forall_nil_2 _ | x :: l => Forall_cons_2 _ _ _ (LiveValue_nested_ind x.2) (go l) end) l)
  end.
End value_ind.

Lemma collect_fmap {A B C E} (f : B → Result C E) (g : A → B) (h : A → C) l :
  Forall (λ x, f (g x) = Ok (h x)) l → collect f (g <$> l) = Ok (h <$> l).
Proof. induction 1 as [|x l Hx F IH]; [done|]. cbn. by rewrite Hx, IH. Qed.

Lemma collect_Ok {A B E} (f : A → Result B E) l bs :
  collect f l = Ok bs ↔ Forall2 (λ a b, f a = Ok b) l bs.
Proof.
  revert bs. induction l as [|a l IH]; intros bs; cbn.
  - split; [intros [= <-]; constructor|]. by inversion 1.
  - destruct (f a) as [b|e] eqn:F.
    + destruct (collect f l) as [cs|e].
      * split; [intros [= <-]; constructor; [done|by apply IH]|]. inversion 1 as [|? b' ? cs' Hb Hc]; subst.
        apply IH in Hc. congruence.
      * split; [done|]. inversion 1 as [|? b' ? cs' Hb Hc]; subst. by apply IH in Hc.
    + split; [done|]. inversion 1 as [|? b' ? cs' Hb Hc]; subst. congruence.
Qed.

(** A value survives its protobuf form. *)
Lemma from_to_proto v : from_proto (to_proto v) = Ok v.
Proof.
  induction v as [| | | | | |l IH|l IH] using LiveValue_nested_ind; try done; cbn.
  - rewrite (collect_fmap _ _ id) by done. by rewrite list_fmap_id.
  - rewrite (collect_fmap _ _ id); [by rewrite list_fmap_id|]. eapply Forall_impl; [exact IH|].
    intros [k v] Hv. cbn in *. by rewrite Hv.
Qed.

Lemma fields_round_trip fields : fields_from_proto (fields_to_proto fields) = Ok fields.
Proof.
  unfold fields_from_proto, fields_to_proto.
  assert (btree_iter (to_proto <$> fields) = (λ f, (f.1, to_proto f.2)) <$> btree_iter fields) as ->.
  { apply btree_iter_eq.
    - unfold ordered. pose proof (btree_iter_ordered fields) as O. induction O as [|f l O IH F]; [constructor|].
      rewrite fmap_cons. constructor; [done|]. by rewrite Forall_fmap.
    - intros k v. rewrite list_elem_of_fmap, lookup_fmap, fmap_Some. split.
      + intros ([k' v'] & [= -> ->] & I). apply elem_of_btree_iter in I. eauto.
      + intros (v' & L & ->). exists (k, v'). split; [done|]. by apply elem_of_btree_iter. }
  rewrite (collect_fmap _ _ id).
  - by rewrite list_fmap_id, list_to_map_btree_iter.
  - apply Forall_true. intros [k v]. cbn. by rewrite from_to_proto.
Qed.

(** Values whose numbers, strings and lengths have the widths of the source. *)
Fixpoint value_ok (v : LiveValue) : Prop :=
  match v with
  | VI64 i => i64_ok i
  | VF64 f => f <= u64_MAX
  | VBytes b => Forall (λ b, b < 256) b ∧ len b <= u64_MAX
  | VStr s => utf8_valid (string_bytes s) = true ∧ len (string_bytes s) <= u64_MAX
  | VArray items => len items <= u64_MAX ∧ foldr (λ v P, value_ok v ∧ P) True items
  | VObject fields =>
      len fields <= u64_MAX ∧ foldr (λ f P, (len (string_bytes f.1) <= u64_MAX ∧ value_ok f.2) ∧ P) True fields
  | _ => True
  end.

Lemma foldr_and {A} (P : A → Prop) l : foldr (λ x Q, P x ∧ Q) True l ↔ Forall P l.
Proof.
  induction l as [|x l IH]; cbn; [split; [constructor|done]|]. by rewrite IH, Forall_cons.
Qed.

(** The element of a value that can be indexed is one the tuple codec orders. *)
Lemma index_elem_ok v e : value_ok v → index_elem v = Ok e → elem_ok e.
Proof.
  revert e. induction v as [| | | | | |l IH|l IH] using LiveValue_nested_ind; intros e O; cbn; try (intros [= <-]; by constructor).
  - intros [= <-]. constructor. apply O.
  - intros [= <-]. constructor. apply O.
  - destruct (collect index_elem l) as [es|] eqn:Ec; [|done]. intros [= <-]. constructor.
    apply collect_Ok in Ec. destruct O as [_ O]. apply foldr_and in O.
    induction Ec as [|v e l es Hv Ec IHl]; constructor; inversion_clear IH; inversion_clear O; auto.
Qed.

(** ** Digests tell values apart *)

Lemma cons_eq_inv {A} (a b : A) l k : a :: l = b :: k → a = b ∧ l = k.
Proof. by intros [= -> ->]. Qed.

Lemma be_app_inj k a b x y : a < 256 ^ N.of_nat k → b < 256 ^ N.of_nat k →
  be_bytes k a ++ x = be_bytes k b ++ y → a = b ∧ x = y.
Proof.
  intros La Lb Eq. apply app_inj_1 in Eq as [Eq ->]; [|by rewrite !length_be_bytes]. split; [|done].
  rewrite <- (be_value_bytes k a), <- (be_value_bytes k b) by done. by rewrite Eq.
Qed.

Lemma digest_len_inj {A B} (l : list A) (l' : list B) x y : len l <= u64_MAX → len l' <= u64_MAX →
  digest_len (len l) ++ x = digest_len (len l') ++ y → length l = length l' ∧ x = y.
Proof.
  unfold u64_MAX. intros La Lb Eq. apply be_app_inj in Eq as [Eq ->]; [|cbn; lia..]. split; [|done].
  unfold len in Eq. lia.
Qed.

Lemma sized_inj (a b x y : Bytes) : len a <= u64_MAX → len b <= u64_MAX →
  digest_len (len a) ++ a ++ x = digest_len (len b) ++ b ++ y → a = b ∧ x = y.
Proof.
  intros La Lb Eq. apply digest_len_inj in Eq as [El Eq]; [|done..]. by apply app_inj_1 in Eq.
Qed.

Lemma string_bytes_inj s t : string_bytes s = string_bytes t → s = t.
Proof. intros Eq. by rewrite <- (bytes_string_bytes s), Eq, bytes_string_bytes. Qed.

Lemma i64_bits_inj a b : i64_ok a → i64_ok b → i64_bits a = i64_bits b → a = b.
Proof. intros Ha Hb Eq. by rewrite <- (bits_i64_bits a), Eq, bits_i64_bits. Qed.

Lemma nan_bits_inj f g : f <= u64_MAX → g <= u64_MAX →
  (if f64_is_nan f then NAN_BITS else f) = (if f64_is_nan g then NAN_BITS else g) →
  (f =? g) || (f64_is_nan f && f64_is_nan g) = true.
Proof.
  intros _ _. destruct (f64_is_nan f) eqn:Nf, (f64_is_nan g) eqn:Ng; intros Eq; cbn.
  - by rewrite orb_true_r.
  - subst g. by vm_compute in Ng.
  - subst f. by vm_compute in Nf.
  - subst g. by rewrite N.eqb_refl.
Qed.

Definition digests_apart (v : LiveValue) : Prop :=
  ∀ w x y, value_ok v → value_ok w → digest_value v ++ x = digest_value w ++ y → value_eq v w = true ∧ x = y.

Lemma array_apart l : Forall digests_apart l → ∀ l' x y, length l = length l' →
  Forall value_ok l → Forall value_ok l' →
  concat (digest_value <$> l) ++ x = concat (digest_value <$> l') ++ y → value_eq (VArray l) (VArray l') = true ∧ x = y.
Proof.
  cbn [value_eq]. induction 1 as [|v l Hv F IH]; intros [|w l'] x y El Ol Ol' Eq; try done.
  rewrite !fmap_cons in Eq. cbn [concat] in Eq. rewrite <- !(assoc_L (++)) in Eq. injection El as El.
  inversion_clear Ol; inversion_clear Ol'. apply Hv in Eq as [-> Eq]; [|done..]. by apply IH in Eq.
Qed.

Lemma object_apart l : Forall (λ f : string * LiveValue, digests_apart f.2) l → ∀ l' x y, length l = length l' →
  Forall (λ f, len (string_bytes f.1) <= u64_MAX ∧ value_ok f.2) l →
  Forall (λ f, len (string_bytes f.1) <= u64_MAX ∧ value_ok f.2) l' →
  concat ((λ f, digest_len (len (string_bytes f.1)) ++ string_bytes f.1 ++ digest_value f.2) <$> l) ++ x
  = concat ((λ f, digest_len (len (string_bytes f.1)) ++ string_bytes f.1 ++ digest_value f.2) <$> l') ++ y →
  value_eq (VObject l) (VObject l') = true ∧ x = y.
Proof.
  cbn [value_eq]. induction 1 as [|[k v] l Hv F IH]; intros [|[k' w] l'] x y El Ol Ol' Eq; try done.
  rewrite !fmap_cons in Eq. cbn [concat fst snd] in Eq. rewrite <- !(assoc_L (++)) in Eq. injection El as El.
  inversion_clear Ol as [|? ? [Lk Ov]]; inversion_clear Ol' as [|? ? [Lk' Ov']]. cbn in *.
  apply sized_inj in Eq as [Ek Eq]; [|done..]. apply string_bytes_inj in Ek as ->.
  apply Hv in Eq as [-> Eq]; [|done..]. rewrite bool_decide_eq_true_2 by done. by apply IH in Eq.
Qed.

(** Values with the same digest bytes are equal, whatever follows them. *)
Lemma digest_value_apart v : digests_apart v.
Proof.
  induction v as [|i|f|b|s|bs|l IH|l IH] using LiveValue_nested_ind; intros w x y Ov Ow;
    destruct w as [|i'|f'|b'|s'|bs'|l'|l']; cbn [digest_value]; rewrite <- ?(assoc_L (++)); cbn [app];
    intros Eq; apply cons_eq_inv in Eq as [Et Eq]; try discriminate Et; clear Et.
  - by split.
  - apply be_app_inj in Eq as [Eq ->]; [|apply i64_bits_bound..]. apply i64_bits_inj in Eq as ->; [|done..].
    split; [|done]. cbn. apply Z.eqb_refl.
  - apply be_app_inj in Eq as [Eq ->].
    + split; [|done]. cbn. by apply nan_bits_inj.
    + cbn in Ov. unfold u64_MAX in Ov. destruct (f64_is_nan f); [done|]. cbn. lia.
    + cbn in Ow. unfold u64_MAX in Ow. destruct (f64_is_nan f'); [done|]. cbn. lia.
  - apply cons_eq_inv in Eq as [Eb ->]. split; [|done]. by destruct b, b'.
  - apply sized_inj in Eq as [Eq ->]; [|by apply Ov|by apply Ow]. apply string_bytes_inj in Eq as ->.
    split; [|done]. cbn. by rewrite bool_decide_eq_true_2.
  - apply sized_inj in Eq as [-> ->]; [|by apply Ov|by apply Ow]. split; [|done]. cbn. by rewrite bool_decide_eq_true_2.
  - destruct Ov as [Ll Ov], Ow as [Ll' Ow]. apply foldr_and in Ov, Ow. apply digest_len_inj in Eq as [El Eq]; [|done..].
    by apply array_apart in Eq.
  - destruct Ov as [Ll Ov], Ow as [Ll' Ow]. apply foldr_and in Ov, Ow. apply digest_len_inj in Eq as [El Eq]; [|done..].
    by apply object_apart in Eq.
Qed.

(** Equal values have the same digest bytes. *)
Lemma digest_value_eq v : ∀ w, value_eq v w = true → digest_value v = digest_value w.
Proof.
  induction v as [|i|f|b|s|bs|l IH|l IH] using LiveValue_nested_ind;
    intros [|i'|f'|b'|s'|bs'|l'|l']; cbn [value_eq]; try done.
  - by intros ->%Z.eqb_eq.
  - intros [->%N.eqb_eq|[Nf Nf']%andb_prop]%orb_prop; [done|]. cbn. by rewrite Nf, Nf'.
  - by intros ->%bool_decide_eq_true.
  - by intros ->%bool_decide_eq_true.
  - by intros ->%bool_decide_eq_true.
  - intros Eq. assert (len l = len l' ∧ digest_value <$> l = digest_value <$> l') as [El Em].
    { revert l' Eq. induction IH as [|v l Hv F IHl]; intros [|w l'] Eq; try done.
      apply andb_prop in Eq as [Ev El]. apply IHl in El as [El Em]. rewrite !fmap_cons, !len_cons, Em, El.
      by rewrite (Hv w Ev). }
    cbn [digest_value]. by rewrite El, Em.
  - intros Eq. set (g := λ f : string * LiveValue, digest_len (len (string_bytes f.1)) ++ string_bytes f.1 ++ digest_value f.2).
    assert (len l = len l' ∧ g <$> l = g <$> l') as [El Em].
    { revert l' Eq. induction IH as [|[k v] l Hv F IHl]; intros [|[k' w] l'] Eq; try done.
      apply andb_prop in Eq as [Ev El]. apply andb_prop in Ev as [Ek Ev]. apply bool_decide_eq_true in Ek. cbn in Ek, Ev, Hv.
      apply IHl in El as [El Em]. rewrite !fmap_cons, !len_cons, Em, El. unfold g at 1 3. cbn. subst k'.
      by rewrite (Hv w Ev). }
    cbn [digest_value]. fold g. by rewrite El, Em.
Qed.

(** ** Ids survive their text *)

(** The bits of one varint byte. *)
Definition seven_bits (b : N) : bool :=
  (N.land (N.lor b 0x80) 0x7f =? b) && negb (N.land (N.lor b 0x80) 0x80 =? 0) && (N.lor b 0x80 <? 256)
  && (N.land b 0x7f =? b) && (N.land b 0x80 =? 0).

Lemma seven_bits_low b : b < 128 → seven_bits b = true.
Proof.
  intros L. assert (forallb seven_bits (N.of_nat <$> seq 0 128) = true) as F by (by vm_compute).
  rewrite forallb_forall in F. apply F, list_elem_of_In, list_elem_of_fmap. exists (N.to_nat b).
  rewrite N2Nat.id, elem_of_seq. lia.
Qed.

Lemma varint_lor_shifted acc x k : acc < 2 ^ k → N.lor acc (N.shiftl x k) = acc + x * 2 ^ k.
Proof.
  intros L. rewrite <- N.shiftl_mul_pow2. rewrite N.add_nocarry_lxor.
  - symmetry. apply N.lxor_lor. apply N.bits_inj. intros i. rewrite N.land_spec, N.bits_0.
    destruct (N.ltb_spec i k) as [Li|Li]; [by rewrite N.shiftl_spec_low, andb_false_r|].
    rewrite (N.testbit_eqb acc), N.div_small; [done|]. eapply N.lt_le_trans; [exact L|]. by apply N.pow_le_mono_r.
  - apply N.bits_inj. intros i. rewrite N.land_spec, N.bits_0.
    destruct (N.ltb_spec i k) as [Li|Li]; [by rewrite N.shiftl_spec_low, andb_false_r|].
    rewrite (N.testbit_eqb acc), N.div_small; [done|]. eapply N.lt_le_trans; [exact L|]. by apply N.pow_le_mono_r.
Qed.

Lemma varint_step fuel t : table_varint fuel t =
  match fuel with
  | S fuel => if t / 128 =? 0 then [t mod 128] else N.lor (t mod 128) 0x80 :: table_varint fuel (t / 128)
  | O => [t mod 128]
  end.
Proof.
  destruct fuel; cbn [table_varint]; change 0x7f with (N.ones 7); rewrite N.land_ones; [done|]. by rewrite N.shiftr_div_pow2.
Qed.

Lemma read_varint_back fuel : ∀ t at_ acc rest, (at_ + fuel <= 4)%nat → t < 2 ^ (7 * N.of_nat (S fuel)) →
  acc < 2 ^ (7 * N.of_nat at_) →
  read_varint (table_varint fuel t ++ rest) at_ acc
  = Ok (acc + t * 2 ^ (7 * N.of_nat at_), (at_ + length (table_varint fuel t))%nat).
Proof.
  induction fuel as [|fuel IH]; intros t at_ acc rest La Lt Lc; rewrite varint_step.
  - cbn [app read_varint length]. rewrite (proj2 (Nat.eqb_neq _ _)) by lia.
    change (2 ^ (7 * N.of_nat 1)) with 128 in Lt. rewrite N.mod_small by done.
    pose proof (seven_bits_low t Lt) as B. unfold seven_bits in B. rewrite !andb_true_iff, !N.eqb_eq in B.
    destruct B as [[_ B1] B2]. by rewrite B1, B2, varint_lor_shifted.
  - pose proof (N.mod_lt t 128 ltac:(done)) as M. pose proof (N.div_mod t 128 ltac:(done)) as D.
    pose proof (seven_bits_low _ M) as B. unfold seven_bits in B. rewrite !andb_true_iff, !N.eqb_eq, negb_true_iff in B.
    destruct B as [[[[B1 B2] _] B3] B4]. destruct (N.eqb_spec (t / 128) 0) as [Z|Z].
    + cbn [app read_varint length]. rewrite (proj2 (Nat.eqb_neq _ _)) by lia. rewrite B3, B4, varint_lor_shifted by done. cbn [N.eqb].
      do 2 f_equal. rewrite Z in D. revert D. generalize (t mod 128). intros m ->. by rewrite N.mul_0_r, N.add_0_l.
    + cbn [app read_varint length]. rewrite (proj2 (Nat.eqb_neq _ _)) by lia. rewrite B1, B2, varint_lor_shifted by done.
      assert (2 ^ (7 * N.of_nat (at_ + 1)) = 128 * 2 ^ (7 * N.of_nat at_)) as Ep.
      { replace (7 * N.of_nat (at_ + 1)) with (7 + 7 * N.of_nat at_) by lia. by rewrite N.pow_add_r. }
      rewrite IH.
      * rewrite Ep. f_equal. f_equal; [|lia]. revert D. generalize (t mod 128), (t / 128). intros m q ->. lia.
      * lia.
      * apply N.Div0.div_lt_upper_bound. replace (7 * N.of_nat (S (S fuel))) with (7 + 7 * N.of_nat (S fuel)) in Lt by lia.
        by rewrite N.pow_add_r in Lt.
      * rewrite Ep. revert M. generalize (t mod 128), Lc. clear. intros m Lc M. nia.
Qed.

Lemma be_bytes_Forall k : ∀ n, Forall (λ b, b < 256) (be_bytes k n).
Proof.
  induction k as [|k IH]; intros n; [constructor|]. rewrite be_bytes_S. apply Forall_app. split; [apply IH|].
  constructor; [|constructor]. by apply N.mod_lt.
Qed.

Lemma table_varint_bytes fuel : ∀ t, Forall (λ b, b < 256) (table_varint fuel t).
Proof.
  induction fuel as [|fuel IH]; intros t; rewrite varint_step; pose proof (N.mod_lt t 128 ltac:(done)) as M.
  - constructor; [lia|constructor].
  - destruct (_ =? 0); constructor; [lia|constructor| |apply IH].
    pose proof (seven_bits_low _ M) as B. unfold seven_bits in B. rewrite !andb_true_iff, N.ltb_lt in B. tauto.
Qed.

Section id_laws.
Context `{IdText, !IdTextOk}.

Lemma payload_bytes id : doc_id_ok id → Forall (λ b, b < 256) (payload id).
Proof.
  intros [_ _ B]. unfold payload. rewrite !Forall_app. split; [split; [apply table_varint_bytes|done]|].
  apply be_bytes_Forall.
Qed.

Lemma doc_id_round_trip id : doc_id_ok id → doc_id_from_str (doc_id_to_string id) = Ok id.
Proof.
  intros O. unfold doc_id_from_str, doc_id_to_string. rewrite crockford_back by (by apply payload_bytes).
  set (v := table_varint 4 id.(di_table)). set (body := v ++ id.(di_bytes)).
  assert (payload id = body ++ be_bytes 2 (crc16 body)) as Ep by done.
  destruct O as [Lt Ln B]. unfold u32_MAX in *. rewrite Ep at 1. unfold body at 1. rewrite <- (assoc_L (++)).
  unfold v at 1. rewrite read_varint_back; [|lia|cbn; lia|cbn; lia]. fold v. cbn [Nat.add].
  change (2 ^ (7 * N.of_nat 0)) with 1. rewrite N.mul_1_r, N.add_0_l.
  rewrite (proj2 (N.leb_le _ _)) by done. cbn [negb].
  assert (length body = length v + DOC_ID_BYTES)%nat as Lb by (unfold body; by rewrite length_app, Ln).
  rewrite Ep, length_app, length_be_bytes, Lb, Nat.eqb_refl. cbn [negb].
  rewrite <- Lb, take_app_length, drop_app_length, bool_decide_eq_true_2 by done. cbn [negb].
  assert ({| di_table := id.(di_table); di_bytes := drop (length v) body |} = id) as Ei.
  { unfold body. rewrite drop_app_length. by destruct id. }
  rewrite Ei. by rewrite bool_decide_eq_true_2.
Qed.

(** Text that is accepted is the text of the id, up to the base32 decoding. *)
Lemma doc_id_canonical s id : doc_id_from_str s = Ok id → crockford_decode s = Some (payload id) ∧ doc_id_ok id.
Proof.
  unfold doc_id_from_str, bad_id. destruct (crockford_decode s) as [raw|] eqn:D; [|done].
  destruct (read_varint raw 0 0) as [[table at_]|]; [|done]. destruct (N.leb_spec table u32_MAX); [|done]. cbn [negb].
  destruct (Nat.eqb_spec (length raw) (at_ + DOC_ID_BYTES + 2)) as [El|]; [|done]. cbn [negb].
  case_bool_decide; [|done]. cbn [negb]. case_bool_decide as Ep; [|done]. cbn [negb]. intros [= <-].
  split; [by rewrite Ep|]. split; cbn; [done| |].
  - rewrite length_drop, length_take. lia.
  - apply Forall_drop, Forall_take. by eapply crockford_bytes.
Qed.
End id_laws.
