(* ===== verification/LiveDocs.v ===== *)
(** * Tables and documents (loams-live/src/catalog.rs, docs.rs)

    Documents and their index entries inside a TiKV transaction.  A table has user indexes on some of
    its fields; every document has one entry in [by_creation_time] and one in each user index.  A
    write returns a record that names every entry the document had before and has after it.  A scan
    reads the entries of an index range and then the documents, and reports the key range it
    depends on.

    Reads go through the interface [Reads], which a transaction and a snapshot implement.  The
    protobuf records are a parameter ([LiveCodec]). *)

From Stdlib Require Import NArith ZArith Lia Ascii.
From stdpp Require Import prelude gmap strings numbers list.
From S2P Require Import Prelude.
From S2P Require Import BTree.
From S2P Require Import ByteCodec.
From S2P Require Import TikvTuple.
From S2P Require Import LiveKeys.
From S2P Require Import LiveReadSet.
From S2P Require Import TikvTxn.
From S2P Require Import LiveValue.

Open Scope N_scope.

(** The [?] of a call that moves the state [t] on: [CALL] where the error is a [TxnError], which is
    made a [LiveError], and [STEP] where it is a [LiveError]. *)
Notation "'CALL' x ',' t '<-' m ';;' k" :=
  (match m with (t, Ok x) => k | (t, Err e) => (t, Err (LiveTxnError e)) end)
  (at level 10, x name, t name, m at level 99, k at level 200) : loams_scope.
Notation "'STEP' x ',' t '<-' m ';;' k" :=
  (match m with (t, Ok x) => k | (t, Err e) => (t, Err e) end)
  (at level 10, x name, t name, m at level 99, k at level 200) : loams_scope.

(** ** Reads *)

(** [KeyRange::bounds] *)
Definition range_bounds (r : KeyRange) : Bytes * option Bytes :=
  (r.(kr_lo), if bool_decide (r.(kr_hi) = []) then None else Some r.(kr_hi)).

(** The trait [Reads]. *)
Class Reads (R : Type) := {
  rd_get : R → Bytes → R * Result (option Bytes) TxnError;
  rd_batch_get : R → list Bytes → R * Result (list Pair) TxnError;
  rd_scan : R → KeyRange → N → bool → R * Result (list Pair) TxnError;
}.

#[export] Instance txn_reads {C E} `{!Client C E} : Reads (Txn C) := {
  rd_get t key := txn_get t key;
  rd_batch_get t keys := txn_batch_get t keys;
  rd_scan t range limit reverse :=
    let '(lo, hi) := range_bounds range in txn_scan t lo hi limit reverse;
}.

#[export] Instance snap_reads {C E} `{!Client C E} : Reads (Snap C) := {
  rd_get s key := snap_get s key;
  rd_batch_get s keys := snap_batch_get s keys;
  rd_scan s range limit reverse :=
    let '(lo, hi) := range_bounds range in snap_scan s lo hi limit reverse;
}.

(** ** Records *)

Record IndexDef := {
  ix_id : IndexId;
  ix_name : string;
  ix_fields : list string;
}.

Record TableDef := {
  tb_id : TableId;
  tb_name : string;
  tb_indexes : list IndexDef;
  tb_next_index_id : N;
}.

Record IndexSpec := {
  is_name : string;
  is_fields : list string;
}.

(** [pb::DocumentRecord], [pb::TableDef] and [pb::AppDef] *)
Record DocumentRecord := {
  dr_format : N;
  dr_creation_ms : N;
  dr_fields : gmap string PbValue;
}.
Record PbTableDef := {
  pt_format : N;
  pt_id : N;
  pt_name : string;
  pt_indexes : list (N * string * list string);
  pt_next_index_id : N;
}.
Record AppDef := {
  ad_format : N;
  ad_journal_shards : N;
}.

(** The protobuf encoding of the records (the buffa crate). *)
Class LiveCodec := {
  document_encode : DocumentRecord → Bytes;
  document_decode : Bytes → Result DocumentRecord string;
  table_encode : PbTableDef → Bytes;
  table_decode : Bytes → Result PbTableDef string;
  app_encode : AppDef → Bytes;
  app_decode : Bytes → Result AppDef string;
}.

Class LiveCodecOk `{LiveCodec} : Prop := {
  document_back r : document_decode (document_encode r) = Ok r;
  table_back r : table_decode (table_encode r) = Ok r;
  app_back r : app_decode (app_encode r) = Ok r;
}.

(** ** Tables *)

Definition MAX_NAME_BYTES : N := 64.
Definition BY_ID : string := "by_id".
Definition BY_CREATION_TIME : string := "by_creation_time".
Definition ID_FIELD : string := "_id".
Definition CREATION_TIME_FIELD : string := "_creationTime".
Definition MAX_SHARDS : N := 1024.

(** [TableDef::index_fields] *)
Definition index_fields (table : TableDef) (id : IndexId) : option (list string) :=
  if id =? BY_CREATION_TIME_INDEX then Some []
  else (λ r, r.2.(ix_fields)) <$> list_find (λ i, i.(ix_id) = id) table.(tb_indexes).

(** [TableDef::index_id] *)
Definition index_id (table : TableDef) (name : string) : option IndexId :=
  if bool_decide (name = BY_ID) then Some BY_ID_INDEX
  else if bool_decide (name = BY_CREATION_TIME) then Some BY_CREATION_TIME_INDEX
  else (λ r, r.2.(ix_id)) <$> list_find (λ i, i.(ix_name) = name) table.(tb_indexes).

(** [TableDef::to_proto] *)
Definition table_to_proto (t : TableDef) : PbTableDef := {|
  pt_format := 1;
  pt_id := t.(tb_id);
  pt_name := t.(tb_name);
  pt_indexes := (λ i, (i.(ix_id), i.(ix_name), i.(ix_fields))) <$> t.(tb_indexes);
  pt_next_index_id := t.(tb_next_index_id);
|}.

(** [TableDef::from_proto] *)
Definition table_from_proto (p : PbTableDef) : Result TableDef LiveError :=
  REFUSE negb (p.(pt_format) =? 1) WITH LiveCorrupt "table record format {} (expected 1)" ;;
  Ok {| tb_id := p.(pt_id);
        tb_name := p.(pt_name);
        tb_indexes := (λ i, {| ix_id := i.1.1; ix_name := i.1.2; ix_fields := i.2 |}) <$> p.(pt_indexes);
        tb_next_index_id := p.(pt_next_index_id) |}.

(** [is_ascii_alphabetic] and [is_ascii_alphanumeric] *)
Definition is_alphabetic (c : ascii) : bool :=
  let n := N_of_ascii c in (65 <=? n) && (n <=? 90) || (97 <=? n) && (n <=? 122).
Definition is_alphanumeric (c : ascii) : bool :=
  let n := N_of_ascii c in is_alphabetic c || (48 <=? n) && (n <=? 57).

(** [check_name] *)
Definition check_table_name (name : string) : Result () LiveError :=
  let ok :=
    (len (string_bytes name) <=? MAX_NAME_BYTES)
    && match String.list_ascii_of_string name with
       | [] => false
       | c :: rest => is_alphabetic c && forallb (λ c, is_alphanumeric c || bool_decide (c = "_"%char)) rest
       end in
  if ok then Ok ()
  else Err (InvalidArgument "{what} name '{name}': use 1 to {MAX_NAME_BYTES} ASCII letters, digits and '_', starting with a letter").

(** The body of the loop of [check_indexes]: the [n]-th index. *)
Definition check_index_spec (limits : Limits) (earlier : list IndexSpec) (spec : IndexSpec) : Result () LiveError :=
  LET _ <- check_table_name spec.(is_name) ;;
  REFUSE bool_decide (spec.(is_name) = BY_ID) || bool_decide (spec.(is_name) = BY_CREATION_TIME)
    WITH InvalidArgument "index name '{}' is a built-in index" ;;
  REFUSE existsb (λ other, bool_decide (other.(is_name) = spec.(is_name))) earlier
    WITH InvalidArgument "index '{}' is defined twice" ;;
  REFUSE bool_decide (spec.(is_fields) = []) WITH InvalidArgument "index '{}' has no fields" ;;
  REFUSE limits.(max_index_fields) <? len spec.(is_fields)
    WITH LimitExceeded "max_index_fields" "index '{}' has {} fields, more than {}" ;;
  each (λ field,
    REFUSE bool_decide (field = ""%string) || starts_with_underscore field
      WITH InvalidArgument "index '{}': field '{field}' cannot be indexed (system fields are appended to every index)" ;;
    REFUSE limits.(max_field_name_bytes) <? len (string_bytes field)
      WITH LimitExceeded "max_field_name_bytes" "index '{}': a field name has {} bytes, more than {}" ;;
    Ok ()) spec.(is_fields).

(** [check_indexes] *)
Definition check_indexes (indexes : list IndexSpec) (limits : Limits) : Result () LiveError :=
  REFUSE limits.(max_indexes) <? len indexes WITH LimitExceeded "max_indexes" "{} indexes, more than {}" ;;
  each (λ e, check_index_spec limits (take e.1 indexes) e.2) (imap (λ n spec, (n, spec)) indexes).

(** [decode_u32] *)
Definition decode_u32 (bytes : Bytes) : Result N LiveError :=
  if (length bytes =? 4)%nat then Ok (be_value bytes) else Err (LiveCorrupt "{what}: {} bytes, expected 4").

(** [check_shards] *)
Definition check_shards (shards : N) : Result () LiveError :=
  REFUSE (shards =? 0) || (MAX_SHARDS <? shards)
    WITH InvalidArgument "a journal has 1 to {MAX_SHARDS} shards, not {shards}" ;;
  Ok ().

(** ** The catalog *)

Section catalog.
Context `{LiveCodec}.

(** [TableDef::decode] *)
Definition table_def_decode (bytes : Bytes) : Result TableDef LiveError :=
  LET p <- map_err (λ e, LiveCorrupt ("table record: " +:+ e)) (table_decode bytes) ;;
  table_from_proto p.

(** [load_table_by_id] *)
Definition load_table_by_id {R} `{!Reads R} (r : R) (app : AppKeys) (id : TableId)
  : R * Result (option TableDef) LiveError :=
  CALL found, r <- rd_get r (table_key app id) ;;
  match found with
  | None => (r, Ok None)
  | Some bytes => TRY t <- table_def_decode bytes IN r ;; (r, Ok (Some t))
  end.

(** [load_table] *)
Definition load_table {R} `{!Reads R} (r : R) (app : AppKeys) (name : string)
  : R * Result (option TableDef) LiveError :=
  CALL found, r <- rd_get r (table_name_key app name) ;;
  match found with
  | None => (r, Ok None)
  | Some id =>
      TRY id <- decode_u32 id IN r ;;
      STEP table, r <- load_table_by_id r app id ;;
      match table with
      | Some t =>
          if bool_decide (t.(tb_name) = name) then (r, Ok (Some t))
          else (r, Err (LiveCorrupt "table name '{name}' points at table {id}, which does not name it back"))
      | None => (r, Err (LiveCorrupt "table name '{name}' points at table {id}, which does not name it back"))
      end
  end.

(** [list_tables]; [limit] stands for [usize::MAX]. *)
Definition list_tables {R} `{!Reads R} (r : R) (app : AppKeys) : R * Result (list TableDef) LiveError :=
  CALL pairs, r <- rd_scan r (tables_range app) u64_MAX false ;;
  (r, collect (λ p, table_def_decode p.2) pairs).

(** [load_journal_shards] *)
Definition load_journal_shards {R} `{!Reads R} (r : R) (app : AppKeys) : R * Result (option N) LiveError :=
  CALL found, r <- rd_get r (app_def_key app) ;;
  match found with
  | None => (r, Ok None)
  | Some bytes =>
      TRY def <- map_err (λ e, LiveCorrupt ("app record: " +:+ e)) (app_decode bytes) IN r ;;
      BAIL negb (def.(ad_format) =? 1) WITH LiveCorrupt "app record format {} (expected 1)" IN r ;;
      BAIL negb ((1 <=? def.(ad_journal_shards)) && (def.(ad_journal_shards) <=? MAX_SHARDS))
        WITH LiveCorrupt "app record: {} journal shards (1 to {MAX_SHARDS})" IN r ;;
      (r, Ok (Some def.(ad_journal_shards)))
  end.

Context {C E : Type} `{!Client C E}.
Implicit Types (t : Txn C).

(** The index definitions of a new table. *)
Definition new_indexes (indexes : list IndexSpec) : list IndexDef :=
  imap (λ n spec, {| ix_id := u32_add FIRST_USER (N.of_nat n); ix_name := spec.(is_name);
                     ix_fields := spec.(is_fields) |}) indexes.

(** [create_table] *)
Definition create_table t (app : AppKeys) (name : string) (indexes : list IndexSpec) (limits : Limits)
  : Txn C * Result TableDef LiveError :=
  TRY _ <- check_indexes indexes limits IN t ;;
  let counter := table_counter app in
  CALL found, t <- txn_get t counter ;;
  TRY id <- match found with None => Ok 1 | Some bytes => decode_u32 bytes end IN t ;;
  TRY next <- ok_or (u32_checked_add id 1) (LimitExceeded "tables" "the app has 2^32 − 1 tables") IN t ;;
  let table := {| tb_id := id; tb_name := name; tb_indexes := new_indexes indexes;
                  tb_next_index_id := u32_add FIRST_USER (len indexes) |} in
  CALL _, t <- txn_put t counter (be_bytes 4 next) ;;
  CALL _, t <- txn_put t (table_name_key app name) (be_bytes 4 id) ;;
  CALL _, t <- txn_put t (table_key app id) (table_encode (table_to_proto table)) ;;
  (t, Ok table).

(** [table_for_insert] *)
Definition table_for_insert t (app : AppKeys) (name : string) (limits : Limits)
  : Txn C * Result TableDef LiveError :=
  TRY _ <- check_table_name name IN t ;;
  STEP found, t <- load_table t app name ;;
  match found with
  | Some table => (t, Ok table)
  | None =>
      CALL schema, t <- txn_get t (schema_key app) ;;
      match schema with
      | Some _ => (t, Err (LiveNotFound "table '{name}' is not in the deployed schema"))
      | None => create_table t app name [] limits
      end
  end.

(** The loop of [define_table]: the new definitions and the next index id. *)
Fixpoint redefine (have : list IndexDef) (next : N) (indexes : list IndexSpec) : list IndexDef * N :=
  match indexes with
  | [] => ([], next)
  | spec :: indexes =>
      let kept := list_find (λ i, i.(ix_name) = spec.(is_name) ∧ i.(ix_fields) = spec.(is_fields)) have in
      let '(id, next) := match kept with Some i => (i.2.(ix_id), next) | None => (next, u32_add next 1) end in
      let '(defs, next) := redefine have next indexes in
      ({| ix_id := id; ix_name := spec.(is_name); ix_fields := spec.(is_fields) |} :: defs, next)
  end.

(** [define_table] *)
Definition define_table t (app : AppKeys) (name : string) (indexes : list IndexSpec) (limits : Limits)
  : Txn C * Result TableDef LiveError :=
  TRY _ <- check_table_name name IN t ;;
  TRY _ <- check_indexes indexes limits IN t ;;
  STEP found, t <- load_table t app name ;;
  match found with
  | None => create_table t app name indexes limits
  | Some table =>
      if bool_decide ((λ i, (i.(ix_name), i.(ix_fields))) <$> table.(tb_indexes)
                      = (λ s, (s.(is_name), s.(is_fields))) <$> indexes)
      then (t, Ok table)
      else
        let docs := documents_range app table.(tb_id) in
        CALL any, t <- txn_scan t docs.(kr_lo) (Some docs.(kr_hi)) 1 false ;;
        if negb (bool_decide (any = []))
        then (t, Err (FailedPrecondition "index changes need an empty table in R1: table '{name}' has documents"))
        else
          let '(defs, next) := redefine table.(tb_indexes) (N.max table.(tb_next_index_id) FIRST_USER) indexes in
          let table := {| tb_id := table.(tb_id); tb_name := table.(tb_name); tb_indexes := defs;
                          tb_next_index_id := next |} in
          CALL _, t <- txn_put t (table_key app table.(tb_id)) (table_encode (table_to_proto table)) ;;
          (t, Ok table)
  end.

(** [ensure_journal_shards] *)
Definition ensure_journal_shards t (app : AppKeys) (shards : N) : Txn C * Result N LiveError :=
  STEP stored, t <- load_journal_shards t app ;;
  match stored with
  | Some stored => (t, Ok stored)
  | None =>
      TRY _ <- check_shards shards IN t ;;
      CALL _, t <- txn_put t (app_def_key app) (app_encode {| ad_format := 1; ad_journal_shards := shards |}) ;;
      (t, Ok shards)
  end.

(** [set_journal_shards] *)
Definition set_journal_shards t (app : AppKeys) (shards : N) : Txn C * Result () LiveError :=
  TRY _ <- check_shards shards IN t ;;
  STEP current, t <- load_journal_shards t app ;;
  if bool_decide (current = Some shards) then (t, Ok ())
  else
    let '(lo, hi) := range_bounds (journal_range app) in
    CALL any, t <- txn_scan t lo hi 1 false ;;
    if negb (bool_decide (any = []))
    then (t, Err (FailedPrecondition "the journal shard count can change only while the journal is empty in R1: it has {} shards and entries"))
    else
      STEP _, t <-
        match current with
        | Some current =>
            CALL u, t <- txn_lock_keys t ((λ s, journal_head_key app (N.of_nat s)) <$> seq 0 (N.to_nat current)) ;;
            (t, Ok u)
        | None => (t, Ok ())
        end ;;
      CALL _, t <- txn_put t (app_def_key app) (app_encode {| ad_format := 1; ad_journal_shards := shards |}) ;;
      (t, Ok ()).
End catalog.

(** ** Documents *)

Record Doc := {
  doc_id : DocId;
  doc_creation_ms : N;
  doc_fields : gmap string LiveValue;
}.

Inductive Order := Asc | Desc.
Inductive Bound (A : Type) := Unbound | Included (a : A) | Excluded (a : A).
Arguments Unbound {A}.
Arguments Included {A} a.
Arguments Excluded {A} a.

Record IndexRange := {
  ir_table : TableId;
  ir_index : IndexId;
  ir_eq : list LiveValue;
  ir_lower : Bound LiveValue;
  ir_upper : Bound LiveValue;
  ir_order : Order;
  ir_limit : option N;
}.

(** [IndexRange::all] *)
Definition range_all (table : TableId) (index : IndexId) : IndexRange := {|
  ir_table := table; ir_index := index; ir_eq := []; ir_lower := Unbound; ir_upper := Unbound;
  ir_order := Asc; ir_limit := None |}.

(** [Doc::to_record] *)
Definition to_record (doc : Doc) : DocumentRecord := {|
  dr_format := 1; dr_creation_ms := doc.(doc_creation_ms); dr_fields := fields_to_proto doc.(doc_fields) |}.

(** [Doc::from_record] *)
Definition from_record (id : DocId) (record : DocumentRecord) : Result Doc LiveError :=
  REFUSE negb (record.(dr_format) =? 1) WITH LiveCorrupt "document {id}: record format {} (expected 1)" ;;
  LET fields <- map_err (λ _, LiveCorrupt "document {id}: {e}") (fields_from_proto record.(dr_fields)) ;;
  Ok {| doc_id := id; doc_creation_ms := record.(dr_creation_ms); doc_fields := fields |}.

(** [check_table] *)
Definition check_table (table : TableDef) (id : DocId) : Result () LiveError :=
  REFUSE negb (id.(di_table) =? table.(tb_id))
    WITH InvalidArgument "document {id} belongs to table {}, not to '{}' ({})" ;;
  Ok ().

(** [write_record] *)
Definition write_record (id : DocId) (kind : WriteKind) (removed added : list Bytes) : WriteRecord :=
  {| wr_table_id := id.(di_table); wr_doc_id := id.(di_bytes); wr_kind := kind; wr_removed := removed; wr_added := added |}.

(** The entry of one user index, in [index_keys]. *)
Definition user_index_key (app : AppKeys) (table : TableDef) (doc : Doc) (limits : Limits) (index : IndexDef)
  : Result Bytes LiveError :=
  LET values <-
    collect (λ f, map_err (λ _, InvalidArgument "index '{}', field '{f}': {e}")
                    (index_elem (default VNull (doc.(doc_fields) !! f)))) index.(ix_fields) ;;
  let key := index_entry app index.(ix_id) values doc.(doc_creation_ms) doc.(doc_id) in
  let tuple_len := len key - len (index_prefix app table.(tb_id) index.(ix_id)) - 8 - 16 in
  REFUSE limits.(max_index_key_bytes) <? tuple_len
    WITH LimitExceeded "max_index_key_bytes" "index '{}': the indexed values encode to {tuple_len} bytes, more than {}" ;;
  Ok key.

(** [index_keys] *)
Definition index_keys (app : AppKeys) (table : TableDef) (doc : Doc) (limits : Limits) : Result (list Bytes) LiveError :=
  LET keys <- collect (user_index_key app table doc limits) table.(tb_indexes) ;;
  Ok (index_entry app BY_CREATION_TIME_INDEX [] doc.(doc_creation_ms) doc.(doc_id) :: keys).

(** [encode_at]: what it appends to the key. *)
Definition encode_at (pos n : nat) (value : LiveValue) : Result Bytes LiveError :=
  if (pos <? n)%nat then LET e <- index_elem value ;; Ok (tuple_encode e)
  else
    match value with
    | VI64 ms =>
        if (0 <=? ms)%Z then Ok (be_bytes 8 (Z.to_N ms))
        else Err (InvalidArgument "_creationTime is compared with a non-negative int64, not {}")
    | _ => Err (InvalidArgument "_creationTime is compared with a non-negative int64, not {}")
    end.

(** [bounded] *)
Definition bounded (base : Bytes) (lower upper : Bound LiveValue) (at_ : LiveValue → Result Bytes LiveError)
  : Result KeyRange LiveError :=
  LET lo <- match lower with
            | Unbound => Ok base
            | Included v => at_ v
            | Excluded v => LET key <- at_ v ;; Ok (successor key)
            end ;;
  LET hi <- match upper with
            | Unbound => Ok (successor base)
            | Included v => LET key <- at_ v ;; Ok (successor key)
            | Excluded v => at_ v
            end ;;
  Ok {| kr_lo := lo; kr_hi := hi |}.

(** The loop of [index_key_range] over the equality values. *)
Fixpoint encode_eq (base : Bytes) (pos n : nat) (values : list LiveValue) : Result Bytes LiveError :=
  match values with
  | [] => Ok base
  | value :: values => LET part <- encode_at pos n value ;; encode_eq (base ++ part) (pos + 1) n values
  end.

Definition is_unbound {A} (b : Bound A) : bool := match b with Unbound => true | _ => false end.

Section docs.
Context `{IdText, LiveCodec}.

(** [Doc::decode] *)
Definition doc_decode (id : DocId) (bytes : Bytes) : Result Doc LiveError :=
  LET record <- map_err (λ _, LiveCorrupt "document {id}: {e}") (document_decode bytes) ;;
  from_record id record.

(** [encode] *)
Definition doc_encode (doc : Doc) (limits : Limits) : Result Bytes LiveError :=
  let bytes := document_encode (to_record doc) in
  LET _ <- check_document_bytes limits (len bytes) ;;
  Ok bytes.

(** The key of a [by_id] bound. *)
Definition by_id_at (app : AppKeys) (table : TableDef) (v : LiveValue) : Result Bytes LiveError :=
  match v with
  | VStr text =>
      LET id <- doc_id_from_str text ;;
      LET _ <- check_table table id ;;
      Ok ((documents_range app table.(tb_id)).(kr_lo) ++ id.(di_bytes))
  | v => Err (InvalidArgument ("a by_id bound is a document id string, not " +:+ type_name v))
  end.

(** [index_key_range] *)
Definition index_key_range (app : AppKeys) (table : TableDef) (range : IndexRange) : Result KeyRange LiveError :=
  REFUSE negb (range.(ir_table) =? table.(tb_id))
    WITH InvalidArgument "the range is on table {}, not on '{}' ({})" ;;
  if range.(ir_index) =? BY_ID_INDEX then
    REFUSE negb (bool_decide (range.(ir_eq) = [])) WITH InvalidArgument "by_id takes bounds on _id, not equality" ;;
    bounded (documents_range app table.(tb_id)).(kr_lo) range.(ir_lower) range.(ir_upper) (by_id_at app table)
  else
    LET fields <- ok_or (index_fields table range.(ir_index)) (LiveNotFound "index {} of table '{}'") ;;
    let n := length fields in
    REFUSE (n + 1 <? length range.(ir_eq))%nat
      WITH InvalidArgument "{} equality values for an index of {} fields and _creationTime" ;;
    let next := length range.(ir_eq) in
    let bounded_next := negb (is_unbound range.(ir_lower) && is_unbound range.(ir_upper)) in
    REFUSE bounded_next && (n <? next)%nat
      WITH InvalidArgument "an index range cannot bound _id after equality on _creationTime" ;;
    LET base <- encode_eq (index_prefix app table.(tb_id) range.(ir_index)) 0 n range.(ir_eq) ;;
    bounded base range.(ir_lower) range.(ir_upper)
      (λ v, LET part <- encode_at next n v ;; Ok (base ++ part)).

Section reads.
Context {R : Type} `{!Reads R}.

(** [get] *)
Definition docs_get (r : R) (app : AppKeys) (id : DocId) : R * Result (option Doc) LiveError :=
  CALL found, r <- rd_get r (document_key app id) ;;
  match found with
  | None => (r, Ok None)
  | Some bytes => TRY doc <- doc_decode id bytes IN r ;; (r, Ok (Some doc))
  end.

(** The documents of the pairs of a scan, in [scan]. *)
Definition docs_by_id (app : AppKeys) (table : TableDef) (pairs : list Pair) : Result (list Doc) LiveError :=
  collect (λ p,
    LET id <- ok_or (doc_id_of_document app table.(tb_id) p.1)
                (LiveCorrupt "a document key of the wrong length") ;;
    doc_decode id p.2) pairs.

Definition docs_by_entry (r : R) (app : AppKeys) (table : TableDef) (pairs : list Pair)
  : R * Result (list Doc) LiveError :=
  TRY ids <- collect (λ p, ok_or (fst <$> doc_of_index_entry app table.(tb_id) p.1)
                             (LiveCorrupt "an index entry key is too short")) pairs IN r ;;
  CALL pairs, r <- rd_batch_get r (document_key app <$> ids) ;;
  let found := list_to_map (M := gmap Bytes Bytes) (reverse pairs) in
  (r, collect (λ id,
        LET bytes <- ok_or (found !! document_key app id)
                       (LiveCorrupt "an index entry names a missing document {id}") ;;
        doc_decode id bytes) ids).

(** What a scan depends on, in [scan]. *)
Definition read_range (range : IndexRange) (keys : KeyRange) (pairs : list Pair) : KeyRange :=
  match range.(ir_limit), last pairs with
  | Some limit, Some last =>
      if len pairs =? limit then
        match range.(ir_order) with
        | Desc => {| kr_lo := last.1; kr_hi := keys.(kr_hi) |}
        | Asc => {| kr_lo := keys.(kr_lo); kr_hi := key_after last.1 |}
        end
      else keys
  | _, _ => keys
  end.

(** [scan] *)
Definition docs_scan (r : R) (app : AppKeys) (table : TableDef) (range : IndexRange) (limits : Limits)
  : R * Result (list Doc * KeyRange) LiveError :=
  TRY keys <- index_key_range app table range IN r ;;
  let max := limits.(max_scanned_docs) in
  TRY fetch <- match range.(ir_limit) with
               | Some limit =>
                   if max <? limit
                   then Err (LimitExceeded "max_scanned_docs" "a scan limit of {limit} is more than {max}")
                   else Ok limit
               | None => Ok (u64_saturating_add max 1)
               end IN r ;;
  let reverse := match range.(ir_order) with Desc => true | Asc => false end in
  CALL pairs, r <- (if range_is_empty keys || (fetch =? 0) then (r, Ok []) else rd_scan r keys fetch reverse) ;;
  BAIL bool_decide (range.(ir_limit) = None) && (max <? len pairs)
    WITH LimitExceeded "max_scanned_docs" "the range holds more than {max} documents; add a limit" IN r ;;
  let read := read_range range keys pairs in
  STEP docs, r <- (if range.(ir_index) =? BY_ID_INDEX then (r, docs_by_id app table pairs)
                   else docs_by_entry r app table pairs) ;;
  (r, Ok (docs, read)).
End reads.

Section writes.
Context {C E : Type} `{!Client C E}.
Implicit Types (t : Txn C).

(** [txn.put(key, Vec::new())] and [txn.delete(key)] of every key *)
Fixpoint put_all t (keys : list Bytes) : Txn C * Result () LiveError :=
  match keys with
  | [] => (t, Ok ())
  | key :: keys => CALL _, t <- txn_put t key [] ;; put_all t keys
  end.
Fixpoint delete_all t (keys : list Bytes) : Txn C * Result () LiveError :=
  match keys with
  | [] => (t, Ok ())
  | key :: keys => CALL _, t <- txn_delete t key ;; delete_all t keys
  end.

Definition total_len (keys : list Bytes) : N := foldr N.add 0 (len <$> keys).

(** [insert_sized]; [random] is what the OS random source gives. *)
Definition insert_sized t (app : AppKeys) (table : TableDef) (fields : gmap string LiveValue) (limits : Limits)
    (random : Result Bytes string) : Txn C * Result (DocId * WriteRecord * N) LiveError :=
  TRY _ <- check_fields limits fields IN t ;;
  TRY bytes <- map_err (λ _, LiveInternal "the OS random source failed: {e}") random IN t ;;
  let doc := {| doc_id := {| di_table := table.(tb_id); di_bytes := bytes |};
                doc_creation_ms := cl_start_ms t.(tx_inner); doc_fields := fields |} in
  TRY record <- doc_encode doc limits IN t ;;
  TRY added <- index_keys app table doc limits IN t ;;
  let doc_key := document_key app doc.(doc_id) in
  let bytes := len doc_key + len record + total_len added in
  CALL _, t <- txn_insert t doc_key record ;;
  STEP _, t <- put_all t added ;;
  (t, Ok (doc.(doc_id), write_record doc.(doc_id) WRITE_KIND_INSERT [] added, bytes)).

(** [existing] *)
Definition existing t (app : AppKeys) (table : TableDef) (id : DocId) : Txn C * Result Doc LiveError :=
  TRY _ <- check_table table id IN t ;;
  STEP found, t <- docs_get t app id ;;
  (t, ok_or found (LiveNotFound "document {id} in table '{}'")).

(** [rewrite] *)
Definition docs_rewrite t (app : AppKeys) (table : TableDef) (old : Doc) (fields : gmap string LiveValue)
    (limits : Limits) : Txn C * Result (WriteRecord * N) LiveError :=
  TRY _ <- check_fields limits fields IN t ;;
  TRY removed <- index_keys app table old limits IN t ;;
  let new := {| doc_id := old.(doc_id); doc_creation_ms := old.(doc_creation_ms); doc_fields := fields |} in
  TRY record <- doc_encode new limits IN t ;;
  TRY added <- index_keys app table new limits IN t ;;
  let doc_key := document_key app new.(doc_id) in
  CALL _, t <- txn_put t doc_key record ;;
  let keep := filter (λ k, k ∈ added) removed in
  STEP _, t <- delete_all t (filter (λ k, k ∉ keep) removed) ;;
  let fresh := filter (λ k, k ∉ keep) added in
  STEP _, t <- put_all t fresh ;;
  (t, Ok (write_record new.(doc_id) WRITE_KIND_REPLACE removed added, len doc_key + len record + total_len fresh)).

(** [replace_sized] *)
Definition replace_sized t (app : AppKeys) (table : TableDef) (id : DocId) (fields : gmap string LiveValue)
    (limits : Limits) : Txn C * Result (WriteRecord * N) LiveError :=
  STEP old, t <- existing t app table id ;;
  docs_rewrite t app table old fields limits.

(** [patch_sized] *)
Definition patch_sized t (app : AppKeys) (table : TableDef) (id : DocId) (fields : gmap string LiveValue)
    (limits : Limits) : Txn C * Result (WriteRecord * N) LiveError :=
  STEP old, t <- existing t app table id ;;
  docs_rewrite t app table old (fields ∪ old.(doc_fields)) limits.

(** [delete] *)
Definition docs_delete t (app : AppKeys) (table : TableDef) (id : DocId) (limits : Limits)
  : Txn C * Result (option WriteRecord) LiveError :=
  TRY _ <- check_table table id IN t ;;
  STEP found, t <- docs_get t app id ;;
  match found with
  | None => (t, Ok None)
  | Some old =>
      TRY removed <- index_keys app table old limits IN t ;;
      CALL _, t <- txn_delete t (document_key app id) ;;
      STEP _, t <- delete_all t removed ;;
      (t, Ok (Some (write_record id WRITE_KIND_DELETE removed [])))
  end.
End writes.
End docs.
