(* ===== verification/LiveDocsInv.v ===== *)
(** * Documents behave as a map, with their index entries

    A transaction and a snapshot read the keys under their root ([ReadsOk]).  Every write keeps each
    table in order ([table_ok]): the documents decode, every entry a document should have is there
    and every entry there is one of a document.  What a write does to the documents is one update of
    a map ([doc_at]). *)

From Stdlib Require Import NArith ZArith Lia.
From stdpp Require Import prelude gmap strings numbers sorting list.
From S2P Require Import Prelude.
From S2P Require Import BTree.
From S2P Require Import ByteCodec.
From S2P Require Import TikvTuple.
From S2P Require Import LiveKeys.
From S2P Require Import LiveReadSet.
From S2P Require Import TikvTxn.
From S2P Require Import LiveValue.
From S2P Require Import LiveDocs.

Open Scope N_scope.

(** ** What reads promise *)

Class ReadsOk (R : Type) `{!Reads R} := {
  rd_view : R → gmap Bytes Bytes;
  rd_get_ok r k r' v : rd_get r k = (r', v) →
    rd_view r' = rd_view r ∧ ∀ x, v = Ok x → x = rd_view r !! k;
  rd_batch_get_ok r ks r' v : rd_batch_get r ks = (r', v) →
    rd_view r' = rd_view r ∧ ∀ ps, v = Ok ps → ∀ k b, (k, b) ∈ ps ↔ k ∈ ks ∧ rd_view r !! k = Some b;
  rd_scan_ok r range n desc r' v : rd_scan r range n desc = (r', v) →
    rd_view r' = rd_view r
    ∧ ∀ ps, v = Ok ps → ps = scan_pairs (rd_view r) (range_bounds range).1 (range_bounds range).2 n desc;
  rd_view_bytes r k : is_Some (rd_view r !! k) → Forall (λ b, b < 256) k;
}.

Section txn_ok.
Context {C E : Type} `{!Client C E, !ClientOk C E}.

Definition txn_view (t : Txn C) : gmap Bytes Bytes := rel_view t.(tx_root) (cl_view t.(tx_inner)).
Definition snap_view (s : Snap C) : gmap Bytes Bytes := rel_view s.(sn_root) (cl_view s.(sn_inner)).

(** A call that left the root and the start timestamp as they were. *)
Definition txn_same (t t' : Txn C) : Prop :=
  t'.(tx_root) = t.(tx_root) ∧ cl_start_ms t'.(tx_inner) = cl_start_ms t.(tx_inner).

Lemma view_bytes root c k : is_Some (rel_view root (cl_view c) !! k) → Forall (λ b, b < 256) k.
Proof. rewrite rel_view_lookup. intros B. apply cl_view_bytes in B. by apply Forall_app in B as [_ B]. Qed.

Lemma txn_map_inv {A} t (r : C * Result A E) t' v : txn_map t r = (t', v) →
  t'.(tx_inner) = r.1 ∧ t'.(tx_root) = t.(tx_root) ∧ ∀ x, v = Ok x → r.2 = Ok x.
Proof. destruct r as [c [a|e]]; intros [= <- <-]; cbn; repeat split; by intros x [= ->]. Qed.

Lemma txn_note_inv {A} t (r : C * Result A (TxnError * bool)) t' v : txn_note t r = (t', v) →
  t'.(tx_inner) = r.1 ∧ t'.(tx_root) = t.(tx_root) ∧ ∀ x, v = Ok x → r.2 = Ok x.
Proof. destruct r as [c [a|e]]; intros [= <- <-]; cbn; repeat split; by intros x [= ->]. Qed.

Lemma get_rel root c k c' r : cl_get c (full_key root k) = (c', r) →
  same_view c c' ∧ ∀ x, r = Ok x → x = rel_view root (cl_view c) !! k.
Proof.
  intros G. apply cl_get_ok in G as (V & T & Gv). split; [done|]. intros x Ex. rewrite rel_view_lookup. by apply Gv.
Qed.

Lemma batch_rel root c ks c' r : paged_batch_get c root (full_key root <$> ks) = (c', r) →
  same_view c c' ∧ ∀ ps, r = Ok ps → ∀ k b, (k, b) ∈ ps ↔ k ∈ ks ∧ rel_view root (cl_view c) !! k = Some b.
Proof.
  intros B. pose proof (paged_batch_get_answers c root (full_key root <$> ks)) as [V Ps]. rewrite B in *. split; [done|].
  intros ps Ep k b. rewrite (Ps ps Ep). unfold batch_finds. cbn. rewrite elem_of_nil, rel_view_lookup.
  setoid_rewrite list_elem_of_fmap. unfold full_key. split.
  - intros [[]|(key & (k' & -> & I) & Ek & L)]. rewrite relative_full in Ek. by subst k'.
  - intros [I L]. right. exists (root ++ k). rewrite relative_full. eauto.
Qed.

Lemma scan_rel root c lo hi n desc c' r :
  paged_scan c root (full_range root lo hi).1 (full_range root lo hi).2 n desc = (c', r) →
  same_view c c' ∧ ∀ ps, r = Ok ps → ps = scan_pairs (rel_view root (cl_view c)) lo hi n desc.
Proof.
  intros S. apply paged_scan_spec in S as [V Ps]. split; [done|]. intros ps Ep. rewrite (Ps ps Ep). unfold scan_pairs.
  rewrite fmap_take, range_relative; [done|]. intros k. apply cl_view_bytes.
Qed.

(** A read of a transaction: the call of its client, unless its window has passed. *)
Lemma txn_read_inv {A} t (m : Txn C * Result A TxnError) t' v (Q : A → Prop) :
  (if txn_expired t then (t, Err (TFatal BELOW_SAFE_POINT)) else m) = (t', v) →
  (∀ t' v, m = (t', v) → t'.(tx_root) = t.(tx_root) ∧ same_view t.(tx_inner) t'.(tx_inner) ∧ ∀ x, v = Ok x → Q x) →
  txn_view t' = txn_view t ∧ txn_same t t' ∧ ∀ x, v = Ok x → Q x.
Proof.
  intros Em M. unfold txn_view, txn_same. destruct (txn_expired t).
  - injection Em as <- <-. repeat split; by intros x [=].
  - apply M in Em as (R & [V T] & Qx). rewrite R, V. done.
Qed.

Lemma txn_get_spec t k t' v : txn_get t k = (t', v) →
  txn_view t' = txn_view t ∧ txn_same t t' ∧ ∀ x, v = Ok x → x = txn_view t !! k.
Proof.
  intros G. apply (txn_read_inv t _ _ _ (λ x, x = txn_view t !! k)) in G; [done|]. intros t2 v2 M.
  apply txn_map_inv in M as (Ei & Er & Ev). destruct (cl_get _ _) as [c r] eqn:G'. apply get_rel in G' as [V Gx].
  cbn in *. subst c. split; [done|]. split; [done|]. intros x Ex. by apply Gx, Ev.
Qed.

Lemma txn_batch_get_spec t ks t' v : txn_batch_get t ks = (t', v) →
  txn_view t' = txn_view t ∧ txn_same t t'
  ∧ ∀ ps, v = Ok ps → ∀ k b, (k, b) ∈ ps ↔ k ∈ ks ∧ txn_view t !! k = Some b.
Proof.
  intros G. eapply (txn_read_inv t _ _ _ (λ ps, ∀ k b, (k, b) ∈ ps ↔ k ∈ ks ∧ txn_view t !! k = Some b)) in G; [done|].
  intros t2 v2 M. apply txn_note_inv in M as (Ei & Er & Ev). destruct (paged_batch_get _ _ _) as [c r] eqn:G'.
  apply batch_rel in G' as [V Gx]. cbn in *. subst c. split; [done|]. split; [done|]. intros x Ex. by apply Gx, Ev.
Qed.

Lemma txn_scan_spec t lo hi n desc t' v : txn_scan t lo hi n desc = (t', v) →
  txn_view t' = txn_view t ∧ txn_same t t' ∧ ∀ ps, v = Ok ps → ps = scan_pairs (txn_view t) lo hi n desc.
Proof.
  intros G. eapply (txn_read_inv t _ _ _ (λ ps, ps = scan_pairs (txn_view t) lo hi n desc)) in G; [done|].
  intros t2 v2 M. rewrite (surjective_pairing (full_range _ _ _)) in M.
  apply txn_note_inv in M as (Ei & Er & Ev). destruct (paged_scan _ _ _ _ _ _) as [c r] eqn:G'.
  apply scan_rel in G' as [V Gx]. cbn in *. subst c. split; [done|]. split; [done|]. intros x Ex. by apply Gx, Ev.
Qed.

#[export] Program Instance txn_reads_ok : ReadsOk (Txn C) := {| rd_view := txn_view |}.
Next Obligation. intros t k t' v G. apply txn_get_spec in G. tauto. Qed.
Next Obligation. intros t ks t' v G. apply txn_batch_get_spec in G. tauto. Qed.
Next Obligation.
  intros t range n desc t' v G. cbn in G. apply txn_scan_spec in G. tauto.
Qed.
Next Obligation. intros t k. apply view_bytes. Qed.

(** A read of a snapshot: the call of its client, unless its window has passed. *)
Lemma snap_read_inv {A F} s (f : F → TxnError) (m : C * Result A F) s' v (Q : A → Prop) :
  (if snap_expired s then (s, Err (TFatal BELOW_SAFE_POINT)) else snap_map s f m) = (s', v) →
  (∀ c r, m = (c, r) → same_view s.(sn_inner) c ∧ ∀ x, r = Ok x → Q x) →
  snap_view s' = snap_view s ∧ ∀ x, v = Ok x → Q x.
Proof.
  intros Em M. unfold snap_view. destruct (snap_expired s).
  - injection Em as <- <-. split; [done|]. by intros x [=].
  - destruct m as [c r]. destruct (M c r eq_refl) as [[V T] Qx]. injection Em as <- <-. cbn. rewrite V. split; [done|].
    intros x Ex. apply Qx. by destruct r; [injection Ex as ->|].
Qed.

#[export] Program Instance snap_reads_ok : ReadsOk (Snap C) := {| rd_view := snap_view |}.
Next Obligation. intros s k s' v G. eapply snap_read_inv; [exact G|]. intros c r. apply get_rel. Qed.
Next Obligation. intros s ks s' v G. by eapply snap_read_inv in G; [|intros c r; apply batch_rel]. Qed.
Next Obligation.
  intros s range n desc s' v G. cbn in G. eapply snap_read_inv; [exact G|]. intros c r. apply scan_rel.
Qed.
Next Obligation. intros s k. apply view_bytes. Qed.
(** ** What writes do *)

Lemma txn_put_spec t k v t' u : txn_put t k v = (t', Ok u) → txn_view t' = <[k := v]> (txn_view t) ∧ txn_same t t'.
Proof.
  unfold txn_put. destruct (_ <? _); [done|]. intros M. apply txn_map_inv in M as (Ei & Er & Ev). specialize (Ev _ eq_refl).
  destruct (cl_put _ _ _) as [c r] eqn:P. cbn in *. subst r c. destruct u. apply cl_put_ok in P as [V T].
  unfold txn_view, txn_same. rewrite Er, V. split; [apply rel_view_insert|done].
Qed.

Lemma txn_insert_spec t k v t' u : txn_insert t k v = (t', Ok u) →
  txn_view t !! k = None ∧ txn_view t' = <[k := v]> (txn_view t) ∧ txn_same t t'.
Proof.
  unfold txn_insert. destruct (_ <? _); [done|]. intros M. apply txn_map_inv in M as (Ei & Er & Ev). specialize (Ev _ eq_refl).
  destruct (cl_insert _ _ _) as [c r] eqn:P. cbn in *. subst r c. destruct u. apply cl_insert_ok in P as (N & V & T).
  unfold txn_view, txn_same. rewrite Er, V, rel_view_lookup. split; [done|]. split; [apply rel_view_insert|done].
Qed.

Lemma txn_delete_spec t k t' u : txn_delete t k = (t', Ok u) → txn_view t' = delete k (txn_view t) ∧ txn_same t t'.
Proof.
  unfold txn_delete. intros M. apply txn_map_inv in M as (Ei & Er & Ev). specialize (Ev _ eq_refl).
  destruct (cl_delete _ _) as [c r] eqn:P. cbn in *. subst r c. destruct u. apply cl_delete_ok in P as [V T].
  unfold txn_view, txn_same. rewrite Er, V. split; [apply rel_view_delete|done].
Qed.

Lemma txn_lock_keys_spec t ks t' u : txn_lock_keys t ks = (t', Ok u) → txn_view t' = txn_view t ∧ txn_same t t'.
Proof.
  unfold txn_lock_keys. intros M. apply txn_map_inv in M as (Ei & Er & Ev). specialize (Ev _ eq_refl).
  destruct (cl_lock_keys _ _) as [c r] eqn:P. cbn in *. subst r c. destruct u. apply cl_lock_keys_ok in P as [V T].
  unfold txn_view, txn_same. by rewrite Er, V.
Qed.

Lemma txn_same_trans (t1 t2 t3 : Txn C) : txn_same t1 t2 → txn_same t2 t3 → txn_same t1 t3.
Proof. intros [E1 F1] [E2 F2]. split; congruence. Qed.

Lemma put_all_spec keys : ∀ t t' u, put_all t keys = (t', Ok u) →
  txn_same t t' ∧ ∀ k, txn_view t' !! k = if bool_decide (k ∈ keys) then Some [] else txn_view t !! k.
Proof.
  induction keys as [|key keys IH]; intros t t' u; cbn [put_all].
  - intros [= <- _]. split; [done|]. intros k. by rewrite bool_decide_eq_false_2 by apply not_elem_of_nil.
  - destruct (txn_put t key []) as [t1 [u1|]] eqn:P; [|done]. intros M. apply IH in M as [S M].
    apply txn_put_spec in P as [V S1]. split; [by eapply txn_same_trans|]. intros k. rewrite M, V.
    destruct (bool_decide_reflect (k ∈ keys)) as [I|I].
    + by rewrite bool_decide_eq_true_2 by (by right).
    + destruct (decide (key = k)) as [->|N].
      * by rewrite lookup_insert_eq, bool_decide_eq_true_2 by left.
      * rewrite lookup_insert_ne, bool_decide_eq_false_2; [done| |done]. intros J.
        apply elem_of_cons in J as [J|J]; [by subst|done].
Qed.

Lemma delete_all_spec keys : ∀ t t' u, delete_all t keys = (t', Ok u) →
  txn_same t t' ∧ ∀ k, txn_view t' !! k = if bool_decide (k ∈ keys) then None else txn_view t !! k.
Proof.
  induction keys as [|key keys IH]; intros t t' u; cbn [delete_all].
  - intros [= <- _]. split; [done|]. intros k. by rewrite bool_decide_eq_false_2 by apply not_elem_of_nil.
  - destruct (txn_delete t key) as [t1 [u1|]] eqn:P; [|done]. intros M. apply IH in M as [S M].
    apply txn_delete_spec in P as [V S1]. split; [by eapply txn_same_trans|]. intros k. rewrite M, V.
    destruct (bool_decide_reflect (k ∈ keys)) as [I|I].
    + by rewrite bool_decide_eq_true_2 by (by right).
    + destruct (decide (key = k)) as [->|N].
      * by rewrite lookup_delete_eq, bool_decide_eq_true_2 by left.
      * rewrite lookup_delete_ne, bool_decide_eq_false_2; [done| |done]. intros J.
        apply elem_of_cons in J as [J|J]; [by subst|done].
Qed.
End txn_ok.

(** ** Keys apart *)

Definition doc_prefix (app : AppKeys) (table : TableId) : Bytes := key_with app DOCUMENT ++ be_bytes 4 table.
Definition entry_prefix (app : AppKeys) (table : TableId) : Bytes := key_with app INDEX ++ be_bytes 4 table.

Lemma u32_be_inj a b x y : a <= u32_MAX → b <= u32_MAX → be_bytes 4 a ++ x = be_bytes 4 b ++ y → a = b ∧ x = y.
Proof. unfold u32_MAX. intros La Lb. apply be_app_inj; cbn; lia. Qed.

Lemma document_key_eq app id : document_key app id = doc_prefix app id.(di_table) ++ id.(di_bytes).
Proof. done. Qed.

Lemma document_key_inj app id id' : id.(di_table) <= u32_MAX → id'.(di_table) <= u32_MAX →
  document_key app id = document_key app id' → id = id'.
Proof.
  intros L L'. rewrite !document_key_eq. unfold doc_prefix. rewrite <- !(assoc_L (++)). intros Eq.
  apply app_inv_head in Eq. apply u32_be_inj in Eq as [Et Eb]; [|done..]. destruct id, id'. cbn in *. by subst.
Qed.

Lemma document_not_entry app id table : ¬ entry_prefix app table `prefix_of` document_key app id.
Proof.
  intros [s Eq]. rewrite document_key_eq in Eq. unfold doc_prefix, entry_prefix, key_with in Eq.
  rewrite <- !(assoc_L (++)) in Eq. apply app_inv_head in Eq. discriminate Eq.
Qed.

Lemma entry_prefix_inj app a b key : a <= u32_MAX → b <= u32_MAX →
  entry_prefix app a `prefix_of` key → entry_prefix app b `prefix_of` key → a = b.
Proof.
  intros La Lb [x ->] [y Eq]. unfold entry_prefix in Eq. rewrite <- !(assoc_L (++)) in Eq. apply app_inv_head in Eq.
  by apply u32_be_inj in Eq as [-> _].
Qed.

Lemma doc_prefix_inj app a b key : a <= u32_MAX → b <= u32_MAX →
  doc_prefix app a `prefix_of` key → doc_prefix app b `prefix_of` key → a = b.
Proof.
  intros La Lb [x ->] [y Eq]. unfold doc_prefix in Eq. rewrite <- !(assoc_L (++)) in Eq. apply app_inv_head in Eq.
  by apply u32_be_inj in Eq as [-> _].
Qed.

Lemma doc_not_entry_prefix app a b key : doc_prefix app a `prefix_of` key → ¬ entry_prefix app b `prefix_of` key.
Proof.
  intros [x ->] [y Eq]. unfold doc_prefix, entry_prefix, key_with in Eq. rewrite <- !(assoc_L (++)) in Eq.
  apply app_inv_head in Eq. discriminate Eq.
Qed.

Lemma entry_has_prefix app index values ms id :
  entry_prefix app id.(di_table) `prefix_of` index_entry app index values ms id.
Proof. unfold index_entry, index_prefix, entry_prefix. eexists. by rewrite <- !(assoc_L (++)). Qed.

(** ** Documents and their entries *)

Record doc_ok (doc : Doc) : Prop := {
  dk_id : doc_id_ok doc.(doc_id);
  dk_creation : doc.(doc_creation_ms) <= u64_MAX;
  dk_fields : map_Forall (λ _ v, value_ok v) doc.(doc_fields);
}.

Lemma index_keys_entries app table doc limits keys key : index_keys app table doc limits = Ok keys → key ∈ keys →
  ∃ index values, key = index_entry app index values doc.(doc_creation_ms) doc.(doc_id).
Proof.
  unfold index_keys. destruct (collect _ _) as [ks|] eqn:Ec; [|done]. intros [= <-] I.
  apply elem_of_cons in I as [->|I]; [eauto|]. apply collect_Ok in Ec.
  apply list_elem_of_lookup in I as [n Ln]. eapply Forall2_lookup_r in Ec as (index & _ & Eu); [|exact Ln].
  unfold user_index_key in Eu. destruct (collect _ _) as [values|]; [|done]. destruct (_ <? _); [done|].
  injection Eu as <-. eauto.
Qed.

Lemma index_keys_prefix app table doc limits keys key : index_keys app table doc limits = Ok keys → key ∈ keys →
  entry_prefix app doc.(doc_id).(di_table) `prefix_of` key.
Proof. intros Ek I. eapply index_keys_entries in I as (? & ? & ->); [|done]. apply entry_has_prefix. Qed.

Lemma index_keys_doc app table doc limits keys key : doc_ok doc → index_keys app table doc limits = Ok keys → key ∈ keys →
  doc_of_index_entry app doc.(doc_id).(di_table) key = Some (doc.(doc_id), doc.(doc_creation_ms)).
Proof.
  intros [[_ L _] Lc _] Ek I. eapply index_keys_entries in I as (? & ? & ->); [|done]. by apply index_entry_reads_back.
Qed.

Section codec.
Context `{LiveCodec, !LiveCodecOk}.

Lemma doc_decode_id id bytes doc : doc_decode id bytes = Ok doc → doc.(doc_id) = id.
Proof.
  unfold doc_decode, from_record. destruct (map_err _ _) as [r|]; [|done]. destruct (negb _); [done|].
  destruct (map_err _ _); [|done]. by intros [= <-].
Qed.

Lemma doc_decode_encode doc limits bytes : doc_encode doc limits = Ok bytes → doc_decode doc.(doc_id) bytes = Ok doc.
Proof.
  unfold doc_encode. destruct (check_document_bytes _ _); [|done]. intros [= <-]. unfold doc_decode.
  rewrite document_back. cbn. unfold from_record. cbn. rewrite fields_round_trip. cbn. by destruct doc.
Qed.

(** The document stored under [id]. *)
Definition doc_at (app : AppKeys) (kv : gmap Bytes Bytes) (id : DocId) : option Doc :=
  bytes ← kv !! document_key app id; result_ok (doc_decode id bytes).

Lemma doc_at_Some app kv id doc :
  doc_at app kv id = Some doc ↔ ∃ bytes, kv !! document_key app id = Some bytes ∧ doc_decode id bytes = Ok doc.
Proof.
  unfold doc_at. destruct (kv !! document_key app id) as [bytes|]; cbn.
  - destruct (doc_decode id bytes) as [d|] eqn:D; cbn.
    + split; [intros [= ->]; eauto|]. intros (b & [= <-] & Eb). congruence.
    + split; [done|]. intros (b & [= <-] & Eb). congruence.
  - split; [done|]. by intros (b & [=] & _).
Qed.

(** ** Tables in order *)

Context (app : AppKeys) (limits : Limits).

(** Every document of the table decodes and has its entries; every entry is one of a document. *)
Record table_ok (kv : gmap Bytes Bytes) (table : TableDef) : Prop := {
  tk_id : table.(tb_id) <= u32_MAX;
  tk_keys key : doc_prefix app table.(tb_id) `prefix_of` key → is_Some (kv !! key) →
    ∃ id doc, doc_id_ok id ∧ id.(di_table) = table.(tb_id) ∧ key = document_key app id
              ∧ doc_at app kv id = Some doc;
  tk_docs id doc : doc_id_ok id → id.(di_table) = table.(tb_id) → doc_at app kv id = Some doc →
    doc_ok doc ∧ ∃ keys, index_keys app table doc limits = Ok keys ∧ ∀ key, key ∈ keys → kv !! key = Some [];
  tk_entries key : entry_prefix app table.(tb_id) `prefix_of` key → is_Some (kv !! key) →
    ∃ id doc keys, doc_id_ok id ∧ id.(di_table) = table.(tb_id) ∧ doc_at app kv id = Some doc
                   ∧ index_keys app table doc limits = Ok keys ∧ key ∈ keys;
}.

(** The entries a document should have, or none where there is no document. *)
Definition keys_of (table : TableDef) (doc : option Doc) : Result (list Bytes) LiveError :=
  match doc with Some doc => index_keys app table doc limits | None => Ok [] end.

(** The kind of a write by the document before and after it. *)
Definition write_kind (old new : option Doc) : option WriteKind :=
  match old, new with
  | None, Some _ => Some WRITE_KIND_INSERT
  | Some _, Some _ => Some WRITE_KIND_REPLACE
  | Some _, None => Some WRITE_KIND_DELETE
  | None, None => None
  end.

(** [kv'] is [kv] with the document [id] of [table] changed from [old] to [new], and its entries with it. *)
Record doc_write (kv : gmap Bytes Bytes) (table : TableDef) (id : DocId) (old new : option Doc) (w : WriteRecord)
    (kv' : gmap Bytes Bytes) : Prop := {
  dw_id : doc_id_ok id;
  dw_table : id.(di_table) = table.(tb_id);
  dw_record : ∃ kind, write_kind old new = Some kind ∧ w = write_record id kind w.(wr_removed) w.(wr_added);
  dw_removed : keys_of table old = Ok w.(wr_removed);
  dw_added : keys_of table new = Ok w.(wr_added);
  dw_old : doc_at app kv id = old;
  dw_absent : old = None → kv !! document_key app id = None;
  dw_new : doc_at app kv' id = new;
  dw_gone : new = None → kv' !! document_key app id = None;
  dw_new_ok doc : new = Some doc → doc.(doc_id) = id ∧ doc_ok doc;
  dw_entries key : entry_prefix app table.(tb_id) `prefix_of` key →
    kv' !! key = if bool_decide (key ∈ w.(wr_added)) then (if bool_decide (key ∈ w.(wr_removed)) then kv !! key else Some [])
                 else if bool_decide (key ∈ w.(wr_removed)) then None else kv !! key;
  dw_frame key : key ≠ document_key app id → ¬ entry_prefix app table.(tb_id) `prefix_of` key → kv' !! key = kv !! key;
}.

Lemma doc_at_frame kv kv' id : kv' !! document_key app id = kv !! document_key app id → doc_at app kv' id = doc_at app kv id.
Proof. unfold doc_at. by intros ->. Qed.

(** Documents are a map: a write changes one of them. *)
Lemma doc_write_at kv table id old new w kv' id' : doc_write kv table id old new w kv' → doc_id_ok id' →
  doc_at app kv' id' = if bool_decide (id' = id) then new else doc_at app kv id'.
Proof.
  intros W O. case_bool_decide as D; [subst; apply W|]. apply doc_at_frame, (dw_frame _ _ _ _ _ _ _ W).
  - intros Eq. apply D. apply (document_key_inj app); [apply O|apply (dw_id _ _ _ _ _ _ _ W)|done].
  - apply document_not_entry.
Qed.

Section write.
Context (kv : gmap Bytes Bytes) (table : TableDef) (id : DocId) (old new : option Doc) (w : WriteRecord).
Context (kv' : gmap Bytes Bytes) (W : doc_write kv table id old new w kv').

Lemma removed_key key : table_ok kv table → key ∈ w.(wr_removed) →
  ∃ doc, old = Some doc ∧ kv !! key = Some [] ∧ fst <$> doc_of_index_entry app table.(tb_id) key = Some id.
Proof.
  intros T I. pose proof (dw_removed _ _ _ _ _ _ _ W) as Er. pose proof (dw_old _ _ _ _ _ _ _ W) as Eo.
  destruct old as [doc|]; cbn in Er; [|injection Er as Er; rewrite <- Er in I; by apply elem_of_nil in I].
  exists doc. split; [done|]. pose proof Eo as Ed. apply doc_at_Some in Ed as (bytes & _ & Ed). apply doc_decode_id in Ed.
  apply (tk_docs _ _ T) in Eo as (O & keys & Ek & Hk); [|apply W|apply W]. rewrite Er in Ek. injection Ek as <-.
  split; [by apply Hk|]. erewrite <- (dw_table _ _ _ _ _ _ _ W), <- Ed, index_keys_doc by done. done.
Qed.

Lemma added_key key : key ∈ w.(wr_added) →
  ∃ doc, new = Some doc ∧ entry_prefix app table.(tb_id) `prefix_of` key
         ∧ fst <$> doc_of_index_entry app table.(tb_id) key = Some id.
Proof.
  intros I. pose proof (dw_added _ _ _ _ _ _ _ W) as Ea. destruct new as [doc|] eqn:En; cbn in Ea.
  2:{ injection Ea as Ea. rewrite <- Ea in I. by apply elem_of_nil in I. }
  destruct (dw_new_ok _ _ _ _ _ _ _ W doc eq_refl) as [Ed O]. exists doc. split; [done|].
  rewrite <- (dw_table _ _ _ _ _ _ _ W), <- Ed. split; [by eapply index_keys_prefix|]. by erewrite index_keys_doc.
Qed.

(** An entry of another document of the table is left alone. *)
Lemma other_entry key id' ms : table_ok kv table → entry_prefix app table.(tb_id) `prefix_of` key →
  doc_of_index_entry app table.(tb_id) key = Some (id', ms) → id' ≠ id → kv' !! key = kv !! key.
Proof.
  intros T P D N. rewrite (dw_entries _ _ _ _ _ _ _ W key P). rewrite !bool_decide_eq_false_2; [done| |].
  - intros I. apply removed_key in I as (? & _ & _ & D'); [|done]. rewrite D in D'. by injection D'.
  - intros I. apply added_key in I as (? & _ & _ & D'). rewrite D in D'. by injection D'.
Qed.

Lemma write_keeps_table : table_ok kv table → table_ok kv' table.
Proof.
  intros T. pose proof (λ id', doc_write_at _ _ _ _ _ _ _ id' W) as At. split.
  - apply T.
  - intros key P S. destruct (decide (key = document_key app id)) as [->|N].
    + destruct new as [doc|] eqn:En; [|rewrite (dw_gone _ _ _ _ _ _ _ W eq_refl) in S; by destruct S].
      exists id, doc. repeat split; try apply W.
    + rewrite (dw_frame _ _ _ _ _ _ _ W) in S; [|done|by apply (doc_not_entry_prefix _ _ _ _ P)].
      destruct (tk_keys _ _ T key P S) as (id' & doc & O & Et & -> & D). exists id', doc. repeat split; try done; try apply O.
      rewrite At by done. rewrite bool_decide_eq_false_2; [done|]. by intros ->.
  - intros id' doc O Et D. rewrite At in D by done. case_bool_decide as Ei.
    + subst id'. destruct (dw_new_ok _ _ _ _ _ _ _ W doc D) as [Ed Od]. split; [done|]. exists w.(wr_added).
      pose proof (dw_added _ _ _ _ _ _ _ W) as Ea. rewrite D in Ea. split; [done|]. intros key I.
      destruct (added_key key I) as (_ & _ & P & _). rewrite (dw_entries _ _ _ _ _ _ _ W key P), bool_decide_eq_true_2 by done.
      case_bool_decide as J; [|done]. by apply removed_key in J as (? & _ & J & _).
    + destruct (tk_docs _ _ T id' doc O Et D) as (Od & keys & Ek & Hk). split; [done|]. exists keys. split; [done|].
      intros key I. rewrite <- (Hk key I). apply doc_at_Some in D as (? & _ & Ed). apply doc_decode_id in Ed.
      eapply (other_entry _ id'); [done| | |done].
      * rewrite <- Et, <- Ed. by eapply index_keys_prefix.
      * rewrite <- Et, <- Ed. by eapply index_keys_doc.
  - intros key P S. rewrite (dw_entries _ _ _ _ _ _ _ W key P) in S. destruct (decide (key ∈ w.(wr_added))) as [I|I].
    + destruct (added_key key I) as (doc & En & _ & _). exists id, doc, w.(wr_added).
      pose proof (dw_added _ _ _ _ _ _ _ W) as Ea. rewrite En in Ea. pose proof (dw_new _ _ _ _ _ _ _ W). rewrite En in *.
      repeat split; try apply W; done.
    + rewrite bool_decide_eq_false_2 in S by done. case_bool_decide as J; [by destruct S|].
      destruct (tk_entries _ _ T key P S) as (id' & doc & keys & O & Et & D & Ek & I'). exists id', doc, keys.
      repeat split; try done; try apply O. rewrite At by done. case_bool_decide as Ei; [|done]. subst id'. exfalso. apply J.
      pose proof (dw_removed _ _ _ _ _ _ _ W) as Er. rewrite <- (dw_old _ _ _ _ _ _ _ W), D in Er. cbn in Er. congruence.
Qed.

Lemma write_keeps_other table' : table.(tb_id) <= u32_MAX → table'.(tb_id) ≠ table.(tb_id) →
  table_ok kv table' → table_ok kv' table'.
Proof.
  intros Lt Nt T. pose proof (tk_id _ _ T) as Lt'.
  assert (∀ id', doc_id_ok id' → id'.(di_table) = table'.(tb_id) → doc_at app kv' id' = doc_at app kv id') as At.
  { intros id' O Et. rewrite (doc_write_at _ _ _ _ _ _ _ _ W O), bool_decide_eq_false_2; [done|]. intros ->.
    apply Nt. rewrite <- Et. apply W. }
  assert (∀ key, entry_prefix app table'.(tb_id) `prefix_of` key → kv' !! key = kv !! key) as En.
  { intros key P. apply (dw_frame _ _ _ _ _ _ _ W).
    - intros ->. by apply document_not_entry in P.
    - intros P'. apply Nt. by eapply entry_prefix_inj. }
  split; [done| | |].
  - intros key P S. rewrite (dw_frame _ _ _ _ _ _ _ W) in S.
    + destruct (tk_keys _ _ T key P S) as (id' & doc & O & Et & -> & D). exists id', doc. by rewrite At.
    + intros ->. apply Nt. symmetry. eapply doc_prefix_inj; [exact Lt|exact Lt'| |exact P].
      rewrite document_key_eq, (dw_table _ _ _ _ _ _ _ W). by exists id.(di_bytes).
    + by apply (doc_not_entry_prefix _ _ _ _ P).
  - intros id' doc O Et D. rewrite At in D by done. destruct (tk_docs _ _ T id' doc O Et D) as (Od & keys & Ek & Hk).
    split; [done|]. exists keys. split; [done|]. intros key I. rewrite En; [by apply Hk|].
    apply doc_at_Some in D as (? & _ & Ed). apply doc_decode_id in Ed. rewrite <- Et, <- Ed. by eapply index_keys_prefix.
  - intros key P S. rewrite En in S by done.
    destruct (tk_entries _ _ T key P S) as (id' & doc & keys & O & Et & D & Ek & I). exists id', doc, keys. by rewrite At.
Qed.
End write.
End codec.

(** ** Every operation is one write *)

Section operations.
Context `{IdText, LiveCodec, !LiveCodecOk} {C E : Type} `{!Client C E, !ClientOk C E}.
Context (app : AppKeys) (limits : Limits).
Implicit Types (t : Txn C).

Lemma docs_get_spec {R} `{!Reads R, !ReadsOk R} (r : R) id r' v : docs_get r app id = (r', v) →
  rd_view r' = rd_view r ∧ ∀ d, v = Ok d → d = doc_at app (rd_view r) id ∧ (d = None → rd_view r !! document_key app id = None).
Proof.
  unfold docs_get. destruct (rd_get r _) as [r1 res] eqn:G. apply rd_get_ok in G as [V G].
  destruct res as [found|e]; [|intros [= <- <-]; split; [done|]; by intros d [=]].
  specialize (G _ eq_refl). unfold doc_at. destruct found as [bytes|].
  - destruct (doc_decode id bytes) as [doc|e] eqn:D; intros [= <- <-]; split; try done; intros d [= <-].
    rewrite <- G. cbn. by rewrite D.
  - intros [= <- <-]. split; [done|]. intros d [= <-]. by rewrite <- G.
Qed.

Lemma txn_docs_get_same t id t' v : docs_get t app id = (t', v) → txn_same t t'.
Proof.
  unfold docs_get. cbn. destruct (txn_get t _) as [t1 res] eqn:G. apply txn_get_spec in G as (_ & S & _).
  destruct res as [[bytes|]|e]; [|by intros [= <- _]..]. destruct (doc_decode id bytes); by intros [= <- _].
Qed.

Lemma keys_prefix table doc keys key : keys_of app limits table doc = Ok keys → key ∈ keys →
  (∀ d, doc = Some d → d.(doc_id).(di_table) = table.(tb_id)) → entry_prefix app table.(tb_id) `prefix_of` key.
Proof.
  intros Ek I Et. destruct doc as [d|]; cbn in Ek; [|injection Ek as <-; by apply elem_of_nil in I].
  rewrite <- (Et d eq_refl). by eapply index_keys_prefix.
Qed.

(** A document key is not an index key. *)
Lemma document_not_key table doc keys id : keys_of app limits table doc = Ok keys →
  (∀ d, doc = Some d → d.(doc_id).(di_table) = table.(tb_id)) → document_key app id ∉ keys.
Proof. intros Ek Et I. eapply keys_prefix in I; [|done..]. by apply document_not_entry in I. Qed.

Theorem insert_writes t table fields random t' id w n :
  table.(tb_id) <= u32_MAX → cl_start_ms t.(tx_inner) <= u64_MAX → map_Forall (λ _ v, value_ok v) fields →
  (∀ bytes, random = Ok bytes → length bytes = DOC_ID_BYTES ∧ Forall (λ b, b < 256) bytes) →
  insert_sized t app table fields limits random = (t', Ok (id, w, n)) →
  txn_same t t' ∧ doc_write app limits (txn_view t) table id None
    (Some {| doc_id := id; doc_creation_ms := cl_start_ms t.(tx_inner); doc_fields := fields |}) w (txn_view t').
Proof.
  intros Lt Lc Of Hr. unfold insert_sized. destruct (check_fields limits fields); [|done].
  destruct random as [bytes|]; [|done]. cbn [map_err]. destruct (Hr bytes eq_refl) as [Lb Bb]. clear Hr.
  set (i := {| di_table := _; di_bytes := _ |}). set (doc := {| doc_id := i |}). destruct (doc_encode doc limits) as [record|] eqn:En; [|done].
  destruct (index_keys app table doc limits) as [added|] eqn:Ek; [|done].
  destruct (txn_insert t _ record) as [t1 [u1|]] eqn:I; [|done]. destruct (put_all t1 added) as [t2 [u2|]] eqn:P; [|done].
  change (doc_id doc) with i in *. intros [= <- <- <- _]. fold i. apply txn_insert_spec in I as (N & V & S1). apply put_all_spec in P as [S2 V2].
  split; [by eapply txn_same_trans|]. assert (document_key app i ∉ added) as Nd.
  { eapply (document_not_key table (Some doc)); [done|]. by intros d [= <-]. }
  assert (txn_view t2 !! document_key app i = Some record) as L.
  { by rewrite V2, bool_decide_eq_false_2, V, lookup_insert_eq. }
  assert (doc_id_ok i) as Oi by done.
  split; cbn [wr_removed wr_added write_record keys_of write_kind]; try done; try (by eexists).
  - unfold doc_at. fold i. by rewrite N.
  - fold i. apply doc_at_Some. exists record. split; [done|]. by eapply (doc_decode_encode doc).
  - by intros d [= <-].
  - intros key Pk. rewrite V2. case_bool_decide; [done|]. rewrite V, lookup_insert_ne; [done|].
    intros <-. by apply document_not_entry in Pk.
  - intros key Nk Pk. rewrite V2, bool_decide_eq_false_2.
    + rewrite V, lookup_insert_ne; [done|]. done.
    + intros J. apply Pk. eapply (keys_prefix _ (Some doc)); [done|done|]. by intros d [= <-].
Qed.

Lemma existing_spec t table id t' doc : existing t app table id = (t', Ok doc) →
  txn_view t' = txn_view t ∧ txn_same t t' ∧ id.(di_table) = table.(tb_id) ∧ doc_at app (txn_view t) id = Some doc.
Proof.
  unfold existing, check_table. destruct (N.eqb_spec id.(di_table) table.(tb_id)) as [Et|]; [|done]. cbn [negb].
  destruct (docs_get t app id) as [t1 [found|]] eqn:G; [|done]. intros [= <- Ef].
  pose proof (txn_docs_get_same _ _ _ _ G) as S. apply docs_get_spec in G as [V G]. destruct (G _ eq_refl) as [D _].
  destruct found as [d|]; [|done]. injection Ef as ->. done.
Qed.

Theorem rewrite_writes t table id old fields t' w n : table_ok app limits (txn_view t) table →
  doc_id_ok id → id.(di_table) = table.(tb_id) → doc_at app (txn_view t) id = Some old →
  map_Forall (λ _ v, value_ok v) fields →
  docs_rewrite t app table old fields limits = (t', Ok (w, n)) →
  txn_same t t' ∧ doc_write app limits (txn_view t) table id (Some old)
    (Some {| doc_id := id; doc_creation_ms := old.(doc_creation_ms); doc_fields := fields |}) w (txn_view t').
Proof.
  intros T Oi Et D Of. assert (old.(doc_id) = id) as Ei by (apply doc_at_Some in D as (? & _ & D); by apply doc_decode_id in D).
  unfold docs_rewrite. destruct (check_fields limits fields); [|done].
  destruct (index_keys app table old limits) as [removed|] eqn:Er; [|done]. rewrite Ei.
  set (new := {| doc_id := _ |}). destruct (doc_encode new limits) as [record|] eqn:En; [|done].
  destruct (index_keys app table new limits) as [added|] eqn:Ea; [|done].
  destruct (txn_put t _ record) as [t1 [u1|]] eqn:I; [|done].
  set (keep := filter (λ k, k ∈ added) removed). destruct (delete_all t1 _) as [t2 [u2|]] eqn:P; [|done].
  destruct (put_all t2 _) as [t3 [u3|]] eqn:Q; [|done]. intros [= <- <- _].
  apply txn_put_spec in I as (V1 & S1). apply delete_all_spec in P as [S2 V2]. apply put_all_spec in Q as [S3 V3].
  split; [by eapply txn_same_trans; [|eapply txn_same_trans]|].
  assert (∀ d, Some new = Some d → d.(doc_id).(di_table) = table.(tb_id)) as Pn by (by intros d [= <-]).
  assert (∀ d, Some old = Some d → d.(doc_id).(di_table) = table.(tb_id)) as Po by (intros d [= <-]; by rewrite Ei).
  pose proof (document_not_key table (Some old) removed id Er Po) as Nr.
  pose proof (document_not_key table (Some new) added id Ea Pn) as Na.
  assert (∀ key, txn_view t3 !! key
    = if bool_decide (key ∈ added) then (if bool_decide (key ∈ removed) then txn_view t1 !! key else Some [])
      else if bool_decide (key ∈ removed) then None else txn_view t1 !! key) as V.
  { intros key. rewrite V3, V2.
    assert (key ∈ filter (λ k, k ∉ keep) removed ↔ key ∈ removed ∧ key ∉ added) as Kr
      by (unfold keep; rewrite !list_elem_of_filter; tauto).
    assert (key ∈ filter (λ k, k ∉ keep) added ↔ key ∈ added ∧ key ∉ removed) as Ka
      by (unfold keep; rewrite !list_elem_of_filter; tauto).
    rewrite (bool_decide_ext _ _ Kr), (bool_decide_ext _ _ Ka). repeat case_bool_decide; tauto. }
  assert (txn_view t3 !! document_key app id = Some record) as L.
  { by rewrite V, !bool_decide_eq_false_2, V1, lookup_insert_eq by done. }
  pose proof (tk_docs _ _ _ _ T id old Oi Et D) as [[_ Lc _] _].
  split; cbn [wr_removed wr_added write_record keys_of write_kind]; try done; try (by eexists).
  - apply doc_at_Some. exists record. split; [done|]. by eapply (doc_decode_encode new).
  - by intros doc [= <-].
  - intros key Pk. rewrite V. repeat case_bool_decide; try done; rewrite V1, lookup_insert_ne; try done;
      intros <-; by apply document_not_entry in Pk.
  - intros key Nk Pk. rewrite V, !bool_decide_eq_false_2.
    + by rewrite V1, lookup_insert_ne.
    + intros J. apply Pk. by eapply (keys_prefix _ (Some old)).
    + intros J. apply Pk. by eapply (keys_prefix _ (Some new)).
Qed.

Lemma replace_writes t table id fields t' w n : table_ok app limits (txn_view t) table → doc_id_ok id →
  map_Forall (λ _ v, value_ok v) fields → replace_sized t app table id fields limits = (t', Ok (w, n)) →
  txn_same t t' ∧ ∃ old, doc_write app limits (txn_view t) table id (Some old)
    (Some {| doc_id := id; doc_creation_ms := old.(doc_creation_ms); doc_fields := fields |}) w (txn_view t').
Proof.
  intros T Oi Of. unfold replace_sized. destruct (existing t app table id) as [t1 [old|]] eqn:Ex; [|done].
  apply existing_spec in Ex as (V & S & Et & D). intros Rw. rewrite <- V in *.
  eapply rewrite_writes in Rw as [S' W]; [|done..]. split; [by eapply txn_same_trans|]. by exists old.
Qed.

Lemma patch_writes t table id fields t' w n : table_ok app limits (txn_view t) table → doc_id_ok id →
  map_Forall (λ _ v, value_ok v) fields → patch_sized t app table id fields limits = (t', Ok (w, n)) →
  txn_same t t' ∧ ∃ old, doc_write app limits (txn_view t) table id (Some old)
    (Some {| doc_id := id; doc_creation_ms := old.(doc_creation_ms); doc_fields := fields ∪ old.(doc_fields) |}) w (txn_view t').
Proof.
  intros T Oi Of. unfold patch_sized. destruct (existing t app table id) as [t1 [old|]] eqn:Ex; [|done].
  apply existing_spec in Ex as (V & S & Et & D). intros Rw. rewrite <- V in *.
  pose proof (tk_docs _ _ _ _ T id old Oi Et D) as [[_ _ Oo] _].
  eapply rewrite_writes in Rw as [S' W]; [|done..|by apply map_Forall_union_2].
  split; [by eapply txn_same_trans|]. by exists old.
Qed.

Lemma delete_writes t table id t' w : table_ok app limits (txn_view t) table → doc_id_ok id →
  docs_delete t app table id limits = (t', Ok w) →
  txn_same t t' ∧ match w with
                  | Some w => ∃ old, doc_write app limits (txn_view t) table id (Some old) None w (txn_view t')
                  | None => txn_view t' = txn_view t ∧ txn_view t !! document_key app id = None ∧ id.(di_table) = table.(tb_id)
                  end.
Proof.
  intros T Oi. unfold docs_delete, check_table. destruct (N.eqb_spec id.(di_table) table.(tb_id)) as [Et|]; [|done]. cbn [negb].
  destruct (docs_get t app id) as [t1 [found|]] eqn:G; [|done]. pose proof (txn_docs_get_same _ _ _ _ G) as S1.
  apply docs_get_spec in G as [V1 G]. destruct (G _ eq_refl) as [D Dn]. change (txn_view t1 = txn_view t) in V1.
  change (rd_view t) with (txn_view t) in *. destruct found as [old|]; [|intros [= <- <-]; auto].
  destruct (index_keys app table old limits) as [removed|] eqn:Er; [|done].
  destruct (txn_delete t1 _) as [t2 [u2|]] eqn:P; [|done]. destruct (delete_all t2 removed) as [t3 [u3|]] eqn:Q; [|done].
  intros [= <- <-]. apply txn_delete_spec in P as [V2 S2]. apply delete_all_spec in Q as [S3 V3].
  split; [by eapply txn_same_trans; [|eapply txn_same_trans]|]. exists old.
  assert (∀ d, Some old = Some d → d.(doc_id).(di_table) = table.(tb_id)) as Po.
  { intros d [= <-]. symmetry in D. apply doc_at_Some in D as (? & _ & D). apply doc_decode_id in D. by rewrite D. }
  assert (txn_view t3 !! document_key app id = None) as L.
  { rewrite V3, V2. case_bool_decide; [done|]. by rewrite lookup_delete_eq. }
  split; cbn [wr_removed wr_added write_record keys_of write_kind]; try done; try (by eexists).
  - unfold doc_at. by rewrite L.
  - intros key Pk. rewrite V3, V2, (bool_decide_eq_false_2 (key ∈ [])) by apply not_elem_of_nil.
    case_bool_decide; [done|]. rewrite lookup_delete_ne, V1; [done|]. intros <-. by apply document_not_entry in Pk.
  - intros key Nk Pk. rewrite V3, V2, bool_decide_eq_false_2.
    + by rewrite lookup_delete_ne, V1.
    + intros J. apply Pk. by eapply (keys_prefix _ (Some old)).
Qed.
End operations.

(** ** Any sequence of operations *)

(** A write of a document in a transaction; the bytes of the id of a new document are drawn. *)
Inductive DocOp :=
  | DocInsert (table : TableDef) (fields : gmap string LiveValue) (random : Result Bytes string)
  | DocReplace (table : TableDef) (id : DocId) (fields : gmap string LiveValue)
  | DocPatch (table : TableDef) (id : DocId) (fields : gmap string LiveValue)
  | DocDelete (table : TableDef) (id : DocId).

Definition op_table (op : DocOp) : TableDef :=
  match op with DocInsert table _ _ | DocReplace table _ _ | DocPatch table _ _ | DocDelete table _ => table end.

(** The arguments are what the types of the source allow: [i64], [f64] and UTF-8 values, drawn bytes
    that fill an id. *)
Definition op_ok (op : DocOp) : Prop :=
  match op with
  | DocInsert _ fields random => map_Forall (λ _ v, value_ok v) fields
      ∧ ∀ bytes, random = Ok bytes → length bytes = DOC_ID_BYTES ∧ Forall (λ b, b < 256) bytes
  | DocReplace _ id fields | DocPatch _ id fields => doc_id_ok id ∧ map_Forall (λ _ v, value_ok v) fields
  | DocDelete _ id => doc_id_ok id
  end.

(** Documents by id, and what an operation does to them; [None] where it is refused. *)
Definition Docs : Type := DocId → option Doc.

Definition docs_set (docs : Docs) (id : DocId) (doc : option Doc) : Docs :=
  λ id', if bool_decide (id' = id) then doc else docs id'.

Definition spec_doc_op (ms : N) (docs : Docs) (op : DocOp) (id : DocId) : option Docs :=
  let set old doc_fields :=
    Some (docs_set docs id (Some {| doc_id := id; doc_creation_ms := old; doc_fields := doc_fields |})) in
  if negb (id.(di_table) =? (op_table op).(tb_id)) then None
  else
    match op, docs id with
    | DocInsert _ fields _, None => set ms fields
    | DocReplace _ id' fields, Some old => if bool_decide (id' = id) then set old.(doc_creation_ms) fields else None
    | DocPatch _ id' fields, Some old =>
        if bool_decide (id' = id) then set old.(doc_creation_ms) (fields ∪ old.(doc_fields)) else None
    | DocDelete _ id', _ => if bool_decide (id' = id) then Some (docs_set docs id None) else None
    | _, _ => None
    end.

Fixpoint spec_doc_ops (ms : N) (docs : Docs) (ops : list DocOp) (ids : list DocId) : option Docs :=
  match ops, ids with
  | [], [] => Some docs
  | op :: ops, id :: ids => docs ← spec_doc_op ms docs op id; spec_doc_ops ms docs ops ids
  | _, _ => None
  end.

Section documents.
Context `{IdText, LiveCodec, !LiveCodecOk} {C E : Type} `{!Client C E, !ClientOk C E}.
Context (app : AppKeys) (limits : Limits).
Implicit Types (t : Txn C).

(** An operation of the source: the id of the document it is about, and its record if it wrote. *)
Definition run_doc_op t (op : DocOp) : Txn C * Result (DocId * option WriteRecord) LiveError :=
  match op with
  | DocInsert table fields random => STEP r, t <- insert_sized t app table fields limits random ;; (t, Ok (r.1.1, Some r.1.2))
  | DocReplace table id fields => STEP r, t <- replace_sized t app table id fields limits ;; (t, Ok (id, Some r.1))
  | DocPatch table id fields => STEP r, t <- patch_sized t app table id fields limits ;; (t, Ok (id, Some r.1))
  | DocDelete table id => STEP w, t <- docs_delete t app table id limits ;; (t, Ok (id, w))
  end.

Fixpoint run_doc_ops t (ops : list DocOp) : Txn C * Result (list (DocId * option WriteRecord)) LiveError :=
  match ops with
  | [] => (t, Ok [])
  | op :: ops => STEP out, t <- run_doc_op t op ;; STEP outs, t <- run_doc_ops t ops ;; (t, Ok (out :: outs))
  end.

(** What an operation does to the store: nothing, or one write of the document. *)
Definition op_effect t (op : DocOp) (out : DocId * option WriteRecord) t' : Prop :=
  let '(id, record) := out in
  txn_same t t' ∧ doc_id_ok id ∧
  ∃ old new,
    spec_doc_op (cl_start_ms t.(tx_inner)) (doc_at app (txn_view t)) op id
      = Some (docs_set (doc_at app (txn_view t)) id new)
    ∧ match record with
      | Some w => doc_write app limits (txn_view t) (op_table op) id old new w (txn_view t')
      | None => txn_view t' = txn_view t ∧ new = None ∧ doc_at app (txn_view t) id = None
      end.

Lemma write_effect t op id old new w t' : txn_same t t' →
  doc_write app limits (txn_view t) (op_table op) id old new w (txn_view t') →
  spec_doc_op (cl_start_ms t.(tx_inner)) (doc_at app (txn_view t)) op id
    = Some (docs_set (doc_at app (txn_view t)) id new) →
  op_effect t op (id, Some w) t'.
Proof. intros S W Sp. split; [done|]. split; [apply W|]. by exists old, new. Qed.

Ltac written W :=
  eapply write_effect; [done|exact W|]; unfold spec_doc_op; cbn [op_table];
  rewrite (dw_table _ _ _ _ _ _ _ _ _ W), N.eqb_refl, ?(dw_old _ _ _ _ _ _ _ _ _ W); cbn [negb];
  by rewrite ?bool_decide_eq_true_2.

Lemma run_doc_op_effect t op out t' : op_ok op → cl_start_ms t.(tx_inner) <= u64_MAX →
  table_ok app limits (txn_view t) (op_table op) → run_doc_op t op = (t', Ok out) → op_effect t op out t'.
Proof.
  intros O Lm T. destruct op as [table fields random|table id' fields|table id' fields|table id']; cbn [run_doc_op op_table op_ok] in *.
  - destruct (insert_sized t app table fields limits random) as [t1 [[[i w] n]|]] eqn:Ei; [|done]. intros [= <- <-].
    destruct O as [Of Or]. apply insert_writes in Ei as [S W]; [|apply T|done..]. written W.
  - destruct (replace_sized t app table id' fields limits) as [t1 [[w n]|]] eqn:Ei; [|done]. intros [= <- <-].
    destruct O as [Oi Of]. apply replace_writes in Ei as [S [old W]]; [|done..]. written W.
  - destruct (patch_sized t app table id' fields limits) as [t1 [[w n]|]] eqn:Ei; [|done]. intros [= <- <-].
    destruct O as [Oi Of]. apply patch_writes in Ei as [S [old W]]; [|done..]. written W.
  - destruct (docs_delete t app table id' limits) as [t1 [w|]] eqn:Ei; [|done]. intros [= <- <-].
    apply delete_writes in Ei as [S W]; [|done..]. destruct w as [w|]; [destruct W as [old W]; written W|].
    destruct W as (V & L & Et). split; [done|]. split; [done|]. exists None, None.
    unfold spec_doc_op. cbn [op_table]. rewrite Et, N.eqb_refl, bool_decide_eq_true_2 by done. cbn [negb].
    split; [done|]. split; [done|]. split; [done|]. unfold doc_at. by rewrite L.
Qed.

(** The tables of the app are in order, each under its own id. *)
Definition tables_ok (kv : gmap Bytes Bytes) (tables : list TableDef) : Prop :=
  ∀ table, table ∈ tables → table_ok app limits kv table.

Definition one_per_id (tables : list TableDef) : Prop :=
  ∀ a b, a ∈ tables → b ∈ tables → a.(tb_id) = b.(tb_id) → a = b.

Lemma write_keeps_tables kv table id old new w kv' tables : doc_write app limits kv table id old new w kv' →
  table ∈ tables → one_per_id tables → tables_ok kv tables → tables_ok kv' tables.
Proof.
  intros W I U T table' I'. destruct (N.eq_dec table'.(tb_id) table.(tb_id)) as [Eq|Ne].
  - rewrite (U table' table) by done. eapply write_keeps_table; [exact W|by apply T].
  - eapply write_keeps_other; [exact W|by apply T|done|by apply T].
Qed.

Lemma effect_keeps_tables t op out t' tables : op_effect t op out t' → op_table op ∈ tables → one_per_id tables →
  tables_ok (txn_view t) tables → tables_ok (txn_view t') tables.
Proof.
  destruct out as [id [w|]]; intros (_ & _ & old & new & _ & W) I U T; [|by destruct W as [-> _]].
  by eapply write_keeps_tables.
Qed.

(** Documents that agree where ids are well formed. *)
Definition docs_same (a b : Docs) : Prop := ∀ id, doc_id_ok id → a id = b id.

Lemma spec_doc_op_same ms a b op id a' : docs_same a b → doc_id_ok id → spec_doc_op ms a op id = Some a' →
  ∃ b', spec_doc_op ms b op id = Some b' ∧ docs_same a' b'.
Proof.
  intros S O. unfold spec_doc_op. rewrite <- (S id O). destruct (negb _); [done|].
  assert (∀ d, docs_same (docs_set a id d) (docs_set b id d)) as Set_.
  { intros d i Oi. unfold docs_set. case_bool_decide; [done|]. by apply S. }
  destruct op, (a id); try done; try case_bool_decide; try done; intros [= <-]; eauto.
Qed.

Lemma effect_docs t op out t' : op_effect t op out t' →
  ∃ docs', spec_doc_op (cl_start_ms t.(tx_inner)) (doc_at app (txn_view t)) op out.1 = Some docs'
           ∧ docs_same docs' (doc_at app (txn_view t')).
Proof.
  destruct out as [id w]. intros (_ & _ & old & new & Sp & Wr). eexists. split; [exact Sp|]. intros i Oi. unfold docs_set.
  destruct w as [w|].
  - by rewrite (doc_write_at _ _ _ _ _ _ _ _ _ _ Wr Oi).
  - destruct Wr as (V & -> & D). rewrite V. case_bool_decide; [by subst|done].
Qed.

(** A sequence of writes of documents. *)
Inductive doc_writes (tables : list TableDef) : gmap Bytes Bytes → list WriteRecord → gmap Bytes Bytes → Prop :=
  | writes_nil kv : doc_writes tables kv [] kv
  | writes_cons kv table id old new w kv1 ws kv2 :
      table ∈ tables → doc_write app limits kv table id old new w kv1 → doc_writes tables kv1 ws kv2 →
      doc_writes tables kv (w :: ws) kv2.

Lemma run_doc_ops_refines tables ops : one_per_id tables → Forall (λ op, op_ok op ∧ op_table op ∈ tables) ops →
  ∀ t t' outs docs, cl_start_ms t.(tx_inner) <= u64_MAX → tables_ok (txn_view t) tables →
  docs_same (doc_at app (txn_view t)) docs → run_doc_ops t ops = (t', Ok outs) →
  tables_ok (txn_view t') tables ∧ doc_writes tables (txn_view t) (omap snd outs) (txn_view t')
  ∧ ∃ docs', spec_doc_ops (cl_start_ms t.(tx_inner)) docs ops (fst <$> outs) = Some docs'
    ∧ docs_same docs' (doc_at app (txn_view t')).
Proof.
  intros U F. induction F as [|op ops [Oo Io] F IH]; intros t t' outs docs Lm T S; cbn [run_doc_ops].
  { intros [= <- <-]. split; [done|]. split; [constructor|]. exists docs. split; [done|]. intros i Oi. symmetry. by apply S. }
  destruct (run_doc_op t op) as [t1 [out|]] eqn:R1; [|done]. destruct (run_doc_ops t1 ops) as [t2 [outs'|]] eqn:R2; [|done].
  intros [= <- <-]. apply run_doc_op_effect in R1 as Ef; [|done|done|by apply T].
  destruct (effect_docs _ _ _ _ Ef) as (d1 & Sp & S1). destruct out as [id w]. pose proof Ef as ([_ Em] & Oi & old & new & _ & Wr).
  destruct (spec_doc_op_same _ _ docs _ _ _ S Oi Sp) as (d2 & Sp2 & S2). rewrite <- Em in Lm.
  destruct (IH t1 t2 outs' d2) as (T' & Ws & d3 & Sp3 & S3); [done|by eapply effect_keeps_tables| |done|].
  - intros i O. by rewrite <- S1, S2.
  - split; [done|]. split; [|exists d3; split; [|done]; cbn [spec_doc_ops fmap list_fmap]; cbn; rewrite Sp2; cbn; by rewrite <- Em].
    cbn. destruct w as [w|]; [by eapply writes_cons|]. by destruct Wr as [<- _].
Qed.
End documents.
