(* ===== verification/LiveScan.v ===== *)
(** * What a scan returns, and what it depends on

    A scan is a function of what the store holds ([scan_fun]), up to failures of the storage.  It
    depends only on the key range it reports: a write that touches no key of the range leaves the
    answer as it was ([scan_unaffected]).  On a table in order it returns the documents whose indexed
    values meet the range, in index order. *)

From Stdlib Require Import NArith ZArith Lia.
From stdpp Require Import prelude gmap strings numbers sorting list.
From S2P Require Import Prelude.
From S2P Require Import BTree.
From S2P Require Import ByteCodec.
From S2P Require Import TikvTuple.
From S2P Require Import LiveKeys.
From S2P Require Import LiveReadSet.
From S2P Require Import TikvTxn.
From S2P Require Import LiveValue.
From S2P Require Import LiveDocs.
From S2P Require Import LiveDocsInv.

Open Scope N_scope.

(** ** Parts of a range *)

Lemma range_agree m m' lo hi desc : (∀ k, key_in lo hi k = true → m' !! k = m !! k) →
  range_pairs m' lo hi desc = range_pairs m lo hi desc.
Proof.
  intros Ag. apply (dir_sorted_unique desc); [apply range_sorted..|]. intros p. rewrite !elem_of_range.
  split; intros [I L]; (split; [done|]); [by rewrite <- Ag|by rewrite Ag].
Qed.

(** A range is its part below [mid] and its part from [mid] on. *)
Lemma range_split m lo mid hi desc : bytes_le lo mid → (∀ h, hi = Some h → bytes_le mid h) →
  range_pairs m lo hi desc
  = if desc then range_pairs m mid hi desc ++ range_pairs m lo (Some mid) desc
    else range_pairs m lo (Some mid) desc ++ range_pairs m mid hi desc.
Proof.
  intros Ll Lh. apply (dir_sorted_unique desc); [apply range_sorted| |].
  - destruct desc; apply StronglySorted_app; (split; [|split; apply range_sorted]); intros a b Ia Ib;
      apply elem_of_range in Ia as [Ia _], Ib as [Ib _]; apply key_in_true in Ia as [La Ha], Ib as [Lb Hb]; unfold dir_lt.
    + by eapply bytes_lt_le_trans; [apply Hb|].
    + by eapply bytes_lt_le_trans; [apply Ha|].
  - intros p. assert (key_in lo hi p.1 = true ↔ key_in lo (Some mid) p.1 = true ∨ key_in mid hi p.1 = true) as K.
    { rewrite !key_in_true. split.
      - intros [L Hh]. destruct (bytes_le_total mid p.1) as [Lm|Lm]; [by right|].
        apply bytes_le_lt in Lm as [Lm|Em]; [left; split; [done|]; by intros h [= <-]|right; split; [|done]].
        rewrite Em. apply bytes_le_refl.
      - intros [[L Hm]|[L Hh]].
        + split; [done|]. intros h Eh. eapply bytes_lt_le_trans; [by apply Hm|by apply Lh].
        + split; [by eapply bytes_le_trans|done]. }
    destruct desc; rewrite elem_of_app, !elem_of_range, K; tauto.
Qed.

Section scan.
Context `{IdText, LiveCodec, !LiveCodecOk}.
Context (app : AppKeys).

(** ** A scan as a function of the store *)

(** The documents the pairs of a scan name, read from [kv]. *)
Definition entry_docs (table : TableDef) (kv : gmap Bytes Bytes) (pairs : list Pair) : Result (list Doc) LiveError :=
  LET ids <- collect (λ p, ok_or (fst <$> doc_of_index_entry app table.(tb_id) p.1)
                             (LiveCorrupt "an index entry key is too short")) pairs ;;
  collect (λ id,
    LET bytes <- ok_or (kv !! document_key app id)
                   (LiveCorrupt "an index entry names a missing document {id}") ;;
    doc_decode id bytes) ids.

Definition is_desc (range : IndexRange) : bool := match range.(ir_order) with Desc => true | Asc => false end.

(** The pairs of a key range. *)
Definition fetched (kv : gmap Bytes Bytes) (keys : KeyRange) (fetch : N) (desc : bool) : list Pair :=
  scan_pairs kv (range_bounds keys).1 (range_bounds keys).2 fetch desc.

Definition scan_fun (kv : gmap Bytes Bytes) (table : TableDef) (range : IndexRange) (limits : Limits)
  : Result (list Doc * KeyRange) LiveError :=
  LET keys <- index_key_range app table range ;;
  let max := limits.(max_scanned_docs) in
  LET fetch <- match range.(ir_limit) with
               | Some limit =>
                   if max <? limit
                   then Err (LimitExceeded "max_scanned_docs" "a scan limit of {limit} is more than {max}")
                   else Ok limit
               | None => Ok (u64_saturating_add max 1)
               end ;;
  let pairs := fetched kv keys fetch (is_desc range) in
  REFUSE bool_decide (range.(ir_limit) = None) && (max <? len pairs)
    WITH LimitExceeded "max_scanned_docs" "the range holds more than {max} documents; add a limit" ;;
  LET docs <- (if range.(ir_index) =? BY_ID_INDEX then docs_by_id app table pairs else entry_docs table kv pairs) ;;
  Ok (docs, read_range range keys pairs).

Lemma collect_ext {A B F} (f g : A → Result B F) l : (∀ x, x ∈ l → f x = g x) → collect f l = collect g l.
Proof.
  induction l as [|x l IH]; intros Eq; [done|]. cbn. rewrite Eq by left. rewrite IH; [done|]. intros y I. apply Eq. by right.
Qed.

Lemma in_bounds keys key : key_in (range_bounds keys).1 (range_bounds keys).2 key = range_contains keys key.
Proof.
  unfold key_in, range_contains, range_bounds. cbn. by case_bool_decide.
Qed.

Lemma fetched_empty kv keys fetch desc : range_is_empty keys || (fetch =? 0) = true → fetched kv keys fetch desc = [].
Proof.
  intros Em. unfold fetched, scan_pairs. apply orb_prop in Em as [Em|Ez]; [|by apply N.eqb_eq in Ez as ->].
  replace (range_pairs _ _ _ _) with (@nil Pair); [by rewrite take_nil|]. symmetry. apply elem_of_nil_inv. intros p I.
  apply elem_of_range in I as [I _]. rewrite in_bounds in I. by rewrite empty_range_contains in I.
Qed.

Section reads.
Context {R : Type} `{!Reads R, !ReadsOk R}.

Lemma docs_by_entry_fun (r : R) table pairs r' v : docs_by_entry r app table pairs = (r', v) →
  rd_view r' = rd_view r ∧ (v = entry_docs table (rd_view r) pairs ∨ ∃ e, v = Err (LiveTxnError e)).
Proof.
  unfold docs_by_entry, entry_docs.
  match goal with |- context [collect ?f pairs] => destruct (collect f pairs) as [ids|] end; [|intros [= <- <-]; auto].
  destruct (rd_batch_get r _) as [r1 [ps|e]] eqn:B; apply rd_batch_get_ok in B as [V B]; intros [= <- <-]; (split; [done|]); [|eauto].
  left. apply collect_ext. intros id I.
  replace (list_to_map (reverse ps) !! document_key app id) with (rd_view r !! document_key app id); [done|].
  symmetry. apply option_eq. intros bytes. rewrite <- elem_of_list_to_map'.
  - rewrite elem_of_reverse, (B ps eq_refl), list_elem_of_fmap. split; [by intros [_ ?]|]. intros L. split; [eauto|done].
  - intros b'. rewrite !elem_of_reverse, !(B ps eq_refl). intros [_ L] [_ L']. congruence.
Qed.

Lemma docs_scan_fun (r : R) table range limits r' v : docs_scan r app table range limits = (r', v) →
  rd_view r' = rd_view r ∧ (v = scan_fun (rd_view r) table range limits ∨ ∃ e, v = Err (LiveTxnError e)).
Proof.
  unfold docs_scan, scan_fun. destruct (index_key_range app table range) as [keys|]; [|intros [= <- <-]; auto].
  set (fetch := match range.(ir_limit) with Some _ => _ | None => _ end). destruct fetch as [fetch|]; [|intros [= <- <-]; auto].
  fold (is_desc range). set (m := if _ || _ then _ else _).
  assert (∀ r1 res, m = (r1, res) → rd_view r1 = rd_view r ∧
    (res = Ok (fetched (rd_view r) keys fetch (is_desc range)) ∨ ∃ e, res = Err e)) as M.
  { unfold m. intros r1 res. destruct (range_is_empty keys || (fetch =? 0)) eqn:Em.
    - intros [= <- <-]. split; [done|]. left. by rewrite fetched_empty.
    - intros S. apply rd_scan_ok in S as [V S]. split; [done|]. destruct res as [ps|e]; [left; f_equal; by apply S|eauto]. }
  destruct m as [r1 res]. destruct (M r1 res eq_refl) as [V [->|[e ->]]]; [|intros [= <- <-]; eauto].
  set (pairs := fetched _ _ _ _). destruct (bool_decide _ && _); [intros [= <- <-]; auto|].
  destruct (range.(ir_index) =? BY_ID_INDEX).
  - destruct (docs_by_id app table pairs); intros [= <- <-]; auto.
  - destruct (docs_by_entry r1 app table pairs) as [r2 w] eqn:De. apply docs_by_entry_fun in De as [V' De].
    rewrite V in De. destruct w as [docs|e']; intros [= <- <-]; (split; [congruence|]).
    + left. destruct De as [<-|[e' [=]]]. done.
    + destruct De as [<-|[e'' [= ->]]]; eauto.
Qed.
End reads.

(** ** What a scan depends on *)

Lemma fetched_in kv range keys n p :
  let pairs := fetched kv keys n (is_desc range) in
  p ∈ pairs → range_contains keys p.1 = true ∧ kv !! p.1 = Some p.2.
Proof.
  intros pairs I. unfold pairs, fetched, scan_pairs in I. apply elem_of_take in I as (i & Li & _).
  apply list_elem_of_lookup_2, elem_of_range in Li as [I L]. by rewrite in_bounds in I.
Qed.

(** Where the limit is filled, the range read is the range of the pairs. *)
Lemma filled_range kv keys n desc l : let pairs := fetched kv keys n desc in
  last pairs = Some l → len pairs = n →
  let read := if desc then {| kr_lo := l.1; kr_hi := keys.(kr_hi) |}
              else {| kr_lo := keys.(kr_lo); kr_hi := key_after l.1 |} in
  range_pairs kv (range_bounds read).1 (range_bounds read).2 desc = pairs
  ∧ ∀ m, ∃ rest, range_pairs m (range_bounds keys).1 (range_bounds keys).2 desc
                 = range_pairs m (range_bounds read).1 (range_bounds read).2 desc ++ rest.
Proof.
  intros pairs El En read. set (lo := (range_bounds keys).1). set (hi := (range_bounds keys).2).
  set (all := range_pairs kv lo hi desc). assert (all = pairs ++ drop (N.to_nat n) all) as Ea.
  { unfold pairs, fetched, scan_pairs. fold lo hi all. by rewrite take_drop. }
  pose proof (page_after kv lo hi desc pairs l (drop (N.to_nat n) all) Ea El) as Pa.
  assert (l ∈ all) as I by (rewrite Ea; apply elem_of_app; left; by apply last_Some_elem_of).
  apply elem_of_range in I as [I _]. apply key_in_true in I as [Ll Lh].
  assert (∀ m, range_pairs m lo hi desc = range_pairs m (range_bounds read).1 (range_bounds read).2 desc
    ++ range_pairs m (if desc then lo else l.1 ++ [0]) (if desc then Some l.1 else hi) desc) as Sp.
  { intros m. unfold read. destruct desc; cbn [range_bounds fst snd kr_lo kr_hi].
    - rewrite (range_split m lo l.1 hi true); [done|done|]. intros h Eh. apply bytes_le_lt. left. by apply Lh.
    - rewrite bool_decide_eq_false_2 by (unfold key_after; by destruct l.1). unfold key_after.
      rewrite (range_split m lo (l.1 ++ [0]) hi false); [done| |].
      + eapply bytes_le_trans; [exact Ll|]. apply bytes_le_lt. left. apply bytes_lt_next, bytes_le_refl.
      + intros h Eh. by apply bytes_next_le, Lh. }
  split; [|intros m; eauto]. pose proof (Sp kv) as Sk. rewrite Pa in Sk. fold all in Sk. rewrite Ea in Sk at 1.
  by apply app_inv_tail in Sk.
Qed.

(** Two stores that agree on what a scan read. *)
Definition agrees (kv kv' : gmap Bytes Bytes) (read : KeyRange) : Prop :=
  ∀ key, range_contains read key = true → kv' !! key = kv !! key.

Lemma fetched_agrees kv kv' range keys n : let pairs := fetched kv keys n (is_desc range) in
  agrees kv kv' (read_range range keys pairs) → (∀ limit, range.(ir_limit) = Some limit → n = limit) →
  fetched kv' keys n (is_desc range) = pairs ∧ ∀ p, p ∈ pairs → range_contains (read_range range keys pairs) p.1 = true.
Proof.
  intros pairs Ag Ln. assert (read_range range keys pairs = keys → fetched kv' keys n (is_desc range) = pairs
    ∧ ∀ p, p ∈ pairs → range_contains (read_range range keys pairs) p.1 = true) as Whole.
  { intros Er. rewrite Er in *. split.
    - unfold pairs, fetched, scan_pairs. rewrite (range_agree kv kv'); [done|]. intros k. rewrite in_bounds. apply Ag.
    - intros p I. by apply (fetched_in kv range keys n) in I as [I _]. }
  unfold read_range in *. destruct range.(ir_limit) as [limit|]; [|by apply Whole].
  specialize (Ln limit eq_refl) as <-. destruct (last pairs) as [l|] eqn:El; [|by apply Whole].
  destruct (N.eqb_spec (len pairs) n) as [En|]; [|by apply Whole]. clear Whole.
  destruct (filled_range kv keys n (is_desc range) l El En) as [Rk Rm].
  set (read := if is_desc range then _ else _) in Rk, Rm.
  assert (match range.(ir_order) with Desc => {| kr_lo := l.1; kr_hi := keys.(kr_hi) |}
          | Asc => {| kr_lo := keys.(kr_lo); kr_hi := key_after l.1 |} end = read) as Er.
  { unfold read, is_desc. by destruct range.(ir_order). }
  rewrite Er in *. fold pairs in Rk. split.
  - destruct (Rm kv') as [rest Ek]. unfold fetched, scan_pairs. rewrite Ek, (range_agree kv kv').
    + rewrite Rk. apply take_app_length'. unfold len in En. lia.
    + intros k. rewrite in_bounds. apply Ag.
  - intros p I. rewrite <- Rk in I. apply elem_of_range in I as [I _]. by rewrite in_bounds in I.
Qed.

(** The documents named by the entries that were read are the same too. *)
Definition docs_agree (kv kv' : gmap Bytes Bytes) (table : TableDef) (read : KeyRange) : Prop :=
  ∀ key id ms, range_contains read key = true → is_Some (kv !! key) →
    doc_of_index_entry app table.(tb_id) key = Some (id, ms) → kv' !! document_key app id = kv !! document_key app id.

Lemma entry_docs_agree kv kv' table read pairs : docs_agree kv kv' table read →
  (∀ p, p ∈ pairs → range_contains read p.1 = true ∧ kv !! p.1 = Some p.2) →
  entry_docs table kv' pairs = entry_docs table kv pairs.
Proof.
  intros Ag In. unfold entry_docs.
  match goal with |- context [collect ?f pairs] => destruct (collect f pairs) as [ids|] eqn:Ei end; [|done].
  apply collect_ext. intros id I. apply collect_Ok in Ei. apply list_elem_of_lookup in I as [n Ln].
  eapply Forall2_lookup_r in Ei as (p & Lp & Ep); [|exact Ln]. apply list_elem_of_lookup_2, In in Lp as [Rp Kp].
  destruct (doc_of_index_entry app table.(tb_id) p.1) as [[id' ms]|] eqn:D; [|done]. injection Ep as ->.
  by rewrite (Ag p.1 id ms).
Qed.

Theorem scan_fun_agrees kv kv' table range limits docs read : scan_fun kv table range limits = Ok (docs, read) →
  agrees kv kv' read → docs_agree kv kv' table read → scan_fun kv' table range limits = Ok (docs, read).
Proof.
  unfold scan_fun. destruct (index_key_range app table range) as [keys|]; [|done].
  set (fetch := match range.(ir_limit) with Some _ => _ | None => _ end). destruct fetch as [n|] eqn:Ef; [|done].
  assert (∀ limit, range.(ir_limit) = Some limit → n = limit) as Ln.
  { intros limit El. unfold fetch in Ef. rewrite El in Ef. destruct (_ <? limit); [done|]. by injection Ef. }
  set (pairs := fetched kv keys n (is_desc range)). destruct (bool_decide _ && _) eqn:Rf; [done|].
  destruct (if range.(ir_index) =? BY_ID_INDEX then _ else _) as [ds|] eqn:Ed; [|done]. intros [= -> Er] Ag Ad.
  destruct (fetched_agrees kv kv' range keys n) as [Ep Ip]; [by fold pairs; rewrite Er|done|]. rewrite Ep. fold pairs in Ip |- *.
  rewrite Rf. assert (entry_docs table kv' pairs = entry_docs table kv pairs) as De.
  { apply (entry_docs_agree _ _ _ read); [done|]. intros p I. split; [by rewrite <- Er; apply Ip|].
    by apply (fetched_in kv range keys n) in I as [_ I]. }
  rewrite De, Ed. by rewrite Er.
Qed.

(** ** A write that touches no key of the range *)

Definition untouched (w : WriteRecord) (read : KeyRange) : Prop :=
  ∀ key, key ∈ touched_keys app w → range_contains read key = false.

Context (limits : Limits).

Lemma doc_write_touched kv table id old new w kv' : doc_write app limits kv table id old new w kv' →
  document_key app id ∈ touched_keys app w.
Proof.
  intros W. unfold touched_keys. destruct (dw_record _ _ _ _ _ _ _ _ _ W) as (kind & _ & ->). cbn.
  destruct (dw_id _ _ _ _ _ _ _ _ _ W) as [_ L _]. rewrite L, Nat.eqb_refl. destruct id. by left.
Qed.

Lemma untouched_agrees kv table id old new w kv' read : doc_write app limits kv table id old new w kv' →
  untouched w read → agrees kv kv' read.
Proof.
  intros W U key Rk. destruct (decide (key = document_key app id)) as [->|N].
  { pose proof (U _ (doc_write_touched _ _ _ _ _ _ _ W)). congruence. }
  assert (∀ key, key ∈ w.(wr_removed) ∨ key ∈ w.(wr_added) → key ∈ touched_keys app w) as Tk.
  { intros k I. unfold touched_keys. rewrite !elem_of_app. tauto. }
  destruct (decide (entry_prefix app table.(tb_id) `prefix_of` key)) as [P|P]; [|by apply (dw_frame _ _ _ _ _ _ _ _ _ W)].
  rewrite (dw_entries _ _ _ _ _ _ _ _ _ W key P). rewrite !bool_decide_eq_false_2; [done| |]; intros I;
    rewrite (U key) in Rk by auto; done.
Qed.

(** An entry of the written document that was there is one of those the write names. *)
Lemma entry_of_written kv table id old new w kv' key ms : doc_write app limits kv table id old new w kv' →
  table_ok app limits kv table → is_Some (kv !! key) → doc_of_index_entry app table.(tb_id) key = Some (id, ms) →
  key ∈ w.(wr_removed).
Proof.
  intros W T S D. assert (entry_prefix app table.(tb_id) `prefix_of` key) as P.
  { unfold doc_of_index_entry in D. destruct (length key <? _)%nat; [done|]. cbn [orb] in D.
    destruct (bool_decide_reflect ((table_indexes_range app table.(tb_id)).(kr_lo) `prefix_of` key)) as [P|]; done. }
  destruct (tk_entries _ _ _ _ T key P S) as (id' & doc & keys & O & Et & Dk & Ek & I).
  pose proof Dk as Ed. apply doc_at_Some in Ed as (? & _ & Ed). apply doc_decode_id in Ed.
  destruct (tk_docs _ _ _ _ T id' doc O Et Dk) as [Od _]. pose proof (index_keys_doc _ _ _ _ _ _ Od Ek I) as D'.
  rewrite Ed, Et, D in D'. injection D' as <- _. pose proof (dw_removed _ _ _ _ _ _ _ _ _ W) as Er.
  rewrite <- (dw_old _ _ _ _ _ _ _ _ _ W), Dk in Er. cbn in Er. rewrite Ek in Er. by injection Er as <-.
Qed.

Lemma untouched_docs kv table table' id old new w kv' read : doc_write app limits kv table id old new w kv' →
  table_ok app limits kv table → table'.(tb_id) <= u32_MAX → untouched w read → docs_agree kv kv' table' read.
Proof.
  intros W T Lt' U key id' ms Rk S D. assert (id'.(di_table) = table'.(tb_id)) as Et'.
  { unfold doc_of_index_entry in D. destruct (_ || _); [done|]. by injection D as <- _. }
  destruct (decide (document_key app id' = document_key app id)) as [Eq|N].
  - apply document_key_inj in Eq as ->; [|by rewrite Et'|apply W]. assert (table'.(tb_id) = table.(tb_id)) as Et.
    { rewrite <- Et'. apply W. }
    rewrite Et in D. eapply entry_of_written in D; [|done..]. rewrite (U key) in Rk; [done|].
    unfold touched_keys. rewrite !elem_of_app. tauto.
  - apply (dw_frame _ _ _ _ _ _ _ _ _ W); [done|]. apply document_not_entry.
Qed.

(** A scan of any table answers the same after a write that touches no key of the range it read. *)
Lemma scan_unaffected kv table id old new w kv' table' range lim docs read :
  doc_write app limits kv table id old new w kv' → table_ok app limits kv table → table'.(tb_id) <= u32_MAX →
  scan_fun kv table' range lim = Ok (docs, read) → untouched w read →
  scan_fun kv' table' range lim = Ok (docs, read).
Proof.
  intros W T Lt S U. eapply scan_fun_agrees; [exact S| |].
  - by eapply untouched_agrees.
  - by eapply untouched_docs.
Qed.

Lemma get_unaffected kv table id old new w kv' id' : doc_write app limits kv table id old new w kv' →
  document_key app id' ∉ touched_keys app w → doc_at app kv' id' = doc_at app kv id'.
Proof.
  intros W N. apply doc_at_frame, (dw_frame _ _ _ _ _ _ _ _ _ W); [|apply document_not_entry].
  intros Eq. apply N. rewrite Eq. by eapply doc_write_touched.
Qed.
End scan.
