(* ===== verification/LiveMatch.v ===== *)
(** * A scan returns the documents that match

    What an index range asks for, in terms of the documents: equality on the first indexed values and
    bounds on the next one, in the order of values ([range_matches]).  On a table in order a scan
    returns exactly the documents that match, in the order of their indexed values, creation times and
    ids. *)

From Stdlib Require Import NArith ZArith Lia Ascii.
From stdpp Require Import prelude gmap strings numbers sorting list.
From S2P Require Import Prelude.
From S2P Require Import BTree.
From S2P Require Import ByteCodec.
From S2P Require Import TikvTuple.
From S2P Require Import LiveKeys.
From S2P Require Import LiveReadSet.
From S2P Require Import TikvTxn.
From S2P Require Import LiveValue.
From S2P Require Import LiveDocs.
From S2P Require Import LiveDocsInv.
From S2P Require Import LiveScan.

Open Scope N_scope.

(** ** What a range asks for *)

(** Whether a component that compares as [c] with the bound is within it. *)
Definition above {A} (b : Bound A) (cmp : A → comparison) : bool :=
  match b with
  | Unbound => true
  | Included v => match cmp v with Lt => false | _ => true end
  | Excluded v => match cmp v with Gt => true | _ => false end
  end.
Definition below {A} (b : Bound A) (cmp : A → comparison) : bool :=
  match b with
  | Unbound => true
  | Included v => match cmp v with Gt => false | _ => true end
  | Excluded v => match cmp v with Lt => true | _ => false end
  end.

(** The indexed values of a document; a missing field is null. *)
Definition doc_values (fields : list string) (doc : Doc) : Result (list Elem) LiveError :=
  collect (λ f, index_elem (default VNull (doc.(doc_fields) !! f))) fields.

(** The component [pos] of an index entry against a value: the indexed values, then the creation time. *)
Definition component_cmp (vs : list Elem) (ms : N) (pos : nat) (v : LiveValue) : comparison :=
  match vs !! pos with
  | Some e => match index_elem v with Ok e' => elem_cmp e e' | Err _ => Eq end
  | None => match v with VI64 i => ms ?= Z.to_N i | _ => Eq end
  end.

Fixpoint eq_matches (vs : list Elem) (ms : N) (pos : nat) (values : list LiveValue) : bool :=
  match values with
  | [] => true
  | v :: values => match component_cmp vs ms pos v with Eq => eq_matches vs ms (pos + 1) values | _ => false end
  end.

(** ** Bounds of keys *)

(** The key has a byte below 255, so it has a successor. *)
Definition has_next (k : Bytes) : Prop := ∃ x b y, k = x ++ b :: y ∧ b ≠ 0xFF.

Lemma has_next_app k w : has_next k → has_next (k ++ w).
Proof. intros (x & b & y & -> & N). exists x, b, (y ++ w). by rewrite <- (assoc_L (++)). Qed.

Lemma successor_next k : has_next k → successor k ≠ [].
Proof.
  intros (x & b & y & -> & N). destruct (successor_spec (x ++ b :: y)) as [(n & E & _)|(q & c & n & _ & _ & ->)]; [|by destruct q].
  exfalso. apply N. assert (b ∈ replicate n 0xFF) as I by (rewrite <- E; apply elem_of_app; right; left).
  by apply elem_of_replicate in I as [-> _].
Qed.

(** Below the successor of [a] are the keys below [a] and those that start with it. *)
Lemma below_successor a key : has_next a → Forall (λ b, b < 256) a → Forall (λ b, b < 256) key →
  bytes_lt key (successor a) ↔ bytes_lt key a ∨ a `prefix_of` key.
Proof.
  intros Hn Ba Bk. pose proof (successor_next a Hn) as Ne. pose proof (prefix_between a key Bk) as Pk.
  assert (bytes_lt a (successor a)) as La.
  { destruct (proj1 (prefix_between a a Ba) (reflexivity _)) as [_ [?|?]]; done. }
  split.
  - intros L. destruct (bytes_le_total a key) as [Lk|Lk]; [right; apply Pk; auto|].
    apply bytes_le_lt in Lk as [Lk|Ek]; [by left|right; by rewrite Ek].
  - intros [L|P]; [|apply Pk in P as [_ [?|?]]; done]. eapply bytes_lt_le_trans; [exact L|]. apply bytes_le_lt. by left.
Qed.

Lemma prefix_of_app (b w r : Bytes) : b ++ w `prefix_of` b ++ r ↔ w `prefix_of` r.
Proof.
  split; [|apply prefix_app]. intros [s E]. rewrite <- (assoc_L (++)) in E. apply app_inv_head in E. by exists s.
Qed.

(** What a bound of a range says of the rest of a key after the base. *)
Definition low_rest (base : Bytes) (lower : Bound LiveValue) (at_ : LiveValue → Result Bytes LiveError) (r : Bytes) : Prop :=
  match lower with
  | Unbound => True
  | Included v => ∀ w, at_ v = Ok (base ++ w) → bytes_le w r
  | Excluded v => ∀ w, at_ v = Ok (base ++ w) → bytes_le w r ∧ ¬ w `prefix_of` r
  end.
Definition high_rest (base : Bytes) (upper : Bound LiveValue) (at_ : LiveValue → Result Bytes LiveError) (r : Bytes) : Prop :=
  match upper with
  | Unbound => True
  | Included v => ∀ w, at_ v = Ok (base ++ w) → bytes_lt r w ∨ w `prefix_of` r
  | Excluded v => ∀ w, at_ v = Ok (base ++ w) → bytes_lt r w
  end.

Lemma prefix_le a key : a `prefix_of` key → bytes_le a key.
Proof. intros [s ->]. rewrite <- (app_nil_r a) at 1. apply bytes_le_app, bytes_le_nil. Qed.

Definition bound_is {A} (b : Bound A) (v : A) : Prop := b = Included v ∨ b = Excluded v.

Section bounded.
Context (valid : LiveValue → Prop).
Context (base : Bytes) (at_ : LiveValue → Result Bytes LiveError).
Context (Hn : has_next base) (Bb : Forall (λ b, b < 256) base).
Context (At : ∀ v a, valid v → at_ v = Ok a → ∃ w, a = base ++ w ∧ Forall (λ b, b < 256) w).

Lemma at_bytes w : Forall (λ b, b < 256) w → has_next (base ++ w) ∧ Forall (λ b, b < 256) (base ++ w).
Proof. intros B. split; [by apply has_next_app|by apply Forall_app]. Qed.

Lemma not_below_successor a key : has_next a → Forall (λ b, b < 256) a → Forall (λ b, b < 256) key →
  bytes_le (successor a) key ↔ bytes_le a key ∧ ¬ a `prefix_of` key.
Proof.
  intros Ha Ba Bk. pose proof (below_successor a key Ha Ba Bk) as Bs. pose proof (bytes_le_total (successor a) key) as Tt.
  rewrite bytes_lt_nge in Bs. split.
  - intros L. split; [|intros P; by apply Bs; [right|]]. destruct (bytes_le_total a key) as [|G]; [done|].
    apply bytes_le_lt in G as [G|G]; [|rewrite G; apply bytes_le_refl]. exfalso. by apply Bs; [left|].
  - intros [L N]. destruct Tt as [|G]; [done|]. apply bytes_le_lt in G as [G|G]; [|rewrite G; apply bytes_le_refl].
    apply bytes_lt_nge, Bs in G as [G|G]; [|done]. by apply bytes_lt_nge in G.
Qed.

Definition low_key (lower : Bound LiveValue) : Result Bytes LiveError :=
  match lower with
  | Unbound => Ok base
  | Included v => at_ v
  | Excluded v => LET key <- at_ v ;; Ok (successor key)
  end.
Definition high_key (upper : Bound LiveValue) : Result Bytes LiveError :=
  match upper with
  | Unbound => Ok (successor base)
  | Included v => LET key <- at_ v ;; Ok (successor key)
  | Excluded v => at_ v
  end.

(** [low_rest] and [high_rest] at the key of the bound. *)
Lemma at_rest v w (P : Bytes → Prop) : at_ v = Ok (base ++ w) → (∀ w, at_ v = Ok (base ++ w) → P w) ↔ P w.
Proof.
  intros Ea. split; [by intros Hw; apply Hw|]. intros Pw w' Ea'. rewrite Ea in Ea'. injection Ea' as Ea'.
  by apply app_inv_head in Ea' as <-.
Qed.

Lemma low_key_spec lower lo key : (∀ v, bound_is lower v → valid v) → low_key lower = Ok lo → Forall (λ b, b < 256) key →
  (bytes_le lo key → bytes_le base key) ∧ ∀ r, key = base ++ r → bytes_le lo key ↔ low_rest base lower at_ r.
Proof.
  intros Vl El Bk. destruct lower as [|v|v]; cbn in El.
  - injection El as <-. split; [done|]. intros r ->. cbn. split; [done|]. intros _. by apply prefix_le, prefix_app_r.
  - destruct (At _ _ (Vl _ (or_introl eq_refl)) El) as (w & -> & Bw). split.
    + intros L. eapply bytes_le_trans; [|exact L]. by apply prefix_le, prefix_app_r.
    + intros r ->. cbn. rewrite (at_rest v w (λ w, bytes_le w r)) by done. apply bytes_le_app.
  - destruct (at_ v) as [a|] eqn:Ea; [|done]. injection El as <-. destruct (At _ _ (Vl _ (or_intror eq_refl)) Ea) as (w & -> & Bw).
    destruct (at_bytes w Bw) as [Hw Baw]. split.
    + rewrite not_below_successor by done. intros [L _]. eapply bytes_le_trans; [|exact L]. by apply prefix_le, prefix_app_r.
    + intros r ->. rewrite not_below_successor by done. cbn.
      rewrite (at_rest v w (λ w, bytes_le w r ∧ ¬ w `prefix_of` r)) by done.
      by rewrite bytes_le_app, prefix_of_app.
Qed.

Lemma high_key_spec upper hi key : (∀ v, bound_is upper v → valid v) → high_key upper = Ok hi → Forall (λ b, b < 256) key →
  (bytes_le base key → hi = [] ∨ bytes_lt key hi → base `prefix_of` key)
  ∧ ∀ r, key = base ++ r → hi = [] ∨ bytes_lt key hi ↔ high_rest base upper at_ r.
Proof.
  intros Vu Eh Bk. assert (hi ≠ []) as Ne.
  { destruct upper as [|v|v]; cbn in Eh.
    - injection Eh as <-. by apply successor_next.
    - destruct (at_ v) as [a|] eqn:Ea; [|done]. injection Eh as <-. destruct (At _ _ (Vu _ (or_introl eq_refl)) Ea) as (w & -> & Bw).
      by apply successor_next, has_next_app.
    - destruct (At _ _ (Vu _ (or_intror eq_refl)) Eh) as (w & -> & _). destruct Hn as (x & b & y & -> & _). by destruct x. }
  assert (∀ P Q : Prop, (hi = [] ∨ P ↔ Q) ↔ (P ↔ Q)) as Drop by (intros P Q; tauto).
  assert (∀ w, bytes_le base key → bytes_lt key (base ++ w) → base `prefix_of` key) as Bet.
  { intros w L G. rewrite <- (app_nil_r base) in L. destruct (between_app _ _ _ _ L G) as [r ->]. by apply prefix_app_r. }
  split.
  - intros L [?|G]; [done|]. destruct upper as [|v|v]; cbn in Eh.
    + injection Eh as <-. apply below_successor in G as [G|G]; [|done..]. apply bytes_lt_nge in G. done.
    + destruct (at_ v) as [a|] eqn:Ea; [|done]. injection Eh as <-. destruct (At _ _ (Vu _ (or_introl eq_refl)) Ea) as (w & -> & Bw).
      destruct (at_bytes w Bw) as [Hw Baw]. apply below_successor in G as [G|G]; [by eapply Bet| |done..].
      etransitivity; [|exact G]. by apply prefix_app_r.
    + destruct (At _ _ (Vu _ (or_intror eq_refl)) Eh) as (w & -> & _). by eapply Bet.
  - intros r Ek. apply Drop. subst key. destruct upper as [|v|v]; cbn in Eh |- *.
    + injection Eh as <-. rewrite below_successor by done. split; [done|]. intros _. right. by apply prefix_app_r.
    + destruct (at_ v) as [a|] eqn:Ea; [|done]. injection Eh as <-. destruct (At _ _ (Vu _ (or_introl eq_refl)) Ea) as (w & -> & Bw).
      destruct (at_bytes w Bw) as [Hw Baw]. rewrite below_successor by done.
      rewrite <- Ea, (at_rest v w (λ w, bytes_lt r w ∨ w `prefix_of` r)) by done. by rewrite bytes_lt_app, prefix_of_app.
    + destruct (At _ _ (Vu _ (or_intror eq_refl)) Eh) as (w & -> & _). rewrite (at_rest v w (λ w, bytes_lt r w)) by done. apply bytes_lt_app.
Qed.

(** A bounded range holds the keys that extend the base within the bounds. *)
Lemma bounded_contains lower upper keys key :
  (∀ v, bound_is lower v → valid v) → (∀ v, bound_is upper v → valid v) → bounded base lower upper at_ = Ok keys → Forall (λ b, b < 256) key →
  range_contains keys key = true ↔ ∃ r, key = base ++ r ∧ low_rest base lower at_ r ∧ high_rest base upper at_ r.
Proof.
  unfold bounded. fold (low_key lower) (high_key upper). intros Vl Vu Eb Bk.
  destruct (low_key lower) as [lo|] eqn:El; [|done]. destruct (high_key upper) as [hi|] eqn:Eh; [|done].
  injection Eb as <-. rewrite range_contains_spec. cbn [kr_lo kr_hi].
  destruct (low_key_spec _ _ _ Vl El Bk) as [Lb Lr], (high_key_spec _ _ _ Vu Eh Bk) as [Hb Hr]. split.
  - intros [L G]. destruct (Hb (Lb L) G) as [r Er]. exists r. split; [done|]. split; [by apply (Lr r)|by apply (Hr r)].
  - intros (r & Er & Lo & Hi). split; [by apply (Lr r)|by apply (Hr r)].
Qed.
End bounded.

(** ** Components *)

Lemma escape_bytes bs : Forall (λ b, b < 256) bs → Forall (λ b, b < 256) (escape bs).
Proof.
  induction 1 as [|b bs Hb F IH]; cbn [escape]; [by repeat constructor|]. destruct (b =? 0); repeat constructor; done.
Qed.

Lemma string_bytes_Forall s : Forall (λ b, b < 256) (string_bytes s).
Proof. unfold string_bytes. apply Forall_fmap, Forall_true. intros c. apply N_ascii_bounded. Qed.

Lemma tuple_encode_bytes e : elem_ok e → Forall (λ b, b < 256) (tuple_encode e).
Proof.
  induction e as [| v| v|[]|s|bs|items IH] using Elem_rect_list; intros O; inversion_clear O; cbn [tuple_encode];
    constructor; try done.
  - apply be_bytes_Forall.
  - apply be_bytes_Forall.
  - apply escape_bytes, string_bytes_Forall.
  - by apply escape_bytes.
  - apply Forall_app. split; [|by repeat constructor].
    match goal with F : Forall elem_ok items |- _ => revert F end.
    induction IH as [|x items Hx _ IHi]; intros F; [constructor|]. rewrite fmap_cons. cbn [concat].
    inversion_clear F. apply Forall_app. auto.
Qed.

(** Where a bound sorts as [c] against a component, whatever follows. *)
Lemma sorts_rest c u w rest : sorts c u w →
  (bytes_le w (u ++ rest) ↔ c ≠ Lt) ∧ (w `prefix_of` u ++ rest ↔ c = Eq) ∧ (bytes_lt (u ++ rest) w ↔ c = Lt).
Proof.
  intros S. destruct c; cbn in S.
  - subst w. assert (u `prefix_of` u ++ rest) as P by (by apply prefix_app_r). pose proof (prefix_le _ _ P) as L.
    repeat split; try done. intros G. apply bytes_lt_nge in G. done.
  - pose proof (S rest []) as L. rewrite app_nil_r in L. change (bytes_lt (u ++ rest) w) in L. pose proof L as N.
    apply bytes_lt_nge in N. repeat split; try done. intros P. by apply prefix_le in P.
  - pose proof (S rest []) as L. rewrite app_nil_r in L.
    assert (bytes_lt w (u ++ rest)) as G by (unfold bytes_lt; by rewrite (bytes_cmp_antisym (u ++ rest)), L).
    assert (bytes_le w (u ++ rest)) as Le by (apply bytes_le_lt; by left). repeat split; try done.
    + intros [y Ey]. pose proof (S rest y) as Sy. rewrite Ey, bytes_cmp_refl in Sy. done.
    + intros G'. by apply bytes_lt_nge in G'.
Qed.

Lemma sorts_not_eq c u w x y : sorts c u w → u ++ x = w ++ y → c = Eq.
Proof.
  intros S Eq. assert (w `prefix_of` u ++ x) as P by (by exists y). by apply (sorts_rest c u w x S).
Qed.

Definition components (vs : list Elem) (ms : N) : list Bytes := (tuple_encode <$> vs) ++ [be_bytes 8 ms].

Lemma components_at vs ms pos : (pos < length vs)%nat → ∃ e, vs !! pos = Some e ∧ components vs ms !! pos = Some (tuple_encode e).
Proof.
  intros L. apply lookup_lt_is_Some in L as [e Le]. exists e. split; [done|]. unfold components.
  rewrite lookup_app_l by (rewrite length_fmap; by apply lookup_lt_Some in Le). by rewrite list_lookup_fmap, Le.
Qed.

Lemma components_last vs ms : components vs ms !! length vs = Some (be_bytes 8 ms).
Proof. unfold components. rewrite lookup_app_r; rewrite length_fmap; [|done]. by rewrite Nat.sub_diag. Qed.

Lemma encode_at_bytes pos n v w : value_ok v → encode_at pos n v = Ok w → Forall (λ b, b < 256) w.
Proof.
  intros O Ea. unfold encode_at in Ea. destruct (pos <? n)%nat.
  - destruct (index_elem v) as [e|] eqn:Ie; [|done]. injection Ea as <-. by eapply tuple_encode_bytes, index_elem_ok.
  - destruct v; try done. destruct (0 <=? _)%Z; [|done]. injection Ea as <-. apply be_bytes_Forall.
Qed.

Lemma encode_eq_prefix values n : ∀ base pos base', Forall value_ok values → encode_eq base pos n values = Ok base' →
  ∃ part, base' = base ++ part ∧ Forall (λ b, b < 256) part.
Proof.
  induction values as [|v values IH]; intros base pos base' Fv; cbn [encode_eq].
  - intros [= <-]. exists []. by rewrite app_nil_r.
  - inversion_clear Fv as [|? ? Hv Fv']. destruct (encode_at pos n v) as [w|] eqn:Ea; [|done]. intros Ee.
    destruct (IH _ _ _ Fv' Ee) as (part & -> & Bp). exists (w ++ part). rewrite (assoc_L (++)). split; [done|].
    apply Forall_app. split; [by eapply encode_at_bytes|done].
Qed.

Section entry.
Context (vs : list Elem) (ms : N).
Context (Ov : Forall elem_ok vs) (Lm : ms <= u64_MAX).

Lemma encode_at_sorts pos v w : (pos <= length vs)%nat → value_ok v → encode_at pos (length vs) v = Ok w →
  ∃ u, components vs ms !! pos = Some u ∧ sorts (component_cmp vs ms pos v) u w.
Proof.
  intros Lp O. unfold encode_at, component_cmp. destruct (Nat.ltb_spec pos (length vs)) as [L|L].
  - destruct (components_at vs ms pos L) as (e & Le & Lc). rewrite Le, Lc. destruct (index_elem v) as [e'|] eqn:Ie; [|done].
    intros [= <-]. eexists. split; [done|]. apply sorts_elem; [|by eapply index_elem_ok].
    rewrite Forall_forall in Ov. by eapply Ov, list_elem_of_lookup_2.
  - assert (pos = length vs) as -> by lia. rewrite components_last, (lookup_ge_None_2 vs) by done.
    destruct v as [|i| | | | | |]; try done. destruct (Z.leb_spec 0 i) as [Li|]; [|done]. intros [= <-].
    eexists. split; [done|]. cbn in O. unfold i64_ok, i64_MAX, u64_MAX in *.
    apply sorts_be; change (256 ^ N.of_nat 8) with 18446744073709551616; lia.
Qed.

Lemma component_drop pos u : components vs ms !! pos = Some u → drop pos (components vs ms) = u :: drop (pos + 1) (components vs ms).
Proof. intros L. rewrite Nat.add_1_r. by apply drop_S. Qed.

(** The equality values are a prefix of the components exactly when they match. *)
Lemma encode_eq_matches values : ∀ base pos base' tail, (pos + length values <= length vs + 1)%nat →
  Forall value_ok values → encode_eq base pos (length vs) values = Ok base' →
  ∃ part, base' = base ++ part ∧ Forall (λ b, b < 256) part
    ∧ ∀ r, concat (drop pos (components vs ms)) ++ tail = part ++ r
           ↔ eq_matches vs ms pos values = true ∧ r = concat (drop (pos + length values) (components vs ms)) ++ tail.
Proof.
  induction values as [|v values IH]; intros base pos base' tail Lp Fv; cbn [encode_eq eq_matches length].
  - intros [= <-]. exists []. rewrite app_nil_r, Nat.add_0_r. repeat split; try done. by intros [_ ->].
  - inversion_clear Fv as [|? ? Hv Fv']. cbn in Lp. destruct (encode_at pos (length vs) v) as [w|] eqn:Ea; [|done]. intros Ee.
    destruct (encode_at_sorts pos v w ltac:(lia) Hv Ea) as (u & Lu & So).
    destruct (IH _ (pos + 1)%nat base' tail ltac:(lia) Fv' Ee) as (part & -> & Bp & Hr).
    exists (w ++ part). rewrite (assoc_L (++)). split; [done|]. split.
    + apply Forall_app. split; [by eapply encode_at_bytes|done].
    + intros r. rewrite (component_drop pos u Lu). cbn [concat]. rewrite <- !(assoc_L (++)).
      replace (pos + S (length values))%nat with (pos + 1 + length values)%nat by lia.
      destruct (component_cmp vs ms pos v) eqn:Ec; cbn in So.
      * subst w. rewrite <- Hr. split; [intros Eq; by apply app_inv_head in Eq|by intros ->].
      * split; [|by intros [[=] _]]. intros Eq. by apply (sorts_not_eq Lt) in Eq.
      * split; [|by intros [[=] _]]. intros Eq. by apply (sorts_not_eq Gt) in Eq.
Qed.
End entry.

(** ** Ranges of an index *)

Lemma tagged_has_next app tag y : tag ≠ 0xFF → has_next (key_with app tag ++ y).
Proof. intros N. apply has_next_app. by exists app.(ak_prefix), tag, []. Qed.

Section within.
Context (valid : LiveValue → Prop).
Context (base : Bytes) (at_ : LiveValue → Result Bytes LiveError).
Context (Hn : has_next base) (Bb : Forall (λ b, b < 256) base).
Context (At : ∀ v a, valid v → at_ v = Ok a → ∃ w, a = base ++ w ∧ Forall (λ b, b < 256) w).
Context (rest : Bytes) (cmp : LiveValue → comparison).

(** Each bound is compared with the first component of [rest]. *)
Definition compares (b : Bound LiveValue) : Prop :=
  ∀ v w, bound_is b v → at_ v = Ok (base ++ w) → ∃ u x, rest = u ++ x ∧ sorts (cmp v) u w.

Lemma low_rest_above lower lo : (∀ v, bound_is lower v → valid v) → low_key base at_ lower = Ok lo → compares lower →
  low_rest base lower at_ rest ↔ above lower cmp = true.
Proof.
  intros Vl El Sc. destruct lower as [|v|v]; cbn in *; [done| |].
  - destruct (At _ _ (Vl _ (or_introl eq_refl)) El) as (w & -> & _). destruct (Sc v w (or_introl eq_refl) El) as (u & x & -> & S).
    destruct (sorts_rest _ u w x S) as [L _]. rewrite (at_rest base at_ v w (λ w, bytes_le w _)), L by done. by destruct (cmp v).
  - destruct (at_ v) as [a|] eqn:Ea; [|done]. destruct (At _ _ (Vl _ (or_intror eq_refl)) Ea) as (w & -> & _).
    destruct (Sc v w (or_intror eq_refl) Ea) as (u & x & -> & S). destruct (sorts_rest _ u w x S) as (L & P & _).
    rewrite <- Ea, (at_rest base at_ v w (λ w, bytes_le w _ ∧ ¬ w `prefix_of` _)), L, P by done. destruct (cmp v); intuition congruence.
Qed.

Lemma high_rest_below upper hi : (∀ v, bound_is upper v → valid v) → high_key base at_ upper = Ok hi → compares upper →
  high_rest base upper at_ rest ↔ below upper cmp = true.
Proof.
  intros Vu Eh Sc. destruct upper as [|v|v]; cbn in *; [done| |].
  - destruct (at_ v) as [a|] eqn:Ea; [|done]. destruct (At _ _ (Vu _ (or_introl eq_refl)) Ea) as (w & -> & _).
    destruct (Sc v w (or_introl eq_refl) Ea) as (u & x & -> & S). destruct (sorts_rest _ u w x S) as (_ & P & G).
    rewrite <- Ea, (at_rest base at_ v w (λ w, bytes_lt _ w ∨ w `prefix_of` _)), G, P by done. destruct (cmp v); intuition congruence.
  - destruct (At _ _ (Vu _ (or_intror eq_refl)) Eh) as (w & -> & _). destruct (Sc v w (or_intror eq_refl) Eh) as (u & x & -> & S).
    destruct (sorts_rest _ u w x S) as (_ & _ & G). rewrite (at_rest base at_ v w (λ w, bytes_lt _ w)), G by done. by destruct (cmp v).
Qed.

Lemma bounded_matches lower upper keys :
  (∀ v, bound_is lower v → valid v) → (∀ v, bound_is upper v → valid v) → bounded base lower upper at_ = Ok keys → Forall (λ b, b < 256) rest →
  compares lower → compares upper →
  range_contains keys (base ++ rest) = true ↔ above lower cmp && below upper cmp = true.
Proof.
  intros Vl Vu Eb Br Cl Cu. rewrite (bounded_contains valid base at_ Hn Bb At _ _ _ _ Vl Vu Eb) by (by apply Forall_app).
  unfold bounded in Eb. fold (low_key base at_ lower) (high_key base at_ upper) in Eb.
  destruct (low_key base at_ lower) as [lo|] eqn:El; [|done]. destruct (high_key base at_ upper) as [hi|] eqn:Eh; [|done].
  rewrite andb_true_iff, <- (low_rest_above _ _ Vl El Cl), <- (high_rest_below _ _ Vu Eh Cu). split.
  - intros (r & Er & ?). by apply app_inv_head in Er as <-.
  - intros ?. by exists rest.
Qed.
End within.

(** A table whose index ids are [u32]s of user indexes, each once. *)
Record table_wf (table : TableDef) : Prop := {
  tw_id : table.(tb_id) <= u32_MAX;
  tw_ids : Forall (λ i, FIRST_USER <= i.(ix_id) <= u32_MAX) table.(tb_indexes);
  tw_nodup : NoDup (ix_id <$> table.(tb_indexes));
}.

(** An index range over Rust values. *)
Record range_ok (range : IndexRange) : Prop := {
  ro_index : range.(ir_index) <= u32_MAX;
  ro_eq : Forall value_ok range.(ir_eq);
  ro_lower v : bound_is range.(ir_lower) v → value_ok v;
  ro_upper v : bound_is range.(ir_upper) v → value_ok v;
}.

Section index_range.
Context `{IdText, !IdTextOk, LiveCodec, !LiveCodecOk}.
Context (app : AppKeys) (Ba : Forall (λ b, b < 256) app.(ak_prefix)).

(** The id of a document against a bound of [by_id]. *)
Definition id_cmp (doc : Doc) (v : LiveValue) : comparison :=
  match v with
  | VStr text =>
      match doc_id_from_str text with Ok id => bytes_cmp doc.(doc_id).(di_bytes) id.(di_bytes) | Err _ => Eq end
  | _ => Eq
  end.

(** Whether a document meets an index range. *)
Definition range_matches (table : TableDef) (range : IndexRange) (doc : Doc) : bool :=
  if range.(ir_index) =? BY_ID_INDEX then above range.(ir_lower) (id_cmp doc) && below range.(ir_upper) (id_cmp doc)
  else
    match index_fields table range.(ir_index) with
    | None => false
    | Some fields =>
        match doc_values fields doc with
        | Err _ => false
        | Ok vs =>
            let next := component_cmp vs doc.(doc_creation_ms) (length range.(ir_eq)) in
            eq_matches vs doc.(doc_creation_ms) 0 range.(ir_eq) && (above range.(ir_lower) next && below range.(ir_upper) next)
        end
    end.

Lemma key_with_bytes tag : tag < 256 → Forall (λ b, b < 256) (key_with app tag).
Proof. intros L. unfold key_with. apply Forall_app. split; [done|]. by repeat constructor. Qed.

Lemma sorts_fixed (a b : Bytes) : length a = length b → sorts (bytes_cmp a b) a b.
Proof.
  revert b. induction a as [|x a IH]; intros [|y b] L; try done. injection L as L. specialize (IH b L).
  destruct (N.eq_dec x y) as [->|N].
  - unfold bytes_cmp. cbn. rewrite N.compare_refl. by apply sorts_cons.
  - pose proof (sorts_heads x y a b N) as S. unfold bytes_cmp. cbn. destruct (N.compare_spec x y); [done|exact S..].
Qed.

Lemma by_id_contains table range keys doc : doc_id_ok doc.(doc_id) → doc.(doc_id).(di_table) = table.(tb_id) →
  range.(ir_index) = BY_ID_INDEX → index_key_range app table range = Ok keys →
  range_contains keys (document_key app doc.(doc_id)) = range_matches table range doc.
Proof.
  intros [Lt Ln Bi] Et Ei. unfold index_key_range, range_matches. destruct (negb (_ =? table.(tb_id))); [done|].
  rewrite Ei, N.eqb_refl. case_bool_decide; [|done]. cbn [negb]. intros Eb. apply eq_true_iff_eq.
  rewrite document_key_eq, Et. change (kr_lo _) with (doc_prefix app table.(tb_id)) in Eb.
  assert (∀ v w, by_id_at app table v = Ok (doc_prefix app table.(tb_id) ++ w) →
    ∃ u x, doc.(doc_id).(di_bytes) = u ++ x ∧ sorts (id_cmp doc v) u w) as Cm.
  { intros v w. unfold by_id_at, id_cmp. destruct v as [| | | |text| | |]; try done.
    destruct (doc_id_from_str text) as [id|] eqn:Ef; [|done]. apply doc_id_canonical in Ef as [_ [_ Ln' _]].
    destruct (check_table table id); [|done]. intros [= Ew]. apply app_inv_head in Ew as <-.
    exists doc.(doc_id).(di_bytes), []. rewrite app_nil_r. split; [done|]. apply sorts_fixed. congruence. }
  eapply (bounded_matches (λ _, True)); [| | |done|done|exact Eb|done| |].
  - by apply tagged_has_next.
  - apply Forall_app. split; [by apply key_with_bytes|apply be_bytes_Forall].
  - intros v a _. unfold by_id_at. destruct v as [| | | |text| | |]; try done.
    destruct (doc_id_from_str text) as [id|] eqn:Ef; [|done]. apply doc_id_canonical in Ef as [_ [_ _ Bi']].
    destruct (check_table table id); [|done]. intros [= <-]. by exists id.(di_bytes).
  - intros v w _. apply Cm.
  - intros v w _. apply Cm.
Qed.

Lemma doc_values_length fields doc vs : doc_values fields doc = Ok vs → length vs = length fields.
Proof. intros Ec. apply collect_Ok in Ec. symmetry. by eapply Forall2_length. Qed.

Lemma doc_values_ok fields doc vs : doc_ok doc → doc_values fields doc = Ok vs → Forall elem_ok vs.
Proof.
  intros [_ _ Of] Ec. apply collect_Ok in Ec. induction Ec as [|f e fields vs Hf _ IH]; constructor; [|done].
  eapply index_elem_ok; [|exact Hf]. destruct (doc.(doc_fields) !! f) eqn:L; [|done]. by eapply Of.
Qed.

Lemma entry_components index vs ms id :
  index_entry app index vs ms id = index_prefix app id.(di_table) index ++ concat (components vs ms) ++ id.(di_bytes).
Proof.
  unfold index_entry, components. rewrite concat_app. cbn [concat]. by rewrite app_nil_r, <- !(assoc_L (++)).
Qed.

Lemma components_bytes vs ms : Forall elem_ok vs → Forall (λ b, b < 256) (concat (components vs ms)).
Proof.
  intros Ov. apply Forall_concat, Forall_app. split; [|constructor; [apply be_bytes_Forall|constructor]].
  apply Forall_fmap. eapply Forall_impl; [exact Ov|]. intros e. apply tuple_encode_bytes.
Qed.

Lemma entry_contains table range keys doc fields vs : doc_ok doc → doc.(doc_id).(di_table) = table.(tb_id) → range_ok range →
  range.(ir_index) ≠ BY_ID_INDEX → index_fields table range.(ir_index) = Some fields → doc_values fields doc = Ok vs →
  index_key_range app table range = Ok keys →
  range_contains keys (index_entry app range.(ir_index) vs doc.(doc_creation_ms) doc.(doc_id)) = range_matches table range doc.
Proof.
  intros Od Et [_ Oe Ol Ou] Ni Ef Ev. pose proof (doc_values_length _ _ _ Ev) as Lv. pose proof (doc_values_ok _ _ _ Od Ev) as Ov.
  destruct Od as [[Lt Ln Bi] Lc _]. unfold index_key_range, range_matches. destruct (negb (_ =? table.(tb_id))); [done|].
  rewrite (proj2 (N.eqb_neq _ _) Ni), Ef, Ev. cbn [ok_or]. rewrite <- Lv.
  destruct (Nat.ltb_spec (length vs + 1) (length range.(ir_eq))) as [|Le]; [done|].
  set (next := length range.(ir_eq)) in *.
  destruct (negb (is_unbound _ && is_unbound _) && (length vs <? next)%nat) eqn:Bn; [done|].
  set (prefix := index_prefix app table.(tb_id) range.(ir_index)).
  destruct (encode_eq prefix 0 (length vs) range.(ir_eq)) as [base|] eqn:Ee; [|done]. intros Eb.
  set (ms := doc.(doc_creation_ms)) in *.
  destruct (encode_eq_matches vs ms Ov Lc range.(ir_eq) prefix 0 base doc.(doc_id).(di_bytes) ltac:(unfold next in Le; lia) Oe Ee)
    as (part & -> & Bp & Hr). rewrite drop_0 in Hr. cbn [Nat.add] in Hr. fold next in Hr.
  assert (has_next prefix ∧ Forall (λ b, b < 256) prefix) as [Hn Bpre].
  { split; [by apply tagged_has_next|]. unfold prefix, index_prefix. rewrite !Forall_app.
    split; [by apply key_with_bytes|]. split; apply be_bytes_Forall. }
  assert (has_next (prefix ++ part) ∧ Forall (λ b, b < 256) (prefix ++ part)) as [Hn' Bpre'].
  { split; [by apply has_next_app|by apply Forall_app]. }
  set (at_ := λ v, _) in Eb.
  assert (∀ v a, at_ v = Ok a → ∃ w, a = (prefix ++ part) ++ w ∧ encode_at next (length vs) v = Ok w) as Atv.
  { intros v a. unfold at_. destruct (encode_at next (length vs) v) as [w|]; [|done]. intros [= <-]. by exists w. }
  assert (∀ v a, value_ok v → at_ v = Ok a → ∃ w, a = (prefix ++ part) ++ w ∧ Forall (λ b, b < 256) w) as At.
  { intros v a Hv Ea. destruct (Atv v a Ea) as (w & -> & Ew). exists w. split; [done|]. by eapply encode_at_bytes. }
  apply eq_true_iff_eq. rewrite entry_components, Et. fold prefix. rewrite (andb_true_iff (eq_matches _ _ _ _)).
  destruct (eq_matches vs ms 0 range.(ir_eq)) eqn:Em.
  - rewrite (proj2 (Hr _) (conj eq_refl eq_refl)), (assoc_L (++)).
    assert (∀ b, bound_is range.(ir_lower) b ∨ bound_is range.(ir_upper) b → (next <= length vs)%nat) as Ln'.
    { intros v Hb. apply andb_false_iff in Bn as [Bn|Bn]; [|apply Nat.ltb_ge in Bn; lia].
      destruct Hb as [[Hb|Hb]|[Hb|Hb]]; rewrite Hb in Bn; cbn in Bn; rewrite ?andb_false_r in Bn; done. }
    assert (∀ v w, bound_is range.(ir_lower) v ∨ bound_is range.(ir_upper) v → value_ok v → at_ v = Ok ((prefix ++ part) ++ w) →
      ∃ u x, concat (drop next (components vs ms)) ++ doc.(doc_id).(di_bytes) = u ++ x ∧ sorts (component_cmp vs ms next v) u w) as Cm.
    { intros v w Hb Hv Ea. destruct (Atv _ _ Ea) as (w' & Ew & Een). apply app_inv_head in Ew as <-.
      destruct (encode_at_sorts vs ms Ov Lc next v w (Ln' v Hb) Hv Een) as (u & Lu & S). exists u.
      rewrite (component_drop vs ms next u Lu). cbn [concat]. rewrite <- (assoc_L (++)). eauto. }
    rewrite (bounded_matches value_ok (prefix ++ part) at_ Hn' Bpre' At _ (component_cmp vs ms next) _ _ _ Ol Ou Eb).
    + tauto.
    + apply Forall_app. split; [|done]. apply Forall_concat, Forall_drop, Forall_concat, components_bytes. done.
    + intros v w Hb. apply Cm; auto.
    + intros v w Hb. apply Cm; auto.
  - split; [|by intros [[=] _]]. intros Rc. exfalso.
    apply (bounded_contains value_ok _ _ Hn' Bpre' At _ _ _ _ Ol Ou Eb) in Rc as (r & Er & _).
    + rewrite <- (assoc_L (++)) in Er. apply app_inv_head, Hr in Er as [[=] _].
    + apply Forall_app. split; [done|]. apply Forall_app. split; [by apply components_bytes|done].
Qed.

(** ** The documents of a range *)

Lemma index_range_prefix table range keys key : range_ok range → Forall (λ b, b < 256) key →
  range.(ir_index) ≠ BY_ID_INDEX → index_key_range app table range = Ok keys → range_contains keys key = true →
  index_prefix app table.(tb_id) range.(ir_index) `prefix_of` key ∧ is_Some (index_fields table range.(ir_index)).
Proof.
  intros [_ Oe Ol Ou] Bk Ni. unfold index_key_range. destruct (negb (_ =? table.(tb_id))); [done|].
  rewrite (proj2 (N.eqb_neq _ _) Ni). destruct (index_fields table range.(ir_index)) as [fields|]; [|done]. cbn [ok_or].
  destruct (_ <? _)%nat; [done|]. destruct (negb (_ && _) && _); [done|].
  set (prefix := index_prefix _ _ _). destruct (encode_eq prefix _ _ _) as [base|] eqn:Ee; [|done].
  destruct (encode_eq_prefix _ _ _ _ _ Oe Ee) as (part & -> & Bp). intros Eb Rc. split; [|done].
  assert (has_next prefix ∧ Forall (λ b, b < 256) prefix) as [Hn Bpre].
  { split; [by apply tagged_has_next|]. unfold prefix, index_prefix. rewrite !Forall_app.
    split; [by apply key_with_bytes|]. split; apply be_bytes_Forall. }
  match type of Eb with bounded _ _ _ ?f = _ => apply (bounded_contains value_ok (prefix ++ part) f) with (lower := range.(ir_lower))
    (upper := range.(ir_upper)) in Rc as (r & -> & _) end; [|by apply has_next_app|by apply Forall_app| |done..].
  - rewrite <- (assoc_L (++)). by apply prefix_app_r.
  - intros v a Hv. destruct (encode_at _ _ v) as [w|] eqn:Ea; [|done]. intros [= <-]. exists w. split; [done|]. by eapply encode_at_bytes.
Qed.

Lemma by_id_range_prefix table range keys key : Forall (λ b, b < 256) key → range.(ir_index) = BY_ID_INDEX →
  index_key_range app table range = Ok keys → range_contains keys key = true → doc_prefix app table.(tb_id) `prefix_of` key.
Proof.
  intros Bk Ei. unfold index_key_range. destruct (negb (_ =? table.(tb_id))); [done|]. rewrite Ei, N.eqb_refl.
  case_bool_decide; [|done]. cbn [negb]. intros Eb Rc. change (kr_lo _) with (doc_prefix app table.(tb_id)) in Eb.
  eapply (bounded_contains (λ _, True) (doc_prefix app table.(tb_id))) in Rc as (r & -> & _); [by apply prefix_app_r| | | |done|done|exact Eb|done].
  - by apply tagged_has_next.
  - apply Forall_app. split; [by apply key_with_bytes|apply be_bytes_Forall].
  - intros v a _. unfold by_id_at. destruct v as [| | | |text| | |]; try done.
    destruct (doc_id_from_str text) as [id|] eqn:Ef; [|done]. apply doc_id_canonical in Ef as [_ [_ _ Bi']].
    destruct (check_table table id); [|done]. intros [= <-]. by exists id.(di_bytes).
Qed.

Lemma collect_map_err {A B F G} (f : F → G) (g : A → Result B F) l bs :
  collect (λ x, map_err f (g x)) l = Ok bs ↔ collect g l = Ok bs.
Proof.
  rewrite !collect_Ok. split; intros Fa; (eapply Forall2_impl; [exact Fa|]); intros a b; cbn; destruct (g a); cbn; congruence.
Qed.

(** The fields of a user index. *)
Lemma index_fields_user table i : table_wf table → i ∈ table.(tb_indexes) →
  i.(ix_id) ≠ BY_ID_INDEX ∧ index_fields table i.(ix_id) = Some i.(ix_fields).
Proof.
  intros [_ Fi ND] I. rewrite Forall_forall in Fi. specialize (Fi i I). unfold FIRST_USER, BY_ID_INDEX in *.
  split; [lia|]. unfold index_fields. rewrite (proj2 (N.eqb_neq _ _)) by (unfold BY_CREATION_TIME_INDEX; lia).
  destruct (list_find (λ j, ix_id j = ix_id i) table.(tb_indexes)) as [[n j]|] eqn:F.
  - apply list_find_Some in F as (Lj & Ej & _). apply list_elem_of_lookup in I as [m Li]. cbn.
    assert (n = m) as -> by (eapply (NoDup_lookup (ix_id <$> table.(tb_indexes))); [done| |]; rewrite list_lookup_fmap;
      [by rewrite Lj|by rewrite Li; cbn; rewrite Ej]).
    rewrite Lj in Li. by injection Li as ->.
  - exfalso. apply list_find_None in F. rewrite Forall_forall in F. by apply (F i I).
Qed.

Lemma index_fields_inv table index fields : index_fields table index = Some fields → index ≠ BY_CREATION_TIME_INDEX →
  ∃ i, i ∈ table.(tb_indexes) ∧ i.(ix_id) = index ∧ i.(ix_fields) = fields.
Proof.
  unfold index_fields. intros F N. rewrite (proj2 (N.eqb_neq _ _) N) in F.
  destruct (list_find _ _) as [[n i]|] eqn:L; [|done]. apply list_find_Some in L as (Li & Ei & _).
  injection F as <-. exists i. by apply list_elem_of_lookup_2 in Li.
Qed.

Context (lim : Limits).

(** A document of the table in the store. *)
Definition stored (kv : gmap Bytes Bytes) (table : TableDef) (doc : Doc) : Prop :=
  doc_id_ok doc.(doc_id) ∧ doc.(doc_id).(di_table) = table.(tb_id) ∧ doc_at app kv doc.(doc_id) = Some doc.

Lemma user_key_values table doc i key : user_index_key app table doc lim i = Ok key →
  ∃ vs, doc_values i.(ix_fields) doc = Ok vs ∧ key = index_entry app i.(ix_id) vs doc.(doc_creation_ms) doc.(doc_id).
Proof.
  unfold user_index_key. destruct (collect _ _) as [vs|] eqn:Ec; [|done]. destruct (_ <? _); [done|]. intros [= <-].
  exists vs. split; [|done]. by apply collect_map_err in Ec.
Qed.

(** Every document has its entry in every index. *)
Lemma stored_entry kv table doc index fields : table_ok app lim kv table → stored kv table doc →
  index_fields table index = Some fields →
  ∃ vs, doc_values fields doc = Ok vs
        ∧ kv !! index_entry app index vs doc.(doc_creation_ms) doc.(doc_id) = Some [].
Proof.
  intros T (Oi & Et & D) F. destruct (tk_docs _ _ _ _ T _ _ Oi Et D) as (_ & keys & Ek & Hk).
  unfold index_keys in Ek. destruct (collect _ _) as [ks|] eqn:Ec; [|done]. injection Ek as <-.
  destruct (decide (index = BY_CREATION_TIME_INDEX)) as [->|N].
  - injection F as <-. exists []. split; [done|]. apply Hk. left.
  - apply index_fields_inv in F as (i & I & <- & <-); [|done]. apply collect_Ok in Ec.
    apply list_elem_of_lookup in I as [n Ln]. eapply Forall2_lookup_l in Ec as (key & Lk & Eu); [|exact Ln].
    apply user_key_values in Eu as (vs & Ev & ->). exists vs. split; [done|]. apply Hk. right. by eapply list_elem_of_lookup_2.
Qed.

(** Every entry of an index is the one of a document. *)
Lemma entry_stored kv table index key : table_ok app lim kv table → table_wf table → index <= u32_MAX →
  index_prefix app table.(tb_id) index `prefix_of` key → is_Some (kv !! key) →
  ∃ doc fields vs, stored kv table doc ∧ index_fields table index = Some fields ∧ doc_values fields doc = Ok vs
    ∧ key = index_entry app index vs doc.(doc_creation_ms) doc.(doc_id).
Proof.
  intros T Wf Li P Sm. assert (entry_prefix app table.(tb_id) `prefix_of` key) as Pe.
  { etransitivity; [|exact P]. unfold index_prefix, entry_prefix. rewrite (assoc_L (++)). by apply prefix_app_r. }
  destruct (tk_entries _ _ _ _ T key Pe Sm) as (id & doc & keys & Oi & Et & D & Ek & I).
  assert (doc.(doc_id) = id) as Ed by (apply doc_at_Some in D as (? & _ & D); by apply doc_decode_id in D). subst id.
  assert (∀ index' vs, index' <= u32_MAX → key = index_entry app index' vs doc.(doc_creation_ms) doc.(doc_id) → index' = index) as Ix.
  { intros index' vs L' ->. destruct P as [s Eq]. unfold index_entry, index_prefix in Eq. rewrite Et, <- !(assoc_L (++)) in Eq.
    apply app_inv_head in Eq. apply u32_be_inj in Eq as [_ Eq]; [|apply T|apply T]. by apply u32_be_inj in Eq as [-> _]. }
  exists doc. unfold index_keys in Ek. destruct (collect _ _) as [ks|] eqn:Ec; [|done]. injection Ek as <-.
  apply elem_of_cons in I as [Ei|I].
  - pose proof (Ix BY_CREATION_TIME_INDEX [] ltac:(done) Ei) as <-. exists [], []. done.
  - apply collect_Ok in Ec. apply list_elem_of_lookup in I as [n Ln]. eapply Forall2_lookup_r in Ec as (i & Lf & Eu); [|exact Ln].
    apply list_elem_of_lookup_2 in Lf. apply user_key_values in Eu as (vs & Ev & Ey).
    pose proof (tw_ids _ Wf) as Fi. rewrite Forall_forall in Fi. pose proof (Ix _ vs (proj2 (Fi i Lf)) Ey) as <-.
    exists i.(ix_fields), vs. destruct (index_fields_user table i Wf Lf) as [_ F]. done.
Qed.

(** The key by which a scan of [index] finds a document. *)
Definition sort_key (table : TableDef) (index : IndexId) (doc : Doc) : Bytes :=
  if index =? BY_ID_INDEX then document_key app doc.(doc_id)
  else
    match index_fields table index with
    | Some fields =>
        match doc_values fields doc with
        | Ok vs => index_entry app index vs doc.(doc_creation_ms) doc.(doc_id)
        | Err _ => []
        end
    | None => []
    end.

Section found.
Context (kv : gmap Bytes Bytes) (table : TableDef) (range : IndexRange) (keys : KeyRange).
Context (T : table_ok app lim kv table) (Wf : table_wf table) (Ro : range_ok range).
Context (Bkv : ∀ k, is_Some (kv !! k) → Forall (λ b, b < 256) k).
Context (Ek : index_key_range app table range = Ok keys).

Lemma key_of_matching doc : stored kv table doc → is_Some (index_fields table range.(ir_index)) ∨ range.(ir_index) = BY_ID_INDEX →
  is_Some (kv !! sort_key table range.(ir_index) doc)
  ∧ range_contains keys (sort_key table range.(ir_index) doc) = range_matches table range doc.
Proof.
  intros St Ix. pose proof St as (Oi & Et & D). unfold sort_key. destruct (N.eqb_spec range.(ir_index) BY_ID_INDEX) as [Eb|Nb].
  - split; [apply doc_at_Some in D as (b & -> & _); done|]. by apply by_id_contains.
  - destruct Ix as [[fields F]|?]; [|done]. rewrite F. destruct (stored_entry kv table doc _ fields T St F) as (vs & Ev & L).
    rewrite Ev, L. split; [done|]. apply (entry_contains table range keys doc fields vs); try done.
    by apply (tk_docs _ _ _ _ T doc.(doc_id) doc).
Qed.

Lemma matching_of_key key : range_contains keys key = true → is_Some (kv !! key) →
  ∃ doc, stored kv table doc ∧ key = sort_key table range.(ir_index) doc ∧ range_matches table range doc = true
    ∧ (is_Some (index_fields table range.(ir_index)) ∨ range.(ir_index) = BY_ID_INDEX).
Proof.
  intros Rc Sm. destruct (N.eq_dec range.(ir_index) BY_ID_INDEX) as [Eb|Nb].
  - pose proof (by_id_range_prefix table range keys key (Bkv key Sm) Eb Ek Rc) as P.
    destruct (tk_keys _ _ _ _ T key P Sm) as (id & doc & Oi & Et & -> & D). exists doc.
    assert (doc.(doc_id) = id) as Ed by (apply doc_at_Some in D as (? & _ & D'); by apply doc_decode_id in D'). subst id.
    split; [done|]. unfold sort_key. rewrite Eb, N.eqb_refl. split; [done|]. split; [|by right].
    by rewrite <- (by_id_contains table range keys doc).
  - destruct (index_range_prefix table range keys key Ro (Bkv key Sm) Nb Ek Rc) as [P F].
    destruct (entry_stored kv table _ key T Wf (ro_index _ Ro) P Sm) as (doc & fields & vs & St & Ef & Ev & ->).
    exists doc. split; [done|]. unfold sort_key. rewrite (proj2 (N.eqb_neq _ _) Nb), Ef, Ev. split; [done|].
    split; [|by left]. rewrite <- (entry_contains table range keys doc fields vs); try done.
    + destruct St as (Oi & Et & D). by apply (tk_docs _ _ _ _ T doc.(doc_id) doc).
    + apply St.
Qed.

(** ** Index order *)

(** Documents in index order: by their indexed values, then by creation time, then by id. *)
Definition doc_cmp (index : IndexId) (a b : Doc) : comparison :=
  let ids := bytes_cmp a.(doc_id).(di_bytes) b.(doc_id).(di_bytes) in
  if index =? BY_ID_INDEX then ids
  else
    match index_fields table index with
    | Some fields =>
        match doc_values fields a, doc_values fields b with
        | Ok vs, Ok ws => then_cmp (lex_cmp elem_cmp vs ws) (then_cmp (a.(doc_creation_ms) ?= b.(doc_creation_ms)) ids)
        | _, _ => Eq
        end
    | None => Eq
    end.

Lemma sort_key_cmp a b : stored kv table a → stored kv table b →
  is_Some (index_fields table range.(ir_index)) ∨ range.(ir_index) = BY_ID_INDEX →
  bytes_cmp (sort_key table range.(ir_index) a) (sort_key table range.(ir_index) b) = doc_cmp range.(ir_index) a b.
Proof.
  intros Sa Sb Ix. pose proof Sa as (Oa & Ta & Da). pose proof Sb as (Ob & Tb & Db). unfold sort_key, doc_cmp.
  destruct (N.eqb_spec range.(ir_index) BY_ID_INDEX) as [Eb|Nb].
  - by rewrite !document_key_eq, Ta, Tb, bytes_cmp_app.
  - destruct Ix as [[fields F]|?]; [|done]. rewrite F. destruct (stored_entry kv table a _ fields T Sa F) as (vs & Ev & _).
    destruct (stored_entry kv table b _ fields T Sb F) as (ws & Ew & _). rewrite Ev, Ew.
    destruct (tk_docs _ _ _ _ T _ a Oa Ta Da) as [Ka _]. destruct (tk_docs _ _ _ _ T _ b Ob Tb Db) as [Kb _].
    unfold index_entry. rewrite Ta, Tb, bytes_cmp_app. apply sorts_cmp, sorts_app; [|apply sorts_app].
    + apply sorts_tuple; [|exact (doc_values_ok _ _ _ Ka Ev)|exact (doc_values_ok _ _ _ Kb Ew)].
      by rewrite (doc_values_length _ _ _ Ev), (doc_values_length _ _ _ Ew).
    + destruct Ka as [_ La _], Kb as [_ Lb _]. unfold u64_MAX in *. apply sorts_be; change (256 ^ N.of_nat 8) with 18446744073709551616; lia.
    + apply sorts_fixed. by rewrite (id_length _ Oa), (id_length _ Ob).
Qed.

Lemma sort_key_inj a b : stored kv table a → stored kv table b →
  is_Some (index_fields table range.(ir_index)) ∨ range.(ir_index) = BY_ID_INDEX →
  sort_key table range.(ir_index) a = sort_key table range.(ir_index) b → a = b.
Proof.
  intros Sa Sb Ix Es. pose proof Sa as (Oa & Ta & Da). pose proof Sb as (Ob & Tb & Db).
  cut (a.(doc_id) = b.(doc_id)); [intros Ei; rewrite Ei in Da; congruence|].
  pose proof (sort_key_cmp a b Sa Sb Ix) as C. rewrite Es, bytes_cmp_refl in C. unfold doc_cmp in C.
  assert (bytes_cmp a.(doc_id).(di_bytes) b.(doc_id).(di_bytes) = Eq) as Ci.
  { destruct (N.eqb_spec range.(ir_index) BY_ID_INDEX); [done|]. destruct Ix as [[fields F]|?]; [|done].
    rewrite F in C. destruct (stored_entry kv table a _ fields T Sa F) as (vs & Ev & _).
    destruct (stored_entry kv table b _ fields T Sb F) as (ws & Ew & _). rewrite Ev, Ew in C.
    destruct (lex_cmp _ _ _); [|done..]. cbn in C. by destruct (_ ?= _). }
  apply bytes_cmp_eq in Ci. destruct a.(doc_id), b.(doc_id). cbn in *. congruence.
Qed.

(** ** The documents of a range *)

(** A document comes before another in the order of the scan. *)
Definition doc_before (a b : Doc) : Prop :=
  doc_cmp range.(ir_index) a b = (if is_desc range then Gt else Lt).

(** The pair [p] of the store is how the scan finds [doc]. *)
Record found_by (p : Pair) (doc : Doc) : Prop := {
  fb_pair : kv !! p.1 = Some p.2;
  fb_stored : stored kv table doc;
  fb_key : p.1 = sort_key table range.(ir_index) doc;
  fb_matches : range_matches table range doc = true;
  fb_index : is_Some (index_fields table range.(ir_index)) ∨ range.(ir_index) = BY_ID_INDEX;
}.

Lemma found_all L : (∀ p, p ∈ L → range_contains keys p.1 = true ∧ kv !! p.1 = Some p.2) →
  ∃ all, Forall2 found_by L all.
Proof.
  induction L as [|p L IH]; intros I; [by exists []|]. destruct IH as [all F]; [intros q J; apply I; by right|].
  destruct (I p ltac:(left)) as [Rc Lp]. destruct (matching_of_key p.1 Rc) as (doc & ? & ? & ? & ?); [by rewrite Lp|].
  exists (doc :: all). constructor; [by split|done].
Qed.

Lemma found_id p doc : found_by p doc → range.(ir_index) ≠ BY_ID_INDEX →
  doc_of_index_entry app table.(tb_id) p.1 = Some (doc.(doc_id), doc.(doc_creation_ms)).
Proof.
  intros [_ St -> _ Ix] Nb. pose proof St as (Oi & Et & D). destruct Ix as [[fields F]|?]; [|done].
  destruct (stored_entry kv table doc _ fields T St F) as (vs & Ev & _).
  destruct (tk_docs _ _ _ _ T _ doc Oi Et D) as [[_ Lm _] _].
  unfold sort_key. rewrite (proj2 (N.eqb_neq _ _) Nb), F, Ev, <- Et. apply index_entry_reads_back; [apply Oi|done].
Qed.

Lemma found_docs L all : Forall2 found_by L all →
  (if range.(ir_index) =? BY_ID_INDEX then docs_by_id app table L else entry_docs app table kv L) = Ok all.
Proof.
  intros F. destruct (N.eqb_spec range.(ir_index) BY_ID_INDEX) as [Eb|Nb].
  - apply collect_Ok. eapply Forall2_impl; [exact F|]. intros p doc [Lp (Oi & Et & D) Ep _ _].
    unfold sort_key in Ep. rewrite Eb, N.eqb_refl in Ep. rewrite Ep, <- Et, document_reads_back by apply Oi. cbn.
    apply doc_at_Some in D as (b & Lb & Db). rewrite Ep in Lp. by replace p.2 with b by congruence.
  - unfold entry_docs. rewrite (proj2 (collect_Ok _ L (doc_id <$> all))).
    + assert (Forall (stored kv table) all) as S by (clear -F; induction F as [|p d ? ? []]; by constructor).
      apply collect_Ok, Forall2_fmap_l, Forall_Forall2_diag. eapply Forall_impl; [exact S|].
      intros doc (_ & _ & D). apply doc_at_Some in D as (b & Lb & Db). unfold compose. by rewrite Lb.
    + apply Forall2_fmap_r. eapply Forall2_impl; [exact F|]. intros p doc Fb. cbn. by rewrite (found_id p doc Fb Nb).
Qed.

(** The documents a range asks for, in the order of the scan. *)
Definition all_matching (all : list Doc) : Prop :=
  StronglySorted doc_before all ∧ ∀ doc, doc ∈ all ↔ stored kv table doc ∧ range_matches table range doc = true.

Lemma matches_index doc : range_matches table range doc = true →
  is_Some (index_fields table range.(ir_index)) ∨ range.(ir_index) = BY_ID_INDEX.
Proof.
  unfold range_matches. destruct (N.eqb_spec range.(ir_index) BY_ID_INDEX) as [?|_]; [by right|].
  destruct (index_fields _ _); [by left; eexists|done].
Qed.

Lemma found_before p q a b : found_by p a → found_by q b → dir_lt (is_desc range) p q → doc_before a b.
Proof.
  intros [_ Sa Ea _ Ix] [_ Sb Eb _ _] Lt. unfold doc_before, dir_lt in *. rewrite <- (sort_key_cmp a b Sa Sb Ix), <- Ea, <- Eb.
  destruct (is_desc range); [|done]. rewrite bytes_cmp_antisym. unfold bytes_lt in Lt. by rewrite Lt.
Qed.

Lemma sorted_found L all : Forall2 found_by L all → StronglySorted (dir_lt (is_desc range)) L → StronglySorted doc_before all.
Proof.
  induction 1 as [|p a L all Fa F IH]; intros S; [constructor|]. apply StronglySorted_cons in S as [C S].
  apply StronglySorted_cons. split; [|by apply IH]. apply Forall_forall. intros b I.
  apply list_elem_of_lookup in I as [n I]. eapply Forall2_lookup_r in F as (q & Lq & Fb); [|exact I].
  apply (found_before p q); [done..|]. rewrite Forall_forall in C. apply C. by eapply list_elem_of_lookup_2.
Qed.

Lemma range_documents desc : is_desc range = desc →
  ∃ all, Forall2 found_by (range_pairs kv (range_bounds keys).1 (range_bounds keys).2 desc) all ∧ all_matching all.
Proof.
  intros Ed. set (L := range_pairs _ _ _ _).
  assert (∀ p, p ∈ L ↔ range_contains keys p.1 = true ∧ kv !! p.1 = Some p.2) as EL.
  { intros p. unfold L. by rewrite elem_of_range, in_bounds. }
  destruct (found_all L) as [all F]; [intros p I; by apply EL|]. exists all. split; [done|]. split.
  - apply (sorted_found L); [done|]. rewrite Ed. apply range_sorted.
  - intros doc. split; intros I.
    + apply list_elem_of_lookup in I as [n I]. eapply Forall2_lookup_r in F as (q & Lq & Fb); [|exact I]. split; apply Fb.
    + destruct I as [St M]. pose proof (matches_index doc M) as Ix. destruct (key_of_matching doc St Ix) as [[v Lv] C].
      rewrite M in C. assert ((sort_key table range.(ir_index) doc, v) ∈ L) as I by by apply EL.
      apply list_elem_of_lookup in I as [n I]. eapply Forall2_lookup_l in F as (d & Ld & Fb); [|exact I].
      destruct Fb as [_ Sd Ey _ _]. apply sort_key_inj in Ey as ->; [|done..]. by eapply list_elem_of_lookup_2.
Qed.
End found.

(** On a table in order a scan is refused, since the range is not one of the table or by the limits, or
    returns the documents that match in index order, all of them or the first [limit]. *)
Definition scan_answer (kv : gmap Bytes Bytes) (table : TableDef) (range : IndexRange) (limits : Limits)
    (r : Result (list Doc * KeyRange) LiveError) : Prop :=
  match r with
  | Ok (docs, _) => ∃ all, all_matching kv table range all
      ∧ match range.(ir_limit) with
        | Some limit => limit <= limits.(max_scanned_docs) ∧ docs = take (N.to_nat limit) all
        | None => len all <= limits.(max_scanned_docs) ∧ docs = all
        end
  | Err e => index_key_range app table range = Err e ∨
      (∃ what message, e = LimitExceeded what message)
      ∧ match range.(ir_limit) with
        | Some limit => limits.(max_scanned_docs) < limit
        | None => ∃ all, all_matching kv table range all ∧ limits.(max_scanned_docs) < len all
        end
  end.

Lemma scan_matching kv table range limits : table_ok app lim kv table → table_wf table → range_ok range →
  (∀ k, is_Some (kv !! k) → Forall (λ b, b < 256) k) → limits.(max_scanned_docs) < u64_MAX →
  scan_answer kv table range limits (scan_fun app kv table range limits).
Proof.
  intros T Wf Ro Bkv Lm. unfold scan_fun. destruct (index_key_range app table range) as [keys|e] eqn:Ek; [|by left].
  destruct (range_documents kv table range keys T Wf Ro Bkv Ek _ eq_refl) as (all & F & M).
  unfold fetched, scan_pairs. set (L := range_pairs _ _ _ _) in *. pose proof (Forall2_length _ _ _ F) as EL.
  assert (∀ n, (if range.(ir_index) =? BY_ID_INDEX then docs_by_id app table (take n L) else entry_docs app table kv (take n L))
               = Ok (take n all)) as Docs.
  { intros n. apply (found_docs kv table range T). by apply Forall2_take. }
  unfold scan_answer. destruct range.(ir_limit) as [limit|] eqn:El.
  - destruct (N.ltb_spec limits.(max_scanned_docs) limit); [by right; split; [eauto|]|].
    cbn [bool_decide]. rewrite bool_decide_eq_false_2 by done. cbn [andb]. rewrite Docs. eauto.
  - rewrite bool_decide_eq_true_2 by done. cbn [andb]. unfold u64_saturating_add.
    rewrite N.min_l by lia. destruct (N.ltb_spec limits.(max_scanned_docs) (len (take (N.to_nat (limits.(max_scanned_docs) + 1)) L))) as [Lt|Le].
    + right. split; [eauto|]. exists all. split; [done|]. unfold len in *. rewrite length_take in Lt. lia.
    + rewrite Docs. unfold len in *. rewrite length_take in Le. exists all. split; [done|]. split; [lia|].
      apply take_ge. lia.
Qed.
End index_range.
