(* ===== verification/LiveDemo.v ===== *)
(** * An example app for the document database

    A store that keeps a map and answers at most two keys at a time, so that reads are paged; codecs
    for the records; and an app with a table of messages, on which the hypotheses of the theorems of
    [LiveProperties] are met. *)

From Stdlib Require Import NArith ZArith Lia Ascii String.
From stdpp Require Import prelude gmap strings numbers list countable.
From S2P Require Import Prelude.
From S2P Require Import BTree.
From S2P Require Import ByteCodec.
From S2P Require Import TikvTuple.
From S2P Require Import LiveKeys.
From S2P Require Import LiveReadSet.
From S2P Require Import TikvTxn.
From S2P Require Import LiveValue.
From S2P Require Import LiveDocs.
From S2P Require Import LiveDocsInv.

Open Scope N_scope.

Module LiveDemo.

(** ** The store *)

Definition bytesb (k : Bytes) : bool := forallb (λ b, b <? 256) k.

Lemma bytesb_true k : bytesb k = true ↔ Forall (λ b, b < 256) k.
Proof.
  unfold bytesb. induction k as [|b k IH]; cbn; [by split|]. rewrite andb_true_iff, N.ltb_lt, IH. by rewrite Forall_cons_iff.
Qed.

Record Store := {
  st_map : gmap Bytes Bytes;
  st_ms : N;
}.

(** The keys that are bytes. *)
Definition st_view (s : Store) : gmap Bytes Bytes := filter (λ p, bytesb p.1 = true) s.(st_map).

Inductive StoreError := TooMany | KeyExists | NotBytes.

Definition PAGE : N := 2.

Definition st_set (s : Store) (k v : Bytes) : Store * Result () StoreError :=
  if bytesb k then ({| st_map := <[k := v]> s.(st_map); st_ms := s.(st_ms) |}, Ok ()) else (s, Err NotBytes).

#[export] Instance store_client : Client Store StoreError := {|
  cl_class e := match e with TooMany => CTooLarge | KeyExists => CAlreadyExists | NotBytes => CFatal end;
  cl_describe e _ := match e with TooMany => "too large" | KeyExists => "exists" | NotBytes => "not bytes" end%string;
  cl_expired _ := false;
  cl_covered _ := true;
  cl_start_ms s := s.(st_ms);
  cl_get s k := (s, Ok (st_view s !! k));
  cl_scan s lo hi n desc := (s, if PAGE <? n then Err TooMany else Ok (scan_pairs (st_view s) lo hi n desc));
  cl_batch_get s ks := (s, if PAGE <? len ks then Err TooMany
                           else Ok (omap (λ k, (λ v, (k, v)) <$> st_view s !! k) ks));
  cl_put := st_set;
  cl_insert s k v := match st_view s !! k with Some _ => (s, Err KeyExists) | None => st_set s k v end;
  cl_delete s k := ({| st_map := delete k s.(st_map); st_ms := s.(st_ms) |}, Ok ());
  cl_lock_keys s _ := (s, Ok ());
|}.

Lemma st_view_set s k v s' : st_set s k v = (s', Ok ()) → st_view s' = <[k := v]> (st_view s) ∧ s'.(st_ms) = s.(st_ms).
Proof.
  unfold st_set, st_view. destruct (bytesb k) eqn:B; [|done]. intros [= <-]. cbn. split; [|done].
  by rewrite map_filter_insert_True.
Qed.

#[export] Instance store_client_ok : ClientOk Store StoreError.
Proof.
  refine {| cl_view := st_view |}; cbn.
  - intros c k [v L]. apply map_lookup_filter_Some in L as [_ L]. by apply bytesb_true.
  - intros c k c' r [= <- <-]. split; [done|]. split; [done|]. by intros v [= <-].
  - intros c lo hi n rev c' r [= <- <-]. split; [done|]. split; [done|]. intros ps. destruct (_ <? _); [done|]. by intros [= <-].
  - intros c ks c' r [= <- <-]. split; [done|]. split; [done|]. intros ps. destruct (_ <? _); [done|]. intros [= <-] k v.
    rewrite list_elem_of_omap. split.
    + intros (k' & I & L). destruct (st_view c !! k') as [v'|] eqn:Lk; [|done]. by injection L as -> ->.
    + intros [I L]. exists k. split; [done|]. by rewrite L.
  - apply st_view_set.
  - intros c k v c'. destruct (st_view c !! k); [done|]. intros S. split; [done|]. by apply st_view_set.
  - intros c k c' [= <-]. split; [|done]. unfold st_view. apply map_filter_delete.
  - by intros c ks c' [= <-].
Defined.

(** ** Codecs *)

Definition PbLeaf : Type := (Z + N) + (bool + string) + Bytes.

Fixpoint pb_tree (v : PbValue) : gen_tree PbLeaf :=
  match v with
  | PbUnset => GenNode 0 []
  | PbNull => GenNode 1 []
  | PbInt64 v => GenLeaf (inl (inl (inl v)))
  | PbDouble v => GenLeaf (inl (inl (inr v)))
  | PbBool b => GenLeaf (inl (inr (inl b)))
  | PbString s => GenLeaf (inl (inr (inr s)))
  | PbBytes b => GenLeaf (inr b)
  | PbArray vs => GenNode 2 (pb_tree <$> vs)
  | PbObject fs => GenNode 3 ((λ f, GenNode 4 [GenLeaf (inl (inr (inr f.1))); pb_tree f.2]) <$> fs)
  end.

Fixpoint tree_pb (t : gen_tree PbLeaf) : PbValue :=
  match t with
  | GenNode 1 _ => PbNull
  | GenLeaf (inl (inl (inl v))) => PbInt64 v
  | GenLeaf (inl (inl (inr v))) => PbDouble v
  | GenLeaf (inl (inr (inl b))) => PbBool b
  | GenLeaf (inl (inr (inr s))) => PbString s
  | GenLeaf (inr b) => PbBytes b
  | GenNode 2 ts => PbArray (tree_pb <$> ts)
  | GenNode 3 ts =>
      PbObject ((λ t, match t with GenNode _ [GenLeaf (inl (inr (inr k))); v] => (k, tree_pb v) | _ => ("", PbUnset) end%string) <$> ts)
  | _ => PbUnset
  end.

Lemma tree_pb_back : ∀ v, tree_pb (pb_tree v) = v.
Proof.
  fix IH 1. intros v. destruct v as [| | | | | | |vs|fs]; cbn; [reflexivity..| |].
  - apply (f_equal PbArray). induction vs as [|v vs IHvs]; cbn; [reflexivity|]. by rewrite IH, IHvs.
  - apply (f_equal PbObject). induction fs as [|[k v] fs IHfs]; cbn; [reflexivity|]. by rewrite IH, IHfs.
Qed.

#[export] Instance PbValue_eq_dec : EqDecision PbValue.
Proof.
  intros a b. destruct (decide (pb_tree a = pb_tree b)) as [Eq|N]; [left|right; congruence].
  by rewrite <- (tree_pb_back a), Eq, tree_pb_back.
Defined.
#[export] Instance PbValue_countable : Countable PbValue := inj_countable' pb_tree tree_pb tree_pb_back.

Definition one_byte {A} `{Countable A} (a : A) : Bytes := [Npos (encode a)].
Definition of_byte {A} `{Countable A} (b : Bytes) : Result A string :=
  match b with
  | [Npos p] => ok_or (decode p) "malformed"%string
  | _ => Err "malformed"%string
  end.

Lemma of_one_byte {A} `{Countable A} (a : A) : of_byte (one_byte a) = Ok a.
Proof. cbn. by rewrite countable.decode_encode. Qed.

Definition record_map {A B} (f : A → B) (r : Result A string) : Result B string :=
  match r with Ok a => Ok (f a) | Err e => Err e end.

#[export] Instance live_codec : LiveCodec := {|
  document_encode r := one_byte (r.(dr_format), r.(dr_creation_ms), r.(dr_fields));
  document_decode b := record_map (λ '(f, m, v), {| dr_format := f; dr_creation_ms := m; dr_fields := v |}) (of_byte b);
  table_encode r := one_byte (r.(pt_format), r.(pt_id), r.(pt_name), r.(pt_indexes), r.(pt_next_index_id));
  table_decode b := record_map (λ '(f, i, n, x, m),
    {| pt_format := f; pt_id := i; pt_name := n; pt_indexes := x; pt_next_index_id := m |}) (of_byte b);
  app_encode r := one_byte (r.(ad_format), r.(ad_journal_shards));
  app_decode b := record_map (λ '(f, s), {| ad_format := f; ad_journal_shards := s |}) (of_byte b);
|}.

#[export] Instance live_codec_ok : LiveCodecOk.
Proof.
  split; intros []; cbn [document_encode document_decode table_encode table_decode app_encode app_decode live_codec];
    by rewrite of_one_byte.
Qed.

#[export] Instance id_text : IdText := {|
  crockford_encode bs := string_of_list_ascii (ascii_of_N <$> bs);
  crockford_decode s := Some (N_of_ascii <$> list_ascii_of_string s);
  crc16 _ := 0;
|}.

#[export] Instance id_text_ok : IdTextOk.
Proof.
  split; cbn.
  - intros bs F. f_equal. rewrite list_ascii_of_string_of_list_ascii, <- list_fmap_compose.
    induction F as [|b bs Lb F IH]; [done|]. cbn. by rewrite IH, N_ascii_embedding.
  - intros s bs [= <-]. apply Forall_fmap, Forall_true. intros a. apply N_ascii_bounded.
  - done.
Qed.

(** ** The app *)

Definition app : AppKeys := dedicated.

Definition messages : TableDef := {|
  tb_id := 1; tb_name := "messages";
  tb_indexes := [{| ix_id := 2; ix_name := "by_room"; ix_fields := ["room"] |}];
  tb_next_index_id := 3;
|}%string.

Definition start : Txn Store := {| tx_inner := {| st_map := ∅; st_ms := 1000 |}; tx_root := [9]; tx_tso_closed := false |}.

Definition id (b : N) : DocId := {| di_table := 1; di_bytes := replicate 15 0 ++ [b] |}.
Definition message (room : string) (n : Z) : gmap string LiveValue :=
  {[ "room" := VStr room; "n" := VI64 n ]}%string.

(** Three messages; the first moves to another room and the second is deleted and the third patched. *)
Definition ops : list DocOp :=
  [DocInsert messages (message "a" 1) (Ok (id 1).(di_bytes)); DocInsert messages (message "a" 2) (Ok (id 2).(di_bytes));
   DocInsert messages (message "b" 3) (Ok (id 3).(di_bytes)); DocReplace messages (id 1) (message "b" 1);
   DocDelete messages (id 2); DocPatch messages (id 3) {[ "n" := VI64 (-3) ]}]%string.

Definition ran : Txn Store * Result (list (DocId * option WriteRecord)) LiveError := run_doc_ops app default_limits start ops.

Lemma ran_ok : ∃ outs, run_doc_ops app default_limits start ops = (ran.1, Ok outs)
  ∧ map fst outs = [id 1; id 2; id 3; id 1; id 2; id 3].
Proof. eexists. split; vm_compute; reflexivity. Qed.

Lemma id_ok b : b < 256 → doc_id_ok (id b).
Proof. intros L. split; [done|done|]. apply Forall_app. split; [apply Forall_replicate; lia|by constructor]. Qed.

Lemma message_ok room n : utf8_valid (string_bytes room) = true → len (string_bytes room) <= u64_MAX → i64_ok n →
  map_Forall (λ _ v, value_ok v) (message room n).
Proof. intros U L I. apply map_Forall_insert_2; [done|]. by apply map_Forall_singleton. Qed.

Lemma ops_ok : Forall (λ op, op_ok op ∧ op_table op ∈ [messages]) ops.
Proof.
  assert (∀ b bytes, b < 256 → Ok (E := string) (di_bytes (id b)) = Ok bytes →
    length bytes = DOC_ID_BYTES ∧ Forall (λ b, b < 256) bytes) as R by (intros b bytes L [= <-]; split; by apply (id_ok b)).
  repeat (apply Forall_cons_2; [split; [|by left]|]); [..|constructor].
  - split; [by apply message_ok|]. intros bytes. by apply R.
  - split; [by apply message_ok|]. intros bytes. by apply R.
  - split; [by apply message_ok|]. intros bytes. by apply R.
  - split; [by apply id_ok|by apply message_ok].
  - by apply id_ok.
  - split; [by apply id_ok|]. by apply map_Forall_singleton.
Qed.

Lemma one_table : one_per_id [messages].
Proof. intros a b Ia Ib _. apply list_elem_of_singleton in Ia as ->. by apply list_elem_of_singleton in Ib as ->. Qed.

Lemma start_in_order : tables_ok app default_limits (txn_view start) [messages].
Proof.
  assert (txn_view start = ∅) as Em by by vm_compute.
  intros table I. apply list_elem_of_singleton in I as ->. rewrite Em. split; [done|..].
  - by intros key _ [].
  - by intros i doc _ _.
  - by intros key _ [].
Qed.

Lemma start_ms : cl_start_ms start.(tx_inner) <= u64_MAX.
Proof. done. Qed.

(** The table of messages is in order after the operations. *)
Lemma ran_tables : table_ok app default_limits (txn_view ran.1) messages.
Proof.
  destruct ran_ok as (outs & R & _).
  destruct (run_doc_ops_refines app default_limits [messages] ops one_table ops_ok start ran.1
    outs (doc_at app (txn_view start)) start_ms start_in_order (λ _ _, eq_refl) R) as [T _].
  apply T. left.
Qed.

End LiveDemo.
