(* ===== verification/LiveProperties.v ===== *)
(** * What the document database guarantees

    The theorems about loams-tikv's tuple codec and paged reads and about loams-live: documents and
    their index entries, scans, and the read sets by which a write finds the queries it can change. *)

From Stdlib Require Import NArith ZArith Lia.
From stdpp Require Import prelude gmap strings numbers sorting list.
From S2P Require Import Prelude.
From S2P Require Import BTree.
From S2P Require Import ByteCodec.
From S2P Require Import TikvTuple.
From S2P Require Import LiveKeys.
From S2P Require Import LiveReadSet.
From S2P Require Import TikvTxn.
From S2P Require Import LiveValue.
From S2P Require Import LiveDocs.
From S2P Require Import LiveDocsInv.
From S2P Require Import LiveScan.
From S2P Require Import LiveMatch.
From S2P Require Import LiveDemo.

Open Scope N_scope.

(** ** Keys *)

(** C25 The order of encoded tuples is the order of their values, whatever bytes follow: two elements
    that differ are told apart by the bytes of their encodings, in the order of the values, and
    elements that compare equal (by [PartialEq]) have the same encoding. *)
Theorem tuple_order_is_value_order a b x y : elem_ok a → elem_ok b →
  (elem_eq a b = true ↔ tuple_encode a = tuple_encode b)
  ∧ (elem_cmp a b ≠ Eq → bytes_cmp (tuple_encode a ++ x) (tuple_encode b ++ y) = elem_cmp a b).
Proof.
  intros Oa Ob. split; [by apply elem_eq_encode|]. pose proof (sorts_elem a b Oa Ob) as S. intros N.
  unfold sorts in S. destruct (elem_cmp a b); [done|apply S..].
Qed.

(** -1 sorts before 2, and the string that is a prefix before the longer one, whatever follows. *)
Lemma tuple_order_witness :
  bytes_cmp (tuple_encode (EI64 (-1)) ++ [255]) (tuple_encode (EI64 2) ++ [0]) = Lt
  ∧ bytes_cmp (tuple_encode (EStr "ab") ++ [255]) (tuple_encode (EStr "abc") ++ []) = Lt.
Proof.
  split.
  - apply (tuple_order_is_value_order (EI64 (-1)) (EI64 2)); [constructor; by vm_compute|constructor; by vm_compute|by vm_compute].
  - apply (tuple_order_is_value_order (EStr "ab") (EStr "abc")); [constructor; by vm_compute|constructor; by vm_compute|by vm_compute].
Defined.

(** C26 An encoded element decodes to itself (a NaN to the canonical one), whatever bytes follow, up to
    the depth of the decoder, and is refused as too deep beyond it. *)
Theorem tuple_round_trip e post : elem_ok e →
  if (elem_depth e <=? MAX_DEPTH)%nat
  then tuple_decode (tuple_encode e ++ post) = Ok (elem_normal e, length (tuple_encode e))
  else ∃ at_, tuple_decode (tuple_encode e ++ post) = Err (TupleTooDeep at_).
Proof.
  intros O. destruct (tuple_decode_encode e O MAX_DEPTH [] post) as [Fits Deep]. unfold tuple_decode.
  destruct (Nat.leb_spec (elem_depth e) MAX_DEPTH); auto.
Qed.

Lemma tuple_round_trip_witness :
  tuple_decode (tuple_encode (EArray [ENull; EBytes [0; 1]; EStr "x"]) ++ [9])
  = Ok (EArray [ENull; EBytes [0; 1]; EStr "x"], length (tuple_encode (EArray [ENull; EBytes [0; 1]; EStr "x"]))).
Proof.
  apply (tuple_round_trip (EArray [ENull; EBytes [0; 1]; EStr "x"]) [9]).
  repeat constructor.
Defined.

(** ** Paged reads *)

(** C24 A scan returns the first [limit] pairs of the range in its direction, however the client cuts
    it into pages: it ends with that answer for any client that refuses nothing but pages of more
    than one key, as too large. *)
Theorem paged_scan_returns_the_range {C E} `{!Client C E, !ClientOk C E} :
  (∀ c lo hi n rev c' e, cl_scan c lo hi n rev = (c', Err e) → cl_class e = CTooLarge ∧ 1 < n) →
  ∀ c root lo hi limit desc, ∃ c',
    paged_scan c root lo hi limit desc = (c', Ok (relative_pair root <$> scan_pairs (cl_view c) lo hi limit desc))
    ∧ cl_view c' = cl_view c.
Proof.
  intros Only c root lo hi limit desc. destruct (paged_scan_total Only c root lo hi limit desc) as (c' & ps & Ep).
  pose proof (paged_scan_spec _ _ _ _ _ _ _ _ Ep) as [[V _] Ps]. exists c'. split; [by rewrite Ep, (Ps ps)|done].
Qed.

#[local] Existing Instances LiveDemo.store_client LiveDemo.store_client_ok LiveDemo.live_codec LiveDemo.live_codec_ok
  LiveDemo.id_text LiveDemo.id_text_ok.

(** The example store answers two keys at a time, and so a scan of four is made of pages. *)
Lemma paged_scan_witness : ∃ c',
  paged_scan {| LiveDemo.st_map := list_to_map ((λ b, ([7; b], [b])) <$> [5; 1; 4; 2; 3]); LiveDemo.st_ms := 0 |}
    [7] [7] (Some [8]) 4 false
  = (c', Ok [([1], [1]); ([2], [2]); ([3], [3]); ([4], [4])]).
Proof.
  destruct (paged_scan_returns_the_range (C := LiveDemo.Store) (E := LiveDemo.StoreError)) with
    (c := {| LiveDemo.st_map := list_to_map ((λ b, ([7; b], [b])) <$> [5; 1; 4; 2; 3]); LiveDemo.st_ms := 0 |})
    (root := [7]) (lo := [7]) (hi := Some [8]) (limit := 4) (desc := false) as (c' & Ep & _).
  - intros c lo hi n rev c' e. cbn. unfold LiveDemo.PAGE. destruct (N.ltb_spec 2 n); [|done]. intros [= _ <-]. split; [done|lia].
  - exists c'. rewrite Ep. f_equal.
Defined.

(** ** Read sets *)

(** C11 The read-set index finds exactly the subscriptions a write can concern: after any sequence of
    insertions and removals of read sets its own invariants hold (as [check_invariants] tests them),
    and a write finds the subscriptions whose read set covers the document's key or one of the index
    keys it adds or removes, and no others. *)
Theorem read_set_index_finds_readers app ops w i :
  let idx := foldl run_op (index_new app) ops in
  let subs := foldl spec_op ∅ ops in
  check_index_invariants idx = Ok ()
  ∧ (i ∈ index_stab idx w ∅ ↔ ∃ rs, subs !! i = Some rs ∧ ∃ key, key ∈ touched_keys app w ∧ covers rs key = true).
Proof.
  intros idx subs. pose proof (run_ops_ok ops _ _ (index_new_ok app)) as O. fold idx subs in O.
  split; [by eapply check_index_ok|]. rewrite (index_stab_ok _ subs) by done. unfold hits, idx. rewrite run_ops_app.
  change (ri_app (index_new app)) with app.
  split.
  - intros [I|(rs & M & X)]; [set_solver|]. exists rs. split; [done|]. apply existsb_exists in X as (key & I & Cv).
    exists key. split; [|done]. by apply list_elem_of_In.
  - intros (rs & M & key & I & Cv). right. exists rs. split; [done|]. apply existsb_exists. exists key. split; [|done].
    by apply list_elem_of_In.
Qed.

(** ** Documents *)

(** C9 Documents behave as a map from ids to documents: any sequence of inserts, replaces, patches and
    deletes that succeeds in a transaction leaves every table in order, each document with exactly its
    index entries and no entry without its document, and the documents as the same operations on a
    map would: an insert adds a new id, a patch keeps the fields it does not name, and a replace keeps
    the creation time. *)
Theorem documents_are_a_map `{IdText, LiveCodec, !LiveCodecOk} {C E : Type} `{!Client C E, !ClientOk C E}
    app limits tables ops (t t' : Txn C) outs :
  one_per_id tables → tables_ok app limits (txn_view t) tables → cl_start_ms t.(tx_inner) <= u64_MAX →
  Forall (λ op, op_ok op ∧ op_table op ∈ tables) ops → run_doc_ops app limits t ops = (t', Ok outs) →
  tables_ok app limits (txn_view t') tables
  ∧ ∃ docs, spec_doc_ops (cl_start_ms t.(tx_inner)) (doc_at app (txn_view t)) ops (map fst outs) = Some docs
    ∧ ∀ id, doc_id_ok id → doc_at app (txn_view t') id = docs id.
Proof.
  intros U T Lm F R. destruct (run_doc_ops_refines app limits tables ops U F t t' outs _ Lm T (λ _ _, eq_refl) R)
    as (T' & _ & docs & Sp & S). split; [done|]. exists docs. split; [done|]. intros id O. symmetry. by apply S.
Qed.

Lemma documents_are_a_map_witness :
  doc_at LiveDemo.app (txn_view LiveDemo.ran.1) (LiveDemo.id 3)
  = Some {| doc_id := LiveDemo.id 3; doc_creation_ms := 1000; doc_fields := LiveDemo.message "b" (-3) |}.
Proof.
  destruct LiveDemo.ran_ok as (outs & R & Ids).
  destruct (documents_are_a_map LiveDemo.app default_limits [LiveDemo.messages] LiveDemo.ops LiveDemo.start LiveDemo.ran.1
    outs LiveDemo.one_table LiveDemo.start_in_order LiveDemo.start_ms LiveDemo.ops_ok R) as [_ (docs & Sp & D)].
  rewrite D by (apply LiveDemo.id_ok; exact eq_refl). rewrite Ids in Sp. vm_compute in Sp. injection Sp as <-. vm_compute. reflexivity.
Defined.

(** C10 A scan returns what its range asks for: on a table in order it is refused, as a range the table
    does not have or by the limits, or returns the documents whose indexed values meet the equalities
    and bounds of the range, all of them or the first [limit], in the order of the index (or the
    reverse); it never finds an entry without its document. *)
Theorem scan_returns_what_matches `{IdText, !IdTextOk, LiveCodec, !LiveCodecOk} {R : Type} `{!Reads R, !ReadsOk R}
    app limits table range (r r' : R) v :
  Forall (λ b, b < 256) app.(ak_prefix) → table_wf table → table_ok app limits (rd_view r) table → range_ok range →
  limits.(max_scanned_docs) < u64_MAX → docs_scan r app table range limits = (r', v) →
  rd_view r' = rd_view r ∧ (scan_answer app (rd_view r) table range limits v ∨ ∃ e, v = Err (LiveTxnError e)).
Proof.
  intros Ba Wf T Ro Lm S. destruct (docs_scan_fun app r table range limits r' v S) as [V [->|Er]]; (split; [done|]); [left|by right].
  apply (scan_matching app Ba limits); try done. apply rd_view_bytes.
Qed.

(** The messages of room [b], by creation time and id: the two the operations left there. *)
Definition room_b : IndexRange := {|
  ir_table := 1; ir_index := 2; ir_eq := [VStr "b"]; ir_lower := Unbound; ir_upper := Unbound; ir_order := Asc; ir_limit := None;
|}.

Lemma messages_wf : table_wf LiveDemo.messages.
Proof. split; [done|by apply Forall_singleton|by apply NoDup_singleton]. Qed.

Lemma room_b_ok : range_ok room_b.
Proof. split; [done|by apply Forall_singleton|by intros v []..]. Qed.

Lemma room_b_scanned : ∃ r docs read,
  docs_scan LiveDemo.ran.1 LiveDemo.app LiveDemo.messages room_b default_limits = (r, Ok (docs, read))
  ∧ map doc_id docs = [LiveDemo.id 1; LiveDemo.id 3].
Proof. eexists _, _, _. split; vm_compute; reflexivity. Qed.

Lemma scan_returns_what_matches_witness : ∃ docs read,
  scan_answer LiveDemo.app (rd_view LiveDemo.ran.1) LiveDemo.messages room_b default_limits (Ok (docs, read))
  ∧ map doc_id docs = [LiveDemo.id 1; LiveDemo.id 3].
Proof.
  destruct room_b_scanned as (r & docs & read & S & Ids). exists docs, read. split; [|exact Ids].
  destruct (scan_returns_what_matches (R := Txn LiveDemo.Store) LiveDemo.app default_limits LiveDemo.messages room_b LiveDemo.ran.1
    r (Ok (docs, read))) as [_ [A|[e Er]]].
  - constructor.
  - exact messages_wf.
  - exact LiveDemo.ran_tables.
  - exact room_b_ok.
  - by vm_compute.
  - exact S.
  - exact A.
  - discriminate Er.
Defined.

(** ** Values and ids *)

(** C39 The digest of a value determines it: two values have the same digest bytes exactly when they
    are equal (all NaNs being equal), and no digest continues another one. *)
Theorem digest_determines_the_value v w x y : value_ok v → value_ok w →
  (digest_value v = digest_value w ↔ value_eq v w = true)
  ∧ (digest_value v ++ x = digest_value w ++ y → value_eq v w = true ∧ x = y).
Proof.
  intros Ov Ow. split; [|by apply digest_value_apart]. split; [|by apply digest_value_eq].
  intros Eq. apply (digest_value_apart v w [] []); [done..|]. by rewrite Eq.
Qed.

(** An array of a string and the string of the same letters. *)
Lemma digest_determines_the_value_witness : digest_value (VArray [VStr "ab"]) ≠ digest_value (VArray [VStr "a"; VStr "b"]).
Proof.
  destruct (digest_determines_the_value (VArray [VStr "ab"]) (VArray [VStr "a"; VStr "b"]) [] []) as [D _].
  - by vm_compute.
  - by vm_compute.
  - intros Eq. apply D in Eq. by vm_compute in Eq.
Defined.


